(* ===== verification/_CoqProject ===== *)
-Q . S2P
Prelude.v
Json.v
Threads.v
Chain.v
SwapTerms.v
Bitcoin.v
Script.v
Toy.v
Sighash.v
Htlc.v
Wallet.v
Swap.v
Ledger.v
Store.v
Relay.v
Matcher.v
Edge.v
SwapApi.v
Watchtower.v
MatchLife.v
StoreGuard.v
EdgeSafety.v
EdgeRoutes.v
EdgeTower.v
EdgeRuns.v
EdgeClaims.v
EdgeFees.v
EdgeToy.v
IndexKeys.v
Index.v
IndexSpec.v
IndexChain.v
IndexApply.v
IndexRead.v
IndexTable.v
IndexParse.v
IndexFetch.v
IndexSync.v
IndexRuns.v
IndexCatchUp.v
IndexClaims.v
IndexMempool.v
IndexPending.v
IndexSpends.v
IndexSearch.v
IndexToy.v
LspRules.v
Lsp.v
LspApi.v
LspNode.v
LspRuns.v
LspSafety.v
LspHeld.v
LspOnce.v
LspCredit.v
LspToy.v
LnPay.v
LnPayOnce.v
LnLock.v
LnChannel.v
LnFunds.v
LnVoid.v
LnRecover.v
LnRescue.v
LnStart.v
LnOneNode.v
LnOneLock.v
LnOneSlot.v
LnOneRun.v
LnOneWallet.v
LnOneToy.v
LnToy.v
