(* ===== verification/Prelude.v ===== *)
(** * A verification library for Fortis

    Fortis is a wallet for two chains, Bitcoin (BTC) and a BLAKE2b fork of it
    (XBT), with servers beside it and a Lightning node on the phone.  This
    development models the parts that move or hold money: how the wallet picks
    coins and swaps across the chains, how the edge server matches swap offers,
    carries swaps through, watches the chains for them and charges its fee, how
    the Lightning service provider keeps customers' balances, how the phone's
    Lightning node pays, closes channels, accounts for its funds and is
    recovered, and how the block index answers for addresses.

    ** The program

    - [crates/wallet-core] runs on the phone.  [wallet.rs] plans transactions
      from the coins it is given.  [swap_terms.rs] checks the terms of a match,
      [swap.rs] derives from them, on each phone, the contracts of both legs,
      [htlc.rs] writes a contract's script and spends it, [sighash.rs] computes
      what a signature commits to, [keys.rs] signs.
    - [crates/fortis-edge] is the server phones talk to.  [swap/store.rs] keeps
      offers, matches, relayed messages, watch jobs and strikes in RocksDB;
      [swap/matcher.rs] pairs offers, writes the terms both phones then check,
      and enforces the deadlines; [swap/mod.rs] answers the [/swap/*] requests;
      [swap/relay.rs] carries messages between the two phones of a match;
      [swap/watchtower.rs] looks at the chains every minute, sends the spends
      phones left with it, starts deadlines, closes matches and drops old data.
      [pricing.rs] and [ln_fee.rs] decide which broadcasts must pay the fee.
    - [crates/fortis-lsp] is the Lightning service provider; [account.rs] is the
      SQLite ledger of its customers' balances, [account_api.rs] and
      [account_auth.rs] answer their signed requests, [held.rs] keeps payments
      for a phone that is off line, [conversion.rs] and [outbound.rs] move
      balances into channels, [main.rs] carries out the events of its Lightning
      node in one thread and answers requests in another.
    - [crates/fortis-lightning] is the phone's Lightning node, on ldk-node.
      [pay.rs] pays, [device.rs] keeps a wallet to one active phone,
      [channel.rs] opens, splices and closes channels and splits the funds into
      what the user sees, [recover.rs] finds and sweeps what force-closed
      channels left, from the seed alone.
    - [crates/fortis-index] indexes the blocks of a node by P2WPKH program, in
      RocksDB.  [fetch.rs] gets blocks in parallel, [chain.rs] and [extract.rs]
      read them, [sync.rs] applies them and takes them back when the node
      reorganises, [db.rs] turns blocks into rows ([keys.rs]) and rows into
      answers, [chainstate.rs] holds the table of blocks readers share,
      [mempool.rs] keeps a view of pending transactions, [spends.rs] finds who
      spent an output.

    A swap goes through the first two: the matcher makes a match whose terms
    each phone validates; the initiator draws a secret and funds the XBT leg,
    the participant checks that leg and funds the BTC leg, the initiator redeems
    it and so publishes the secret, the participant redeems the XBT leg with it.
    Each leg can be refunded after its lock time, the XBT leg long after the
    BTC leg; a leg of a version-2 contract can be released earlier when both
    sign.  The phone's Lightning node has its channels with the provider, which
    holds on the ledger what a phone cannot take yet.

    ** The files

    Shared:
    - [Prelude]: outcomes of Rust code (ok, error, panic) as a monad, machine
      integers, byte strings, insertion sort and sums, shared lemmas and tactics.
    - [Json]: text, JSON values, the replies of the edge's [main.rs].
    - [Threads]: programs of atomic steps, pools of them that interleave, crews
      that restart, and rely-guarantee reasoning about them.
    - [Chain]: [chain.rs], [error.rs].
    - [SwapTerms]: [swap_terms.rs], the timelocks of [swap.rs].
    - [Bitcoin]: the data of the bitcoin crate, and its functions as the
      parameter [BitcoinLib], with what is assumed of them as classes of laws.
    - [Script]: evaluation of Bitcoin Script as the interface [ScriptVM].
    - [Toy]: a concrete instance of those interfaces, for the examples.

    The wallet:
    - [Sighash]: [sighash.rs].
    - [Htlc]: [htlc.rs].
    - [Wallet]: [wallet.rs].
    - [Swap]: [swap.rs], the swap key of [keys.rs].

    The edge:
    - [Store]: [store.rs], a column family per field of [Store], and two logs
      that no code reads: every match and every watch job ever written.
    - [Relay]: the messages of [store.rs] as a log per match.
    - [Matcher]: [matcher.rs].
    - [Edge]: the world the edge's threads share, its effects, the parts of
      [swap/mod.rs] the routes and the watchtower both use, and [relay.rs].
    - [SwapApi]: the routes of [swap/mod.rs].
    - [Watchtower]: a pass of [watchtower.rs], over the interface [ChainReader].
    - [MatchLife]: the specification of a match's life, a step relation.
    - [StoreGuard], [EdgeSafety], [EdgeRoutes], [EdgeTower]: every store
      operation, route and pass keeps the world's invariant and moves matches
      only as [MatchLife] says.
    - [EdgeRuns]: the consequences for every interleaving.
    - [EdgeClaims]: theorems on single routes and choices.
    - [EdgeFees]: [pricing.rs], [ln_fee.rs] and the gate of a broadcast in
      [main.rs].
    - [EdgeToy]: a concrete environment and a run of thirteen requests and
      passes in it, which the witnesses evaluate.

    The index:
    - [IndexKeys]: [keys.rs] and the undo records of [db.rs].
    - [Index]: [chain.rs], [extract.rs], the batches and reads of [db.rs].
    - [IndexSpec], [IndexChain]: the abstract index of a chain of blocks (its
      transactions in order and the unspent outputs they leave), and what it
      means that a database represents it ([represents]).
    - [IndexApply], [IndexRead]: batches and reads refine it.
    - [IndexTable]: [chainstate.rs].
    - [IndexParse]: blocks read from bytes are typed.
    - [IndexFetch]: [fetch.rs], a machine of threads over the trait [BlockSource].
    - [IndexSync]: [sync.rs], the start of [main.rs], [view].
    - [IndexRuns], [IndexCatchUp]: every run of the syncer, with crashes; a
      pass against a node that keeps to one chain.
    - [IndexMempool]: [mempool.rs]; [IndexPending]: its view is exactly what the
      pending transactions do.
    - [IndexSpends]: [spends.rs]; [IndexSearch]: a search that is asked again
      finds the spend.
    - [IndexClaims], [IndexToy]: the theorems on the index, and concrete nodes
      for their witnesses.

    The provider:
    - [Ledger]: [account.rs], a table of the database per field of [Db].
    - [LspRules]: the functions without effects of [config.rs],
      [account_api.rs], [conversion.rs] and [outbound.rs]: payment bounds,
      withdrawals, plans, what to open.
    - [Lsp]: the world of the service (ledger, clock, disk, calls made) and its
      effects; [account_auth.rs].
    - [LspApi]: the handlers of [account_api.rs]; [LspNode]: [held.rs], the
      events and rounds of [main.rs], [admin.rs], [push.rs].
    - [LspRuns]: two threads with restarts, and the ledger's invariant over
      every run; [LspSafety]: signed requests; [LspHeld], [LspOnce]: payments
      and balances that are sent on; [LspCredit]: who can use up a credit.
    - [LspToy]: a concrete service, for witnesses and counterexamples.

    The phone's Lightning node:
    - [LnPay]: [pay.rs] and [error.rs]; [LnPayOnce]: no invoice is paid twice,
      over concurrent calls, restarts and power cuts.
    - [LnLock]: [device.rs] over a store that loses requests and answers.
    - [LnChannel]: [channel.rs]; [LnFunds]: the split of the funds and the file
      of close records; [LnVoid]: when the transit wallet may be swept.
    - [LnRecover]: [recover.rs]; [LnRescue]: a scan finds every coin, a sweep
      spends exactly those.
    - [LnStart]: starting, stopping and checking of [node.rs], with the claims,
      the shared slots and the holders of a running node; [LnOneNode]: the
      invariant and what a thread has of a run; [LnOneLock], [LnOneSlot]: the
      steps on the device lock and on a node's slot; [LnOneRun]: every call and
      thread; [LnOneWallet]: any number of them; [LnOneToy]: two nodes on one
      wallet.
    - [LnToy]: concrete nodes for the witnesses, and counterexamples.

    Definitions keep the names of the functions they translate, with a short
    prefix where two records share a field name ([o_price], [m_status]); a loop
    inside a function is a definition of its own named after it ([pay_loop],
    [spend_fees_loop]).

    ** What is shown

    The claims are numbered in the doc comments of their theorems, the most
    important of a group first.
    - Terms: [validate_terms_spec] ([validate_terms] accepts exactly an
      order-free specification), [accepted_terms_leg_order] (accepted terms keep
      the two refunds in order and leave the participant time).
    - Contracts: [contract_v2_spends] (a version-2 script is spendable in
      exactly the ways intended, on every Script evaluator that follows the
      documented opcode rules), [contract_spend_reveals] (every spend through
      the hashlock shows the secret); beside them [contract_v1_spends] and
      [contract_spend_conserves].
    - The swap: [contracts_agree], [swap_atomic] (the participant cannot lose
      its leg without learning the secret that opens the other),
      [release_handshake].
    - The edge, over every interleaving of requests and passes:
      [edge_refines_match_life], [edge_sends_only_spends] (what the watchtower
      sends comes from a job in the log of the store), and beside them
      [edge_match_history] and [edge_release_final]; for single calls
      [strangers_have_no_effect] (a private request without its secret is
      refused and changes nothing), [match_rounds_settle],
      [matched_terms_accepted] (incoming, by code and by id; both offers are the
      store's), [cancel_restores], [tick_enforces_deadlines].
    - The fee: [exempt_exact] (the exemption is its rule, within sixty lookups).
    - The index, over every run and whatever the node answers:
      [index_always_represents], [index_survives_crash],
      [view_reads_one_chain], [index_catches_up]; for single operations
      [rollback_undoes_apply], [fetch_in_order], [parsed_block_typed], and beside
      them [apply_batch_extends] and [utxos_largest_exact]; [mempool_view_exact];
      [search_finds] (a spend within the window is found after a bounded number
      of requests, or refused at once when its funding is too deep).
    - The provider: [service_keeps_ledger] (over every run of both threads and
      every restart balances are explained by entries and holds are covered),
      [request_isolated], [request_once], [request_payments_covered],
      [held_paid_once], [deliveries_backed], [payment_bounds_exact]; beside them
      [withdrawal_exact] and [credit_once].  [credit_used_up],
      [conversion_overdraws], [replay_overtaken], [delivered_twice] and
      [delivered_unclaimed] show where the code falls short.  [request_once]
      says for which clocks it holds.
    - The phone's node: [unknown_payment_not_resent], [replaced_holder_refused],
      [breakdown_counts_once] (what the parts of the funds add up to: closes
      count once, and by how much other unconfirmed money can fall short),
      [sweep_guarded] (what a sweep has seen of closed channels), [scan_exact], [sweep_exact]; beside them [closes_survive];
      [lock_version_reused] and [overtaken_look_sweeps] show where the code
      falls short, as [reorged_block_skipped] does for the index.
    - Its starts and stops, over every interleaving: [one_node_per_wallet] (no
      wallet has two ldk-nodes), [lost_lock_is_final] (no check passes after a
      lost lock was seen, and an installed node has its lock or lost it).
    - Coin selection: [plan_payment_sound], [plan_payment_insufficient]: plans
      conserve value, pay what was asked, charge a fee within stated bounds, and
      fail only when funds really are short.
    - Signatures: [unified_sighash_commits]: the fork's signature hash commits
      to the spent outputs and the outputs paid, up to SHA-256 collisions on the
      strings hashed.

    Further theorems of the same kind stand next to their components: the limit
    price, version-1 contracts, fills and best price first, transfers and
    conversions, the relay's log, replayed posts, the watchtower's choice of a
    variant, plans with the fee taken from the amount.

    ** Threads

    A route, a pass or a call is a program ([Prog]): a tree of atomic steps on
    the shared world.  One read of a store, one answer of the chain, the clock,
    the Lightning node or the random source, and one section under a lock are a
    step each; between any two of them every other thread may run.  On the edge
    a message is pushed in a step of its own after its section (the source
    still holds the lock there, so this allows more interleavings than it has),
    and retention, which takes no lock, is a step per record.  A pool is a list
    of programs; requests and passes join at any time.  Answers from outside are
    functions of the number of questions asked so far, so they may change
    arbitrarily from one question to the next.  That goes for clocks too: a
    theorem that needs more of one says so, or says what it shows in terms of
    what the clock has shown.

    The syncer of the index is such a program too.  Its database is what was
    flushed and the batches written since, each with how it was written; other
    threads write rendered transactions and RocksDB flushes a prefix of the
    batches at any time, and a crash keeps what was flushed, every synced batch,
    and any of the batches that are in the log only.  A fetch is a machine of
    its own ([fetch_step]); what the syncer takes from it is a list whose heights
    follow each other, which [fetch_in_order] shows.

    The provider has two threads, one for the events of its Lightning node and
    its rounds and one for requests; a restart ends both at any step and starts
    them anew.  On the phone any number of calls run at once ([crew]); a file is
    what the system shows and what a power cut may bring back instead ([Disk]),
    and a restart picks one of them.  In the model of starts and stops a running
    node is shared: its holders are a multiset, the last one to let go drops it,
    and what a thread has of a run (its claim, the node under it, the lock it
    took, its holds) is the view of the world that no other thread changes.

    ** Interfaces and assumptions

    Code outside the repository is never given a definition.  It is a class
    whose fields are the functions called, and separate classes hold the
    documented facts used: [SerLaws] (widths of consensus encodings and of
    SHA-256), [ScriptCodec] (a built script reads back), [SpendLaws] and
    [ScriptVM] (Script), [KeyLaws] (a signature verifies under its own key),
    [HexLaws] (hex and consensus serialization read back), [CodecLaws] (hex text
    has no white space around it, and reading a transaction from hex reads its
    bytes), [DeriveLaws] (the range of a BIP-32 index), [BodyLaws] (decoded
    amounts fit [u64]), [DecodeLaws] (sizes of hashes, scripts and encoded
    transactions), [HashOrder] (a [HashSet] is gone through in some order),
    [LockText] (JSON and hex of a lock record read back).
    [NodeLaws] is what the index assumes of the blocks it is served: they are
    typed and numbered as [parsed_block_typed] and [fetch_in_order] show, a hash
    names one block, a transaction funds no output that is still unspent (BIP
    30), and a chain has fewer than 2^32 blocks and 2^40 transactions.  Random
    ids are a function of the number of ids drawn; [FreshIds] says no id is
    drawn twice, and only the theorems on interleavings assume it.
    The examples instantiate all of these.

    [Writes] is the interface between [Store] and its clients: an operation
    only writes through the store's steps.  The store's invariants are proved
    on steps, so they hold for every operation of [Matcher] at once.
    [HoldProtocol] is what the ledger promises a request that takes a hold; the
    request's programs are walked through once against it, and the theorems on
    payments instantiate it.
    [ChainReader] is the interface between the edge and the chains, [PayEnv],
    [LnNode] and [ChanNode] between the phone's node and ldk-node, [Link]
    between a phone and the remote store, [NodeEnv] between the starts and stops
    of a node and all they call, [SpendNode] between the index and its node.

    ** Numbers, errors, termination

    Machine integers are [Z] with the width written where it matters: checked,
    saturating and wrapping operations are those of the source, for a release
    build (plain [+] and [-] wrap).  [Amount] arithmetic that overflows is
    [Panic].  The loops of the sources run over lists and are structural, with
    a few exceptions.  The matching loop of a new offer takes fuel; one round
    more than the offer's amount is enough, and then it ends because nothing
    more matches ([match_rounds_settle]).  A long poll takes the number of times
    its waiter wakes up.  Unwinding takes as many rounds as the table has
    blocks, pairing a table with a snapshot the tries of the source; a fetch is
    a relation whose runs are bounded by what is left to do.  The search for
    payment bounds has the rounds of the source, which are enough
    ([payment_bounds_exact]); a sweep's fee has eight; a search of blocks reads
    the fifty of one request; retries are those of the source.

    An operation of the ledger is one transaction, and sequences of whole
    operations are what its theorems quantify over; the methods that commit
    more than one statement ([use_nonce], [held_update]) or take the lock twice
    ([settle_send_tx], [start_conversion_tx]) are programs of several.  A store
    operation that fails half way keeps what it wrote before, as RocksDB does.

    ** Not modelled

    Failures of the edge's and the index's databases themselves; the decoders
    serde derives; SQLite's turn to floating point above 63 bits; key derivation
    from the seed and PSBTs ([psbt.rs], [account_import.rs] are format
    conversions through the bitcoin crate); lines for the journal; the HTTP
    reader of the chains ([UpstreamReader]); prices in floating point
    ([neoxex.rs], [price.rs], [fx.rs], the bitcoind scan of [recover.rs]); the
    threads with which [recover.rs] asks Esplora; the keys of the phone's node
    and the loop over ldk-node's events ([node.rs]), parsing of payment targets
    ([parse.rs]) and LNURL; the index's HTTP API and rendering; and the rest of
    the repository: the edge's proxy and caches, process supervision, bindings
    and user interfaces. *)

From stdpp Require Export base gmap strings list sorting numbers pretty.
From Stdlib Require Export ZArith Lia.
From Stdlib Require Export Strings.Byte.


Open Scope Z_scope.

(** ** Outcomes of Rust code

    A fallible function returns [Ok] or [Err]; a call that would unwind
    ([expect], an arithmetic operator of [Amount] that overflows) is
    [Panic].  The bind of this monad is Rust's [?]. *)
Inductive result (E A : Type) : Type :=
| Ok (a : A)
| Err (e : E)
| Panic.

Arguments Ok {E A} a.
Arguments Err {E A} e.
Arguments Panic {E A}.

#[export] Instance result_ret {E} : MRet (result E) := λ A a, Ok a.

#[export] Instance result_bind {E} : MBind (result E) := λ A B f r,
  match r with
  | Ok a => f a
  | Err e => Err e
  | Panic => Panic
  end.

#[export] Instance result_fmap {E} : FMap (result E) := λ A B f r,
  match r with
  | Ok a => Ok (f a)
  | Err e => Err e
  | Panic => Panic
  end.

(** [Option::ok_or] and [Result::ok]. *)
Definition ok_or {E A} (o : option A) (e : E) : result E A :=
  match o with Some a => Ok a | None => Err e end.

Definition to_option {E A} (r : result E A) : option A :=
  match r with Ok a => Some a | _ => None end.

(** [Option::expect]. *)
Definition expect {E A} (o : option A) : result E A :=
  match o with Some a => Ok a | None => Panic end.

(** [if c { return Err(e) }]. *)
Definition bail_if {E} (c : bool) (e : E) : result E unit :=
  if c then Err e else Ok tt.

(** [iter.map(f).collect::<Result<Vec<_>>>()]: stops at the first failure. *)
Fixpoint collect {E A B} (f : A → result E B) (l : list A) : result E (list B) :=
  match l with
  | [] => Ok []
  | a :: l => b ← f a; bs ← collect f l; mret (b :: bs)
  end.

Lemma bind_Ok {E A B} (r : result E A) (f : A → result E B) (b : B) :
  (r ≫= f) = Ok b ↔ ∃ a, r = Ok a ∧ f a = Ok b.
Proof. destruct r; simpl; naive_solver. Qed.

Lemma ok_or_Ok {E A} (o : option A) (e : E) (a : A) :
  ok_or o e = Ok a ↔ o = Some a.
Proof. destruct o; simpl; naive_solver. Qed.

Lemma expect_Ok {E A} (o : option A) (a : A) :
  @expect E A o = Ok a ↔ o = Some a.
Proof. destruct o; simpl; naive_solver. Qed.

Lemma bail_if_Ok {E} (c : bool) (e : E) (u : unit) :
  bail_if c e = Ok u ↔ c = false.
Proof. destruct c, u; simpl; naive_solver. Qed.

Lemma bail_if_bind_Ok {E A} (c : bool) (e : E) (k : result E A) (a : A) :
  ((_ ← bail_if c e; k) = Ok a) ↔ c = false ∧ k = Ok a.
Proof. destruct c; simpl; naive_solver. Qed.

(** Running a computation to see that it succeeds with a value that passes a
    test; this is how concrete examples are evaluated. *)
Definition ok_with {E A} (P : A → bool) (r : result E A) : bool :=
  match r with Ok a => P a | _ => false end.

Lemma ok_with_elim {E A} (P : A → bool) (r : result E A) :
  ok_with P r = true → ∃ a, r = Ok a ∧ P a = true.
Proof. destruct r; simpl; by eauto. Qed.

Definition err_with {E A} (P : E → bool) (r : result E A) : bool :=
  match r with Err e => P e | _ => false end.

Lemma err_with_elim {E A} (P : E → bool) (r : result E A) :
  err_with P r = true → ∃ e, r = Err e ∧ P e = true.
Proof. destruct r; simpl; by eauto. Qed.

Lemma collect_Ok {E A B} (f : A → result E B) (l : list A) (bs : list B) :
  collect f l = Ok bs ↔ Forall2 (λ a b, f a = Ok b) l bs.
Proof.
  revert bs. induction l as [|a l IH]; intros bs; simpl.
  - split; [intros [= <-]; constructor|]. by inversion 1.
  - rewrite bind_Ok. setoid_rewrite bind_Ok. setoid_rewrite IH. split.
    + intros (b & Hb & bs' & Hbs & [= <-]). by constructor.
    + inversion 1; subst. eauto 10.
Qed.

Lemma collect_Forall {E A B} (f : A → result E B) (P : B → Prop) l bs :
  collect f l = Ok bs → (∀ a b, a ∈ l → f a = Ok b → P b) → Forall P bs.
Proof.
  rewrite collect_Ok. induction 1 as [|a b l bs Hab Hl IH]; constructor.
  - eauto using list_elem_of_here.
  - apply IH. intros a' b' Hin. apply H. by right.
Qed.

(** ** Machine integers

    An integer of the code is a [Z]; its width is written in each operation. *)
Definition u8_max : Z := 2^8 - 1.
Definition u16_max : Z := 2^16 - 1.
Definition u32_max : Z := 2^32 - 1.
Definition u64_max : Z := 2^64 - 1.
Definition u128_max : Z := 2^128 - 1.
Definition i64_max : Z := 2^63 - 1.

Definition in_range (max z : Z) : Prop := 0 ≤ z ≤ max.
Abbreviation u8 := (in_range u8_max).
Abbreviation u32 := (in_range u32_max).
Abbreviation u64 := (in_range u64_max).

#[export] Instance in_range_dec max z : Decision (in_range max z).
Proof. unfold in_range. apply _. Defined.

(** Release-build [+] on an unsigned type: wraps. *)
Definition wrapping_add (max a b : Z) : Z := (a + b) mod (max + 1).

Definition saturating_add (max a b : Z) : Z := Z.min (a + b) max.
Definition saturating_mul (max a b : Z) : Z := Z.min (a * b) max.
Definition saturating_sub (a b : Z) : Z := Z.max (a - b) 0.

Definition checked_add (max a b : Z) : option Z :=
  if a + b <=? max then Some (a + b) else None.
Definition checked_sub (a b : Z) : option Z :=
  if b <=? a then Some (a - b) else None.

Definition abs_diff (a b : Z) : Z := Z.abs (a - b).

(** [u32::try_from(n)] and the like. *)
Definition try_from (max n : Z) : option Z :=
  if (0 <=? n) && (n <=? max) then Some n else None.

Lemma checked_add_Some max a b c :
  checked_add max a b = Some c ↔ c = a + b ∧ a + b ≤ max.
Proof. unfold checked_add. case_match; naive_solver lia. Qed.

Lemma checked_sub_Some a b c :
  checked_sub a b = Some c ↔ c = a - b ∧ b ≤ a.
Proof. unfold checked_sub. case_match; naive_solver lia. Qed.

Lemma checked_sub_None a b : checked_sub a b = None ↔ a < b.
Proof. unfold checked_sub. case_match; naive_solver lia. Qed.

Lemma try_from_Some max n m : try_from max n = Some m ↔ m = n ∧ 0 ≤ n ≤ max.
Proof. unfold try_from. case_match; naive_solver lia. Qed.

Lemma wrapping_add_range max a b : 0 ≤ max → in_range max (wrapping_add max a b).
Proof. intros. unfold in_range, wrapping_add. pose proof (Z.mod_pos_bound (a + b) (max + 1)). lia. Qed.

Lemma wrapping_add_small max a b :
  0 ≤ a + b ≤ max → wrapping_add max a b = a + b.
Proof. intros. unfold wrapping_add. apply Z.mod_small. lia. Qed.

(** ** Bytes *)
Abbreviation bytes := (list byte).

#[export] Instance byte_eq_dec : EqDecision byte := Byte.byte_eq_dec.

Definition byte_of_Z (z : Z) : byte :=
  match Byte.of_N (Z.to_N (z mod 256)) with Some b => b | None => x00 end.

Definition Z_of_byte (b : byte) : Z := Z.of_N (Byte.to_N b).

(** [to_le_bytes] of an [n]-byte integer. *)
Fixpoint le_bytes (n : nat) (z : Z) : bytes :=
  match n with
  | O => []
  | S n => byte_of_Z z :: le_bytes n (z / 256)
  end.

Lemma Z_of_byte_of_Z z : Z_of_byte (byte_of_Z z) = z mod 256.
Proof.
  unfold byte_of_Z, Z_of_byte.
  pose proof (Z.mod_pos_bound z 256 ltac:(lia)) as Hb.
  destruct (Byte.of_N _) as [b|] eqn:E.
  - apply Byte.to_of_N_iff in E. rewrite E. lia.
  - apply Byte.of_N_None_iff in E. lia.
Qed.

Lemma Z_of_byte_inj a b : Z_of_byte a = Z_of_byte b → a = b.
Proof. unfold Z_of_byte. intros E%N2Z.inj. apply (f_equal Byte.of_N) in E. rewrite !Byte.of_to_N in E. by simplify_eq. Qed.

(** Comparing bytes by or-ing their differences together. *)
Lemma or_diffs (l : list (byte * byte)) acc :
  foldl (λ acc x, Z.lor acc (Z.lxor (Z_of_byte (fst x)) (Z_of_byte (snd x)))) acc l = 0 ↔
  acc = 0 ∧ Forall (λ x, fst x = snd x) l.
Proof.
  revert acc. induction l as [|[a b] l IH]; intros acc; simpl; [rewrite Forall_nil; tauto|].
  rewrite IH, Forall_cons, Z.lor_eq_0_iff, Z.lxor_eq_0_iff. simpl. split.
  - intros [[? E%Z_of_byte_inj] ?]. done.
  - intros [? [-> ?]]. done.
Qed.

Lemma no_diffs (a b : bytes) : length a = length b →
  foldl (λ acc x, Z.lor acc (Z.lxor (Z_of_byte (fst x)) (Z_of_byte (snd x)))) 0 (zip a b) = 0 ↔ a = b.
Proof.
  intros Hlen. rewrite or_diffs. split; [intros [_ Hall]|intros ->].
  - revert b Hlen Hall. induction a as [|x a IH]; intros [|y b] Hlen Hall; try done.
    simpl in *. apply Forall_cons in Hall as [? ?]. simpl in *. f_equal; auto.
  - split; [done|]. clear. induction b; constructor; done.
Qed.

Lemma length_le_bytes n z : length (le_bytes n z) = n.
Proof. revert z. induction n; intros; simpl; auto. Qed.

Lemma le_bytes_inj n a b :
  0 ≤ a < 256 ^ Z.of_nat n → 0 ≤ b < 256 ^ Z.of_nat n →
  le_bytes n a = le_bytes n b → a = b.
Proof.
  revert a b. induction n as [|n IH]; intros a b Ha Hb; simpl.
  - rewrite Z.pow_0_r in *. lia.
  - intros [= Hh Ht]. apply (f_equal Z_of_byte) in Hh.
    rewrite !Z_of_byte_of_Z in Hh.
    rewrite Nat2Z.inj_succ, Z.pow_succ_r in Ha, Hb by lia.
    apply IH in Ht; [|split; [apply Z.div_pos; lia|apply Z.div_lt_upper_bound; lia]..].
    rewrite (Z.div_mod a 256), (Z.div_mod b 256) by lia. lia.
Qed.

(** ** Sums and lists *)
Definition sumZ {A} (f : A → Z) (l : list A) : Z := foldr (λ a s, f a + s) 0 l.

Lemma sumZ_cons {A} (f : A → Z) a l : sumZ f (a :: l) = f a + sumZ f l.
Proof. done. Qed.

Lemma sumZ_nil {A} (f : A → Z) : sumZ f [] = 0.
Proof. done. Qed.

Lemma sumZ_app {A} (f : A → Z) l1 l2 : sumZ f (l1 ++ l2) = sumZ f l1 + sumZ f l2.
Proof. unfold sumZ. induction l1 as [|a l IH]; simpl; lia. Qed.

Lemma sumZ_map {A B} (f : B → Z) (g : A → B) l : sumZ f (map g l) = sumZ (λ a, f (g a)) l.
Proof. unfold sumZ. induction l; simpl; lia. Qed.

Lemma sumZ_nonneg {A} (f : A → Z) l : Forall (λ a, 0 ≤ f a) l → 0 ≤ sumZ f l.
Proof. unfold sumZ. induction 1; simpl; lia. Qed.

Lemma sumZ_const {A} (c : Z) (l : list A) : sumZ (λ _, c) l = c * Z.of_nat (length l).
Proof. unfold sumZ. induction l; simpl; lia. Qed.

#[export] Instance sumZ_Permutation {A} (f : A → Z) : Proper ((≡ₚ) ==> (=)) (sumZ f).
Proof. intros l1 l2 Hl. unfold sumZ. induction Hl; simpl; lia. Qed.

Lemma StronglySorted_filter {A} (R : relation A) (P : A → Prop) `{∀ x, Decision (P x)} l :
  StronglySorted R l → StronglySorted R (filter P l).
Proof.
  induction 1 as [|x l _ IH Hx]; [constructor|]. rewrite filter_cons. case_decide; [|done]. constructor; [done|].
  rewrite Forall_forall in Hx |- *. intros y [_ Hy]%list_elem_of_filter. by apply Hx.
Qed.

(** ** Stable sorting

    [sort_by leb] is the stable sort of [slice::sort_by]: an element stays
    before the ones it compares equal to. *)
Section sort_by.
Context {A : Type} (leb : A → A → bool).

Fixpoint insert_by (x : A) (l : list A) : list A :=
  match l with
  | [] => [x]
  | y :: l' => if leb x y then x :: l else y :: insert_by x l'
  end.

Definition sort_by (l : list A) : list A := foldr insert_by [] l.

Lemma insert_by_Permutation x l : insert_by x l ≡ₚ x :: l.
Proof.
  induction l as [|y l IH]; simpl; [done|]. destruct (leb x y); [done|].
  rewrite IH. apply Permutation_swap.
Qed.

Lemma sort_by_Permutation l : sort_by l ≡ₚ l.
Proof. induction l as [|x l IH]; simpl; [done|]. by rewrite insert_by_Permutation, IH. Qed.

Definition ordered (l : list A) : Prop := StronglySorted (λ x y, leb x y = true) l.

Lemma insert_by_sorted x l :
  (∀ a b, leb a b = true ∨ leb b a = true) →
  (∀ a b c, leb a b = true → leb b c = true → leb a c = true) →
  ordered l → ordered (insert_by x l).
Proof.
  intros Htot Htr. induction 1 as [|y l Hl IH Hy]; simpl.
  - constructor; constructor.
  - destruct (leb x y) eqn:E.
    + constructor; [by constructor|]. constructor; [done|].
      eapply Forall_impl; [exact Hy|]. eauto.
    + constructor; [done|]. rewrite insert_by_Permutation. constructor; [|done].
      destruct (Htot x y); congruence.
Qed.

Lemma sort_by_sorted l :
  (∀ a b, leb a b = true ∨ leb b a = true) →
  (∀ a b c, leb a b = true → leb b c = true → leb a c = true) →
  ordered (sort_by l).
Proof. intros. induction l; simpl; [constructor|]. by apply insert_by_sorted. Qed.

End sort_by.

(** ** Automation

    [crush] takes a hypothesis [... = Ok _] apart along the binds, the
    guards and the matches of the code, as far as it goes. *)
Ltac simp_step :=
  match goal with
  | H : Ok _ = Ok _ |- _ => injection H as H; try subst
  | H : Some _ = Some _ |- _ => injection H as H; try subst
  | H : Err _ = Ok _ |- _ => discriminate H
  | H : Panic = Ok _ |- _ => discriminate H
  | H : None = Some _ |- _ => discriminate H
  | H : mret _ = Ok _ |- _ => unfold mret, result_ret in H
  | H : (_ ← bail_if _ _; _) = Ok _ |- _ =>
      apply bail_if_bind_Ok in H; destruct H as [? H]
  | H : (_ ≫= _) = Ok _ |- _ =>
      apply bind_Ok in H; destruct H as (? & ? & H)
  | H : ok_or _ _ = Ok _ |- _ => apply ok_or_Ok in H
  | H : expect _ = Ok _ |- _ => apply expect_Ok in H
  | H : bail_if _ _ = Ok _ |- _ => apply bail_if_Ok in H
  | H : checked_add _ _ _ = Some _ |- _ => apply checked_add_Some in H
  | H : checked_sub _ _ = Some _ |- _ => apply checked_sub_Some in H
  | H : _ ∧ _ |- _ => destruct H
  | H : negb _ = true |- _ => apply negb_true_iff in H
  | H : negb _ = false |- _ => apply negb_false_iff in H
  | H : _ && _ = true |- _ => apply andb_true_iff in H
  | H : _ || _ = false |- _ => apply orb_false_iff in H
  end.
Ltac simp := repeat simp_step.

#[export] Instance byte_countable : Countable byte.
Proof.
  refine (inj_countable Byte.to_N Byte.of_N _). apply Byte.of_to_N.
Defined.

(** ** Sums over finite maps *)
Definition msum {A} (f : string → A → Z) (m : gmap string A) : Z :=
  map_fold (λ i x acc, f i x + acc) 0 m.

Section msum.
Context {A : Type} (f : string → A → Z).

Lemma msum_empty : msum f ∅ = 0.
Proof. apply map_fold_empty. Qed.

Lemma msum_insert m i x : m !! i = None → msum f (<[i := x]> m) = f i x + msum f m.
Proof.
  intros. unfold msum. rewrite (map_fold_insert_L _ 0 i x m); [done|intros; lia|done].
Qed.

Lemma msum_delete m i x : m !! i = Some x → msum f (delete i m) = msum f m - f i x.
Proof.
  intros Hi. rewrite <-(insert_delete_id m i x Hi) at 2.
  rewrite msum_insert by apply lookup_delete_eq. lia.
Qed.

Lemma msum_update m i x y : m !! i = Some x → msum f (<[i := y]> m) = msum f m - f i x + f i y.
Proof.
  intros Hi. rewrite <-insert_delete_eq, msum_insert by apply lookup_delete_eq.
  rewrite (msum_delete m i x) by done. lia.
Qed.

Lemma msum_nonneg m : (∀ i x, m !! i = Some x → 0 ≤ f i x) → 0 ≤ msum f m.
Proof.
  induction m as [|i x m Hi IH] using map_ind; intros Hp; [by rewrite msum_empty|].
  rewrite msum_insert by done. pose proof (Hp i x (lookup_insert_eq _ _ _)).
  assert (0 ≤ msum f m); [|lia]. apply IH. intros j y Hj. apply Hp.
  by rewrite lookup_insert_ne by congruence.
Qed.

Lemma msum_lookup_le m i x :
  (∀ i x, m !! i = Some x → 0 ≤ f i x) → m !! i = Some x → f i x ≤ msum f m.
Proof.
  intros Hp Hi. assert (0 ≤ msum f (delete i m)) as Hd.
  { apply msum_nonneg. intros j y [_ Hj]%lookup_delete_Some. eauto. }
  rewrite (msum_delete m i x Hi) in Hd. lia.
Qed.

Lemma msum_zero m : (∀ i x, m !! i = Some x → f i x = 0) → msum f m = 0.
Proof.
  induction m as [|i x m Hi IH] using map_ind; intros Hp; [by rewrite msum_empty|].
  rewrite msum_insert, (Hp i x), IH; [done| |apply lookup_insert_eq|done].
  intros j y Hj. apply (Hp j). by rewrite lookup_insert_ne by congruence.
Qed.
End msum.

(** Boolean comparisons of the code as propositions. *)
Ltac zbool :=
  repeat match goal with
  | H : (_ <=? _) = true |- _ => apply Z.leb_le in H
  | H : (_ <=? _) = false |- _ => apply Z.leb_gt in H
  | H : (_ <? _) = true |- _ => apply Z.ltb_lt in H
  | H : (_ <? _) = false |- _ => apply Z.ltb_ge in H
  | H : (_ =? _) = true |- _ => apply Z.eqb_eq in H
  | H : (_ =? _) = false |- _ => apply Z.eqb_neq in H
  | H : Nat.eqb _ _ = true |- _ => apply Nat.eqb_eq in H
  | H : Nat.eqb _ _ = false |- _ => apply Nat.eqb_neq in H
  | H : bool_decide _ = true |- _ => apply bool_decide_eq_true in H
  | H : bool_decide _ = false |- _ => apply bool_decide_eq_false in H
  end.

Arguments sumZ {A} f l : simpl never.

Create HintDb fortis.
#[export] Hint Rewrite @sumZ_app @sumZ_map @sumZ_cons @sumZ_nil : fortis.
#[export] Hint Resolve sumZ_nonneg : fortis.
