(* ===== verification/Json.v ===== *)
(** Text and JSON as the edge's handlers see them: the operations of [str] the
    sources call, [serde_json::Value] and the reply of a route
    ([fortis-edge/src/main.rs]).

    A [str] is its UTF-8 bytes.  Decoding a request body into a type with
    derived [Deserialize] is the library's and a parameter where it is used. *)

From Stdlib Require Import Ascii QArith.
From S2P Require Import Prelude.
Open Scope Z_scope.

(** ** Characters and text *)
Definition code (a : ascii) : Z := Z.of_N (Ascii.N_of_ascii a).
Definition char_of (n : Z) : ascii := Ascii.ascii_of_N (Z.to_N n).

Definition between (lo hi : Z) (a : ascii) : bool := (lo <=? code a) && (code a <=? hi).

Definition is_ascii_hexdigit (a : ascii) : bool :=
  between 48 57 a || between 65 70 a || between 97 102 a.

Definition to_ascii_upper (a : ascii) : ascii := if between 97 122 a then char_of (code a - 32) else a.
Definition to_ascii_lower (a : ascii) : ascii := if between 65 90 a then char_of (code a + 32) else a.

Definition smap (f : ascii → ascii) (s : string) : string :=
  String.string_of_list_ascii (map f (String.list_ascii_of_string s)).

Definition all_chars (p : ascii → bool) (s : string) : bool := forallb p (String.list_ascii_of_string s).

Definition to_ascii_lowercase : string → string := smap to_ascii_lower.

Definition eq_ignore_ascii_case (a b : string) : bool :=
  String.eqb (to_ascii_lowercase a) (to_ascii_lowercase b).

(** [char::is_whitespace], as the UTF-8 encodings of those characters. *)
Definition utf8 (l : list Z) : string := String.string_of_list_ascii (map char_of l).

Definition whitespace : list string :=
  map (λ c, utf8 [c]) [9; 10; 11; 12; 13; 32] ++
  [utf8 [0xC2; 0x85]; utf8 [0xC2; 0xA0]; utf8 [0xE1; 0x9A; 0x80]] ++
  map (λ c, utf8 [0xE2; 0x80; c])
    [0x80; 0x81; 0x82; 0x83; 0x84; 0x85; 0x86; 0x87; 0x88; 0x89; 0x8A; 0xA8; 0xA9; 0xAF] ++
  [utf8 [0xE2; 0x81; 0x9F]; utf8 [0xE3; 0x80; 0x80]].

Definition strip_prefix (p s : string) : option string :=
  if String.prefix p s
  then Some (String.substring (String.length p) (String.length s - String.length p) s) else None.

Definition srev (s : string) : string :=
  String.string_of_list_ascii (rev (String.list_ascii_of_string s)).

(** Dropping leading members of [ws]; a member is not empty, so the length of
    the text is fuel enough. *)
Fixpoint strip_all (ws : list string) (fuel : nat) (s : string) : string :=
  match fuel with
  | O => s
  | S fuel =>
      match list_find (λ w, String.prefix w s = true) ws with
      | Some (_, w) => strip_all ws fuel (default s (strip_prefix w s))
      | None => s
      end
  end.

(** [str::trim] *)
Definition trim (s : string) : string :=
  let s := strip_all whitespace (String.length s) s in
  srev (strip_all (map srev whitespace) (String.length s) (srev s)).

(** [str::split_once] on one character. *)
Fixpoint split_once (c : ascii) (s : string) : option (string * string) :=
  match s with
  | EmptyString => None
  | String a s =>
      if Ascii.eqb a c then Some (EmptyString, s)
      else '(l, r) ← split_once c s; Some (String a l, r)
  end.

(** [str::split] on one character. *)
Fixpoint split (c : ascii) (s : string) : list string :=
  match s with
  | EmptyString => [EmptyString]
  | String a s =>
      if Ascii.eqb a c then EmptyString :: split c s
      else match split c s with
           | [] => [String a EmptyString]
           | w :: ws => String a w :: ws
           end
  end.

(** ** JSON values

    A number is an integer or a finite double, which is a rational. *)
Inductive Value : Type :=
| VNull
| VBool (b : bool)
| VNum (n : Z)
| VFloat (q : Q)
| VStr (s : string)
| VArr (l : list Value)
| VObj (l : list (string * Value)).

Fixpoint assoc {A} (k : string) (l : list (string * A)) : option A :=
  match l with
  | [] => None
  | (k', a) :: l => if String.eqb k k' then Some a else assoc k l
  end.

(** [v.get("k")], [v["k"]] and [v.get(i)]. *)
Definition vget (k : string) (v : Value) : option Value :=
  match v with VObj l => assoc k l | _ => None end.
Definition vindex (k : string) (v : Value) : Value := default VNull (vget k v).
Definition vnth (i : Z) (v : Value) : option Value :=
  match v with VArr l => l !! Z.to_nat i | _ => None end.

Definition as_u64 (v : Value) : option Z :=
  match v with VNum n => try_from u64_max n | _ => None end.
Definition as_bool (v : Value) : option bool := match v with VBool b => Some b | _ => None end.
Definition as_string (v : Value) : option string := match v with VStr s => Some s | _ => None end.
Definition as_array (v : Value) : option (list Value) := match v with VArr l => Some l | _ => None end.
Definition as_f64 (v : Value) : option Q :=
  match v with VNum n => Some (inject_Z n) | VFloat q => Some q | _ => None end.

(** [v["k"] = x] on an object: replaces the value of [k], or adds it. *)
Fixpoint assoc_set {A} (k : string) (x : A) (l : list (string * A)) : list (string * A) :=
  match l with
  | [] => [(k, x)]
  | (k', a) :: l => if String.eqb k k' then (k, x) :: l else (k', a) :: assoc_set k x l
  end.
Definition vset (k : string) (x : Value) (v : Value) : Value :=
  match v with VObj l => VObj (assoc_set k x l) | _ => v end.

(** [json!(option)] *)
Definition vopt {A} (f : A → Value) (o : option A) : Value := from_option f VNull o.

(** ** Replies ([main.rs]) *)
Inductive Reply : Type :=
| RJson (status : Z) (v : Value)
| RRaw (status : Z) (content_type : string) (body : bytes)
| RNoStore (status : Z) (content_type : string) (body : bytes)
| REmpty (status : Z).

Definition err (status : Z) (msg : string) : Reply := RJson status (VObj [("error", VStr msg)]).

(** The detail is only logged. *)
Definition unavailable (what : string) : Reply := err 502 (what +:+ " is unavailable").

Definition status_of (r : Reply) : Z :=
  match r with RJson s _ | RRaw s _ _ | RNoStore s _ _ | REmpty s => s end.
