(* ===== verification/Threads.v ===== *)
(** Programs as sequences of atomic steps on a shared world, and what holds
    of them when other programs run in between.

    A request handler or a watchtower pass is a [Prog]: it is done, or its next
    step reads and changes the world at once and says how to go on.  What runs
    under a lock, or is a single read of the database or of the chain, is one
    step; between steps anything else may happen.

    [rg R G p w Q] is the guarantee of a program from a world on: whatever the
    others do before each of its steps (moves of [R]), each step is a move of
    [G], and the program ends in [Q].  A pool of programs that all guarantee
    what they rely on only makes moves of that relation ([pool_moves]). *)

From S2P Require Import Prelude.

(** [Step f k] turns the world [w] into [f w] and goes on as [k w]. *)
Inductive Prog (W A : Type) : Type :=
| Done (a : A)
| Step (f : W → W) (k : W → Prog W A).
Arguments Done {W A} a.
Arguments Step {W A} f k.

Fixpoint prog_bind {W A B} (p : Prog W A) (g : A → Prog W B) : Prog W B :=
  match p with
  | Done a => g a
  | Step f k => Step f (λ w, prog_bind (k w) g)
  end.

(** Running a program to its end with nobody else around. *)
Fixpoint run_prog {W A} (p : Prog W A) (w : W) : A * W :=
  match p with
  | Done a => (a, w)
  | Step f k => run_prog (k w) (f w)
  end.

Definition atomically {W A} (f : W → A * W) : Prog W A :=
  Step (λ w, snd (f w)) (λ w, Done (fst (f w))).

Lemma run_bind {W A B} (p : Prog W A) (g : A → Prog W B) w :
  run_prog (prog_bind p g) w = let '(a, w') := run_prog p w in run_prog (g a) w'.
Proof. revert w. induction p as [a|f k IH]; intros w; simpl; auto. Qed.

Lemma run_atomically {W A} (f : W → A * W) w : run_prog (atomically f) w = f w.
Proof. simpl. by destruct (f w). Qed.

Section rg.
Context {W : Type} (R G : relation W).

Fixpoint rg {A} (p : Prog W A) (w : W) (Q : A → W → Prop) : Prop :=
  match p with
  | Done a => Q a w
  | Step f k => ∀ w1, R w w1 → G w1 (f w1) ∧ rg (k w1) (f w1) Q
  end.

Lemma rg_mono {A} (p : Prog W A) w (Q Q' : A → W → Prop) :
  (∀ a w, Q a w → Q' a w) → rg p w Q → rg p w Q'.
Proof.
  intros HQ. revert w. induction p as [a|f k IH]; intros w; simpl; [apply HQ|].
  intros H w1 Hw. destruct (H w1 Hw) as [HG Hr]. auto.
Qed.

Lemma rg_bind {A B} (p : Prog W A) (g : A → Prog W B) w Q :
  rg p w (λ a w', rg (g a) w' Q) → rg (prog_bind p g) w Q.
Proof.
  revert w. induction p as [a|f k IH]; intros w; simpl; [done|].
  intros H w1 Hw. destruct (H w1 Hw) as [HG Hr]. auto.
Qed.

Lemma rg_atomically {A} (f : W → A * W) w (Q : A → W → Prop) :
  (∀ w1, R w w1 → G w1 (snd (f w1)) ∧ Q (fst (f w1)) (snd (f w1))) → rg (atomically f) w Q.
Proof. intros H w1 Hw. apply (H w1 Hw). Qed.

(** A program may start after moves of the others. *)
Lemma rg_later {A} (p : Prog W A) w w' Q :
  transitive W R → R w w' → (∀ a, Q a w → Q a w') → rg p w Q → rg p w' Q.
Proof.
  intros Ht Hw HQ. destruct p as [a|f k]; simpl; [auto|]. intros H w1 Hw1. apply H. by eapply Ht.
Qed.
End rg.

(** What a program guarantees, it does when it runs alone. *)
Lemma rg_run {W A} (R : relation W) (p : Prog W A) w Q :
  reflexive W R → transitive W R → rg R R p w Q →
  R w (snd (run_prog p w)) ∧ Q (fst (run_prog p w)) (snd (run_prog p w)).
Proof.
  intros Hr Ht. revert w. induction p as [a|f k IH]; intros w; simpl; [auto|].
  intros H. destruct (H w (Hr w)) as [HG H']. destruct (IH w (f w) H') as [HR HQ].
  split; [by eapply Ht|done].
Qed.

Lemma rg_alone {W A} (R G : relation W) (p : Prog W A) w Q :
  reflexive W R → rg R G p w Q → Q (fst (run_prog p w)) (snd (run_prog p w)).
Proof. intros Hr. revert w. induction p as [a|f k IH]; intros w; simpl; [done|]. intros H. by apply IH, H. Qed.

(** ** Steps that are moves wherever they are taken

    [always G p Q]: each step of [p] is a move of [G] from any world at all,
    and the answer is in [Q]. *)
Section always.
Context {W : Type} (G : relation W).

Fixpoint always {A} (p : Prog W A) (Q : A → Prop) : Prop :=
  match p with
  | Done a => Q a
  | Step f k => ∀ w, G w (f w) ∧ always (k w) Q
  end.

Lemma always_mono {A} (p : Prog W A) (Q Q' : A → Prop) : (∀ a, Q a → Q' a) → always p Q → always p Q'.
Proof. intros HQ. induction p as [a|f k IH]; simpl; [apply HQ|]. intros Hp w. destruct (Hp w). auto. Qed.

Lemma always_bind {A B} (p : Prog W A) (g : A → Prog W B) Q :
  always p (λ a, always (g a) Q) → always (prog_bind p g) Q.
Proof. induction p as [a|f k IH]; simpl; [done|]. intros Hp w. destruct (Hp w). auto. Qed.

Lemma always_atomically {A} (f : W → A * W) (Q : A → Prop) :
  (∀ w, G w (snd (f w)) ∧ Q (fst (f w))) → always (atomically f) Q.
Proof. done. Qed.

Lemma always_rg {A} (R : relation W) (p : Prog W A) w Q : always p Q → rg R G p w (λ a _, Q a).
Proof. revert w. induction p as [a|f k IH]; intros w Hp; simpl; [done|]. intros w1 _. destruct (Hp w1). auto. Qed.
End always.

Lemma always_weaken {W A} (G G' : relation W) (p : Prog W A) Q :
  (∀ w w', G w w' → G' w w') → always G p Q → always G' p Q.
Proof. intros HG. induction p as [a|f k IH]; simpl; [done|]. intros Hp w. destruct (Hp w). auto. Qed.

(** What the others and each of its steps keep, a program keeps. *)
Lemma always_keeps {W A} (R G : relation W) (p : Prog W A) w (I : W → Prop) Q :
  (∀ w w', R w w' → I w → I w') → (∀ w w', G w w' → I w → I w') → always G p Q → I w →
  rg R G p w (λ a w', Q a ∧ I w').
Proof.
  intros HR HG. revert w. induction p as [a|f k IH]; intros w; simpl; [done|].
  intros Hp Hw w1 Hw1. destruct (Hp w1) as [Hg Hk]. split; [done|]. eauto.
Qed.

(** What every move keeps, may be kept in mind along a program. *)
Lemma rg_alongside {W A} (R G : relation W) (p : Prog W A) w (I : W → Prop) Q :
  (∀ w w', R w w' → I w → I w') → (∀ w w', G w w' → I w → I w') → rg R G p w Q → I w → rg R G p w (λ a w', Q a w' ∧ I w').
Proof.
  intros HR HG. revert w. induction p as [a|f k IH]; intros w; simpl; [done|].
  intros Hp Hw w1 Hw1. destruct (Hp w1 Hw1) as [Hg Hk]. split; [done|]. eauto.
Qed.

Lemma rg_rely {W A} (R R' G : relation W) (p : Prog W A) w Q :
  (∀ w w', R' w w' → R w w') → rg R G p w Q → rg R' G p w Q.
Proof.
  intros HR. revert w. induction p as [a|f k IH]; intros w; simpl; [done|].
  intros Hp w1 Hw. destruct (Hp w1 (HR _ _ Hw)). auto.
Qed.

Lemma rg_weaken {W A} (R G G' : relation W) (p : Prog W A) w Q :
  (∀ w w', G w w' → G' w w') → rg R G p w Q → rg R G' p w Q.
Proof.
  intros HG. revert w. induction p as [a|f k IH]; intros w; simpl; [done|]. intros Hp w1 Hw. destruct (Hp w1 Hw). auto.
Qed.

(** ** Executions

    [exec R p w a w']: [p], with moves of [R] before each of its steps and at
    the end, answers [a]. *)
Inductive exec {W A} (R : relation W) : Prog W A → W → A → W → Prop :=
| exec_done a w w' : R w w' → exec R (Done a) w a w'
| exec_step f k w w1 a w' : R w w1 → exec R (k w1) (f w1) a w' → exec R (Step f k) w a w'.

Lemma exec_rg {W A} (R G : relation W) (p : Prog W A) w (Q : A → W → Prop) a w' :
  (∀ a w w', R w w' → Q a w → Q a w') → rg R G p w Q → exec R p w a w' → Q a w'.
Proof.
  intros HQ Hp Hx. induction Hx as [a w w' Hw|f k w w1 a w' Hw _ IH]; simpl in Hp; [by eapply HQ|].
  by apply IH, Hp.
Qed.

Lemma exec_moves {W A} (R G : relation W) (p : Prog W A) w (Q : A → W → Prop) a w' :
  transitive W R → (∀ w w', G w w' → R w w') → rg R G p w Q → exec R p w a w' → R w w'.
Proof.
  intros Ht HG Hp Hx. induction Hx as [a w w' Hw|f k w w1 a w' Hw _ IH]; simpl in Hp; [done|].
  destruct (Hp w1 Hw) as [Hg Hr]. eapply Ht; [exact Hw|]. eapply Ht; [by apply HG|by apply IH].
Qed.

Lemma exec_alone {W A} (R : relation W) (p : Prog W A) w :
  reflexive W R → exec R p w (fst (run_prog p w)) (snd (run_prog p w)).
Proof. intros Hr. revert w. induction p as [a|f k IH]; intros w; simpl; econstructor; eauto. Qed.

(** Running with moves of the others in between: [env n] before step [n]. *)
Fixpoint run_env {W A} (env : nat → W → W) (n : nat) (p : Prog W A) (w : W) : A * W :=
  match p with
  | Done a => (a, env n w)
  | Step f k => let w1 := env n w in run_env env (S n) (k w1) (f w1)
  end.

Lemma exec_env {W A} (R : relation W) env n (p : Prog W A) w :
  (∀ n w, R w (env n w)) → exec R p w (fst (run_env env n p w)) (snd (run_env env n p w)).
Proof. intros Hr. revert n w. induction p as [a|f k IH]; intros n w; simpl; econstructor; eauto. Qed.

Lemma always_run {W A} (G : relation W) (p : Prog W A) w Q : always G p Q → rtc G w (snd (run_prog p w)).
Proof.
  revert w. induction p as [a|f k IH]; intros w Hp; simpl; [done|]. destruct (Hp w). eapply rtc_l; [done|auto].
Qed.

(** A program cut off before any of its steps. *)
Inductive upto {W A} : Prog W A → W → W → Prop :=
| upto_here p w : upto p w w
| upto_step f k w w' : upto (k w) (f w) w' → upto (Step f k) w w'.

Lemma upto_keeps {W A} (J : W → Prop) (p : Prog W A) w w' Q :
  rg eq (λ _ w', J w') p w Q → J w → upto p w w' → J w'.
Proof.
  intros Hp Hw Hx. induction Hx as [|f k w w' _ IH]; [done|]. simpl in Hp. destruct (Hp w eq_refl). by apply IH.
Qed.

Lemma upto_run {W A} (p : Prog W A) w : upto p w (snd (run_prog p w)).
Proof. revert w. induction p as [a|f k IH]; intros w; simpl; constructor. apply IH. Qed.

(** ** Two threads

    Each runs one program after the other; [crash] is what a restart of the
    process makes of the world, at any point of either. *)
Section duo.
Context {W A B : Type} (P1 : Prog W A → Prop) (P2 : Prog W B → Prop) (crash : W → W).

Inductive duo_reach (a0 : A) (b0 : B) (w0 : W) : Prog W A → Prog W B → W → Prop :=
| duo_start : duo_reach a0 b0 w0 (Done a0) (Done b0) w0
| duo_step1 f k q w : duo_reach a0 b0 w0 (Step f k) q w → duo_reach a0 b0 w0 (k w) q (f w)
| duo_step2 p f k w : duo_reach a0 b0 w0 p (Step f k) w → duo_reach a0 b0 w0 p (k w) (f w)
| duo_next1 a p q w : duo_reach a0 b0 w0 (Done a) q w → P1 p → duo_reach a0 b0 w0 p q w
| duo_next2 b p q w : duo_reach a0 b0 w0 p (Done b) w → P2 q → duo_reach a0 b0 w0 p q w
| duo_crash p q w : duo_reach a0 b0 w0 p q w → duo_reach a0 b0 w0 (Done a0) (Done b0) (crash w).

(** A program that starts may run to its end at once. *)
Lemma duo_run1 a0 b0 w0 a p q w :
  duo_reach a0 b0 w0 (Done a) q w → P1 p →
  duo_reach a0 b0 w0 (Done (fst (run_prog p w))) q (snd (run_prog p w)).
Proof.
  intros Hr Hp. pose proof (duo_next1 _ _ _ a p q w Hr Hp) as Hn. clear Hr Hp.
  revert w Hn. induction p as [x|f k IH]; intros w Hn; simpl; [done|]. by apply IH, duo_step1.
Qed.

Lemma duo_run2 a0 b0 w0 b p q w :
  duo_reach a0 b0 w0 p (Done b) w → P2 q →
  duo_reach a0 b0 w0 p (Done (fst (run_prog q w))) (snd (run_prog q w)).
Proof.
  intros Hr Hq. pose proof (duo_next2 _ _ _ b p q w Hr Hq) as Hn. clear Hr Hq.
  revert w Hn. induction q as [x|f k IH]; intros w Hn; simpl; [done|]. by apply IH, duo_step2.
Qed.

(** What every step of both threads keeps, every reachable world has. *)
Lemma duo_invariant (J : W → Prop) (G : relation W) a0 b0 w0 p q w :
  (∀ p, P1 p → always G p (λ _, True)) → (∀ q, P2 q → always G q (λ _, True)) →
  (∀ w w', J w → G w w' → J w') → (∀ w, J w → J (crash w)) → J w0 →
  duo_reach a0 b0 w0 p q w → J w.
Proof.
  intros H1 H2 HG Hc H0 Hr.
  cut (J w ∧ always G p (λ _, True) ∧ always G q (λ _, True)); [tauto|].
  induction Hr as [|f k q w _ (HJ & Hp & Hq)|p f k w _ (HJ & Hp & Hq)|a p q w _ (HJ & Hp & Hq) Hn
    |b p q w _ (HJ & Hp & Hq) Hn|p q w _ (HJ & Hp & Hq)]; simpl in *; split_and!; try done; eauto.
  - by eapply HG, Hp.
  - by apply Hp.
  - by eapply HG, Hq.
  - by apply Hq.
Qed.
End duo.

(** ** Crews

    Programs in any number, each with its number; [crash] is what a restart
    makes of the world, with all of them gone. *)
Section crew.
Context {W A : Type} (P : nat → Prog W A → Prop) (crash : relation W).

Inductive crew_reach (w0 : W) : list (Prog W A) → W → Prop :=
| crew_start : crew_reach w0 [] w0
| crew_step ps w i f k : crew_reach w0 ps w → ps !! i = Some (Step f k) → crew_reach w0 (<[i := k w]> ps) (f w)
| crew_join ps w p : crew_reach w0 ps w → P (length ps) p → crew_reach w0 (ps ++ [p]) w
| crew_crash ps w w' : crew_reach w0 ps w → crash w w' → crew_reach w0 [] w'.

(** A program that joins may run to its end at once. *)
Lemma crew_run w0 ps w p :
  crew_reach w0 ps w → P (length ps) p → crew_reach w0 (ps ++ [Done (fst (run_prog p w))]) (snd (run_prog p w)).
Proof.
  intros Hr Hp. pose proof (crew_join w0 ps w p Hr Hp) as Hj. clear Hr Hp.
  revert w Hj. induction p as [a|f k IH]; intros w Hj; simpl; [done|]. apply IH.
  pose proof (crew_step w0 _ w (length ps) f k Hj) as Hs. rewrite list_lookup_middle in Hs by done.
  specialize (Hs eq_refl). by rewrite insert_app_r_alt, Nat.sub_diag in Hs by done.
Qed.

(** Each program makes moves of its own, [G i]; to the others they are moves
    these rely on. *)
Lemma crew_invariant (J : W → Prop) (R G : nat → relation W) w0 ps w :
  (∀ i, reflexive W (R i)) → (∀ i, transitive W (R i)) →
  (∀ i j w w', i ≠ j → G i w w' → R j w w') → (∀ i w w', J w → G i w w' → J w') →
  (∀ i p w, P i p → J w → rg (R i) (G i) p w (λ _ _, True)) → (∀ w w', J w → crash w w' → J w') → J w0 →
  crew_reach w0 ps w → J w ∧ ∀ i p, ps !! i = Some p → rg (R i) (G i) p w (λ _ _, True).
Proof.
  intros Hr Ht HRG HJ HP Hc H0 Hreach.
  induction Hreach as [|ps w i f k _ [Hw Hps] Hi|ps w p _ [Hw Hps] Hp|ps w w' _ [Hw _] Hcr]; [done| | |by split; [eapply Hc|]].
  - pose proof (Hps _ _ Hi) as Hrg. simpl in Hrg. destruct (Hrg w (Hr i w)) as [HG Hk]. split; [by eapply HJ|].
    intros j p Hj. destruct (decide (i = j)) as [<-|Hne].
    + rewrite list_lookup_insert_eq in Hj by (by eapply lookup_lt_Some). by injection Hj as <-.
    + rewrite list_lookup_insert_ne in Hj by done. eapply rg_later; [apply Ht|by eapply HRG|done|by apply Hps].
  - split; [done|]. intros j q [Hq|[Hl Hq]]%lookup_app_Some; [by apply Hps|].
    apply list_lookup_singleton_Some in Hq as [Hz ->]. replace j with (length ps) by lia. by apply HP.
Qed.
End crew.

(** ** Pools of programs *)
Section pool.
Context {W A : Type}.

(** Steps of the programs of a pool, in any order; new programs, of the kind
    [P], join at any time. *)
Inductive pool_reach (P : Prog W A → Prop) : list (Prog W A) * W → list (Prog W A) * W → Prop :=
| pool_refl c : pool_reach P c c
| pool_step c ps w i f k :
    pool_reach P c (ps, w) → ps !! i = Some (Step f k) → pool_reach P c (<[i := k w]> ps, f w)
| pool_join c ps w p : pool_reach P c (ps, w) → P p → pool_reach P c (ps ++ [p], w).

(** A program that joins may run to its end at once. *)
Lemma pool_run (P : Prog W A → Prop) c ps w p :
  pool_reach P c (ps, w) → P p →
  pool_reach P c (ps ++ [Done (fst (run_prog p w))], snd (run_prog p w)).
Proof.
  intros Hc Hp. pose proof (pool_join P c ps w p Hc Hp) as Hj. clear Hc Hp.
  revert w Hj. induction p as [a|f k IH]; intros w Hj; simpl; [done|]. apply IH.
  pose proof (pool_step P c _ w (length ps) f k Hj) as Hs.
  rewrite list_lookup_middle in Hs by done. specialize (Hs eq_refl).
  by rewrite insert_app_r_alt, Nat.sub_diag in Hs by done.
Qed.

(** [J] is what the programs need of the world they start in. *)
Lemma pool_moves (J : W → Prop) (R : relation W) (P : Prog W A → Prop) ps w ps' w' :
  reflexive W R → transitive W R → (∀ w w', J w → R w w' → J w') →
  (∀ p w, P p → J w → rg R R p w (λ _ _, True)) →
  J w → Forall (λ p, rg R R p w (λ _ _, True)) ps → pool_reach P (ps, w) (ps', w') →
  R w w' ∧ Forall (λ p, rg R R p w' (λ _ _, True)) ps'.
Proof.
  intros Hr Ht HJ HP Hw Hps Hreach. remember (ps, w) as c eqn:Ec. remember (ps', w') as c' eqn:Ec'.
  revert ps' w' Ec'.
  induction Hreach as [c|c qs w1 i f k _ IH Hi|c qs w1 p _ IH Hp]; intros ps' w' Ec'; simplify_eq.
  - done.
  - destruct (IH eq_refl qs w1 eq_refl) as [Hw1 Hqs].
    pose proof (Forall_lookup_1 _ _ _ _ Hqs Hi) as Hrg. simpl in Hrg.
    destruct (Hrg w1 (Hr w1)) as [HG Hrest].
    split; [by eapply Ht|]. apply Forall_insert; [|done].
    eapply Forall_impl; [exact Hqs|]. intros q Hq. by eapply rg_later; [| |intros ? Hx; exact Hx|exact Hq].
  - destruct (IH eq_refl qs w' eq_refl) as [Hw1 Hqs]. split; [done|].
    apply Forall_app. split; [done|]. constructor; [|done]. apply HP; [done|by eapply HJ].
Qed.
End pool.
