(* ===== verification/Chain.v ===== *)
(** Chain parameters and errors of [wallet-core] ([chain.rs], [error.rs], the
    variant tag of [sighash.rs]): the values in which the two chains differ. *)

From S2P Require Import Prelude.

(** [error.rs].  [Unimplemented] carries its [&'static str] like the others. *)
Inductive WalletError : Type :=
| InvalidMnemonic
| Derivation (msg : string)
| InsufficientFunds (need have : Z)
| InvalidInput (msg : string)
| InvalidSwapParams (msg : string)
| SwapStateErr (expected actual : string)
| ContractMismatch
| TermsRejected (msg : string)
| Storage (msg : string)
| Crypto (msg : string)
| BitcoinErr (msg : string)
| Unimplemented (msg : string).

Abbreviation Result := (result WalletError).

#[export] Instance WalletError_eq_dec : EqDecision WalletError.
Proof. solve_decision. Defined.

(** The [Display] the [#[error(..)]] attributes derive. *)
Definition wallet_error_display (e : WalletError) : string :=
  match e with
  | InvalidMnemonic => "invalid mnemonic"
  | Derivation m => "key derivation failed: " +:+ m
  | InsufficientFunds need have =>
      "insufficient funds: need " +:+ pretty need +:+ " sat, have " +:+ pretty have +:+ " sat"
  | InvalidInput m => "invalid input: " +:+ m
  | InvalidSwapParams m => "invalid swap parameters: " +:+ m
  | SwapStateErr expected actual => "swap state error: expected " +:+ expected +:+ ", got " +:+ actual
  | ContractMismatch => "counterparty contract does not match agreed parameters"
  | TermsRejected m => "swap terms rejected: " +:+ m
  | Storage m => "storage: " +:+ m
  | Crypto m => "crypto: " +:+ m
  | BitcoinErr m => "bitcoin: " +:+ m
  | Unimplemented m => "not yet implemented: " +:+ m
  end.

(** [bitcoin::Network], as far as the wallet names it. *)
Inductive Network : Type := NetBitcoin | NetRegtest.

Inductive Chain : Type := Btc | Xbt.

#[export] Instance Chain_eq_dec : EqDecision Chain.
Proof. solve_decision. Defined.

Definition as_str (c : Chain) : string :=
  match c with Btc => "btc" | Xbt => "xbt" end.

Inductive SighashVariant : Type := SegwitV0 | Unified.

#[export] Instance SighashVariant_eq_dec : EqDecision SighashVariant.
Proof. solve_decision. Defined.

Record ChainParams : Type := {
  chain : Chain;
  network : Network;
  bip44_coin_type : Z;
  htlc_participant_locktime_secs : Z;
  htlc_initiator_locktime_secs : Z;
  require_unified_sighash : bool;
}.

Definition bitcoin : ChainParams := {|
  chain := Btc;
  network := NetBitcoin;
  bip44_coin_type := 0;
  htlc_participant_locktime_secs := 24 * 3600;
  htlc_initiator_locktime_secs := 48 * 3600;
  require_unified_sighash := false;
|}.

Definition blake2b : ChainParams := {|
  chain := Xbt;
  network := NetBitcoin;
  bip44_coin_type := 0;
  htlc_participant_locktime_secs := 72 * 3600;
  htlc_initiator_locktime_secs := 48 * 3600;
  require_unified_sighash := true;
|}.

Definition bitcoin_regtest : ChainParams := {|
  chain := chain bitcoin;
  network := NetRegtest;
  bip44_coin_type := 1;
  htlc_participant_locktime_secs := 600;
  htlc_initiator_locktime_secs := 1200;
  require_unified_sighash := require_unified_sighash bitcoin;
|}.

Definition blake2b_regtest : ChainParams := {|
  chain := chain blake2b;
  network := NetRegtest;
  bip44_coin_type := 1;
  htlc_participant_locktime_secs := 900;
  htlc_initiator_locktime_secs := 1800;
  require_unified_sighash := require_unified_sighash blake2b;
|}.

Definition for_chain (c : Chain) : ChainParams :=
  match c with Btc => bitcoin | Xbt => blake2b end.

Definition resolve (c : Chain) (net : string) : option ChainParams :=
  if decide (net = "mainnet" ∨ net = "bitcoin") then
    Some (match c with Btc => bitcoin | Xbt => blake2b end)
  else match c with
  | Btc =>
      if decide (net = "regtest" ∨ net = "regtest-legacy") then Some bitcoin_regtest else None
  | Xbt =>
      if decide (net = "regtest") then Some blake2b_regtest
      else if decide (net = "regtest-legacy") then
        Some {| chain := chain blake2b_regtest;
                network := network blake2b_regtest;
                bip44_coin_type := bip44_coin_type blake2b_regtest;
                htlc_participant_locktime_secs := htlc_participant_locktime_secs blake2b_regtest;
                htlc_initiator_locktime_secs := htlc_initiator_locktime_secs blake2b_regtest;
                require_unified_sighash := false |}
      else None
  end.

Definition sighash_variant_of (p : ChainParams) : SighashVariant :=
  if require_unified_sighash p then Unified else SegwitV0.
