(* ===== verification/SwapTerms.v ===== *)
(** Swap terms ([wallet-core/src/swap_terms.rs], the timelocks of [swap.rs]):
    what both wallets agree on, the amounts derived from a price, and the check
    each wallet runs before it accepts a match. *)

From S2P Require Import Prelude Chain.

(** [htlc.rs]: contract versions. *)
Definition CONTRACT_V1 : Z := 1.
Definition CONTRACT_V2 : Z := 2.
Definition CURRENT_CONTRACT : Z := CONTRACT_V2.

(** [swap.rs] *)
Inductive SwapRole : Type := Initiator | Participant.

#[export] Instance SwapRole_eq_dec : EqDecision SwapRole.
Proof. solve_decision. Defined.

Record SwapTimelocks : Type := { xbt_leg_secs : Z; btc_leg_secs : Z }.

Definition swap_timelocks (btc xbt : ChainParams) : SwapTimelocks := {|
  xbt_leg_secs := htlc_initiator_locktime_secs xbt;
  btc_leg_secs := htlc_participant_locktime_secs btc;
|}.

(** Constants of [swap_terms.rs]. *)
Definition SWAP_FEE_BPS : Z := 50.
Definition SWAP_FEE_FLOOR_SAT : Z := 400.
Definition MIN_BTC_LEG_SAT : Z := 2_000.
Definition MAX_PRICE_SAT_PER_XBT : Z := 2_100_000_000_000_000.
Definition XBT_CONFS : Z := 6.
Definition BTC_CONFS : Z := 2.
Definition ACCEPT_SECS : Z := 120.
Definition INITIATOR_FUND_SECS : Z := 1800.
Definition PARTICIPANT_FUND_SECS : Z := 7200.
Definition MIN_BTC_LEG_LEFT_SECS : Z := 12 * 3600.
Definition LOCKTIME_TOLERANCE_SECS : Z := 600.
Definition MAX_CLOCK_SKEW_SECS : Z := 600.

Record SwapTerms : Type := {
  match_id : string;
  t_network : string;
  xbt_sat : Z;
  btc_sat : Z;
  price_sat_per_xbt : Z;
  fee_bps : Z;
  fee_address : string;
  matched_at : Z;
  xbt_locktime : Z;
  btc_locktime : Z;
  xbt_confs : Z;
  btc_confs : Z;
  accept_by : Z;
  initiator_fund_by : Z;
  contract_version : Z;
}.

(** The [u64]/[u32]/[u8] fields of terms are in range. *)
Definition terms_wf (t : SwapTerms) : Prop :=
  u64 (xbt_sat t) ∧ u64 (btc_sat t) ∧ u64 (price_sat_per_xbt t) ∧ u32 (fee_bps t) ∧
  u32 (matched_at t) ∧ u32 (xbt_locktime t) ∧ u32 (btc_locktime t) ∧
  u32 (xbt_confs t) ∧ u32 (btc_confs t) ∧ u32 (accept_by t) ∧
  u32 (initiator_fund_by t) ∧ u8 (contract_version t).

#[export] Instance terms_wf_dec t : Decision (terms_wf t).
Proof. unfold terms_wf. apply _. Defined.

(** The product of two [u64] never overflows the [u128] it is computed in. *)
Definition btc_for_xbt (xbt_sat price_sat_per_xbt : Z) : Z :=
  Z.min (xbt_sat * price_sat_per_xbt / 100_000_000) u64_max.

(** [as u64] of the percentage truncates; below 2^64 whenever the input is a [u64]. *)
Definition swap_commission_sat (send_sat : Z) : Z :=
  let pct := (send_sat * SWAP_FEE_BPS / 10_000) mod 2^64 in
  Z.max pct SWAP_FEE_FLOOR_SAT.

Definition participant_fund_latest (t : SwapTerms) : Z :=
  let leg := saturating_sub (btc_locktime t) (matched_at t) in
  saturating_sub (btc_locktime t) (Z.min MIN_BTC_LEG_LEFT_SECS (leg / 2)).

Definition reject {A} (msg : string) : Result A := Err (TermsRejected msg).

Definition network_params (net : string) : Result (ChainParams * ChainParams) :=
  if decide (net = "bitcoin") then Ok (bitcoin, blake2b)
  else if decide (net = "regtest") then Ok (bitcoin_regtest, blake2b_regtest)
  else reject ("unknown network " +:+ net).

Definition near (actual expected : Z) : bool :=
  abs_diff actual expected <=? LOCKTIME_TOLERANCE_SECS.

Definition price_worse (role : SwapRole) (price limit : Z) : bool :=
  match role with
  | Initiator => price <? limit
  | Participant => limit <? price
  end.

Definition refuse (c : bool) (msg : string) : Result unit := bail_if c (TermsRejected msg).

Definition validate_terms (t : SwapTerms) (limit_price_sat_per_xbt : Z)
    (role : SwapRole) (now : Z) : Result unit :=
  '(btc, xbt) ← network_params (t_network t);
  _ ← refuse (negb ((contract_version t =? CONTRACT_V1) || (contract_version t =? CONTRACT_V2)))
        ("unknown contract version " +:+ pretty (contract_version t));
  _ ← refuse (now + MAX_CLOCK_SKEW_SECS <? matched_at t) "the match is dated in the future";
  _ ← refuse (limit_price_sat_per_xbt =? 0) "zero limit price";
  _ ← refuse ((price_sat_per_xbt t =? 0) || (MAX_PRICE_SAT_PER_XBT <? price_sat_per_xbt t))
        "price out of range";
  _ ← refuse (price_worse role (price_sat_per_xbt t) limit_price_sat_per_xbt)
        "price is worse than your limit";
  _ ← refuse (negb (btc_sat t =? btc_for_xbt (xbt_sat t) (price_sat_per_xbt t)))
        "btc amount does not match xbt amount at price";
  _ ← refuse (btc_sat t <? MIN_BTC_LEG_SAT) "below minimum swap size";
  _ ← refuse (negb (fee_bps t =? SWAP_FEE_BPS)) "unexpected fee";
  _ ← refuse (negb (xbt_confs t =? XBT_CONFS) || negb (btc_confs t =? BTC_CONFS))
        "unexpected confirmation requirement";
  let tl := swap_timelocks btc xbt in
  _ ← refuse (negb (near (xbt_locktime t) (matched_at t + xbt_leg_secs tl))
              || negb (near (btc_locktime t) (matched_at t + btc_leg_secs tl)))
        "locktime does not match agreed timelocks";
  _ ← refuse (negb (accept_by t =? matched_at t + ACCEPT_SECS)
              || negb (initiator_fund_by t =? accept_by t + INITIATOR_FUND_SECS))
        "unexpected deadlines";
  _ ← refuse (accept_by t <? now) "accept deadline passed";
  mret tt.

Definition validate_terms_on (t : SwapTerms) (net : string)
    (limit_price_sat_per_xbt : Z) (role : SwapRole) (now : Z) : Result unit :=
  if decide (t_network t ≠ net) then
    reject ("terms are for network " +:+ t_network t +:+ ", not " +:+ net)
  else validate_terms t limit_price_sat_per_xbt role now.

(** ** Specification

    What accepted terms mean, written without the order of the checks, the
    machine types or the code's helper functions. *)
Definition legs (net : string) : option (Z * Z) :=
  if decide (net = "bitcoin") then Some (48 * 3600, 24 * 3600)
  else if decide (net = "regtest") then Some (1800, 600)
  else None.

Record acceptable (t : SwapTerms) (limit : Z) (role : SwapRole) (now : Z) : Prop := {
  acc_legs : ∃ xbt_leg btc_leg, legs (t_network t) = Some (xbt_leg, btc_leg) ∧
    matched_at t + xbt_leg - 600 ≤ xbt_locktime t ≤ matched_at t + xbt_leg + 600 ∧
    matched_at t + btc_leg - 600 ≤ btc_locktime t ≤ matched_at t + btc_leg + 600;
  acc_version : contract_version t ∈ [1; 2];
  acc_window : matched_at t - 600 ≤ now ≤ matched_at t + 120;
  acc_limit : limit ≠ 0;
  acc_price : price_sat_per_xbt t ≠ 0 ∧ price_sat_per_xbt t ≤ 2_100_000_000_000_000;
  acc_side : match role with
             | Initiator => limit ≤ price_sat_per_xbt t
             | Participant => price_sat_per_xbt t ≤ limit
             end;
  acc_btc : btc_sat t = Z.min (xbt_sat t * price_sat_per_xbt t / 100_000_000) (2^64 - 1);
  acc_min : 2000 ≤ btc_sat t;
  acc_fee : fee_bps t = 50;
  acc_confs : xbt_confs t = 6 ∧ btc_confs t = 2;
  acc_deadlines : accept_by t = matched_at t + 120 ∧
                  initiator_fund_by t = matched_at t + 1920;
}.

(** ** Lemmas *)
Lemma near_spec a e : near a e = true ↔ e - 600 ≤ a ≤ e + 600.
Proof. unfold near, abs_diff, LOCKTIME_TOLERANCE_SECS. rewrite Z.leb_le. lia. Qed.

Lemma price_worse_spec role price limit :
  price_worse role price limit = false ↔
  match role with Initiator => limit ≤ price | Participant => price ≤ limit end.
Proof. destruct role; simpl; apply Z.ltb_ge. Qed.

Lemma network_params_legs net btc xbt :
  network_params net = Ok (btc, xbt) →
  legs net = Some (xbt_leg_secs (swap_timelocks btc xbt), btc_leg_secs (swap_timelocks btc xbt)).
Proof. unfold network_params, legs. repeat case_decide; by intros [= <- <-]. Qed.

Lemma legs_network_params net xl bl :
  legs net = Some (xl, bl) →
  ∃ btc xbt, network_params net = Ok (btc, xbt) ∧
    xl = xbt_leg_secs (swap_timelocks btc xbt) ∧ bl = btc_leg_secs (swap_timelocks btc xbt).
Proof. unfold network_params, legs. repeat case_decide; intros [= <- <-]; eauto. Qed.

Lemma refuse_bind_Ok {A} c msg (k : Result A) a :
  ((_ ← refuse c msg; k) = Ok a) ↔ c = false ∧ k = Ok a.
Proof. apply bail_if_bind_Ok. Qed.

Lemma validate_terms_sound t limit role now u :
  validate_terms t limit role now = Ok u → acceptable t limit role now.
Proof.
  unfold validate_terms. intros H. apply bind_Ok in H as ([btc xbt] & Hnet & H).
  rewrite !refuse_bind_Ok in H. simp. zbool.
  match goal with H : near _ _ = true |- _ => apply near_spec in H end.
  repeat match goal with H : near _ _ = true |- _ => apply near_spec in H end.
  match goal with H : price_worse _ _ _ = false |- _ => apply price_worse_spec in H end.
  unfold MAX_CLOCK_SKEW_SECS, ACCEPT_SECS, INITIATOR_FUND_SECS, MAX_PRICE_SAT_PER_XBT,
    MIN_BTC_LEG_SAT, SWAP_FEE_BPS, XBT_CONFS, BTC_CONFS in *.
  split; try done; try lia.
  - eexists _, _. split; [by apply network_params_legs|]. lia.
  - match goal with H : _ || _ = true |- _ => apply orb_true_iff in H as [?|?] end;
      zbool; unfold CONTRACT_V1, CONTRACT_V2 in *; set_solver.
Qed.

Lemma validate_terms_complete t limit role now :
  acceptable t limit role now → validate_terms t limit role now = Ok tt.
Proof.
  intros [(xl & bl & Hl & Hx & Hb) Hv Hw Hlim Hp Hside Hbtc Hmin Hfee Hc Hd].
  apply legs_network_params in Hl as (btc & xbt & Hnet & -> & ->).
  unfold validate_terms. rewrite Hnet. cbn [mbind result_bind].
  rewrite !refuse_bind_Ok. split_and!; try done; apply not_true_iff_false;
    rewrite ?negb_true_iff, ?orb_true_iff, ?negb_true_iff, ?orb_false_iff, ?Z.eqb_eq,
      ?Z.eqb_neq, ?Z.ltb_lt;
    unfold MAX_CLOCK_SKEW_SECS, ACCEPT_SECS, INITIATOR_FUND_SECS, MAX_PRICE_SAT_PER_XBT,
      MIN_BTC_LEG_SAT, SWAP_FEE_BPS, XBT_CONFS, BTC_CONFS, CONTRACT_V1, CONTRACT_V2 in *;
    try (unfold btc_for_xbt, u64_max; lia).
  - set_solver by lia.
  - by rewrite (proj2 (price_worse_spec _ _ _) Hside).
  - rewrite <-!not_true_iff_false, !near_spec. lia.
Qed.

Lemma btc_for_xbt_exact x p :
  btc_for_xbt x p < u64_max → btc_for_xbt x p = x * p / 100_000_000.
Proof. unfold btc_for_xbt. lia. Qed.

Lemma btc_for_xbt_u64 x p : 0 ≤ x → 0 ≤ p → u64 (btc_for_xbt x p).
Proof.
  intros. unfold btc_for_xbt, in_range, u64_max.
  pose proof (Z.div_pos (x * p) 100_000_000). nia.
Qed.

Lemma btc_for_xbt_mono x y p : 0 ≤ p → x ≤ y → btc_for_xbt x p ≤ btc_for_xbt y p.
Proof.
  intros. unfold btc_for_xbt.
  pose proof (Z.div_le_mono (x * p) (y * p) 100_000_000). nia.
Qed.

(** ** Properties *)

(** C1. [validate_terms] accepts exactly the terms of the specification: a
    known network and contract version, a match dated at most ten minutes
    ahead and not past its accept deadline, a price on the user's side of the
    limit, the BTC amount the price gives, the protocol's fee, confirmations
    and deadlines, and both locktimes within ten minutes of the agreed legs. *)
Theorem validate_terms_spec t limit role now :
  validate_terms t limit role now = Ok tt ↔ acceptable t limit role now.
Proof. split; eauto using validate_terms_sound, validate_terms_complete. Qed.

(** C2. Accepted terms keep the legs in order: the initiator's XBT refund
    never opens before the participant's BTC refund; on mainnet it opens at
    least 23 h 40 min later, and the BTC refund opens at least 23 h after the
    initiator's funding deadline. *)
Theorem accepted_terms_leg_order t net limit role now :
  validate_terms_on t net limit role now = Ok tt →
  btc_locktime t ≤ xbt_locktime t ∧
  (net = "bitcoin" →
     btc_locktime t + (23 * 3600 + 40 * 60) ≤ xbt_locktime t ∧
     initiator_fund_by t + 23 * 3600 ≤ btc_locktime t).
Proof.
  unfold validate_terms_on. case_decide as Hn; [done|]. subst net.
  intros [(xl & bl & Hl & ? & ?) ?????????]%validate_terms_sound.
  unfold legs in Hl. repeat case_decide; simplify_eq; split; try lia; naive_solver lia.
Qed.

(** Accepted terms never cross the user's limit price: the participant
    pays at most its limit for the XBT it gets, and the initiator (below the
    saturation point of a [u64]) receives its limit price up to the rounding
    of one satoshi. *)
Theorem accepted_terms_price_limit t limit role now :
  terms_wf t →
  validate_terms t limit role now = Ok tt →
  match role with
  | Participant => btc_sat t * 100_000_000 ≤ xbt_sat t * limit
  | Initiator => btc_sat t < u64_max →
                 xbt_sat t * limit < (btc_sat t + 1) * 100_000_000
  end.
Proof.
  intros Hwf [????? Hside Hbtc ????]%validate_terms_sound.
  destruct Hwf as (Hx & _ & Hp & _). unfold in_range in *.
  pose proof (Z.mul_div_le (xbt_sat t * price_sat_per_xbt t) 100_000_000).
  pose proof (Z.mul_succ_div_gt (xbt_sat t * price_sat_per_xbt t) 100_000_000).
  unfold u64_max. destruct role; nia.
Qed.

(** Under accepted terms the participant's latest funding time lies
    between the match and the BTC refund and leaves at least half of the BTC
    leg in hand, at most 12 h; on mainnet that is 11 h 55 min or more, and the
    XBT refund is then still at least 35 h away. *)
Theorem participant_fund_latest_window t net limit role now :
  validate_terms_on t net limit role now = Ok tt →
  matched_at t ≤ btc_locktime t → 0 ≤ matched_at t →
  let latest := participant_fund_latest t in
  matched_at t ≤ latest ≤ btc_locktime t ∧
  Z.min (12 * 3600) ((btc_locktime t - matched_at t) / 2) = btc_locktime t - latest ∧
  (net = "bitcoin" →
     12 * 3600 - 300 ≤ btc_locktime t - latest ∧ 35 * 3600 ≤ xbt_locktime t - latest).
Proof.
  unfold validate_terms_on. case_decide as Hn; [done|]. subst net.
  intros [(xl & bl & Hl & ? & ?) ?????????]%validate_terms_sound ? ?.
  unfold participant_fund_latest, saturating_sub, MIN_BTC_LEG_LEFT_SECS. simpl.
  rewrite (Z.max_l (btc_locktime t - matched_at t) 0) by lia.
  unfold legs in Hl. repeat case_decide; simplify_eq; repeat split; intros;
    try congruence; Z.div_mod_to_equations; lia.
Qed.

(** The commission is 0.5% of the amount sent, rounded down and at least
    400 sat: it never wraps on a [u64], never decreases with the amount, and
    on a leg of the minimum size or more it is at most a fifth of the leg. *)
Theorem swap_commission_bounds s s' :
  u64 s → u64 s' →
  swap_commission_sat s = Z.max (s / 200) 400 ∧
  (s ≤ s' → swap_commission_sat s ≤ swap_commission_sat s') ∧
  (MIN_BTC_LEG_SAT ≤ s → swap_commission_sat s * 5 ≤ s).
Proof.
  unfold in_range, u64_max.
  assert (Hc : ∀ x, 0 ≤ x < 2^64 → swap_commission_sat x = Z.max (x / 200) 400).
  { intros x Hx. unfold swap_commission_sat, SWAP_FEE_BPS, SWAP_FEE_FLOOR_SAT.
    replace 10_000 with (200 * 50) by done. rewrite Z.div_mul_cancel_r by lia.
    rewrite Z.mod_small; [done|]. split; [apply Z.div_pos; lia|].
    apply Z.div_lt_upper_bound; lia. }
  intros. rewrite !Hc by lia. unfold MIN_BTC_LEG_SAT.
  pose proof (Z.div_le_mono s s' 200). pose proof (Z.mul_div_le s 200). lia.
Qed.

(** ** Witnesses *)
Definition example_terms : SwapTerms := {|
  match_id := "m1"; t_network := "bitcoin";
  xbt_sat := 20_000_000; btc_sat := 200_000; price_sat_per_xbt := 1_000_000;
  fee_bps := 50; fee_address := "bc1qfee"; matched_at := 1_800_000_000;
  xbt_locktime := 1_800_172_800; btc_locktime := 1_800_086_400;
  xbt_confs := 6; btc_confs := 2;
  accept_by := 1_800_000_120; initiator_fund_by := 1_800_001_920;
  contract_version := 2;
|}.

Lemma accepted_terms_leg_order_witness :
  btc_locktime example_terms + (23 * 3600 + 40 * 60) ≤ xbt_locktime example_terms.
Proof.
  refine (proj1 (proj2 (accepted_terms_leg_order example_terms "bitcoin" 1_000_000
                          Initiator 1_800_000_010 _) eq_refl)).
  vm_compute. reflexivity.
Defined.

Lemma accepted_terms_price_limit_witness :
  btc_sat example_terms * 100_000_000 ≤ xbt_sat example_terms * 1_100_000.
Proof.
  refine (accepted_terms_price_limit example_terms 1_100_000 Participant 1_800_000_010 _ _);
    [apply (bool_decide_unpack _); vm_compute; exact I | vm_compute; reflexivity].
Defined.

Lemma participant_fund_latest_window_witness :
  matched_at example_terms ≤ participant_fund_latest example_terms ≤ btc_locktime example_terms.
Proof.
  refine (proj1 (participant_fund_latest_window example_terms "bitcoin" 1_000_000
                   Initiator 1_800_000_010 _ _ _));
    [vm_compute; reflexivity | vm_compute; discriminate | vm_compute; discriminate].
Defined.

Lemma swap_commission_bounds_witness :
  swap_commission_sat 2_000 = 400 ∧ swap_commission_sat 1_000_000 = 5_000.
Proof.
  split.
  - refine (proj1 (swap_commission_bounds 2_000 2_000 _ _)); split; vm_compute; discriminate.
  - refine (proj1 (swap_commission_bounds 1_000_000 1_000_000 _ _)); split; vm_compute; discriminate.
Defined.
