(* ===== verification/Bitcoin.v ===== *)
(** The data of the [bitcoin] crate the wallet builds and reads, and the
    crate's functions the wallet calls, as a parameter of the development.

    The records have the fields the code sets; an [Amount] is its number of
    satoshis, a public key its compressed serialization, a script its bytes.
    What the theorems rely on is stated as laws in classes of their own. *)

From S2P Require Import Prelude.

Record OutPoint : Type := { txid : bytes; vout : Z }.

Record TxIn : Type := {
  previous_output : OutPoint;
  script_sig : bytes;
  sequence : Z;
  witness : list bytes;
}.

Record TxOut : Type := { value : Z; script_pubkey : bytes }.

Record Transaction : Type := {
  version : Z;
  lock_time : Z;
  input : list TxIn;
  output : list TxOut;
}.

#[export] Instance OutPoint_eq_dec : EqDecision OutPoint.
Proof. solve_decision. Defined.
#[export] Instance TxIn_eq_dec : EqDecision TxIn.
Proof. solve_decision. Defined.
#[export] Instance TxOut_eq_dec : EqDecision TxOut.
Proof. solve_decision. Defined.
#[export] Instance Transaction_eq_dec : EqDecision Transaction.
Proof. solve_decision. Defined.

(** [transaction::Version::TWO], [absolute::LockTime::ZERO],
    [Sequence::ENABLE_RBF_NO_LOCKTIME], [OutPoint::null()]. *)
Definition VERSION_TWO : Z := 2.
Definition LOCKTIME_ZERO : Z := 0.
Definition ENABLE_RBF_NO_LOCKTIME : Z := 0xFFFFFFFD.
Definition outpoint_null : OutPoint := {| txid := replicate 32 x00; vout := u32_max |}.

(** The opcodes of the contracts and what [script::Builder] is given. *)
Inductive Opcode : Type :=
| OP_IF | OP_ELSE | OP_ENDIF | OP_SIZE | OP_EQUALVERIFY | OP_SHA256 | OP_DUP
| OP_HASH160 | OP_CLTV | OP_DROP | OP_CHECKSIG | OP_CHECKSIGVERIFY.

#[export] Instance Opcode_eq_dec : EqDecision Opcode.
Proof. solve_decision. Defined.

Inductive BuilderPush : Type :=
| push_opcode (op : Opcode)
| push_int (n : Z)
| push_slice (b : bytes).

(** What [Script::instructions] yields. *)
Inductive Instruction : Type :=
| IOp (op : Opcode)
| IPushBytes (b : bytes).

#[export] Instance Instruction_eq_dec : EqDecision Instruction.
Proof. solve_decision. Defined.

(** [Amount]'s [+] panics on overflow; [checked_add] and [checked_sub] do not. *)
Definition amount_add {E} (a b : Z) : result E Z := expect (checked_add u64_max a b).
Definition amount_sub {E} (a b : Z) : result E Z := expect (checked_sub a b).

Class BitcoinLib : Type := {
  (* ScriptBuf *)
  minimal_non_dust : bytes → Z;
  is_op_return : bytes → bool;
  new_op_return : bytes → bytes;
  push_bytes_try_from : bytes → option bytes;
  new_p2wsh : bytes → bytes;
  into_script : list BuilderPush → bytes;
  int_push : Z → bytes;
  instructions : bytes → list (option Instruction);
  (* hashes and keys *)
  sha256 : bytes → bytes;
  hash160 : bytes → bytes;
  pubkey_from_slice : bytes → option bytes;
  verify_ecdsa : bytes → bytes → bytes → bool;
  signature_from_der : bytes → option bytes;
  (* transactions *)
  vsize : Transaction → Z;
  compute_txid : Transaction → bytes;
  consensus_deserialize : bytes → string + Transaction;
  serialize_hex : Transaction → string;
  deserialize_hex : string → option Transaction;
  p2wsh_signature_hash : Transaction → nat → bytes → Z → string + bytes;
  ser_version : Z → bytes;
  ser_lock_time : Z → bytes;
  ser_outpoint : OutPoint → bytes;
  ser_sequence : Z → bytes;
  ser_txout : TxOut → bytes;
  (* the hex crate and Display *)
  hex_encode : bytes → string;
  hex_decode : string → option bytes;
  amount_display : Z → string;
}.

(** Documented encodings: consensus integers and outpoints have a fixed
    width, and distinct values have distinct encodings. *)
Class SerLaws `{BitcoinLib} : Prop := {
  sha256_length b : length (sha256 b) = 32%nat;
  ser_version_length v : length (ser_version v) = 4%nat;
  ser_lock_time_length v : length (ser_lock_time v) = 4%nat;
  ser_outpoint_length o : length (ser_outpoint o) = 36%nat;
  ser_sequence_length v : length (ser_sequence v) = 4%nat;
}.

(** [Builder] and [Script::instructions] agree: the first instruction of a
    built script is its first push, and the rest are those of the rest.  An
    integer above 16 is the push of its script-number bytes [int_push]; the
    smaller ones have opcodes of their own, and nothing is assumed of them. *)
Definition push_instruction `{BitcoinLib} (p : BuilderPush) : Instruction :=
  match p with
  | push_opcode op => IOp op
  | push_int n => IPushBytes (int_push n)
  | push_slice b => IPushBytes b
  end.

Definition plain_push (p : BuilderPush) : Prop :=
  match p with push_int n => 16 < n | _ => True end.

Class ScriptCodec `{BitcoinLib} : Prop :=
  instructions_into_script p l : plain_push p →
    instructions (into_script (p :: l)) = Some (push_instruction p) :: instructions (into_script l).
