(* ===== verification/Script.v ===== *)
(** Evaluation of Bitcoin Script, the machine the contracts run on.

    Nodes, not this repository, evaluate scripts, so the evaluator is a
    parameter: the class [ScriptVM] states the documented rule of each opcode
    the contracts use, over an evaluator [exec] that takes the rest of the
    script, the stack of open conditionals (innermost first) and the data
    stack (top first).  [run] is a reference evaluator; every [ScriptVM] is
    equal to it on every script ([exec_run]), and it is an instance itself. *)

From S2P Require Import Prelude Bitcoin.

(** What the spending transaction decides: whether [sig] is a valid signature
    under [pk], whether the lock time on the stack has passed for it, and when
    a stack item counts as true. *)
Class SpendContext : Type := {
  check_sig : bytes → bytes → bool;
  cltv_ok : bytes → bool;
  cast_bool : bytes → bool;
}.

(** The documented behaviour of those checks and of script numbers: the result
    of a signature check is [0x01] or the empty item, and distinct lengths have
    distinct encodings. *)
Class SpendLaws `{BitcoinLib, SpendContext} : Prop := {
  cast_bool_true : cast_bool [x01] = true;
  cast_bool_empty : cast_bool [] = false;
  int_push_inj a b : 0 ≤ a → 0 ≤ b → int_push a = int_push b → a = b;
}.

Definition active (cs : list bool) : bool := forallb id cs.

Definition bool_item (b : bool) : bytes := if b then [x01] else [].

Section vm.
Context `{BitcoinLib, SpendContext}.

Class ScriptVM (exec : list BuilderPush → list bool → list bytes → option (list bytes)) : Prop := {
  vm_done cs st : exec [] cs st = (match cs with [] => Some st | _ => None end);
  (* conditionals are read even in a branch that is not taken *)
  vm_if_taken s cs x st : active cs = true →
    exec (push_opcode OP_IF :: s) cs (x :: st) = exec s (cast_bool x :: cs) st;
  vm_if_empty s cs : active cs = true → exec (push_opcode OP_IF :: s) cs [] = None;
  vm_if_skipped s cs st : active cs = false →
    exec (push_opcode OP_IF :: s) cs st = exec s (false :: cs) st;
  vm_else s c cs st : exec (push_opcode OP_ELSE :: s) (c :: cs) st = exec s (negb c :: cs) st;
  vm_else_empty s st : exec (push_opcode OP_ELSE :: s) [] st = None;
  vm_endif s c cs st : exec (push_opcode OP_ENDIF :: s) (c :: cs) st = exec s cs st;
  vm_endif_empty s st : exec (push_opcode OP_ENDIF :: s) [] st = None;
  (* anything else is skipped there *)
  vm_skip p s cs st : active cs = false →
    (∀ op, p = push_opcode op → op ≠ OP_IF ∧ op ≠ OP_ELSE ∧ op ≠ OP_ENDIF) →
    exec (p :: s) cs st = exec s cs st;
  (* pushes *)
  vm_slice b s cs st : active cs = true → exec (push_slice b :: s) cs st = exec s cs (b :: st);
  vm_int n s cs st : active cs = true → exec (push_int n :: s) cs st = exec s cs (int_push n :: st);
  (* stack, hash and signature opcodes *)
  vm_size s cs x st : active cs = true →
    exec (push_opcode OP_SIZE :: s) cs (x :: st) = exec s cs (int_push (Z.of_nat (length x)) :: x :: st);
  vm_dup s cs x st : active cs = true →
    exec (push_opcode OP_DUP :: s) cs (x :: st) = exec s cs (x :: x :: st);
  vm_drop s cs x st : active cs = true → exec (push_opcode OP_DROP :: s) cs (x :: st) = exec s cs st;
  vm_sha256 s cs x st : active cs = true →
    exec (push_opcode OP_SHA256 :: s) cs (x :: st) = exec s cs (sha256 x :: st);
  vm_hash160 s cs x st : active cs = true →
    exec (push_opcode OP_HASH160 :: s) cs (x :: st) = exec s cs (hash160 x :: st);
  vm_cltv s cs x st : active cs = true →
    exec (push_opcode OP_CLTV :: s) cs (x :: st) = (if cltv_ok x then exec s cs (x :: st) else None);
  vm_equalverify s cs x y st : active cs = true →
    exec (push_opcode OP_EQUALVERIFY :: s) cs (x :: y :: st) =
    (if decide (x = y) then exec s cs st else None);
  vm_checksig s cs pk sig st : active cs = true →
    exec (push_opcode OP_CHECKSIG :: s) cs (pk :: sig :: st) = exec s cs (bool_item (check_sig sig pk) :: st);
  vm_checksigverify s cs pk sig st : active cs = true →
    exec (push_opcode OP_CHECKSIGVERIFY :: s) cs (pk :: sig :: st) =
    (if check_sig sig pk then exec s cs st else None);
  (* too few items *)
  vm_underflow1 op s cs : active cs = true →
    op ∈ [OP_SIZE; OP_DUP; OP_DROP; OP_SHA256; OP_HASH160; OP_CLTV; OP_EQUALVERIFY;
          OP_CHECKSIG; OP_CHECKSIGVERIFY] →
    exec (push_opcode op :: s) cs [] = None;
  vm_underflow2 op s cs x : active cs = true →
    op ∈ [OP_EQUALVERIFY; OP_CHECKSIG; OP_CHECKSIGVERIFY] →
    exec (push_opcode op :: s) cs [x] = None;
}.

(** One step of the reference evaluator; [None] fails the script. *)
Definition step (p : BuilderPush) (cs : list bool) (st : list bytes) : option (list bool * list bytes) :=
  match p with
  | push_opcode OP_IF =>
      if active cs then match st with x :: st => Some (cast_bool x :: cs, st) | [] => None end
      else Some (false :: cs, st)
  | push_opcode OP_ELSE => match cs with c :: cs => Some (negb c :: cs, st) | [] => None end
  | push_opcode OP_ENDIF => match cs with _ :: cs => Some (cs, st) | [] => None end
  | _ =>
      if negb (active cs) then Some (cs, st) else
      st' ← match p, st with
            | push_slice b, _ => Some (b :: st)
            | push_int n, _ => Some (int_push n :: st)
            | push_opcode OP_SIZE, x :: _ => Some (int_push (Z.of_nat (length x)) :: st)
            | push_opcode OP_DUP, x :: _ => Some (x :: st)
            | push_opcode OP_DROP, _ :: st => Some st
            | push_opcode OP_SHA256, x :: st => Some (sha256 x :: st)
            | push_opcode OP_HASH160, x :: st => Some (hash160 x :: st)
            | push_opcode OP_CLTV, x :: _ => if cltv_ok x then Some st else None
            | push_opcode OP_EQUALVERIFY, x :: y :: st => if decide (x = y) then Some st else None
            | push_opcode OP_CHECKSIG, pk :: sig :: st => Some (bool_item (check_sig sig pk) :: st)
            | push_opcode OP_CHECKSIGVERIFY, pk :: sig :: st => if check_sig sig pk then Some st else None
            | _, _ => None
            end;
      Some (cs, st')
  end.

Fixpoint run (s : list BuilderPush) (cs : list bool) (st : list bytes) : option (list bytes) :=
  match s with
  | [] => match cs with [] => Some st | _ => None end
  | p :: s => '(cs, st) ← step p cs st; run s cs st
  end.

#[export] Instance run_vm : ScriptVM run.
Proof.
  split; intros; simpl; unfold step;
    repeat match goal with
    | H : active _ = _ |- _ => rewrite H; clear H; simpl
    | H : _ ∈ _ |- _ => repeat (apply elem_of_cons in H as [->|H]); [done..|by apply elem_of_nil in H]
    end; try done; try (by repeat case_match).
  destruct p as [op| |]; simpl; try done.
  destruct (H2 op eq_refl) as (?&?&?). by destruct op.
Qed.

(** The rules determine the evaluator.  [comp] finishes a case once the rule
    of its opcode has been applied on the left. *)
Ltac comp IH A := rewrite ?IH; simpl; unfold step; rewrite ?A; simpl; by repeat case_match.

Lemma exec_run exec `{!ScriptVM exec} s cs st : exec s cs st = run s cs st.
Proof.
  destruct ScriptVM0. revert cs st.
  induction s as [|p s IH]; intros cs st; [auto|].
  destruct (active cs) eqn:A.
  - destruct p as [op|n|b];
      [|by rewrite vm_int0 by done; comp IH A|by rewrite vm_slice0 by done; comp IH A].
    assert (U1 : ∀ op, op ∈ [OP_SIZE; OP_DUP; OP_DROP; OP_SHA256; OP_HASH160; OP_CLTV;
      OP_EQUALVERIFY; OP_CHECKSIG; OP_CHECKSIGVERIFY] → exec (push_opcode op :: s) cs [] = None)
      by auto.
    assert (U2 : ∀ op x, op ∈ [OP_EQUALVERIFY; OP_CHECKSIG; OP_CHECKSIGVERIFY] →
      exec (push_opcode op :: s) cs [x] = None) by auto.
    destruct op; destruct st as [|x [|y st]];
      first [ rewrite vm_if_taken0 by done | rewrite vm_if_empty0 by done
            | rewrite vm_size0 by done | rewrite vm_dup0 by done | rewrite vm_drop0 by done
            | rewrite vm_sha257 by done | rewrite vm_hash161 by done
            | rewrite vm_cltv0 by done | rewrite vm_equalverify0 by done
            | rewrite vm_checksig0 by done | rewrite vm_checksigverify0 by done
            | rewrite U1 by (repeat constructor) | rewrite U2 by (repeat constructor)
            | destruct cs; first [ rewrite vm_else_empty0 | rewrite vm_else0
                                 | rewrite vm_endif_empty0 | rewrite vm_endif0 ] ];
      comp IH A.
  - destruct p as [[]|n|b];
      first [ rewrite vm_if_skipped0 by done
            | rewrite vm_skip0 by (first [done | by intros ? [= <-]])
            | destruct cs; first [ rewrite vm_else_empty0 | rewrite vm_else0
                                 | rewrite vm_endif_empty0 | rewrite vm_endif0 ] ];
      comp IH A.
Qed.

(** A P2WSH input is valid when the last witness item is the script its output
    commits to and evaluating it over the other items leaves one true item. *)
Definition p2wsh_valid (exec : list BuilderPush → list bool → list bytes → option (list bytes))
    (pushes : list BuilderPush) (w : list bytes) : Prop :=
  ∃ items x, w = items ++ [into_script pushes] ∧
    exec pushes [] (rev items) = Some [x] ∧ cast_bool x = true.

End vm.
