(* ===== verification/Toy.v ===== *)
(** A concrete instance of the library parameter [BitcoinLib] and of the laws
    the theorems assume.  It stands for no real code: it shows that the laws
    can hold together, and it is what the witnesses evaluate. *)

From Stdlib Require Import Ascii.
From S2P Require Import Prelude Bitcoin Script.

(** ** Scripts: one byte per opcode, pushes spelled byte by byte *)
Definition op_byte (op : Opcode) : byte :=
  match op with
  | OP_IF => x01 | OP_ELSE => x02 | OP_ENDIF => x03 | OP_SIZE => x04
  | OP_EQUALVERIFY => x05 | OP_SHA256 => x06 | OP_DUP => x07 | OP_HASH160 => x08
  | OP_CLTV => x09 | OP_DROP => x0a | OP_CHECKSIG => x0b | OP_CHECKSIGVERIFY => x0c
  end.

Definition byte_op (b : byte) : option Opcode :=
  match b with
  | x01 => Some OP_IF | x02 => Some OP_ELSE | x03 => Some OP_ENDIF | x04 => Some OP_SIZE
  | x05 => Some OP_EQUALVERIFY | x06 => Some OP_SHA256 | x07 => Some OP_DUP
  | x08 => Some OP_HASH160 | x09 => Some OP_CLTV | x0a => Some OP_DROP
  | x0b => Some OP_CHECKSIG | x0c => Some OP_CHECKSIGVERIFY
  | _ => None
  end.

Definition spell (b : bytes) : bytes := concat (map (λ x, [x01; x]) b) ++ [x00].

Definition instr_bytes (i : Instruction) : bytes :=
  match i with
  | IOp op => [x03; op_byte op]
  | IPushBytes b => x02 :: spell b
  end.

Fixpoint read_script (cur : option bytes) (l : bytes) : list (option Instruction) :=
  match cur, l with
  | None, [] => []
  | None, x03 :: b :: l => (IOp <$> byte_op b) :: read_script None l
  | None, x02 :: l => read_script (Some []) l
  | Some acc, x00 :: l => Some (IPushBytes (rev acc)) :: read_script None l
  | Some acc, x01 :: b :: l => read_script (Some (b :: acc)) l
  | _, _ => [None]
  end.

Lemma read_spell acc b l :
  read_script (Some acc) (spell b ++ l) = Some (IPushBytes (rev acc ++ b)) :: read_script None l.
Proof.
  unfold spell. revert acc. induction b as [|x b IH]; intros acc; simpl.
  - by rewrite app_nil_r.
  - rewrite <-app_assoc in *. rewrite IH. simpl. by rewrite <-app_assoc.
Qed.

Lemma read_instrs ins :
  read_script None (concat (map instr_bytes ins)) = map Some ins.
Proof.
  induction ins as [|[op|b] ins IH]; [done| |]; simpl.
  - rewrite IH. by destruct op.
  - rewrite read_spell, IH. done.
Qed.

(** ** Fixed-width digests and text *)
Definition pad (n : nat) (b : bytes) : bytes := take n (b ++ replicate n x00).

Lemma length_pad n b : length (pad n b) = n.
Proof. unfold pad. rewrite length_take, length_app, length_replicate. lia. Qed.

#[export] Instance Transaction_countable : Countable Transaction.
Proof.
  refine (inj_countable'
    (λ tx, (version tx, lock_time tx,
       map (λ i, (txid (previous_output i), vout (previous_output i), script_sig i,
                  sequence i, witness i)) (input tx),
       map (λ o, (value o, script_pubkey o)) (output tx)))
    (λ '(v, lt, ins, outs), {|
       version := v; lock_time := lt;
       input := map (λ '(t, n, ss, sq, w), {| previous_output := {| txid := t; vout := n |};
                  script_sig := ss; sequence := sq; witness := w |}) ins;
       output := map (λ '(a, spk), {| value := a; script_pubkey := spk |}) outs |}) _).
  intros [v lt ins outs]; cbn [version lock_time input output]. rewrite !map_map. f_equal.
  - induction ins as [|[[] ???] ins IH]; cbn; congruence.
  - induction outs as [|[] outs IH]; cbn; congruence.
Defined.

Fixpoint positive_string (p : positive) : string :=
  match p with
  | xH => ""
  | xO p => String "0"%char (positive_string p)
  | xI p => String "1"%char (positive_string p)
  end.

Fixpoint string_positive (s : string) : positive :=
  match s with
  | EmptyString => xH
  | String "0"%char s => xO (string_positive s)
  | String _ s => xI (string_positive s)
  end.

Lemma string_positive_string p : string_positive (positive_string p) = p.
Proof. induction p; simpl; congruence. Qed.

(** A number as its binary digits. *)
Definition toy_int (n : Z) : bytes := String.list_byte_of_string (positive_string (encode n)).

(** ** The instance *)
#[export] Instance toy_lib : BitcoinLib := {|
  minimal_non_dust := λ _, 294;
  is_op_return := λ spk, match spk with x6a :: _ => true | _ => false end;
  new_op_return := λ b, x6a :: b;
  push_bytes_try_from := Some;
  new_p2wsh := λ ws, x00 :: x20 :: ws;
  into_script := λ l, concat (map instr_bytes (map
    (λ p, match p with
          | push_opcode op => IOp op
          | push_int n => IPushBytes (toy_int n)
          | push_slice b => IPushBytes b
          end) l));
  int_push := toy_int;
  instructions := read_script None;
  sha256 := pad 32;
  hash160 := pad 20;
  pubkey_from_slice := λ b, if Nat.eqb (length b) 33 then Some b else None;
  verify_ecdsa := λ msg sig pk, bool_decide (sig = pk ++ msg);
  signature_from_der := Some;
  vsize := λ tx, 110 + 43 * Z.of_nat (length (output tx));
  compute_txid := λ tx, pad 32 (le_bytes 4 (lock_time tx));
  consensus_deserialize := λ _, inl "unreadable";
  serialize_hex := λ tx, positive_string (encode tx);
  deserialize_hex := λ s, decode (string_positive s);
  p2wsh_signature_hash := λ tx i sc v, inr (pad 32 (le_bytes 8 v ++ sc));
  ser_version := le_bytes 4;
  ser_lock_time := le_bytes 4;
  ser_outpoint := λ o, pad 32 (txid o) ++ le_bytes 4 (vout o);
  ser_sequence := le_bytes 4;
  ser_txout := λ o, le_bytes 8 (value o) ++ script_pubkey o;
  hex_encode := String.string_of_list_byte;
  hex_decode := λ s, Some (String.list_byte_of_string s);
  amount_display := λ v, pretty v +:+ " sat";
|}.

(** The same with a reader of transactions and an encoding of bytes as text. *)
Definition toy_lib_of (read : bytes → string + Transaction) (enc : bytes → string) (dec : string → option bytes) : BitcoinLib := {|
  minimal_non_dust := minimal_non_dust; is_op_return := is_op_return; new_op_return := new_op_return;
  push_bytes_try_from := push_bytes_try_from; new_p2wsh := new_p2wsh; into_script := into_script; int_push := int_push;
  instructions := instructions; sha256 := sha256; hash160 := hash160; pubkey_from_slice := pubkey_from_slice;
  verify_ecdsa := verify_ecdsa; signature_from_der := signature_from_der; vsize := vsize; compute_txid := compute_txid;
  consensus_deserialize := read; serialize_hex := serialize_hex; deserialize_hex := deserialize_hex;
  p2wsh_signature_hash := p2wsh_signature_hash; ser_version := ser_version; ser_lock_time := ser_lock_time;
  ser_outpoint := ser_outpoint; ser_sequence := ser_sequence; ser_txout := ser_txout;
  hex_encode := enc; hex_decode := dec; amount_display := amount_display;
|}.

#[export] Instance toy_ser : SerLaws.
Proof.
  split; intros; [apply length_pad|apply length_le_bytes|apply length_le_bytes| |apply length_le_bytes].
  change (length (pad 32 (txid o) ++ le_bytes 4 (vout o)) = 36%nat).
  by rewrite length_app, length_pad, length_le_bytes.
Qed.

#[export] Instance toy_codec : ScriptCodec.
Proof. intros p l _. by destruct p as [[]| |]; simpl; rewrite ?read_spell, ?read_instrs. Qed.

(** A transaction every signature of which checks, past every lock time. *)
#[export] Instance toy_spend : SpendContext := {|
  check_sig := λ _ _, true;
  cltv_ok := λ _, true;
  cast_bool := λ b, match b with [] => false | _ => true end;
|}.

#[export] Instance toy_spend_laws : SpendLaws.
Proof.
  split; [done..|]. intros a b _ _ E. cbn in E. unfold toy_int in E.
  apply (f_equal String.string_of_list_byte) in E.
  rewrite !String.string_of_list_byte_of_string in E.
  apply (f_equal string_positive) in E. rewrite !string_positive_string in E.
  by apply encode_inj in E.
Qed.
