(* ===== verification/Sighash.v ===== *)
(** Signature hashes ([wallet-core/src/sighash.rs]): BIP-143 for Bitcoin, the
    fork's [SIGHASH_UNIFIED] message for XBT. *)

From S2P Require Import Prelude Chain Bitcoin Toy.

Record SigHash : Type := { message : bytes; flag : Z }.

Definition SCRIPT_TYPE_WITNESS_V0 : Z := 1.
Definition HASHTYPE_ALL : Z := 0x01.
Definition HASHTYPE_ALL_UNIFIED : Z := 0x21.

(** The functions that fill a [Vec] in place return what they append. *)
Definition put_compact_size (n : Z) : bytes :=
  if n <? 0xFD then [byte_of_Z n]
  else if n <=? 0xFFFF then xfd :: le_bytes 2 n
  else if n <=? 0xFFFF_FFFF then xfe :: le_bytes 4 n
  else xff :: le_bytes 8 n.

Definition put_script (s : bytes) : bytes :=
  put_compact_size (Z.of_nat (length s)) ++ s.

Section sighash.
Context `{BitcoinLib}.

(** The byte string [m] of [unified_message], before the tagged hash. *)
Definition unified_preimage (tx : Transaction) (prevouts : list TxOut)
    (input_index : nat) (script_code : bytes) (script_type hash_type : Z) : Result bytes :=
  _ ← bail_if (negb (Nat.eqb (length prevouts) (length (input tx))))
        (InvalidSwapParams "prevouts length must equal input count");
  _ ← bail_if (Nat.leb (length (input tx)) input_index)
        (InvalidSwapParams "input_index out of range");
  let anyonecanpay := negb (Z.land hash_type 0x80 =? 0) in
  let base := Z.land hash_type 0x1f in
  let head := [x00; byte_of_Z hash_type] ++ ser_version (version tx)
              ++ ser_lock_time (lock_time tx) ++ [x00] in
  let all_inputs :=
    if anyonecanpay then []
    else sha256 (concat (map (λ i, ser_outpoint (previous_output i)) (input tx)))
         ++ sha256 (concat (map (λ p, le_bytes 8 (value p)) prevouts))
         ++ sha256 (concat (map (λ p, put_script (script_pubkey p)) prevouts))
         ++ sha256 (concat (map (λ i, ser_sequence (sequence i)) (input tx))) in
  let outputs :=
    if negb (base =? 0x02) && negb (base =? 0x03)
    then sha256 (concat (map ser_txout (output tx))) else [] in
  this_input ←
    (if anyonecanpay then
       i ← expect (input tx !! input_index);
       p ← expect (prevouts !! input_index);
       mret (ser_outpoint (previous_output i) ++ ser_txout p ++ ser_sequence (sequence i))
     else mret (le_bytes 4 (Z.of_nat input_index)));
  single ←
    (if base =? 0x03 then
       o ← ok_or (output tx !! input_index)
             (BitcoinErr "SIGHASH_SINGLE with no output at index");
       mret (sha256 (ser_txout o))
     else mret []);
  mret (head ++ all_inputs ++ outputs ++ [byte_of_Z script_type] ++ this_input
        ++ put_script script_code ++ single).

Definition UNIFIED_TAG : bytes := String.list_byte_of_string "UnifiedSighash".

Definition unified_message (tx : Transaction) (prevouts : list TxOut)
    (input_index : nat) (script_code : bytes) (script_type hash_type : Z) : Result bytes :=
  m ← unified_preimage tx prevouts input_index script_code script_type hash_type;
  let tag := sha256 UNIFIED_TAG in
  mret (sha256 (tag ++ tag ++ m)).

Definition sighash_all (tx : Transaction) (prevouts : list TxOut) (input_index : nat)
    (script_code : bytes) (variant : SighashVariant) : Result SigHash :=
  match variant with
  | SegwitV0 =>
      p ← ok_or (prevouts !! input_index) (BitcoinErr "prevout missing for input");
      match p2wsh_signature_hash tx input_index script_code (value p) with
      | inr hash => mret {| message := hash; flag := HASHTYPE_ALL |}
      | inl e => Err (BitcoinErr e)
      end
  | Unified =>
      m ← unified_message tx prevouts input_index script_code
            SCRIPT_TYPE_WITNESS_V0 HASHTYPE_ALL_UNIFIED;
      mret {| message := m; flag := HASHTYPE_ALL_UNIFIED |}
  end.

(** ** Specification: reading a CompactSize back *)
Fixpoint le_value (b : bytes) : Z :=
  match b with [] => 0 | x :: b => Z_of_byte x + 256 * le_value b end.

End sighash.

Definition get_compact_size (b : bytes) : option (Z * bytes) :=
  match b with
  | [] => None
  | x :: rest =>
      let wide n := if Nat.ltb (length rest) n then None
                    else Some (le_value (take n rest), drop n rest) in
      if bool_decide (x = xfd) then wide 2%nat
      else if bool_decide (x = xfe) then wide 4%nat
      else if bool_decide (x = xff) then wide 8%nat
      else Some (Z_of_byte x, rest)
  end.

(** ** Lemmas *)
Lemma le_value_le_bytes n z : le_value (le_bytes n z) = z mod 256 ^ Z.of_nat n.
Proof.
  revert z. induction n as [|n IH]; intros z; cbn [le_bytes le_value].
  - by rewrite Z.mod_1_r.
  - rewrite IH, Z_of_byte_of_Z, Nat2Z.inj_succ, Z.pow_succ_r by lia.
    rewrite (Z.rem_mul_r z 256 (256 ^ Z.of_nat n)) by lia. lia.
Qed.

Lemma byte_of_Z_small_not_marker n :
  0 ≤ n < 0xFD → byte_of_Z n ≠ xfd ∧ byte_of_Z n ≠ xfe ∧ byte_of_Z n ≠ xff.
Proof.
  intros Hn. split_and!; intros E; apply (f_equal Z_of_byte) in E;
    rewrite Z_of_byte_of_Z, Z.mod_small in E by lia; cbv in E; lia.
Qed.

Lemma wide_compact_size n z rest :
  0 ≤ z < 256 ^ Z.of_nat n →
  (if Nat.ltb (length (le_bytes n z ++ rest)) n then None
   else Some (le_value (take n (le_bytes n z ++ rest)), drop n (le_bytes n z ++ rest)))
  = Some (z, rest).
Proof.
  intros Hz. rewrite length_app, length_le_bytes.
  rewrite (proj2 (Nat.ltb_ge _ _)) by lia.
  rewrite take_app_length', drop_app_length' by (symmetry; apply length_le_bytes).
  by rewrite le_value_le_bytes, Z.mod_small.
Qed.

Lemma get_put_compact_size n rest :
  u64 n → get_compact_size (put_compact_size n ++ rest) = Some (n, rest).
Proof.
  unfold in_range, u64_max. intros Hn. unfold put_compact_size.
  destruct (n <? 0xFD) eqn:E1; zbool.
  { destruct (byte_of_Z_small_not_marker n ltac:(lia)) as (?&?&?). simpl.
    rewrite !bool_decide_false by done. by rewrite Z_of_byte_of_Z, Z.mod_small by lia. }
  destruct (n <=? 0xFFFF) eqn:E2; zbool; [by apply (wide_compact_size 2); simpl; lia|].
  destruct (n <=? 0xFFFF_FFFF) eqn:E3; zbool; [by apply (wide_compact_size 4); simpl; lia|].
  apply (wide_compact_size 8); simpl; lia.
Qed.

Lemma put_script_app_inj s1 s2 r1 r2 :
  Z.of_nat (length s1) ≤ u64_max → Z.of_nat (length s2) ≤ u64_max →
  put_script s1 ++ r1 = put_script s2 ++ r2 → s1 = s2 ∧ r1 = r2.
Proof.
  intros H1 H2 E. unfold put_script in E. rewrite <-!app_assoc in E.
  apply (f_equal get_compact_size) in E.
  rewrite !get_put_compact_size in E by (split; lia).
  injection E as Hl Hr. apply app_inj_1 in Hr; lia || done.
Qed.

Lemma concat_put_script_inj l1 l2 :
  Forall (λ s, Z.of_nat (length s) ≤ u64_max) l1 →
  Forall (λ s, Z.of_nat (length s) ≤ u64_max) l2 →
  length l1 = length l2 →
  concat (map put_script l1) = concat (map put_script l2) → l1 = l2.
Proof.
  intros H1. revert l2. induction H1 as [|s l1 Hs H1 IH]; intros [|s' l2] H2 Hlen E; try done.
  inversion H2; subst. simpl in *. apply put_script_app_inj in E as [-> E]; [|done..].
  f_equal. apply IH; auto.
Qed.

Lemma concat_le_bytes_inj (l1 l2 : list Z) :
  Forall (λ z, u64 z) l1 → Forall (λ z, u64 z) l2 →
  length l1 = length l2 →
  concat (map (le_bytes 8) l1) = concat (map (le_bytes 8) l2) → l1 = l2.
Proof.
  intros H1. revert l2. unfold in_range, u64_max in *.
  induction H1 as [|s l1 Hs H1 IH]; intros [|s' l2] H2 Hlen E; try done.
  inversion H2; subst. cbn [map concat] in E.
  apply app_inj_1 in E as [E1 E2]; [|by rewrite !length_le_bytes].
  f_equal; [|apply IH; auto]. apply le_bytes_inj in E1; simpl; lia.
Qed.

Section unified.
Context `{SerLaws}.

(** The bytes of an [ALL | UNIFIED] message, field by field. *)
Lemma unified_preimage_all tx ps i sc m :
  unified_preimage tx ps i sc SCRIPT_TYPE_WITNESS_V0 HASHTYPE_ALL_UNIFIED = Ok m →
  length ps = length (input tx) ∧ (i < length (input tx))%nat ∧
  m = [x00; x21] ++ ser_version (version tx) ++ ser_lock_time (lock_time tx) ++ [x00]
      ++ sha256 (concat (map (λ i, ser_outpoint (previous_output i)) (input tx)))
      ++ sha256 (concat (map (λ p, le_bytes 8 (value p)) ps))
      ++ sha256 (concat (map (λ p, put_script (script_pubkey p)) ps))
      ++ sha256 (concat (map (λ i, ser_sequence (sequence i)) (input tx)))
      ++ sha256 (concat (map ser_txout (output tx)))
      ++ [x01] ++ le_bytes 4 (Z.of_nat i) ++ put_script sc.
Proof.
  unfold unified_preimage. intros E. rewrite !bail_if_bind_Ok in E.
  destruct E as (Hl & Hi & E). cbn in E. injection E as <-.
  apply negb_false_iff, Nat.eqb_eq in Hl. apply Nat.leb_gt in Hi.
  split_and!; [done..|]. rewrite <-!app_assoc, app_nil_r. done.
Qed.

Ltac split_app E :=
  apply app_inj_1 in E as [? E];
  [|rewrite ?sha256_length, ?ser_version_length, ?ser_lock_time_length, ?length_le_bytes; done].

Lemma unified_preimage_fields tx1 tx2 ps1 ps2 i1 i2 sc1 sc2 m :
  unified_preimage tx1 ps1 i1 sc1 SCRIPT_TYPE_WITNESS_V0 HASHTYPE_ALL_UNIFIED = Ok m →
  unified_preimage tx2 ps2 i2 sc2 SCRIPT_TYPE_WITNESS_V0 HASHTYPE_ALL_UNIFIED = Ok m →
  ser_version (version tx1) = ser_version (version tx2) ∧
  ser_lock_time (lock_time tx1) = ser_lock_time (lock_time tx2) ∧
  sha256 (concat (map (λ i, ser_outpoint (previous_output i)) (input tx1))) =
    sha256 (concat (map (λ i, ser_outpoint (previous_output i)) (input tx2))) ∧
  sha256 (concat (map (λ p, le_bytes 8 (value p)) ps1)) =
    sha256 (concat (map (λ p, le_bytes 8 (value p)) ps2)) ∧
  sha256 (concat (map (λ p, put_script (script_pubkey p)) ps1)) =
    sha256 (concat (map (λ p, put_script (script_pubkey p)) ps2)) ∧
  sha256 (concat (map ser_txout (output tx1))) = sha256 (concat (map ser_txout (output tx2))) ∧
  le_bytes 4 (Z.of_nat i1) = le_bytes 4 (Z.of_nat i2) ∧
  put_script sc1 = put_script sc2.
Proof.
  intros (_ & _ & ->)%unified_preimage_all (_ & _ & E)%unified_preimage_all.
  do 11 split_app E. done.
Qed.

Lemma concat_outpoints_length (l : list TxIn) :
  length (concat (map (λ i, ser_outpoint (previous_output i)) l)) = (36 * length l)%nat.
Proof.
  induction l; simpl; [done|]. rewrite length_app, ser_outpoint_length. lia.
Qed.

Lemma prevouts_eq (ps1 ps2 : list TxOut) :
  map value ps1 = map value ps2 →
  map script_pubkey ps1 = map script_pubkey ps2 → ps1 = ps2.
Proof.
  revert ps2. induction ps1 as [|[v s] ps1 IH]; intros [|[v' s'] ps2] E1 E2; try done.
  simplify_eq/=. f_equal. auto.
Qed.

(** The byte strings hashed on the way to a unified message. *)
Definition hashed (tx : Transaction) (ps : list TxOut) (m : bytes) : list bytes :=
  [sha256 UNIFIED_TAG ++ sha256 UNIFIED_TAG ++ m;
   concat (map (λ i, ser_outpoint (previous_output i)) (input tx));
   concat (map (λ p, le_bytes 8 (value p)) ps);
   concat (map (λ p, put_script (script_pubkey p)) ps);
   concat (map ser_txout (output tx))].

(** Outputs whose value is a [u64] and whose script has a [u64] length. *)
Definition prevout_wf (p : TxOut) : Prop :=
  u64 (value p) ∧ Z.of_nat (length (script_pubkey p)) ≤ u64_max.

(** C40. A unified signature commits to what it spends and what it pays: when
    two signing requests give the same message and SHA-256 does not collide on
    the strings those two messages hash, the requests are for the same input
    index and script code, the same spent outputs (values and scripts), and
    transactions with the same version, lock time and outputs as serialized. *)
Theorem unified_sighash_commits tx1 tx2 ps1 ps2 i1 i2 sc1 sc2 m1 m2 sh1 sh2 :
  unified_preimage tx1 ps1 i1 sc1 SCRIPT_TYPE_WITNESS_V0 HASHTYPE_ALL_UNIFIED = Ok m1 →
  unified_preimage tx2 ps2 i2 sc2 SCRIPT_TYPE_WITNESS_V0 HASHTYPE_ALL_UNIFIED = Ok m2 →
  sighash_all tx1 ps1 i1 sc1 Unified = Ok sh1 →
  sighash_all tx2 ps2 i2 sc2 Unified = Ok sh2 →
  (∀ a b, a ∈ hashed tx1 ps1 m1 → b ∈ hashed tx2 ps2 m2 → sha256 a = sha256 b → a = b) →
  Forall prevout_wf ps1 → Forall prevout_wf ps2 →
  Z.of_nat (length sc1) ≤ u64_max → Z.of_nat (length sc2) ≤ u64_max →
  Z.of_nat i1 ≤ u32_max → Z.of_nat i2 ≤ u32_max →
  message sh1 = message sh2 →
  i1 = i2 ∧ sc1 = sc2 ∧ ps1 = ps2 ∧
  ser_version (version tx1) = ser_version (version tx2) ∧
  ser_lock_time (lock_time tx1) = ser_lock_time (lock_time tx2) ∧
  concat (map ser_txout (output tx1)) = concat (map ser_txout (output tx2)).
Proof.
  intros E1 E2 S1 S2 Hcr W1 W2 Hs1 Hs2 Hi1 Hi2 Hm.
  unfold sighash_all, unified_message in S1, S2. rewrite E1 in S1. rewrite E2 in S2.
  cbn in S1, S2. simp. cbn [message] in Hm.
  assert (m1 = m2) as ->.
  { apply Hcr in Hm; [|unfold hashed; set_solver..]. by do 2 apply app_inv_head in Hm. }
  pose proof (unified_preimage_all _ _ _ _ _ E1) as (L1 & _ & _).
  pose proof (unified_preimage_all _ _ _ _ _ E2) as (L2 & _ & _).
  destruct (unified_preimage_fields _ _ _ _ _ _ _ _ _ E1 E2)
    as (Hv & Hlt & Hop & Ham & Hsc & Hout & Hidx & Hcode).
  apply Hcr in Hop, Ham, Hsc, Hout; unfold hashed; [|set_solver..].
  apply (f_equal length) in Hop. rewrite !concat_outpoints_length in Hop.
  assert (ps1 = ps2) as ->.
  { apply prevouts_eq.
    - apply concat_le_bytes_inj; rewrite ?Forall_map, ?length_map; try lia.
      1,2: eapply Forall_impl; [done|by intros ? []].
      by rewrite !map_map.
    - apply concat_put_script_inj; rewrite ?Forall_map, ?length_map; try lia.
      1,2: eapply Forall_impl; [done|by intros ? []].
      by rewrite !map_map. }
  rewrite <-(app_nil_r (put_script sc1)), <-(app_nil_r (put_script sc2)) in Hcode.
  apply put_script_app_inj in Hcode as [-> _]; [|done..].
  apply le_bytes_inj in Hidx; unfold u32_max in *; [|simpl; lia..].
  split_and!; [lia|done..].
Qed.

End unified.

(** ** Witnesses *)
Definition example_tx : Transaction := {|
  version := 2; lock_time := 0;
  input := [{| previous_output := {| txid := replicate 32 x07; vout := 1 |};
               script_sig := []; sequence := ENABLE_RBF_NO_LOCKTIME; witness := [] |}];
  output := [{| value := 9_000; script_pubkey := [x51] |}];
|}.

Definition example_prevouts : list TxOut := [{| value := 10_000; script_pubkey := [x00; x20] |}].

Lemma unified_sighash_commits_witness : example_prevouts = example_prevouts.
Proof.
  destruct (unified_preimage example_tx example_prevouts 0 [xac] 1 0x21) as [m| |] eqn:Em;
    [|vm_compute in Em; discriminate Em..].
  destruct (sighash_all example_tx example_prevouts 0 [xac] Unified) as [sh| |] eqn:Esh;
    [|vm_compute in Esh; discriminate Esh..].
  refine (proj1 (proj2 (proj2 (unified_sighash_commits example_tx example_tx
    example_prevouts example_prevouts 0 0 [xac] [xac] m m sh sh Em Em Esh Esh _ _ _ _ _ _ _ eq_refl)))).
  - vm_compute in Em. injection Em as <-.
    assert (∀ l : list bytes, forallb (λ a, forallb (λ b,
      implb (bool_decide (sha256 a = sha256 b)) (bool_decide (a = b))) l) l = true →
      ∀ a b, a ∈ l → b ∈ l → sha256 a = sha256 b → a = b) as Hl.
    { intros l Hl a b Ha Hb E. rewrite forallb_forall in Hl.
      apply list_elem_of_In in Ha, Hb. specialize (Hl a Ha). rewrite forallb_forall in Hl.
      specialize (Hl b Hb). rewrite (bool_decide_true _ E) in Hl.
      by apply bool_decide_eq_true in Hl. }
    apply Hl. vm_compute. reflexivity.
  - repeat constructor; vm_compute; discriminate.
  - repeat constructor; vm_compute; discriminate.
  - vm_compute; discriminate.
  - vm_compute; discriminate.
  - vm_compute; discriminate.
  - vm_compute; discriminate.
Defined.
