(* ===== verification/Htlc.v ===== *)
(** The hash time-locked contract of one swap leg ([wallet-core/src/htlc.rs],
    [op_return_output] of [wallet.rs]): its two script versions, the
    transactions that spend it and their witnesses. *)

From S2P Require Import Prelude Chain SwapTerms Bitcoin Script Toy Sighash.

(** [wallet.rs] *)
Definition op_return_output `{BitcoinLib} (data : bytes) : Result TxOut :=
  match push_bytes_try_from data with
  | Some push => Ok {| value := 0; script_pubkey := new_op_return push |}
  | None => Err (BitcoinErr "OP_RETURN data too large")
  end.

Definition REPLAY_GUARD : bytes := String.list_byte_of_string
  "fortis swap replay guard: over the BLAKE2b fork's 82-byte OP_RETURN cap, so never valid on XBT......".

Inductive HtlcPath : Type := Redeem | Refund | Release.

#[export] Instance HtlcPath_eq_dec : EqDecision HtlcPath.
Proof. solve_decision. Defined.

Record HtlcContract : Type := {
  c_version : Z;
  witness_script : bytes;
  c_script_pubkey : bytes;
  c_value : Z;
  hashlock : bytes;
  locktime : Z;
  sighash_variant : SighashVariant;
}.

(** [Preimage = [u8; 32]]: [<Preimage>::try_from(item).ok()]. *)
Definition preimage_try_from (item : bytes) : option bytes :=
  if Nat.eqb (length item) 32 then Some item else None.

Section htlc.
Context `{BitcoinLib}.

(** The pushes given to [script::Builder], in order. *)
Definition contract_pushes (hashlock redeem_pubkey refund_pubkey : bytes)
    (locktime : Z) : list BuilderPush :=
  let redeem_pkh := hash160 redeem_pubkey in
  let refund_pkh := hash160 refund_pubkey in
  [push_opcode OP_IF;
   push_opcode OP_SIZE; push_int 32; push_opcode OP_EQUALVERIFY;
   push_opcode OP_SHA256; push_slice hashlock; push_opcode OP_EQUALVERIFY;
   push_opcode OP_DUP; push_opcode OP_HASH160; push_slice redeem_pkh;
   push_opcode OP_ELSE;
   push_int locktime; push_opcode OP_CLTV; push_opcode OP_DROP;
   push_opcode OP_DUP; push_opcode OP_HASH160; push_slice refund_pkh;
   push_opcode OP_ENDIF;
   push_opcode OP_EQUALVERIFY; push_opcode OP_CHECKSIG].

Definition contract_script (hashlock redeem_pubkey refund_pubkey : bytes)
    (locktime : Z) : bytes :=
  into_script (contract_pushes hashlock redeem_pubkey refund_pubkey locktime).

Definition contract_pushes_v2 (hashlock redeem_pubkey refund_pubkey : bytes)
    (locktime : Z) : list BuilderPush :=
  let redeem_pkh := hash160 redeem_pubkey in
  let refund_pkh := hash160 refund_pubkey in
  [push_opcode OP_IF;
   push_opcode OP_SIZE; push_int 32; push_opcode OP_EQUALVERIFY;
   push_opcode OP_SHA256; push_slice hashlock; push_opcode OP_EQUALVERIFY;
   push_opcode OP_DUP; push_opcode OP_HASH160; push_slice redeem_pkh;
   push_opcode OP_EQUALVERIFY; push_opcode OP_CHECKSIG;
   push_opcode OP_ELSE;
   push_opcode OP_IF;
   push_int locktime; push_opcode OP_CLTV; push_opcode OP_DROP;
   push_opcode OP_DUP; push_opcode OP_HASH160; push_slice refund_pkh;
   push_opcode OP_EQUALVERIFY; push_opcode OP_CHECKSIG;
   push_opcode OP_ELSE;
   push_slice refund_pubkey; push_opcode OP_CHECKSIGVERIFY;
   push_slice redeem_pubkey; push_opcode OP_CHECKSIG;
   push_opcode OP_ENDIF;
   push_opcode OP_ENDIF].

Definition contract_script_v2 (hashlock redeem_pubkey refund_pubkey : bytes)
    (locktime : Z) : bytes :=
  into_script (contract_pushes_v2 hashlock redeem_pubkey refund_pubkey locktime).

Definition try_build (params : ChainParams) (version : Z)
    (hashlock redeem_pubkey refund_pubkey : bytes) (locktime value : Z) : Result HtlcContract :=
  ws ← (if version =? CONTRACT_V1 then
          Ok (contract_script hashlock redeem_pubkey refund_pubkey locktime)
        else if version =? CONTRACT_V2 then
          Ok (contract_script_v2 hashlock redeem_pubkey refund_pubkey locktime)
        else Err (InvalidSwapParams ("unknown contract version " +:+ pretty version)));
  mret {| c_version := version;
          witness_script := ws;
          c_script_pubkey := new_p2wsh ws;
          c_value := value;
          hashlock := hashlock;
          locktime := locktime;
          sighash_variant := sighash_variant_of params |}.

(** [build] is [try_build] followed by [expect]. *)
Definition build (params : ChainParams) (version : Z)
    (hashlock redeem_pubkey refund_pubkey : bytes) (locktime value : Z) : Result HtlcContract :=
  expect (to_option (try_build params version hashlock redeem_pubkey refund_pubkey locktime value)).

Definition has_release (c : HtlcContract) : bool := CONTRACT_V2 <=? c_version c.

Definition funding_output (c : HtlcContract) : TxOut :=
  {| value := c_value c; script_pubkey := c_script_pubkey c |}.

(** [as u32] of an index. *)
Definition index_u32 (i : nat) : Z := Z.of_nat i mod 2^32.

Definition find_output (c : HtlcContract) (tx : Transaction) (min_value : Z) : option (Z * Z) :=
  '(i, o) ← list_find (λ o, script_pubkey o = c_script_pubkey c ∧ min_value ≤ value o) (output tx);
  Some (index_u32 i, value o).

Definition find_exact_output (c : HtlcContract) (tx : Transaction) (v : Z) : option Z :=
  '(i, _) ← list_find (λ o, script_pubkey o = c_script_pubkey c ∧ value o = v) (output tx);
  Some (index_u32 i).

Definition spend_outputs (c : HtlcContract) (v : Z) (to : bytes) : Result (list TxOut) :=
  let out := [{| value := v; script_pubkey := to |}] in
  match sighash_variant c with
  | SegwitV0 => guard ← expect (to_option (op_return_output REPLAY_GUARD)); mret (out ++ [guard])
  | Unified => mret out
  end.

Definition spend_skeleton (c : HtlcContract) (prevout : OutPoint) (to : bytes) (fee : Z)
    (lt seq : Z) : Result Transaction :=
  v ← ok_or (checked_sub (c_value c) fee) (InsufficientFunds fee (c_value c));
  outs ← spend_outputs c v to;
  mret {| version := VERSION_TWO;
          lock_time := lt;
          input := [{| previous_output := prevout; script_sig := [];
                       sequence := seq; witness := [] |}];
          output := outs |}.

Definition redeem_tx (c : HtlcContract) (prevout : OutPoint) (to : bytes) (fee : Z) : Result Transaction :=
  spend_skeleton c prevout to fee LOCKTIME_ZERO ENABLE_RBF_NO_LOCKTIME.

Definition refund_tx (c : HtlcContract) (prevout : OutPoint) (to : bytes) (fee : Z) : Result Transaction :=
  spend_skeleton c prevout to fee (locktime c) ENABLE_RBF_NO_LOCKTIME.

Definition release_tx (c : HtlcContract) (prevout : OutPoint) (to : bytes) (fee : Z) : Result Transaction :=
  _ ← bail_if (negb (has_release c)) (InvalidSwapParams "this contract has no release branch");
  spend_skeleton c prevout to fee LOCKTIME_ZERO ENABLE_RBF_NO_LOCKTIME.

(** [tx.input[i].witness = w]: indexing out of range panics. *)
Definition set_witness (tx : Transaction) (i : nat) (w : list bytes) : Result Transaction :=
  inp ← expect (input tx !! i);
  mret {| version := version tx;
          lock_time := lock_time tx;
          input := <[i := {| previous_output := previous_output inp;
                             script_sig := script_sig inp;
                             sequence := sequence inp;
                             witness := w |}]> (input tx);
          output := output tx |}.

Definition refund_witness (version : Z) (sig pubkey ws : bytes) : list bytes :=
  [sig; pubkey] ++ (if CONTRACT_V2 <=? version then [[x01]] else []) ++ [[]; ws].

Definition release_witness (redeem_sig refund_sig ws : bytes) : list bytes :=
  [redeem_sig; refund_sig; []; []; ws].

Definition redeem_witness (sig redeem_pubkey preimage ws : bytes) : list bytes :=
  [sig; redeem_pubkey; preimage; [x01]; ws].

Definition finalize_release (c : HtlcContract) (tx : Transaction) (i : nat)
    (redeem_sig refund_sig : bytes) : Result Transaction :=
  _ ← bail_if (negb (has_release c)) (InvalidSwapParams "this contract has no release branch");
  set_witness tx i (release_witness redeem_sig refund_sig (witness_script c)).

Definition spend_sighash (c : HtlcContract) (tx : Transaction) (i : nat) : Result bytes :=
  let prevouts := [{| value := c_value c; script_pubkey := c_script_pubkey c |}] in
  sh ← sighash_all tx prevouts i (witness_script c) (sighash_variant c);
  mret (message sh).

Definition finalize_redeem (c : HtlcContract) (tx : Transaction) (i : nat)
    (sig redeem_pubkey preimage : bytes) : Result Transaction :=
  set_witness tx i (redeem_witness sig redeem_pubkey preimage (witness_script c)).

Definition finalize_refund (c : HtlcContract) (tx : Transaction) (i : nat)
    (sig refund_pubkey : bytes) : Result Transaction :=
  set_witness tx i (refund_witness (c_version c) sig refund_pubkey (witness_script c)).

(** [sha256::Hash::from_slice(b).ok()]: 32 bytes or nothing. *)
Definition hash_from_slice (b : bytes) : option bytes := preimage_try_from b.

Fixpoint find_hashlock (its : list (option Instruction)) : option bytes :=
  match its with
  | Some ins :: rest =>
      if decide (ins = IOp OP_SHA256) then
        match rest with
        | Some (IPushBytes b) :: _ => hash_from_slice b
        | _ => None
        end
      else find_hashlock rest
  | _ => None
  end.

Definition script_hashlock (ws : bytes) : option bytes := find_hashlock (instructions ws).

Definition htlc_spend_fee (c : HtlcContract) (path : HtlcPath) (feerate_sat_vb : Z) : Result Z :=
  let to := replicate 34 x00 in
  let sig := replicate 72 x00 in
  let pk := replicate 33 x00 in
  let path := if bool_decide (path = Release) && negb (has_release c) then Refund else path in
  tx ← expect (to_option (match path with
                          | Redeem => redeem_tx c outpoint_null to 0
                          | Refund => refund_tx c outpoint_null to 0
                          | Release => release_tx c outpoint_null to 0
                          end));
  tx ← set_witness tx 0 (match path with
                         | Redeem => [sig; pk; replicate 32 x00; [x01]; witness_script c]
                         | Refund => refund_witness (c_version c) sig pk (witness_script c)
                         | Release => release_witness sig sig (witness_script c)
                         end);
  mret (saturating_mul u64_max (vsize tx) feerate_sat_vb).

Definition preimage_from_witness (w : list bytes) (hashlock : bytes) : option bytes :=
  snd <$> list_find (λ p, sha256 p = hashlock) (omap preimage_try_from w).

End htlc.

(** ** Specification: who can spend a contract, and with what witness *)
Section spends.
Context `{SpendLaws}.

(** The hashlock branch: a 32-byte preimage and the redeem key's signature,
    under any true selector [c]. *)
Definition redeems (h rk ws : bytes) (w : list bytes) : Prop :=
  ∃ sig pk p c, w = [sig; pk; p; c; ws] ∧ cast_bool c = true ∧
    length p = 32%nat ∧ sha256 p = h ∧ hash160 pk = hash160 rk ∧ check_sig sig pk = true.

(** The timelock branch, under the selectors [sel] (from the bottom up). *)
Definition refunds (sel : list bytes → Prop) (fk : bytes) (lt : Z) (ws : bytes) (w : list bytes) : Prop :=
  ∃ sig pk cs, w = [sig; pk] ++ cs ++ [ws] ∧ sel cs ∧
    cltv_ok (int_push lt) = true ∧ hash160 pk = hash160 fk ∧ check_sig sig pk = true.

Definition sel_v1 (cs : list bytes) : Prop := ∃ c, cs = [c] ∧ cast_bool c = false.
Definition sel_v2 (cs : list bytes) : Prop :=
  ∃ d c, cs = [d; c] ∧ cast_bool d = true ∧ cast_bool c = false.

(** The cooperative release: both keys' signatures. *)
Definition releases (rk fk ws : bytes) (w : list bytes) : Prop :=
  ∃ rsig fsig d c, w = [rsig; fsig; d; c; ws] ∧ cast_bool d = false ∧ cast_bool c = false ∧
    check_sig fsig fk = true ∧ check_sig rsig rk = true.

(** ** Evaluation of the two scripts *)
Ltac vm_go :=
  repeat (cbn -[decide];
          match goal with
          | |- context [decide (_ = _)] => case_decide
          | |- context [if cltv_ok ?x then _ else _] => destruct (cltv_ok x)
          | |- context [if check_sig ?x ?y then _ else _] => destruct (check_sig x y)
          end); cbn -[decide].
Lemma size32 (p : bytes) : int_push 32 = int_push (Z.of_nat (length p)) ↔ length p = 32%nat.
Proof. split; [intros E%int_push_inj; lia|]. by intros ->. Qed.

Definition redeem_stack (h rk : bytes) (st : list bytes) : option (list bytes) :=
  match st with
  | p :: pk :: sig :: rest =>
     if decide (length p = 32%nat ∧ sha256 p = h ∧ hash160 pk = hash160 rk)
     then Some (bool_item (check_sig sig pk) :: rest) else None
  | _ => None
  end.
Definition refund_stack (fk : bytes) (lt : Z) (st : list bytes) : option (list bytes) :=
  match st with
  | pk :: sig :: rest =>
     if decide (cltv_ok (int_push lt) = true ∧ hash160 pk = hash160 fk)
     then Some (bool_item (check_sig sig pk) :: rest) else None
  | _ => None
  end.
Definition release_stack (rk fk : bytes) (st : list bytes) : option (list bytes) :=
  match st with
  | fsig :: rsig :: rest =>
     if check_sig fsig fk then Some (bool_item (check_sig rsig rk) :: rest) else None
  | _ => None
  end.

Lemma run_v1 h rk fk lt st :
  run (contract_pushes h rk fk lt) [] st =
  match st with
  | c :: st => if cast_bool c then redeem_stack h rk st else refund_stack fk lt st
  | [] => None
  end.
Proof.
  unfold contract_pushes. destruct st as [|c st]; [done|]. cbn -[decide].
  destruct (cast_bool c); cbn -[decide]; unfold redeem_stack, refund_stack.
  - destruct st as [|p [|pk [|sig st]]]; vm_go; rewrite ?size32 in *; repeat case_decide; naive_solver.
  - destruct st as [|pk [|sig st]]; vm_go; repeat case_decide; naive_solver.
Qed.
Lemma run_v2 h rk fk lt st :
  run (contract_pushes_v2 h rk fk lt) [] st =
  match st with
  | c :: st =>
     if cast_bool c then redeem_stack h rk st else
     match st with
     | d :: st => if cast_bool d then refund_stack fk lt st else release_stack rk fk st
     | [] => None
     end
  | [] => None
  end.
Proof.
  unfold contract_pushes_v2. destruct st as [|c st]; [done|]. cbn -[decide].
  destruct (cast_bool c); cbn -[decide]; unfold redeem_stack, refund_stack, release_stack.
  - destruct st as [|p [|pk [|sig st]]]; vm_go; rewrite ?size32 in *; repeat case_decide; naive_solver.
  - destruct st as [|d st]; [done|]. cbn -[decide]. destruct (cast_bool d); cbn -[decide];
     destruct st as [|x [|y st]]; vm_go; repeat case_decide; naive_solver.
Qed.

Lemma bool_item_cast b : cast_bool (bool_item b) = true → b = true.
Proof. destruct b; simpl; rewrite ?cast_bool_true, ?cast_bool_empty; done. Qed.

(** What a branch leaves on the stack when the spend is valid. *)
Lemma redeem_stack_valid h rk st x :
  redeem_stack h rk st = Some [x] → cast_bool x = true →
  ∃ p pk sig, st = [p; pk; sig] ∧ length p = 32%nat ∧ sha256 p = h ∧
    hash160 pk = hash160 rk ∧ check_sig sig pk = true.
Proof.
  destruct st as [|p [|pk [|sig st]]]; try done. unfold redeem_stack.
  case_decide; [|done]. intros [= <- ->] ?%bool_item_cast. exists p, pk, sig. tauto.
Qed.

Lemma refund_stack_valid fk lt st x :
  refund_stack fk lt st = Some [x] → cast_bool x = true →
  ∃ pk sig, st = [pk; sig] ∧ cltv_ok (int_push lt) = true ∧
    hash160 pk = hash160 fk ∧ check_sig sig pk = true.
Proof.
  destruct st as [|pk [|sig st]]; try done. unfold refund_stack.
  case_decide; [|done]. intros [= <- ->] ?%bool_item_cast. exists pk, sig. tauto.
Qed.

Lemma release_stack_valid rk fk st x :
  release_stack rk fk st = Some [x] → cast_bool x = true →
  ∃ fsig rsig, st = [fsig; rsig] ∧ check_sig fsig fk = true ∧ check_sig rsig rk = true.
Proof.
  destruct st as [|fsig [|rsig st]]; try done. unfold release_stack.
  destruct (check_sig fsig fk) eqn:?; [|done]. intros [= <- ->] ?%bool_item_cast. eauto.
Qed.


Lemma rev_cases (items l : list bytes) : rev items = l → items = rev l.
Proof. intros <-. by rewrite rev_involutive. Qed.

Context (exec : list BuilderPush → list bool → list bytes → option (list bytes)).
Context `{!ScriptVM exec}.

Lemma redeems_run h rk sig pk p c pushes :
  (∀ st, cast_bool c = true → run pushes [] (c :: st) = redeem_stack h rk st) →
  cast_bool c = true → length p = 32%nat → sha256 p = h → hash160 pk = hash160 rk →
  check_sig sig pk = true →
  p2wsh_valid exec pushes [sig; pk; p; c; into_script pushes].
Proof.
  intros Hrun Hc Hp Hh Hk Hs. exists [sig; pk; p; c], (bool_item true).
  rewrite (exec_run exec). simpl. rewrite Hrun by done. simpl.
  rewrite decide_True by done. rewrite Hs. simpl. by rewrite cast_bool_true.
Qed.

Lemma refunds_run fk lt sig pk cs pushes :
  (∀ st, run pushes [] (rev cs ++ st) = refund_stack fk lt st) →
  cltv_ok (int_push lt) = true → hash160 pk = hash160 fk → check_sig sig pk = true →
  p2wsh_valid exec pushes ([sig; pk] ++ cs ++ [into_script pushes]).
Proof.
  intros Hrun Hl Hk Hs. exists ([sig; pk] ++ cs), (bool_item true).
  rewrite (exec_run exec), rev_app_distr, Hrun. simpl.
  rewrite decide_True by done. rewrite Hs. simpl. by rewrite cast_bool_true.
Qed.

Lemma v1_spend_cases h rk fk lt w :
  p2wsh_valid exec (contract_pushes h rk fk lt) w ↔
  redeems h rk (contract_script h rk fk lt) w ∨
  refunds sel_v1 fk lt (contract_script h rk fk lt) w.
Proof.
  split.
  - intros (items & x & -> & Hx & Hb). rewrite (exec_run exec), run_v1 in Hx.
    destruct (rev items) as [|c st] eqn:E; [done|]. apply rev_cases in E as ->.
    destruct (cast_bool c) eqn:Hc.
    + apply redeem_stack_valid in Hx as (p & pk & sig & -> & ?); [|done]. left.
      exists sig, pk, p, c. tauto.
    + apply refund_stack_valid in Hx as (pk & sig & -> & ?); [|done]. right.
      exists sig, pk, [c]. split_and!; try done; try tauto. by exists c.
  - intros [(sig & pk & p & c & -> & Hc & ?)|(sig & pk & cs & -> & (c & -> & Hc) & ?)].
    + apply (redeems_run h rk); [|tauto..]. intros st _. by rewrite run_v1, Hc.
    + apply (refunds_run fk lt _ _ [c]); [|tauto..]. intros st. cbn [rev app]. by rewrite run_v1, Hc.
Qed.

(** The version-1 contract can be spent in exactly two ways: by the redeem
    key with a 32-byte preimage of the hashlock, or, once the lock time has
    passed, by the refund key.  No other witness is valid. *)
Theorem contract_v1_spends h rk fk lt w :
  p2wsh_valid exec (contract_pushes h rk fk lt) w ↔
  redeems h rk (contract_script h rk fk lt) w ∨
  refunds sel_v1 fk lt (contract_script h rk fk lt) w.
Proof. apply v1_spend_cases. Qed.

Lemma v2_spend_cases h rk fk lt w :
  p2wsh_valid exec (contract_pushes_v2 h rk fk lt) w ↔
  redeems h rk (contract_script_v2 h rk fk lt) w ∨
  refunds sel_v2 fk lt (contract_script_v2 h rk fk lt) w ∨
  releases rk fk (contract_script_v2 h rk fk lt) w.
Proof.
  split.
  - intros (items & x & -> & Hx & Hb). rewrite (exec_run exec), run_v2 in Hx.
    destruct (rev items) as [|c st] eqn:E; [done|]. apply rev_cases in E as ->.
    destruct (cast_bool c) eqn:Hc.
    { apply redeem_stack_valid in Hx as (p & pk & sig & -> & ?); [|done]. left.
      exists sig, pk, p, c. tauto. }
    destruct st as [|d st]; [done|]. destruct (cast_bool d) eqn:Hd; right.
    + apply refund_stack_valid in Hx as (pk & sig & -> & ?); [|done]. left.
      exists sig, pk, [d; c]. split_and!; try done; try tauto. by exists d, c.
    + apply release_stack_valid in Hx as (fsig & rsig & -> & ?); [|done]. right.
      exists rsig, fsig, d, c. tauto.
  - intros [(sig & pk & p & c & -> & Hc & ?)|
            [(sig & pk & cs & -> & (d & c & -> & Hd & Hc) & ?)|
             (rsig & fsig & d & c & -> & Hd & Hc & Hf & Hr)]].
    + apply (redeems_run h rk); [|tauto..]. intros st _. by rewrite run_v2, Hc.
    + apply (refunds_run fk lt _ _ [d; c]); [|tauto..]. intros st. cbn [rev app]. by rewrite run_v2, Hc, Hd.
    + exists [rsig; fsig; d; c], (bool_item true). rewrite (exec_run exec).
      cbn [rev app]. rewrite run_v2, Hc, Hd. simpl. rewrite Hf, Hr. simpl. by rewrite cast_bool_true.
Qed.

(** C3. The version-2 contract can be spent in exactly three ways: by the
    redeem key with a 32-byte preimage, by the refund key once the lock time
    has passed, or by both keys together at any time. *)
Theorem contract_v2_spends h rk fk lt w :
  p2wsh_valid exec (contract_pushes_v2 h rk fk lt) w ↔
  redeems h rk (contract_script_v2 h rk fk lt) w ∨
  refunds sel_v2 fk lt (contract_script_v2 h rk fk lt) w ∨
  releases rk fk (contract_script_v2 h rk fk lt) w.
Proof. apply v2_spend_cases. Qed.

End spends.

(** ** Built contracts *)
Definition pushes_of `{BitcoinLib} (version : Z) (h rk fk : bytes) (lt : Z) : list BuilderPush :=
  if version =? CONTRACT_V1 then contract_pushes h rk fk lt else contract_pushes_v2 h rk fk lt.

Section built.
Context `{BitcoinLib}.

Lemma try_build_Ok params v h rk fk lt amt c :
  try_build params v h rk fk lt amt = Ok c →
  (v = CONTRACT_V1 ∨ v = CONTRACT_V2) ∧
  c = {| c_version := v;
         witness_script := into_script (pushes_of v h rk fk lt);
         c_script_pubkey := new_p2wsh (into_script (pushes_of v h rk fk lt));
         c_value := amt; hashlock := h; locktime := lt;
         sighash_variant := sighash_variant_of params |}.
Proof.
  unfold try_build, pushes_of. destruct (v =? CONTRACT_V1) eqn:E1; zbool.
  { intros. simp. by auto. }
  destruct (v =? CONTRACT_V2) eqn:E2; zbool; intros; simp. auto.
Qed.

Lemma spend_outputs_Ok c v to outs :
  spend_outputs c v to = Ok outs →
  ∃ extra, outs = {| value := v; script_pubkey := to |} :: extra ∧
    match sighash_variant c with
    | SegwitV0 => ∃ push, push_bytes_try_from REPLAY_GUARD = Some push ∧
                    extra = [{| value := 0; script_pubkey := new_op_return push |}]
    | Unified => extra = []
    end.
Proof.
  unfold spend_outputs, op_return_output. intros E.
  destruct (sighash_variant c); [|simp; eauto].
  destruct (push_bytes_try_from REPLAY_GUARD) as [push|]; simpl in E; simp. eauto 10.
Qed.

Lemma spend_skeleton_Ok c op to fee lt seq tx :
  spend_skeleton c op to fee lt seq = Ok tx →
  fee ≤ c_value c ∧ lock_time tx = lt ∧
  input tx = [{| previous_output := op; script_sig := []; sequence := seq; witness := [] |}] ∧
  spend_outputs c (c_value c - fee) to = Ok (output tx).
Proof. unfold spend_skeleton. intros. simp. subst. auto. Qed.

Lemma find_hashlock_pushes `{!ScriptCodec} v h rk fk lt :
  length h = 32%nat →
  find_hashlock (instructions (into_script (pushes_of v h rk fk lt))) = Some h.
Proof.
  intros Hh. unfold pushes_of, contract_pushes, contract_pushes_v2.
  destruct (v =? CONTRACT_V1); do 6 (rewrite instructions_into_script by (simpl; lia)); simpl;
    unfold hash_from_slice, preimage_try_from; by rewrite Hh.
Qed.

(** The three ways a wallet spends a contract. *)
Definition path_tx (path : HtlcPath) (c : HtlcContract) (op : OutPoint) (to : bytes) (fee : Z) :
    Result Transaction :=
  match path with
  | Redeem => redeem_tx c op to fee
  | Refund => refund_tx c op to fee
  | Release => release_tx c op to fee
  end.

Lemma path_tx_skeleton path c op to fee tx :
  path_tx path c op to fee = Ok tx →
  spend_skeleton c op to fee (if decide (path = Refund) then locktime c else 0)
    ENABLE_RBF_NO_LOCKTIME = Ok tx.
Proof. destruct path; simpl; unfold release_tx; intros; simp; done. Qed.

Lemma bytes_REPLAY_GUARD : length REPLAY_GUARD = 100%nat.
Proof. reflexivity. Qed.

(** A spend built by the wallet moves the contract's value and nothing
    else: one input, the contract's outpoint; the payout gets the value less
    the fee; the only other output is, exactly on a chain with plain segwit
    signatures, the replay guard, which carries no value.  A refund carries
    the contract's lock time, the other paths none. *)
Theorem contract_spend_conserves path c op to fee tx :
  path_tx path c op to fee = Ok tx →
  map previous_output (input tx) = [op] ∧
  sumZ value (output tx) + fee = c_value c ∧
  (∃ extra, output tx = {| value := c_value c - fee; script_pubkey := to |} :: extra ∧
     (sighash_variant c = SegwitV0 ↔ extra ≠ []) ∧
     (sighash_variant c = SegwitV0 → ∃ push, push_bytes_try_from REPLAY_GUARD = Some push ∧
        map script_pubkey extra = [new_op_return push])) ∧
  lock_time tx = (if decide (path = Refund) then locktime c else 0).
Proof.
  intros (Hfee & Hlt & Hin & Hout)%path_tx_skeleton%spend_skeleton_Ok.
  apply spend_outputs_Ok in Hout as (extra & Ho & Hx). rewrite Hin, Ho.
  destruct (sighash_variant c).
  - destruct Hx as (push & Hp & ->).
    split_and!; [done|rewrite !sumZ_cons, sumZ_nil; simpl; lia| |done]. eexists. split_and!; [done|done|eauto].
  - subst extra. split_and!; [done|rewrite !sumZ_cons, sumZ_nil; simpl; lia| |done]. exists []. done.
Qed.

(** A spend is refused exactly when its fee is above the contract's
    value (and, for a release, when the contract has no release branch):
    given that the library accepts a 100-byte push, no call panics. *)
Theorem contract_spend_defined path c op to fee push :
  push_bytes_try_from REPLAY_GUARD = Some push →
  (path = Release → has_release c = true) →
  (fee ≤ c_value c → ∃ tx, path_tx path c op to fee = Ok tx) ∧
  (c_value c < fee → path_tx path c op to fee = Err (InsufficientFunds fee (c_value c))).
Proof.
  intros Hp Hr.
  assert (∀ lt seq, (fee ≤ c_value c → ∃ tx, spend_skeleton c op to fee lt seq = Ok tx) ∧
    (c_value c < fee → spend_skeleton c op to fee lt seq = Err (InsufficientFunds fee (c_value c)))) as Hs.
  { intros lt seq. unfold spend_skeleton, spend_outputs, op_return_output, checked_sub. rewrite Hp.
    destruct (fee <=? c_value c) eqn:E; zbool; split; intros; try lia; [|done].
    destruct (sighash_variant c); simpl; eauto. }
  destruct path; simpl; unfold release_tx; try apply Hs. rewrite Hr by done. apply Hs.
Qed.

Lemma built_hashlock `{!ScriptCodec} params v h rk fk lt amt c :
  length h = 32%nat →
  try_build params v h rk fk lt amt = Ok c →
  script_hashlock (witness_script c) = Some h.
Proof.
  intros Hh (_ & ->)%try_build_Ok. unfold script_hashlock. simpl.
  by apply find_hashlock_pushes.
Qed.

(** The hashlock can be read back from the witness script of a built
    contract, so a presigned redeem can check a preimage against it. *)
Theorem script_hashlock_build `{!ScriptCodec} params v h rk fk lt amt c :
  length h = 32%nat →
  try_build params v h rk fk lt amt = Ok c →
  script_hashlock (witness_script c) = Some h.
Proof. apply built_hashlock. Qed.

End built.

Section built_spends.
Context `{SpendLaws}.
Context (exec : list BuilderPush → list bool → list bytes → option (list bytes)).
Context `{!ScriptVM exec}.

Lemma redeems_reveals h rk ws w :
  redeems h rk ws w →
  ∃ p, preimage_from_witness w h = Some p ∧ sha256 p = h ∧ length p = 32%nat.
Proof.
  intros (sig & pk & p & c & -> & _ & Hp & Hh & _).
  unfold preimage_from_witness.
  assert (p ∈ omap preimage_try_from [sig; pk; p; c; ws]) as Hin.
  { apply list_elem_of_omap. exists p. split; [set_solver|].
    unfold preimage_try_from. by rewrite Hp. }
  destruct (list_find_elem_of (λ p, sha256 p = h) _ p Hin Hh) as [[i q] Hq].
  rewrite Hq. exists q. apply list_find_Some in Hq as (Hi & Hq & _).
  split_and!; [done..|].
  apply list_elem_of_lookup_2, list_elem_of_omap in Hi as (b & _ & Hb).
  unfold preimage_try_from in Hb. case_match; simplify_eq. by apply Nat.eqb_eq.
Qed.

Lemma built_spend_reveals params v h rk fk lt amt c w :
  try_build params v h rk fk lt amt = Ok c →
  p2wsh_valid exec (pushes_of v h rk fk lt) w →
  (∃ p, preimage_from_witness w (hashlock c) = Some p ∧
        sha256 p = hashlock c ∧ length p = 32%nat) ∨
  (cltv_ok (int_push (locktime c)) = true ∧
     ∃ sig pk, sig ∈ w ∧ pk ∈ w ∧ hash160 pk = hash160 fk ∧ check_sig sig pk = true) ∨
  (has_release c = true ∧
     ∃ fsig rsig, fsig ∈ w ∧ rsig ∈ w ∧ check_sig fsig fk = true ∧ check_sig rsig rk = true).
Proof.
  intros ([-> | ->] & ->)%try_build_Ok; simpl.
  - intros [Hr|(sig & pk & cs & -> & ?)]%(v1_spend_cases exec).
    + left. by eapply redeems_reveals.
    + right; left. split; [tauto|]. exists sig, pk. set_solver.
  - intros [Hr|[(sig & pk & cs & -> & ?)|(rsig & fsig & d & c & -> & ?)]]%(v2_spend_cases exec).
    + left. by eapply redeems_reveals.
    + right; left. split; [tauto|]. exists sig, pk. set_solver.
    + right; right. split; [done|]. exists fsig, rsig. set_solver.
Qed.

(** C4. Whoever takes the coins of a built contract through the hashlock
    reveals the secret: every valid spend either shows [preimage_from_witness]
    a 32-byte preimage of the hashlock, whatever its layout, or is a refund
    after the lock time signed by the refund key, or (version 2 only) carries
    both parties' signatures. *)
Theorem contract_spend_reveals params v h rk fk lt amt c w :
  try_build params v h rk fk lt amt = Ok c →
  p2wsh_valid exec (pushes_of v h rk fk lt) w →
  (∃ p, preimage_from_witness w (hashlock c) = Some p ∧
        sha256 p = hashlock c ∧ length p = 32%nat) ∨
  (cltv_ok (int_push (locktime c)) = true ∧
     ∃ sig pk, sig ∈ w ∧ pk ∈ w ∧ hash160 pk = hash160 fk ∧ check_sig sig pk = true) ∨
  (has_release c = true ∧
     ∃ fsig rsig, fsig ∈ w ∧ rsig ∈ w ∧ check_sig fsig fk = true ∧ check_sig rsig rk = true).
Proof. apply built_spend_reveals. Qed.

Lemma built_witnesses_open params v h rk fk lt amt c sig rsig fsig p :
  try_build params v h rk fk lt amt = Ok c →
  (check_sig sig rk = true → length p = 32%nat → sha256 p = hashlock c →
   p2wsh_valid exec (pushes_of v h rk fk lt) (redeem_witness sig rk p (witness_script c))) ∧
  (check_sig sig fk = true → cltv_ok (int_push (locktime c)) = true →
   p2wsh_valid exec (pushes_of v h rk fk lt)
     (refund_witness (c_version c) sig fk (witness_script c))) ∧
  (has_release c = true → check_sig fsig fk = true → check_sig rsig rk = true →
   p2wsh_valid exec (pushes_of v h rk fk lt) (release_witness rsig fsig (witness_script c))).
Proof.
  intros ([-> | ->] & ->)%try_build_Ok; simpl; (split_and!; intros; [| |try done]);
    first [apply (v1_spend_cases exec) | apply (v2_spend_cases exec)].
  - left. exists sig, rk, p, [x01]. by rewrite cast_bool_true.
  - right. exists sig, fk, [[]]. split_and!; try done. exists []. by rewrite cast_bool_empty.
  - left. exists sig, rk, p, [x01]. by rewrite cast_bool_true.
  - right; left. exists sig, fk, [[x01]; []]. split_and!; try done. exists [x01], [].
    by rewrite cast_bool_empty, cast_bool_true.
  - right; right. exists rsig, fsig, [], []. by rewrite cast_bool_empty.
Qed.

(** The wallet's own witnesses open the contract it built: the redeem
    witness with the preimage, the refund witness once the lock time has
    passed, and on version 2 the release witness with both signatures. *)
Theorem wallet_witnesses_open params v h rk fk lt amt c sig rsig fsig p :
  try_build params v h rk fk lt amt = Ok c →
  (check_sig sig rk = true → length p = 32%nat → sha256 p = hashlock c →
   p2wsh_valid exec (pushes_of v h rk fk lt) (redeem_witness sig rk p (witness_script c))) ∧
  (check_sig sig fk = true → cltv_ok (int_push (locktime c)) = true →
   p2wsh_valid exec (pushes_of v h rk fk lt)
     (refund_witness (c_version c) sig fk (witness_script c))) ∧
  (has_release c = true → check_sig fsig fk = true → check_sig rsig rk = true →
   p2wsh_valid exec (pushes_of v h rk fk lt) (release_witness rsig fsig (witness_script c))).
Proof. apply built_witnesses_open. Qed.

End built_spends.

(** ** Witnesses *)
Definition example_secret : bytes := replicate 32 x2a.
Definition example_rk : bytes := x02 :: replicate 32 x11.
Definition example_fk : bytes := x03 :: replicate 32 x22.

Definition example_contract : HtlcContract := {|
  c_version := 2;
  witness_script := into_script (pushes_of 2 (sha256 example_secret) example_rk example_fk 1_800_086_400);
  c_script_pubkey := new_p2wsh (into_script
    (pushes_of 2 (sha256 example_secret) example_rk example_fk 1_800_086_400));
  c_value := 200_000;
  hashlock := sha256 example_secret;
  locktime := 1_800_086_400;
  sighash_variant := SegwitV0;
|}.

Definition example_outpoint : OutPoint := {| txid := replicate 32 x07; vout := 1 |}.

Lemma contract_v1_spends_witness :
  p2wsh_valid run (contract_pushes (sha256 example_secret) example_rk example_fk 7)
    [[x99]; example_rk; example_secret; [x02];
     contract_script (sha256 example_secret) example_rk example_fk 7].
Proof.
  refine (proj2 (contract_v1_spends run (sha256 example_secret) example_rk example_fk 7 _) _).
  left. by exists [x99], example_rk, example_secret, [x02].
Defined.

Lemma contract_v2_spends_witness :
  p2wsh_valid run (contract_pushes_v2 (sha256 example_secret) example_rk example_fk 7)
    [[x99]; [x98]; []; []; contract_script_v2 (sha256 example_secret) example_rk example_fk 7].
Proof.
  refine (proj2 (contract_v2_spends run (sha256 example_secret) example_rk example_fk 7 _) _).
  right; right. by exists [x99], [x98], [], [].
Defined.

Lemma contract_spend_conserves_witness :
  ∃ tx, path_tx Refund example_contract example_outpoint [x51] 1_000 = Ok tx ∧
        sumZ value (output tx) + 1_000 = 200_000.
Proof.
  destruct (path_tx Refund example_contract example_outpoint [x51] 1_000) as [tx| |] eqn:E;
    [|vm_compute in E; discriminate E..].
  exists tx. split; [reflexivity|].
  exact (proj1 (proj2 (contract_spend_conserves Refund example_contract example_outpoint
                         [x51] 1_000 tx E))).
Defined.

Lemma contract_spend_defined_witness :
  path_tx Redeem example_contract example_outpoint [x51] 200_001
  = Err (InsufficientFunds 200_001 200_000).
Proof.
  refine (proj2 (contract_spend_defined Redeem example_contract example_outpoint [x51] 200_001
                   REPLAY_GUARD _ _) _); [reflexivity|discriminate|vm_compute; reflexivity].
Defined.

Lemma script_hashlock_build_witness :
  script_hashlock (witness_script example_contract) = Some (sha256 example_secret).
Proof.
  refine (script_hashlock_build bitcoin 2 (sha256 example_secret) example_rk example_fk
            1_800_086_400 200_000 example_contract _ _); reflexivity.
Defined.

Lemma contract_spend_reveals_witness :
  ∃ p, preimage_from_witness [[x99]; example_rk; example_secret; [x02]; witness_script example_contract]
         (hashlock example_contract) = Some p ∧ sha256 p = hashlock example_contract.
Proof.
  destruct (contract_spend_reveals run bitcoin 2 (sha256 example_secret) example_rk example_fk
    1_800_086_400 200_000 example_contract
    [[x99]; example_rk; example_secret; [x02]; witness_script example_contract])
    as [(p & Hp & Hh & _)|_].
  - reflexivity.
  - exists [[x99]; example_rk; example_secret; [x02]], [x01]. by vm_compute.
  - by exists p.
  - exists example_secret. by vm_compute.
Defined.

Lemma wallet_witnesses_open_witness :
  p2wsh_valid run (pushes_of 2 (sha256 example_secret) example_rk example_fk 1_800_086_400)
    (refund_witness 2 [x99] example_fk (witness_script example_contract)).
Proof.
  refine (proj1 (proj2 (wallet_witnesses_open run bitcoin 2 (sha256 example_secret) example_rk
    example_fk 1_800_086_400 200_000 example_contract [x99] [x99] [x99] example_secret _)) _ _);
    reflexivity.
Defined.
