(* ===== verification/Wallet.v ===== *)
(** Coin selection ([wallet-core/src/wallet.rs]): planning unsigned
    transactions from the coins the shell reports. *)

From S2P Require Import Prelude Chain Bitcoin Script Toy SwapTerms Sighash Htlc.

Definition MAX_SERVICE_FEE_BPS : Z := 100.
Definition MAX_SERVICE_FEE_FLOOR_SAT : Z := 2_000.
Definition MAX_BPS : Z := 1_000.
Definition TX_OVERHEAD_VB : Z := 11.
Definition P2WPKH_INPUT_VB : Z := 68.
Definition CHANGE_DUST_SAT : Z := 294.
Definition MAX_FEERATE_SAT_VB : Z := 10_000.

Record ServiceFee : Type := { bps : Z; floor_sat : Z; cap_sat : Z; fee_spk : bytes }.

Record Utxo : Type := {
  outpoint : OutPoint;
  u_value : Z;
  u_script_pubkey : bytes;
  confirmations : Z;
  derivation_index : Z;
  is_change : bool;
}.

Record FundingPlan : Type := {
  tx : Transaction;
  selected : list Utxo;
  fee : Z;
  change : option Z;
  service_fee : option Z;
  psbt_base64 : option string;
  change_derivation_index : option Z;
}.

Definition amount_sat (sf : ServiceFee) (send_amount_sat : Z) : Z :=
  let b := Z.min (bps sf) MAX_BPS in
  let pct := default u64_max (try_from u64_max (saturating_mul u128_max send_amount_sat b / 10_000)) in
  let fee := Z.max pct (floor_sat sf) in
  if 0 <? cap_sat sf then Z.min fee (cap_sat sf) else fee.

Definition sf_output `{BitcoinLib} (sf : ServiceFee) (send_amount_sat : Z) : option TxOut :=
  let sat := amount_sat sf send_amount_sat in
  if sat =? 0 then None
  else Some {| value := Z.max sat (minimal_non_dust (fee_spk sf)); script_pubkey := fee_spk sf |}.

(** [f64::from(bps) / 100.0], as [Display] writes it. *)
Definition percent (b : Z) : string :=
  pretty (b / 100) +:+
  (if b mod 100 =? 0 then ""
   else if b mod 10 =? 0 then "." +:+ pretty ((b mod 100) / 10)
   else "." +:+ pretty ((b mod 100) / 10) +:+ pretty (b mod 10)).

Definition check_service_fee (sf : option ServiceFee) : Result unit :=
  match sf with
  | Some sf =>
      bail_if ((MAX_SERVICE_FEE_BPS <? bps sf) || (MAX_SERVICE_FEE_FLOOR_SAT <? floor_sat sf))
        (InvalidInput ("the server asks for a service fee of " +:+ percent (bps sf) +:+ "% with a "
           +:+ pretty (floor_sat sf) +:+ " sat minimum: more than this app allows ("
           +:+ percent MAX_SERVICE_FEE_BPS +:+ "%, " +:+ pretty MAX_SERVICE_FEE_FLOOR_SAT +:+ " sat)"))
  | None => Ok tt
  end.

(** [checked_sum]: a left fold that stops at the first overflow. *)
Fixpoint checked_sum_from (acc : Z) (amounts : list Z) : Result Z :=
  match amounts with
  | [] => Ok acc
  | a :: amounts =>
      acc ← ok_or (checked_add u64_max acc a) (InvalidInput "amount total overflows");
      checked_sum_from acc amounts
  end.
Definition checked_sum (amounts : list Z) : Result Z := checked_sum_from 0 amounts.

Definition check_feerate (feerate_sat_vb : Z) : Result unit :=
  bail_if ((feerate_sat_vb =? 0) || (MAX_FEERATE_SAT_VB <? feerate_sat_vb))
    (InvalidInput ("feerate " +:+ pretty feerate_sat_vb +:+ " sat/vB is out of range (1..="
       +:+ pretty MAX_FEERATE_SAT_VB +:+ ")")).

Fixpoint check_not_dust `{BitcoinLib} (outputs : list TxOut) : Result unit :=
  match outputs with
  | [] => Ok tt
  | o :: outputs =>
      if is_op_return (script_pubkey o) then check_not_dust outputs
      else
        _ ← bail_if (value o <? minimal_non_dust (script_pubkey o))
              (InvalidInput ("output of " +:+ amount_display (value o)
                 +:+ " is below the dust limit for its address"));
        check_not_dust outputs
  end.

Definition varint_len (n : Z) : Z :=
  if n <=? 0xFC then 1 else if n <=? 0xFFFF then 3 else if n <=? 0xFFFF_FFFF then 5 else 9.

Definition output_vb (spk : bytes) : Z :=
  let n := Z.of_nat (length spk) in 8 + varint_len n + n.

(** Key derivation ([bip32], [Address::p2wpkh]) is the library's: a child
    number from an index, the public key at a path, the address of a key. *)
Class DeriveLib : Type := {
  Xpub : Type;
  from_normal_idx : Z → string + Z;
  derive_pub : Xpub → list Z → string + bytes;
  p2wpkh : bytes → Network → string;
  address_spk : string → bytes;
}.

(** BIP-32: a non-hardened index is below 2^31. *)
Class DeriveLaws `{DeriveLib} : Prop :=
  from_normal_idx_range i c : from_normal_idx i = inr c → 0 ≤ i < 2^31.

Section wallet.
Context `{BitcoinLib, DeriveLib}.

Record WalletView : Type := {
  params : ChainParams;
  xpub : Xpub;
  next_receive : Z;
  next_change : Z;
}.

Definition new (p : ChainParams) (x : Xpub) : WalletView :=
  {| params := p; xpub := x; next_receive := 0; next_change := 0 |}.

Definition set_next_indices (v : WalletView) (r c : Z) : WalletView :=
  {| params := params v; xpub := xpub v; next_receive := r; next_change := c |}.

Definition next_indices (v : WalletView) : Z * Z := (next_receive v, next_change v).

(** [Amount::MAX_MONEY] *)
Definition MAX_MONEY : Z := 2_100_000_000_000_000.

Definition balance (utxos : list Utxo) : Z :=
  foldl (λ a u, default MAX_MONEY (checked_add u64_max a (u_value u))) 0 utxos.

Definition child (i : Z) : Result Z :=
  match from_normal_idx i with inr c => Ok c | inl e => Err (Derivation e) end.

Definition address_at (v : WalletView) (branch index : Z) : Result string :=
  b ← child branch;
  i ← child index;
  match derive_pub (xpub v) [b; i] with
  | inr pk => mret (p2wpkh pk (network (params v)))
  | inl e => Err (Derivation e)
  end.

(** [+= 1] on the [u32] counters wraps in a release build. *)
Definition next_receive_address (v : WalletView) : Result (string * WalletView) :=
  addr ← address_at v 0 (next_receive v);
  mret (addr, set_next_indices v (wrapping_add u32_max (next_receive v) 1) (next_change v)).

Definition bump_change (v : WalletView) : WalletView :=
  set_next_indices v (next_receive v) (wrapping_add u32_max (next_change v) 1).

Definition next_change_address (v : WalletView) : Result (string * WalletView) :=
  addr ← address_at v 1 (next_change v);
  mret (addr, bump_change v).

Definition assemble (sel : list Utxo) (outs : list TxOut) (f : Z) (chg sf : option Z) : FundingPlan := {|
  tx := {| version := VERSION_TWO;
           lock_time := LOCKTIME_ZERO;
           input := map (λ u, {| previous_output := outpoint u; script_sig := [];
                                 sequence := ENABLE_RBF_NO_LOCKTIME; witness := [] |}) sel;
           output := outs |};
  selected := sel;
  fee := f;
  change := chg;
  service_fee := sf;
  psbt_base64 := None;
  change_derivation_index := None;
|}.

Definition with_change_index (p : FundingPlan) (i : Z) : FundingPlan := {|
  tx := tx p; selected := selected p; fee := fee p; change := change p;
  service_fee := service_fee p; psbt_base64 := psbt_base64 p;
  change_derivation_index := Some i;
|}.

Definition eligible_of (utxos : list Utxo) (min_confirmations : Z) : list Utxo :=
  filter (λ u, min_confirmations ≤ confirmations u) utxos.

(** [sort_by_key(|u| Reverse(u.value))]: largest first. *)
Definition largest_first (utxos : list Utxo) : list Utxo :=
  sort_by (λ a b, u_value b <=? u_value a) utxos.

Definition sum_vb (outs : list TxOut) : Z :=
  foldl (λ a o, saturating_add u64_max a (output_vb (script_pubkey o))) 0 outs.

Definition base_vb (n : nat) (outputs_vb : Z) : Z :=
  saturating_add u64_max
    (saturating_add u64_max TX_OVERHEAD_VB (saturating_mul u64_max (Z.of_nat n) P2WPKH_INPUT_VB))
    outputs_vb.

(** The loop of [plan_payment] over the eligible coins, largest first;
    [sel] and [acc] are the loop's variables. *)
Fixpoint pay_loop (v : WalletView) (outputs : list TxOut) (target outputs_vb feerate : Z)
    (change_spk : bytes) (sf : option Z) (sel : list Utxo) (acc : Z) (eligible : list Utxo) :
    Result (FundingPlan * WalletView) :=
  match eligible with
  | [] =>
      let base := base_vb (Nat.max (length sel) 1) outputs_vb in
      let est_fee := saturating_mul u64_max base feerate in
      let need := default MAX_MONEY (to_option (checked_sum [target; est_fee])) in
      Err (InsufficientFunds need acc)
  | u :: eligible =>
      let sel := sel ++ [u] in
      acc ← ok_or (checked_add u64_max acc (u_value u)) (InvalidInput "selected input value overflows");
      let base := base_vb (length sel) outputs_vb in
      let fee_no_change := saturating_mul u64_max base feerate in
      let fee_with_change :=
        saturating_mul u64_max (saturating_add u64_max base (output_vb change_spk)) feerate in
      need_with_change ← checked_sum [target; fee_with_change];
      if (need_with_change <=? acc) && (CHANGE_DUST_SAT <=? acc - need_with_change) then
        let chg := acc - need_with_change in
        let plan := assemble sel (outputs ++ [{| value := chg; script_pubkey := change_spk |}])
                      fee_with_change (Some chg) sf in
        mret (with_change_index plan (next_change v), bump_change v)
      else
        need ← checked_sum [target; fee_no_change];
        if need <=? acc then mret (assemble sel outputs (acc - target) None sf, v)
        else pay_loop v outputs target outputs_vb feerate change_spk sf sel acc eligible
  end.

(** [outputs[i].value = x] *)
Definition set_value (outs : list TxOut) (i : nat) (x : Z) : list TxOut :=
  alter (λ o, {| value := x; script_pubkey := script_pubkey o |}) i outs.

(** Indices of the outputs that are not [OP_RETURN]. *)
Fixpoint spendable_from (k : nat) (outs : list TxOut) : list nat :=
  match outs with
  | [] => []
  | o :: outs =>
      if is_op_return (script_pubkey o) then spendable_from (S k) outs
      else k :: spendable_from (S k) outs
  end.
Definition spendable_indices (outs : list TxOut) : list nat := spendable_from 0 outs.

(** The recipient's amount after both fees, or the error; [too_small] adds the
    fees as [Amount]s, which panics if they overflow. *)
Definition recipient_amount (budget sf_value net_fee dest_dust : Z) : Result Z :=
  match v ← checked_sub budget sf_value; r ← checked_sub v net_fee;
        (if dest_dust <=? r then Some r else None) with
  | Some r => Ok r
  | None =>
      fees ← amount_add sf_value net_fee;
      Err (InvalidInput ("amount too small: " +:+ pretty fees
             +:+ " sat of fees leaves the recipient below the dust limit"))
  end.

(** The loop of [plan_payment_fee_inclusive]. *)
Fixpoint inclusive_loop (v : WalletView) (outputs : list TxOut) (dest_idx : nat)
    (budget dest_dust : Z) (sf_out : option TxOut) (non_change_vb feerate : Z)
    (change_spk : bytes) (sel : list Utxo) (acc : Z) (eligible : list Utxo) :
    Result (FundingPlan * WalletView) :=
  match eligible with
  | [] => Err (InsufficientFunds budget acc)
  | u :: eligible =>
      let sel := sel ++ [u] in
      acc ← ok_or (checked_add u64_max acc (u_value u)) (InvalidInput "selected input value overflows");
      if acc <? budget then
        inclusive_loop v outputs dest_idx budget dest_dust sf_out non_change_vb feerate
          change_spk sel acc eligible
      else
        let base := base_vb (length sel) non_change_vb in
        let surplus := acc - budget in
        let sf_value := from_option value 0 sf_out in
        if CHANGE_DUST_SAT <=? surplus then
          let net_fee :=
            saturating_mul u64_max (saturating_add u64_max base (output_vb change_spk)) feerate in
          recipient ← recipient_amount budget sf_value net_fee dest_dust;
          let outs := set_value outputs dest_idx recipient ++ option_list sf_out
                      ++ [{| value := surplus; script_pubkey := change_spk |}] in
          let plan := assemble sel outs net_fee (Some surplus) (value <$> sf_out) in
          mret (with_change_index plan (next_change v), bump_change v)
        else
          let net_fee := saturating_mul u64_max base feerate in
          recipient ← recipient_amount budget sf_value net_fee dest_dust;
          let outs := set_value outputs dest_idx recipient ++ option_list sf_out in
          part ← amount_sub acc recipient;
          real_fee ← amount_sub part sf_value;
          mret (assemble sel outs real_fee None (value <$> sf_out), v)
  end.

Definition plan_payment_fee_inclusive (v : WalletView) (utxos : list Utxo) (outputs : list TxOut)
    (feerate min_confirmations : Z) (sf : option ServiceFee) : Result (FundingPlan * WalletView) :=
  match spendable_indices outputs with
  | [dest_idx] =>
      dest ← expect (outputs !! dest_idx);
      let dest_dust := minimal_non_dust (script_pubkey dest) in
      let budget := value dest in
      let sf_out := sf ≫= λ sf, sf_output sf budget in
      let sf_vb := from_option (λ o, output_vb (script_pubkey o)) 0 sf_out in
      let non_change_vb := saturating_add u64_max (sum_vb outputs) sf_vb in
      let eligible := largest_first (eligible_of utxos min_confirmations) in
      change_addr ← address_at v 1 (next_change v);
      inclusive_loop v outputs dest_idx budget dest_dust sf_out non_change_vb feerate
        (address_spk change_addr) [] 0 eligible
  | _ => Err (InvalidInput "fee-from-amount needs exactly one destination")
  end.

Definition plan_payment (v : WalletView) (utxos : list Utxo) (outputs : list TxOut)
    (feerate min_confirmations : Z) (sf : option ServiceFee) (fee_from_amount : bool) :
    Result (FundingPlan * WalletView) :=
  _ ← check_feerate feerate;
  _ ← check_service_fee sf;
  _ ← check_not_dust outputs;
  if fee_from_amount then
    plan_payment_fee_inclusive v utxos outputs feerate min_confirmations sf
  else
    let service_fee_amt := sf ← sf; send ← to_option (checked_sum (map value outputs)); sf_output sf send in
    let outputs := outputs ++ option_list service_fee_amt in
    let service_fee_sat := value <$> service_fee_amt in
    target ← checked_sum (map value outputs);
    let outputs_vb := sum_vb outputs in
    let eligible := largest_first (eligible_of utxos min_confirmations) in
    change_addr ← address_at v 1 (next_change v);
    pay_loop v outputs target outputs_vb feerate (address_spk change_addr) service_fee_sat [] 0 eligible.

(** The error of the last [ok_or] is built eagerly: its [Amount] sum panics on
    overflow even when the plan succeeds; the [u64] sum after it wraps. *)
Definition plan_sweep (v : WalletView) (utxos : list Utxo) (dest : bytes)
    (feerate min_confirmations : Z) (sf : option ServiceFee) : Result FundingPlan :=
  _ ← check_feerate feerate;
  _ ← check_service_fee sf;
  let sel := eligible_of utxos min_confirmations in
  match sel with
  | [] => Err (InsufficientFunds 1 0)
  | _ =>
      total ← checked_sum (map u_value sel);
      let fee_out := sf ≫= λ sf, sf_output sf total in
      let fee_out_value := from_option value 0 fee_out in
      let fee_out_vb := from_option (λ o, output_vb (script_pubkey o)) 0 fee_out in
      let vb := saturating_add u64_max (base_vb (length sel) (output_vb dest)) fee_out_vb in
      let f := saturating_mul u64_max vb feerate in
      fees ← amount_add f fee_out_value;
      val ← ok_or (a ← checked_sub total f; b ← checked_sub a fee_out_value;
                   if CHANGE_DUST_SAT <=? b then Some b else None)
              (InsufficientFunds (wrapping_add u64_max fees CHANGE_DUST_SAT) total);
      mret (assemble sel ({| value := val; script_pubkey := dest |} :: option_list fee_out)
              f None (value <$> fee_out))
  end.

Definition plan_htlc_funding (v : WalletView) (utxos : list Utxo) (c : HtlcContract)
    (feerate min_confirmations : Z) : Result (FundingPlan * WalletView) :=
  plan_payment v utxos [funding_output c] feerate min_confirmations None false.

End wallet.

(** ** Specification of a payment plan

    [pool] are the coins the plan may spend, [requested] the outputs asked
    for, [change_spk] the wallet's next change script. *)
Section plan_spec.
Context `{BitcoinLib, DeriveLib}.

(** The size the planner prices a transaction at. *)
Definition estimated_vb (p : FundingPlan) : Z :=
  base_vb (length (selected p)) (sum_vb (output (tx p))).

Record plan_spec (v v' : WalletView) (requested : list TxOut) (change_spk : bytes)
    (feerate : Z) (pool : list Utxo) (p : FundingPlan) : Prop := {
  ps_taken : ∃ rest, pool ≡ₚ selected p ++ rest;
  ps_inputs : map previous_output (input (tx p)) = map outpoint (selected p);
  ps_balance : sumZ u_value (selected p) = sumZ value (output (tx p)) + fee p;
  ps_outputs : output (tx p) = requested ++
    option_list ((λ c, {| value := c; script_pubkey := change_spk |}) <$> change p);
  ps_fee : saturating_mul u64_max (estimated_vb p) feerate ≤ fee p;
  ps_overpay : fee p < saturating_mul u64_max (saturating_add u64_max (estimated_vb p)
                          (output_vb change_spk)) feerate + CHANGE_DUST_SAT;
  ps_change : match change p with
              | Some c => CHANGE_DUST_SAT ≤ c ∧ v' = bump_change v ∧
                          change_derivation_index p = Some (next_change v)
              | None => v' = v ∧ change_derivation_index p = None
              end;
}.

(** ** Lemmas *)
Lemma checked_sum_from_Ok acc l t :
  checked_sum_from acc l = Ok t → t = acc + sumZ id l ∧ (acc ≤ u64_max → t ≤ u64_max).
Proof.
  revert acc. induction l as [|a l IH]; intros acc; simpl.
  - intros [= <-]. rewrite sumZ_nil. lia.
  - intros E. simp. apply IH in E as [-> ?]. rewrite sumZ_cons. change (id a) with a. lia.
Qed.

Lemma checked_sum_Ok l t : checked_sum l = Ok t → t = sumZ id l ∧ t ≤ u64_max.
Proof. intros E%checked_sum_from_Ok. unfold u64_max in *. lia. Qed.

Lemma checked_sum_app acc a b :
  checked_sum_from acc (a ++ b) = (x ← checked_sum_from acc a; checked_sum_from x b).
Proof.
  revert acc. induction a as [|x a IH]; intros acc; simpl; [done|].
  destruct (checked_add u64_max acc x); simpl; [apply IH|done].
Qed.

Lemma checked_sum_pair a b t : checked_sum [a; b] = Ok t → t = a + b.
Proof. intros [-> _]%checked_sum_Ok. rewrite !sumZ_cons, sumZ_nil. unfold id. lia. Qed.

Lemma sumZ_values (outs : list TxOut) : sumZ id (map value outs) = sumZ value outs.
Proof. by rewrite sumZ_map. Qed.

Lemma output_vb_nonneg spk : 0 ≤ output_vb spk.
Proof. unfold output_vb, varint_len. repeat case_match; lia. Qed.

Lemma sum_vb_snoc outs o :
  sum_vb (outs ++ [o]) = saturating_add u64_max (sum_vb outs) (output_vb (script_pubkey o)).
Proof. unfold sum_vb. by rewrite foldl_snoc. Qed.

Lemma sum_vb_nonneg outs : 0 ≤ sum_vb outs.
Proof.
  induction outs as [|o outs IH] using rev_ind; [done|].
  rewrite sum_vb_snoc. unfold saturating_add, u64_max.
  pose proof (output_vb_nonneg (script_pubkey o)). lia.
Qed.

Lemma base_vb_snoc n outs o :
  saturating_add u64_max (base_vb n (sum_vb outs)) (output_vb (script_pubkey o)) =
  base_vb n (sum_vb (outs ++ [o])).
Proof.
  rewrite sum_vb_snoc. unfold base_vb, saturating_add, saturating_mul.
  pose proof (output_vb_nonneg (script_pubkey o)). pose proof (sum_vb_nonneg outs).
  unfold u64_max, TX_OVERHEAD_VB, P2WPKH_INPUT_VB. lia.
Qed.

Lemma saturating_mul_mono a b c :
  0 ≤ c → a ≤ b → saturating_mul u64_max a c ≤ saturating_mul u64_max b c.
Proof. intros. unfold saturating_mul. nia. Qed.

Lemma base_vb_mono n vb spk feerate :
  0 ≤ feerate →
  saturating_mul u64_max (base_vb n vb) feerate ≤
  saturating_mul u64_max (saturating_add u64_max (base_vb n vb) (output_vb spk)) feerate.
Proof.
  intros. apply saturating_mul_mono; [done|]. pose proof (output_vb_nonneg spk).
  unfold base_vb, saturating_add. lia.
Qed.

(** The two ways out of the selection loop with a plan. *)
Lemma with_change_spec v outputs feerate change_spk sf sel pool f chg :
  0 ≤ feerate → (∃ rest, pool ≡ₚ sel ++ rest) →
  f = saturating_mul u64_max (saturating_add u64_max (base_vb (length sel) (sum_vb outputs))
        (output_vb change_spk)) feerate →
  chg = sumZ u_value sel - (sumZ value outputs + f) → CHANGE_DUST_SAT ≤ chg →
  plan_spec v (bump_change v) outputs change_spk feerate pool
    (with_change_index (assemble sel (outputs ++ [{| value := chg; script_pubkey := change_spk |}])
       f (Some chg) sf) (next_change v)).
Proof.
  intros Hf Hpool Hfee Hchg Hdust.
  assert (Hest : f = saturating_mul u64_max (base_vb (length sel)
    (sum_vb (outputs ++ [{| value := chg; script_pubkey := change_spk |}]))) feerate).
  { by rewrite Hfee, <-base_vb_snoc. }
  split; unfold estimated_vb; simpl; try done.
  - by rewrite map_map.
  - rewrite sumZ_app, sumZ_cons, sumZ_nil. simpl. lia.
  - by rewrite <-Hest.
  - rewrite Hest at 1. unfold CHANGE_DUST_SAT.
    pose proof (base_vb_mono (length sel)
      (sum_vb (outputs ++ [{| value := chg; script_pubkey := change_spk |}])) change_spk feerate Hf).
    lia.
Qed.

Lemma no_change_spec v outputs feerate change_spk sf sel pool :
  0 ≤ feerate → (∃ rest, pool ≡ₚ sel ++ rest) →
  let est := base_vb (length sel) (sum_vb outputs) in
  sumZ value outputs + saturating_mul u64_max est feerate ≤ sumZ u_value sel →
  sumZ u_value sel < sumZ value outputs + saturating_mul u64_max
    (saturating_add u64_max est (output_vb change_spk)) feerate + CHANGE_DUST_SAT →
  plan_spec v v outputs change_spk feerate pool
    (assemble sel outputs (sumZ u_value sel - sumZ value outputs) None sf).
Proof.
  intros Hf Hpool est Hlo Hhi. split; unfold estimated_vb; simpl; fold est; try done; try lia.
  - by rewrite map_map.
  - by rewrite app_nil_r.
Qed.

Lemma pay_loop_sound v outputs feerate change_spk sf sel eligible p v' :
  0 ≤ feerate →
  pay_loop v outputs (sumZ value outputs) (sum_vb outputs) feerate change_spk sf sel
    (sumZ u_value sel) eligible = Ok (p, v') →
  plan_spec v v' outputs change_spk feerate (sel ++ eligible) p ∧ service_fee p = sf.
Proof.
  intros Hf. revert sel. induction eligible as [|u eligible IH]; intros sel E; [done|].
  assert (Hsum : sumZ u_value sel + u_value u = sumZ u_value (sel ++ [u])).
  { rewrite sumZ_app, sumZ_cons, sumZ_nil. lia. }
  assert (Htake : sel ++ u :: eligible = (sel ++ [u]) ++ eligible) by by rewrite <-app_assoc.
  cbn [pay_loop] in E. simp. subst. rewrite Htake, Hsum in *.
  match goal with H : checked_sum _ = _ |- _ => apply checked_sum_pair in H as -> end.
  destruct (_ && _) eqn:Hb in E; simp; zbool.
  { split; [|done]. eapply with_change_spec; eauto. }
  match goal with H : checked_sum _ = _ |- _ => apply checked_sum_pair in H as -> end.
  destruct (_ <=? _) eqn:Hb2 in E; [|by apply IH].
  simp. zbool. split; [|done]. apply no_change_spec; eauto.
  apply andb_false_iff in Hb as [Hb|Hb]; zbool; unfold CHANGE_DUST_SAT in *; lia.
Qed.

(** ** Coins offered to the selection *)
Lemma largest_first_eligible utxos mc :
  largest_first (eligible_of utxos mc) ≡ₚ eligible_of utxos mc.
Proof. apply sort_by_Permutation. Qed.

Lemma eligible_confirmed utxos mc u :
  u ∈ eligible_of utxos mc → mc ≤ confirmations u ∧ u ∈ utxos.
Proof. unfold eligible_of. by rewrite list_elem_of_filter. Qed.

Lemma checked_sum_to_option a b :
  0 ≤ a → 0 ≤ b →
  to_option (checked_sum [a; b]) = if a + b <=? u64_max then Some (a + b) else None.
Proof.
  intros. unfold checked_sum, checked_sum_from, checked_add. rewrite Z.add_0_l.
  destruct (a <=? u64_max) eqn:E1; simpl; destruct (a + b <=? u64_max) eqn:E2; simpl; zbool; try done; lia.
Qed.

Lemma checked_sum_Err l r :
  checked_sum l = r → match r with Err e => e = InvalidInput "amount total overflows" | Panic => False | _ => True end.
Proof.
  intros <-. unfold checked_sum. generalize 0 as acc.
  induction l as [|a l IH]; intros acc; simpl; [done|].
  destruct (checked_add u64_max acc a); simpl; [apply IH|done].
Qed.

(** When the loop runs out of coins: the sum of all of them is short of the
    outputs plus the fee for spending all of them. *)
Lemma pay_loop_short v outputs target ovb feerate change_spk sf sel eligible need have :
  0 ≤ target → 0 ≤ ovb → 1 ≤ feerate →
  (sel ≠ [] → ∃ t, checked_sum [target; saturating_mul u64_max (base_vb (length sel) ovb) feerate] = Ok t
                   ∧ sumZ u_value sel < t) →
  pay_loop v outputs target ovb feerate change_spk sf sel (sumZ u_value sel) eligible
    = Err (InsufficientFunds need have) →
  have = sumZ u_value (sel ++ eligible) ∧ have < need ∧
  (sel ++ eligible ≠ [] →
   need = target + saturating_mul u64_max (base_vb (length (sel ++ eligible)) ovb) feerate).
Proof.
  intros Ht Ho Hf. revert sel. induction eligible as [|u eligible IH]; intros sel Hsel E.
  - rewrite app_nil_r. cbn [pay_loop] in E. injection E as Hn Hh. split; [done|].
    destruct sel as [|x sel].
    + split; [|done]. subst need have.
      assert (0 < saturating_mul u64_max (base_vb 1 ovb) feerate).
      { unfold base_vb, saturating_add, saturating_mul, TX_OVERHEAD_VB, P2WPKH_INPUT_VB, u64_max. nia. }
      cbn [length Nat.max]. rewrite sumZ_nil, checked_sum_to_option by lia.
      case_match; simpl; unfold MAX_MONEY; lia.
    + destruct (Hsel ltac:(done)) as (t & Hsum & Hlt).
      rewrite Nat.max_l in Hn by (simpl; lia). rewrite Hsum in Hn. simpl in Hn.
      apply checked_sum_pair in Hsum. subst. split; [lia|done].
  - assert (Hsum : sumZ u_value sel + u_value u = sumZ u_value (sel ++ [u])).
    { rewrite sumZ_app, sumZ_cons, sumZ_nil. lia. }
    replace (sel ++ u :: eligible) with ((sel ++ [u]) ++ eligible) by by rewrite <-app_assoc.
    cbn [pay_loop] in E. unfold checked_add in E. rewrite Hsum in E.
    destruct (sumZ u_value (sel ++ [u]) <=? u64_max); [cbn [ok_or mbind result_bind] in E|done].
    destruct (checked_sum [target; saturating_mul _ (saturating_add _ _ _) _]) as [n| |] eqn:E1;
      [cbn [mbind result_bind] in E|apply checked_sum_Err in E1; simpl in E1, E; congruence|done].
    destruct (_ && _) in E; [done|].
    destruct (checked_sum [target; saturating_mul u64_max (base_vb (length (sel ++ [u])) ovb) feerate])
      as [m| |] eqn:E2;
      [cbn [mbind result_bind] in E|apply checked_sum_Err in E2; simpl in E2, E; congruence|done].
    destruct (m <=? _) eqn:Hm in E; zbool; [done|].
    apply IH; [intros _; eauto|done].
Qed.

Definition op_return_out (o : TxOut) : Prop := is_op_return (script_pubkey o) = true.

Lemma spendable_none k outs : spendable_from k outs = [] → Forall op_return_out outs.
Proof.
  revert k. induction outs as [|o outs IH]; intros k; simpl; [constructor|].
  unfold op_return_out in *. destruct (is_op_return _) eqn:E; [|done]. constructor; eauto.
Qed.

Lemma spendable_one k outs i :
  spendable_from k outs = [i] →
  ∃ l1 d l2, outs = l1 ++ d :: l2 ∧ i = (k + length l1)%nat ∧
    Forall op_return_out l1 ∧ Forall op_return_out l2.
Proof.
  revert k. induction outs as [|o outs IH]; intros k; simpl; [done|].
  destruct (is_op_return _) eqn:E.
  - intros (l1 & d & l2 & -> & -> & ? & ?)%IH. exists (o :: l1), d, l2.
    split_and!; [done|simpl; lia|by constructor|done].
  - intros [= -> ?%spendable_none]. exists [], o, outs. split_and!; [done|simpl; lia|constructor|done].
Qed.

Lemma sumZ_op_returns outs :
  Forall op_return_out outs → (∀ o, o ∈ outs → op_return_out o → value o = 0) → sumZ value outs = 0.
Proof.
  induction 1 as [|o outs Ho Houts IH]; intros Hz; [done|].
  rewrite sumZ_cons, (Hz o) by set_solver. rewrite IH; [done|]. set_solver.
Qed.

(** Replacing the only spendable output's value: the sum is that value, the
    scripts are unchanged. *)
Lemma set_value_one outs i r :
  spendable_indices outs = [i] → (∀ o, o ∈ outs → op_return_out o → value o = 0) →
  sumZ value (set_value outs i r) = r ∧
  map script_pubkey (set_value outs i r) = map script_pubkey outs.
Proof.
  intros (l1 & d & l2 & -> & -> & H1 & H2)%spendable_one Hz. unfold set_value.
  rewrite <-(Nat.add_0_r (0 + length l1)). cbn [Nat.add]. rewrite alter_app_r. simpl.
  rewrite !map_app. split; [|done].
  rewrite sumZ_app, sumZ_cons, !sumZ_op_returns; simpl; try done; try lia; set_solver.
Qed.

Lemma sum_vb_scripts a b : map script_pubkey a = map script_pubkey b → sum_vb a = sum_vb b.
Proof.
  intros E. unfold sum_vb.
  assert (∀ acc, foldl (λ a o, saturating_add u64_max a (output_vb (script_pubkey o))) acc a =
                 foldl (λ a o, saturating_add u64_max a (output_vb (script_pubkey o))) acc b); [|done].
  revert b E. induction a as [|x a IH]; intros [|y b] E acc; simplify_eq/=; [done|].
  rewrite H1. auto.
Qed.

Lemma spendable_sum outs i d :
  spendable_indices outs = [i] → outs !! i = Some d →
  (∀ o, o ∈ outs → op_return_out o → value o = 0) → sumZ value outs = value d.
Proof.
  intros (l1 & d' & l2 & -> & -> & H1 & H2)%spendable_one Hd Hz.
  rewrite list_lookup_middle in Hd by lia. injection Hd as ->.
  rewrite sumZ_app, sumZ_cons, !sumZ_op_returns; try done; try lia; set_solver.
Qed.

Lemma sum_vb_option outs sfo :
  saturating_add u64_max (sum_vb outs) (from_option (λ o, output_vb (script_pubkey o)) 0 sfo)
  = sum_vb (outs ++ option_list sfo).
Proof.
  destruct sfo as [o|]; simpl; [by rewrite sum_vb_snoc|]. rewrite app_nil_r.
  induction outs as [|o outs _] using rev_ind; [done|].
  rewrite sum_vb_snoc. unfold saturating_add. pose proof (sum_vb_nonneg outs). lia.
Qed.

Lemma recipient_amount_Ok budget sfv f dust r :
  recipient_amount budget sfv f dust = Ok r → budget = r + sfv + f ∧ dust ≤ r.
Proof.
  unfold recipient_amount. intros E.
  destruct (checked_sub budget sfv) as [x|] eqn:E1; simpl in E; [|by simp].
  destruct (checked_sub x f) as [y|] eqn:E2; simpl in E; [|by simp].
  destruct (dust <=? y) eqn:E3; simp. zbool. lia.
Qed.

Lemma inclusive_loop_sound v outs i budget dust sfo feerate change_spk sel eligible p v' :
  0 ≤ feerate → spendable_indices outs = [i] →
  (∀ o, o ∈ outs → op_return_out o → value o = 0) →
  inclusive_loop v outs i budget dust sfo (sum_vb (outs ++ option_list sfo)) feerate change_spk sel
    (sumZ u_value sel) eligible = Ok (p, v') →
  ∃ r f, plan_spec v v' (set_value outs i r ++ option_list sfo) change_spk feerate (sel ++ eligible) p ∧
    service_fee p = value <$> sfo ∧
    dust ≤ r ∧ budget = r + from_option value 0 sfo + f ∧
    f ≤ fee p < f + CHANGE_DUST_SAT ∧ (change p ≠ None → fee p = f).
Proof.
  intros Hf Hi Hz. revert sel. induction eligible as [|u eligible IH]; intros sel E; [done|].
  assert (Hsum : sumZ u_value sel + u_value u = sumZ u_value (sel ++ [u])).
  { rewrite sumZ_app, sumZ_cons, sumZ_nil. lia. }
  assert (Htake : sel ++ u :: eligible = (sel ++ [u]) ++ eligible) by by rewrite <-app_assoc.
  assert (Hopt : sumZ value (option_list sfo) = from_option value 0 sfo).
  { destruct sfo; simpl; rewrite ?sumZ_cons, sumZ_nil; lia. }
  assert (Hvb : ∀ r, sum_vb (set_value outs i r ++ option_list sfo) = sum_vb (outs ++ option_list sfo)).
  { intros r. apply sum_vb_scripts. rewrite !map_app. f_equal. by apply set_value_one. }
  cbn [inclusive_loop] in E. apply bind_Ok in E as (acc & Hacc & E). simp. subst acc.
  rewrite Htake. rewrite Hsum in *. destruct (_ <? budget) eqn:Hb in E; zbool; [by apply IH|].
  destruct (CHANGE_DUST_SAT <=? _) eqn:Hd in E; zbool; apply bind_Ok in E as (r & Hr & E);
    destruct (set_value_one outs i r Hi Hz) as [Hval _].
  - simp. apply recipient_amount_Ok in Hr as [Hbud Hdust]. rewrite app_assoc. exists r, (budget - r - from_option value 0 sfo).
    split_and!; try done; simpl; try (unfold CHANGE_DUST_SAT; lia).
    apply with_change_spec; try done; [by eexists|by rewrite Hvb|].
    rewrite (sumZ_app value), Hval, Hopt. lia.
  - unfold amount_sub in E. simp. subst. apply recipient_amount_Ok in Hr as [Hbud Hdust].
    exists r, (budget - r - from_option value 0 sfo).
    split_and!; try done; simpl; try (unfold CHANGE_DUST_SAT in *; lia).
    replace (_ - r - _) with (sumZ u_value (sel ++ [u]) - sumZ value (set_value outs i r ++ option_list sfo))
      by (rewrite (sumZ_app value), Hval, Hopt; lia).
    pose proof (base_vb_mono (length (sel ++ [u])) (sum_vb (outs ++ option_list sfo)) change_spk feerate Hf).
    apply no_change_spec; [done|by eexists|..]; rewrite Hvb, (sumZ_app value), Hval, Hopt; lia.
Qed.

Lemma plan_spec_pool v v' req spk feerate pool pool' p :
  pool ≡ₚ pool' → plan_spec v v' req spk feerate pool p → plan_spec v v' req spk feerate pool' p.
Proof. intros Hp [[rest Hr] ??????]. split; try done. exists rest. by rewrite <-Hp. Qed.

Lemma check_feerate_Ok f u : check_feerate f = Ok u → f ≠ 0 ∧ f ≤ MAX_FEERATE_SAT_VB.
Proof. unfold check_feerate. intros. simp. zbool. done. Qed.

(** The service-fee output of a plan, for the amount sent. *)
Definition fee_output (sf : option ServiceFee) (send : Z) : option TxOut := sf ≫= λ s, sf_output s send.

(** The sum the code computes for the service fee is the sum of the outputs,
    as soon as the total with the fee output does not overflow. *)
Lemma planned_service_fee outputs sf target :
  let sfo := sf ≫= λ sf, to_option (checked_sum (map value outputs)) ≫= λ send, sf_output sf send in
  checked_sum (map value (outputs ++ option_list sfo)) = Ok target →
  sfo = fee_output sf (sumZ value outputs).
Proof.
  simpl. intros Ht. unfold checked_sum in Ht. rewrite map_app, checked_sum_app in Ht.
  apply bind_Ok in Ht as (t0 & Ht0 & _). unfold fee_output, checked_sum.
  destruct sf as [sf'|]; simpl; [|done]. rewrite Ht0. simpl.
  apply checked_sum_from_Ok in Ht0 as [-> _]. by rewrite sumZ_values.
Qed.

Lemma payment_plan v utxos outputs feerate mc sf p v' :
  0 ≤ feerate →
  plan_payment v utxos outputs feerate mc sf false = Ok (p, v') →
  ∃ change_addr,
    let sfo := fee_output sf (sumZ value outputs) in
    address_at v 1 (next_change v) = Ok change_addr ∧
    plan_spec v v' (outputs ++ option_list sfo) (address_spk change_addr) feerate
      (eligible_of utxos mc) p ∧
    Forall (λ u, mc ≤ confirmations u) (selected p) ∧
    service_fee p = value <$> sfo ∧ 1 ≤ feerate ≤ 10_000.
Proof.
  intros Hf0 E. unfold plan_payment in E.
  apply bind_Ok in E as (? & Hfr%check_feerate_Ok & E). apply bind_Ok in E as (? & _ & E).
  apply bind_Ok in E as (? & _ & E). apply bind_Ok in E as (target & Ht & E).
  apply bind_Ok in E as (addr & Ha & E).
  pose proof (planned_service_fee outputs sf target Ht) as Hsfo. simpl in Hsfo. rewrite Hsfo in Ht, E.
  apply checked_sum_Ok in Ht as [-> _]. rewrite sumZ_values in E.
  exists addr. simpl. change 0 with (sumZ u_value []) in E at 1.
  apply pay_loop_sound in E as [Hs Hsf]; [|done].
  apply (plan_spec_pool _ _ _ _ _ _ (eligible_of utxos mc)) in Hs; [|apply largest_first_eligible].
  split_and!; try done; try (unfold MAX_FEERATE_SAT_VB in *; lia).
  destruct Hs as [[rest Hr] _ _ _ _ _ _]. apply Forall_forall. intros u Hu.
  apply (eligible_confirmed utxos). rewrite Hr. set_solver.
Qed.

(** The fee-inclusive planner, on outputs of which all but one are
    zero-value [OP_RETURN]s. *)
Lemma inclusive_plan v utxos outputs feerate mc sf p v' :
  0 ≤ feerate → (∀ o, o ∈ outputs → op_return_out o → value o = 0) →
  plan_payment v utxos outputs feerate mc sf true = Ok (p, v') →
  ∃ i r f change_addr,
    let sfo := fee_output sf (sumZ value outputs) in
    spendable_indices outputs = [i] ∧
    address_at v 1 (next_change v) = Ok change_addr ∧
    plan_spec v v' (set_value outputs i r ++ option_list sfo) (address_spk change_addr) feerate
      (eligible_of utxos mc) p ∧
    service_fee p = value <$> sfo ∧
    from_option (λ d, minimal_non_dust (script_pubkey d) ≤ r) False (outputs !! i) ∧
    sumZ value outputs = r + from_option value 0 sfo + f ∧
    f ≤ fee p < f + CHANGE_DUST_SAT ∧ (change p ≠ None → fee p = f).
Proof.
  intros Hf Hz E. unfold plan_payment in E.
  do 3 apply bind_Ok in E as (? & _ & E). unfold plan_payment_fee_inclusive in E.
  destruct (spendable_indices outputs) as [|i [|??]] eqn:Hi; try done.
  apply bind_Ok in E as (d & Hd%expect_Ok & E). apply bind_Ok in E as (addr & Ha & E).
  assert (Hbud : sumZ value outputs = value d) by by apply (spendable_sum _ i).
  rewrite <-Hbud in E. fold (fee_output sf (sumZ value outputs)) in E.
  set (sfo := fee_output sf (sumZ value outputs)) in *.
  assert (Hvb : saturating_add u64_max (sum_vb outputs) (from_option (λ o, output_vb (script_pubkey o)) 0 sfo)
    = sum_vb (outputs ++ option_list sfo)) by apply sum_vb_option.
  rewrite Hvb in E. change 0 with (sumZ u_value []) in E at 1.
  apply inclusive_loop_sound in E as (r & f & Hs & Hsf & Hr & Hb & Hfee & Hchg); [|done..].
  exists i, r, f, addr. simpl. split_and!; try done; try lia; [|by rewrite Hd].
  eapply plan_spec_pool; [apply largest_first_eligible|done].
Qed.

(** C39. A payment planned with the fee on top: it spends confirmed coins the
    caller gave, each at most once, through exactly those inputs; it pays
    every requested output in place, the service fee after them, and at most
    one change output of at least 294 sat to the wallet's own next change
    address, advancing the change counter exactly then; inputs equal outputs
    plus fee; and the fee is at least the requested rate on the estimated size
    and less than that rate with one more output plus 294 sat. *)
Theorem plan_payment_sound v utxos outputs feerate mc sf p v' :
  0 ≤ feerate →
  plan_payment v utxos outputs feerate mc sf false = Ok (p, v') →
  ∃ change_addr,
    let sfo := fee_output sf (sumZ value outputs) in
    address_at v 1 (next_change v) = Ok change_addr ∧
    plan_spec v v' (outputs ++ option_list sfo) (address_spk change_addr) feerate
      (eligible_of utxos mc) p ∧
    Forall (λ u, mc ≤ confirmations u) (selected p) ∧
    service_fee p = value <$> sfo ∧ 1 ≤ feerate ≤ 10_000.
Proof. apply payment_plan. Qed.

(** A payment with the fee taken from the amount (one destination, any
    number of zero-value OP_RETURN outputs): the destination's amount is split
    exactly into what the recipient gets, the service fee and the network fee;
    the recipient stays at or above the dust limit of its own address, the
    other outputs keep their place and value, and the plan meets the same
    specification as an ordinary payment.  With change the network fee is the
    estimate; without, it exceeds it by less than 294 sat. *)
Theorem plan_payment_fee_inclusive_sound v utxos outputs feerate mc sf p v' :
  0 ≤ feerate → (∀ o, o ∈ outputs → op_return_out o → value o = 0) →
  plan_payment v utxos outputs feerate mc sf true = Ok (p, v') →
  ∃ i r f change_addr,
    let sfo := fee_output sf (sumZ value outputs) in
    spendable_indices outputs = [i] ∧
    address_at v 1 (next_change v) = Ok change_addr ∧
    plan_spec v v' (set_value outputs i r ++ option_list sfo) (address_spk change_addr) feerate
      (eligible_of utxos mc) p ∧
    service_fee p = value <$> sfo ∧
    from_option (λ d, minimal_non_dust (script_pubkey d) ≤ r) False (outputs !! i) ∧
    sumZ value outputs = r + from_option value 0 sfo + f ∧
    f ≤ fee p < f + CHANGE_DUST_SAT ∧ (change p ≠ None → fee p = f).
Proof. apply inclusive_plan. Qed.

(** Steps that fail with another error than [InsufficientFunds]. *)
Definition funds_safe {A} (r : Result A) : Prop := ∀ n h, r ≠ Err (InsufficientFunds n h).

Lemma funds_safe_bind {A B} (r : Result A) (f : A → Result B) n h :
  funds_safe r → (r ≫= f) = Err (InsufficientFunds n h) → ∃ a, r = Ok a ∧ f a = Err (InsufficientFunds n h).
Proof. intros Hs E. destruct r as [a|e|]; simpl in E; [by eauto| |done]. destruct (Hs n h). congruence. Qed.

Lemma bail_if_safe c e : (∀ n h, e ≠ InsufficientFunds n h) → funds_safe (bail_if c e).
Proof. intros He n h. destruct c; simpl; [|done]. intros [= ?]. by apply (He n h). Qed.

Lemma check_service_fee_safe sf : funds_safe (check_service_fee sf).
Proof. destruct sf; [by apply bail_if_safe|done]. Qed.

Lemma check_not_dust_safe outs : funds_safe (check_not_dust outs).
Proof.
  induction outs as [|o outs IH]; [done|]. simpl. intros n h. case_match; [apply IH|].
  destruct (value o <? _); simpl; [done|apply IH].
Qed.

Lemma checked_sum_safe l : funds_safe (checked_sum l).
Proof. intros n h E. by apply checked_sum_Err in E. Qed.

Lemma address_at_safe v b i : funds_safe (address_at v b i).
Proof. intros n h. unfold address_at, child. repeat (case_match; simpl; try done). Qed.

Lemma amount_sat_nonneg sf send :
  0 ≤ send → 0 ≤ bps sf → 0 ≤ amount_sat sf send.
Proof.
  intros Hs Hb. unfold amount_sat, saturating_mul, u128_max.
  assert (0 ≤ Z.min (send * Z.min (bps sf) MAX_BPS) (2 ^ 128 - 1) / 10_000) as Hp.
  { apply Z.div_pos; [|lia]. unfold MAX_BPS. nia. }
  destruct (try_from _ _) as [x|] eqn:E; simpl; [apply try_from_Some in E|unfold u64_max];
    case_match; zbool; lia.
Qed.

Lemma fee_output_nonneg sf send :
  0 ≤ send → from_option (λ s, 0 ≤ bps s) True sf → 0 ≤ sumZ value (option_list (fee_output sf send)).
Proof.
  intros Hs Hb. unfold fee_output. destruct sf as [sf|]; simpl in *; [|done].
  unfold sf_output. case_match; simpl; [done|]. rewrite sumZ_cons, sumZ_nil. simpl.
  pose proof (amount_sat_nonneg sf send Hs Hb). lia.
Qed.

Lemma sumZ_option sfo : sumZ value (option_list sfo) = from_option value 0 sfo.
Proof. destruct sfo; simpl; rewrite ?sumZ_cons, sumZ_nil; lia. Qed.

Lemma sweep_amount total f sfv amount :
  (a ← checked_sub total f; b ← checked_sub a sfv;
   if CHANGE_DUST_SAT <=? b then Some b else None) = Some amount →
  total = f + sfv + amount ∧ CHANGE_DUST_SAT ≤ amount.
Proof.
  intros E. destruct (checked_sub total f) as [a|] eqn:E1; simpl in E; [|done].
  destruct (checked_sub a sfv) as [b|] eqn:E2; simpl in E; [|done].
  destruct (_ <=? _) eqn:E3; simp. zbool. lia.
Qed.

Lemma sweep_vb n dest amount sfo :
  saturating_add u64_max (base_vb n (output_vb dest))
    (from_option (λ o, output_vb (script_pubkey o)) 0 sfo) =
  base_vb n (sum_vb ({| value := amount; script_pubkey := dest |} :: option_list sfo)).
Proof.
  change (?x :: option_list sfo) with ([x] ++ option_list sfo). rewrite <-sum_vb_option.
  assert (Hd : sum_vb [{| value := amount; script_pubkey := dest |}] = Z.min u64_max (output_vb dest)).
  { unfold sum_vb, saturating_add. simpl. lia. }
  rewrite Hd. pose proof (output_vb_nonneg dest).
  assert (0 ≤ from_option (λ o, output_vb (script_pubkey o)) 0 sfo).
  { destruct sfo; simpl; [apply output_vb_nonneg|done]. }
  unfold base_vb, saturating_add, saturating_mul, u64_max, TX_OVERHEAD_VB, P2WPKH_INPUT_VB. lia.
Qed.

Lemma fee_output_capped sf send s :
  0 ≤ send → 0 ≤ bps sf → check_service_fee (Some sf) = Ok tt → Some s = value <$> fee_output (Some sf) send →
  s ≤ Z.max (send / 100) (Z.max 2_000 (minimal_non_dust (fee_spk sf))).
Proof.
  intros Hpos Hbp Hc Hs. unfold check_service_fee in Hc. apply bail_if_Ok, orb_false_iff in Hc as [Hb Hfl].
  zbool. unfold MAX_SERVICE_FEE_BPS, MAX_SERVICE_FEE_FLOOR_SAT in *.
  unfold fee_output in Hs. simpl in Hs. unfold sf_output in Hs. case_match; [done|].
  injection Hs as ->. apply Z.max_lub; [|lia].
  enough (amount_sat sf send ≤ Z.max (send / 100) 2000) by lia.
  unfold amount_sat, MAX_BPS.
  assert (Hp : saturating_mul u128_max send (Z.min (bps sf) 1000) / 10_000 ≤ send / 100).
  { replace (send / 100) with (send * 100 / (100 * 100)) by (rewrite Z.div_mul_cancel_r; lia).
    change (100 * 100) with 10_000. apply Z.div_le_mono; [lia|]. unfold saturating_mul. nia. }
  destruct (try_from _ _) as [x|] eqn:E; simpl.
  - apply try_from_Some in E. case_match; lia.
  - assert (u64_max < saturating_mul u128_max send (Z.min (bps sf) 1000) / 10_000).
    { unfold try_from in E. case_match; [done|].
      assert (0 ≤ saturating_mul u128_max send (Z.min (bps sf) 1000) / 10_000).
      { apply Z.div_pos; [|lia]. unfold saturating_mul, u128_max. nia. }
      zbool. lia. }
    case_match; lia.
Qed.

(** The planner says "insufficient funds" only when it is true: the
    amount it reports as available is the sum of every eligible coin, it is
    below the amount reported as needed, and that amount is the outputs plus
    the fee of spending all of those coins. *)
Theorem plan_payment_insufficient v utxos outputs feerate mc sf need have :
  0 ≤ feerate → Forall (λ o, 0 ≤ value o) outputs → from_option (λ s, 0 ≤ bps s) True sf →
  plan_payment v utxos outputs feerate mc sf false = Err (InsufficientFunds need have) →
  let outs := outputs ++ option_list (fee_output sf (sumZ value outputs)) in
  have = sumZ u_value (eligible_of utxos mc) ∧ have < need ∧
  (eligible_of utxos mc ≠ [] → need = sumZ value outs +
     saturating_mul u64_max (base_vb (length (eligible_of utxos mc)) (sum_vb outs)) feerate).
Proof.
  intros Hf0 Hpos Hsf E. unfold plan_payment in E.
  apply funds_safe_bind in E as (? & Hfr%check_feerate_Ok & E); [|by apply bail_if_safe].
  apply funds_safe_bind in E as (? & _ & E); [|apply check_service_fee_safe].
  apply funds_safe_bind in E as (? & _ & E); [|apply check_not_dust_safe].
  apply funds_safe_bind in E as (target & Ht & E); [|apply checked_sum_safe].
  apply funds_safe_bind in E as (addr & _ & E); [|apply address_at_safe].
  pose proof (planned_service_fee outputs sf target Ht) as Hsfo. simpl in Hsfo. rewrite Hsfo in Ht, E.
  set (sfo := fee_output sf (sumZ value outputs)) in *.
  apply checked_sum_Ok in Ht as [-> _]. rewrite sumZ_values in E.
  change 0 with (sumZ u_value []) in E at 1.
  apply pay_loop_short in E as (Hh & Hlt & Hneed);
    [|pose proof (sumZ_nonneg value outputs Hpos) as Hs;
      pose proof (fee_output_nonneg sf _ Hs Hsf); rewrite sumZ_app; subst sfo; lia
     |apply sum_vb_nonneg|lia|done].
  simpl in *. rewrite (largest_first_eligible utxos mc) in Hh. split_and!; [done..|].
  intros Hne. rewrite Hneed.
  - by rewrite (Permutation_length (largest_first_eligible utxos mc)).
  - intros Hnil. apply Hne, Permutation_nil_r. by rewrite <-Hnil, largest_first_eligible.
Qed.

(** A sweep spends every coin with enough confirmations and nothing
    else, leaves no change, pays the destination everything but the service
    fee and a network fee that is exactly the rate on the estimated size, and
    never leaves the destination less than 294 sat. *)
Theorem plan_sweep_sound v utxos dest feerate mc sf p :
  plan_sweep v utxos dest feerate mc sf = Ok p →
  let sfo := fee_output sf (sumZ u_value (eligible_of utxos mc)) in
  selected p = eligible_of utxos mc ∧ selected p ≠ [] ∧ change p = None ∧
  map previous_output (input (tx p)) = map outpoint (selected p) ∧
  sumZ u_value (selected p) = sumZ value (output (tx p)) + fee p ∧
  fee p = saturating_mul u64_max (estimated_vb p) feerate ∧
  service_fee p = value <$> sfo ∧
  ∃ amount, CHANGE_DUST_SAT ≤ amount ∧
    output (tx p) = {| value := amount; script_pubkey := dest |} :: option_list sfo.
Proof.
  intros E. unfold plan_sweep in E. do 2 apply bind_Ok in E as (? & _ & E).
  destruct (eligible_of utxos mc) as [|u l] eqn:Hel; [done|]. rewrite <-Hel in *.
  apply bind_Ok in E as (total & Ht & E). apply checked_sum_Ok in Ht as [-> _].
  rewrite (sumZ_map id) in E. change (sumZ (λ a, id (u_value a))) with (sumZ u_value) in E.
  fold (fee_output sf (sumZ u_value (eligible_of utxos mc))) in E.
  set (sfo := fee_output sf (sumZ u_value (eligible_of utxos mc))) in *.
  apply bind_Ok in E as (fees & _ & E). apply bind_Ok in E as (amount & Ha%ok_or_Ok & E).
  injection E as <-. apply sweep_amount in Ha as [Hbal Hdust].
  unfold estimated_vb. simpl. split_and!; try done.
  - by rewrite Hel.
  - by rewrite map_map.
  - rewrite sumZ_cons, sumZ_option. simpl. lia.
  - f_equal. by apply sweep_vb.
  - by exists amount.
Qed.

(** Whatever fee a backend advertises, a planned payment (with the
    network fee on top or taken from the amount) pays it at most 1% of the
    amount sent, or the 2,000 sat floor, or the dust limit of its fee
    address, whichever is largest. *)
Theorem service_fee_capped v utxos outputs feerate mc sf b p v' s :
  0 ≤ feerate → (∀ o, o ∈ outputs → op_return_out o → value o = 0) →
  Forall (λ o, 0 ≤ value o) outputs → 0 ≤ bps sf →
  plan_payment v utxos outputs feerate mc (Some sf) b = Ok (p, v') →
  service_fee p = Some s →
  s ≤ Z.max (sumZ value outputs / 100) (Z.max 2_000 (minimal_non_dust (fee_spk sf))).
Proof.
  intros Hf Hz Hpos Hbp E Hs.
  assert (Hc : check_service_fee (Some sf) = Ok tt).
  { unfold plan_payment in E. apply bind_Ok in E as (? & _ & E). by apply bind_Ok in E as ([] & ? & E). }
  assert (Hsf : service_fee p = value <$> fee_output (Some sf) (sumZ value outputs)).
  { destruct b; [apply inclusive_plan in E as (?&?&?&?&E); [|done..]; apply E|].
    apply payment_plan in E as (?&E); [|done]; apply E. }
  rewrite Hs in Hsf. eapply fee_output_capped; eauto with fortis.
Qed.

(** A planned funding transaction funds the contract: its output 0 is
    the contract's, with exactly the contract's value, so the funding output
    the swap looks for is found there. *)
Theorem plan_htlc_funding_found v utxos c feerate mc p v' :
  0 ≤ feerate → plan_htlc_funding v utxos c feerate mc = Ok (p, v') →
  find_exact_output c (tx p) (c_value c) = Some 0 ∧
  find_output c (tx p) (c_value c) = Some (0, c_value c).
Proof.
  intros Hf E. unfold plan_htlc_funding in E. apply payment_plan in E as (addr & _ & Hs & _); [|done].
  destruct Hs as [_ _ _ Ho _ _ _]. unfold find_exact_output, find_output. rewrite Ho. simpl.
  rewrite !decide_True by done. done.
Qed.

End plan_spec.

(** ** Witnesses *)
#[local] Instance toy_derive : DeriveLib := {|
  Xpub := unit;
  from_normal_idx := λ i, if (0 <=? i) && (i <? 2^31) then inr i else inl "not a child number";
  derive_pub := λ _ path, inr (concat (map (le_bytes 4) path));
  p2wpkh := λ pk _, String.string_of_list_byte pk;
  address_spk := λ a, x00 :: x14 :: String.list_byte_of_string a;
|}.

Definition example_view : WalletView := set_next_indices (new bitcoin tt) 0 7.

Definition example_utxo (t : byte) (sat confs : Z) : Utxo := {|
  outpoint := {| txid := [t]; vout := 0 |}; u_value := sat; u_script_pubkey := [x00];
  confirmations := confs; derivation_index := 0; is_change := false |}.

Definition example_coins : list Utxo :=
  [example_utxo x01 20_000 3; example_utxo x02 90_000 1; example_utxo x03 500_000 0].

Definition example_fee : ServiceFee := {| bps := 100; floor_sat := 400; cap_sat := 0; fee_spk := [x51] |}.
Definition example_out (sat : Z) : TxOut := {| value := sat; script_pubkey := [x52] |}.

(** What the example plans evaluate to. *)
Lemma example_payment :
  ∃ p v', plan_payment example_view example_coins [example_out 90_000] 2 1 (Some example_fee) false
    = Ok (p, v') ∧ length (selected p) = 2%nat ∧ change_derivation_index p = Some 7.
Proof.
  destruct (ok_with_elim (λ '(p, _), bool_decide (length (selected p) = 2%nat ∧
    change_derivation_index p = Some 7)) (plan_payment example_view example_coins [example_out 90_000] 2 1
    (Some example_fee) false)) as ([p v'] & E & [Hl Hc]%bool_decide_eq_true); [vm_compute; reflexivity|].
  exists p, v'. exact (conj E (conj Hl Hc)).
Qed.

Lemma example_inclusive :
  ∃ p v', plan_payment example_view example_coins [example_out 80_000] 2 1 (Some example_fee) true
    = Ok (p, v') ∧ change p = Some 10_000 ∧ service_fee p = Some 800.
Proof.
  destruct (ok_with_elim (λ '(p, _), bool_decide (change p = Some 10_000 ∧ service_fee p = Some 800))
    (plan_payment example_view example_coins [example_out 80_000] 2 1 (Some example_fee) true))
    as ([p v'] & E & [Hl Hc]%bool_decide_eq_true); [vm_compute; reflexivity|].
  exists p, v'. exact (conj E (conj Hl Hc)).
Qed.

Lemma example_sweep :
  ∃ p, plan_sweep example_view example_coins [x52] 2 1 (Some example_fee) = Ok p ∧
    service_fee p = Some 1_100.
Proof.
  destruct (ok_with_elim (λ p, bool_decide (service_fee p = Some 1_100))
    (plan_sweep example_view example_coins [x52] 2 1 (Some example_fee)))
    as (p & E & Hs%bool_decide_eq_true); [vm_compute; reflexivity|].
  exists p. exact (conj E Hs).
Qed.

Lemma example_funding :
  ∃ p v', plan_htlc_funding example_view [example_utxo x01 400_000 3] example_contract 2 1 = Ok (p, v').
Proof.
  destruct (ok_with_elim (λ _, true)
    (plan_htlc_funding example_view [example_utxo x01 400_000 3] example_contract 2 1))
    as ([p v'] & E & _); [vm_compute; reflexivity|].
  exists p, v'. exact E.
Qed.

Lemma example_short :
  ∃ need have, plan_payment example_view example_coins [example_out 110_000] 2 1 None false
    = Err (InsufficientFunds need have).
Proof.
  destruct (err_with_elim (λ e, if e is InsufficientFunds _ _ then true else false)
    (plan_payment example_view example_coins [example_out 110_000] 2 1 None false))
    as (e & E & He); [vm_compute; reflexivity|].
  destruct e as [| |need have| | | | | | | | |]; try discriminate He. exists need, have. exact E.
Qed.

Lemma example_op_returns sat : ∀ o, o ∈ [example_out sat] → op_return_out o → value o = 0.
Proof. intros o Ho%list_elem_of_singleton Hop. subst o. discriminate Hop. Qed.

Lemma plan_payment_sound_witness :
  ∃ p v' a, plan_payment example_view example_coins [example_out 90_000] 2 1 (Some example_fee) false
    = Ok (p, v') ∧ length (selected p) = 2%nat ∧ change_derivation_index p = Some 7 ∧
    address_at example_view 1 7 = Ok a ∧ 1 ≤ 2 ≤ 10_000.
Proof.
  destruct example_payment as (p & v' & E & Hl & Hc).
  destruct (plan_payment_sound example_view example_coins [example_out 90_000] 2 1 (Some example_fee)
    p v' ltac:(lia) E) as (a & Ha & _ & _ & _ & Hf).
  exists p, v', a. exact (conj E (conj Hl (conj Hc (conj Ha Hf)))).
Defined.

Lemma plan_payment_insufficient_witness :
  ∃ need have, plan_payment example_view example_coins [example_out 110_000] 2 1 None false
    = Err (InsufficientFunds need have) ∧ have = sumZ u_value (eligible_of example_coins 1) ∧ have < need.
Proof.
  destruct example_short as (need & have & E).
  destruct (plan_payment_insufficient example_view example_coins [example_out 110_000] 2 1 None need have
    ltac:(lia) ltac:(repeat constructor; done) I E) as (Hh & Hlt & _).
  exists need, have. exact (conj E (conj Hh Hlt)).
Defined.

Lemma plan_payment_fee_inclusive_sound_witness :
  ∃ p v' r f, plan_payment example_view example_coins [example_out 80_000] 2 1 (Some example_fee) true
    = Ok (p, v') ∧ 80_000 = r + 800 + f ∧ fee p = f.
Proof.
  destruct example_inclusive as (p & v' & E & Hc & _).
  destruct (plan_payment_fee_inclusive_sound example_view example_coins [example_out 80_000] 2 1
    (Some example_fee) p v' ltac:(lia) (example_op_returns 80_000) E)
    as (i & r & f & a & _ & _ & _ & _ & _ & Hr & _ & Hf).
  exists p, v', r, f. split_and!; [exact E|exact Hr|apply Hf; rewrite Hc; discriminate].
Defined.

Lemma plan_sweep_sound_witness :
  ∃ p, plan_sweep example_view example_coins [x52] 2 1 (Some example_fee) = Ok p ∧
    sumZ u_value (selected p) = sumZ value (output (tx p)) + fee p ∧ service_fee p = Some 1_100.
Proof.
  destruct example_sweep as (p & E & Hs).
  destruct (plan_sweep_sound example_view example_coins [x52] 2 1 (Some example_fee) p E)
    as (_ & _ & _ & _ & Hb & _).
  exists p. exact (conj E (conj Hb Hs)).
Defined.

Lemma service_fee_capped_witness :
  ∃ p v', plan_payment example_view example_coins [example_out 80_000] 2 1 (Some example_fee) true
    = Ok (p, v') ∧ service_fee p = Some 800 ∧ 800 ≤ Z.max (80_000 / 100) (Z.max 2_000 294).
Proof.
  destruct example_inclusive as (p & v' & E & _ & Hs).
  pose proof (service_fee_capped example_view example_coins [example_out 80_000] 2 1 example_fee true p v' 800
    ltac:(lia) (example_op_returns 80_000) ltac:(repeat constructor; done) ltac:(done) E Hs) as Hc.
  exists p, v'. exact (conj E (conj Hs Hc)).
Defined.

Lemma plan_htlc_funding_found_witness :
  ∃ p v', plan_htlc_funding example_view [example_utxo x01 400_000 3] example_contract 2 1 = Ok (p, v') ∧
    find_exact_output example_contract (tx p) (c_value example_contract) = Some 0.
Proof.
  destruct example_funding as (p & v' & E).
  destruct (plan_htlc_funding_found example_view [example_utxo x01 400_000 3] example_contract 2 1 p v'
    ltac:(lia) E) as [Hf _].
  exists p, v'. exact (conj E Hf).
Defined.
