(* ===== verification/Swap.v ===== *)
(** The client side of the swap protocol ([wallet-core/src/swap.rs], the swap
    key of [keys.rs]): the parameters both phones derive from the terms, the
    machine one phone keeps, and the spends it signs. *)

From S2P Require Import Prelude Chain Bitcoin Script Toy SwapTerms Sighash Htlc.

(** secp256k1 and HMAC are the library's: secret keys, their public keys, DER
    signatures over a 32-byte digest, HMAC-SHA256. *)
Class KeyLib : Type := {
  SecretKey : Type;
  secret_from_slice : bytes → string + SecretKey;
  public_key : SecretKey → bytes;
  sign_der : bytes → SecretKey → bytes;
  secret_bytes : SecretKey → bytes;
  hmac_sha256 : bytes → bytes → bytes;
}.

(** What signing promises: a signature decodes and verifies under its own
    key, and the serialized public key reads back. *)
Class KeyLaws `{BitcoinLib, KeyLib} : Prop := {
  sign_verifies msg k : ∃ s, signature_from_der (sign_der msg k) = Some s ∧
                             verify_ecdsa msg s (public_key k) = true;
  public_key_reads k : pubkey_from_slice (public_key k) = Some (public_key k);
}.

(** The hex forms read back. *)
Class HexLaws `{BitcoinLib} : Prop := {
  hex_decode_encode b : hex_decode (hex_encode b) = Some b;
  deserialize_serialize tx : input tx ≠ [] → deserialize_hex (serialize_hex tx) = Some tx;
}.

(** ** Swap keys *)
Section keys.
Context `{BitcoinLib, KeyLib}.

Record SwapKey : Type := { secret : SecretKey; k_flag : Z }.

Definition sighash_flag (params : ChainParams) : Z :=
  if require_unified_sighash params then 0x21 else 0x01.

Definition from_secret (params : ChainParams) (s : bytes) : Result SwapKey :=
  match secret_from_slice s with
  | inr k => Ok {| secret := k; k_flag := sighash_flag params |}
  | inl e => Err (InvalidInput ("swap secret: " +:+ e))
  end.

Definition pubkey (k : SwapKey) : bytes := public_key (secret k).

Definition sign (k : SwapKey) (msg : bytes) : bytes :=
  sign_der msg (secret k) ++ [byte_of_Z (k_flag k)].

Definition PREIMAGE_TAG : bytes := String.list_byte_of_string "fortis-swap-preimage-v2".

(** [u32::to_be_bytes]; the [as u32] cast keeps the low 32 bits. *)
Definition u32_to_be_bytes (n : Z) : bytes := rev (le_bytes 4 n).

Definition preimage_input (match_id nonce : bytes) : bytes :=
  PREIMAGE_TAG ++ u32_to_be_bytes (Z.of_nat (length match_id) mod 2^32) ++ match_id ++ nonce.

Definition preimage (k : SwapKey) (match_id nonce : bytes) : bytes :=
  hmac_sha256 (secret_bytes (secret k)) (preimage_input match_id nonce).

End keys.

(** ** The machine *)
Record SwapParams : Type := {
  swap_id : bytes;
  p_role : SwapRole;
  send_chain : Chain;
  recv_chain : Chain;
  send_amount : Z;
  recv_amount : Z;
  p_hashlock : bytes;
  our_pubkey_send : bytes;
  their_pubkey_send : bytes;
  our_pubkey_recv : bytes;
  their_pubkey_recv : bytes;
  our_contract_locktime : Z;
  their_contract_locktime : Z;
  required_incoming_confs : Z;
  p_contract_version : Z;
}.

Inductive SwapState : Type :=
| Negotiated
| OurFundingBroadcast (tx : bytes)
| CounterpartyFundingConfirmed
| Redeemed (preimage : bytes)
| Settled
| Refunded
| Failed (reason : string).

#[export] Instance SwapState_eq_dec : EqDecision SwapState.
Proof. solve_decision. Defined.

Record UnsignedSpend : Type := { us_tx : Transaction; us_sighash : bytes }.

Inductive SwapEvent : Type :=
| EvOurFundingBroadcast (tx : bytes)
| EvCounterpartyFunded (confirmations : Z)
| EvCounterpartyRedeemed (preimage : bytes)
| EvOurOutputConfirmed (confirmations : Z)
| EvTimelockExpired.

Record SwapMachine : Type := {
  m_params : SwapParams;
  m_state : SwapState;
  our_contract : option HtlcContract;
  their_contract : option HtlcContract;
  our_outpoint : option OutPoint;
  their_outpoint : option OutPoint;
}.

Record PresignedRedeem : Type := {
  tx_hex : string;
  sig_hex : string;
  pubkey_hex : string;
  witness_script_hex : string;
}.

Definition machine_new (p : SwapParams) : SwapMachine := {|
  m_params := p; m_state := Negotiated; our_contract := None; their_contract := None;
  our_outpoint := None; their_outpoint := None |}.

Definition with_our_contract (m : SwapMachine) (c : HtlcContract) : SwapMachine := {|
  m_params := m_params m; m_state := m_state m; our_contract := Some c;
  their_contract := their_contract m; our_outpoint := our_outpoint m;
  their_outpoint := their_outpoint m |}.

Definition with_their_contract (m : SwapMachine) (c : HtlcContract) : SwapMachine := {|
  m_params := m_params m; m_state := m_state m; our_contract := our_contract m;
  their_contract := Some c; our_outpoint := our_outpoint m;
  their_outpoint := their_outpoint m |}.

Definition set_our_outpoint (m : SwapMachine) (o : OutPoint) : SwapMachine := {|
  m_params := m_params m; m_state := m_state m; our_contract := our_contract m;
  their_contract := their_contract m; our_outpoint := Some o;
  their_outpoint := their_outpoint m |}.

Definition set_their_outpoint (m : SwapMachine) (o : OutPoint) : SwapMachine := {|
  m_params := m_params m; m_state := m_state m; our_contract := our_contract m;
  their_contract := their_contract m; our_outpoint := our_outpoint m;
  their_outpoint := Some o |}.

Definition with_state (m : SwapMachine) (s : SwapState) : SwapMachine := {|
  m_params := m_params m; m_state := s; our_contract := our_contract m;
  their_contract := their_contract m; our_outpoint := our_outpoint m;
  their_outpoint := their_outpoint m |}.

Definition MAX_SWAP_FEERATE_SAT_VB : Z := 500.

Section swap.
Context `{BitcoinLib, KeyLib}.

Definition build_our_contract (m : SwapMachine) (send_params : ChainParams) :
    Result (HtlcContract * SwapMachine) :=
  let p := m_params m in
  c ← try_build send_params (p_contract_version p) (p_hashlock p) (their_pubkey_send p)
        (our_pubkey_send p) (our_contract_locktime p) (send_amount p);
  mret (c, with_our_contract m c).

(** Panics on a contract version this build does not know. *)
Definition expected_their_contract (m : SwapMachine) (recv_params : ChainParams) : Result HtlcContract :=
  let p := m_params m in
  build recv_params (p_contract_version p) (p_hashlock p) (our_pubkey_recv p)
    (their_pubkey_recv p) (their_contract_locktime p) (recv_amount p).

Definition verify_their_contract (m : SwapMachine) (funding_tx : bytes) (recv_params : ChainParams) :
    Result (OutPoint * SwapMachine) :=
  expected ← expected_their_contract m recv_params;
  tx ← match consensus_deserialize funding_tx with
       | inr tx => Ok tx
       | inl e => Err (BitcoinErr ("funding tx decode: " +:+ e))
       end;
  v ← ok_or (find_exact_output expected tx (recv_amount (m_params m))) ContractMismatch;
  mret ({| txid := compute_txid tx; vout := v |}, with_their_contract m expected).

Definition verify_their_output (m : SwapMachine) (spk : bytes) (v : Z) (recv_params : ChainParams) :
    Result SwapMachine :=
  expected ← expected_their_contract m recv_params;
  _ ← bail_if (bool_decide (spk ≠ c_script_pubkey expected) || negb (v =? recv_amount (m_params m)))
        ContractMismatch;
  mret (with_their_contract m expected).

Definition our_contract_built (m : SwapMachine) : Result HtlcContract :=
  ok_or (our_contract m) (SwapStateErr "our contract built" "none").

Definition their_contract_verified (m : SwapMachine) : Result HtlcContract :=
  ok_or (their_contract m) (SwapStateErr "their contract verified" "none").

Definition build_refund (m : SwapMachine) (o : OutPoint) (to : bytes) (fee : Z) : Result UnsignedSpend :=
  c ← our_contract_built m;
  tx ← refund_tx c o to fee;
  sh ← spend_sighash c tx 0;
  mret {| us_tx := tx; us_sighash := sh |}.

Definition build_redeem (m : SwapMachine) (o : OutPoint) (to : bytes) (fee : Z) : Result UnsignedSpend :=
  c ← their_contract_verified m;
  tx ← redeem_tx c o to fee;
  sh ← spend_sighash c tx 0;
  mret {| us_tx := tx; us_sighash := sh |}.

Definition finalize_our_refund (m : SwapMachine) (tx : Transaction) (sig pk : bytes) : Result Transaction :=
  c ← our_contract_built m;
  finalize_refund c tx 0 sig pk.

Definition finalize_their_redeem (m : SwapMachine) (tx : Transaction) (sig pk pre : bytes) :
    Result Transaction :=
  c ← their_contract_verified m;
  finalize_redeem c tx 0 sig pk pre.

Definition check_key (key : SwapKey) (expected : bytes) (c : HtlcContract) : Result unit :=
  let flag := match sighash_variant c with SegwitV0 => 0x01 | Unified => 0x21 end in
  bail_if (bool_decide (pubkey key ≠ expected) || negb (k_flag key =? flag))
    (InvalidSwapParams "swap key does not match contract").

(** The loop of [spend_fees].  The [ok_or] error is built before the check, so
    its [Amount] sum can panic. *)
Fixpoint spend_fees_loop (c : HtlcContract) (path : HtlcPath) (dust : Z) (feerates fees : list Z) :
    Result (list Z) :=
  match feerates with
  | [] => mret fees
  | rate :: feerates =>
      fee ← htlc_spend_fee c path (Z.min rate MAX_SWAP_FEERATE_SAT_VB);
      need ← amount_add fee dust;
      max_fee ← ok_or (m ← checked_sub (c_value c) dust; if 0 <? m then Some m else None)
                  (InsufficientFunds need (c_value c));
      let fee := Z.min fee max_fee in
      spend_fees_loop c path dust feerates (if decide (fee ∈ fees) then fees else fees ++ [fee])
  end.

Definition spend_fees (c : HtlcContract) (path : HtlcPath) (to : bytes) (feerates : list Z) :
    Result (list Z) :=
  _ ← bail_if (bool_decide (feerates = [])) (InvalidInput "no feerates given");
  spend_fees_loop c path (minimal_non_dust to) feerates [].

Definition signed_refund (m : SwapMachine) (o : OutPoint) (to : bytes) (key : SwapKey)
    (feerates : list Z) : Result (list Transaction) :=
  c ← our_contract_built m;
  _ ← check_key key (our_pubkey_send (m_params m)) c;
  fees ← spend_fees c Refund to feerates;
  collect (λ fee,
    tx ← refund_tx c o to fee;
    sh ← spend_sighash c tx 0;
    finalize_refund c tx 0 (sign key sh) (pubkey key)) fees.

(** [bad(what)] *)
Definition bad (what : string) : WalletError := InvalidInput ("presigned redeem: bad " +:+ what).

Definition finish_presigned_redeem (p : PresignedRedeem) (pre : bytes) : Result Transaction :=
  tx ← ok_or (deserialize_hex (tx_hex p)) (bad "tx");
  sig ← ok_or (hex_decode (sig_hex p)) (bad "signature");
  pk ← ok_or (b ← hex_decode (pubkey_hex p); pubkey_from_slice b) (bad "pubkey");
  ws ← ok_or (hex_decode (witness_script_hex p)) (bad "witness script");
  _ ← bail_if (negb (Nat.eqb (length (input tx)) 1)) (bad "tx (expected one input)");
  _ ← bail_if (bool_decide (script_hashlock ws ≠ Some (sha256 pre)))
        (InvalidInput "preimage does not match hashlock");
  set_witness tx 0 (redeem_witness sig pk pre ws).

Definition presign_redeem (m : SwapMachine) (o : OutPoint) (to : bytes) (key : SwapKey)
    (feerates : list Z) : Result (list PresignedRedeem) :=
  c ← their_contract_verified m;
  _ ← check_key key (our_pubkey_recv (m_params m)) c;
  fees ← spend_fees c Redeem to feerates;
  collect (λ fee,
    tx ← redeem_tx c o to fee;
    sh ← spend_sighash c tx 0;
    mret {| tx_hex := serialize_hex tx;
            sig_hex := hex_encode (sign key sh);
            pubkey_hex := hex_encode (pubkey key);
            witness_script_hex := hex_encode (witness_script c) |}) fees.

Definition signed_redeem (m : SwapMachine) (o : OutPoint) (to : bytes) (key : SwapKey) (pre : bytes)
    (feerates : list Z) : Result (list Transaction) :=
  _ ← bail_if (bool_decide (sha256 pre ≠ p_hashlock (m_params m)))
        (InvalidInput "preimage does not match hashlock");
  ps ← presign_redeem m o to key feerates;
  collect (λ p, finish_presigned_redeem p pre) ps.

Definition release_txs (m : SwapMachine) (o : OutPoint) (to : bytes) (feerates : list Z) :
    Result (list Transaction) :=
  c ← our_contract_built m;
  _ ← bail_if (negb (has_release c)) (InvalidSwapParams "this swap's contract has no release");
  fees ← spend_fees c Release to feerates;
  collect (λ fee, release_tx c o to fee) fees.

Definition sign_their_release (m : SwapMachine) (tx : Transaction) (o : OutPoint) (key : SwapKey)
    (recv_params : ChainParams) : Result bytes :=
  c ← expected_their_contract m recv_params;
  _ ← bail_if (negb (has_release c)) (InvalidSwapParams "this swap's contract has no release");
  _ ← check_key key (our_pubkey_recv (m_params m)) c;
  match input tx with
  | [inp] =>
      _ ← bail_if (bool_decide (previous_output inp ≠ o))
            (InvalidInput "the release doesn't spend their contract");
      sh ← spend_sighash c tx 0;
      mret (sign key sh)
  | _ => Err (InvalidInput "a release spends exactly one input")
  end.

(** [same_shape]: what a release we complete must share with our own. *)
Definition same_shape (tx ours : Transaction) (o : OutPoint) (to : bytes) : bool :=
  match input tx, input ours with
  | [inp], our_inp :: _ =>
      bool_decide (previous_output inp = o) &&
      (lock_time tx =? lock_time ours) &&
      (sequence inp =? sequence our_inp) &&
      Nat.eqb (length (output tx)) (length (output ours)) &&
      bool_decide (script_pubkey <$> head (output tx) = Some to) &&
      bool_decide (tail (output tx) = tail (output ours))
  | _, _ => false
  end.

(** [their_sig.last() == Some(&flag)] and the DER signature before it verifies. *)
Definition release_sig_verified (their_sig : bytes) (flag : Z) (msg pk : bytes) : bool :=
  bool_decide (last their_sig = Some (byte_of_Z flag)) &&
  match signature_from_der (take (length their_sig - 1) their_sig) with
  | Some s => verify_ecdsa msg s pk
  | None => false
  end.

Definition finish_release (m : SwapMachine) (tx : Transaction) (o : OutPoint) (to their_sig : bytes)
    (key : SwapKey) : Result Transaction :=
  c ← our_contract_built m;
  _ ← check_key key (our_pubkey_send (m_params m)) c;
  max_fee ← htlc_spend_fee c Release MAX_SWAP_FEERATE_SAT_VB;
  ours ← release_tx c o to 0;
  let paid := from_option value 0 (head (output tx)) in
  _ ← (if negb (same_shape tx ours o to) then Err (InvalidInput "not our release")
       else s ← amount_add paid max_fee; bail_if (s <? c_value c) (InvalidInput "not our release"));
  msg ← spend_sighash c tx 0;
  _ ← bail_if (negb (release_sig_verified their_sig (k_flag key) msg (their_pubkey_send (m_params m))))
        (InvalidInput "the counterparty's release signature doesn't verify");
  finalize_release c tx 0 their_sig (sign key msg).

End swap.

Definition on_event (m : SwapMachine) (event : SwapEvent) : SwapMachine :=
  with_state m
    match m_state m, event with
    | Negotiated, EvOurFundingBroadcast tx => OurFundingBroadcast tx
    | s, EvCounterpartyFunded confirmations =>
        if required_incoming_confs (m_params m) <=? confirmations
        then CounterpartyFundingConfirmed else s
    | _, EvCounterpartyRedeemed pre => Redeemed pre
    | Redeemed pre, EvOurOutputConfirmed confirmations =>
        if required_incoming_confs (m_params m) <=? confirmations then Settled else Redeemed pre
    | OurFundingBroadcast tx, EvTimelockExpired => Refunded
    | other, _ => other
    end.

Definition params_from_terms (t : SwapTerms) (role : SwapRole) (ours theirs : bytes * bytes)
    (h sid : bytes) : SwapParams :=
  let '(our_xbt, our_btc) := ours in
  let '(their_xbt, their_btc) := theirs in
  match role with
  | Initiator => {|
      swap_id := sid; p_role := role;
      send_chain := Xbt; recv_chain := Btc;
      send_amount := xbt_sat t; recv_amount := btc_sat t; p_hashlock := h;
      our_pubkey_send := our_xbt; their_pubkey_send := their_xbt;
      our_pubkey_recv := our_btc; their_pubkey_recv := their_btc;
      our_contract_locktime := xbt_locktime t; their_contract_locktime := btc_locktime t;
      required_incoming_confs := btc_confs t; p_contract_version := contract_version t |}
  | Participant => {|
      swap_id := sid; p_role := role;
      send_chain := Btc; recv_chain := Xbt;
      send_amount := btc_sat t; recv_amount := xbt_sat t; p_hashlock := h;
      our_pubkey_send := our_btc; their_pubkey_send := their_btc;
      our_pubkey_recv := our_xbt; their_pubkey_recv := their_xbt;
      our_contract_locktime := btc_locktime t; their_contract_locktime := xbt_locktime t;
      required_incoming_confs := xbt_confs t; p_contract_version := contract_version t |}
  end.

(** ** Agreement of the two phones *)
Definition other_role (r : SwapRole) : SwapRole :=
  match r with Initiator => Participant | Participant => Initiator end.

(** One phone's machine for the terms [t]. *)
Definition phone (t : SwapTerms) (r : SwapRole) (ours theirs : bytes * bytes) (h sid : bytes) : SwapMachine :=
  machine_new (params_from_terms t r ours theirs h sid).

Section agreement.
Context `{BitcoinLib}.

(** The contract of leg [r] (funded by the party in role [r]) that the terms
    and the two parties' keys determine. *)
Definition leg_contract (t : SwapTerms) (r : SwapRole) (initiator participant : bytes * bytes)
    (h : bytes) (params : ChainParams) : Result HtlcContract :=
  match r with
  | Initiator => try_build params (contract_version t) h (fst participant) (fst initiator)
                   (xbt_locktime t) (xbt_sat t)
  | Participant => try_build params (contract_version t) h (snd initiator) (snd participant)
                     (btc_locktime t) (btc_sat t)
  end.

Lemma our_leg t r ours theirs h sid params :
  let keys := match r with Initiator => (ours, theirs) | Participant => (theirs, ours) end in
  build_our_contract (phone t r ours theirs h sid) params =
  (c ← leg_contract t r (fst keys) (snd keys) h params;
   mret (c, with_our_contract (phone t r ours theirs h sid) c)).
Proof. destruct ours, theirs, r; done. Qed.

Lemma their_leg t r ours theirs h sid params :
  let keys := match r with Initiator => (ours, theirs) | Participant => (theirs, ours) end in
  expected_their_contract (phone t r ours theirs h sid) params =
  expect (to_option (leg_contract t (other_role r) (fst keys) (snd keys) h params)).
Proof. destruct ours, theirs, r; done. Qed.

Lemma agreed_contract t r ours theirs h sid sid' params c m' :
  build_our_contract (phone t r ours theirs h sid) params = Ok (c, m') →
  m' = with_our_contract (phone t r ours theirs h sid) c ∧
  expected_their_contract (phone t (other_role r) theirs ours h sid') params = Ok c.
Proof.
  rewrite our_leg, their_leg. intros (c' & Hc & [= -> <-])%bind_Ok. split; [done|].
  destruct r; simpl in *; by rewrite Hc.
Qed.

(** The agreed value is the contract's. *)
Lemma recv_amount_agreed t r ours theirs h sid sid' params c m' :
  build_our_contract (phone t r ours theirs h sid) params = Ok (c, m') →
  recv_amount (m_params (phone t (other_role r) theirs ours h sid')) = c_value c.
Proof.
  rewrite our_leg. intros (c' & Hc & [= -> <-])%bind_Ok.
  destruct ours, theirs, r; simpl in *; by apply try_build_Ok in Hc as (_ & ->).
Qed.

(** C5. Both phones build byte-identical contracts from the same terms: the
    contract one funds is the one the other expects; the other accepts a
    reported output exactly when it is that contract's script with that
    contract's value; and it finds the contract in any funding transaction
    that has that output, in at most 2^32 outputs. *)
Theorem contracts_agree t r ours theirs h sid sid' params c m' :
  build_our_contract (phone t r ours theirs h sid) params = Ok (c, m') →
  let other := phone t (other_role r) theirs ours h sid' in
  expected_their_contract other params = Ok c ∧
  (∀ spk v, verify_their_output other spk v params =
     if decide (spk = c_script_pubkey c ∧ v = c_value c) then Ok (with_their_contract other c)
     else Err ContractMismatch) ∧
  (∀ raw tx, consensus_deserialize raw = inr tx → Z.of_nat (length (output tx)) ≤ 2^32 →
     funding_output c ∈ output tx →
     ∃ i, output tx !! i = Some (funding_output c) ∧
       verify_their_contract other raw params =
         Ok ({| txid := compute_txid tx; vout := Z.of_nat i |}, with_their_contract other c)).
Proof.
  intros Hb other. destruct (agreed_contract _ _ _ _ _ _ sid' _ _ _ Hb) as [_ He].
  pose proof (recv_amount_agreed _ _ _ _ _ _ sid' _ _ _ Hb) as Ha.
  fold other in He, Ha. clearbody other.
  split_and!; [done| |].
  - intros spk v. unfold verify_their_output. rewrite He. simpl. rewrite Ha.
    destruct (decide (spk = c_script_pubkey c)) as [->|Hne].
    + rewrite bool_decide_false by naive_solver. simpl.
      destruct (v =? c_value c) eqn:Hv; zbool; [by rewrite decide_True by done|].
      by rewrite decide_False by naive_solver.
    + rewrite bool_decide_true by done. by rewrite decide_False by naive_solver.
  - intros raw tx Htx Hlen Hin. unfold verify_their_contract. rewrite He, Htx. simpl. rewrite Ha.
    unfold find_exact_output.
    destruct (list_find_elem_of (λ o, script_pubkey o = c_script_pubkey c ∧ value o = c_value c)
      _ _ Hin ltac:(done)) as [[i o] Hf].
    rewrite Hf. simpl. apply list_find_Some in Hf as (Hi & [Hs Hv] & _). exists i.
    apply lookup_lt_Some in Hi as Hlt. unfold index_u32. rewrite Z.mod_small by lia.
    split; [|done]. rewrite Hi. destruct o; simpl in *. by subst.
Qed.

End agreement.

(** ** Atomicity across the two chains

    The two legs are spent on two chains: each has its own spending context
    and evaluator. *)
Section atomic.
Context `{BL : BitcoinLib}.
Context (btc_ctx xbt_ctx : SpendContext).
Context (btc_laws : @SpendLaws BL btc_ctx) (xbt_laws : @SpendLaws BL xbt_ctx).
Context (btc_exec xbt_exec : list BuilderPush → list bool → list bytes → option (list bytes)).
Context (btc_vm : @ScriptVM BL btc_ctx btc_exec) (xbt_vm : @ScriptVM BL xbt_ctx xbt_exec).

(** C6. The participant cannot lose its bitcoin for nothing: whoever spends
    the participant's BTC leg without a signature of the participant's key
    publishes, in that spend's witness, a preimage that
    [preimage_from_witness] finds and that, with the participant's signature,
    opens the initiator's XBT leg. *)
Theorem swap_atomic t initiator participant h sid sid' btc xbt cb mb cx mx w sig :
  build_our_contract (phone t Participant participant initiator h sid) btc = Ok (cb, mb) →
  build_our_contract (phone t Initiator initiator participant h sid') xbt = Ok (cx, mx) →
  @p2wsh_valid BL btc_ctx btc_exec
    (pushes_of (contract_version t) h (snd initiator) (snd participant) (btc_locktime t)) w →
  (∀ s pk, s ∈ w → hash160 pk = hash160 (snd participant) → @check_sig btc_ctx s pk = false) →
  @check_sig xbt_ctx sig (fst participant) = true →
  ∃ p, preimage_from_witness w (hashlock cb) = Some p ∧
    @p2wsh_valid BL xbt_ctx xbt_exec
      (pushes_of (contract_version t) h (fst participant) (fst initiator) (xbt_locktime t))
      (redeem_witness sig (fst participant) p (witness_script cx)).
Proof.
  rewrite !our_leg. simpl. intros (c1 & Hb & [= -> _])%bind_Ok (c2 & Hx & [= -> _])%bind_Ok Hw Hnosig Hsig.
  destruct (@built_spend_reveals BL btc_ctx btc_laws btc_exec btc_vm
    _ _ _ _ _ _ _ _ _ Hb Hw)
    as [(p & Hp & Hh & Hl)|[(_ & s & pk & Hs & _ & Hpk & Hc)|(_ & s & s' & Hs & _ & Hc & _)]].
  - exists p. split; [done|]. eapply (@built_witnesses_open BL xbt_ctx xbt_laws xbt_exec xbt_vm
      _ _ _ _ _ _ _ _ sig sig sig p Hx); [done|done|].
    apply try_build_Ok in Hb as (_ & ->), Hx as (_ & ->). done.
  - by rewrite (Hnosig s pk Hs Hpk) in Hc.
  - by rewrite (Hnosig s (snd participant) Hs eq_refl) in Hc.
Qed.

End atomic.

(** ** Fees of the spends *)
Section fees.
Context `{BitcoinLib}.

(** The fee the code signs at [rate]: the rate capped at 500 sat/vB, the fee
    capped so that the payout keeps [dust]. *)
Definition clamped_fee (c : HtlcContract) (path : HtlcPath) (dust rate : Z) : option Z :=
  (λ fee, Z.min fee (c_value c - dust)) <$>
    to_option (htlc_spend_fee c path (Z.min rate MAX_SWAP_FEERATE_SAT_VB)).

Lemma max_fee_Ok (v dust need have m : Z) :
  ok_or (m ← checked_sub v dust; if 0 <? m then Some m else None) (InsufficientFunds need have) = Ok m ↔
  m = v - dust ∧ dust < v.
Proof.
  unfold checked_sub. destruct (dust <=? v) eqn:E; simpl.
  - destruct (0 <? v - dust) eqn:E2; simpl; zbool; split; [intros [= <-]; lia|intros [-> _]; done|done|lia].
  - zbool. split; [done|lia].
Qed.

Lemma spend_fees_loop_Ok c path dust rates acc fees :
  spend_fees_loop c path dust rates acc = Ok fees → NoDup acc →
  NoDup fees ∧ (rates ≠ [] → dust < c_value c) ∧
  ∀ f, f ∈ fees ↔ f ∈ acc ∨ ∃ r, r ∈ rates ∧ clamped_fee c path dust r = Some f.
Proof.
  revert acc. induction rates as [|r rates IH]; intros acc E Hnd; simpl in E.
  - injection E as <-. split_and!; [done|done|]. intros f. set_solver.
  - apply bind_Ok in E as (full & Hfull & E). apply bind_Ok in E as (need & _ & E).
    apply bind_Ok in E as (m & [-> Hlt]%max_fee_Ok & E).
    assert (Hcl : clamped_fee c path dust r = Some (Z.min full (c_value c - dust))).
    { unfold clamped_fee. by rewrite Hfull. }
    apply IH in E as (Hnd' & _ & Hin); [|case_decide; [done|]; apply NoDup_app; split_and!;
      [done|set_solver|apply NoDup_singleton]].
    split_and!; [done|done|]. intros f. rewrite Hin. case_decide as Hd.
    + split; [intros [?|(r' & ? & ?)]; [by left|right; exists r'; set_solver]|].
      intros [?|(r' & Hr & Hf)]; [by left|]. apply elem_of_cons in Hr as [->|Hr]; [|by eauto].
      left. by simplify_eq.
    + rewrite elem_of_app, list_elem_of_singleton. split.
      * intros [[?| ->]|(r' & ? & ?)]; [by left|right; exists r; set_solver|right; exists r'; set_solver].
      * intros [?|(r' & Hr & Hf)]; [by auto|]. apply elem_of_cons in Hr as [->|Hr]; [|by eauto].
        left; right. by simplify_eq.
Qed.

Lemma spend_fees_Ok c path to rates fees :
  spend_fees c path to rates = Ok fees →
  let dust := minimal_non_dust to in
  NoDup fees ∧ fees ≠ [] ∧ dust < c_value c ∧
  (∀ f, f ∈ fees ↔ ∃ r, r ∈ rates ∧ clamped_fee c path dust r = Some f).
Proof.
  unfold spend_fees. intros (? & Hne%bail_if_Ok%bool_decide_eq_false & E)%bind_Ok.
  destruct rates as [|r rates]; [done|].
  apply (spend_fees_loop_Ok _ _ _ (r :: rates)) in E as E'; [|constructor]. destruct E' as (? & Hd & Hin).
  simpl. split_and!; [done| |by apply Hd|by intros f; rewrite Hin; set_solver].
  simpl in E. apply bind_Ok in E as (full & Hf & _). intros ->.
  destruct (not_elem_of_nil (Z.min full (c_value c - minimal_non_dust to))).
  apply Hin. right. exists r. split; [by left|]. unfold clamped_fee. by rewrite Hf.
Qed.

Lemma spend_fees_loop_defined c path dust rates acc :
  dust < c_value c →
  Forall (λ r, ∃ f, htlc_spend_fee c path (Z.min r MAX_SWAP_FEERATE_SAT_VB) = Ok f ∧ f + dust ≤ u64_max) rates →
  ∃ fees, spend_fees_loop c path dust rates acc = Ok fees.
Proof.
  intros Hd Hr. revert acc. induction Hr as [|r rates (f & Hf & Hov) _ IH]; intros acc; simpl; [by eauto|].
  rewrite Hf. simpl. unfold amount_add, checked_add. rewrite (proj2 (Z.leb_le _ _) Hov). simpl.
  rewrite (proj2 (max_fee_Ok _ _ _ _ (c_value c - dust)) ltac:(done)). apply IH.
Qed.

(** The fees the wallet signs spends at: never empty, without
    duplicates, exactly the clamped fee of each rate given (rates above
    500 sat/vB count as 500), so every spend leaves its payout at or above the
    dust limit of the payout address.  And signing is possible whenever the
    contract is worth more than that limit. *)
Theorem spend_fees_spec c path to rates :
  let dust := minimal_non_dust to in
  (∀ fees, spend_fees c path to rates = Ok fees →
     NoDup fees ∧ fees ≠ [] ∧
     (∀ f, f ∈ fees ↔ ∃ r, r ∈ rates ∧ clamped_fee c path dust r = Some f) ∧
     Forall (λ f, dust ≤ c_value c - f) fees) ∧
  (rates ≠ [] → dust < c_value c →
   Forall (λ r, ∃ f, htlc_spend_fee c path (Z.min r MAX_SWAP_FEERATE_SAT_VB) = Ok f ∧
                     f + dust ≤ u64_max) rates →
   ∃ fees, spend_fees c path to rates = Ok fees).
Proof.
  simpl. split.
  - intros fees (Hnd & Hne & Hd & Hin)%spend_fees_Ok. split_and!; try done.
    apply Forall_forall. intros f (r & _ & Hf)%Hin. unfold clamped_fee in Hf.
    apply fmap_Some in Hf as (x & _ & ->). lia.
  - intros Hne Hd Hr. unfold spend_fees. rewrite bool_decide_false by done. simpl.
    by apply spend_fees_loop_defined.
Qed.

End fees.

(** ** Redeems signed ahead of time *)
Section signing.
Context `{BitcoinLib, KeyLib}.

Lemma check_key_Ok key pk c u :
  check_key key pk c = Ok u →
  pubkey key = pk ∧ k_flag key = match sighash_variant c with SegwitV0 => 0x01 | Unified => 0x21 end.
Proof.
  unfold check_key. intros [Hp Hf]%bail_if_Ok%orb_false_iff.
  apply bool_decide_eq_false, dec_stable in Hp. apply negb_false_iff in Hf. zbool. done.
Qed.

Lemma verified_contract m spk v params m' :
  verify_their_output m spk v params = Ok m' →
  ∃ c rk fk, their_contract m' = Some c ∧ m_params m' = m_params m ∧ spk = c_script_pubkey c ∧ v = c_value c ∧
    hashlock c = p_hashlock (m_params m) ∧ rk = our_pubkey_recv (m_params m) ∧
    try_build params (p_contract_version (m_params m)) (p_hashlock (m_params m)) rk fk
      (their_contract_locktime (m_params m)) (recv_amount (m_params m)) = Ok c.
Proof.
  unfold verify_their_output, expected_their_contract, build.
  intros (c & Hc%expect_Ok & E)%bind_Ok. apply bind_Ok in E as (? & Hb%bail_if_Ok & [= <-]).
  apply orb_false_iff in Hb as [Hs%bool_decide_eq_false%dec_stable Hv%negb_false_iff]. zbool.
  destruct (try_build _ _ _ _ _ _ _) as [c'| |] eqn:Hb in Hc; [|done..]. injection Hc as ->.
  exists c, (our_pubkey_recv (m_params m)), (their_pubkey_recv (m_params m)).
  simpl. apply try_build_Ok in Hb as Hb'. destruct Hb' as (_ & ->). auto 10.
Qed.

Lemma redeem_tx_input c o to fee tx :
  redeem_tx c o to fee = Ok tx → ∃ inp, input tx = [inp] ∧ previous_output inp = o.
Proof. intros (_ & _ & Hin & _)%spend_skeleton_Ok. rewrite Hin. eexists. done. Qed.

Context `{!KeyLaws, !HexLaws, !SerLaws, !ScriptCodec}.

(** Finishing one presigned redeem. *)
Lemma finish_presigned c o to fee tx sh key pre :
  redeem_tx c o to fee = Ok tx →
  finish_presigned_redeem
    {| tx_hex := serialize_hex tx; sig_hex := hex_encode (sign key sh);
       pubkey_hex := hex_encode (pubkey key); witness_script_hex := hex_encode (witness_script c) |} pre =
  if decide (script_hashlock (witness_script c) = Some (sha256 pre))
  then finalize_redeem c tx 0 (sign key sh) (pubkey key) pre
  else Err (InvalidInput "preimage does not match hashlock").
Proof.
  intros (inp & Hin & _)%redeem_tx_input. unfold finish_presigned_redeem. simpl.
  rewrite deserialize_serialize by by rewrite Hin. rewrite !hex_decode_encode. simpl.
  unfold pubkey. rewrite public_key_reads. simpl. rewrite Hin. simpl.
  destruct (decide (script_hashlock (witness_script c) = Some (sha256 pre))) as [E|E].
  - by rewrite bool_decide_false by naive_solver.
  - by rewrite bool_decide_true.
Qed.

Lemma finalize_redeem_defined c tx o to fee sig pk pre :
  redeem_tx c o to fee = Ok tx → ∃ tx', finalize_redeem c tx 0 sig pk pre = Ok tx'.
Proof.
  intros (inp & Hin & _)%redeem_tx_input. unfold finalize_redeem, set_witness. rewrite Hin. simpl. eauto.
Qed.

(** A redeem presigned at some fee that leaves the payout above dust. *)
Definition presigned_at (c : HtlcContract) (o : OutPoint) (to : bytes) (key : SwapKey)
    (p : PresignedRedeem) : Prop :=
  ∃ fee tx sh, redeem_tx c o to fee = Ok tx ∧ spend_sighash c tx 0 = Ok sh ∧
    minimal_non_dust to ≤ c_value c - fee ∧
    p = {| tx_hex := serialize_hex tx; sig_hex := hex_encode (sign key sh);
           pubkey_hex := hex_encode (pubkey key); witness_script_hex := hex_encode (witness_script c) |}.

Lemma presign_redeem_Ok m c o to key rates ps :
  their_contract m = Some c → presign_redeem m o to key rates = Ok ps →
  pubkey key = our_pubkey_recv (m_params m) ∧ Forall (presigned_at c o to key) ps.
Proof.
  intros Hc E. unfold presign_redeem, their_contract_verified in E. rewrite Hc in E. simpl in E.
  apply bind_Ok in E as (? & [Hk _]%check_key_Ok & E). apply bind_Ok in E as (fees & Hfees & E).
  apply spend_fees_Ok in Hfees as (_ & _ & Hd & Hin). split; [done|].
  eapply collect_Forall; [done|]. intros fee p Hfee Ep.
  apply bind_Ok in Ep as (tx & Htx & Ep). apply bind_Ok in Ep as (sh & Hsh & [= <-]).
  exists fee, tx, sh. split_and!; try done.
  apply Hin in Hfee as (r & _ & Hf). unfold clamped_fee in Hf.
  apply fmap_Some in Hf as (full & _ & ->). lia.
Qed.

(** A finished redeem: the redeem of [c] with our signature and [pre]. *)
Definition finished_at (c : HtlcContract) (o : OutPoint) (to pk : bytes) (key : SwapKey) (pre : bytes)
    (tx : Transaction) : Prop :=
  ∃ fee unsigned sh, redeem_tx c o to fee = Ok unsigned ∧ spend_sighash c unsigned 0 = Ok sh ∧
    finalize_redeem c unsigned 0 (sign key sh) pk pre = Ok tx ∧ minimal_non_dust to ≤ c_value c - fee.

Lemma finish_all c o to key pre ps :
  script_hashlock (witness_script c) = Some (sha256 pre) → Forall (presigned_at c o to key) ps →
  ∃ txs, Forall2 (λ p tx, finish_presigned_redeem p pre = Ok tx) ps txs ∧
    Forall (finished_at c o to (pubkey key) key pre) txs.
Proof.
  intros Hl. induction 1 as [|p ps (fee & tx & sh & Htx & Hsh & Hdust & ->) _ (txs & HF & HA)].
  - exists []. split; constructor.
  - destruct (finalize_redeem_defined c tx o to fee (sign key sh) (pubkey key) pre Htx) as [tx' Htx'].
    exists (tx' :: txs). split; constructor; try done; [|by exists fee, tx, sh].
    rewrite (finish_presigned c o to fee) by done. by rewrite decide_True.
Qed.

(** Redeems signed before the preimage is known finish without the key
    once it is, into the very transactions signing directly would give: one
    per presigned redeem, each the redeem of the verified contract with the
    redeem witness of our signature, leaving the payout at or above dust.  A
    wrong preimage finishes none of them. *)
Theorem presigned_redeem_finishes m0 spk v params m o to key rates ps pre :
  verify_their_output m0 spk v params = Ok m →
  presign_redeem m o to key rates = Ok ps →
  sha256 pre = p_hashlock (m_params m) →
  (∃ c txs, their_contract m = Some c ∧
     signed_redeem m o to key pre rates = Ok txs ∧
     Forall2 (λ p tx, finish_presigned_redeem p pre = Ok tx) ps txs ∧
     Forall (finished_at c o to (our_pubkey_recv (m_params m)) key pre) txs) ∧
  (∀ other, sha256 other ≠ p_hashlock (m_params m) →
     Forall (λ p, finish_presigned_redeem p other
                  = Err (InvalidInput "preimage does not match hashlock")) ps).
Proof.
  intros (c & rk & fk & Hc & Hm & _ & _ & _ & _ & Hb)%verified_contract Hps Hpre.
  rewrite <-Hm in Hb.
  assert (Hl : script_hashlock (witness_script c) = Some (p_hashlock (m_params m))).
  { eapply built_hashlock; [|done]. rewrite <-Hpre. apply sha256_length. }
  destruct (presign_redeem_Ok m c o to key rates ps Hc Hps) as [Hk Hall]. split.
  - destruct (finish_all c o to key pre ps) as (txs & HF & HA); [by rewrite Hpre|done|].
    rewrite Hk in HA. exists c, txs. split_and!; try done. unfold signed_redeem.
    rewrite bool_decide_false by naive_solver. simpl. rewrite Hps. simpl. by apply collect_Ok.
  - intros other Ho. eapply Forall_impl; [done|]. intros p (fee & tx & sh & Htx & _ & _ & ->).
    rewrite (finish_presigned c o to fee) by done. by rewrite decide_False by congruence.
Qed.

End signing.

(** ** Cancelling a swap together *)
Section release.
Context `{BitcoinLib, KeyLib}.

Lemma same_shape_spec tx ours o to :
  same_shape tx ours o to = true ↔
  ∃ inp our_inp rest v extra, input tx = [inp] ∧ input ours = our_inp :: rest ∧
    previous_output inp = o ∧ lock_time tx = lock_time ours ∧ sequence inp = sequence our_inp ∧
    length (output tx) = length (output ours) ∧
    output tx = {| value := v; script_pubkey := to |} :: extra ∧ extra = tail (output ours).
Proof.
  unfold same_shape. split.
  - destruct (input tx) as [|inp [|??]]; try done. destruct (input ours) as [|our_inp rest]; [done|].
    intros E. repeat (apply andb_true_iff in E as [E ?]). zbool.
    destruct (output tx) as [|[v spk] extra]; simplify_eq/=.
    exists inp, our_inp, rest, v, (tail (output ours)). by split_and!.
  - intros (inp & our_inp & rest & v & extra & -> & -> & -> & -> & -> & Hl & Ho & Hx).
    rewrite Hl, Ho, Nat.eqb_refl, !Z.eqb_refl. simpl. by rewrite !bool_decide_true by (by rewrite ?Hx).
Qed.

Lemma release_tx_Ok c o to fee tx :
  release_tx c o to fee = Ok tx →
  has_release c = true ∧
  spend_skeleton c o to fee LOCKTIME_ZERO ENABLE_RBF_NO_LOCKTIME = Ok tx.
Proof. unfold release_tx. intros (? & Hr%bail_if_Ok%negb_false_iff & E)%bind_Ok. done. Qed.

Lemma finalize_release_Ok c tx inp rsig fsig done :
  input tx = [inp] → finalize_release c tx 0 rsig fsig = Ok done →
  output done = output tx ∧ lock_time done = lock_time tx ∧
  map previous_output (input done) = [previous_output inp] ∧
  map witness (input done) = [release_witness rsig fsig (witness_script c)].
Proof.
  intros Hin (? & _ & E)%bind_Ok. unfold set_witness in E. rewrite Hin in E. simpl in E.
  by injection E as <-.
Qed.

(** The extra outputs of a spend carry no value. *)
Lemma spend_extra_zero c v to outs :
  spend_outputs c v to = Ok outs → Forall (λ x, value x = 0) (tail outs).
Proof.
  intros (extra & -> & Hx)%spend_outputs_Ok. simpl. destruct (sighash_variant c); [|by subst].
  destruct Hx as (push & _ & ->). by repeat constructor.
Qed.

(** A release we complete gives us our coins back: it spends exactly our
    contract's outpoint, pays our address the contract's value less at most
    the fee at 500 sat/vB, nothing else of value, with no lock time; the
    counterparty's signature on it verified under the key of the contract, and
    its witness is the release witness with both signatures. *)
Theorem finish_release_safe m tx o to their_sig key final :
  finish_release m tx o to their_sig key = Ok final →
  ∃ c max_fee msg amount extra, our_contract m = Some c ∧ has_release c = true ∧
    htlc_spend_fee c Release MAX_SWAP_FEERATE_SAT_VB = Ok max_fee ∧
    map previous_output (input final) = [o] ∧ lock_time final = 0 ∧
    output final = {| value := amount; script_pubkey := to |} :: extra ∧
    c_value c - max_fee ≤ amount ∧ Forall (λ x, value x = 0) extra ∧
    spend_sighash c tx 0 = Ok msg ∧ pubkey key = our_pubkey_send (m_params m) ∧
    release_sig_verified their_sig (k_flag key) msg (their_pubkey_send (m_params m)) = true ∧
    map witness (input final) = [release_witness their_sig (sign key msg) (witness_script c)].
Proof.
  unfold finish_release, our_contract_built. intros (c & Hc%ok_or_Ok & E)%bind_Ok.
  apply bind_Ok in E as (? & [Hk _]%check_key_Ok & E). apply bind_Ok in E as (max_fee & Hmax & E).
  apply bind_Ok in E as (ours & [Hrel Hours]%release_tx_Ok & E).
  apply spend_skeleton_Ok in Hours as (_ & Hlt & _ & Hout). apply spend_extra_zero in Hout as Hzero.
  apply bind_Ok in E as (? & Hpaid & E). destruct (same_shape tx ours o to) eqn:Hs; simpl in Hpaid; [|done].
  apply same_shape_spec in Hs as (inp & oi & rest & v & extra & Hin & _ & Hprev & Hlock & _ & _ & Htx & ->).
  apply bind_Ok in Hpaid as (s & Hs%expect_Ok%checked_add_Some & Hge%bail_if_Ok). zbool.
  apply bind_Ok in E as (msg & Hmsg & E). apply bind_Ok in E as (? & Hsig%bail_if_Ok%negb_false_iff & E).
  apply (finalize_release_Ok _ _ inp) in E as (Ho & Hl & Hp & Hw); [|done].
  exists c, max_fee, msg, v, (tail (output ours)). rewrite Htx in Hs. simpl in Hs.
  split_and!; try congruence; try lia. by rewrite Hl, Hlock, Hlt.
Qed.

Lemma spend_outputs_shift c v v' to outs :
  spend_outputs c v to = Ok outs →
  ∃ outs', spend_outputs c v' to = Ok outs' ∧ length outs' = length outs ∧ tail outs' = tail outs.
Proof.
  unfold spend_outputs, op_return_output. destruct (sighash_variant c); [|intros [= <-]; eauto].
  destruct (push_bytes_try_from REPLAY_GUARD); simpl; [|done]. intros [= <-]. eauto.
Qed.

Lemma release_tx_known c o to txs tx fees :
  collect (λ fee, release_tx c o to fee) fees = Ok txs → tx ∈ txs →
  ∃ fee, fee ∈ fees ∧ release_tx c o to fee = Ok tx.
Proof.
  intros E%collect_Ok (i & Hi)%list_elem_of_lookup_1.
  destruct (Forall2_lookup_r _ _ _ _ _ E Hi) as (fee & Hfee & ?).
  exists fee. eauto using list_elem_of_lookup_2.
Qed.

(** A release at any fee has the shape of the one at no fee, and pays the
    value less its fee. *)
Lemma release_shape c o to fee tx :
  0 ≤ c_value c → release_tx c o to fee = Ok tx →
  ∃ ours, release_tx c o to 0 = Ok ours ∧ same_shape tx ours o to = true ∧
    (∃ inp, input tx = [inp] ∧ previous_output inp = o) ∧
    from_option value 0 (head (output tx)) = c_value c - fee.
Proof.
  intros Hc Htx. pose proof Htx as [Hr (Hfee & Hlt & Hin & Hout)%spend_skeleton_Ok]%release_tx_Ok.
  unfold release_tx. rewrite Hr. simpl. unfold spend_skeleton, checked_sub.
  rewrite (proj2 (Z.leb_le 0 _) Hc). simpl.
  destruct (spend_outputs_shift c (c_value c - fee) (c_value c - 0) to (output tx) Hout) as (outs & Ho & Hl & Htl).
  rewrite Ho. simpl. eexists. split; [done|].
  apply spend_outputs_Ok in Hout as (extra & Hout & _). split_and!.
  - apply same_shape_spec. rewrite Hin, Hout. do 5 eexists. split_and!; simpl; try done.
    + by rewrite Hl, Hout.
    + by rewrite Htl, Hout.
  - rewrite Hin. by eexists.
  - by rewrite Hout.
Qed.

Lemma finalize_release_defined c tx inp rsig fsig :
  has_release c = true → input tx = [inp] → ∃ final, finalize_release c tx 0 rsig fsig = Ok final.
Proof. intros Hr Hin. unfold finalize_release, set_witness. rewrite Hr, Hin. simpl. eauto. Qed.

(** A clamped release fee is at most the fee at the highest rate. *)
Lemma htlc_spend_fee_mono c path r1 r2 f1 :
  (∀ tx, 0 ≤ vsize tx) → r1 ≤ r2 → htlc_spend_fee c path r1 = Ok f1 →
  ∃ f2, htlc_spend_fee c path r2 = Ok f2 ∧ f1 ≤ f2.
Proof.
  unfold htlc_spend_fee. intros Hv Hr (tx & Htx & E)%bind_Ok. apply bind_Ok in E as (tx' & Htx' & [= <-]).
  rewrite Htx. cbn [mbind result_bind]. rewrite Htx'. eexists. split; [done|].
  unfold saturating_mul. pose proof (Hv tx'). nia.
Qed.

Lemma htlc_spend_fee_nonneg c path r f :
  (∀ tx, 0 ≤ vsize tx) → 0 ≤ r → htlc_spend_fee c path r = Ok f → 0 ≤ f.
Proof.
  unfold htlc_spend_fee. intros Hv Hr (tx & Htx & E)%bind_Ok. apply bind_Ok in E as (tx' & Htx' & [= <-]).
  pose proof (Hv tx'). unfold saturating_mul, u64_max. nia.
Qed.

Lemma release_fee_le c to rates fees fee max_fee :
  (∀ tx, 0 ≤ vsize tx) → Forall (Z.le 0) rates → spend_fees c Release to rates = Ok fees → fee ∈ fees →
  htlc_spend_fee c Release MAX_SWAP_FEERATE_SAT_VB = Ok max_fee → 0 ≤ fee ≤ max_fee.
Proof.
  intros Hv Hrates (_ & _ & Hd & Hin)%spend_fees_Ok (r & Hr & Hf)%Hin Hmax. unfold clamped_fee in Hf.
  rewrite Forall_forall in Hrates. specialize (Hrates r Hr).
  apply fmap_Some in Hf as (full & Hfull & ->).
  destruct (htlc_spend_fee c Release (Z.min r _)) as [f| |] eqn:E; [|done..]. injection Hfull as ->.
  pose proof (htlc_spend_fee_nonneg c Release (Z.min r MAX_SWAP_FEERATE_SAT_VB) full Hv
    ltac:(unfold MAX_SWAP_FEERATE_SAT_VB; lia) E).
  eapply (htlc_spend_fee_mono c Release _ MAX_SWAP_FEERATE_SAT_VB) in E as (f2 & Hf2 & Hle); [|done|lia].
  rewrite Hmax in Hf2. injection Hf2 as ->. lia.
Qed.

Context `{!KeyLaws}.

Lemma sign_release_verified key msg flag :
  k_flag key = flag → release_sig_verified (sign key msg) flag msg (pubkey key) = true.
Proof.
  intros <-. unfold release_sig_verified, sign, pubkey. rewrite last_snoc, bool_decide_true by done.
  rewrite length_app. simpl. rewrite Nat.add_sub, take_app_length.
  destruct (sign_verifies msg (secret key)) as (s & -> & ->). done.
Qed.

(** C7. The release handshake works: when both phones hold the same terms,
    each transaction the funder proposes is one the counterparty signs, and
    with that signature the funder completes it.  (The transaction sizes are
    non-negative, its signature hash is defined, and the value plus the
    highest fee fits 64 bits.) *)
Theorem release_handshake t r ours theirs h sid sid' params c m o to rates txs tx msg max_fee our_key their_key :
  (∀ x, 0 ≤ vsize x) → Forall (Z.le 0) rates →
  build_our_contract (phone t r ours theirs h sid) params = Ok (c, m) →
  release_txs m o to rates = Ok txs → tx ∈ txs →
  spend_sighash c tx 0 = Ok msg →
  htlc_spend_fee c Release MAX_SWAP_FEERATE_SAT_VB = Ok max_fee → 0 ≤ c_value c → c_value c + max_fee ≤ u64_max →
  check_key our_key (our_pubkey_send (m_params m)) c = Ok tt →
  check_key their_key (their_pubkey_send (m_params m)) c = Ok tt →
  ∃ their_sig final,
    sign_their_release (phone t (other_role r) theirs ours h sid') tx o their_key params = Ok their_sig ∧
    finish_release m tx o to their_sig our_key = Ok final.
Proof.
  intros Hv Hrates Hb Hrel Htx Hmsg Hmax Hpos Hfit Hk1 Hk2.
  destruct (agreed_contract _ _ _ _ _ _ sid' _ _ _ Hb) as [-> He]. simpl in Hrel, Hk1, Hk2.
  unfold release_txs, our_contract_built in Hrel. simpl in Hrel.
  apply bind_Ok in Hrel as (? & Hhas%bail_if_Ok%negb_false_iff & E).
  apply bind_Ok in E as (fees & Hfees & E).
  destruct (release_tx_known c o to txs tx fees E Htx) as (fee & Hfee & Htx').
  assert (Hle : 0 ≤ fee ≤ max_fee) by by eapply release_fee_le.
  destruct (release_shape c o to fee tx Hpos Htx') as (ours' & Hours & Hshape & (inp & Hin & Hprev) & Hpaid).
  assert (Hkey : our_pubkey_recv (m_params (phone t (other_role r) theirs ours h sid')) =
                 their_pubkey_send (params_from_terms t r ours theirs h sid)) by by destruct ours, theirs, r.
  exists (sign their_key msg).
  destruct (check_key_Ok _ _ _ _ Hk1) as [Hp1 Hf1], (check_key_Ok _ _ _ _ Hk2) as [Hp2 Hf2].
  destruct (finalize_release_defined c tx inp (sign their_key msg) (sign our_key msg) Hhas Hin) as [final Hfin].
  exists final. split.
  - unfold sign_their_release. rewrite He. cbn [mbind result_bind]. rewrite Hhas, Hkey, Hk2. simpl.
    rewrite Hin, Hprev.
    rewrite bool_decide_false by naive_solver. simpl. by rewrite Hmsg.
  - unfold finish_release, our_contract_built. simpl. rewrite Hk1. simpl. rewrite Hmax. simpl.
    rewrite Hours. simpl. rewrite Hshape. simpl. rewrite Hpaid.
    unfold amount_add, checked_add. rewrite (proj2 (Z.leb_le (c_value c - fee + max_fee) u64_max)) by lia. simpl.
    rewrite (proj2 (Z.ltb_ge _ _)) by lia. simpl. rewrite Hmsg. simpl.
    rewrite <-Hp2, sign_release_verified by congruence. done.
Qed.

End release.

(** ** The machine's states *)

(** What has to have happened, in order, for a machine with parameters [p] to
    be in a state. *)
Definition justified (p : SwapParams) (evs : list SwapEvent) (s : SwapState) : Prop :=
  match s with
  | Negotiated => True
  | OurFundingBroadcast tx => EvOurFundingBroadcast tx ∈ evs
  | CounterpartyFundingConfirmed =>
      ∃ n, EvCounterpartyFunded n ∈ evs ∧ required_incoming_confs p ≤ n
  | Redeemed pre => EvCounterpartyRedeemed pre ∈ evs
  | Settled => ∃ l1 pre l2 n l3, evs = l1 ++ EvCounterpartyRedeemed pre :: l2 ++ EvOurOutputConfirmed n :: l3
                 ∧ required_incoming_confs p ≤ n
  | Refunded => ∃ l1 tx l2 l3, evs = l1 ++ EvOurFundingBroadcast tx :: l2 ++ EvTimelockExpired :: l3
  | Failed _ => False
  end.

Lemma justified_snoc p evs s e : justified p evs s → justified p (evs ++ [e]) s.
Proof.
  destruct s; simpl; try done; rewrite ?elem_of_app; try (by auto).
  - intros (n & ? & ?). exists n. set_solver.
  - intros (l1 & pre & l2 & n & l3 & -> & ?). exists l1, pre, l2, n, (l3 ++ [e]).
    by rewrite <-!app_assoc, app_comm_cons, <-!app_assoc.
  - intros (l1 & tx & l2 & l3 & ->). exists l1, tx, l2, (l3 ++ [e]).
    by rewrite <-!app_assoc, app_comm_cons, <-!app_assoc.
Qed.

Lemma on_event_params m e : m_params (on_event m e) = m_params m.
Proof. done. Qed.

Lemma run_params evs m : m_params (foldl on_event m evs) = m_params m.
Proof. revert m. induction evs as [|e evs IH]; intros m; simpl; [done|]. by rewrite IH. Qed.

Lemma last_event (e : SwapEvent) evs : e ∈ evs ++ [e].
Proof. set_solver. Qed.

Lemma justified_step m evs e :
  justified (m_params m) evs (m_state m) →
  justified (m_params m) (evs ++ [e]) (m_state (on_event m e)).
Proof.
  intros J. pose proof (justified_snoc _ _ _ e J) as J'.
  destruct e as [tx|n|pre|n|]; simpl.
  - destruct (m_state m); try exact J'. apply last_event.
  - assert (Hn : ∀ s, justified (m_params m) (evs ++ [EvCounterpartyFunded n]) s →
      justified (m_params m) (evs ++ [EvCounterpartyFunded n])
        (if required_incoming_confs (m_params m) <=? n then CounterpartyFundingConfirmed else s)).
    { intros s Hs. destruct (_ <=? _) eqn:Hle; zbool; [|done]. exists n. split; [apply last_event|done]. }
    destruct (m_state m); by apply Hn.
  - destruct (m_state m); apply last_event.
  - destruct (m_state m) as [| | |pre| | |]; try exact J'.
    destruct (_ <=? _) eqn:Hle; zbool; [|exact J']. simpl in J.
    apply list_elem_of_split in J as (l1 & l2 & ->). exists l1, pre, l2, n, [].
    by rewrite <-!app_assoc.
  - destruct (m_state m) as [|tx| | | | |]; try exact J'.
    apply list_elem_of_split in J as (l1 & l2 & ->). exists l1, tx, l2, [].
    by rewrite <-!app_assoc.
Qed.

(** Whatever events the shell reports, in any order, a machine's state is
    justified by them: it never claims the counterparty's funding without
    enough confirmations, settles only after the preimage was revealed and our
    output then confirmed deep enough, and is refunded only after our funding
    went out and the timelock then expired.  Events never change the
    parameters or the contracts. *)
Theorem on_event_justified p evs :
  let m := foldl on_event (machine_new p) evs in
  justified p evs (m_state m) ∧ m_params m = p ∧ our_contract m = None ∧ their_contract m = None.
Proof.
  simpl. induction evs as [|e evs (J & Hp & Ho & Ht)] using rev_ind; [done|].
  rewrite foldl_snoc. split_and!; try done.
  rewrite <-Hp at 1. apply justified_step. by rewrite Hp.
Qed.

(** A buried counterparty funding moves the machine out of every state, the
    final ones included. *)
Lemma on_event_leaves_final m n :
  required_incoming_confs (m_params m) ≤ n →
  m_state (on_event (with_state m Settled) (EvCounterpartyFunded n)) = CounterpartyFundingConfirmed ∧
  m_state (on_event (with_state m Refunded) (EvCounterpartyFunded n)) = CounterpartyFundingConfirmed.
Proof. intros Hn. simpl. by rewrite (proj2 (Z.leb_le _ _) Hn). Qed.

(** ** Preimages *)
Lemma u32_to_be_bytes_inj a b :
  0 ≤ a < 2^32 → 0 ≤ b < 2^32 → u32_to_be_bytes a = u32_to_be_bytes b → a = b.
Proof.
  intros Ha Hb E. unfold u32_to_be_bytes in E. apply (f_equal (@rev byte)) in E.
  rewrite !rev_involutive in E. apply le_bytes_inj in E; lia.
Qed.

(** Two swaps never share a preimage by construction: on one key,
    distinct pairs of match id and nonce are distinct inputs of the HMAC, so
    equal preimages would be an HMAC collision. *)
Theorem preimage_distinct `{BitcoinLib, KeyLib} k id1 id2 n1 n2 :
  Z.of_nat (length id1) < 2^32 → Z.of_nat (length id2) < 2^32 →
  (hmac_sha256 (secret_bytes (secret k)) (preimage_input id1 n1) =
   hmac_sha256 (secret_bytes (secret k)) (preimage_input id2 n2) →
   preimage_input id1 n1 = preimage_input id2 n2) →
  preimage k id1 n1 = preimage k id2 n2 → id1 = id2 ∧ n1 = n2.
Proof.
  intros H1 H2 Hcr E%Hcr. unfold preimage_input in E. apply app_inv_head in E.
  apply app_inj_1 in E as [Hl E]; [|unfold u32_to_be_bytes; by rewrite !length_rev, !length_le_bytes].
  apply u32_to_be_bytes_inj in Hl; [|apply Z.mod_pos_bound; lia..].
  rewrite !Z.mod_small in Hl by lia. apply app_inj_1 in E; [done|lia].
Qed.

(** ** Witnesses *)
#[local] Instance toy_keys : KeyLib := {|
  SecretKey := bytes;
  secret_from_slice := λ b, if Nat.eqb (length b) 32 then inr b else inl "not a secret key";
  public_key := λ k, pad 33 (x02 :: k);
  sign_der := λ msg k, pad 33 (x02 :: k) ++ msg;
  secret_bytes := id;
  hmac_sha256 := λ k d, k ++ d;
|}.

#[local] Instance toy_key_laws : KeyLaws.
Proof.
  split.
  - intros msg k. exists (pad 33 (x02 :: k) ++ msg). split; [done|]. simpl. by apply bool_decide_eq_true.
  - intros k. cbn [pubkey_from_slice toy_lib public_key toy_keys]. by rewrite length_pad.
Qed.

#[local] Instance toy_hex_laws : HexLaws.
Proof.
  split.
  - intros b. simpl. by rewrite String.list_byte_of_string_of_list_byte.
  - intros tx _. simpl. by rewrite string_positive_string, decode_encode.
Qed.

Definition example_key (b : byte) (params : ChainParams) : SwapKey :=
  {| secret := replicate 32 b; k_flag := sighash_flag params |}.

Definition initiator_keys : bytes * bytes :=
  (pubkey (example_key x11 blake2b), pubkey (example_key x12 bitcoin)).
Definition participant_keys : bytes * bytes :=
  (pubkey (example_key x21 blake2b), pubkey (example_key x22 bitcoin)).
Definition example_hash : bytes := sha256 example_secret.

Definition initiator_phone : SwapMachine := phone example_terms Initiator initiator_keys participant_keys example_hash [x01].
Definition participant_phone : SwapMachine := phone example_terms Participant participant_keys initiator_keys example_hash [x02].

(** The two legs' contracts. *)
Definition xbt_leg : HtlcContract := default example_contract
  (to_option (leg_contract example_terms Initiator initiator_keys participant_keys example_hash blake2b)).
Definition btc_leg : HtlcContract := default example_contract
  (to_option (leg_contract example_terms Participant initiator_keys participant_keys example_hash bitcoin)).

Lemma xbt_leg_built :
  build_our_contract initiator_phone blake2b = Ok (xbt_leg, with_our_contract initiator_phone xbt_leg).
Proof. reflexivity. Qed.
Lemma btc_leg_built :
  build_our_contract participant_phone bitcoin = Ok (btc_leg, with_our_contract participant_phone btc_leg).
Proof. reflexivity. Qed.

Lemma contracts_agree_witness :
  expected_their_contract participant_phone blake2b = Ok xbt_leg.
Proof.
  exact (proj1 (contracts_agree example_terms Initiator initiator_keys participant_keys example_hash
    [x01] [x02] blake2b xbt_leg _ xbt_leg_built)).
Defined.

(** A spend of the BTC leg by the initiator: its signature is the only one
    that checks. *)
#[local] Instance initiator_spends : SpendContext := {|
  check_sig := λ s pk, bool_decide (s = [x99] ∧ pk = snd initiator_keys);
  cltv_ok := λ _, false;
  cast_bool := λ b, match b with [] => false | _ => true end;
|}.

#[local] Instance initiator_spends_laws : SpendLaws.
Proof. split; [done..|]. intros a b. apply (@int_push_inj _ toy_spend _). Qed.

Definition btc_redeem : list bytes :=
  redeem_witness [x99] (snd initiator_keys) example_secret (witness_script btc_leg).

Lemma swap_atomic_witness :
  ∃ p, preimage_from_witness btc_redeem (hashlock btc_leg) = Some p.
Proof.
  destruct (swap_atomic initiator_spends toy_spend initiator_spends_laws toy_spend_laws
    (@run toy_lib initiator_spends) (@run toy_lib toy_spend) _ _
    example_terms initiator_keys participant_keys example_hash [x02] [x01] bitcoin blake2b
    btc_leg _ xbt_leg _ btc_redeem [x77] btc_leg_built xbt_leg_built) as (p & Hp & _).
  - exists [[x99]; snd initiator_keys; example_secret; [x01]], [x01]. split_and!; vm_compute; reflexivity.
  - intros s pk _ Hpk. apply bool_decide_eq_false. intros [_ ->]. vm_compute in Hpk. discriminate Hpk.
  - reflexivity.
  - exists p. exact Hp.
Defined.

Lemma spend_fees_spec_witness :
  ∃ fees, spend_fees xbt_leg Redeem [x51] [1; 5; 900; 100_000] = Ok fees ∧ NoDup fees ∧ length fees = 3%nat.
Proof.
  destruct (ok_with_elim (λ fees, Nat.eqb (length fees) 3) (spend_fees xbt_leg Redeem [x51] [1; 5; 900; 100_000]))
    as (fees & E & Hl%Nat.eqb_eq); [vm_compute; reflexivity|].
  exists fees. split; [exact E|]. split; [|exact Hl].
  exact (proj1 (proj1 (spend_fees_spec xbt_leg Redeem [x51] [1; 5; 900; 100_000]) fees E)).
Defined.

(** The participant verifies the XBT leg and presigns its redeem. *)
Lemma example_presign :
  ∃ m ps, verify_their_output participant_phone (c_script_pubkey xbt_leg) (c_value xbt_leg) blake2b = Ok m ∧
    presign_redeem m example_outpoint [x51] (example_key x21 blake2b) [1; 5] = Ok ps ∧
    p_hashlock (m_params m) = example_hash.
Proof.
  exists (with_their_contract participant_phone xbt_leg).
  destruct (ok_with_elim (λ _, true) (presign_redeem (with_their_contract participant_phone xbt_leg)
    example_outpoint [x51] (example_key x21 blake2b) [1; 5])) as (ps & E & _); [vm_compute; reflexivity|].
  exists ps. split; [reflexivity|]. split; [exact E|reflexivity].
Qed.

Lemma presigned_redeem_finishes_witness :
  ∃ m txs, signed_redeem m example_outpoint [x51] (example_key x21 blake2b) example_secret [1; 5] = Ok txs.
Proof.
  destruct example_presign as (m & ps & Hv & Hps & Hh).
  destruct (presigned_redeem_finishes participant_phone (c_script_pubkey xbt_leg) (c_value xbt_leg) blake2b m
    example_outpoint [x51] (example_key x21 blake2b) [1; 5] ps example_secret Hv Hps (eq_sym Hh))
    as [(c & txs & _ & Htxs & _) _].
  exists m, txs. exact Htxs.
Defined.

(** The initiator proposes releases of the XBT leg at two fees. *)
Definition initiator_funded : SwapMachine := with_our_contract initiator_phone xbt_leg.

Lemma example_release :
  ∃ tx txs msg max_fee, release_txs initiator_funded example_outpoint [x51] [1; 5] = Ok txs ∧ tx ∈ txs ∧
    spend_sighash xbt_leg tx 0 = Ok msg ∧
    htlc_spend_fee xbt_leg Release MAX_SWAP_FEERATE_SAT_VB = Ok max_fee ∧ c_value xbt_leg + max_fee ≤ u64_max.
Proof.
  destruct (ok_with_elim (λ l, match l with tx :: _ => ok_with (λ _, true) (spend_sighash xbt_leg tx 0) | [] => false end)
    (release_txs initiator_funded example_outpoint [x51] [1; 5])) as ([|tx txs] & E & Hm);
    [vm_compute; reflexivity|discriminate Hm|].
  apply ok_with_elim in Hm as (msg & Hmsg & _).
  destruct (ok_with_elim (λ f, c_value xbt_leg + f <=? u64_max)
    (htlc_spend_fee xbt_leg Release MAX_SWAP_FEERATE_SAT_VB)) as (max_fee & Hf & Hle%Z.leb_le);
    [vm_compute; reflexivity|].
  exists tx, (tx :: txs), msg, max_fee. split; [exact E|]. split; [left|]. split; [exact Hmsg|]. split; [exact Hf|exact Hle].
Qed.

Lemma toy_vsize_nonneg : ∀ x, 0 ≤ vsize x.
Proof. intros x. simpl. lia. Qed.

Lemma release_handshake_witness :
  ∃ tx sig final, finish_release initiator_funded tx example_outpoint [x51] sig (example_key x11 blake2b) = Ok final.
Proof.
  destruct example_release as (tx & txs & msg & max_fee & Htxs & Hin & Hmsg & Hf & Hfit).
  destruct (release_handshake example_terms Initiator initiator_keys participant_keys example_hash [x01] [x02]
    blake2b xbt_leg initiator_funded example_outpoint [x51] [1; 5] txs tx msg max_fee
    (example_key x11 blake2b) (example_key x21 blake2b) toy_vsize_nonneg ltac:(repeat constructor; lia)
    xbt_leg_built Htxs Hin Hmsg Hf ltac:(vm_compute; discriminate) Hfit ltac:(reflexivity) ltac:(reflexivity))
    as (sig & final & _ & Hfin).
  exists tx, sig, final. exact Hfin.
Defined.

Lemma example_finish :
  ∃ tx sig final, finish_release initiator_funded tx example_outpoint [x51] sig (example_key x11 blake2b) = Ok final.
Proof.
  destruct (ok_with_elim (λ l, match l with
    | tx :: _ => ok_with (λ msg, ok_with (λ _, true) (finish_release initiator_funded tx example_outpoint [x51]
                   (sign (example_key x21 blake2b) msg) (example_key x11 blake2b))) (spend_sighash xbt_leg tx 0)
    | [] => false end) (release_txs initiator_funded example_outpoint [x51] [1; 5])) as ([|tx txs] & E & Hm);
    [vm_compute; reflexivity|discriminate Hm|].
  apply ok_with_elim in Hm as (msg & _ & Hm). apply ok_with_elim in Hm as (final & Hfin & _).
  exists tx, (sign (example_key x21 blake2b) msg), final. exact Hfin.
Qed.

Lemma finish_release_safe_witness :
  ∃ tx sig final, finish_release initiator_funded tx example_outpoint [x51] sig (example_key x11 blake2b) = Ok final ∧
    map previous_output (input final) = [example_outpoint].
Proof.
  destruct example_finish as (tx & sig & final & E).
  destruct (finish_release_safe initiator_funded tx example_outpoint [x51] sig (example_key x11 blake2b) final E)
    as (c & f & msg & a & x & _ & _ & _ & Hp & _).
  exists tx, sig, final. split; [exact E|exact Hp].
Defined.

Lemma preimage_distinct_witness : [x61] = [x61] ∧ [x62] = [x62].
Proof.
  exact (preimage_distinct (example_key x11 blake2b) [x61] [x61] [x62] [x62]
    eq_refl eq_refl (λ _, eq_refl) eq_refl).
Defined.
