(* ===== verification/Ledger.v ===== *)
(** The account ledger of the Lightning service provider
    ([fortis-lsp/src/account.rs]): balances in msat keyed by the user's node
    id, holds on them, the entries that explain them, and the operator's
    revenue.

    The SQLite file is the record [Db], one field per table; an operation takes
    the clock and the database and returns its answer and the new database.
    Each is one transaction, so on [Err] the database is the old one; the two
    methods of [account.rs] that commit more than one statement ([use_nonce],
    [held_update]) are one operation per statement here and programs of [Lsp.v],
    as are the two that take the lock twice.  A node id is the text it is stored as.  Balances are exact
    integers: every msat that can exist fits 63 bits, SQLite's move to floating
    point beyond them is not modelled (the overflow error of [SUM] is). *)

From S2P Require Import Prelude Bitcoin Script Toy.

Inductive LedgerError : Type :=
| InsufficientBalance
| UnknownHold (id : string)
| DbError (msg : string).

Abbreviation LResult := (result LedgerError).

Record Account : Type := { balance_msat : Z; held_msat : Z }.

Definition free_msat (a : Account) : Z := saturating_sub (balance_msat a) (held_msat a).

Inductive EntryKind : Type := Received | Sent | Internal | Converted | Withdrawn.

#[export] Instance EntryKind_eq_dec : EqDecision EntryKind.
Proof. solve_decision. Defined.

Definition entry_kind_str (k : EntryKind) : string :=
  match k with
  | Received => "received" | Sent => "sent" | Internal => "internal"
  | Converted => "converted" | Withdrawn => "withdrawn"
  end.

Definition entry_kind_parse (s : string) : EntryKind :=
  if decide (s = "sent") then Sent
  else if decide (s = "internal") then Internal
  else if decide (s = "converted") then Converted
  else if decide (s = "withdrawn") then Withdrawn
  else Received.

(** What [history] returns. *)
Record Entry : Type := {
  at_secs : Z;
  kind : EntryKind;
  amount_msat : Z;
  fee_msat : Z;
  payment_hash : option bytes;
}.

Inductive RevenueKind : Type := TransferFee | ChannelFee | WithdrawalFee | RoutingFee | Earlier.

Definition revenue_kind_str (k : RevenueKind) : string :=
  match k with
  | TransferFee => "transfer_fee" | ChannelFee => "channel_fee"
  | WithdrawalFee => "withdrawal_fee" | RoutingFee => "routing_fee" | Earlier => "earlier"
  end.

Record RevenueEntry : Type := {
  r_at_secs : Z;
  r_kind : string;
  r_amount_msat : Z;
  r_node : option string;
  r_reference : string;
}.

(** ** Tables *)
Record HoldRow : Type := { h_node : string; h_amount : Z; h_base : Z; h_kind : string }.

Record EntryRow : Type := {
  e_seq : Z;
  e_node : string;
  e_at : Z;
  e_kind : string;
  e_amount : Z;
  e_fee : Z;
  e_hash : option bytes;
}.

Record InvoiceRow : Type := { i_node : string; i_amount : Z; i_expires_at : Z }.

Record HeldRow : Type := {
  hd_node : string;
  hd_preimage : bytes;
  hd_amount : Z;
  hd_claimable : option Z;
  hd_deadline : option Z;
  hd_forward_id : option bytes;
  hd_state : string;
  hd_created_at : Z;
}.

(** The revenue rows are in insertion ([seq]) order, so are the entries. *)
Record Db : Type := {
  accounts : gmap string Z;
  holds : gmap string HoldRow;
  entries : list EntryRow;
  invoices : gmap bytes InvoiceRow;
  revenue : list RevenueEntry;
  fee_invoices : gmap bytes InvoiceRow;
  push_tokens : gmap string (string * Z);
  offers : gmap bytes (string * string);
  held : gmap bytes HeldRow;
  nonces : gmap (string * string) Z;
}.

Definition empty_db : Db := {|
  accounts := ∅; holds := ∅; entries := []; invoices := ∅; revenue := []; fee_invoices := ∅;
  push_tokens := ∅; offers := ∅; held := ∅; nonces := ∅ |}.

Definition with_accounts (db : Db) (x : gmap string Z) : Db := {|
  accounts := x; holds := holds db; entries := entries db; invoices := invoices db;
  revenue := revenue db; fee_invoices := fee_invoices db; push_tokens := push_tokens db;
  offers := offers db; held := held db; nonces := nonces db |}.
Definition with_holds (db : Db) (x : gmap string HoldRow) : Db := {|
  accounts := accounts db; holds := x; entries := entries db; invoices := invoices db;
  revenue := revenue db; fee_invoices := fee_invoices db; push_tokens := push_tokens db;
  offers := offers db; held := held db; nonces := nonces db |}.
Definition with_entries (db : Db) (x : list EntryRow) : Db := {|
  accounts := accounts db; holds := holds db; entries := x; invoices := invoices db;
  revenue := revenue db; fee_invoices := fee_invoices db; push_tokens := push_tokens db;
  offers := offers db; held := held db; nonces := nonces db |}.
Definition with_invoices (db : Db) (x : gmap bytes InvoiceRow) : Db := {|
  accounts := accounts db; holds := holds db; entries := entries db; invoices := x;
  revenue := revenue db; fee_invoices := fee_invoices db; push_tokens := push_tokens db;
  offers := offers db; held := held db; nonces := nonces db |}.
Definition with_revenue (db : Db) (x : list RevenueEntry) : Db := {|
  accounts := accounts db; holds := holds db; entries := entries db; invoices := invoices db;
  revenue := x; fee_invoices := fee_invoices db; push_tokens := push_tokens db;
  offers := offers db; held := held db; nonces := nonces db |}.
Definition with_fee_invoices (db : Db) (x : gmap bytes InvoiceRow) : Db := {|
  accounts := accounts db; holds := holds db; entries := entries db; invoices := invoices db;
  revenue := revenue db; fee_invoices := x; push_tokens := push_tokens db;
  offers := offers db; held := held db; nonces := nonces db |}.
Definition with_push_tokens (db : Db) (x : gmap string (string * Z)) : Db := {|
  accounts := accounts db; holds := holds db; entries := entries db; invoices := invoices db;
  revenue := revenue db; fee_invoices := fee_invoices db; push_tokens := x;
  offers := offers db; held := held db; nonces := nonces db |}.
Definition with_offers (db : Db) (x : gmap bytes (string * string)) : Db := {|
  accounts := accounts db; holds := holds db; entries := entries db; invoices := invoices db;
  revenue := revenue db; fee_invoices := fee_invoices db; push_tokens := push_tokens db;
  offers := x; held := held db; nonces := nonces db |}.
Definition with_held (db : Db) (x : gmap bytes HeldRow) : Db := {|
  accounts := accounts db; holds := holds db; entries := entries db; invoices := invoices db;
  revenue := revenue db; fee_invoices := fee_invoices db; push_tokens := push_tokens db;
  offers := offers db; held := x; nonces := nonces db |}.
Definition with_nonces (db : Db) (x : gmap (string * string) Z) : Db := {|
  accounts := accounts db; holds := holds db; entries := entries db; invoices := invoices db;
  revenue := revenue db; fee_invoices := fee_invoices db; push_tokens := push_tokens db;
  offers := offers db; held := held db; nonces := x |}.

Definition as_i64 (msat : Z) : Z := default i64_max (try_from i64_max msat).

(** [u64 as i64] and [i64 as u64]: the same 64 bits. *)
Definition u64_as_i64 (n : Z) : Z := if n <=? i64_max then n else n - 2^64.
Definition i64_as_u64 (n : Z) : Z := n mod 2^64.

(** [COALESCE(SUM(..), 0)]: an integer overflow is an error. *)
Definition sql_sum (total : Z) : LResult Z :=
  if total <=? i64_max then Ok total else Err (DbError "integer overflow").

Definition held_of (db : Db) (k : string) : Z :=
  msum (λ _ h, if decide (h_node h = k) then h_amount h else 0) (holds db).

Definition account_of (db : Db) (k : string) : LResult Account :=
  h ← sql_sum (held_of db k);
  mret {| balance_msat := Z.max (default 0 (accounts db !! k)) 0; held_msat := Z.max h 0 |}.

(** [INSERT .. VALUES (k, MAX(delta, 0)) ON CONFLICT .. balance + delta], with
    the table's [CHECK (balance_msat >= 0)]. *)
Definition add_balance (db : Db) (k : string) (delta : Z) : LResult Db :=
  match accounts db !! k with
  | None => Ok (with_accounts db (<[k := Z.max delta 0]> (accounts db)))
  | Some b =>
      if b + delta <? 0 then Err InsufficientBalance
      else Ok (with_accounts db (<[k := b + delta]> (accounts db)))
  end.

Definition take_hold (db : Db) (id : string) : LResult (string * Z * Db) :=
  h ← ok_or (holds db !! id) (UnknownHold id);
  mret (h_node h, Z.max (h_amount h) 0, with_holds db (delete id (holds db))).

(** [AUTOINCREMENT] on a table rows are never deleted from. *)
Definition next_seq (db : Db) : Z := Z.of_nat (length (entries db)) + 1.

Definition insert_entry (db : Db) (now : Z) (node kd : string) (amount fee : Z) (hash : option bytes) : Db :=
  with_entries db (entries db ++
    [{| e_seq := next_seq db; e_node := node; e_at := u64_as_i64 now; e_kind := kd;
        e_amount := amount; e_fee := fee; e_hash := hash |}]).

(** The rows of the unique index [credited_once]. *)
Definition credit_kind (s : string) : Prop := s = "received" ∨ s = "internal".
#[export] Instance credit_kind_dec s : Decision (credit_kind s).
Proof. unfold credit_kind. apply _. Defined.

Definition credited (db : Db) (node : string) (hash : bytes) : Prop :=
  Exists (λ e, e_node e = node ∧ e_hash e = Some hash ∧ credit_kind (e_kind e)) (entries db).
#[export] Instance credited_dec db node hash : Decision (credited db node hash).
Proof. unfold credited. apply _. Defined.

(** [INSERT OR IGNORE INTO entries] of a credit: whether the row was new. *)
Definition insert_credit (db : Db) (now : Z) (node kd : string) (amount : Z) (hash : bytes) : bool * Db :=
  if decide (credited db node hash) then (false, db)
  else (true, insert_entry db now node kd amount 0 (Some hash)).

Definition revenue_known (db : Db) (kd reference : string) : Prop :=
  Exists (λ r, r_kind r = kd ∧ r_reference r = reference) (revenue db).
#[export] Instance revenue_known_dec db kd reference : Decision (revenue_known db kd reference).
Proof. unfold revenue_known. apply _. Defined.

(** [INSERT OR IGNORE INTO revenue], under the unique index [revenue_once]. *)
Definition insert_revenue_row (db : Db) (r : RevenueEntry) : bool * Db :=
  if decide (revenue_known db (r_kind r) (r_reference r)) then (false, db)
  else (true, with_revenue db (revenue db ++ [r])).

Definition insert_revenue (db : Db) (now : Z) (k : RevenueKind) (amount : Z) (node : option string)
    (reference : string) : Db :=
  snd (insert_revenue_row db {|
    r_at_secs := u64_as_i64 now; r_kind := revenue_kind_str k; r_amount_msat := as_i64 amount;
    r_node := node; r_reference := reference |}).

(** ** Operations *)
Section ledger.
Context `{BitcoinLib}.

(** [PublicKey::from_str] and [to_string] on stored node ids. *)
Context (parse_node : string → option string).

Definition balance (db : Db) (node : string) : LResult Account := account_of db node.

Definition credit (now : Z) (node : string) (hash : bytes) (amount : Z) (db : Db) : LResult (bool * Db) :=
  let '(inserted, db) := insert_credit db now node "received" (as_i64 amount) hash in
  if (inserted : bool) then
    db ← add_balance db node (as_i64 amount);
    mret (true, db)
  else mret (false, db).

Definition hold_kind (node id : string) (amount base : Z) (kd : string) (db : Db) : LResult Db :=
  a ← account_of db node;
  _ ← bail_if (free_msat a <? amount) InsufficientBalance;
  match holds db !! id with
  | Some _ => Err (DbError "UNIQUE constraint failed: holds.id")
  | None =>
      mret (with_holds db (<[id := {| h_node := node; h_amount := as_i64 amount;
                                      h_base := as_i64 base; h_kind := kd |}]> (holds db)))
  end.

Definition hold_send (node id : string) (amount reserve : Z) (db : Db) : LResult Db :=
  hold_kind node id (Z.max reserve amount) amount "send" db.

Definition settle_hold (now : Z) (id : string) (spent_msat fee : Z) (hash : option bytes) (db : Db) :
    LResult Db :=
  '(k, held_amount, db) ← take_hold db id;
  let spent := Z.min spent_msat held_amount in
  if 0 <? spent then
    db ← add_balance db k (- as_i64 spent);
    mret (insert_entry db now k "sent" (- as_i64 spent) (as_i64 fee) hash)
  else mret db.

(** Reads the hold, then settles it in a second transaction. *)
Definition settle_send (now : Z) (id : string) (fee : Z) (hash : option bytes) (db : Db) : LResult Db :=
  h ← ok_or (holds db !! id) (UnknownHold id);
  let base := Z.max (h_base h) 0 in
  settle_hold now id (saturating_add u64_max base fee) fee hash db.

Definition hold_owner (id : string) (db : Db) : option (string * Z) :=
  h ← holds db !! id;
  pk ← parse_node (h_node h);
  mret (pk, Z.max (h_amount h) 0).

Definition hold_withdrawal (node id : string) (amount : Z) (db : Db) : LResult Db :=
  hold_kind node id amount amount "withdraw" db.

Definition settle_withdrawal (now : Z) (id : string) (fee : Z) (tx : bytes) (db : Db) : LResult Db :=
  '(k, held_amount, db) ← take_hold db id;
  db ← add_balance db k (- as_i64 held_amount);
  let db := insert_entry db now k "withdrawn" (- as_i64 held_amount) (as_i64 fee) (Some tx) in
  mret (if 0 <? fee then
          insert_revenue db now WithdrawalFee fee (Some k) ("withdrawal:" +:+ hex_encode tx)
        else db).

Definition transfer (now : Z) (from to : string) (hash : bytes) (amount : Z) (db : Db) :
    LResult (bool * Db) :=
  let '(inserted, db) := insert_credit db now to "internal" (as_i64 amount) hash in
  if (inserted : bool) then
    a ← account_of db from;
    _ ← bail_if (free_msat a <? amount) InsufficientBalance;
    db ← add_balance db from (- as_i64 amount);
    db ← add_balance db to (as_i64 amount);
    mret (true, insert_entry db now from "internal" (- as_i64 amount) 0 None)
  else mret (false, db).

(** Reads the free balance, then holds it in a second transaction. *)
Definition start_conversion (node id : string) (db : Db) : LResult (Z * Db) :=
  a ← balance db node;
  let free := free_msat a in
  db ← hold_kind node id free free "conversion" db;
  mret (free, db).

Definition finish_conversion_by (now : Z) (id : string) (fee : Z) (hash : option bytes) (db : Db) :
    LResult Db :=
  '(k, held_amount, db) ← take_hold db id;
  db ← add_balance db k (- as_i64 held_amount);
  let db := insert_entry db now k "converted" (- as_i64 held_amount) (as_i64 fee) hash in
  mret (if 0 <? fee then insert_revenue db now ChannelFee fee (Some k) ("conversion:" +:+ id) else db).

Definition finish_conversion (now : Z) (id : string) (fee : Z) (db : Db) : LResult Db :=
  finish_conversion_by now id fee None db.

Definition abandon_conversion (id : string) (db : Db) : LResult Db :=
  '(_, _, db) ← take_hold db id;
  mret db.

(** [UPDATE holds SET id = new WHERE id = old]; another hold named [new] is a
    constraint violation, [new = old] leaves the row. *)
Definition rename_hold (old new : string) (db : Db) : LResult Db :=
  match holds db !! old with
  | None => Err (UnknownHold old)
  | Some h =>
      if decide (new ≠ old ∧ is_Some (holds db !! new))
      then Err (DbError "UNIQUE constraint failed: holds.id")
      else mret (with_holds db (<[new := h]> (delete old (holds db))))
  end.

(** The order of these two listings is the keys'; SQL leaves it open. *)
Definition conversions (db : Db) : list (string * string) :=
  omap (λ '(id, h), if decide (h_kind h = "conversion") then pair id <$> parse_node (h_node h) else None)
    (map_to_list (holds db)).

Definition over_cap (cap : Z) (db : Db) : LResult (list (string * Account)) :=
  let nodes := omap (λ '(n, b), if as_i64 cap <? b then pk ← parse_node n; Some (n, pk) else None)
                 (map_to_list (accounts db)) in
  collect (λ '(n, pk), a ← account_of db n; mret (pk, a)) nodes.

Definition hash32 (b : bytes) : option bytes := if Nat.eqb (length b) 32 then Some b else None.

Definition history (node : string) (limit : nat) (db : Db) : list Entry :=
  map (λ e, {| at_secs := Z.max (e_at e) 0; kind := entry_kind_parse (e_kind e);
               amount_msat := e_amount e; fee_msat := Z.max (e_fee e) 0;
               payment_hash := e_hash e ≫= hash32 |})
    (take limit (rev (filter (λ e, e_node e = node) (entries db)))).

Definition total_custody_msat (db : Db) : LResult Z :=
  total ← sql_sum (msum (λ _ b, b) (accounts db));
  mret (Z.max total 0).

(** The two statements of [use_nonce]. *)
Definition prune_nonces (now : Z) (db : Db) : Db := with_nonces db (filter (λ p, u64_as_i64 now ≤ snd p) (nonces db)).
Definition insert_nonce (node nonce : string) (expires_at : Z) (db : Db) : bool * Db :=
  match nonces db !! (node, nonce) with
  | Some _ => (false, db)
  | None => (true, with_nonces db (<[(node, nonce) := u64_as_i64 expires_at]> (nonces db)))
  end.

Definition pending_invoice (hash : bytes) (node : string) (amount expires_at : Z) (db : Db) : Db :=
  with_invoices db (<[hash := {| i_node := node; i_amount := as_i64 amount;
                                 i_expires_at := u64_as_i64 expires_at |}]> (invoices db)).

Definition invoice_owner (hash : bytes) (db : Db) : option string :=
  i ← invoices db !! hash; parse_node (i_node i).

(** [i_expires_at] of a fee invoice is its [created_at]. *)
Definition add_fee_invoice (now : Z) (hash : bytes) (node : string) (amount : Z) (db : Db) : Db :=
  match fee_invoices db !! hash with
  | Some _ => db
  | None => with_fee_invoices db (<[hash := {| i_node := node; i_amount := as_i64 amount;
                                               i_expires_at := u64_as_i64 now |}]> (fee_invoices db))
  end.

Definition fee_invoice_paid (now : Z) (hash : bytes) (amount : Z) (db : Db) : bool * Db :=
  match fee_invoices db !! hash with
  | None => (false, db)
  | Some i => (true, insert_revenue db now TransferFee amount (Some (i_node i)) (hex_encode hash))
  end.

Definition record_revenue (now : Z) (k : RevenueKind) (amount : Z) (node : option string)
    (reference : string) (db : Db) : bool * Db :=
  if amount =? 0 then (false, db)
  else insert_revenue_row db {|
    r_at_secs := u64_as_i64 now; r_kind := revenue_kind_str k; r_amount_msat := as_i64 amount;
    r_node := node; r_reference := reference |}.

(** Inserting rows one by one, counting the new ones. *)
Definition insert_revenue_rows (rows : list RevenueEntry) (db : Db) : nat * Db :=
  foldl (λ '(n, db) r, let '(new, db) := insert_revenue_row db r in
                       ((if (new : bool) then S n else n), db)) (0%nat, db) rows.

Definition marker (now : Z) (reference : string) : RevenueEntry := {|
  r_at_secs := u64_as_i64 now; r_kind := "marker"; r_amount_msat := 0; r_node := None;
  r_reference := reference |}.

Definition import_earlier (now : Z) (payments : list (bytes * Z * Z)) (db : Db) : nat * Db :=
  if decide (revenue_known db "marker" "earlier-import") then (0%nat, db)
  else
    let '(n, db) := insert_revenue_rows
      (map (λ '(hash, amount, at_), {| r_at_secs := u64_as_i64 at_; r_kind := "earlier";
         r_amount_msat := as_i64 amount; r_node := None; r_reference := hex_encode hash |}) payments) db in
    (n, snd (insert_revenue_row db (marker now "earlier-import"))).

(** [INSERT OR IGNORE .. SELECT] over the entries; [hex(NULL)] is the empty
    text. *)
Definition import_entry_fees (now : Z) (db : Db) : nat * Db :=
  if decide (revenue_known db "marker" "entry-fee-import") then (0%nat, db)
  else
    let rows := map (λ e, {|
        r_at_secs := e_at e;
        r_kind := if decide (e_kind e = "converted") then "channel_fee" else "withdrawal_fee";
        r_amount_msat := e_fee e;
        r_node := Some (e_node e);
        r_reference := if decide (e_kind e = "converted") then "conversion-entry:" +:+ pretty (e_seq e)
                       else "withdrawal:" +:+ hex_encode (default [] (e_hash e)) |})
      (filter (λ e, (e_kind e = "converted" ∨ e_kind e = "withdrawn") ∧ 0 < e_fee e) (entries db)) in
    let '(n, db) := insert_revenue_rows rows db in
    (n, snd (insert_revenue_row db (marker now "entry-fee-import"))).

Definition knows_payment (hash : bytes) (db : Db) : bool :=
  bool_decide (is_Some (invoices db !! hash)) || bool_decide (is_Some (held db !! hash)) ||
  bool_decide (is_Some (fee_invoices db !! hash)) ||
  bool_decide (Exists (λ e, e_hash e = Some hash) (entries db)).

(** [ORDER BY at_secs, seq]: a stable sort of the rows in [seq] order. *)
Definition revenue_since (since : Z) (db : Db) : list RevenueEntry :=
  map (λ r, {| r_at_secs := i64_as_u64 (r_at_secs r); r_kind := r_kind r;
               r_amount_msat := i64_as_u64 (r_amount_msat r); r_node := r_node r;
               r_reference := r_reference r |})
    (sort_by (λ a b, r_at_secs a <=? r_at_secs b)
      (filter (λ r, u64_as_i64 since ≤ r_at_secs r ∧ r_kind r ≠ "marker") (revenue db))).

Definition set_push_token (node token : string) (now : Z) (db : Db) : Db :=
  with_push_tokens db (<[node := (token, u64_as_i64 now)]> (push_tokens db)).

Definition push_token (node : string) (db : Db) : option string := fst <$> push_tokens db !! node.

Definition drop_push_token (node token : string) (db : Db) : Db :=
  match push_tokens db !! node with
  | Some (t, _) => if decide (t = token) then with_push_tokens db (delete node (push_tokens db)) else db
  | None => db
  end.

Definition offer_of (node : string) (db : Db) : option string :=
  (λ r, snd (snd (snd r))) <$> list_find (λ x, fst (snd x) = node) (map_to_list (offers db)).

(** [INSERT OR REPLACE]: rows with this offer id or this node are replaced. *)
Definition set_offer (node : string) (offer_id : bytes) (offer : string) (db : Db) : Db :=
  with_offers db (<[offer_id := (node, offer)]> (filter (λ x, fst (snd x) ≠ node) (offers db))).

Definition offer_owner (offer_id : bytes) (db : Db) : option string :=
  '(n, _) ← offers db !! offer_id; parse_node n.

Definition held_insert (now : Z) (hash : bytes) (node : string) (preimage : bytes) (amount : Z) (db : Db) :
    LResult Db :=
  match held db !! hash with
  | Some _ => Err (DbError "UNIQUE constraint failed: held.payment_hash")
  | None => mret (with_held db (<[hash := {| hd_node := node; hd_preimage := preimage;
      hd_amount := as_i64 amount; hd_claimable := None; hd_deadline := None; hd_forward_id := None;
      hd_state := "open"; hd_created_at := u64_as_i64 now |}]> (held db)))
  end.

(** One statement of [held_update]: it sets the columns that are given. *)
Definition held_set (hash : bytes) (state : option string) (claimable : option (Z * option Z))
    (forward_id : option (option bytes)) (db : Db) : Db :=
  with_held db (alter (λ r, {|
    hd_node := hd_node r; hd_preimage := hd_preimage r; hd_amount := hd_amount r;
    hd_claimable := match claimable with Some (a, _) => Some (as_i64 a) | None => hd_claimable r end;
    hd_deadline := match claimable with Some (_, d) => d | None => hd_deadline r end;
    hd_forward_id := match forward_id with Some f => f | None => hd_forward_id r end;
    hd_state := default (hd_state r) state; hd_created_at := hd_created_at r |}) hash (held db)).

Record Held : Type := {
  hl_payment_hash : bytes;
  hl_node : string;
  hl_preimage : bytes;
  hl_amount_msat : Z;
  hl_claimable_msat : option Z;
  hl_deadline : option Z;
  hl_forward_id : option bytes;
  hl_state : string;
}.

Definition b32 (v : bytes) : bytes := default (replicate 32 x00) (hash32 v).

Definition held_row (hash : bytes) (r : HeldRow) : LResult Held :=
  node ← ok_or (parse_node (hd_node r)) (DbError "Query is not read-only");
  mret {| hl_payment_hash := b32 hash; hl_node := node; hl_preimage := b32 (hd_preimage r);
          hl_amount_msat := Z.max (hd_amount r) 0;
          hl_claimable_msat := (λ v, Z.max v 0) <$> hd_claimable r;
          hl_deadline := (λ v, Z.max v 0 mod 2^32) <$> hd_deadline r;
          hl_forward_id := b32 <$> hd_forward_id r;
          hl_state := hd_state r |}.

Definition held_get (hash : bytes) (db : Db) : LResult (option Held) :=
  match held db !! hash with
  | Some r => Some <$> held_row hash r
  | None => mret None
  end.

Definition held_claimable (db : Db) : LResult (list Held) :=
  collect (λ '(hash, r), held_row hash r)
    (filter (λ x, hd_state (snd x) = "claimable" ∨ hd_state (snd x) = "forwarding") (map_to_list (held db))).

Definition held_by_forward (forward_id : bytes) (db : Db) : LResult (option Held) :=
  match list_find (λ x, hd_forward_id (snd x) = Some forward_id) (map_to_list (held db)) with
  | Some (_, (hash, r)) => Some <$> held_row hash r
  | None => mret None
  end.

End ledger.

(** ** The invariant *)
Definition bal (db : Db) (k : string) : Z := default 0 (accounts db !! k).

(** What the entries of a node add up to. *)
Definition explained (db : Db) (k : string) : Z :=
  sumZ e_amount (filter (λ e, e_node e = k) (entries db)).

(** The keys of the index [credited_once], one per credit. *)
Definition credit_key (e : EntryRow) : option (string * bytes) :=
  if decide (credit_kind (e_kind e)) then pair (e_node e) <$> e_hash e else None.

Definition revenue_key (r : RevenueEntry) : string * string := (r_kind r, r_reference r).

Record ledger_ok (db : Db) : Prop := {
  lo_accounts k b : accounts db !! k = Some b → 0 ≤ b;
  lo_holds id h : holds db !! id = Some h → 0 ≤ h_amount h ≤ i64_max ∧ 0 ≤ h_base h;
  lo_covered k : held_of db k ≤ bal db k;
  lo_explained k : bal db k = explained db k;
  lo_credits : NoDup (omap credit_key (entries db));
  lo_revenue : NoDup (map revenue_key (revenue db));
}.

(** Two databases with the same money: what the invariant speaks of. *)
Definition same_money (db db' : Db) : Prop :=
  accounts db = accounts db' ∧ holds db = holds db' ∧ entries db = entries db' ∧ revenue db = revenue db'.

Lemma ledger_ok_same db db' : same_money db db' → ledger_ok db → ledger_ok db'.
Proof.
  intros (Ha & Hh & He & Hr) [? ? Hc Hx ? ?]. unfold held_of, bal, explained in *.
  rewrite Ha, Hh, He, Hr in *. done.
Qed.

Lemma ledger_ok_empty : ledger_ok empty_db.
Proof.
  split; [done|done| |done|constructor|constructor].
  intros k. unfold held_of. simpl. by rewrite msum_empty.
Qed.

Lemma credited_key db node hash : credited db node hash ↔ (node, hash) ∈ omap credit_key (entries db).
Proof.
  unfold credited. rewrite Exists_exists, list_elem_of_omap. unfold credit_key. split.
  - intros (e & He & <- & Hh & Hk). exists e. rewrite decide_True by done. by rewrite Hh.
  - intros (e & He & Hk). case_decide; [|done]. exists e. apply fmap_Some in Hk as (h & Hh & [= -> ->]).
    done.
Qed.

Lemma revenue_known_key db kd reference :
  revenue_known db kd reference ↔ (kd, reference) ∈ map revenue_key (revenue db).
Proof.
  unfold revenue_known. rewrite Exists_exists, list_elem_of_fmap. unfold revenue_key.
  split; [intros (r & ? & <- & <-)|intros (r & [= -> ->] & ?)]; eauto.
Qed.

Lemma as_i64_small a : 0 ≤ a ≤ i64_max → as_i64 a = a.
Proof. intros Ha. unfold as_i64, try_from. by rewrite (proj2 (andb_true_iff _ _)) by lia. Qed.

Lemma as_i64_range a : 0 ≤ a → 0 ≤ as_i64 a ≤ i64_max ∧ as_i64 a ≤ a.
Proof.
  intros Ha. unfold as_i64, try_from. destruct (_ && _) eqn:E; simpl; [zbool|unfold i64_max in *]; lia.
Qed.

(** ** Steps that keep the invariant *)
Lemma held_nonneg db k : ledger_ok db → 0 ≤ held_of db k.
Proof.
  intros Hok. apply msum_nonneg. intros id h Hh. case_decide; [|done]. by apply (lo_holds _ Hok id).
Qed.

Lemma bal_nonneg db k : ledger_ok db → 0 ≤ bal db k.
Proof. intros Hok. pose proof (held_nonneg db k Hok). pose proof (lo_covered _ Hok k). lia. Qed.

(** A booking: [d] on [k]'s balance, with the entry that explains it. *)
Definition post (db : Db) (k : string) (d : Z) (e : EntryRow) : Db :=
  with_entries (with_accounts db (<[k := bal db k + d]> (accounts db))) (entries db ++ [e]).

Lemma bal_post db k d e j : bal (post db k d e) j = bal db j + (if decide (j = k) then d else 0).
Proof.
  unfold bal. simpl. destruct (decide (j = k)) as [->|Hne]; [by rewrite lookup_insert_eq|].
  rewrite lookup_insert_ne by done. lia.
Qed.

Lemma explained_post db k d e j :
  e_node e = k → e_amount e = d →
  explained (post db k d e) j = explained db j + (if decide (j = k) then d else 0).
Proof.
  intros <- <-. unfold explained. simpl. rewrite filter_app, sumZ_app.
  destruct (decide (j = e_node e)) as [->|Hne].
  - rewrite filter_cons_True by done. rewrite filter_nil, sumZ_cons, sumZ_nil. lia.
  - rewrite filter_cons_False by done. rewrite filter_nil, sumZ_nil. lia.
Qed.

Lemma ok_post db k d e :
  ledger_ok db → e_node e = k → e_amount e = d → held_of db k ≤ bal db k + d →
  (∀ key, credit_key e = Some key → key ∉ omap credit_key (entries db)) →
  ledger_ok (post db k d e).
Proof.
  intros Hok He Hd Hcov Hcr. pose proof Hok as [Ha Hh Hc Hx Hn Hr]. split.
  - intros j b. simpl. intros [[<- <-]|[_ ?]]%lookup_insert_Some; [|by eapply Ha].
    pose proof (held_nonneg db k Hok). lia.
  - done.
  - intros j. rewrite bal_post. change (held_of (post db k d e) j) with (held_of db j).
    destruct (decide (j = k)) as [->|]; [done|]. specialize (Hc j). lia.
  - intros j. rewrite bal_post, (explained_post _ _ _ _ _ He Hd), Hx. done.
  - simpl. rewrite omap_app. simpl. destruct (credit_key e) as [key|] eqn:E; simpl; [|by rewrite app_nil_r].
    apply NoDup_app. split_and!; [done| |apply NoDup_singleton].
    intros x Hx' ->%list_elem_of_singleton. by eapply Hcr.
  - done.
Qed.

Lemma add_balance_Ok db k d :
  0 ≤ bal db k + d → add_balance db k d = Ok (with_accounts db (<[k := bal db k + d]> (accounts db))).
Proof.
  unfold add_balance, bal. destruct (accounts db !! k) as [b|]; simpl; intros Hd.
  - by rewrite (proj2 (Z.ltb_ge _ _)) by lia.
  - do 3 f_equal. lia.
Qed.

Lemma held_release db id h j :
  holds db !! id = Some h →
  held_of (with_holds db (delete id (holds db))) j =
  held_of db j - (if decide (h_node h = j) then h_amount h else 0).
Proof. intros Hh. unfold held_of. simpl. by rewrite (msum_delete _ _ id h Hh). Qed.

Lemma ok_release db id h :
  ledger_ok db → holds db !! id = Some h → ledger_ok (with_holds db (delete id (holds db))).
Proof.
  intros [Ha Hh Hc Hx Hn Hr] Hid. split; try done.
  - intros i x. simpl. intros [_ ?]%lookup_delete_Some. eauto.
  - intros j. rewrite (held_release db id h) by done. destruct (Hh _ _ Hid). specialize (Hc j).
    change (bal (with_holds db _) j) with (bal db j). case_decide; lia.
Qed.

(** Closing a hold and debiting [x] of it. *)
Lemma ok_debit db id h x e :
  ledger_ok db → holds db !! id = Some h → x ≤ h_amount h → 0 ≤ x →
  e_node e = h_node h → e_amount e = - x → credit_key e = None →
  let db1 := with_holds db (delete id (holds db)) in
  add_balance db1 (h_node h) (- x) =
    Ok (with_accounts db1 (<[h_node h := bal db1 (h_node h) + - x]> (accounts db1))) ∧
  ledger_ok (post db1 (h_node h) (- x) e).
Proof.
  intros Hok Hid Hx Hpos Hn Ha Hk db1.
  assert (Hcov : held_of db1 (h_node h) ≤ bal db1 (h_node h) + - x).
  { unfold db1. rewrite (held_release db id h) by done. rewrite decide_True by done.
    change (bal (with_holds db _) (h_node h)) with (bal db (h_node h)).
    pose proof (lo_covered _ Hok (h_node h)). lia. }
  pose proof (ok_release db id h Hok Hid) as Hok1. split.
  - apply add_balance_Ok. pose proof (held_nonneg db1 (h_node h) Hok1). lia.
  - apply ok_post; try done. by rewrite Hk.
Qed.

Lemma ok_revenue db r : ledger_ok db → ledger_ok (snd (insert_revenue_row db r)).
Proof.
  intros [Ha Hh Hc Hx Hn Hr]. unfold insert_revenue_row. case_decide as Hd; [done|].
  split; try done. simpl. rewrite map_app. apply NoDup_app. split_and!; [done| |apply NoDup_singleton].
  intros x Hx' ->%list_elem_of_singleton. apply Hd. by apply revenue_known_key.
Qed.

Lemma ok_revenue_rows rows db : ledger_ok db → ledger_ok (snd (insert_revenue_rows rows db)).
Proof.
  unfold insert_revenue_rows. generalize 0%nat as n. revert db.
  induction rows as [|r rows IH]; intros db n Hok; [done|]. simpl.
  pose proof (ok_revenue db r Hok) as Hr. destruct (insert_revenue_row db r) as [new db']. by apply IH.
Qed.

Lemma account_of_Ok db k a :
  ledger_ok db → account_of db k = Ok a → balance_msat a = bal db k ∧ held_msat a = held_of db k.
Proof.
  intros Hok. unfold account_of, sql_sum. case_match; simpl; [|done]. intros [= <-]. simpl.
  pose proof (bal_nonneg db k Hok). pose proof (held_nonneg db k Hok). unfold bal in *. lia.
Qed.

Lemma free_ge db k a amount :
  ledger_ok db → account_of db k = Ok a → 0 ≤ amount → (free_msat a <? amount) = false →
  held_of db k + amount ≤ bal db k.
Proof.
  intros Hok [Hb Hh]%account_of_Ok Ha Hf; [|done]. zbool. unfold free_msat, saturating_sub in Hf.
  rewrite Hb, Hh in Hf. pose proof (lo_covered _ Hok k). lia.
Qed.

(** ** The operations keep the invariant *)
Section preserve.
Context `{BitcoinLib}.

(** Credits: the row is new, or nothing happens. *)
Lemma credit_Ok now node hash amount db :
  ledger_ok db → 0 ≤ amount →
  (credited db node hash → credit now node hash amount db = Ok (false, db)) ∧
  (¬ credited db node hash → ∃ db', credit now node hash amount db = Ok (true, db') ∧ ledger_ok db' ∧
     db' = post db node (as_i64 amount) {| e_seq := next_seq db; e_node := node; e_at := u64_as_i64 now;
             e_kind := "received"; e_amount := as_i64 amount; e_fee := 0; e_hash := Some hash |}).
Proof.
  intros Hok Ha. unfold credit, insert_credit. split; intros Hc.
  - by rewrite decide_True.
  - rewrite decide_False by done. destruct (as_i64_range amount Ha) as [Hr _].
    pose proof (bal_nonneg db node Hok).
    rewrite add_balance_Ok by (unfold bal in *; simpl; lia).
    exists (post db node (as_i64 amount) {| e_seq := next_seq db; e_node := node; e_at := u64_as_i64 now;
      e_kind := "received"; e_amount := as_i64 amount; e_fee := 0; e_hash := Some hash |}).
    split_and!; [done| |done]. apply ok_post; try done.
    + pose proof (lo_covered _ Hok node). lia.
    + intros key [= <-]. by rewrite <-credited_key.
Qed.

Lemma hold_kind_Ok node id amount base kd db db' :
  ledger_ok db → 0 ≤ amount → 0 ≤ base → hold_kind node id amount base kd db = Ok db' →
  holds db !! id = None ∧ held_of db node + amount ≤ bal db node ∧
  db' = with_holds db (<[id := {| h_node := node; h_amount := as_i64 amount;
                                  h_base := as_i64 base; h_kind := kd |}]> (holds db)) ∧
  ledger_ok db'.
Proof.
  intros Hok Ha Hb. unfold hold_kind. intros (a & Hacc & E)%bind_Ok.
  apply bind_Ok in E as (? & Hf%bail_if_Ok & E). apply (free_ge db node) in Hf as Hcov; [|done..].
  destruct (holds db !! id) eqn:Hid; [done|]. injection E as <-. split_and!; [done..|].
  pose proof Hok as [Hac Hh Hc Hx Hn Hr].
  destruct (as_i64_range amount Ha) as [? ?], (as_i64_range base Hb) as [? ?]. split; try done.
  - intros i r. simpl. intros [[<- <-]|[_ ?]]%lookup_insert_Some; [simpl; lia|eauto].
  - intros j. unfold held_of. simpl. rewrite msum_insert by done. simpl.
    specialize (Hc j). unfold held_of in Hc, Hcov.
    change (bal (with_holds db _) j) with (bal db j). case_decide; [subst j|]; lia.
Qed.

Lemma take_hold_eq db id h :
  ledger_ok db → holds db !! id = Some h →
  take_hold db id = Ok (h_node h, h_amount h, with_holds db (delete id (holds db))).
Proof.
  intros Hok Hid. unfold take_hold. rewrite Hid. simpl.
  destruct (lo_holds _ Hok id h Hid). by rewrite Z.max_l by lia.
Qed.

(** What closing a hold with a debit does, whatever the entry. *)
Definition debited (db : Db) (id : string) (h : HoldRow) (x : Z) (e : EntryRow) : Db :=
  post (with_holds db (delete id (holds db))) (h_node h) (- x) e.

Lemma settle_hold_Ok now id spent fee hash db :
  ledger_ok db → 0 ≤ spent →
  match holds db !! id with
  | None => settle_hold now id spent fee hash db = Err (UnknownHold id)
  | Some h => ∃ db', settle_hold now id spent fee hash db = Ok db' ∧ ledger_ok db' ∧
      let x := Z.min spent (h_amount h) in
      db' = if 0 <? x then
              debited db id h x {| e_seq := next_seq db; e_node := h_node h; e_at := u64_as_i64 now;
                e_kind := "sent"; e_amount := - x; e_fee := as_i64 fee; e_hash := hash |}
            else with_holds db (delete id (holds db))
  end.
Proof.
  intros Hok Hs. destruct (holds db !! id) as [h|] eqn:Hid;
    [|unfold settle_hold, take_hold; by rewrite Hid].
  destruct (lo_holds _ Hok id h Hid) as [Hr _]. unfold settle_hold.
  rewrite (take_hold_eq db id h) by done. cbn [mbind result_bind].
  destruct (0 <? Z.min spent (h_amount h)) eqn:Hx; zbool.
  - rewrite as_i64_small by lia.
    destruct (ok_debit db id h (Z.min spent (h_amount h)) {| e_seq := next_seq db; e_node := h_node h;
      e_at := u64_as_i64 now; e_kind := "sent"; e_amount := - Z.min spent (h_amount h);
      e_fee := as_i64 fee; e_hash := hash |}) as [Hadd Hok']; try done; [lia..|].
    rewrite Hadd. eexists. split_and!; [done|exact Hok'|done].
  - eexists. split_and!; [done|by eapply ok_release|done].
Qed.

Lemma settle_withdrawal_Ok now id fee tx db :
  ledger_ok db →
  match holds db !! id with
  | None => settle_withdrawal now id fee tx db = Err (UnknownHold id)
  | Some h => ∃ db', settle_withdrawal now id fee tx db = Ok db' ∧ ledger_ok db' ∧
      let out := debited db id h (h_amount h) {| e_seq := next_seq db; e_node := h_node h;
                   e_at := u64_as_i64 now; e_kind := "withdrawn"; e_amount := - h_amount h;
                   e_fee := as_i64 fee; e_hash := Some tx |} in
      db' = if 0 <? fee then insert_revenue out now WithdrawalFee fee (Some (h_node h))
                               ("withdrawal:" +:+ hex_encode tx)
            else out
  end.
Proof.
  intros Hok. destruct (holds db !! id) as [h|] eqn:Hid;
    [|unfold settle_withdrawal, take_hold; by rewrite Hid].
  destruct (lo_holds _ Hok id h Hid) as [Hr _]. unfold settle_withdrawal.
  rewrite (take_hold_eq db id h) by done. cbn [mbind result_bind]. rewrite as_i64_small by lia.
  destruct (ok_debit db id h (h_amount h) {| e_seq := next_seq db; e_node := h_node h;
    e_at := u64_as_i64 now; e_kind := "withdrawn"; e_amount := - h_amount h;
    e_fee := as_i64 fee; e_hash := Some tx |}) as [Hadd Hok']; try done; [lia..|].
  rewrite Hadd. eexists. split_and!; [done| |done].
  case_match; [apply ok_revenue|]; exact Hok'.
Qed.

Lemma finish_conversion_Ok now id fee hash db :
  ledger_ok db →
  match holds db !! id with
  | None => finish_conversion_by now id fee hash db = Err (UnknownHold id)
  | Some h => ∃ db', finish_conversion_by now id fee hash db = Ok db' ∧ ledger_ok db' ∧
      let out := debited db id h (h_amount h) {| e_seq := next_seq db; e_node := h_node h;
                   e_at := u64_as_i64 now; e_kind := "converted"; e_amount := - h_amount h;
                   e_fee := as_i64 fee; e_hash := hash |} in
      db' = if 0 <? fee then insert_revenue out now ChannelFee fee (Some (h_node h)) ("conversion:" +:+ id)
            else out
  end.
Proof.
  intros Hok. destruct (holds db !! id) as [h|] eqn:Hid;
    [|unfold finish_conversion_by, take_hold; by rewrite Hid].
  destruct (lo_holds _ Hok id h Hid) as [Hr _]. unfold finish_conversion_by.
  rewrite (take_hold_eq db id h) by done. cbn [mbind result_bind]. rewrite as_i64_small by lia.
  destruct (ok_debit db id h (h_amount h) {| e_seq := next_seq db; e_node := h_node h;
    e_at := u64_as_i64 now; e_kind := "converted"; e_amount := - h_amount h;
    e_fee := as_i64 fee; e_hash := hash |}) as [Hadd Hok']; try done; [lia..|].
  rewrite Hadd. eexists. split_and!; [done| |done].
  case_match; [apply ok_revenue|]; exact Hok'.
Qed.

Lemma rename_hold_ok old new db db' :
  ledger_ok db → rename_hold old new db = Ok db' → ledger_ok db'.
Proof.
  intros Hok. unfold rename_hold. destruct (holds db !! old) as [h|] eqn:Ho; [|done].
  case_decide as Hd; [done|]. intros [= <-].
  assert (Hfree : delete old (holds db) !! new = None).
  { destruct (decide (new = old)) as [->|Hne]; [apply lookup_delete_eq|].
    rewrite lookup_delete_ne by done. apply eq_None_not_Some. tauto. }
  pose proof Hok as [Hac Hh Hc Hx Hn Hr]. split; try done.
  - intros i x. simpl. intros [[<- <-]|[_ [_ ?]%lookup_delete_Some]]%lookup_insert_Some; eauto.
  - intros j. unfold held_of. simpl. rewrite msum_insert, (msum_delete _ _ old h) by done.
    specialize (Hc j). unfold held_of in Hc. change (bal (with_holds db _) j) with (bal db j). lia.
Qed.

(** A transfer is two bookings. *)
Lemma transfer_Ok now from to hash amount db :
  ledger_ok db → 0 ≤ amount →
  (credited db to hash → transfer now from to hash amount db = Ok (false, db)) ∧
  (¬ credited db to hash →
     match account_of db from with
     | Ok a => if free_msat a <? amount then transfer now from to hash amount db = Err InsufficientBalance
               else ∃ e1 e2 db', transfer now from to hash amount db = Ok (true, db') ∧ ledger_ok db' ∧
                      e_node e1 = to ∧ e_amount e1 = as_i64 amount ∧ credit_key e1 = Some (to, hash) ∧
                      e_node e2 = from ∧ e_amount e2 = - as_i64 amount ∧
                      db' = post (post db to (as_i64 amount) e1) from (- as_i64 amount) e2
     | Err e => transfer now from to hash amount db = Err e
     | Panic => False
     end).
Proof.
  intros Hok Ha. unfold transfer, insert_credit. split; intros Hc; [by rewrite decide_True|].
  rewrite decide_False by done.
  set (e1 := {| e_seq := next_seq db; e_node := to; e_at := u64_as_i64 now; e_kind := "internal";
                e_amount := as_i64 amount; e_fee := 0; e_hash := Some hash |}).
  change (insert_entry db now to "internal" (as_i64 amount) 0 (Some hash))
    with (with_entries db (entries db ++ [e1])). cbn [fst snd].
  change (account_of (with_entries db (entries db ++ [e1])) from) with (account_of db from).
  destruct (account_of db from) as [a|err|] eqn:Hacc; [|done|].
  2:{ unfold account_of, sql_sum in Hacc. by case_match. }
  cbn [mbind result_bind]. destruct (free_msat a <? amount) eqn:Hf; [done|].
  apply (free_ge db from) in Hf as Hcov; [|done..].
  destruct (as_i64_range amount Ha) as [[Hx0 _] Hxa]. set (x := as_i64 amount) in *.
  cbn [bail_if mbind result_bind].
  pose proof (held_nonneg db from Hok). pose proof (lo_covered _ Hok to). pose proof (bal_nonneg db to Hok).
  assert (Hkey : credit_key e1 = Some (to, hash)) by done.
  assert (Hok1 : ledger_ok (post db to x e1)).
  { apply ok_post; try done; [lia|]. rewrite Hkey. intros key [= <-]. by rewrite <-credited_key. }
  rewrite add_balance_Ok by (unfold bal in *; simpl; lia). cbn [mbind result_bind].
  rewrite add_balance_Ok.
  2:{ unfold bal in *. simpl. destruct (decide (from = to)) as [->|Hne];
        [rewrite lookup_insert_eq; simpl|rewrite lookup_insert_ne by done]; lia. }
  cbn [mbind result_bind].
  set (db2 := insert_entry _ now from "internal" (- x) 0 None).
  exists e1, {| e_seq := next_seq db + 1; e_node := from; e_at := u64_as_i64 now; e_kind := "internal";
                e_amount := - x; e_fee := 0; e_hash := None |}, db2.
  assert (Hdb2 : db2 = post (post db to x e1) from (- x) {| e_seq := next_seq db + 1; e_node := from;
    e_at := u64_as_i64 now; e_kind := "internal"; e_amount := - x; e_fee := 0; e_hash := None |}).
  { unfold db2, insert_entry, post, with_entries, with_accounts, bal, next_seq. simpl. f_equal.
    - destruct (decide (from = to)) as [->|Hne].
      + rewrite !insert_insert_eq, !lookup_insert_eq. simpl. f_equal. lia.
      + rewrite !lookup_insert_ne by done. by rewrite insert_insert_ne by done.
    - rewrite length_app. simpl. do 3 f_equal. lia. }
  split_and!; try done. rewrite Hdb2. apply ok_post; try done.
  rewrite bal_post. change (held_of (post db to x e1) from) with (held_of db from). case_decide; lia.
Qed.

End preserve.

(** ** Histories of the ledger *)
Section traces.
Context `{BitcoinLib}.

Inductive Op : Type :=
| OpCredit (now : Z) (node : string) (hash : bytes) (amount : Z)
| OpHoldSend (node id : string) (amount reserve : Z)
| OpSettleSend (now : Z) (id : string) (fee : Z) (hash : option bytes)
| OpSettleHold (now : Z) (id : string) (spent fee : Z) (hash : option bytes)
| OpHoldWithdrawal (node id : string) (amount : Z)
| OpHoldKind (node id : string) (amount base : Z) (kd : string)
| OpSettleWithdrawal (now : Z) (id : string) (fee : Z) (tx : bytes)
| OpTransfer (now : Z) (from to : string) (hash : bytes) (amount : Z)
| OpStartConversion (node id : string)
| OpFinishConversion (now : Z) (id : string) (fee : Z) (hash : option bytes)
| OpAbandonConversion (id : string)
| OpRenameHold (old new : string)
| OpPruneNonces (now : Z)
| OpInsertNonce (node nonce : string) (expires_at : Z)
| OpPendingInvoice (hash : bytes) (node : string) (amount expires_at : Z)
| OpAddFeeInvoice (now : Z) (hash : bytes) (node : string) (amount : Z)
| OpFeeInvoicePaid (now : Z) (hash : bytes) (amount : Z)
| OpRecordRevenue (now : Z) (k : RevenueKind) (amount : Z) (node : option string) (reference : string)
| OpImportEarlier (now : Z) (payments : list (bytes * Z * Z))
| OpImportEntryFees (now : Z)
| OpSetPushToken (node token : string) (now : Z)
| OpDropPushToken (node token : string)
| OpSetOffer (node : string) (offer_id : bytes) (offer : string)
| OpHeldInsert (now : Z) (hash : bytes) (node : string) (preimage : bytes) (amount : Z)
| OpHeldSet (hash : bytes) (state : option string) (claimable : option (Z * option Z))
    (forward_id : option (option bytes)).

(** The amounts of an operation are unsigned. *)
Definition op_wf (op : Op) : Prop :=
  match op with
  | OpCredit _ _ _ a | OpHoldWithdrawal _ _ a | OpTransfer _ _ _ _ a => 0 ≤ a
  | OpHoldSend _ _ a r | OpHoldKind _ _ a r _ => 0 ≤ a ∧ 0 ≤ r
  | OpSettleSend _ _ f _ => 0 ≤ f
  | OpSettleHold _ _ s _ _ => 0 ≤ s
  | _ => True
  end.

(** A failed operation leaves the database as it was. *)
Definition committed {A} (db : Db) (r : LResult (A * Db)) : Db :=
  match r with Ok (_, db') => db' | _ => db end.
Definition committed_unit (db : Db) (r : LResult Db) : Db :=
  match r with Ok db' => db' | _ => db end.

Definition exec_op (op : Op) (db : Db) : Db :=
  match op with
  | OpCredit now node hash a => committed db (credit now node hash a db)
  | OpHoldSend node id a r => committed_unit db (hold_send node id a r db)
  | OpSettleSend now id f h => committed_unit db (settle_send now id f h db)
  | OpSettleHold now id s f h => committed_unit db (settle_hold now id s f h db)
  | OpHoldWithdrawal node id a => committed_unit db (hold_withdrawal node id a db)
  | OpHoldKind node id a b kd => committed_unit db (hold_kind node id a b kd db)
  | OpSettleWithdrawal now id f tx => committed_unit db (settle_withdrawal now id f tx db)
  | OpTransfer now from to h a => committed db (transfer now from to h a db)
  | OpStartConversion node id => committed db (start_conversion node id db)
  | OpFinishConversion now id f h => committed_unit db (finish_conversion_by now id f h db)
  | OpAbandonConversion id => committed_unit db (abandon_conversion id db)
  | OpRenameHold old new => committed_unit db (rename_hold old new db)
  | OpPruneNonces now => prune_nonces now db
  | OpInsertNonce node nonce e => snd (insert_nonce node nonce e db)
  | OpPendingInvoice h node a e => pending_invoice h node a e db
  | OpAddFeeInvoice now h node a => add_fee_invoice now h node a db
  | OpFeeInvoicePaid now h a => snd (fee_invoice_paid now h a db)
  | OpRecordRevenue now k a node reference => snd (record_revenue now k a node reference db)
  | OpImportEarlier now ps => snd (import_earlier now ps db)
  | OpImportEntryFees now => snd (import_entry_fees now db)
  | OpSetPushToken node token now => set_push_token node token now db
  | OpDropPushToken node token => drop_push_token node token db
  | OpSetOffer node id o => set_offer node id o db
  | OpHeldInsert now h node p a => committed_unit db (held_insert now h node p a db)
  | OpHeldSet h s c f => held_set h s c f db
  end.

Definition run_ops (ops : list Op) (db : Db) : Db := foldl (λ db op, exec_op op db) db ops.

(** The databases the service can reach from a new file. *)
Inductive reachable : Db → Prop :=
| reach_open : reachable empty_db
| reach_op op db : op_wf op → reachable db → reachable (exec_op op db).

Lemma committed_ok {A} db (r : LResult (A * Db)) :
  ledger_ok db → (∀ a db', r = Ok (a, db') → ledger_ok db') → ledger_ok (committed db r).
Proof. destruct r as [[a db']| |]; simpl; eauto. Qed.

Lemma committed_unit_ok db (r : LResult Db) :
  ledger_ok db → (∀ db', r = Ok db' → ledger_ok db') → ledger_ok (committed_unit db r).
Proof. destruct r as [db'| |]; simpl; eauto. Qed.

Lemma settled_ok {P : HoldRow → Db → Prop} db id (r : LResult Db) db' :
  match holds db !! id with
  | None => r = Err (UnknownHold id)
  | Some h => ∃ d, r = Ok d ∧ ledger_ok d ∧ P h d
  end → r = Ok db' → ledger_ok db'.
Proof. destruct (holds db !! id); [intros (d & -> & ? & _) [= <-]; done|by intros ->]. Qed.

Lemma settle_send_eq now id fee hash db h :
  holds db !! id = Some h →
  settle_send now id fee hash db =
  settle_hold now id (saturating_add u64_max (Z.max (h_base h) 0) fee) fee hash db.
Proof. intros Hid. unfold settle_send. by rewrite Hid. Qed.

Lemma start_conversion_Ok node id db free db' :
  ledger_ok db → start_conversion node id db = Ok (free, db') →
  free = bal db node - held_of db node ∧ hold_kind node id free free "conversion" db = Ok db'.
Proof.
  intros Hok (a & Ha & E)%bind_Ok. apply bind_Ok in E as (db1 & Hk & [= <- <-]).
  apply account_of_Ok in Ha as [Hb Hh]; [|done]. split; [|done].
  unfold free_msat, saturating_sub. rewrite Hb, Hh. pose proof (lo_covered _ Hok node). lia.
Qed.

Ltac other_tables := eapply ledger_ok_same; [|eassumption]; done.

Lemma exec_op_ok op db : op_wf op → ledger_ok db → ledger_ok (exec_op op db).
Proof.
  intros Hwf Hok. destruct op; simpl in *;
    try (apply committed_ok; [done|]; intros x db' E);
    try (apply committed_unit_ok; [done|]; intros db' E);
    try other_tables.
  - destruct (credit_Ok now node hash amount db Hok Hwf) as [Hy Hn].
    destruct (decide (credited db node hash)) as [Hc|Hc]; [rewrite Hy in E by done; by simplify_eq|].
    destruct (Hn Hc) as (d & Hd & ? & _). rewrite Hd in E. by simplify_eq.
  - unfold hold_send in E. eapply hold_kind_Ok; [done|..|exact E]; lia.
  - destruct (holds db !! id) as [h|] eqn:Hid; [|unfold settle_send in E; by rewrite Hid in E].
    rewrite (settle_send_eq _ _ _ _ _ h Hid) in E.
    eapply settled_ok; [apply (settle_hold_Ok now id (saturating_add u64_max (Z.max (h_base h) 0) fee) fee hash db Hok)
      |exact E].
    unfold saturating_add, u64_max. lia.
  - eapply settled_ok; [by apply (settle_hold_Ok now id spent fee hash db Hok)|exact E].
  - unfold hold_withdrawal in E. by eapply hold_kind_Ok; [..|exact E].
  - destruct Hwf. by eapply hold_kind_Ok; [..|exact E].
  - eapply settled_ok; [by apply (settle_withdrawal_Ok now id fee tx db Hok)|exact E].
  - destruct (transfer_Ok now from to hash amount db Hok Hwf) as [Hy Hn].
    destruct (decide (credited db to hash)) as [Hc|Hc]; [rewrite Hy in E by done; by simplify_eq|].
    specialize (Hn Hc). destruct (account_of db from); [|by rewrite Hn in E|done].
    destruct (_ <? _); [by rewrite Hn in E|]. destruct Hn as (? & ? & d & Hd & ? & _).
    rewrite Hd in E. by simplify_eq.
  - apply start_conversion_Ok in E as [Hf E]; [|done]. pose proof (lo_covered _ Hok node).
    eapply hold_kind_Ok; [done|..|exact E]; lia.
  - eapply settled_ok; [by apply (finish_conversion_Ok now id fee hash db Hok)|exact E].
  - unfold abandon_conversion, take_hold in E. destruct (holds db !! id) eqn:Hid; [|done].
    injection E as <-. by eapply ok_release.
  - by eapply rename_hold_ok.
  - unfold insert_nonce. case_match; [done|]. other_tables.
  - unfold add_fee_invoice. case_match; [done|]. other_tables.
  - unfold fee_invoice_paid. case_match; [|done]. by apply ok_revenue.
  - unfold record_revenue. case_match; [done|]. by apply ok_revenue.
  - unfold import_earlier. case_decide; [done|].
    match goal with |- context [insert_revenue_rows ?l db] =>
      pose proof (ok_revenue_rows l db Hok); destruct (insert_revenue_rows l db) end. by apply ok_revenue.
  - unfold import_entry_fees. case_decide; [done|].
    match goal with |- context [insert_revenue_rows ?l db] =>
      pose proof (ok_revenue_rows l db Hok); destruct (insert_revenue_rows l db) end. by apply ok_revenue.
  - unfold drop_push_token. repeat (case_match; try done). other_tables.
  - unfold held_insert in E. case_match; [done|]. injection E as <-. other_tables.
Qed.

Lemma reachable_ok db : reachable db → ledger_ok db.
Proof. induction 1; [apply ledger_ok_empty|by apply exec_op_ok]. Qed.

(** Whatever the service does, in any order, with any failures, the
    ledger stays sound: no balance is negative, the holds of an account never
    exceed its balance, every balance is exactly the sum of the account's
    entries, no payment is credited twice to a node, and no revenue is counted
    twice. *)
Theorem ledger_sound db : reachable db → ledger_ok db.
Proof. apply reachable_ok. Qed.

End traces.

(** ** What the operations do *)

(** Entries are only ever appended, and only the statements of [use_nonce] touch
    the nonces. *)
Definition grows (db db' : Db) : Prop := entries db `prefix_of` entries db' ∧ nonces db = nonces db'.

#[export] Instance grows_preorder : PreOrder grows.
Proof.
  split; [by intros db|]. intros a b c [H1 E1] [H2 E2]. split; [by etrans|congruence].
Qed.

Lemma grows_entry db now node kd a f h : grows db (insert_entry db now node kd a f h).
Proof. split; [by eexists|done]. Qed.

Lemma grows_add_balance db k d db' : add_balance db k d = Ok db' → grows db db'.
Proof. unfold add_balance. intros. repeat (case_match; simplify_eq); done. Qed.

Lemma grows_take_hold db id k a db' : take_hold db id = Ok (k, a, db') → grows db db'.
Proof. intros (h & _ & [= _ _ <-])%bind_Ok. done. Qed.

Lemma grows_revenue_row db r : grows db (snd (insert_revenue_row db r)).
Proof. unfold insert_revenue_row. by case_decide. Qed.

Lemma grows_revenue_rows rows db : grows db (snd (insert_revenue_rows rows db)).
Proof.
  unfold insert_revenue_rows. generalize 0%nat as n. revert db.
  induction rows as [|r rows IH]; intros db n; [done|]. simpl.
  pose proof (grows_revenue_row db r) as Hr. destruct (insert_revenue_row db r) as [new db'].
  etrans; [exact Hr|apply IH].
Qed.

Section effects.
Context `{BitcoinLib}.

(** The three operations that close a hold with a debit. *)
Lemma grows_debit db id (f : string → Z → Z) (g : string → Z → Db → Db) db' :
  (∀ k a d, grows d (g k a d)) →
  ('(k, a, d) ← take_hold db id; d ← add_balance d k (f k a); mret (g k a d)) = Ok db' → grows db db'.
Proof.
  intros Hg ([[k a] d] & Ht & E)%bind_Ok. apply bind_Ok in E as (d' & Ha & [= <-]).
  etrans; [by eapply grows_take_hold|]. etrans; [by eapply grows_add_balance|apply Hg].
Qed.

Lemma grows_hold_kind node id a b kd db db' : hold_kind node id a b kd db = Ok db' → grows db db'.
Proof.
  intros (? & _ & E)%bind_Ok. apply bind_Ok in E as (? & _ & E).
  destruct (holds db !! id); [done|]. by injection E as <-.
Qed.

Lemma grows_settle_hold now id s f h db db' : settle_hold now id s f h db = Ok db' → grows db db'.
Proof.
  intros ([[k a] d] & Ht & E)%bind_Ok. etrans; [by eapply grows_take_hold|].
  cbv zeta in E. destruct (0 <? Z.min s a); [|by injection E as <-]. apply bind_Ok in E as (d' & Ha & [= <-]).
  etrans; [by eapply grows_add_balance|apply grows_entry].
Qed.

Lemma grows_credit now node hash a db b db' : credit now node hash a db = Ok (b, db') → grows db db'.
Proof.
  unfold credit, insert_credit. case_decide; [by intros [= _ <-]|].
  intros (d & Hd & [= _ <-])%bind_Ok. etrans; [apply grows_entry|by eapply grows_add_balance].
Qed.

Lemma grows_transfer now from to hash a db b db' : transfer now from to hash a db = Ok (b, db') → grows db db'.
Proof.
  unfold transfer, insert_credit. case_decide; [by intros [= _ <-]|].
  intros (acc & _ & E)%bind_Ok. apply bind_Ok in E as (? & _ & E).
  apply bind_Ok in E as (d1 & H1 & E). apply bind_Ok in E as (d2 & H2 & [= _ <-]).
  etrans; [apply grows_entry|]. etrans; [by eapply grows_add_balance|].
  etrans; [by eapply grows_add_balance|apply grows_entry].
Qed.

Lemma grows_if_revenue db now node kd x a f h k fee reference :
  grows db (let d := insert_entry db now node kd a f h in
            if 0 <? fee then insert_revenue d now k fee x reference else d).
Proof. simpl. case_match; [etrans; [apply grows_entry|apply grows_revenue_row]|apply grows_entry]. Qed.

Lemma exec_op_grows op db :
  entries db `prefix_of` entries (exec_op op db) ∧
  match op with OpPruneNonces _ | OpInsertNonce _ _ _ => True | _ => nonces db = nonces (exec_op op db) end.
Proof.
  assert (Hc : ∀ A (r : LResult (A * Db)), (∀ a d, r = Ok (a, d) → grows db d) → grows db (committed db r)).
  { intros A [[a d]| |]; simpl; eauto. by intros. by intros. }
  assert (Hu : ∀ r : LResult Db, (∀ d, r = Ok d → grows db d) → grows db (committed_unit db r)).
  { intros [d| |]; simpl; eauto. by intros. by intros. }
  destruct op; try (by (unfold exec_op, insert_nonce; try case_match)); apply (λ x : grows _ _, x); simpl;
    try (apply Hc; intros x d E); try (apply Hu; intros d E); try done.
  - by eapply grows_credit.
  - by eapply grows_hold_kind.
  - unfold settle_send in E. apply bind_Ok in E as (h & _ & E). by eapply grows_settle_hold.
  - by eapply grows_settle_hold.
  - by eapply grows_hold_kind.
  - by eapply grows_hold_kind.
  - eapply (grows_debit db id (λ _ a, - as_i64 a)); [|exact E]. intros. apply grows_if_revenue.
  - by eapply grows_transfer.
  - unfold start_conversion in E. apply bind_Ok in E as (a & _ & E).
    apply bind_Ok in E as (d' & E & [= _ <-]). by eapply grows_hold_kind.
  - eapply (grows_debit db id (λ _ a, - as_i64 a)); [|exact E]. intros. apply grows_if_revenue.
  - unfold abandon_conversion in E. apply bind_Ok in E as ([[k a] d'] & Ht & [= <-]).
    by eapply grows_take_hold.
  - unfold rename_hold in E. repeat (case_match; try done). by injection E as <-.
  - unfold add_fee_invoice. by case_match.
  - unfold fee_invoice_paid. case_match; [apply grows_revenue_row|done].
  - unfold record_revenue. case_match; [done|apply grows_revenue_row].
  - unfold import_earlier. case_decide; [done|].
    match goal with |- context [insert_revenue_rows ?l db] =>
      pose proof (grows_revenue_rows l db) as Hr; destruct (insert_revenue_rows l db) end.
    eapply (transitivity (R:=grows)); [exact Hr|apply grows_revenue_row].
  - unfold import_entry_fees. case_decide; [done|].
    match goal with |- context [insert_revenue_rows ?l db] =>
      pose proof (grows_revenue_rows l db) as Hr; destruct (insert_revenue_rows l db) end.
    eapply (transitivity (R:=grows)); [exact Hr|apply grows_revenue_row].
  - unfold drop_push_token. by repeat case_match.
  - unfold held_insert in E. case_match; [done|]. by injection E as <-.
Qed.

Lemma run_ops_grows ops db : entries db `prefix_of` entries (run_ops ops db).
Proof.
  revert db. induction ops as [|op ops IH]; intros db; [done|]. simpl.
  etrans; [apply exec_op_grows|apply IH].
Qed.

Lemma credited_grows db db' node hash :
  entries db `prefix_of` entries db' → credited db node hash → credited db' node hash.
Proof. intros [l Hl]. unfold credited. rewrite Hl, Exists_app. by left. Qed.

Lemma run_ops_ok ops db : Forall op_wf ops → ledger_ok db → ledger_ok (run_ops ops db).
Proof.
  intros Hops. revert db. induction Hops as [|op ops Hop _ IH]; intros db Hok; [done|].
  simpl. apply IH. by apply exec_op_ok.
Qed.

Lemma msum_post db k d e :
  msum (λ _ b, b) (accounts (post db k d e)) = msum (λ _ b, b) (accounts db) + d.
Proof.
  simpl. unfold bal. destruct (accounts db !! k) as [b|] eqn:Hk; simpl.
  - rewrite (msum_update _ _ k b) by done. lia.
  - rewrite msum_insert by done. lia.
Qed.

Lemma nonce_live now e db key :
  e ≤ i64_max → now ≤ e → nonces db !! key = Some e → nonces (prune_nonces now db) !! key = Some e.
Proof.
  intros Hm Hn Hk. apply map_lookup_filter_Some. split; [done|]. simpl. unfold u64_as_i64.
  by rewrite (proj2 (Z.leb_le now i64_max)) by lia.
Qed.

Lemma nonce_kept node nonce expires e db key :
  nonces db !! key = Some e → nonces (snd (insert_nonce node nonce expires db)) !! key = Some e.
Proof.
  intros Hk. unfold insert_nonce. destruct (nonces db !! (node, nonce)) eqn:Hf; simpl; [done|].
  rewrite lookup_insert_ne; [done|]. intros <-. by rewrite Hk in Hf.
Qed.

Lemma revenue_holds db now k a n r : holds (insert_revenue db now k a n r) = holds db.
Proof. unfold insert_revenue, insert_revenue_row. by case_decide. Qed.

Lemma revenue_bal db now k a n r j : bal (insert_revenue db now k a n r) j = bal db j.
Proof. unfold insert_revenue, insert_revenue_row. by case_decide. Qed.

Lemma revenue_inserted db now k a n r :
  revenue_known (insert_revenue db now k a n r) (revenue_kind_str k) r.
Proof.
  unfold insert_revenue, insert_revenue_row. case_decide as Hd; [done|].
  apply revenue_known_key. simpl. rewrite map_app. set_solver.
Qed.

(** The life of an account send: what is held is taken only while free,
    a send that went through debits the amount and the routing fee, never more
    than was reserved, and a send that failed leaves all the money exactly
    where it was.  No other account is touched, and the hold is gone. *)
Theorem send_lifecycle now node id amount reserve fee hash db db1 :
  ledger_ok db → bal db node ≤ i64_max → 0 ≤ amount → 0 ≤ reserve → 0 ≤ fee →
  hold_send node id amount reserve db = Ok db1 →
  held_of db1 node = held_of db node + Z.max reserve amount ∧
  (∃ db2, settle_send now id fee hash db1 = Ok db2 ∧ ledger_ok db2 ∧ holds db2 = holds db ∧
     ∀ k, bal db2 k = bal db k - (if decide (k = node) then Z.min (amount + fee) (Z.max reserve amount) else 0)) ∧
  (∃ db3, settle_hold now id 0 fee hash db1 = Ok db3 ∧ same_money db db3).
Proof.
  intros Hok Hmax Ha Hr Hf E. unfold hold_send in E.
  apply hold_kind_Ok in E as (Hnew & Hcov & -> & Hok1); [|done|lia..].
  pose proof (held_nonneg db node Hok).
  rewrite !as_i64_small in * by lia.
  set (h := {| h_node := node; h_amount := Z.max reserve amount; h_base := amount; h_kind := "send" |}) in *.
  set (db1 := with_holds db (<[id := h]> (holds db))) in *.
  assert (Hid : holds db1 !! id = Some h) by apply lookup_insert_eq.
  assert (Hback : delete id (holds db1) = holds db) by by apply delete_insert_id.
  split_and!.
  - unfold held_of. simpl. rewrite msum_insert by done. simpl. rewrite decide_True by done. lia.
  - rewrite (settle_send_eq _ _ _ _ _ h Hid). simpl.
    pose proof (settle_hold_Ok now id (saturating_add u64_max (Z.max amount 0) fee) fee hash db1 Hok1) as Hs.
    rewrite Hid in Hs. destruct Hs as (db2 & E2 & Hok2 & Hdb2); [unfold saturating_add, u64_max; lia|].
    exists db2. split_and!; [done|done|..]; rewrite Hdb2; simpl.
    + case_match; exact Hback.
    + assert (Hx : Z.min (saturating_add u64_max (Z.max amount 0) fee) (Z.max reserve amount)
        = Z.min (amount + fee) (Z.max reserve amount)) by (unfold saturating_add, u64_max, i64_max in *; lia).
      rewrite Hx. intros k. destruct (0 <? _) eqn:Hpos; zbool.
      * unfold debited. rewrite bal_post. simpl. change (bal (with_holds db1 _) k) with (bal db k).
        case_decide; lia.
      * change (bal (with_holds db1 _) k) with (bal db k). case_decide; lia.
  - pose proof (settle_hold_Ok now id 0 fee hash db1 Hok1) as Hs. rewrite Hid in Hs.
    destruct Hs as (db3 & E3 & _ & Hdb3); [lia|]. exists db3. split; [done|]. rewrite Hdb3. simpl.
    rewrite Z.min_l by lia. by split_and!.
Qed.

(** A payment is credited once: the first credit adds exactly its amount
    to the node, and after it, whatever else happens, another credit of the
    same payment hash to the same node answers "already" and changes nothing
    (so a replayed event is harmless). *)
Theorem credit_once now node hash amount db b db1 ops now' amount' :
  ledger_ok db → 0 ≤ amount → 0 ≤ amount' → Forall op_wf ops →
  credit now node hash amount db = Ok (b, db1) →
  (∀ k, bal db1 k = bal db k + (if decide (b = true ∧ k = node) then as_i64 amount else 0)) ∧
  (b = false → db1 = db) ∧
  credit now' node hash amount' (run_ops ops db1) = Ok (false, run_ops ops db1).
Proof.
  intros Hok Ha Ha' Hops E. destruct (credit_Ok now node hash amount db Hok Ha) as [Hy Hn].
  assert (Hlater : credited db1 node hash → ledger_ok db1 →
    credit now' node hash amount' (run_ops ops db1) = Ok (false, run_ops ops db1)).
  { intros Hc Hok1. apply credit_Ok; [by apply run_ops_ok|done|].
    by eapply credited_grows; [apply run_ops_grows|]. }
  destruct (decide (credited db node hash)) as [Hc|Hc].
  - rewrite Hy in E by done. injection E as <- <-. split_and!; [|done|by apply Hlater].
    intros k. rewrite decide_False by naive_solver. lia.
  - destruct (Hn Hc) as (d & Hd & Hokd & Heq). rewrite Hd in E. injection E as <- <-. split_and!.
    + intros k. rewrite Heq, bal_post. destruct (decide (k = node)); [rewrite decide_True by done|
        rewrite decide_False by naive_solver]; lia.
    + done.
    + apply Hlater; [|done]. rewrite Heq. apply credited_key. simpl. rewrite omap_app. set_solver.
Qed.

(** A transfer between accounts is all or nothing and moves money only
    between the two: it succeeds exactly when the payer's free balance covers
    it (or the payment was already transferred, and then nothing changes),
    every balance moves by exactly the amount, and total custody is the same
    before and after. *)
Theorem transfer_conserves now from to hash amount db r :
  ledger_ok db → 0 ≤ amount ≤ i64_max → held_of db from ≤ i64_max →
  transfer now from to hash amount db = r →
  (credited db to hash ∧ r = Ok (false, db)) ∨
  (¬ credited db to hash ∧ bal db from - held_of db from < amount ∧ r = Err InsufficientBalance) ∨
  (¬ credited db to hash ∧ amount ≤ bal db from - held_of db from ∧
   ∃ db', r = Ok (true, db') ∧ ledger_ok db' ∧ holds db' = holds db ∧
     (∀ k, bal db' k = bal db k - (if decide (k = from) then amount else 0)
                                + (if decide (k = to) then amount else 0)) ∧
     msum (λ _ b, b) (accounts db') = msum (λ _ b, b) (accounts db)).
Proof.
  intros Hok Ha Hh <-. destruct (transfer_Ok now from to hash amount db Hok ltac:(lia)) as [Hy Hn].
  destruct (decide (credited db to hash)) as [Hc|Hc]; [left; by auto|right]. specialize (Hn Hc).
  destruct (account_of db from) as [a|err|] eqn:Hacc; [|exfalso|done].
  2:{ unfold account_of, sql_sum in Hacc. by rewrite (proj2 (Z.leb_le _ _) Hh) in Hacc. }
  apply account_of_Ok in Hacc as [Hb Hd]; [|done].
  assert (Hfree : free_msat a = bal db from - held_of db from).
  { unfold free_msat, saturating_sub. rewrite Hb, Hd. pose proof (lo_covered _ Hok from). lia. }
  rewrite Hfree in Hn. destruct (_ <? _) eqn:Hlt; zbool; [left; by auto|right].
  split_and!; [done..|]. destruct Hn as (e1 & e2 & db' & E & Hok' & H1 & H2 & _ & H3 & H4 & ->).
  rewrite as_i64_small in * by lia. exists (post (post db to amount e1) from (- amount) e2).
  split_and!; try done.
  - intros k. rewrite !bal_post. repeat case_decide; lia.
  - rewrite !msum_post. lia.
Qed.

(** A request's nonce works once: after it was accepted, every later use
    of the same node and nonce is refused as long as no prune ran with a clock
    past the request's expiry, whatever other operations and requests come
    between. *)
Theorem nonce_single_use node nonce expires_at db db1 ops expires' :
  expires_at ≤ i64_max →
  Forall (λ op, match op with OpPruneNonces t => t ≤ expires_at | _ => True end) ops →
  insert_nonce node nonce expires_at db = (true, db1) →
  fst (insert_nonce node nonce expires' (run_ops ops db1)) = false.
Proof.
  intros Hmax Hops E.
  assert (H1 : nonces db1 !! (node, nonce) = Some expires_at).
  { unfold insert_nonce in E. case_match; [done|]. injection E as <-. simpl.
    rewrite lookup_insert_eq. unfold u64_as_i64. by rewrite (proj2 (Z.leb_le _ _) Hmax). }
  assert (H2 : nonces (run_ops ops db1) !! (node, nonce) = Some expires_at).
  { clear E. revert db1 H1. induction Hops as [|op ops Hop _ IH]; intros db1 H1; [done|].
    simpl. apply IH. pose proof (exec_op_grows op db1) as [_ Hn].
    destruct op; try (by rewrite <-Hn); [by apply nonce_live|by apply nonce_kept]. }
  unfold insert_nonce. by rewrite H2.
Qed.

(** Converting a balance: all of the free balance is held, no more of it
    can be held meanwhile, finishing debits exactly what was held and books the
    fee as revenue once, and abandoning puts every balance and hold back. *)
Theorem conversion_lifecycle now node id fee hash db free db1 :
  ledger_ok db → bal db node ≤ i64_max →
  start_conversion node id db = Ok (free, db1) →
  free = bal db node - held_of db node ∧ held_of db1 node = bal db1 node ∧
  (∀ id' amount base kd db', 0 < amount → 0 ≤ base → hold_kind node id' amount base kd db1 ≠ Ok db') ∧
  (∃ db2, finish_conversion_by now id fee hash db1 = Ok db2 ∧ ledger_ok db2 ∧ holds db2 = holds db ∧
     (∀ k, bal db2 k = bal db k - (if decide (k = node) then free else 0)) ∧
     (0 < fee → revenue_known db2 "channel_fee" ("conversion:" +:+ id))) ∧
  (∃ db3, abandon_conversion id db1 = Ok db3 ∧ same_money db db3).
Proof.
  intros Hok Hmax E. apply start_conversion_Ok in E as [Hfree E]; [|done].
  pose proof (lo_covered _ Hok node). pose proof (held_nonneg db node Hok).
  apply hold_kind_Ok in E as (Hnew & _ & -> & Hok1); [|done|lia..].
  rewrite as_i64_small in * by lia.
  set (h := {| h_node := node; h_amount := free; h_base := free; h_kind := "conversion" |}) in *.
  set (db1 := with_holds db (<[id := h]> (holds db))) in *.
  assert (Hid : holds db1 !! id = Some h) by apply lookup_insert_eq.
  assert (Hback : delete id (holds db1) = holds db) by by apply delete_insert_id.
  assert (Hheld : held_of db1 node = bal db1 node).
  { unfold held_of. simpl. rewrite msum_insert by done. simpl. rewrite decide_True by done.
    change (bal db1 node) with (bal db node). unfold held_of in *. lia. }
  split_and!; [done|done|..].
  - intros id' amount base kd db' Ha Hb Hk. apply hold_kind_Ok in Hk as (_ & Hc & _); [|done|lia..]. lia.
  - pose proof (finish_conversion_Ok now id fee hash db1 Hok1) as Hs. rewrite Hid in Hs.
    destruct Hs as (db2 & E2 & Hok2 & Hdb2). exists db2.
    assert (Hsame : holds db2 = holds db ∧
      ∀ k, bal db2 k = bal db k - (if decide (k = node) then free else 0)).
    { rewrite Hdb2. simpl. case_match; rewrite ?revenue_holds, ?revenue_bal;
        (split; [done|]); intros k; rewrite ?revenue_bal; unfold debited; rewrite bal_post; simpl;
        change (bal (with_holds db1 _) k) with (bal db k); case_decide; lia. }
    destruct Hsame. split_and!; try done. intros Hf. rewrite Hdb2. simpl.
    rewrite (proj2 (Z.ltb_lt _ _) Hf). apply revenue_inserted.
  - unfold abandon_conversion. rewrite (take_hold_eq db1 id h) by done. eexists. split; [done|].
    by split_and!.
Qed.

End effects.

(** ** Witnesses *)
(** A small history: 50,000 msat credited to ann, 8,000 of it passed to bob. *)
Definition example_ops : list Op := [
  OpCredit 100 "ann" [x01] 50_000;
  OpTransfer 110 "ann" "bob" [x02] 8_000].

Definition example_db : Db := run_ops example_ops empty_db.

Lemma example_ops_wf : Forall op_wf example_ops.
Proof. repeat constructor; done. Qed.

Lemma example_reachable : reachable example_db.
Proof. do 2 (apply reach_op; [done|]). apply reach_open. Qed.

Lemma example_db_ok : ledger_ok example_db.
Proof. apply reachable_ok, example_reachable. Qed.

Lemma ledger_sound_witness : ledger_ok example_db ∧ bal example_db "ann" = 42_000.
Proof. split; [exact (ledger_sound example_db example_reachable)|vm_compute; reflexivity]. Defined.

(** A send of 10,000 msat with 1,000 reserved for routing. *)
Lemma example_hold : ∃ db1, hold_send "ann" "s1" 10_000 11_000 example_db = Ok db1.
Proof.
  destruct (ok_with_elim (λ _, true) (hold_send "ann" "s1" 10_000 11_000 example_db)) as (db1 & E & _);
    [vm_compute; reflexivity|]. exists db1. exact E.
Qed.

Lemma send_lifecycle_witness :
  ∃ db1 db2, hold_send "ann" "s1" 10_000 11_000 example_db = Ok db1 ∧
    settle_send 120 "s1" 300 None db1 = Ok db2 ∧ bal db2 "ann" = bal example_db "ann" - 10_300.
Proof.
  destruct example_hold as (db1 & E).
  destruct (send_lifecycle 120 "ann" "s1" 10_000 11_000 300 None example_db db1 example_db_ok
    ltac:(vm_compute; discriminate) ltac:(lia) ltac:(lia) ltac:(lia) E) as (_ & (db2 & E2 & _ & _ & Hb) & _).
  exists db1, db2. split; [exact E|]. split; [exact E2|exact (Hb "ann")].
Defined.

Lemma example_credit : ∃ b db1, credit 200 "bob" [x03] 700 example_db = Ok (b, db1).
Proof.
  destruct (ok_with_elim (λ _, true) (credit 200 "bob" [x03] 700 example_db)) as ([b db1] & E & _);
    [vm_compute; reflexivity|]. exists b, db1. exact E.
Qed.

Lemma credit_once_witness :
  ∃ db1, credit 300 "bob" [x03] 700 (run_ops example_ops db1) = Ok (false, run_ops example_ops db1).
Proof.
  destruct example_credit as (b & db1 & E). exists db1.
  exact (proj2 (proj2 (credit_once 200 "bob" [x03] 700 example_db b db1 example_ops 300 700 example_db_ok
    ltac:(lia) ltac:(lia) example_ops_wf E))).
Defined.

Lemma transfer_conserves_witness :
  transfer 200 "bob" "ann" [x09] 9_000 example_db = Err InsufficientBalance.
Proof.
  destruct (transfer_conserves 200 "bob" "ann" [x09] 9_000 example_db _ example_db_ok
    ltac:(vm_compute; split; discriminate) ltac:(vm_compute; discriminate) eq_refl)
    as [[Hc _]|[(_ & _ & E)|(_ & Hle & _)]].
  - exfalso. refine (bool_decide_eq_false_1 (credited example_db "ann" [x09]) _ Hc). vm_compute. reflexivity.
  - exact E.
  - exfalso. revert Hle. vm_compute. intros Hle. exact (Hle eq_refl).
Defined.

Lemma example_nonce : ∃ db1, insert_nonce "ann" "n1" 400 example_db = (true, db1).
Proof. eexists. reflexivity. Qed.

Lemma nonce_single_use_witness : ∃ db1,
  fst (insert_nonce "ann" "n1" 600 (run_ops [OpPruneNonces 350; OpInsertNonce "bob" "n1" 500] db1)) = false.
Proof.
  destruct example_nonce as (db1 & E). exists db1.
  exact (nonce_single_use "ann" "n1" 400 example_db db1 [OpPruneNonces 350; OpInsertNonce "bob" "n1" 500] 600
    ltac:(vm_compute; discriminate) ltac:(repeat constructor; lia) E).
Defined.

Lemma example_conversion : ∃ free db1, start_conversion "ann" "c1" example_db = Ok (free, db1).
Proof.
  destruct (ok_with_elim (λ _, true) (start_conversion "ann" "c1" example_db)) as ([f db1] & E & _);
    [vm_compute; reflexivity|]. exists f, db1. exact E.
Qed.

Lemma conversion_lifecycle_witness :
  ∃ free db1, start_conversion "ann" "c1" example_db = Ok (free, db1) ∧
    free = bal example_db "ann" - held_of example_db "ann".
Proof.
  destruct example_conversion as (free & db1 & E). exists free, db1. split; [exact E|].
  exact (proj1 (conversion_lifecycle 300 "ann" "c1" 500 None example_db free db1 example_db_ok
    ltac:(vm_compute; discriminate) E)).
Defined.
