(* ===== verification/Store.v ===== *)
(** The edge's durable swap state ([fortis-edge/src/swap/store.rs]): offers,
    matches, the message relay, watchtower jobs, strikes and recovery tags.

    Each RocksDB column family is a finite map from its keys; a scan visits
    them in key (byte) order.  Reading and writing the database and its JSON is
    not modelled to fail.  An operation that can fail is a state transformer
    that keeps what it wrote before the failure ([M]): RocksDB writes are not
    rolled back.  Random ids come from a source [fresh], the count of ids drawn
    is part of the state.  So is the history of the matches and jobs written:
    no operation reads it, theorems use it to say what was stored before. *)

From Stdlib Require Import Ascii.
From S2P Require Import Prelude Json Chain SwapTerms.

Definition STRIKE_WINDOW_SECS : Z := 24 * 3600.
Definition PURGE_AFTER_SECS : Z := 7 * 24 * 3600.

Inductive Direction : Type := XbtToBtc | BtcToXbt.
#[export] Instance Direction_eq_dec : EqDecision Direction.
Proof. solve_decision. Defined.

Definition opposite (d : Direction) : Direction :=
  match d with XbtToBtc => BtcToXbt | BtcToXbt => XbtToBtc end.

Inductive OfferStatus : Type := Open | Matched | OCancelled | Expired | Filled.
#[export] Instance OfferStatus_eq_dec : EqDecision OfferStatus.
Proof. solve_decision. Defined.

Record Offer : Type := {
  o_id : string;
  o_token : string;
  o_secret_hash : bytes;
  o_direction : Direction;
  o_amount_sat : Z;
  o_price : Z;
  o_created_at : Z;
  o_expires_at : Z;
  o_private : bool;
  o_share_code : option string;
  o_status : OfferStatus;
  o_match_id : option string;
  o_client_id : option string;
  o_recovery_tag : option string;
}.

Inductive MatchStatus : Type :=
  Proposed | Accepted | InitiatorFunded | ParticipantFunded | Closed | MCancelled.
#[export] Instance MatchStatus_eq_dec : EqDecision MatchStatus.
Proof. solve_decision. Defined.

Record Match : Type := {
  m_id : string;
  m_terms : SwapTerms;
  m_initiator_offer : string;
  m_participant_offer : string;
  m_initiator_token : string;
  m_participant_token : string;
  m_initiator_secret_hash : bytes;
  m_participant_secret_hash : bytes;
  m_accepted : bool * bool;
  m_status : MatchStatus;
  m_xbt_funding : option (string * Z);
  m_btc_funding : option (string * Z);
  m_participant_fund_by : option Z;
  m_pre_match_amounts : Z * Z;
  m_closed_at : option Z;
  m_keys : option (string * string) * option (string * string);
  m_hashlock : option string;
  m_missed_participant_deadline : bool;
  m_release_txs : option (list string);
  m_release_sigs : option (list string);
}.

Inductive WatchKind : Type :=
| WkRefund
| WkRedeem
| WkWaitingRedeem (pubkey_hex witness_script_hex : string) (sigs_hex : list string).

Definition key_tag (k : WatchKind) : string :=
  match k with
  | WkRefund => "refund"
  | WkRedeem => "redeem"
  | WkWaitingRedeem _ _ _ => "waiting_redeem"
  end.

Record WatchJob : Type := {
  w_match_id : string;
  w_chain : Chain;
  w_kind : WatchKind;
  w_htlc : string * Z;
  w_not_before : Z;
  w_variants : list string;
  w_done : bool;
  w_sent_prevout : option (Z * string);
}.

(** A relayed message: who sent it and its JSON body. *)
Record Msg : Type := { msg_from : string; msg_body : Value }.

Record Store : Type := {
  offers : gmap string Offer;
  matches : gmap string Match;
  msgs : gmap string Msg;
  watch : gmap string WatchJob;
  strikes_cf : gmap string (list Z);
  tags : gmap string string;
  ids_drawn : nat;
  match_log : list Match;       (* every match ever written, read by no code *)
  watch_log : list WatchJob;    (* and every watchtower job *)
}.

Definition empty_store : Store := {|
  offers := ∅; matches := ∅; msgs := ∅; watch := ∅; strikes_cf := ∅; tags := ∅; ids_drawn := 0;
  match_log := []; watch_log := [] |}.

Definition set_offers (s : Store) (x : gmap string Offer) : Store := {|
  offers := x; matches := matches s; msgs := msgs s; watch := watch s;
  strikes_cf := strikes_cf s; tags := tags s; ids_drawn := ids_drawn s;
  match_log := match_log s; watch_log := watch_log s |}.
Definition set_matches (s : Store) (x : gmap string Match) : Store := {|
  offers := offers s; matches := x; msgs := msgs s; watch := watch s;
  strikes_cf := strikes_cf s; tags := tags s; ids_drawn := ids_drawn s;
  match_log := match_log s; watch_log := watch_log s |}.
Definition set_msgs (s : Store) (x : gmap string Msg) : Store := {|
  offers := offers s; matches := matches s; msgs := x; watch := watch s;
  strikes_cf := strikes_cf s; tags := tags s; ids_drawn := ids_drawn s;
  match_log := match_log s; watch_log := watch_log s |}.
Definition set_watch (s : Store) (x : gmap string WatchJob) : Store := {|
  offers := offers s; matches := matches s; msgs := msgs s; watch := x;
  strikes_cf := strikes_cf s; tags := tags s; ids_drawn := ids_drawn s;
  match_log := match_log s; watch_log := watch_log s |}.
Definition set_strikes (s : Store) (x : gmap string (list Z)) : Store := {|
  offers := offers s; matches := matches s; msgs := msgs s; watch := watch s;
  strikes_cf := x; tags := tags s; ids_drawn := ids_drawn s;
  match_log := match_log s; watch_log := watch_log s |}.
Definition set_tags (s : Store) (x : gmap string string) : Store := {|
  offers := offers s; matches := matches s; msgs := msgs s; watch := watch s;
  strikes_cf := strikes_cf s; tags := x; ids_drawn := ids_drawn s;
  match_log := match_log s; watch_log := watch_log s |}.
Definition set_ids_drawn (s : Store) (x : nat) : Store := {|
  offers := offers s; matches := matches s; msgs := msgs s; watch := watch s;
  strikes_cf := strikes_cf s; tags := tags s; ids_drawn := x;
  match_log := match_log s; watch_log := watch_log s |}.

(** Noting what is written. *)
Definition log_match (m : Match) (s : Store) : Store := {|
  offers := offers s; matches := matches s; msgs := msgs s; watch := watch s;
  strikes_cf := strikes_cf s; tags := tags s; ids_drawn := ids_drawn s;
  match_log := match_log s ++ [m]; watch_log := watch_log s |}.
Definition log_watch (j : WatchJob) (s : Store) : Store := {|
  offers := offers s; matches := matches s; msgs := msgs s; watch := watch s;
  strikes_cf := strikes_cf s; tags := tags s; ids_drawn := ids_drawn s;
  match_log := match_log s; watch_log := watch_log s ++ [j] |}.

(** ** Fallible operations on the store *)
Definition M (A : Type) : Type := Store → result string A * Store.

#[export] Instance M_ret : MRet M := λ A a s, (Ok a, s).
#[export] Instance M_bind : MBind M := λ A B f m s,
  match m s with
  | (Ok a, s') => f a s'
  | (Err e, s') => (Err e, s')
  | (Panic, s') => (Panic, s')
  end.

Definition lift {A} (r : result string A) : M A := λ s, (r, s).
Definition throw {A} (e : string) : M A := λ s, (Err e, s).
Definition read {A} (f : Store → A) : M A := λ s, (Ok (f s), s).
Definition modify (f : Store → Store) : M unit := λ s, (Ok tt, f s).
(** The final store, and the answer. *)
Definition exec_M {A} (m : M A) (s : Store) : Store := snd (m s).

Lemma M_bind_Ok {A B} (m : M A) (f : A → M B) s b s' :
  (m ≫= f) s = (Ok b, s') ↔ ∃ a s1, m s = (Ok a, s1) ∧ f a s1 = (Ok b, s').
Proof.
  unfold mbind, M_bind. destruct (m s) as [[a|e|] s1]; split; try naive_solver.
Qed.

(** ** Offers *)
Definition TAG_USED : string := "this swap index was used before".

Definition put_offer (o : Offer) : M unit := λ s,
  let save s := (Ok tt, set_offers s (<[o_id o := o]> (offers s))) in
  match o_recovery_tag o with
  | Some tag =>
      match tags s !! tag with
      | Some id => if decide (id ≠ o_id o) then (Err TAG_USED, s) else save s
      | None => save (set_tags s (<[tag := o_id o]> (tags s)))
      end
  | None => save s
  end.

Definition tag_used (hash : string) (s : Store) : bool := bool_decide (is_Some (tags s !! hash)).

Definition offer (id : string) (s : Store) : option Offer := offers s !! id.

Definition offer_by_tag (hash : string) (s : Store) : option Offer :=
  id ← tags s !! hash; offer id s.

Definition set_secret_hash (offer_id : string) (hash : bytes) : M unit := λ s,
  match offer offer_id s with
  | None => (Err ("no offer " +:+ offer_id), s)
  | Some o => put_offer {|
      o_id := o_id o; o_token := o_token o; o_secret_hash := hash; o_direction := o_direction o;
      o_amount_sat := o_amount_sat o; o_price := o_price o; o_created_at := o_created_at o;
      o_expires_at := o_expires_at o; o_private := o_private o; o_share_code := o_share_code o;
      o_status := o_status o; o_match_id := o_match_id o; o_client_id := o_client_id o;
      o_recovery_tag := o_recovery_tag o |} s
  end.

(** Every [(key, value)], in key order. *)
Definition scan_all {A} (m : gmap string A) : list (string * A) :=
  sort_by (λ a b, String.leb (fst a) (fst b)) (map_to_list m).

(** Those whose key starts with [prefix]. *)
Definition scan {A} (m : gmap string A) (prefix : string) : list (string * A) :=
  filter (λ x, String.prefix prefix (fst x) = true) (scan_all m).

Definition all_offers (s : Store) : list Offer := map snd (scan_all (offers s)).

(** [created_at], then the id. *)
Definition older (a b : Offer) : bool :=
  (o_created_at a <? o_created_at b) ||
  ((o_created_at a =? o_created_at b) && String.leb (o_id a) (o_id b)).

Definition open_offers (d : Direction) (s : Store) : list Offer :=
  sort_by older (filter (λ o, o_status o = Open ∧ o_direction o = d) (all_offers s)).

Definition offer_by_code (code : string) (s : Store) : option Offer :=
  snd <$> list_find (λ o, o_share_code o = Some code) (all_offers s).

Definition offer_by_client (token client_id : string) (s : Store) : option Offer :=
  snd <$> list_find (λ o, o_token o = token ∧ o_client_id o = Some client_id) (all_offers s).

(** ** Matches *)
Definition put_match (m : Match) : M unit := modify (λ s,
  log_match m (set_matches s (<[m_id m := m]> (matches s)))).

Definition get_match (id : string) (s : Store) : option Match := matches s !! id.

Definition all_matches (s : Store) : list Match := map snd (scan_all (matches s)).

Definition matches_funded_by (c : Chain) (txid : string) (vout : Z) (s : Store) : list Match :=
  filter (λ m, match c with Xbt => m_xbt_funding m | Btc => m_btc_funding m end = Some (txid, vout))
    (all_matches s).

(** ** Message relay *)
Definition msg_prefix (match_id : string) : string := match_id +:+ "/".

(** [{seq:020}] *)
Definition pad20 (n : Z) : string :=
  let d := pretty n in String.concat "" (replicate (20 - String.length d) "0") +:+ d.

Definition digit (a : ascii) : option Z :=
  let n := Z.of_N (Ascii.N_of_ascii a) in
  if (48 <=? n) && (n <=? 57) then Some (n - 48) else None.

(** [parse::<u64>]: an optional [+], then digits only, non-empty, in range. *)
Fixpoint parse_from (acc : Z) (s : string) : option Z :=
  match s with
  | EmptyString => Some acc
  | String a s =>
      d ← digit a;
      acc ← try_from u64_max (acc * 10 + d);
      parse_from acc s
  end.
Definition parse_u64 (s : string) : option Z :=
  match s with
  | EmptyString | String "+"%char EmptyString => None
  | String "+"%char s | s => parse_from 0 s
  end.

(** [k[prefix.len()..]] *)
Definition after_prefix (prefix k : string) : string :=
  String.substring (String.length prefix) (String.length k - String.length prefix) k.

(** [last + 1] on [u64] wraps in a release build. *)
Definition push_msg (match_id from_role : string) (body : Value) : M Z := λ s,
  let prefix := msg_prefix match_id in
  let seq_ := wrapping_add u64_max
    (default 0 (last (scan (msgs s) prefix) ≫= λ x, parse_u64 (after_prefix prefix (fst x)))) 1 in
  (Ok seq_, set_msgs s (<[prefix +:+ pad20 seq_ := {| msg_from := from_role; msg_body := body |}]> (msgs s))).

Definition msgs_after (match_id : string) (seq_ : Z) (s : Store) : list (Z * string * Value) :=
  let prefix := msg_prefix match_id in
  filter (λ x, seq_ < fst (fst x))
    (omap (λ x, n ← parse_u64 (after_prefix prefix (fst x)); Some (n, msg_from (snd x), msg_body (snd x)))
      (scan (msgs s) prefix)).

(** ** Watchtower jobs *)
Definition watch_key (j : WatchJob) : string :=
  w_match_id j +:+ "/" +:+ as_str (w_chain j) +:+ "/" +:+ key_tag (w_kind j).

Definition put_watch (j : WatchJob) : M unit := modify (λ s,
  log_watch j (set_watch s (<[watch_key j := j]> (watch s)))).

Definition watch_jobs (s : Store) : list WatchJob := map snd (scan_all (watch s)).

(** ** Strikes *)
Definition in_window (t now : Z) : bool := (t <=? now) && (now - t <? STRIKE_WINDOW_SECS).

Definition strike_times (token : string) (s : Store) : list Z := default [] (strikes_cf s !! token).

Definition add_strike (token : string) (now : Z) : M unit := modify (λ s,
  set_strikes s (<[token := filter (λ t, in_window t now = true) (strike_times token s) ++ [now]]> (strikes_cf s))).

Definition remove_strike (token : string) (at_ : Z) : M unit := modify (λ s,
  let times := strike_times token s in
  match list_find (λ t, t = at_) times with
  | None => s
  | Some (i, _) => set_strikes s (<[token := delete i times]> (strikes_cf s))
  end).

Definition strikes (token : string) (now : Z) (s : Store) : Z :=
  Z.of_nat (length (filter (λ t, in_window t now = true) (strike_times token s))) mod 2^32.

(** ** Retention *)
Definition old (now t : Z) : bool := PURGE_AFTER_SECS <? saturating_sub now t.

(** Deleting the keys of [m] that start with [prefix]. *)
Definition drop_prefix {A} (m : gmap string A) (prefix : string) : gmap string A :=
  filter (λ x, String.prefix prefix (fst x) = false) m.

Definition purge_match (now : Z) (pending : list string) (s : Store) (m : Match) : Store :=
  let finished := bool_decide (m_status m = Closed ∨ m_status m = MCancelled) in
  if finished && from_option (old now) false (m_closed_at m) && bool_decide (m_id m ∉ pending) then
    let s := set_msgs s (drop_prefix (msgs s) (msg_prefix (m_id m))) in
    let s := set_watch s (drop_prefix (watch s) (m_id m +:+ "/")) in
    set_matches s (delete (m_id m) (matches s))
  else s.

Definition purge_offer (now : Z) (in_matches : list string) (s : Store) (o : Offer) : Store :=
  if bool_decide (o_id o ∈ in_matches) then s
  else
    let drop := match o_status o with
                | OCancelled | Expired | Filled => true
                | Matched =>
                    match o_match_id o ≫= λ id, get_match id s with
                    | None => true
                    | Some m => bool_decide (m_status m = Closed)
                    end
                | Open => false
                end in
    if drop && old now (o_expires_at o) then set_offers s (delete (o_id o) (offers s)) else s.

Definition purge (now : Z) (s : Store) : Store :=
  let pending := map w_match_id (filter (λ j, w_done j = false) (watch_jobs s)) in
  let s := foldl (purge_match now pending) s (all_matches s) in
  let in_matches := all_matches s ≫= (λ m, [m_initiator_offer m; m_participant_offer m]) in
  let s := foldl (purge_offer now in_matches) s (all_offers s) in
  set_strikes s (filter (λ x, existsb (λ t, in_window t now) (snd x) = true) (strikes_cf s)).

(** ** Random ids *)
Section ids.
Context (fresh : nat → string + string).

Definition new_id : M string := λ s,
  (match fresh (ids_drawn s) with inr id => Ok id | inl e => Err ("CSPRNG: " +:+ e) end,
   set_ids_drawn s (S (ids_drawn s))).
End ids.

(** ** Writes

    Everything that changes the store is a sequence of these steps. *)
Inductive step : Store → Store → Prop :=
| step_put_offer o s : step s (exec_M (put_offer o) s)
| step_put_match m s : step s (exec_M (put_match m) s)
| step_push_msg id from body s : step s (exec_M (push_msg id from body) s)
| step_put_watch j s : step s (exec_M (put_watch j) s)
| step_add_strike token now s : step s (exec_M (add_strike token now) s)
| step_remove_strike token at_ s : step s (exec_M (remove_strike token at_) s)
| step_purge now s : step s (purge now s)
| step_new_id fresh s : step s (exec_M (new_id fresh) s).

(** An operation that writes through steps only. *)
Class Writes {A} (m : M A) : Prop := writes s : rtc step s (exec_M m s).

#[export] Instance writes_ret {A} (a : A) : Writes (mret a).
Proof. intros s. apply rtc_refl. Qed.
#[export] Instance writes_lift {A} (r : result string A) : Writes (lift r).
Proof. intros s. apply rtc_refl. Qed.
#[export] Instance writes_throw {A} e : Writes (throw (A:=A) e).
Proof. intros s. apply rtc_refl. Qed.
#[export] Instance writes_read {A} (f : Store → A) : Writes (read f).
Proof. intros s. apply rtc_refl. Qed.
#[export] Instance writes_bind {A B} (m : M A) (f : A → M B) :
  Writes m → (∀ a, Writes (f a)) → Writes (m ≫= f).
Proof.
  intros Hm Hf s. specialize (Hm s). unfold exec_M, mbind, M_bind in *.
  destruct (m s) as [[a|e|] s1]; [etrans; [exact Hm|apply (Hf a)]|exact Hm..].
Qed.
#[export] Instance writes_if {A} (b : bool) (m1 m2 : M A) : Writes m1 → Writes m2 → Writes (if b then m1 else m2).
Proof. by destruct b. Qed.
#[export] Instance writes_put_offer o : Writes (put_offer o).
Proof. intros s. apply rtc_once, step_put_offer. Qed.
#[export] Instance writes_put_match m : Writes (put_match m).
Proof. intros s. apply rtc_once, step_put_match. Qed.
#[export] Instance writes_add_strike token now : Writes (add_strike token now).
Proof. intros s. apply rtc_once, step_add_strike. Qed.
#[export] Instance writes_remove_strike token at_ : Writes (remove_strike token at_).
Proof. intros s. apply rtc_once, step_remove_strike. Qed.
#[export] Instance writes_new_id fresh : Writes (new_id fresh).
Proof. intros s. apply rtc_once, step_new_id. Qed.

#[export] Instance writes_set_secret_hash id h : Writes (set_secret_hash id h).
Proof.
  intros s. unfold exec_M, set_secret_hash. destruct (offer id s); [|apply rtc_refl].
  apply (writes_put_offer _ s).
Qed.

(** ** Keys *)
Definition keyed (s : Store) : Prop :=
  (∀ id o, offers s !! id = Some o → o_id o = id) ∧ (∀ id m, matches s !! id = Some m → m_id m = id).

(** Every offer holds its tag. *)
Definition tags_ok (s : Store) : Prop :=
  ∀ id o tag, offers s !! id = Some o → o_recovery_tag o = Some tag → tags s !! tag = Some id.

Lemma put_offer_Ok o s u s' :
  put_offer o s = (Ok u, s') →
  offers s' = <[o_id o := o]> (offers s) ∧ matches s' = matches s ∧ tags s ⊆ tags s'.
Proof.
  unfold put_offer. intros. repeat (case_match; simplify_eq/=); try done.
  split_and!; [done..|]. by apply insert_subseteq.
Qed.

(** [put_offer] either refuses and changes nothing, or saves. *)
Lemma put_offer_cases o s :
  put_offer o s = (Err TAG_USED, s) ∨
  ∃ s', put_offer o s = (Ok tt, s') ∧ offers s' = <[o_id o := o]> (offers s) ∧ matches s' = matches s ∧
    tags s ⊆ tags s' ∧ (∀ tag, o_recovery_tag o = Some tag → tags s' !! tag = Some (o_id o)).
Proof.
  unfold put_offer. destruct (o_recovery_tag o) as [tag|]; [|right; eexists; split_and!; done].
  destruct (tags s !! tag) as [id|] eqn:Ht.
  - case_decide as Hd; [by left|]. right. eexists. split_and!; try done. intros ? [= <-]. simpl. congruence.
  - right. eexists. split_and!; try done; simpl.
    + by apply insert_subseteq.
    + intros ? [= <-]. apply lookup_insert_eq.
Qed.

(** ** Purging *)
Definition purgeable (now : Z) (pending : list string) (m : Match) : Prop :=
  (m_status m = Closed ∨ m_status m = MCancelled) ∧ from_option (old now) false (m_closed_at m) = true ∧
  m_id m ∉ pending.

Lemma purge_match_cases now pending s m :
  (purgeable now pending m ∧ matches (purge_match now pending s m) = delete (m_id m) (matches s) ∧
   offers (purge_match now pending s m) = offers s ∧ tags (purge_match now pending s m) = tags s) ∨
  (¬ purgeable now pending m ∧ purge_match now pending s m = s).
Proof.
  unfold purge_match, purgeable. destruct (_ && _) eqn:E.
  - left. repeat (apply andb_true_iff in E as [E ?]). zbool. done.
  - right. split; [|done]. intros (H1 & H2 & H3).
    rewrite bool_decide_true in E by done. rewrite H2 in E. by rewrite bool_decide_true in E.
Qed.

Lemma purge_matches_lookup now pending l s id :
  let s' := foldl (purge_match now pending) s l in
  offers s' = offers s ∧ tags s' = tags s ∧
  (∀ m, matches s' !! id = Some m ↔
     matches s !! id = Some m ∧ Forall (λ m', m_id m' = id → ¬ purgeable now pending m') l).
Proof.
  simpl. revert s. induction l as [|m l IH]; intros s; simpl.
  { split_and!; try done. intros m. rewrite Forall_nil. tauto. }
  destruct (IH (purge_match now pending s m)) as (Ho & Ht & Hm). rewrite Ho, Ht. clear Ho Ht IH.
  destruct (purge_match_cases now pending s m) as [(Hp & Hms & Hos & Hts)|[Hn Heq]].
  - split_and!; [done..|]. intros m'. rewrite Hm, Hms, Forall_cons, lookup_delete_Some. naive_solver.
  - rewrite Heq in *. split_and!; [done..|]. intros m'. rewrite Hm, Forall_cons. naive_solver.
Qed.

(** When an offer may go. *)
Definition droppable (now : Z) (s : Store) (o : Offer) : Prop :=
  old now (o_expires_at o) = true ∧
  match o_status o with
  | OCancelled | Expired | Filled => True
  | Matched => match o_match_id o ≫= (λ id, get_match id s) with
               | Some m => m_status m = Closed
               | None => True
               end
  | Open => False
  end.
#[export] Instance droppable_dec now s o : Decision (droppable now s o).
Proof. unfold droppable. apply and_dec; [apply _|]. destruct (o_status o); try apply _. case_match; apply _. Defined.

Lemma purge_offer_cases now used s o :
  (o_id o ∉ used ∧ droppable now s o ∧ purge_offer now used s o = set_offers s (delete (o_id o) (offers s))) ∨
  ((o_id o ∈ used ∨ ¬ droppable now s o) ∧ purge_offer now used s o = s).
Proof.
  unfold purge_offer, droppable. case_bool_decide as Hu; [right; by auto|].
  destruct (old now (o_expires_at o)) eqn:Hold; [|right; split; [right; naive_solver|]; by rewrite andb_false_r].
  rewrite andb_true_r. destruct (o_status o); try (by left); try (right; naive_solver).
  destruct (o_match_id o ≫= _) as [m|] eqn:Hm; [|by left; naive_solver].
  case_bool_decide as Hc; [left|right]; naive_solver.
Qed.

Lemma purge_offers_lookup now used l s id :
  let s' := foldl (purge_offer now used) s l in
  matches s' = matches s ∧ tags s' = tags s ∧
  (∀ o, offers s' !! id = Some o ↔
     offers s !! id = Some o ∧ Forall (λ o', o_id o' = id → o_id o' ∈ used ∨ ¬ droppable now s o') l).
Proof.
  simpl. revert s. induction l as [|o l IH]; intros s; simpl.
  { split_and!; try done. intros o. rewrite Forall_nil. tauto. }
  destruct (IH (purge_offer now used s o)) as (Hm & Ht & Ho). rewrite Hm, Ht. clear Hm Ht IH.
  destruct (purge_offer_cases now used s o) as [(Hu & Hd & Heq)|[Hk Heq]]; rewrite Heq in *.
  - split_and!; [done..|]. intros o'. rewrite Ho, Forall_cons. simpl. rewrite lookup_delete_Some.
    assert (∀ x, droppable now (set_offers s (delete (o_id o) (offers s))) x ↔ droppable now s x) as Hdr by done.
    setoid_rewrite Hdr. naive_solver.
  - split_and!; [done..|]. intros o'. rewrite Ho, Forall_cons. naive_solver.
Qed.

(** ** Reading the maps *)
Lemma scan_all_elem {A} (m : gmap string A) x : x ∈ scan_all m ↔ m !! fst x = Some (snd x).
Proof. unfold scan_all. rewrite sort_by_Permutation. destruct x. apply elem_of_map_to_list. Qed.

Lemma all_offers_elem s o : o ∈ all_offers s ↔ ∃ id, offers s !! id = Some o.
Proof.
  unfold all_offers. rewrite list_elem_of_fmap. split.
  - intros ([id o'] & -> & H%scan_all_elem). eauto.
  - intros [id H]. exists (id, o). by rewrite scan_all_elem.
Qed.

Lemma all_matches_elem s m : m ∈ all_matches s ↔ ∃ id, matches s !! id = Some m.
Proof.
  unfold all_matches. rewrite list_elem_of_fmap. split.
  - intros ([id o'] & -> & H%scan_all_elem). eauto.
  - intros [id H]. exists (id, m). by rewrite scan_all_elem.
Qed.

(** The jobs not done yet, by match. *)
Definition pending_of (s : Store) : list string :=
  map w_match_id (filter (λ j, w_done j = false) (watch_jobs s)).

Definition offers_in_matches (s : Store) : list string :=
  all_matches s ≫= (λ m, [m_initiator_offer m; m_participant_offer m]).

Lemma offers_in_matches_elem s id :
  id ∈ offers_in_matches s ↔
  ∃ mid m, matches s !! mid = Some m ∧ (id = m_initiator_offer m ∨ id = m_participant_offer m).
Proof.
  unfold offers_in_matches. rewrite list_elem_of_bind. split.
  - intros (m & Hid & [mid Hm]%all_matches_elem). exists mid, m. set_solver.
  - intros (mid & m & Hm & Hid). exists m. rewrite all_matches_elem. split; [set_solver|eauto].
Qed.

Lemma purge_spec now s id :
  keyed s →
  let s' := purge now s in
  tags s' = tags s ∧
  (∀ m, matches s' !! id = Some m ↔ matches s !! id = Some m ∧ ¬ purgeable now (pending_of s) m) ∧
  (∀ o, offers s' !! id = Some o → offers s !! id = Some o) ∧
  (∀ o, offers s !! id = Some o → offers s' !! id = None →
     ¬ (∃ mid m, matches s' !! mid = Some m ∧ (id = m_initiator_offer m ∨ id = m_participant_offer m)) ∧
     droppable now s' o).
Proof.
  intros [Hko Hkm]. unfold purge. fold (pending_of s).
  set (s1 := foldl (purge_match now (pending_of s)) s (all_matches s)).
  pose proof (purge_matches_lookup now (pending_of s) (all_matches s) s) as P1. fold s1 in P1. simpl in P1.
  fold (offers_in_matches s1).
  set (s2 := foldl (purge_offer now (offers_in_matches s1)) s1 (all_offers s1)).
  pose proof (purge_offers_lookup now (offers_in_matches s1) (all_offers s1) s1) as P2. fold s2 in P2. simpl in P2 |- *.
  destruct (P1 id) as (Ho1 & Ht1 & Hm1), (P2 id) as (Hm2 & Ht2 & Ho2).
  split_and!; [congruence|..].
  - intros m. rewrite Hm2, Hm1. split.
    + intros [Hm Hall]. split; [done|]. rewrite Forall_forall in Hall. apply Hall; [|by apply Hkm].
      apply all_matches_elem. eauto.
    + intros [Hm Hp]. split; [done|]. apply Forall_forall. intros m' [id' Hm']%all_matches_elem Hid'.
      rewrite (Hkm _ _ Hm') in Hid'. subst id'. by simplify_eq.
  - intros o [Ho _]%Ho2. congruence.
  - intros o Ho Hnone.
    assert (Hdrop : ¬ (o_id o ∈ offers_in_matches s1 ∨ ¬ droppable now s1 o)).
    { intros Hk. assert (offers s2 !! id = Some o) as Hsome; [|congruence]. apply Ho2.
      split; [congruence|]. apply Forall_forall. intros o' [id' Ho']%all_offers_elem Hid'.
      rewrite Ho1 in Ho'. rewrite (Hko _ _ Ho') in Hid'. subst id'. by simplify_eq. }
    assert (Hdec : droppable now s1 o) by (apply dec_stable; tauto).
    rewrite (Hko _ _ Ho), offers_in_matches_elem in Hdrop. split.
    + intros (mid & m & Hm & Hid). apply Hdrop. left. exists mid, m. split; [|done]. congruence.
    + destruct Hdec as [? Hst]. split; [done|]. unfold get_match in *. simpl. by rewrite Hm2.
Qed.

(** ** The invariant of every reachable store *)
Lemma step_keyed_tags s s' :
  step s s' → keyed s → tags_ok s → keyed s' ∧ tags_ok s' ∧ tags s ⊆ tags s'.
Proof.
  intros Hstep Hk Ht. destruct Hstep as [o s|m s|id from body s|j s|token now s|token at_ s|now s|fresh s];
    try (by split_and!); pose proof Hk as [Hko Hkm].
  - unfold exec_M. destruct (put_offer_cases o s) as [->|(s' & -> & Ho & Hm & Hsub & Htag)]; [done|].
    simpl. split_and!; [|..|done].
    + split; [|by rewrite Hm]. intros id x. rewrite Ho. intros [[<- <-]|[_ ?]]%lookup_insert_Some; eauto.
    + intros id x tag. rewrite Ho. intros [[<- <-]|[_ Hx]]%lookup_insert_Some Hg; [by apply Htag|].
      eapply lookup_weaken; [by eapply Ht|done].
  - split_and!; [|done..]. split; [done|].
    intros id x. simpl. intros [[<- <-]|[_ ?]]%lookup_insert_Some; eauto.
  - unfold exec_M, remove_strike, modify. simpl. by repeat case_match.
  - pose proof (λ id, purge_spec now s id Hk) as P. split_and!.
    + split; [intros id o Ho|intros id m Hm].
      * by apply (Hko id), (proj1 (proj2 (proj2 (P id)))).
      * by apply (Hkm id), (proj1 (proj2 (P id))).
    + intros id o tag Ho Hg. rewrite (proj1 (P id)). eapply Ht; [|done].
      by apply (proj1 (proj2 (proj2 (P id)))).
    + by rewrite (proj1 (P "")).
Qed.

Lemma steps_keyed_tags s s' :
  rtc step s s' → keyed s → tags_ok s → keyed s' ∧ tags_ok s' ∧ tags s ⊆ tags s'.
Proof.
  induction 1 as [s|s1 s2 s3 H12 _ IH]; intros Hk Ht; [done|].
  destruct (step_keyed_tags _ _ H12 Hk Ht) as (Hk2 & Ht2 & Hs2).
  destruct (IH Hk2 Ht2) as (? & ? & ?). split_and!; [done..|by etrans].
Qed.

Lemma empty_keyed : keyed empty_store ∧ tags_ok empty_store.
Proof. by split; [split|]; intros *. Qed.

(** ** What is stored was written, and history is kept *)
Definition in_history (s : Store) : Prop :=
  (∀ id m, matches s !! id = Some m → m ∈ match_log s) ∧
  (∀ key j, watch s !! key = Some j → j ∈ watch_log s).

Definition log_grows (s s' : Store) : Prop := match_log s ⊆ match_log s' ∧ watch_log s ⊆ watch_log s'.

#[export] Instance log_grows_po : PreOrder log_grows.
Proof. split; [by split|]. intros s1 s2 s3 [] []. by split; etrans. Qed.

(** Nothing but the writes of a match or a job add to what is stored of them. *)
Lemma logged_shrink s s' :
  in_history s → matches s' ⊆ matches s → watch s' ⊆ watch s → match_log s' = match_log s → watch_log s' = watch_log s →
  in_history s' ∧ log_grows s s'.
Proof.
  intros [Hm Hw] Sm Sw Em Ew. split; [|unfold log_grows; by rewrite Em, Ew].
  split; [rewrite Em|rewrite Ew]; intros *; intros Hx; [eapply Hm|eapply Hw]; by eapply lookup_weaken.
Qed.

Lemma purge_shrinks now s :
  matches (purge now s) ⊆ matches s ∧ watch (purge now s) ⊆ watch s ∧
  match_log (purge now s) = match_log s ∧ watch_log (purge now s) = watch_log s.
Proof.
  set (P := λ s s' : Store, matches s' ⊆ matches s ∧ watch s' ⊆ watch s ∧
    match_log s' = match_log s ∧ watch_log s' = watch_log s).
  assert (Hf : ∀ A (f : Store → A → Store) l s, (∀ s a, P s (f s a)) → P s (foldl f s l)).
  { intros A f l. induction l as [|a l IH]; intros s0 Hs; simpl; [by unfold P|].
    destruct (Hs s0 a) as (? & ? & E1 & E2). destruct (IH (f s0 a) Hs) as (? & ? & E3 & E4).
    unfold P. rewrite E3, E4. split_and!; [by etrans..|done|done]. }
  unfold purge. fold (pending_of s). set (s1 := foldl (purge_match now (pending_of s)) s (all_matches s)).
  fold (offers_in_matches s1). set (s2 := foldl (purge_offer now (offers_in_matches s1)) s1 (all_offers s1)).
  assert (P s s1) as (? & ? & E1 & E2).
  { apply Hf. intros s0 m. unfold P, purge_match. case_match; [|done]. simpl.
    split_and!; [apply delete_subseteq|apply map_filter_subseteq|done|done]. }
  assert (P s1 s2) as (? & ? & E3 & E4).
  { apply Hf. intros s0 o. unfold P, purge_offer. by repeat case_match. }
  simpl. rewrite E3, E4. split_and!; [by etrans..|done|done].
Qed.

Lemma step_logged s s' : step s s' → in_history s → in_history s' ∧ log_grows s s'.
Proof.
  intros Hstep Hl. destruct Hstep as [o s|m s|id from body s|j s|token now s|token at_ s|now s|fresh s].
  - apply logged_shrink; unfold exec_M, put_offer; by repeat case_match.
  - destruct Hl as [Hm Hw]. unfold in_history, log_grows. simpl. split; [split|split]; [|done|apply list_subseteq_app_l|]; try done.
    intros id x [[_ <-]|[_ Hx]]%lookup_insert_Some; apply elem_of_app; [right; by left|left; by eapply Hm].
  - by apply logged_shrink.
  - destruct Hl as [Hm Hw]. unfold in_history, log_grows. simpl. split; [split|split]; [done| |done|apply list_subseteq_app_l]; try done.
    intros id x [[_ <-]|[_ Hx]]%lookup_insert_Some; apply elem_of_app; [right; by left|left; by eapply Hw].
  - by apply logged_shrink.
  - apply logged_shrink; unfold exec_M, remove_strike, modify; simpl; by repeat case_match.
  - destruct (purge_shrinks now s) as (? & ? & ? & ?). by apply logged_shrink.
  - by apply logged_shrink.
Qed.

Lemma steps_logged s s' : rtc step s s' → in_history s → in_history s' ∧ log_grows s s'.
Proof.
  induction 1 as [s|s1 s2 s3 H12 _ IH]; intros Hl; [done|]. destruct (step_logged _ _ H12 Hl) as [Hl2 ?].
  destruct (IH Hl2). split; [done|by etrans].
Qed.

(** A swap index is used once, ever: an offer that carries a recovery tag
    and any offer carrying the same tag at any later time are the same offer,
    however many offers were saved, refused, rematched or purged in between. *)
Theorem tag_used_once s s' id1 id2 o1 o2 tag :
  rtc step empty_store s → rtc step s s' →
  offers s !! id1 = Some o1 → offers s' !! id2 = Some o2 →
  o_recovery_tag o1 = Some tag → o_recovery_tag o2 = Some tag → id1 = id2.
Proof.
  intros H0 H1 Ho1 Ho2 Ht1 Ht2. destruct empty_keyed as [Hk0 Hg0].
  destruct (steps_keyed_tags _ _ H0 Hk0 Hg0) as (Hk & Hg & _).
  destruct (steps_keyed_tags _ _ H1 Hk Hg) as (_ & Hg' & Hsub).
  pose proof (lookup_weaken _ _ _ _ (Hg _ _ _ Ho1 Ht1) Hsub) as E.
  rewrite (Hg' _ _ _ Ho2 Ht2) in E. by injection E.
Qed.

(** Retention never loses a swap in progress: a purge only drops matches
    that are closed or cancelled, more than seven days ago, with no watchtower
    job left to do, and only offers that are off the book, expired more than
    seven days ago and in no match that is kept.  It adds nothing, and no
    recovery tag is freed. *)
Theorem purge_safe now s :
  keyed s →
  let s' := purge now s in
  matches s' ⊆ matches s ∧ offers s' ⊆ offers s ∧ tags s' = tags s ∧
  (∀ id m, matches s !! id = Some m → matches s' !! id = None →
     (m_status m = Closed ∨ m_status m = MCancelled) ∧
     (∃ t, m_closed_at m = Some t ∧ t + 7 * 24 * 3600 < now) ∧
     ∀ j, j ∈ watch_jobs s → w_match_id j = id → w_done j = true) ∧
  (∀ id o, offers s !! id = Some o → offers s' !! id = None →
     o_status o ≠ Open ∧ o_expires_at o + 7 * 24 * 3600 < now ∧
     ∀ mid m, matches s' !! mid = Some m → m_initiator_offer m ≠ id ∧ m_participant_offer m ≠ id).
Proof.
  intros Hk. pose proof (λ id, purge_spec now s id Hk) as P. cbv zeta in P |- *. pose proof Hk as [Hko Hkm].
  split_and!.
  - apply map_subseteq_spec. intros id m Hm. by apply P in Hm as [? _].
  - apply map_subseteq_spec. intros id o Ho. by apply P.
  - apply (P "").
  - intros id m Hm Hnone.
    assert (Hp : purgeable now (pending_of s) m).
    { unfold purgeable. apply dec_stable. intros Hn.
      assert (matches (purge now s) !! id = Some m) by by apply P. congruence. }
    destruct Hp as (Hst & Hold & Hpend). split_and!; [done|..].
    + destruct (m_closed_at m) as [t|]; [|done]. exists t. split; [done|]. simpl in Hold.
      unfold old, PURGE_AFTER_SECS, saturating_sub in Hold. zbool. lia.
    + intros j Hj Hid. destruct (w_done j) eqn:Hd; [done|]. destruct Hpend.
      rewrite (Hkm _ _ Hm), <-Hid. apply list_elem_of_fmap. exists j. split; [done|].
      by apply list_elem_of_filter.
  - intros id o Ho Hnone. destruct (P id) as (_ & _ & _ & Hd). destruct (Hd o Ho Hnone) as [Hun [Hold Hst]].
    split_and!.
    + intros Hopen. by rewrite Hopen in Hst.
    + unfold old, PURGE_AFTER_SECS, saturating_sub in Hold. zbool. lia.
    + intros mid m Hm. split; intros <-; apply Hun; eauto 6.
Qed.
