(* ===== verification/Relay.v ===== *)
(** The message relay as an append-only log per match.

    [Store] keeps every message under the key [match/sequence], the sequence
    padded to twenty digits, and scans keys in byte order ([push_msg],
    [msgs_after] of [fortis-edge/src/swap/store.rs]).  This file shows that it
    implements the abstract relay: one list of messages per match, pushing
    appends, reading after [n] gives what follows the [n]-th. *)

From Stdlib Require Import Ascii.
From S2P Require Import Prelude Json Chain SwapTerms Store.

(** ** Text *)
Lemma str_app_cons x (a b : string) : String x a +:+ b = String x (a +:+ b).
Proof. done. Qed.

Lemma str_app_assoc (a b c : string) : (a +:+ b) +:+ c = a +:+ b +:+ c.
Proof. induction a as [|x a IH]; [done|]. by rewrite !str_app_cons, IH. Qed.

Lemma str_length_app (a b : string) : String.length (a +:+ b) = (String.length a + String.length b)%nat.
Proof. induction a as [|x a IH]; [done|]. rewrite str_app_cons. simpl. by rewrite IH. Qed.

Lemma substring_whole (s : string) : String.substring 0 (String.length s) s = s.
Proof. induction s as [|x s IH]; [done|]. cbn. by rewrite IH. Qed.

Lemma after_prefix_app (p s : string) : after_prefix p (p +:+ s) = s.
Proof.
  unfold after_prefix. rewrite str_length_app. replace (_ + _ - _)%nat with (String.length s) by lia.
  induction p as [|x p IH]; [apply substring_whole|done].
Qed.

Lemma prefix_app (p s : string) : String.prefix p (p +:+ s) = true.
Proof.
  induction p as [|x p IH]; [by destruct s|]. rewrite str_app_cons. simpl. by destruct (ascii_dec x x).
Qed.

Lemma prefix_split (p s : string) : String.prefix p s = true → ∃ t, s = p +:+ t.
Proof.
  revert s. induction p as [|x p IH]; intros s; [by exists s|]. destruct s as [|y s]; [done|]. simpl.
  destruct (ascii_dec x y) as [->|]; [|done]. intros [t ->]%IH. by exists t.
Qed.

Lemma leb_le s t : String.leb s t = true ↔ String.compare s t ≠ Gt.
Proof. unfold String.leb. by destruct (String.compare s t). Qed.

Lemma leb_trans s t u : String.leb s t = true → String.leb t u = true → String.leb s u = true.
Proof.
  rewrite !leb_le. revert t u. induction s as [|a s IH]; intros [|b t] [|c u]; simpl; try done.
  unfold Ascii.compare. generalize (N_of_ascii a) as x, (N_of_ascii b) as y, (N_of_ascii c) as z. intros x y z.
  destruct (N.compare_spec x y), (N.compare_spec y z), (N.compare_spec x z); subst; try done; try lia. apply IH.
Qed.

(** No slash. *)
Definition no_slash (s : string) : Prop := all_chars (λ a, negb (Ascii.eqb a "/")) s = true.

Lemma no_slash_cons a s : no_slash (String a s) ↔ a ≠ "/"%char ∧ no_slash s.
Proof.
  unfold no_slash, all_chars. simpl. rewrite andb_true_iff, negb_true_iff. by rewrite Ascii.eqb_neq.
Qed.

Lemma slash_split id1 id2 s t :
  no_slash id1 → no_slash id2 → id1 +:+ "/" +:+ s = id2 +:+ "/" +:+ t → id1 = id2 ∧ s = t.
Proof.
  revert id2. induction id1 as [|a id1 IH]; intros [|b id2] H1 H2 E.
  - injection E as E. split; [done|exact E].
  - injection E as <- _. by apply no_slash_cons in H2 as [? _].
  - injection E as -> _. by apply no_slash_cons in H1 as [? _].
  - injection E as -> E. apply no_slash_cons in H1 as [_ H1], H2 as [_ H2]. by destruct (IH id2 H1 H2 E) as [-> ->].
Qed.

(** ** Fixed-width decimals *)
Fixpoint digits (k : nat) (n : N) (acc : string) : string :=
  match k with
  | O => acc
  | S k => digits k (n `div` 10)%N (String (pretty_N_char (n `mod` 10)%N) acc)
  end.

Fixpoint zeros (k : nat) (s : string) : string :=
  match k with O => s | S k => String "0" (zeros k s) end.

Lemma digits_app k n s : digits k n s = digits k n EmptyString +:+ s.
Proof.
  revert n s. induction k as [|k IH]; intros n s; [done|]. simpl. rewrite IH, (IH _ (String _ EmptyString)).
  by rewrite str_app_assoc.
Qed.

Lemma zeros_snoc k s : zeros k (String "0" s) = String "0" (zeros k s).
Proof. induction k; simpl; congruence. Qed.

Lemma digits_zero k s : digits k 0 s = zeros k s.
Proof. revert s. induction k as [|k IH]; intros s; [done|]. simpl. rewrite IH. apply zeros_snoc. Qed.

(** The decimal text, padded with zeros in front. *)
Lemma digits_pretty k n s : (n < 10 ^ N.of_nat k)%N → ∃ z, digits k n s = zeros z (pretty_N_go n s).
Proof.
  revert n s. induction k as [|k IH]; intros n s Hn.
  { assert (n = 0%N) as -> by (simpl in Hn; lia). by exists 0%nat. }
  destruct (decide (n = 0%N)) as [->|Hnz].
  { exists (S k). rewrite digits_zero. by rewrite pretty_N_go_0. }
  rewrite pretty_N_go_step by lia. apply IH. apply N.Div0.div_lt_upper_bound.
  rewrite Nat2N.inj_succ, N.pow_succ_r' in Hn. lia.
Qed.

Lemma length_digits k n s : String.length (digits k n s) = (k + String.length s)%nat.
Proof. revert n s. induction k as [|k IH]; intros n s; [done|]. simpl. rewrite IH. simpl. lia. Qed.

Lemma length_zeros k s : String.length (zeros k s) = (k + String.length s)%nat.
Proof. induction k; simpl; congruence. Qed.

Lemma zeros_concat k s : String.concat "" (replicate k "0") +:+ s = zeros k s.
Proof.
  induction k as [|k IH]; [done|]. destruct k as [|k]; [done|].
  change (String.concat "" (replicate (S (S k)) "0")) with (String "0" (String.concat "" (replicate (S k) "0"))).
  simpl zeros. simpl in IH |- *. by rewrite <-IH.
Qed.

Lemma pad20_digits n : (0 < n < 10 ^ 20)%N → pad20 (Z.of_N n) = digits 20 n EmptyString.
Proof.
  intros [H0 Hn]. destruct (digits_pretty 20 n EmptyString Hn) as [z Hz]. unfold pad20.
  assert (Hp : pretty (Z.of_N n) = pretty_N_go n EmptyString).
  { destruct n as [|p]; [lia|]. done. }
  rewrite Hp, Hz, zeros_concat. f_equal.
  pose proof (length_digits 20 n EmptyString) as Hl. rewrite Hz, length_zeros in Hl. simpl in Hl. lia.
Qed.

(** ** Their order and their reading *)
Lemma compare_app p s t : String.compare (p +:+ s) (p +:+ t) = String.compare s t.
Proof.
  induction p as [|a p IH]; [done|]. rewrite !str_app_cons. simpl. unfold Ascii.compare. by rewrite N.compare_refl.
Qed.

Lemma pretty_char_N n : (n < 10)%N → Ascii.N_of_ascii (pretty_N_char n) = (48 + n)%N.
Proof.
  intros Hn. assert (Hall : Forall (λ n, Ascii.N_of_ascii (pretty_N_char n) = (48 + n)%N) (map N.of_nat (seq 0 10)))
    by (vm_compute; repeat constructor).
  rewrite Forall_forall in Hall. apply Hall. apply list_elem_of_fmap. exists (N.to_nat n).
  rewrite N2Nat.id, elem_of_seq. split; [done|lia].
Qed.

Lemma digits_compare k a b s t :
  (a < b)%N → (b < 10 ^ N.of_nat k)%N → String.compare (digits k a s) (digits k b t) = Lt.
Proof.
  revert a b s t. induction k as [|k IH]; intros a b s t Hab Hb; [simpl in Hb; lia|]. simpl.
  assert (Hdiv : (b / 10 < 10 ^ N.of_nat k)%N).
  { apply N.Div0.div_lt_upper_bound. rewrite Nat2N.inj_succ, N.pow_succ_r' in Hb. lia. }
  pose proof (N.div_mod a 10 ltac:(lia)) as Ea. pose proof (N.div_mod b 10 ltac:(lia)) as Eb.
  pose proof (N.mod_lt a 10 ltac:(lia)) as Ha10. pose proof (N.mod_lt b 10 ltac:(lia)) as Hb10.
  destruct (N.lt_trichotomy (a / 10) (b / 10)) as [Hlt|[Heq|Hgt]]; [by apply IH| |]; [|pose proof (N.Div0.div_le_mono a b 10 ltac:(lia)); lia].
  rewrite Heq, (digits_app k (b / 10) (String _ s)), (digits_app k (b / 10) (String _ t)), compare_app. simpl. unfold Ascii.compare.
  rewrite !pretty_char_N by done.
  assert (Hc : (48 + a `mod` 10 ?= 48 + b `mod` 10)%N = Lt) by (apply N.compare_lt_iff; lia). by rewrite Hc.
Qed.


Lemma digit_char n : (n < 10)%N → digit (pretty_N_char n) = Some (Z.of_N n).
Proof.
  intros Hn. unfold digit. rewrite pretty_char_N by done. rewrite N2Z.inj_add.
  rewrite (proj2 (Z.leb_le _ _)), (proj2 (Z.leb_le _ _)) by lia. simpl. f_equal. lia.
Qed.

Lemma parse_digits k n acc s :
  (n < 10 ^ N.of_nat k)%N → 0 ≤ acc → acc * 10 ^ Z.of_nat k + Z.of_N n ≤ u64_max →
  parse_from acc (digits k n s) = parse_from (acc * 10 ^ Z.of_nat k + Z.of_N n) s.
Proof.
  revert n acc s. induction k as [|k IH]; intros n acc s Hn Ha Hb.
  { assert (n = 0%N) as -> by (simpl in Hn; lia). simpl. f_equal. lia. }
  pose proof (N.div_mod n 10 ltac:(lia)) as En. pose proof (N.mod_lt n 10 ltac:(lia)) as Hn10.
  rewrite Nat2Z.inj_succ, Z.pow_succ_r in * by lia. rewrite Nat2N.inj_succ, N.pow_succ_r' in Hn.
  assert (EnZ : Z.of_N n = 10 * Z.of_N (n / 10) + Z.of_N (n mod 10)) by lia.
  assert (HP : 0 ≤ acc * 10 ^ Z.of_nat k) by (apply Z.mul_nonneg_nonneg; lia).
  assert (EP : acc * (10 * 10 ^ Z.of_nat k) = 10 * (acc * 10 ^ Z.of_nat k)) by ring.
  cbn [digits]. rewrite IH; [|apply N.Div0.div_lt_upper_bound; lia|done|].
  - cbn [parse_from]. rewrite digit_char by done. simpl.
    set (v := (acc * 10 ^ Z.of_nat k + Z.of_N (n / 10)) * 10 + Z.of_N (n mod 10)).
    assert (Hv : v = acc * (10 * 10 ^ Z.of_nat k) + Z.of_N n) by (unfold v; rewrite EnZ; ring).
    rewrite (proj2 (try_from_Some u64_max v v)); [simpl; by rewrite Hv|]. split; [done|]. rewrite Hv. lia.
  - rewrite EP, EnZ in Hb. pose proof (N2Z.is_nonneg (n / 10)). pose proof (N2Z.is_nonneg (n mod 10)). lia.
Qed.

Lemma digits_head k n s : (0 < k)%nat → ∃ d t, digits k n s = String (pretty_N_char d) t ∧ (d < 10)%N.
Proof.
  revert n s. induction k as [|[|k] IH]; intros n s Hk; [lia| |].
  - simpl. do 2 eexists. split; [done|]. apply N.mod_lt. lia.
  - cbn [digits]. apply IH. lia.
Qed.

Lemma parse_pad20 n : 0 < n ≤ u64_max → parse_u64 (pad20 n) = Some n.
Proof.
  intros Hn. replace n with (Z.of_N (Z.to_N n)) at 1 by lia. unfold u64_max in *.
  rewrite pad20_digits by lia. destruct (digits_head 20 (Z.to_N n) EmptyString) as (d & t & Hd & Hlt); [lia|].
  assert (Hp : parse_u64 (digits 20 (Z.to_N n) EmptyString) = parse_from 0 (digits 20 (Z.to_N n) EmptyString)).
  { rewrite Hd. assert (Hplus : pretty_N_char d ≠ "+"%char).
    { intros E. apply (f_equal Ascii.N_of_ascii) in E. rewrite pretty_char_N in E by done.
      change (Ascii.N_of_ascii "+") with 43%N in E. lia. }
    unfold parse_u64. by repeat case_match; simplify_eq. }
  rewrite Hp, parse_digits by (unfold u64_max; lia). simpl. f_equal. lia.
Qed.

(** ** The abstract relay *)

(** What was said in each match, in order. *)
Definition Relay : Type := string → list Msg.

Definition msg_key (id : string) (n : Z) : string := msg_prefix id +:+ pad20 n.

(** The store holds exactly the messages of [L], numbered from one. *)
Record holds (s : Store) (L : Relay) : Prop := {
  h_keys key v : msgs s !! key = Some v ↔
    ∃ id i, no_slash id ∧ key = msg_key id (Z.of_nat i + 1) ∧ L id !! i = Some v;
  h_size id : Z.of_nat (length (L id)) < u64_max;
}.

(** A match's messages as they are read. *)
Definition numbered (l : list Msg) : list (Z * string * Value) :=
  imap (λ i v, (Z.of_nat i + 1, msg_from v, msg_body v)) l.

Lemma msg_key_inj id1 id2 n1 n2 :
  no_slash id1 → no_slash id2 → 0 < n1 ≤ u64_max → 0 < n2 ≤ u64_max →
  msg_key id1 n1 = msg_key id2 n2 → id1 = id2 ∧ n1 = n2.
Proof.
  unfold msg_key, msg_prefix. rewrite !str_app_assoc. intros H1 H2 Hn1 Hn2 E.
  apply slash_split in E as [-> E]; [|done..]. split; [done|].
  apply (f_equal parse_u64) in E. rewrite !parse_pad20 in E by done. by injection E.
Qed.

Lemma msg_key_prefix id id' n :
  no_slash id → no_slash id' → String.prefix (msg_prefix id) (msg_key id' n) = true → id' = id.
Proof.
  unfold msg_key, msg_prefix. intros H1 H2 [t Ht]%prefix_split. rewrite !str_app_assoc in Ht.
  by apply slash_split in Ht as [-> _].
Qed.

Lemma msg_key_leb id n1 n2 : 0 < n1 → n1 < n2 ≤ u64_max → String.leb (msg_key id n1) (msg_key id n2) = true.
Proof.
  intros Hn1 Hn2. unfold msg_key. unfold u64_max in *. apply leb_le. rewrite compare_app.
  replace n1 with (Z.of_N (Z.to_N n1)) by lia. replace n2 with (Z.of_N (Z.to_N n2)) by lia.
  rewrite !pad20_digits by lia. rewrite (digits_compare 20) by lia. done.
Qed.

Lemma StronglySorted_imap {A B} (R : relation B) (f : nat → A → B) l :
  (∀ i j x y, (i < j)%nat → l !! i = Some x → l !! j = Some y → R (f i x) (f j y)) → StronglySorted R (imap f l).
Proof.
  revert f. induction l as [|x l IH]; intros f Hf; simpl; constructor.
  - apply IH. intros i j y z Hij Hy Hz. apply (Hf (S i) (S j)); [lia|done..].
  - apply Forall_lookup. intros i b Hb. apply list_lookup_imap_Some in Hb as (y & Hy & ->).
    apply (Hf 0%nat (S i)); [lia|done..].
Qed.

(** The scan of a match's keys is its messages, in order. *)
Lemma scan_msgs s L id :
  holds s L → no_slash id →
  scan (msgs s) (msg_prefix id) = imap (λ i v, (msg_key id (Z.of_nat i + 1), v)) (L id).
Proof.
  intros [Hk Hsz] Hid. pose proof (Hsz id) as Hlen.
  assert (Hrange : ∀ i v, L id !! i = Some v → 0 < Z.of_nat i + 1 ≤ u64_max)
    by (intros i v Hi%lookup_lt_Some; lia).
  apply (StronglySorted_unique_strong (λ a b, String.leb (fst a) (fst b) = true)).
  - intros [k1 v1] [k2 v2] H1%list_elem_of_filter H2 Hle1 Hle2. simpl in *.
    assert (k1 = k2) as -> by (apply String.leb_antisym; congruence).
    destruct H1 as [_ H1%scan_all_elem]. simpl in H1.
    apply list_elem_of_lookup in H2 as (i & Hi). apply list_lookup_imap_Some in Hi as (v & Hv & [= -> ->]).
    assert (msgs s !! msg_key id (Z.of_nat i + 1) = Some v) by (apply Hk; eauto). congruence.
  - apply StronglySorted_filter. apply sort_by_sorted.
    + intros a b. apply String.leb_total.
    + intros a b c. apply leb_trans.
  - apply StronglySorted_imap. intros i j x y Hij Hi Hj. simpl. apply msg_key_leb; [lia|].
    apply Hrange in Hj. lia.
  - apply NoDup_Permutation.
    + apply NoDup_filter. unfold scan_all. rewrite sort_by_Permutation. apply NoDup_map_to_list.
    + apply NoDup_alt. intros i j x Hi Hj.
      apply list_lookup_imap_Some in Hi as (vi & Hvi & ->). apply list_lookup_imap_Some in Hj as (vj & Hvj & Ej).
      injection Ej as Ej _. apply msg_key_inj in Ej as [_ Ej]; eauto. lia.
    + intros [key v]. unfold scan. rewrite list_elem_of_filter, scan_all_elem, Hk. simpl. split.
      * intros [Hp (id' & i & Hid' & -> & Hi)]. apply msg_key_prefix in Hp as ->; [|done..].
        apply list_elem_of_lookup. exists i. apply list_lookup_imap_Some. eauto.
      * intros (i & Hi)%list_elem_of_lookup. apply list_lookup_imap_Some in Hi as (v' & Hv & [= -> ->]).
        split; [apply prefix_app|]. eauto.
Qed.

Lemma msg_key_parse id n : 0 < n ≤ u64_max → parse_u64 (after_prefix (msg_prefix id) (msg_key id n)) = Some n.
Proof. intros Hn. unfold msg_key. by rewrite after_prefix_app, parse_pad20. Qed.

(** Reading with numbers above [k] drops the first [k]. *)
Lemma filter_numbered (f : nat → Msg → Z * string * Value) (l : list Msg) (n k : nat) :
  (∀ i v, fst (fst (f i v)) = Z.of_nat (n + i) + 1) →
  filter (λ x, Z.of_nat k < fst (fst x)) (imap f l) = drop (k - n) (imap f l).
Proof.
  revert f n. induction l as [|v l IH]; intros f n Hf; [simpl; by rewrite drop_nil|]. simpl imap. rewrite filter_cons.
  rewrite (IH (f ∘ S) (S n)); [|intros i x; simpl; rewrite Hf; lia].
  pose proof (Hf 0%nat v) as H0. case_decide as Hd.
  - replace (k - n)%nat with 0%nat by lia. replace (k - S n)%nat with 0%nat by lia. done.
  - replace (k - n)%nat with (S (k - S n)) by lia. done.
Qed.

(** One scanned message, as it is read. *)
Definition read_msg (prefix : string) (x : string * Msg) : option (Z * string * Value) :=
  n ← parse_u64 (after_prefix prefix (fst x)); Some (n, msg_from (snd x), msg_body (snd x)).

Lemma read_msgs id l n :
  Z.of_nat (n + length l) < u64_max →
  omap (read_msg (msg_prefix id)) (imap (λ i v, (msg_key id (Z.of_nat (n + i) + 1), v)) l) =
  imap (λ i v, (Z.of_nat (n + i) + 1, msg_from v, msg_body v)) l.
Proof.
  revert n. induction l as [|v l IH]; intros n Hn; [done|]. simpl in Hn. rewrite !imap_cons.
  cbn [omap list_omap]. unfold read_msg at 1. cbn [fst snd]. rewrite msg_key_parse by lia. cbn.
  replace (Z.of_nat (n + 0) + 1) with (Z.of_nat n + 1) by lia. f_equal.
  specialize (IH (S n) ltac:(lia)).
  etrans; [|etrans; [exact IH|]]; [f_equal|]; apply imap_ext; intros; simpl; repeat f_equal; lia.
Qed.

Lemma msgs_after_holds s L id k :
  holds s L → no_slash id → msgs_after id (Z.of_nat k) s = drop k (numbered (L id)).
Proof.
  intros Hh Hid. unfold msgs_after. rewrite (scan_msgs s L) by done.
  fold (read_msg (msg_prefix id)). pose proof (h_size _ _ Hh id) as Hlen.
  change (omap _ _) with (omap (read_msg (msg_prefix id)) (imap (λ i v, (msg_key id (Z.of_nat (0 + i) + 1), v)) (L id))).
  rewrite read_msgs by (simpl; lia). unfold numbered.
  pose proof (filter_numbered (λ i v, (Z.of_nat i + 1, msg_from v, msg_body v)) (L id) 0 k (λ _ _, eq_refl)) as Hf.
  by rewrite Nat.sub_0_r in Hf.
Qed.

(** Adding a message to one match. *)
Definition said (L : Relay) (id : string) (m : Msg) : Relay := λ id', if decide (id' = id) then L id ++ [m] else L id'.

(** The relay is an append-only log per match: on a store that holds the
    messages [L], a push to a match is numbered one above its last message and
    the store then holds [L] with that message at the end of that match's list;
    and reading a match after number [k] answers exactly its messages from the
    [k+1]-th on, in the order they were pushed. *)
Theorem relay_is_a_log s L id from body k :
  holds s L → no_slash id → Z.of_nat (length (L id)) + 1 < u64_max →
  let m := {| msg_from := from; msg_body := body |} in
  (∃ s', push_msg id from body s = (Ok (Z.of_nat (length (L id)) + 1), s') ∧ holds s' (said L id m)) ∧
  msgs_after id (Z.of_nat k) s = drop k (numbered (L id)).
Proof.
  intros Hh Hid Hlen m. split; [|by apply msgs_after_holds]. pose proof Hh as [Hk Hsz].
  unfold push_msg. rewrite (scan_msgs s L) by done.
  assert (Hseq : wrapping_add u64_max (default 0 (last (imap (λ i v, (msg_key id (Z.of_nat i + 1), v)) (L id)) ≫=
    λ x, parse_u64 (after_prefix (msg_prefix id) (fst x)))) 1 = Z.of_nat (length (L id)) + 1).
  { rewrite last_lookup, length_imap, list_lookup_imap. destruct (L id) as [|v l] eqn:HL using rev_ind; [done|].
    rewrite length_app. simpl. replace (Nat.pred (length l + 1)) with (length l) by lia.
    rewrite list_lookup_middle by done. simpl. rewrite length_app in Hlen. simpl in Hlen.
    rewrite msg_key_parse by lia. simpl. rewrite wrapping_add_small by lia. lia. }
  rewrite Hseq. eexists. split; [reflexivity|]. split.
  - intros key v. simpl. fold (msg_key id (Z.of_nat (length (L id)) + 1)). rewrite lookup_insert_Some. unfold said. split.
    + intros [[<- <-]|[Hne Hv]].
      * exists id, (length (L id)). rewrite decide_True by done. split_and!; [done..|]. by apply list_lookup_middle.
      * apply Hk in Hv as (id' & i & Hid' & -> & Hi). exists id', i. split_and!; [done..|].
        case_decide; [subst; by apply lookup_app_l_Some|done].
    + intros (id' & i & Hid' & -> & Hi). case_decide as Hd.
      * subst id'. apply lookup_snoc_Some in Hi as [[Hlt Hi]|[-> <-]]; [right|by left].
        split; [|by apply Hk; eauto]. intros E. apply msg_key_inj in E as [_ E]; [lia|done|done|lia|lia].
      * right. split; [|by apply Hk; eauto]. intros E. pose proof (lookup_lt_Some _ _ _ Hi). pose proof (Hsz id').
        apply msg_key_inj in E as [E _]; [congruence|done|done|lia|lia].
  - intros id'. unfold said. case_decide; [rewrite length_app; simpl; lia|apply Hsz].
Qed.

Lemma relay_is_a_log_witness :
  ∃ s', push_msg "m1" "initiator" VNull empty_store = (Ok 1, s') ∧
    holds s' (said (λ _, []) "m1" {| msg_from := "initiator"; msg_body := VNull |}).
Proof.
  refine (proj1 (relay_is_a_log empty_store (λ _, []) "m1" "initiator" VNull 0 _ _ _)).
  - split; [|intros id; simpl; unfold u64_max; lia]. intros key v. split; [|by intros (? & ? & _ & _ & ?)].
    done.
  - reflexivity.
  - reflexivity.
Defined.
