(* ===== verification/Matcher.v ===== *)
(** The matcher ([fortis-edge/src/swap/matcher.rs]): pairs crossing offers,
    builds the terms of a match, fills offers, and enforces the deadlines.
    Every operation runs under the matching lock. *)

From S2P Require Import Prelude Chain SwapTerms Store.

(** Division by a zero price panics. *)
Definition xbt_for_btc {E} (btc_sat price_sat_per_xbt : Z) : result E Z :=
  if price_sat_per_xbt =? 0 then Panic
  else Ok (Z.min (btc_sat * 100_000_000 / price_sat_per_xbt) u64_max).

Definition btc_leg_value (d : Direction) (amount_sat price : Z) : Z :=
  match d with
  | XbtToBtc => btc_for_xbt amount_sat price
  | BtcToXbt => amount_sat
  end.

Definition matchable (o : Offer) (now : Z) : bool :=
  bool_decide (o_status o = Open) && (now <? o_expires_at o).

Definition crosses (seller_price buyer_price : Z) : bool := seller_price <=? buyer_price.

Definition offers_cross (a b : Offer) : bool :=
  match o_direction a with
  | XbtToBtc => crosses (o_price a) (o_price b)
  | BtcToXbt => crosses (o_price b) (o_price a)
  end.

(** An offer with another amount, status and match. *)
Definition refill (o : Offer) (amount : Z) (st : OfferStatus) (mid : option string) : Offer := {|
  o_id := o_id o; o_token := o_token o; o_secret_hash := o_secret_hash o;
  o_direction := o_direction o; o_amount_sat := amount; o_price := o_price o;
  o_created_at := o_created_at o; o_expires_at := o_expires_at o; o_private := o_private o;
  o_share_code := o_share_code o; o_status := st; o_match_id := mid;
  o_client_id := o_client_id o; o_recovery_tag := o_recovery_tag o |}.

(** [o.amount_sat -= consumed] wraps in a release build. *)
Definition settle (o : Offer) (consumed : Z) (limiting : bool) (match_id : string) : Offer :=
  let amount := wrapping_add u64_max (o_amount_sat o) (- consumed) in
  if MIN_BTC_LEG_SAT <=? btc_leg_value (o_direction o) amount (o_price o)
  then refill o amount Open None
  else refill o amount (if limiting then Matched else Filled) (Some match_id).

(** [map_err(|e| anyhow!("{e}"))] *)
Definition map_err {A} (r : Result A) : result string A :=
  match r with Ok a => Ok a | Err e => Err (wallet_error_display e) | Panic => Panic end.

Section matcher.
Context (fresh : nat → string + string).

(** The terms of a match; the [u32] sums wrap in a release build. *)
Definition build_terms (id network fee_address : string) (tl : SwapTimelocks)
    (xbt btc price matched_at_ : Z) : SwapTerms :=
  let accept_by_ := wrapping_add u32_max matched_at_ ACCEPT_SECS in {|
    match_id := id; t_network := network; xbt_sat := xbt; btc_sat := btc;
    price_sat_per_xbt := price; fee_bps := SWAP_FEE_BPS; fee_address := fee_address;
    matched_at := matched_at_;
    xbt_locktime := wrapping_add u32_max matched_at_ (xbt_leg_secs tl);
    btc_locktime := wrapping_add u32_max matched_at_ (btc_leg_secs tl);
    xbt_confs := XBT_CONFS; btc_confs := BTC_CONFS;
    accept_by := accept_by_;
    initiator_fund_by := wrapping_add u32_max accept_by_ INITIATOR_FUND_SECS;
    contract_version := CURRENT_CONTRACT |}.

Definition new_match (id : string) (terms : SwapTerms) (init part : Offer) : Match := {|
  m_id := id; m_terms := terms;
  m_initiator_offer := o_id init; m_participant_offer := o_id part;
  m_initiator_token := o_token init; m_participant_token := o_token part;
  m_initiator_secret_hash := o_secret_hash init; m_participant_secret_hash := o_secret_hash part;
  m_accepted := (false, false); m_status := Proposed;
  m_xbt_funding := None; m_btc_funding := None; m_participant_fund_by := None;
  m_pre_match_amounts := (o_amount_sat init, o_amount_sat part);
  m_closed_at := None; m_keys := (None, None); m_hashlock := None;
  m_missed_participant_deadline := false; m_release_txs := None; m_release_sigs := None |}.

Definition pair (a b : Offer) (price now max_btc_sat : Z) (network fee_address : string) :
    M (option Match) :=
  if price =? 0 then throw "zero price"
  else
    let '(init, part) := match o_direction a with XbtToBtc => (a, b) | BtcToXbt => (b, a) end in
    if bool_decide (o_direction init ≠ XbtToBtc) || bool_decide (o_direction part ≠ BtcToXbt)
    then throw "offers are not opposite"
    else
      part_xbt ← lift (xbt_for_btc (o_amount_sat part) price);
      max_xbt ← lift (xbt_for_btc max_btc_sat price);
      let xbt := Z.min (Z.min (o_amount_sat init) part_xbt) max_xbt in
      let btc := btc_for_xbt xbt price in
      if btc <? MIN_BTC_LEG_SAT then mret None
      else
        '(btc_params, xbt_params) ← lift (map_err (network_params network));
        let tl := swap_timelocks btc_params xbt_params in
        matched_at_ ← lift (ok_or (try_from u32_max now) "out of range integral type conversion attempted");
        id ← new_id fresh;
        let m := new_match id (build_terms id network fee_address tl xbt btc price matched_at_) init part in
        _ ← put_match m;
        _ ← put_offer (settle init xbt (xbt =? o_amount_sat init) id);
        _ ← put_offer (settle part btc (xbt =? part_xbt) id);
        mret (Some m).

(** Best price first: the highest bid for a seller, the lowest ask for a
    buyer; then the oldest. *)
Definition better (d : Direction) (a b : Offer) : bool :=
  match d with
  | XbtToBtc => (o_price b <? o_price a) || ((o_price a =? o_price b) && (o_created_at a <=? o_created_at b))
  | BtcToXbt => (o_price a <? o_price b) || ((o_price a =? o_price b) && (o_created_at a <=? o_created_at b))
  end.

Definition candidates (incoming : Offer) (barred : list string) (now : Z) (s : Store) : list Offer :=
  sort_by (better (o_direction incoming))
    (filter (λ c, negb (o_private c) && matchable c now && bool_decide (o_token c ≠ o_token incoming) &&
                  bool_decide (o_id c ∉ barred) && offers_cross incoming c = true)
      (open_offers (opposite (o_direction incoming)) s)).

(** The price of the older of the two, the candidate's on a tie. *)
Definition resting_price (incoming cand : Offer) : Z :=
  if o_created_at incoming <? o_created_at cand then o_price incoming else o_price cand.

Fixpoint try_candidates (incoming : Offer) (cands : list Offer) (now max_btc_sat : Z)
    (network fee_address : string) : M (option Match) :=
  match cands with
  | [] => mret None
  | cand :: cands =>
      r ← pair incoming cand (resting_price incoming cand) now max_btc_sat network fee_address;
      match r with
      | Some m => mret (Some m)
      | None => try_candidates incoming cands now max_btc_sat network fee_address
      end
  end.

Definition match_locked (incoming : Offer) (barred : list string) (now max_btc_sat : Z)
    (network fee_address : string) : M (option Match) :=
  incoming ← read (λ s, default incoming (offer (o_id incoming) s));
  if negb (matchable incoming now) then mret None
  else
    cands ← read (candidates incoming barred now);
    try_candidates incoming cands now max_btc_sat network fee_address.

Definition match_offer (incoming : Offer) (now max_btc_sat : Z) (network fee_address : string) :
    M (option Match) :=
  match_locked incoming [] now max_btc_sat network fee_address.

(** The fold over the open offers that keeps the best price of a side. *)
Definition best (open : list Offer) (d : Direction) (now : Z) : option Offer :=
  foldl (λ acc c,
    match acc with
    | Some b =>
        match d with
        | BtcToXbt => if o_price c <=? o_price b then Some b else Some c
        | XbtToBtc => if o_price b <=? o_price c then Some b else Some c
        end
    | None => Some c
    end) None (filter (λ c, o_direction c = d ∧ matchable c now = true) open).

Definition barred_for (cancelled : list (string * string)) (id : string) : list string :=
  omap (λ '(i, p), if decide (i = id) then Some p else if decide (p = id) then Some i else None) cancelled.

(** A failed match is only logged. *)
Definition logged (m : M (option Match)) : M unit := λ s, (Ok tt, exec_M m s).

Fixpoint rematch_loop (cancelled : list (string * string)) (open : list Offer) (now max_btc_sat : Z)
    (network fee_address : string) : M unit :=
  match open with
  | [] => mret tt
  | o :: open =>
      _ ← logged (match_locked o (barred_for cancelled (o_id o)) now max_btc_sat network fee_address);
      rematch_loop cancelled open now max_btc_sat network fee_address
  end.

Definition rematch (now max_btc_sat : Z) (network fee_address : string) : M unit := λ s,
  let cancelled := map (λ m, (m_initiator_offer m, m_participant_offer m))
    (filter (λ m, m_status m = MCancelled) (all_matches s)) in
  let open := sort_by older (filter (λ o, o_status o = Open ∧ o_private o = false) (all_offers s)) in
  let best_bid := best open BtcToXbt now in
  let best_ask := best open XbtToBtc now in
  let open := filter (λ o,
    from_option (offers_cross o) false
      (match o_direction o with XbtToBtc => best_bid | BtcToXbt => best_ask end) = true) open in
  rematch_loop cancelled open now max_btc_sat network fee_address s.

Definition take_private (code : string) (taker : Offer) (now max_btc_sat : Z)
    (network fee_address : string) : M Match := λ s,
  (maker ← lift (ok_or (offer_by_code code s) "unknown share code");
   if negb (matchable maker now) then throw "offer is no longer available"
   else if bool_decide (o_direction maker = o_direction taker) then throw "offer is in the same direction"
   else if bool_decide (o_token maker = o_token taker) then throw "cannot take your own offer"
   else
     r ← pair taker maker (o_price maker) now max_btc_sat network fee_address;
     lift (ok_or r "below minimum swap size")) s.

Definition take_public (offer_id : string) (taker : Offer) (now max_btc_sat : Z)
    (network fee_address : string) : M Match := λ s,
  (maker ← lift (ok_or (offer offer_id s) "no such offer");
   if o_private maker then throw "that offer is private: take it with its share code"
   else if negb (matchable maker now) then throw "offer is no longer available"
   else if bool_decide (o_direction maker = o_direction taker) then throw "offer is in the same direction"
   else if bool_decide (o_token maker = o_token taker) then throw "cannot take your own offer"
   else if negb (o_price maker =? o_price taker) then throw "price changed"
   else
     r ← pair taker maker (o_price maker) now max_btc_sat network fee_address;
     lift (ok_or r "below minimum swap size")) s.

End matcher.

Inductive Release : Type := Reopen | CancelOffer.

(** [o.amount_sat += consumed] wraps in a release build. *)
Definition release (m : Match) (offer_id : string) (pre consumed : Z) (how : Release) : M unit := λ s,
  match offer offer_id s with
  | None => (Ok tt, s)
  | Some o =>
      if decide (o_match_id o = Some (m_id m)) then
        put_offer (match how with
                   | Reopen => refill o pre Open None
                   | CancelOffer => refill o (o_amount_sat o) OCancelled None
                   end) s
      else if decide (o_status o = Open) then
        put_offer (match how with
                   | Reopen => refill o (wrapping_add u64_max (o_amount_sat o) consumed) Open (o_match_id o)
                   | CancelOffer => refill o (o_amount_sat o) OCancelled (o_match_id o)
                   end) s
      else (Ok tt, s)
  end.

Definition with_status (m : Match) (st : MatchStatus) (closed : option Z) (missed : bool) : Match := {|
  m_id := m_id m; m_terms := m_terms m;
  m_initiator_offer := m_initiator_offer m; m_participant_offer := m_participant_offer m;
  m_initiator_token := m_initiator_token m; m_participant_token := m_participant_token m;
  m_initiator_secret_hash := m_initiator_secret_hash m;
  m_participant_secret_hash := m_participant_secret_hash m;
  m_accepted := m_accepted m; m_status := st;
  m_xbt_funding := m_xbt_funding m; m_btc_funding := m_btc_funding m;
  m_participant_fund_by := m_participant_fund_by m; m_pre_match_amounts := m_pre_match_amounts m;
  m_closed_at := closed; m_keys := m_keys m; m_hashlock := m_hashlock m;
  m_missed_participant_deadline := missed; m_release_txs := m_release_txs m;
  m_release_sigs := m_release_sigs m |}.

Definition cancel (m : Match) (now : Z) (initiator participant : Release) : M unit :=
  let m := with_status m MCancelled (Some now) (m_missed_participant_deadline m) in
  _ ← put_match m;
  _ ← release m (m_initiator_offer m) (fst (m_pre_match_amounts m)) (xbt_sat (m_terms m)) initiator;
  release m (m_participant_offer m) (snd (m_pre_match_amounts m)) (btc_sat (m_terms m)) participant.

Definition tick_match (m : Match) (now : Z) : M unit :=
  match m_status m with
  | Proposed =>
      if accept_by (m_terms m) <? now then cancel m now Reopen Reopen else mret tt
  | Accepted =>
      if bool_decide (m_xbt_funding m = None) && (initiator_fund_by (m_terms m) <? now) then
        _ ← add_strike (m_initiator_token m) now;
        cancel m now CancelOffer Reopen
      else mret tt
  | InitiatorFunded =>
      if bool_decide (m_btc_funding m = None) &&
         from_option (λ t, t <? now) false (m_participant_fund_by m) then
        let m := with_status m (m_status m) (m_closed_at m) true in
        _ ← add_strike (m_participant_token m) now;
        cancel m now CancelOffer CancelOffer
      else mret tt
  | _ => mret tt
  end.

(** Failures are only logged. *)
Definition tick (now : Z) (s : Store) : Store :=
  let s := foldl (λ s m, exec_M (tick_match m now) s) s (all_matches s) in
  foldl (λ s o,
    if bool_decide (o_status o = Open) && (o_expires_at o <=? now)
    then exec_M (put_offer (refill o (o_amount_sat o) Expired (o_match_id o))) s
    else s) s (all_offers s).

(** [now] is the system clock's. *)
Definition on_decline (match_id_ : string) (by_ : SwapRole) (now : Z) : M unit := λ s,
  (m ← lift (ok_or (get_match match_id_ s) "unknown match");
   if bool_decide (m_status m ≠ Proposed) || bool_decide (m_xbt_funding m ≠ None)
   then throw "match can no longer be declined"
   else
     let '(initiator, participant) :=
       match by_ with Initiator => (CancelOffer, Reopen) | Participant => (Reopen, CancelOffer) end in
     cancel m now initiator participant) s.

(** ** Fills *)

(** What a stored offer satisfies: the routes only accept such offers. *)
Definition offer_wf (o : Offer) : Prop :=
  u64 (o_amount_sat o) ∧ 0 < o_price o ≤ MAX_PRICE_SAT_PER_XBT.

(** Reading the book: each offer is stored under its id. *)
Definition book_wf (s : Store) : Prop := ∀ id o, offers s !! id = Some o → o_id o = id ∧ offer_wf o.

(** The amounts a seller and a buyer trade at a price, under a cap: the least
    of what the seller has, what the buyer can pay for and the cap. *)
Definition fill (seller buyer : Offer) (price max_btc_sat : Z) : Z * Z :=
  let xbt := Z.min (Z.min (o_amount_sat seller) (Z.min (o_amount_sat buyer * 100_000_000 / price) u64_max))
               (Z.min (max_btc_sat * 100_000_000 / price) u64_max) in
  (xbt, btc_for_xbt xbt price).

(** The seller and the buyer of two opposite offers. *)
Definition sides (a b : Offer) : Offer * Offer :=
  match o_direction a with XbtToBtc => (a, b) | BtcToXbt => (b, a) end.

Lemma fill_back x b price :
  0 < price → x ≤ b * 100_000_000 / price → x * price / 100_000_000 ≤ b.
Proof.
  intros Hp Hx. apply Z.div_le_upper_bound; [lia|].
  assert (price * (b * 100_000_000 / price) ≤ b * 100_000_000) by (apply Z.mul_div_le; lia). nia.
Qed.

Lemma fill_bounds seller buyer price max x b :
  u64 (o_amount_sat seller) → u64 (o_amount_sat buyer) → 0 ≤ max → 0 < price →
  fill seller buyer price max = (x, b) →
  0 ≤ x ≤ o_amount_sat seller ∧ 0 ≤ b ≤ o_amount_sat buyer ∧ b ≤ max ∧ b = btc_for_xbt x price.
Proof.
  intros [Hs1 Hs2] [Hb1 Hb2] Hm Hp. unfold fill. intros [= <- <-].
  set (xm := Z.min (Z.min (o_amount_sat seller) _) _).
  assert (0 ≤ o_amount_sat buyer * 100_000_000 / price) by (apply Z.div_pos; lia).
  assert (0 ≤ max * 100_000_000 / price) by (apply Z.div_pos; lia).
  assert (Hx : 0 ≤ xm) by (unfold xm, u64_max; lia).
  pose proof (fill_back xm (o_amount_sat buyer) price Hp ltac:(lia)).
  pose proof (fill_back xm max price Hp ltac:(lia)).
  assert (0 ≤ xm * price / 100_000_000) by (apply Z.div_pos; nia).
  unfold btc_for_xbt, u64_max in *. split_and!; lia.
Qed.

Lemma xbt_for_btc_Ok {E} b price : price ≠ 0 →
  xbt_for_btc (E:=E) b price = Ok (Z.min (b * 100_000_000 / price) u64_max).
Proof. intros Hp. unfold xbt_for_btc. by rewrite (proj2 (Z.eqb_neq _ _) Hp). Qed.

Section pairing.
Context (fresh : nat → string + string).

(** Two offers that [pair] accepts, at a price. *)
Definition pairable (a b : Offer) (price : Z) : Prop :=
  price ≠ 0 ∧ o_direction a ≠ o_direction b.

Lemma sides_directions a b :
  o_direction a ≠ o_direction b →
  o_direction (fst (sides a b)) = XbtToBtc ∧ o_direction (snd (sides a b)) = BtcToXbt.
Proof. unfold sides. destruct (o_direction a) eqn:Ha, (o_direction b) eqn:Hb; simpl; intros; by rewrite ?Ha, ?Hb. Qed.

(** [pair], on opposite offers at a price: below the minimum it does nothing;
    otherwise it builds the terms and saves the match and both offers. *)
Lemma pair_eq a b price now max network fee_address s :
  pairable a b price →
  pair fresh a b price now max network fee_address s =
  (let '(seller, buyer) := sides a b in
   let '(x, bt) := fill seller buyer price max in
   if bt <? MIN_BTC_LEG_SAT then (Ok None, s)
   else
     ('(btc_params, xbt_params) ← lift (map_err (network_params network));
      matched_at_ ← lift (ok_or (try_from u32_max now) "out of range integral type conversion attempted");
      id ← new_id fresh;
      let m := new_match id (build_terms id network fee_address (swap_timelocks btc_params xbt_params)
                 x bt price matched_at_) seller buyer in
      _ ← put_match m;
      _ ← put_offer (settle seller x (x =? o_amount_sat seller) id);
      _ ← put_offer (settle buyer bt
            (x =? Z.min (o_amount_sat buyer * 100_000_000 / price) u64_max) id);
      mret (Some m)) s).
Proof.
  intros [Hp Hd]. pose proof (sides_directions a b Hd) as [Hs Hb].
  unfold pair. rewrite (proj2 (Z.eqb_neq _ _) Hp). fold (sides a b).
  destruct (sides a b) as [seller buyer]. simpl in Hs, Hb.
  rewrite !bool_decide_false by naive_solver. cbn [orb].
  rewrite !xbt_for_btc_Ok by done. unfold fill. cbn [fst snd].
  unfold mbind at 1, M_bind at 1, lift at 1. unfold mbind at 1, M_bind at 1, lift at 1.
  case_match; [done|]. reflexivity.
Qed.

(** A made match, its amounts and what is stored. *)
Record made (a b : Offer) (price now max : Z) (network fee_address : string) (m : Match)
    (s s' : Store) : Prop := {
  made_terms : ∃ btc_params xbt_params,
    network_params network = Ok (btc_params, xbt_params) ∧ 0 ≤ now ≤ u32_max ∧
    m = new_match (m_id m) (build_terms (m_id m) network fee_address
          (swap_timelocks btc_params xbt_params)
          (fst (fill (fst (sides a b)) (snd (sides a b)) price max))
          (snd (fill (fst (sides a b)) (snd (sides a b)) price max)) price now)
          (fst (sides a b)) (snd (sides a b));
  made_min : MIN_BTC_LEG_SAT ≤ btc_sat (m_terms m);
  made_match : matches s' = <[m_id m := m]> (matches s);
  made_offers : ∃ l1 l2, offers s' =
    <[o_id (snd (sides a b)) := settle (snd (sides a b)) (btc_sat (m_terms m)) l2 (m_id m)]>
      (<[o_id (fst (sides a b)) := settle (fst (sides a b)) (xbt_sat (m_terms m)) l1 (m_id m)]> (offers s));
  made_tags : tags s ⊆ tags s';
}.

Lemma settle_id o c l id : o_id (settle o c l id) = o_id o.
Proof. unfold settle. by case_match. Qed.

Lemma pair_made a b price now max network fee_address s m s' :
  pairable a b price →
  pair fresh a b price now max network fee_address s = (Ok (Some m), s') →
  made a b price now max network fee_address m s s'.
Proof.
  intros Hp. rewrite pair_eq by done. destruct (sides a b) as [seller buyer] eqn:Hs.
  destruct (fill seller buyer price max) as [x bt] eqn:Hf.
  destruct (bt <? MIN_BTC_LEG_SAT) eqn:Hmin; [done|]. zbool. intros E.
  apply M_bind_Ok in E as ([bp xp] & s1 & Hn & E). unfold lift in Hn. injection Hn as Hn <-.
  apply M_bind_Ok in E as (at_ & s1 & Hat & E). unfold lift in Hat. injection Hat as Hat <-.
  apply ok_or_Ok, try_from_Some in Hat as [-> Hnow].
  apply M_bind_Ok in E as (id & s1 & Hid & E).
  assert (Hs1 : s1 = set_ids_drawn s (S (ids_drawn s))) by (unfold new_id in Hid; by injection Hid as _ <-).
  apply M_bind_Ok in E as ([] & s2 & Hm & E). unfold put_match, modify in Hm. injection Hm as <-.
  apply M_bind_Ok in E as ([] & s3 & Ho1%put_offer_Ok & E).
  apply M_bind_Ok in E as ([] & s4 & Ho2%put_offer_Ok & E). injection E as <- <-.
  destruct Ho1 as (Ho1 & Hm1 & Ht1), Ho2 as (Ho2 & Hm2 & Ht2). rewrite !settle_id in *.
  split; rewrite ?Hs; cbn [fst snd]; rewrite ?Hf; simpl.
  - exists bp, xp. split_and!; [|lia..|done].
    destruct (network_params network) as [[? ?]| |]; simpl in Hn; by simplify_eq.
  - done.
  - rewrite Hm2, Hm1, Hs1. done.
  - do 2 eexists. rewrite Ho2, Ho1, Hs1. done.
  - etrans; [|exact Ht2]. etrans; [|exact Ht1]. by rewrite Hs1.
Qed.

End pairing.

(** ** Reading the book *)
(** What makes an offer a candidate for [incoming]. *)
Record candidate (incoming : Offer) (barred : list string) (now : Z) (s : Store) (c : Offer) : Prop := {
  cand_stored : ∃ id, offers s !! id = Some c;
  cand_side : o_direction c = opposite (o_direction incoming);
  cand_open : o_status c = Open ∧ now < o_expires_at c ∧ o_private c = false;
  cand_other : o_token c ≠ o_token incoming ∧ o_id c ∉ barred;
  cand_cross : offers_cross incoming c = true;
}.

Lemma candidates_elem incoming barred now s c :
  c ∈ candidates incoming barred now s ↔ candidate incoming barred now s c.
Proof.
  unfold candidates. rewrite sort_by_Permutation, list_elem_of_filter.
  unfold open_offers. rewrite sort_by_Permutation, list_elem_of_filter, all_offers_elem.
  rewrite !andb_true_iff, negb_true_iff, !bool_decide_eq_true. unfold matchable.
  rewrite andb_true_iff, bool_decide_eq_true, Z.ltb_lt.
  split; [intros; split; tauto|intros [? ? ? ? ?]; tauto].
Qed.

Lemma better_total d a b : better d a b = true ∨ better d b a = true.
Proof. unfold better. destruct d; rewrite !orb_true_iff, !andb_true_iff, !Z.ltb_lt, !Z.eqb_eq, !Z.leb_le; lia. Qed.

Lemma better_trans d a b c : better d a b = true → better d b c = true → better d a c = true.
Proof. unfold better. destruct d; rewrite !orb_true_iff, !andb_true_iff, !Z.ltb_lt, !Z.eqb_eq, !Z.leb_le; lia. Qed.

Lemma cross_prices incoming c :
  o_direction c = opposite (o_direction incoming) → offers_cross incoming c = true →
  let '(seller, buyer) := sides incoming c in
  o_price seller ≤ resting_price incoming c ≤ o_price buyer.
Proof.
  unfold offers_cross, sides, crosses, resting_price. intros Hd Hc.
  destruct (o_direction incoming); zbool; case_match; zbool; lia.
Qed.

Section matching.
Context (fresh : nat → string + string).

(** The fill of a candidate is below the minimum. *)
Definition too_small (incoming : Offer) (max : Z) (c : Offer) : Prop :=
  snd (fill (fst (sides incoming c)) (snd (sides incoming c)) (resting_price incoming c) max) < MIN_BTC_LEG_SAT.

Lemma try_candidates_made incoming cands now max network fee_address s m s' :
  Forall (λ c, pairable incoming c (resting_price incoming c)) cands →
  try_candidates fresh incoming cands now max network fee_address s = (Ok (Some m), s') →
  ∃ l1 c l2, cands = l1 ++ c :: l2 ∧ Forall (too_small incoming max) l1 ∧
    made incoming c (resting_price incoming c) now max network fee_address m s s'.
Proof.
  induction 1 as [|c cands Hc Hcs IH]; intros E; [done|]. simpl in E.
  apply M_bind_Ok in E as ([m'|] & s1 & Hp & E).
  - injection E as -> <-. exists [], c, cands. split_and!; [done|constructor|].
    by apply (pair_made fresh).
  - rewrite (pair_eq fresh) in Hp by done. destruct (sides incoming c) as [seller buyer] eqn:Hs.
    destruct (fill seller buyer (resting_price incoming c) max) as [x b] eqn:Hf.
    destruct (b <? MIN_BTC_LEG_SAT) eqn:Hb.
    + zbool. injection Hp as <-. destruct (IH E) as (l1 & c' & l2 & -> & Hl1 & Hm).
      exists (c :: l1), c', l2. split_and!; [done| |done]. constructor; [|done].
      unfold too_small. rewrite Hs. cbn [fst snd]. by rewrite Hf.
    + repeat (apply M_bind_Ok in Hp as (? & ? & _ & Hp); try case_match). done.
Qed.

(** What [match_locked] found, with the offer as the store has it. *)
Lemma match_locked_made incoming barred now max network fee_address s m s' :
  book_wf s → offer_wf incoming →
  match_locked fresh incoming barred now max network fee_address s = (Ok (Some m), s') →
  ∃ inc l1 c l2, inc = default incoming (offer (o_id incoming) s) ∧ offer_wf inc ∧
    matchable inc now = true ∧
    candidates inc barred now s = l1 ++ c :: l2 ∧ Forall (too_small inc max) l1 ∧
    candidate inc barred now s c ∧ offer_wf c ∧
    made inc c (resting_price inc c) now max network fee_address m s s'.
Proof.
  intros Hbook Hwf E. unfold match_locked in E. apply M_bind_Ok in E as (inc & s1 & Hr & E).
  unfold read in Hr. injection Hr as Hinc <-.
  assert (Hincwf : offer_wf inc).
  { subst inc. unfold offer. destruct (offers s !! o_id incoming) eqn:Ho; [|done]. by eapply Hbook. }
  destruct (matchable inc now) eqn:Hm; [|done]. cbn [negb] in E.
  apply M_bind_Ok in E as (cands & s1 & Hr & E). unfold read in Hr. injection Hr as Hc <-.
  assert (Hall : Forall (λ c, candidate inc barred now s c ∧ offer_wf c) cands).
  { apply Forall_forall. intros c Hin. rewrite <-Hc in Hin. apply candidates_elem in Hin.
    split; [done|]. destruct Hin as [[id Hid] _ _ _ _]. by eapply Hbook. }
  apply try_candidates_made in E as (l1 & c & l2 & Hl & Hl1 & Hmade).
  2:{ eapply Forall_impl; [exact Hall|]. intros c [[_ Hside _ _ _] [_ Hp]]. split.
      - unfold resting_price. destruct Hincwf. case_match; lia.
      - rewrite Hside. by destruct (o_direction inc). }
  exists inc, l1, c, l2. rewrite Hl in Hall. apply Forall_app in Hall as [_ [[? ?] _]%Forall_cons].
  by rewrite Hc, Hl.
Qed.

Lemma made_parties a b price now max network fee_address m s s' :
  made a b price now max network fee_address m s s' →
  m_initiator_offer m = o_id (fst (sides a b)) ∧ m_participant_offer m = o_id (snd (sides a b)) ∧
  price_sat_per_xbt (m_terms m) = price.
Proof. intros [(bp & xp & _ & _ & Hm) _ _ _ _]. by rewrite Hm. Qed.

Lemma legs_bound net xl bl : legs net = Some (xl, bl) → 0 ≤ xl ≤ 172_800 ∧ 0 ≤ bl ≤ 172_800.
Proof. unfold legs. repeat case_decide; intros [= <- <-]; lia. Qed.

(** The terms [pair] builds at a price within both limits are acceptable to
    both wallets. *)
Lemma made_acceptable a b price now max network fee_address m s s' t limit role :
  made a b price now max network fee_address m s s' →
  0 < price ≤ MAX_PRICE_SAT_PER_XBT → limit ≠ 0 → now + 172_800 ≤ u32_max →
  match role with Initiator => limit ≤ price | Participant => price ≤ limit end →
  now - 600 ≤ t ≤ now + 120 → validate_terms (m_terms m) limit role t = Ok tt.
Proof.
  intros [(bp & xp & Hn & Hnow & Hm) Hmin _ _ _] Hp Hl Hfit Hside Ht.
  apply network_params_legs in Hn as Hlegs. apply legs_bound in Hlegs as Hle.
  apply validate_terms_complete. rewrite Hm in Hmin |- *. unfold MIN_BTC_LEG_SAT in Hmin.
  unfold MAX_PRICE_SAT_PER_XBT in Hp. split; simpl in *; try done; try lia.
  - do 2 eexists. split; [exact Hlegs|]. simpl. rewrite !wrapping_add_small by lia. lia.
  - right. left.
  - unfold ACCEPT_SECS, INITIATOR_FUND_SECS. rewrite !wrapping_add_small by (rewrite ?wrapping_add_small by lia; lia). lia.
Qed.

(** ** The three ways to a match *)
Inductive Call : Type :=
| Incoming (incoming : Offer) (barred : list string)
| TakeCode (code : string) (taker : Offer)
| TakeOffer (offer_id : string) (taker : Offer).

Definition make_match (c : Call) (now max : Z) (network fee_address : string) : M (option Match) :=
  match c with
  | Incoming incoming barred => match_locked fresh incoming barred now max network fee_address
  | TakeCode code taker => m ← take_private fresh code taker now max network fee_address; mret (Some m)
  | TakeOffer id taker => m ← take_public fresh id taker now max network fee_address; mret (Some m)
  end.

Definition caller (c : Call) : Offer :=
  match c with Incoming o _ => o | TakeCode _ o | TakeOffer _ o => o end.

(** The caller's offer as it is matched: an incoming one as it is stored. *)
Definition ours (c : Call) (s : Store) : Offer :=
  match c with Incoming o _ => default o (offer (o_id o) s) | TakeCode _ o | TakeOffer _ o => o end.

(** The offer it may be matched with, and at which price. *)
Definition may_meet (c : Call) (s : Store) (maker : Offer) : Prop :=
  match c with
  | Incoming _ barred => o_private maker = false ∧ o_id maker ∉ barred
  | TakeCode code _ => offer_by_code code s = Some maker
  | TakeOffer id _ => offer id s = Some maker ∧ o_private maker = false
  end.

Definition price_of (c : Call) (s : Store) (maker : Offer) : Z :=
  match c with Incoming _ _ => resting_price (ours c s) maker | _ => o_price maker end.

(** Who takes an offer by its code does so at the price it shows: the route
    makes the taker's offer from the maker's. *)
Definition at_shown_price (c : Call) (s : Store) : Prop :=
  match c with
  | TakeCode code taker => ∀ maker, offer_by_code code s = Some maker → o_price taker = o_price maker
  | _ => True
  end.

(** What a call that made a match went through. *)
Record met (c : Call) (now max : Z) (network fee_address : string) (s : Store) (maker : Offer) (m : Match)
    (s' : Store) : Prop := {
  met_stored : ∃ id, offers s !! id = Some maker;
  met_matchable : matchable maker now = true;
  met_may : may_meet c s maker;
  met_other : o_token (ours c s) ≠ o_token maker ∧ o_direction (ours c s) ≠ o_direction maker;
  met_prices : o_price (fst (sides (ours c s) maker)) ≤ price_of c s maker ≤ o_price (snd (sides (ours c s) maker));
  met_made : made (ours c s) maker (price_of c s maker) now max network fee_address m s s';
}.

(** What a take goes through after it looked its maker up. *)
Lemma take_met c maker (r : M Match) now max network fee_address s m s' :
  book_wf s → (∃ id, offers s !! id = Some maker) → may_meet c s maker → price_of c s maker = o_price maker →
  o_price (ours c s) = o_price maker →
  (if negb (matchable maker now) then throw "offer is no longer available"
   else if bool_decide (o_direction maker = o_direction (ours c s)) then throw "offer is in the same direction"
   else if bool_decide (o_token maker = o_token (ours c s)) then throw "cannot take your own offer"
   else r) s = (Ok m, s') →
  (pairable (ours c s) maker (o_price maker) → r s = (Ok m, s') →
   pair fresh (ours c s) maker (o_price maker) now max network fee_address s = (Ok (Some m), s')) →
  met c now max network fee_address s maker m s'.
Proof.
  intros Hbook Hst Hmay Hprice Hown E Hr. destruct Hst as [id Hid]. destruct (Hbook _ _ Hid) as [_ [_ Hpos]].
  destruct (matchable maker now) eqn:Hm; [|done]. cbn [negb] in E.
  case_bool_decide as Hd; [done|]. case_bool_decide as Ht; [done|].
  assert (Hp : pairable (ours c s) maker (o_price maker)) by (split; [lia|congruence]).
  split; [by exists id|done|done|by split; congruence| |].
  - rewrite Hprice. unfold sides. case_match; simpl; lia.
  - rewrite Hprice. apply (pair_made fresh); [done|by apply Hr].
Qed.

Lemma pair_last a b price now max network fee_address e s m s' :
  (r ← pair fresh a b price now max network fee_address; lift (ok_or r e)) s = (Ok m, s') →
  pair fresh a b price now max network fee_address s = (Ok (Some m), s').
Proof.
  intros ([m'|] & s1 & Hp & E)%M_bind_Ok; unfold lift in E; simpl in E; [|done]. by injection E as -> ->.
Qed.

Lemma some_Ok {A} (r : M A) s a s' : (x ← r; mret (Some x)) s = (Ok (Some a), s') → r s = (Ok a, s').
Proof. unfold mbind, M_bind, mret, M_ret. destruct (r s) as [[?|?|] ?]; try done. by intros [= -> ->]. Qed.

Lemma call_met c now max network fee_address s m s' :
  book_wf s → offer_wf (caller c) → at_shown_price c s →
  make_match c now max network fee_address s = (Ok (Some m), s') →
  offer_wf (ours c s) ∧ ∃ maker, offer_wf maker ∧ met c now max network fee_address s maker m s'.
Proof.
  intros Hbook Hwf Hshown E. destruct c as [inc barred|code taker|id taker]; simpl in *.
  - apply match_locked_made in E as (i & l1 & o & l2 & -> & Hi & _ & _ & _ & [Hst Hside Hopen [Htok Hbar] Hcross] & Ho & Hmade);
      [|done..].
    assert (Hd : o_direction (default inc (offer (o_id inc) s)) ≠ o_direction o)
      by (rewrite Hside; by destruct (o_direction (default inc (offer (o_id inc) s)))).
    split; [done|]. exists o. split; [done|]. split; simpl; try done.
    + unfold matchable. rewrite bool_decide_true by apply Hopen. apply Z.ltb_lt, Hopen.
    + split; [apply Hopen|done].
    + pose proof (cross_prices _ _ Hside Hcross) as Hc. destruct (sides _ _). exact Hc.
  - apply some_Ok in E. split; [done|]. apply M_bind_Ok in E as (maker & s1 & Hl & E).
    unfold lift in Hl. injection Hl as Hl%ok_or_Ok <-.
    assert (Hst : ∃ id, offers s !! id = Some maker).
    { unfold offer_by_code in Hl. apply fmap_Some in Hl as ([i o] & (Hi & _)%list_find_Some & ->).
      apply all_offers_elem. by eapply list_elem_of_lookup_2. }
    exists maker. split; [destruct Hst as [id Hid]; by eapply Hbook|].
    eapply (take_met (TakeCode code taker)); [done..|by apply Hshown|exact E|]. intros _. apply pair_last.
  - apply some_Ok in E. split; [done|]. apply M_bind_Ok in E as (maker & s1 & Hl & E).
    unfold lift in Hl. injection Hl as Hl%ok_or_Ok <-.
    destruct (o_private maker) eqn:Hpriv; [done|].
    assert (Hpr : o_price taker = o_price maker).
    { destruct (o_price maker =? o_price taker) eqn:Ep; [zbool; lia|]. by repeat case_match. }
    exists maker. split; [by eapply Hbook|].
    eapply (take_met (TakeOffer id taker)); [done|by exists id|done..|exact E|].
    intros _ E'. rewrite Hpr, Z.eqb_refl in E'. cbn [negb] in E'. by eapply pair_last.
Qed.

(** C12. Every match the matcher makes is one both wallets accept, whether an
    offer came in and met one in the book, was taken by its share code at the
    price it shows, or was taken by its id.  The other side is an offer the
    store holds, open and not expired, the one the call names or (for an
    incoming offer) a public one it was not barred from; it has another owner
    and the opposite direction.  The match is stored, and names the two
    offers, their owners and their secrets on the right sides; its price is
    the one of the offer that was there first, at or above the seller's limit
    and at or below the buyer's; and the terms pass [validate_terms] with either side's own
    limit, read at any time from 600 s before the match to its accept
    deadline. *)
Theorem matched_terms_accepted c now max network fee_address s m s' t :
  book_wf s → offer_wf (caller c) → at_shown_price c s → now + 172_800 ≤ u32_max →
  make_match c now max network fee_address s = (Ok (Some m), s') →
  now - 600 ≤ t ≤ now + 120 →
  ∃ maker seller buyer,
    (offers s !! o_id maker = Some maker ∧ o_status maker = Open ∧ now < o_expires_at maker ∧ may_meet c s maker) ∧
    (seller, buyer) = sides (ours c s) maker ∧ o_token seller ≠ o_token buyer ∧
    o_direction seller = XbtToBtc ∧ o_direction buyer = BtcToXbt ∧
    matches s' = <[m_id m := m]> (matches s) ∧
    (m_initiator_offer m, m_initiator_token m, m_initiator_secret_hash m) =
      (o_id seller, o_token seller, o_secret_hash seller) ∧
    (m_participant_offer m, m_participant_token m, m_participant_secret_hash m) =
      (o_id buyer, o_token buyer, o_secret_hash buyer) ∧
    price_sat_per_xbt (m_terms m) = price_of c s maker ∧
    o_price seller ≤ price_sat_per_xbt (m_terms m) ≤ o_price buyer ∧
    validate_terms (m_terms m) (o_price seller) Initiator t = Ok tt ∧
    validate_terms (m_terms m) (o_price buyer) Participant t = Ok tt.
Proof.
  intros Hbook Hwf Hshown Hfit E Ht.
  apply call_met in E as ([_ Hp1] & maker & [_ Hp2] & [[id Hst] Hopen Hmay [Htok Hd] Hprice Hmade]); [|done..].
  pose proof (sides_directions _ _ Hd) as [Hs Hb].
  apply andb_true_iff in Hopen as [Hopen%bool_decide_eq_true Hexp%Z.ltb_lt].
  destruct (Hbook _ _ Hst) as [Hid _].
  assert (Hpos : (0 < o_price (fst (sides (ours c s) maker)) ≤ MAX_PRICE_SAT_PER_XBT ∧
                  0 < o_price (snd (sides (ours c s) maker)) ≤ MAX_PRICE_SAT_PER_XBT) ∧
                 o_token (fst (sides (ours c s) maker)) ≠ o_token (snd (sides (ours c s) maker))).
  { unfold sides. destruct (o_direction (ours c s)); simpl; split; (done || naive_solver). }
  destruct (made_parties _ _ _ _ _ _ _ _ _ _ Hmade) as (_ & _ & Hpr).
  pose proof (made_match _ _ _ _ _ _ _ _ _ _ Hmade) as Hms.
  pose proof (made_terms _ _ _ _ _ _ _ _ _ _ Hmade) as (bp & xp & _ & _ & Hm).
  exists maker, (fst (sides (ours c s) maker)), (snd (sides (ours c s) maker)). rewrite Hpr.
  split_and!; try done; try tauto; try lia; try (by rewrite Hm); try (by rewrite Hid).
  - by destruct (sides _ _).
  - eapply made_acceptable; eauto; lia.
  - eapply made_acceptable; eauto; lia.
Qed.

(** Best price first, then the oldest: the offer a match was made with is
    at least as good, in price and then in age, as every other offer the
    incoming one could have taken, except those too small to fill; and the
    trade runs at the price of the offer that was there first. *)
Theorem best_candidate_first incoming barred now max network fee_address s m s' :
  book_wf s → offer_wf incoming →
  match_locked fresh incoming barred now max network fee_address s = (Ok (Some m), s') →
  ∃ inc c, inc = default incoming (offer (o_id incoming) s) ∧ candidate inc barred now s c ∧
    (m_initiator_offer m, m_participant_offer m) = (o_id (fst (sides inc c)), o_id (snd (sides inc c))) ∧
    price_sat_per_xbt (m_terms m) = resting_price inc c ∧
    ∀ c', candidate inc barred now s c' → better (o_direction inc) c c' = true ∨ too_small inc max c'.
Proof.
  intros Hbook Hwf E.
  apply match_locked_made in E as (inc & l1 & c & l2 & Hinc & _ & _ & Hcands & Hl1 & Hc & _ & Hmade); [|done..].
  exists inc, c. destruct (made_parties _ _ _ _ _ _ _ _ _ _ Hmade) as (Hi & Hpt & Hpr).
  split_and!; [done|done|congruence|done|]. intros c' Hc'%candidates_elem.
  rewrite Hcands in Hc'. apply elem_of_app in Hc' as [Hc'|[->|Hc']%elem_of_cons].
  - right. rewrite Forall_forall in Hl1. by apply Hl1.
  - left. destruct (better_total (o_direction inc) c c); done.
  - left. assert (Hsorted : ordered (better (o_direction inc)) (candidates inc barred now s)).
    { apply sort_by_sorted; [apply better_total|apply better_trans]. }
    rewrite Hcands in Hsorted. unfold ordered in Hsorted.
    apply StronglySorted_app_1_r, StronglySorted_inv in Hsorted as [_ Hall].
    rewrite Forall_forall in Hall. by apply Hall.
Qed.

End matching.

(** ** Filling and undoing *)
Section fills.
Context (fresh : nat → string + string).

Lemma settle_amount o c l id :
  u64 (o_amount_sat o) → 0 ≤ c ≤ o_amount_sat o → o_amount_sat (settle o c l id) = o_amount_sat o - c.
Proof.
  intros [? ?] ?. unfold settle.
  assert (wrapping_add u64_max (o_amount_sat o) (- c) = o_amount_sat o - c) as ->.
  { rewrite wrapping_add_small; lia. }
  by case_match.
Qed.

(** An offer after a fill: back on the book while the rest is worth trading,
    else done and marked with the match. *)
Definition filled (before after : Offer) (c : Z) (mid : string) : Prop :=
  o_amount_sat after = o_amount_sat before - c ∧ o_id after = o_id before ∧
  o_price after = o_price before ∧ o_direction after = o_direction before ∧
  if MIN_BTC_LEG_SAT <=? btc_leg_value (o_direction before) (o_amount_sat before - c) (o_price before)
  then o_status after = Open ∧ o_match_id after = None
  else o_status after ∈ [Matched; Filled] ∧ o_match_id after = Some mid.

Lemma settle_filled o c l id :
  u64 (o_amount_sat o) → 0 ≤ c ≤ o_amount_sat o → filled o (settle o c l id) c id.
Proof.
  intros Hu Hc. pose proof (settle_amount o c l id Hu Hc) as Ha. unfold filled. rewrite Ha. clear Ha.
  destruct Hu. unfold settle. rewrite wrapping_add_small by lia.
  change (o_amount_sat o + - c) with (o_amount_sat o - c).
  case_match; simpl; split_and!; try done; [destruct l; set_solver].
Qed.

(** A match never takes more than an offer has: the seller's XBT and the
    buyer's BTC cover the fill, it is within the service's cap and at least the
    minimum, and the BTC amount is the XBT amount at the price, rounded down.
    Both offers are stored with exactly that much less, still open if the rest
    is worth at least the minimum and otherwise bound to this match; no other
    offer changes. *)
Theorem match_fills a b price now max network fee_address s m s' :
  offer_wf a → offer_wf b → 0 ≤ max → 0 < price → o_direction a ≠ o_direction b → o_id a ≠ o_id b →
  pair fresh a b price now max network fee_address s = (Ok (Some m), s') →
  let '(seller, buyer) := sides a b in
  let x := xbt_sat (m_terms m) in
  let bt := btc_sat (m_terms m) in
  0 ≤ x ≤ o_amount_sat seller ∧ 2_000 ≤ bt ≤ o_amount_sat buyer ∧ bt ≤ max ∧
  bt = btc_for_xbt x price ∧
  matches s' !! m_id m = Some m ∧
  (∃ o, offers s' !! o_id seller = Some o ∧ filled seller o x (m_id m)) ∧
  (∃ o, offers s' !! o_id buyer = Some o ∧ filled buyer o bt (m_id m)) ∧
  (∀ id, id ≠ o_id seller → id ≠ o_id buyer → offers s' !! id = offers s !! id).
Proof.
  intros [Ha _] [Hb _] Hmax Hp Hd Hids E.
  apply pair_made in E as [(bp & xp & _ & _ & Hm) Hmin Hms (l1 & l2 & Ho) _]; [|split; [lia|done]].
  assert (Hsides : u64 (o_amount_sat (fst (sides a b))) ∧ u64 (o_amount_sat (snd (sides a b))) ∧
                   o_id (fst (sides a b)) ≠ o_id (snd (sides a b))).
  { unfold sides. by destruct (o_direction a). }
  destruct (sides a b) as [seller buyer]. cbn [fst snd] in *. destruct Hsides as (Hs & Hbu & Hne).
  destruct (fill seller buyer price max) as [x bt] eqn:Hf. cbn [fst snd] in *.
  assert (Hx : xbt_sat (m_terms m) = x) by by rewrite Hm.
  assert (Hbt : btc_sat (m_terms m) = bt) by by rewrite Hm.
  rewrite Hx, Hbt in *. clear Hm.
  apply fill_bounds in Hf as (? & ? & ? & ?); [|done..]. unfold MIN_BTC_LEG_SAT in Hmin.
  split_and!; try lia; try done.
  - rewrite Hms. apply lookup_insert_eq.
  - eexists. rewrite Ho, lookup_insert_ne, lookup_insert_eq by done. split; [done|]. by apply settle_filled.
  - eexists. rewrite Ho, lookup_insert_eq. split; [done|]. by apply settle_filled.
  - intros id Hi Hj. rewrite Ho, !lookup_insert_ne; done.
Qed.

Lemma put_offer_back s o o' :
  o_id o' = o_id o → o_recovery_tag o' = o_recovery_tag o →
  (∀ tag, o_recovery_tag o = Some tag → tags s !! tag = Some (o_id o)) →
  put_offer o' s = (Ok tt, set_offers s (<[o_id o := o']> (offers s))).
Proof.
  intros Hid Htag Ht. unfold put_offer. rewrite Htag, Hid.
  destruct (o_recovery_tag o) as [tag|] eqn:E; [|done].
  rewrite (Ht tag eq_refl), decide_False by naive_solver. done.
Qed.

(** An offer as it is on the book. *)
Definition on_book (s : Store) (o : Offer) : Prop :=
  offers s !! o_id o = Some o ∧ o_status o = Open ∧ o_match_id o = None.

Lemma refill_back o c l id :
  o_status o = Open → o_match_id o = None → refill (settle o c l id) (o_amount_sat o) Open None = o.
Proof. intros Hs Hm. unfold settle. destruct o; simpl in *; subst. by case_match. Qed.

Lemma release_reopens m s o c l :
  offers s !! o_id o = Some (settle o c l (m_id m)) → o_status o = Open → o_match_id o = None →
  u64 (o_amount_sat o) → 0 ≤ c ≤ o_amount_sat o →
  (∀ tag, o_recovery_tag o = Some tag → tags s !! tag = Some (o_id o)) →
  release m (o_id o) (o_amount_sat o) c Reopen s = (Ok tt, set_offers s (<[o_id o := o]> (offers s))).
Proof.
  intros Ho Hs Hm Hu Hc Ht. pose proof (settle_amount o c l (m_id m) Hu Hc) as Ha.
  pose proof (settle_filled o c l (m_id m) Hu Hc) as (_ & _ & _ & _ & Hst).
  pose proof (refill_back o c l (m_id m) Hs Hm) as Hback. unfold release, offer. rewrite Ho. destruct Hu.
  destruct (MIN_BTC_LEG_SAT <=? _) in Hst; destruct Hst as [Hst Hmid].
  - rewrite decide_False by by rewrite Hmid. rewrite decide_True by done.
    rewrite Ha, Hmid, wrapping_add_small by lia.
    replace (o_amount_sat o - c + c) with (o_amount_sat o) by lia. rewrite Hback. by apply put_offer_back.
  - rewrite decide_True by done. rewrite Hback. by apply put_offer_back.
Qed.

(** Undoing a match gives back exactly what it took: after a match of two
    offers on the book is cancelled with both reopened (nothing else having
    touched them), every offer is exactly as it was before the match, and the
    match is kept as cancelled. *)
Theorem cancel_restores a b price now max network fee_address s m s1 now' :
  book_wf s → tags_ok s → on_book s a → on_book s b →
  0 ≤ max → 0 < price → o_direction a ≠ o_direction b → o_id a ≠ o_id b →
  pair fresh a b price now max network fee_address s = (Ok (Some m), s1) →
  ∃ s2, cancel m now' Reopen Reopen s1 = (Ok tt, s2) ∧ offers s2 = offers s ∧
    ∃ m2, matches s2 !! m_id m = Some m2 ∧ m_status m2 = MCancelled ∧ m_closed_at m2 = Some now'.
Proof.
  intros Hbook Htags Ha Hb Hmax Hp Hd Hids E.
  apply pair_made in E as [(bp & xp & _ & _ & Hm) _ Hms (l1 & l2 & Ho) Ht]; [|split; [lia|done]].
  assert (Hsides : (on_book s (fst (sides a b)) ∧ on_book s (snd (sides a b))) ∧
                   o_id (fst (sides a b)) ≠ o_id (snd (sides a b))).
  { unfold sides. by destruct (o_direction a). }
  destruct (sides a b) as [seller buyer]. cbn [fst snd] in *.
  destruct Hsides as [[(Hs1 & Hs2 & Hs3) (Hb1 & Hb2 & Hb3)] Hne].
  destruct (Hbook _ _ Hs1) as [_ [Hus _]], (Hbook _ _ Hb1) as [_ [Hub _]].
  destruct (fill seller buyer price max) as [x bt] eqn:Hf. cbn [fst snd] in *.
  apply fill_bounds in Hf as (Hx & Hbt & _); [|done..].
  assert (Hts : ∀ o tag, offers s !! o_id o = Some o → o_recovery_tag o = Some tag →
    tags s1 !! tag = Some (o_id o)) by (intros; eapply lookup_weaken; [by eapply Htags|done]).
  set (m2 := with_status m MCancelled (Some now') (m_missed_participant_deadline m)).
  set (sm := log_match m2 (set_matches s1 (<[m_id m := m2]> (matches s1)))).
  assert (R1 : release m2 (o_id seller) (o_amount_sat seller) x Reopen sm =
    (Ok tt, set_offers sm (<[o_id seller := seller]> (offers sm)))).
  { eapply (release_reopens _ _ _ _ l1); try done; [|intros tag; by apply Hts]. simpl. rewrite Ho.
    rewrite lookup_insert_ne, lookup_insert_eq by done. by rewrite Hm. }
  set (sx := set_offers sm (<[o_id seller := seller]> (offers sm))) in *.
  assert (R2 : release m2 (o_id buyer) (o_amount_sat buyer) bt Reopen sx =
    (Ok tt, set_offers sx (<[o_id buyer := buyer]> (offers sx)))).
  { eapply (release_reopens _ _ _ _ l2); try done; [|intros tag; by apply Hts]. simpl. rewrite Ho.
    rewrite lookup_insert_ne, lookup_insert_eq by done. by rewrite Hm. }
  eexists. split_and!.
  - unfold cancel. fold m2. unfold mbind, M_bind, put_match, modify. fold sm.
    replace (m_initiator_offer m2) with (o_id seller) by (unfold m2; by rewrite Hm).
    replace (m_participant_offer m2) with (o_id buyer) by (unfold m2; by rewrite Hm).
    replace (m_pre_match_amounts m2) with (o_amount_sat seller, o_amount_sat buyer) by (unfold m2; by rewrite Hm).
    replace (xbt_sat (m_terms m2)) with x by (unfold m2; by rewrite Hm).
    replace (btc_sat (m_terms m2)) with bt by (unfold m2; by rewrite Hm).
    cbn [fst snd]. change (m_id m2) with (m_id m). fold sm. rewrite R1. exact R2.
  - apply map_eq. intros id. simpl. rewrite Ho.
    destruct (decide (id = o_id buyer)) as [->|Hi]; [by rewrite lookup_insert_eq|].
    rewrite lookup_insert_ne by done. destruct (decide (id = o_id seller)) as [->|Hj]; [by rewrite lookup_insert_eq|].
    by rewrite !lookup_insert_ne.
  - exists m2. split; [|done]. apply lookup_insert_eq.
Qed.

End fills.

(** ** The operations write through the store's steps *)
Section writing.
Context (fresh : nat → string + string).

#[export] Instance writes_release m id pre c how : Writes (release m id pre c how).
Proof.
  intros s. unfold exec_M, release. destruct (offer id s); [|apply rtc_refl].
  repeat case_decide; [apply writes_put_offer..|apply rtc_refl].
Qed.

#[export] Instance writes_cancel m now i p : Writes (cancel m now i p).
Proof. unfold cancel. apply _. Qed.

#[export] Instance writes_tick_match m now : Writes (tick_match m now).
Proof. unfold tick_match. destruct (m_status m); apply _. Qed.

#[export] Instance writes_pair a b price now max network fee_address :
  Writes (pair fresh a b price now max network fee_address).
Proof.
  unfold pair. destruct (o_direction a); apply writes_if; try apply _;
    (apply writes_if; [apply _|]); repeat (apply writes_bind; [apply _|intros ?]);
    (apply writes_if; [apply _|]); (apply writes_bind; [apply _|intros [? ?]]); apply _.
Qed.

#[export] Instance writes_try_candidates incoming cands now max network fee_address :
  Writes (try_candidates fresh incoming cands now max network fee_address).
Proof.
  induction cands as [|c cands IH]; simpl; [apply _|]. apply writes_bind; [apply _|].
  intros [m|]; apply _.
Qed.

#[export] Instance writes_match_locked incoming barred now max network fee_address :
  Writes (match_locked fresh incoming barred now max network fee_address).
Proof. unfold match_locked. apply _. Qed.

#[export] Instance writes_rematch now max network fee_address : Writes (rematch fresh now max network fee_address).
Proof.
  intros s. unfold exec_M, rematch.
  match goal with |- context [rematch_loop _ ?c ?l] => generalize c as cancelled; generalize l as open end.
  intros open cancelled. revert s. induction open as [|o open IH]; intros s; simpl; [apply rtc_refl|].
  unfold mbind, M_bind, logged. etrans; [|apply IH]. apply writes_match_locked.
Qed.
End writing.

Lemma tick_matches_steps now l s : rtc step s (foldl (λ s m, exec_M (tick_match m now) s) s l).
Proof.
  revert s. induction l as [|m l IH]; intros s; simpl; [apply rtc_refl|].
  etrans; [|apply IH]. apply writes_tick_match.
Qed.

Lemma tick_steps now s : rtc step s (tick now s).
Proof.
  unfold tick. set (s1 := foldl _ s (all_matches s)). trans s1.
  - apply tick_matches_steps.
  - generalize (all_offers s1) as l. intros l. clearbody s1. clear s. revert s1.
    induction l as [|o l IH]; intros s; simpl; [apply rtc_refl|]. etrans; [|apply IH].
    case_match; [apply writes_put_offer|apply rtc_refl].
Qed.

(** ** Deadlines *)

(** A match past the deadline of its stage. *)
Definition due (now : Z) (m : Match) : Prop :=
  match m_status m with
  | Proposed => accept_by (m_terms m) < now
  | Accepted => m_xbt_funding m = None ∧ initiator_fund_by (m_terms m) < now
  | InitiatorFunded => m_btc_funding m = None ∧ from_option (λ t, t <? now) false (m_participant_fund_by m) = true
  | _ => False
  end.
#[export] Instance due_dec now m : Decision (due now m).
Proof. unfold due. destruct (m_status m); apply _. Defined.

Lemma release_matches m id pre c how s : matches (exec_M (release m id pre c how) s) = matches s.
Proof.
  unfold exec_M, release. destruct (offer id s) as [o|]; [|done].
  assert (∀ x, matches (snd (put_offer x s)) = matches s) as Hp.
  { intros x. destruct (put_offer_cases x s) as [->|(s' & -> & _ & Hm & _)]; done. }
  repeat case_decide; [apply Hp..|done].
Qed.

Lemma exec_bind {A B} (m : M A) (f : A → M B) s :
  exec_M (m ≫= f) s = match m s with (Ok a, s1) => exec_M (f a) s1 | (_, s1) => s1 end.
Proof. unfold exec_M, mbind, M_bind. by destruct (m s) as [[]]. Qed.

Lemma cancel_matches m now i p s :
  matches (exec_M (cancel m now i p) s) =
  <[m_id m := with_status m MCancelled (Some now) (m_missed_participant_deadline m)]> (matches s).
Proof.
  unfold cancel. rewrite exec_bind. unfold put_match at 1, modify. rewrite exec_bind.
  set (m' := with_status m _ _ _). set (s1 := log_match m' (set_matches s _)).
  pose proof (release_matches m' (m_initiator_offer m') (fst (m_pre_match_amounts m')) (xbt_sat (m_terms m')) i s1) as H1.
  unfold exec_M in H1 |- *. destruct (release m' (m_initiator_offer m') _ _ i s1) as [[[]|e|] s2]; simpl in H1 |- *.
  - pose proof (release_matches m' (m_participant_offer m') (snd (m_pre_match_amounts m')) (btc_sat (m_terms m')) p s2) as H2.
    exact (eq_trans H2 H1).
  - exact H1.
  - exact H1.
Qed.

(** The match after its deadline passed. *)
Definition lapsed (now : Z) (m : Match) : Match :=
  with_status m MCancelled (Some now)
    (if decide (m_status m = InitiatorFunded) then true else m_missed_participant_deadline m).

Lemma tick_match_matches m now s :
  matches (exec_M (tick_match m now) s) =
  if decide (due now m) then <[m_id m := lapsed now m]> (matches s) else matches s.
Proof.
  destruct (decide (due now m)) as [Hd|Hd]; unfold due in Hd; unfold tick_match, lapsed;
    destruct (m_status m) eqn:Hs; try done.
  - rewrite (proj2 (Z.ltb_lt _ _) Hd). apply cancel_matches.
  - destruct Hd as [Hf Ht%Z.ltb_lt]. rewrite bool_decide_true, Ht by done. simpl.
    rewrite exec_bind. etrans; [apply cancel_matches|done].
  - destruct Hd as [Hf Ht]. rewrite bool_decide_true, Ht by done. simpl.
    rewrite exec_bind. etrans; [apply cancel_matches|done].
  - by rewrite (proj2 (Z.ltb_ge _ _)) by lia.
  - destruct (bool_decide _ && _) eqn:E; [|done]. apply andb_true_iff in E as [? ?]. zbool. tauto.
  - destruct (bool_decide _ && _) eqn:E; [|done]. apply andb_true_iff in E as [? ?]. zbool. tauto.
Qed.

Lemma tick_matches_lookup now l s id :
  NoDup (map m_id l) →
  matches (foldl (λ s m, exec_M (tick_match m now) s) s l) !! id =
  match list_find (λ m, m_id m = id ∧ due now m) l with
  | Some (_, m) => Some (lapsed now m)
  | None => matches s !! id
  end.
Proof.
  revert s. induction l as [|m l IH]; intros s Hnd; [done|]. simpl in Hnd |- *.
  apply NoDup_cons in Hnd as [Hnin Hnd]. rewrite IH by done. rewrite tick_match_matches.
  destruct (decide (m_id m = id ∧ due now m)) as [[Hid Hdue]|Hno].
  - rewrite decide_True by done. assert (list_find (λ m, m_id m = id ∧ due now m) l = None) as ->.
    { apply list_find_None, Forall_forall. intros m' Hm' [Hid' _]. apply Hnin. rewrite Hid, <-Hid'.
      by apply list_elem_of_fmap_2. }
    subst id. simpl. by rewrite lookup_insert_eq.
  - destruct (list_find _ l) as [[i m']|]; simpl; [done|]. case_decide as Hd; [|done].
    rewrite lookup_insert_ne; [done|]. intros Heq. by apply Hno.
Qed.

Lemma all_matches_NoDup s : keyed s → NoDup (map m_id (all_matches s)).
Proof.
  intros [_ Hk]. unfold all_matches. rewrite map_map.
  assert (Hfst : map (λ x, m_id (snd x)) (scan_all (matches s)) = map fst (scan_all (matches s))).
  { apply map_ext_in. intros [id m] Hin%list_elem_of_In%scan_all_elem. by apply Hk. }
  rewrite Hfst. unfold scan_all. rewrite sort_by_Permutation. apply NoDup_fst_map_to_list.
Qed.

(** An offer whose time is up. *)
Definition stale (now : Z) (o : Offer) : Prop := o_status o = Open ∧ o_expires_at o ≤ now.

Lemma expire_offers now l s :
  (∀ o tag, o ∈ l → o_recovery_tag o = Some tag → tags s !! tag = Some (o_id o)) →
  (∀ id o, offers s !! id = Some o → o_id o = id) →
  (∀ id o, offers s !! id = Some o → stale now o → o ∈ l) →
  let s' := foldl (λ s o,
    if bool_decide (o_status o = Open) && (o_expires_at o <=? now)
    then exec_M (put_offer (refill o (o_amount_sat o) Expired (o_match_id o))) s else s) s l in
  matches s' = matches s ∧ (∀ id o, offers s' !! id = Some o → ¬ stale now o).
Proof.
  simpl. revert s. induction l as [|o l IH]; intros s Ht Hk Hin; simpl.
  { split; [done|]. intros id o Ho Hs. by apply (Hin id o Ho) in Hs as ?%elem_of_nil. }
  destruct (bool_decide (o_status o = Open) && (o_expires_at o <=? now)) eqn:E.
  - assert (Hp : put_offer (refill o (o_amount_sat o) Expired (o_match_id o)) s =
      (Ok tt, set_offers s (<[o_id o := refill o (o_amount_sat o) Expired (o_match_id o)]> (offers s)))).
    { apply (put_offer_back s o); try done. intros tag. apply Ht. left. }
    unfold exec_M. rewrite Hp. simpl.
    destruct (IH (set_offers s (<[o_id o := refill o (o_amount_sat o) Expired (o_match_id o)]> (offers s))))
      as [Hm Ho]; [| | |by split].
    + intros x tag Hx. apply Ht. by right.
    + intros id x. simpl. intros [[<- <-]|[_ ?]]%lookup_insert_Some; [done|eauto].
    + intros id x. simpl. intros [[<- <-]|[Hne Hx]]%lookup_insert_Some Hs; [by destruct Hs|].
      pose proof (Hin id x Hx Hs) as [->|?]%elem_of_cons; [|done]. by rewrite (Hk _ _ Hx) in Hne.
  - apply IH; [intros x tag Hx; apply Ht; by right|done|].
    intros id x Hx Hs. pose proof (Hin id x Hx Hs) as [->|?]%elem_of_cons; [|done].
    destruct Hs as [Ho He%Z.leb_le]. by rewrite bool_decide_true, He in E by done.
Qed.

(** The watchtower's tick enforces every deadline and nothing else: after
    it no match is past the deadline of its stage and no offer on the book has
    expired; a match that was late is now cancelled at this time, every other
    match is untouched. *)
Theorem tick_enforces_deadlines now s :
  keyed s → tags_ok s →
  let s' := tick now s in
  (∀ id m, matches s !! id = Some m →
     matches s' !! id = Some (if decide (due now m) then lapsed now m else m)) ∧
  (∀ id m, matches s' !! id = Some m → ¬ due now m) ∧
  (∀ id o, offers s' !! id = Some o → ¬ stale now o).
Proof.
  intros Hk Ht. cbv zeta. unfold tick.
  set (s1 := foldl _ s (all_matches s)).
  assert (Hs1 : rtc step s s1) by apply tick_matches_steps.
  destruct (steps_keyed_tags s s1 Hs1 Hk Ht) as (Hk1 & Ht1 & _). pose proof Hk1 as [Hko Hkm].
  destruct (expire_offers now (all_offers s1) s1) as [Hm Ho].
  { intros o tag [id Hid]%all_offers_elem Htag. rewrite (Hko _ _ Hid). by eapply Ht1. }
  { done. }
  { intros id o Hid _. apply all_offers_elem. eauto. }
  rewrite Hm.
  assert (Hlook : ∀ id, matches s1 !! id =
    (λ m, if decide (due now m) then lapsed now m else m) <$> matches s !! id).
  { intros id. unfold s1. rewrite tick_matches_lookup by by apply all_matches_NoDup.
    destruct (list_find _ _) as [[i m]|] eqn:Hf.
    - apply list_find_Some in Hf as (Hi & [Hid Hd] & _). apply list_elem_of_lookup_2 in Hi.
      apply all_matches_elem in Hi as [id' Hi]. rewrite (proj2 Hk _ _ Hi) in Hid. subst id'.
      rewrite Hi. simpl. by rewrite decide_True.
    - destruct (matches s !! id) as [m|] eqn:Hid; simpl; [|done]. rewrite decide_False; [done|].
      apply list_find_None in Hf. rewrite Forall_forall in Hf. intros Hd. apply (Hf m); [|by split; [apply (proj2 Hk)|]].
      apply all_matches_elem. eauto. }
  split_and!; [intros id m Hid; by rewrite Hlook, Hid| |done].
  intros id m. rewrite Hlook. intros (m0 & _ & ->)%fmap_Some. case_decide; [exact (λ H, H)|done].
Qed.

(** ** Witnesses *)
Definition example_offer (id token : string) (d : Direction) (amount price created : Z) (tag : string) : Offer := {|
  o_id := id; o_token := token; o_secret_hash := []; o_direction := d; o_amount_sat := amount;
  o_price := price; o_created_at := created; o_expires_at := 1_800_000_900; o_private := false;
  o_share_code := None; o_status := Open; o_match_id := None; o_client_id := None;
  o_recovery_tag := Some tag |}.

Definition seller : Offer := example_offer "s1" "ann" XbtToBtc 10_000_000 1_000_000 1_800_000_000 "t1".
Definition buyer : Offer := example_offer "b1" "bob" BtcToXbt 60_000 1_050_000 1_800_000_010 "t2".
Definition cheap_buyer : Offer := example_offer "b2" "cat" BtcToXbt 60_000 1_020_000 1_799_999_000 "t3".

Definition example_book : Store :=
  exec_M (put_offer cheap_buyer) (exec_M (put_offer buyer) (exec_M (put_offer seller) empty_store)).

Definition example_fresh (n : nat) : string + string := inr ("m" +:+ pretty n).

Lemma example_book_reachable : rtc step empty_store example_book.
Proof. do 3 (eapply rtc_r; [|apply step_put_offer]). apply rtc_refl. Qed.

Lemma example_book_keyed : keyed example_book ∧ tags_ok example_book.
Proof.
  destruct empty_keyed as [Hk Ht].
  destruct (steps_keyed_tags _ _ example_book_reachable Hk Ht) as (? & ? & _). done.
Qed.

Lemma example_book_wf : book_wf example_book.
Proof.
  refine (bool_decide_unpack (map_Forall (λ id o, o_id o = id ∧ u64 (o_amount_sat o) ∧
    0 < o_price o ≤ MAX_PRICE_SAT_PER_XBT) (offers example_book)) _). vm_compute. exact I.
Qed.

Lemma example_offer_wf : offer_wf seller ∧ offer_wf buyer.
Proof. split; (split; [split|]); vm_compute; try done; split; done. Qed.

(** The seller meets the higher bid, though the other one is older. *)
Lemma example_match :
  ∃ m s', match_locked example_fresh seller [] 1_800_000_100 1_000_000 "regtest" "fee" example_book
    = (Ok (Some m), s').
Proof.
  destruct (match_locked example_fresh seller [] 1_800_000_100 1_000_000 "regtest" "fee" example_book)
    as [r s'] eqn:E.
  assert (Hr : ok_with (λ r : option Match, if r then true else false) r = true).
  { replace r with (fst (match_locked example_fresh seller [] 1_800_000_100 1_000_000 "regtest" "fee" example_book))
      by (rewrite E; reflexivity). vm_compute. reflexivity. }
  apply ok_with_elim in Hr as ([m|] & -> & Hm); [|discriminate Hm]. exists m, s'. reflexivity.
Qed.

Lemma matched_terms_accepted_witness :
  ∃ m s' p, match_locked example_fresh seller [] 1_800_000_100 1_000_000 "regtest" "fee" example_book
    = (Ok (Some m), s') ∧ validate_terms (m_terms m) p Initiator 1_800_000_120 = Ok tt.
Proof.
  destruct example_match as (m & s' & E).
  destruct (matched_terms_accepted example_fresh (Incoming seller []) 1_800_000_100 1_000_000 "regtest" "fee" example_book
    m s' 1_800_000_120 example_book_wf (proj1 example_offer_wf) I ltac:(vm_compute; discriminate) E ltac:(lia))
    as (maker & o1 & o2 & _ & _ & _ & _ & _ & _ & _ & _ & _ & _ & Hv & _).
  exists m, s', (o_price o1). exact (conj E Hv).
Defined.

Lemma best_candidate_first_witness :
  ∃ m s' c, match_locked example_fresh seller [] 1_800_000_100 1_000_000 "regtest" "fee" example_book
    = (Ok (Some m), s') ∧ candidate (default seller (offer "s1" example_book)) [] 1_800_000_100 example_book c.
Proof.
  destruct example_match as (m & s' & E).
  destruct (best_candidate_first example_fresh seller [] 1_800_000_100 1_000_000 "regtest" "fee" example_book
    m s' example_book_wf (proj1 example_offer_wf) E) as (inc & c & Hinc & Hc & _).
  exists m, s', c. rewrite Hinc in Hc. exact (conj E Hc).
Defined.

Lemma example_pair :
  ∃ m s', pair example_fresh seller buyer 1_000_000 1_800_000_100 1_000_000 "regtest" "fee" example_book
    = (Ok (Some m), s').
Proof.
  destruct (pair example_fresh seller buyer 1_000_000 1_800_000_100 1_000_000 "regtest" "fee" example_book)
    as [r s'] eqn:E.
  assert (Hr : ok_with (λ r : option Match, if r then true else false) r = true).
  { replace r with (fst (pair example_fresh seller buyer 1_000_000 1_800_000_100 1_000_000 "regtest" "fee"
      example_book)) by (rewrite E; reflexivity). vm_compute. reflexivity. }
  apply ok_with_elim in Hr as ([m|] & -> & Hm); [|discriminate Hm]. exists m, s'. reflexivity.
Qed.

Lemma match_fills_witness :
  ∃ m, 0 ≤ xbt_sat (m_terms m) ≤ 10_000_000 ∧ 2_000 ≤ btc_sat (m_terms m) ≤ 60_000.
Proof.
  destruct example_pair as (m & s' & E). exists m.
  destruct (match_fills example_fresh seller buyer 1_000_000 1_800_000_100 1_000_000 "regtest" "fee"
    example_book m s' (proj1 example_offer_wf) (proj2 example_offer_wf) ltac:(lia) ltac:(lia)
    ltac:(discriminate) ltac:(discriminate) E) as (Hx & Hb & _).
  exact (conj Hx Hb).
Defined.

Lemma cancel_restores_witness :
  ∃ m s1 s2, cancel m 1_800_000_300 Reopen Reopen s1 = (Ok tt, s2) ∧ offers s2 = offers example_book.
Proof.
  destruct example_pair as (m & s1 & E).
  destruct (cancel_restores example_fresh seller buyer 1_000_000 1_800_000_100 1_000_000 "regtest" "fee"
    example_book m s1 1_800_000_300 example_book_wf (proj2 example_book_keyed)
    ltac:(vm_compute; auto) ltac:(vm_compute; auto) ltac:(lia) ltac:(lia) ltac:(discriminate)
    ltac:(discriminate) E) as (s2 & Hc & Ho & _).
  exists m, s1, s2. exact (conj Hc Ho).
Defined.

(** The book after that match, which nobody then accepts. *)
Definition example_matched : Store :=
  exec_M (match_locked example_fresh seller [] 1_800_000_100 1_000_000 "regtest" "fee") example_book.

Lemma example_matched_keyed : keyed example_matched ∧ tags_ok example_matched.
Proof.
  assert (Hs : rtc step example_book example_matched) by apply writes_match_locked.
  destruct (steps_keyed_tags _ _ Hs (proj1 example_book_keyed) (proj2 example_book_keyed)) as (? & ? & _). done.
Qed.

Lemma example_due : ∃ m, matches example_matched !! "m0" = Some m ∧ due 1_800_001_000 m.
Proof.
  assert (Hd : from_option (λ m, bool_decide (due 1_800_001_000 m)) false (matches example_matched !! "m0") = true)
    by (vm_compute; reflexivity).
  destruct (matches example_matched !! "m0") as [m|]; [|discriminate Hd].
  exists m. split; [reflexivity|]. exact (proj1 (bool_decide_eq_true _) Hd).
Qed.

Lemma tick_enforces_deadlines_witness :
  ∃ m, matches example_matched !! "m0" = Some m ∧ due 1_800_001_000 m ∧
       matches (tick 1_800_001_000 example_matched) !! "m0" = Some (lapsed 1_800_001_000 m).
Proof.
  destruct example_due as (m & Hm & Hd). exists m. refine (conj Hm (conj Hd _)).
  pose proof (proj1 (tick_enforces_deadlines 1_800_001_000 example_matched (proj1 example_matched_keyed)
    (proj2 example_matched_keyed)) "m0" m Hm) as H.
  rewrite decide_True in H by exact Hd. exact H.
Defined.

Lemma tag_used_once_witness :
  offers (tick 1_800_001_000 example_book) !! "s1" = Some (refill seller (o_amount_sat seller) Expired None) ∧
  "s1" = "s1".
Proof.
  assert (E : offers (tick 1_800_001_000 example_book) !! "s1" =
              Some (refill seller (o_amount_sat seller) Expired None)) by (vm_compute; reflexivity).
  refine (conj E _).
  exact (tag_used_once example_book (tick 1_800_001_000 example_book) "s1" "s1" seller
    (refill seller (o_amount_sat seller) Expired None) "t1" example_book_reachable
    (tick_steps 1_800_001_000 example_book) ltac:(vm_compute; reflexivity) E eq_refl eq_refl).
Defined.

Lemma purge_safe_witness : tags (purge 1_900_000_000 example_book) = tags example_book.
Proof.
  exact (proj1 (proj2 (proj2 (purge_safe 1_900_000_000 example_book (proj1 example_book_keyed))))).
Defined.
