(* ===== verification/Edge.v ===== *)
(** The edge's swap service around the store ([fortis-edge/src/swap/mod.rs],
    [relay.rs], the traits of [watchtower.rs]): the world its threads share,
    what they ask of their environment, requests and their authorisation, and
    the two legs of a match on chain.

    A handler is a program of [Threads]: what it does under the matching lock
    is one step ([section]), and so is each read of the store outside it, each
    question to the environment (clock, randomness, chain) and each relayed
    message.  An answer of the environment is a function of how many questions
    came before, so nothing relates two answers.  An early return of a reply is
    [Err]. *)

From Stdlib Require Import Ascii.
From S2P Require Import Prelude Json Threads Chain SwapTerms Bitcoin Script Toy Sighash Htlc Swap Store Matcher.

(** ** The environment *)

(** One unspent output, as the index reports it. *)
Record TxOutInfo : Type := { value_sat : Z; scriptpubkey_hex : string; confs : Z }.

(** The trait [ChainReader]; the first argument is when it is asked. *)
Class ChainReader : Type := {
  txout : nat → Chain → string → Z → string + option TxOutInfo;
  created_output : nat → Chain → string → Z → string + option TxOutInfo;
  spending_tx_hex : nat → Chain → string → Z → string + option string;
  spend_confirmed : nat → Chain → string → Z → string + bool;
  tx_block_time : nat → Chain → string → string + option Z;
  feerate : nat → Chain → string + Z;
  broadcast : nat → Chain → string → string + string;
  reader_now : nat → Z;
}.

(** The system clock and the system's randomness; [fresh_id] are the ids
    [new_id] draws. *)
Class System : Type := {
  unix_now : nat → Z;
  random32 : nat → string + bytes;
  random8 : nat → string + bytes;
  fresh_id : nat → string + string;
}.

(** Text forms of the [bitcoin] crate: transaction ids and public keys. *)
Class TextLib : Type := {
  txid_from_str : string → option bytes;
  txid_display : bytes → string;
  pubkey_from_str : string → option (bool * bytes);
  pubkey_display : bool * bytes → string;
}.

(** ** The world *)
Record World : Type := {
  store : Store;
  asked : nat;                               (* questions answered so far *)
  sent : list (Chain * string);              (* transactions broadcast *)
  inflight : list (string * SwapRole);       (* long polls waiting *)
  quota : gmap string (Z * Z);               (* log lines of this minute, per offer *)
}.

Definition empty_world : World := {|
  store := empty_store; asked := 0; sent := []; inflight := []; quota := ∅ |}.

Definition with_store (w : World) (s : Store) : World := {|
  store := s; asked := asked w; sent := sent w; inflight := inflight w; quota := quota w |}.
Definition with_asked (w : World) (n : nat) : World := {|
  store := store w; asked := n; sent := sent w; inflight := inflight w; quota := quota w |}.
Definition with_sent (w : World) (l : list (Chain * string)) : World := {|
  store := store w; asked := asked w; sent := l; inflight := inflight w; quota := quota w |}.
Definition with_inflight (w : World) (l : list (string * SwapRole)) : World := {|
  store := store w; asked := asked w; sent := sent w; inflight := l; quota := quota w |}.
Definition with_quota (w : World) (q : gmap string (Z * Z)) : World := {|
  store := store w; asked := asked w; sent := sent w; inflight := inflight w; quota := q |}.

(** ** Sections and programs

    [Sec]: what happens in one step. [IO]: a program that can fail. *)
Definition Sec (E A : Type) : Type := World → result E A * World.
#[export] Instance Sec_ret {E} : MRet (Sec E) := λ A a w, (Ok a, w).
#[export] Instance Sec_bind {E} : MBind (Sec E) := λ A B f m w,
  match m w with
  | (Ok a, w') => f a w'
  | (Err e, w') => (Err e, w')
  | (Panic, w') => (Panic, w')
  end.

Definition IO (E A : Type) : Type := Prog World (result E A).
#[export] Instance IO_ret {E} : MRet (IO E) := λ A a, Done (Ok a).
#[export] Instance IO_bind {E} : MBind (IO E) := λ A B f m,
  prog_bind m (λ r, match r with Ok a => f a | Err e => Done (Err e) | Panic => Done Panic end).

Definition section {E A} (m : Sec E A) : IO E A := atomically m.

(** [return e] and [?] on what is already known. *)
Definition fail {E A} (e : E) : IO E A := Done (Err e).
Definition io_lift {E A} (r : result E A) : IO E A := Done r.
Definition sec_fail {E A} (e : E) : Sec E A := λ w, (Err e, w).
Definition sec_lift {E A} (r : result E A) : Sec E A := λ w, (r, w).

(** Reading the store, or changing it with an operation of [Store] or
    [Matcher] whose failure becomes [h e]. *)
Definition sec_read {E A} (f : Store → A) : Sec E A := λ w, (Ok (f (store w)), w).
Definition sec_store {E A} (h : string → E) (m : M A) : Sec E A := λ w,
  let '(r, s) := m (store w) in
  (match r with Ok a => Ok a | Err e => Err (h e) | Panic => Panic end, with_store w s).
Definition io_read {E A} (f : Store → A) : IO E A := section (sec_read f).
Definition io_store {E A} (h : string → E) (m : M A) : IO E A := section (sec_store h m).

(** Asking the environment. *)
Definition sec_ask {E A} (f : nat → A) : Sec E A := λ w, (Ok (f (asked w)), with_asked w (S (asked w))).
Definition ask {E A} (f : nat → A) : IO E A := section (sec_ask f).

(** A question that can fail. *)
Definition from_sum {E A} (h : string → E) (x : string + A) : result E A :=
  match x with inr a => Ok a | inl e => Err (h e) end.
Definition try_ask {E A} (h : string → E) (f : nat → string + A) : IO E A :=
  r ← ask f; io_lift (from_sum h r).

(** The result of a program, for a caller that goes on whatever it is. *)
Definition caught {E E' A} (m : IO E A) : IO E' (result E A) :=
  prog_bind m (λ r, match r with Panic => Done Panic | r => Done (Ok r) end).

(** Running alone, one step after the other. *)
Lemma run_lift {E A B} (r : result E A) (f : A → IO E B) w :
  run_prog (io_lift r ≫= f) w =
  match r with Ok a => run_prog (f a) w | Err e => (Err e, w) | Panic => (Panic, w) end.
Proof. by destruct r. Qed.
Lemma run_read {E A B} (g : Store → A) (f : A → IO E B) w :
  run_prog (io_read g ≫= f) w = run_prog (f (g (store w))) w.
Proof. done. Qed.
Lemma run_IO_bind {E A B} (p : IO E A) (f : A → IO E B) w :
  run_prog (p ≫= f) w =
  match run_prog p w with (Ok a, w') => run_prog (f a) w' | (Err e, w') => (Err e, w') | (Panic, w') => (Panic, w') end.
Proof. unfold mbind, IO_bind. rewrite run_bind. by destruct (run_prog p w) as [[] ]. Qed.
Lemma run_section {E A B} (m : Sec E A) (f : A → IO E B) w :
  run_prog (section m ≫= f) w =
  match m w with (Ok a, w') => run_prog (f a) w' | (Err e, w') => (Err e, w') | (Panic, w') => (Panic, w') end.
Proof. rewrite run_IO_bind. unfold section. by rewrite run_atomically. Qed.
Lemma run_store {E A B} h (m : M A) (f : A → IO E B) w :
  run_prog (io_store h m ≫= f) w =
  match m (store w) with
  | (Ok a, s) => run_prog (f a) (with_store w s)
  | (Err e, s) => (Err (h e), with_store w s)
  | (Panic, s) => (Panic, with_store w s)
  end.
Proof. unfold io_store. rewrite run_section. unfold sec_store. by destruct (m (store w)) as [[] ]. Qed.

(** ** Configuration and requests *)
Record Swap : Type := {
  sw_fee_bps : Z;
  sw_max_btc_sat : option Z;
  sw_network : string;
  sw_fee_address : string;
  sw_polls_cap : nat;
  sw_chain : bool;                           (* runs with a chain reader *)
  sw_owner_key : bytes;
}.

Definition cap (sw : Swap) : Z := default u64_max (sw_max_btc_sat sw).

(** A request: its headers, its query string, its body, and whether reading
    the body to the end succeeds. *)
Record Request : Type := {
  headers : list (string * string);
  url : string;
  req_body : bytes;
  read_ok : bool;
}.

Definition role_str (r : SwapRole) : string :=
  match r with Initiator => "initiator" | Participant => "participant" end.

Definition send_chain_of (r : SwapRole) : Chain :=
  match r with Initiator => Xbt | Participant => Btc end.

Definition internal {A} (_ : A) : Reply := err 500 "internal error".

Definition parse_chain (s : string) : option Chain :=
  snd <$> list_find (λ c, as_str c = s) [Btc; Xbt].

Definition MAX_BODY : Z := 256 * 1024.

Definition is_ascii_whitespace (b : byte) : bool :=
  existsb (Byte.eqb b) [x20; x09; x0a; x0c; x0d].

(** Decoding the body is serde's: [from_slice]. *)
Definition read_json {T} (from_slice : bytes → string + T) (req : Request) : result Reply T :=
  let body := take (Z.to_nat MAX_BODY) (req_body req) in
  let body := if forallb is_ascii_whitespace body then String.list_byte_of_string "{}" else body in
  from_sum (λ e, err 400 ("bad request body: " +:+ e)) (from_slice body).

Definition read_small_json {T} (from_slice : bytes → string + T) (req : Request) (limit : Z) : result Reply T :=
  let body := take (Z.to_nat (limit + 1)) (req_body req) in
  if negb (read_ok req) then Err (err 400 "couldn't read the request body")
  else if limit <? Z.of_nat (length body) then
    Err (err 413 ("the body is over " +:+ pretty limit +:+ " bytes"))
  else from_sum (λ e, err 400 ("bad request body: " +:+ e)) (from_slice body).

Definition query_param (req : Request) (key : string) : option string :=
  '(_, q) ← split_once "?"%char (url req);
  (λ x, snd (snd x)) <$> list_find (λ x, fst x = key) (omap (split_once "="%char) (split "&"%char q)).

(** ** Owner secrets *)
Section auth.
Context `{BitcoinLib, KeyLib}.

Definition hex32 (s : string) : option bytes := hex_decode s ≫= preimage_try_from.

Definition new_secret `{System} : IO string (string * bytes) :=
  b ← try_ask (λ e, "CSPRNG: " +:+ e) random32;
  mret (hex_encode b, sha256 b).

Definition client_secret (sw : Swap) (token client_id : string) : string * bytes :=
  let b := hmac_sha256 (sw_owner_key sw)
    (String.list_byte_of_string "swap-owner|" ++ String.list_byte_of_string token ++
     String.list_byte_of_string "|" ++ String.list_byte_of_string client_id) in
  (hex_encode b, sha256 b).

(** No difference in any byte. *)
Definition ct_eq (a b : bytes) : bool :=
  foldl (λ acc x, Z.lor acc (Z.lxor (Z_of_byte (fst x)) (Z_of_byte (snd x)))) 0 (zip a b) =? 0.

(** [HeaderField::equiv] ignores case. *)
Definition presented_hash (req : Request) : option bytes :=
  '(_, h) ← list_find (λ h, eq_ignore_ascii_case (fst h) "X-Swap-Secret" = true) (headers req);
  secret ← hex32 (trim (snd h));
  Some (sha256 secret).

Definition owns_offer (req : Request) (o : Offer) : bool :=
  from_option (λ h, ct_eq h (o_secret_hash o)) false (presented_hash req).

Definition role_in (req : Request) (m : Match) : option SwapRole :=
  h ← presented_hash req;
  if ct_eq h (m_initiator_secret_hash m) then Some Initiator
  else if ct_eq h (m_participant_secret_hash m) then Some Participant
  else None.

(** The match and the caller's role in it, or the error reply. *)
Definition authed (req : Request) (m : option Match) : result Reply (Match * SwapRole) :=
  m ← ok_or m (err 404 "no such match");
  role ← ok_or (role_in req m) (err 403 "wrong or missing X-Swap-Secret");
  mret (m, role).

Definition authed_match (req : Request) (id : string) : IO Reply (Match * SwapRole) :=
  m ← io_read (get_match id);
  io_lift (authed req m).

End auth.

(** ** The relay ([relay.rs]): appends, then wakes the waiters. *)
Definition relay_push {E} (h : string → E) (match_id from_role : string) (body : Value) : IO E Z :=
  io_store h (push_msg match_id from_role body).

(** Waiting re-reads the messages at each wake-up; [wakes] is how often the
    waiter wakes up before its deadline. *)
Fixpoint relay_wait {E} (match_id : string) (after : Z) (wakes : nat) : IO E (list (Z * string * Value)) :=
  msgs ← io_read (msgs_after match_id after);
  match wakes with
  | O => mret msgs
  | S wakes => if bool_decide (msgs = []) then relay_wait match_id after wakes else mret msgs
  end.

(** ** Changing one match *)
Definition update_match (m : Match) (accepted : bool * bool) (st : MatchStatus)
    (xbt btc : option (string * Z)) (fund_by : option Z) (closed : option Z)
    (keys : option (string * string) * option (string * string)) (hl : option string) (missed : bool)
    (rtxs rsigs : option (list string)) : Match := {|
  m_id := m_id m; m_terms := m_terms m;
  m_initiator_offer := m_initiator_offer m; m_participant_offer := m_participant_offer m;
  m_initiator_token := m_initiator_token m; m_participant_token := m_participant_token m;
  m_initiator_secret_hash := m_initiator_secret_hash m;
  m_participant_secret_hash := m_participant_secret_hash m;
  m_accepted := accepted; m_status := st; m_xbt_funding := xbt; m_btc_funding := btc;
  m_participant_fund_by := fund_by; m_pre_match_amounts := m_pre_match_amounts m;
  m_closed_at := closed; m_keys := keys; m_hashlock := hl;
  m_missed_participant_deadline := missed; m_release_txs := rtxs; m_release_sigs := rsigs |}.

Definition m_set_accepted (m : Match) (a : bool * bool) (st : MatchStatus) : Match :=
  update_match m a st (m_xbt_funding m) (m_btc_funding m) (m_participant_fund_by m) (m_closed_at m)
    (m_keys m) (m_hashlock m) (m_missed_participant_deadline m) (m_release_txs m) (m_release_sigs m).
Definition m_set_keys (m : Match) (k : option (string * string) * option (string * string)) : Match :=
  update_match m (m_accepted m) (m_status m) (m_xbt_funding m) (m_btc_funding m) (m_participant_fund_by m)
    (m_closed_at m) k (m_hashlock m) (m_missed_participant_deadline m) (m_release_txs m) (m_release_sigs m).
Definition m_set_hashlock (m : Match) (h : string) : Match :=
  update_match m (m_accepted m) (m_status m) (m_xbt_funding m) (m_btc_funding m) (m_participant_fund_by m)
    (m_closed_at m) (m_keys m) (Some h) (m_missed_participant_deadline m) (m_release_txs m) (m_release_sigs m).
Definition m_set_funding (m : Match) (c : Chain) (f : string * Z) (st : MatchStatus) : Match :=
  update_match m (m_accepted m) st
    (match c with Xbt => Some f | Btc => m_xbt_funding m end)
    (match c with Xbt => m_btc_funding m | Btc => Some f end)
    (m_participant_fund_by m) (m_closed_at m) (m_keys m) (m_hashlock m)
    (m_missed_participant_deadline m) (m_release_txs m) (m_release_sigs m).
Definition m_set_release_txs (m : Match) (l : list string) : Match :=
  update_match m (m_accepted m) (m_status m) (m_xbt_funding m) (m_btc_funding m) (m_participant_fund_by m)
    (m_closed_at m) (m_keys m) (m_hashlock m) (m_missed_participant_deadline m) (Some l) (m_release_sigs m).
Definition m_set_release_sigs (m : Match) (l : list string) : Match :=
  update_match m (m_accepted m) (m_status m) (m_xbt_funding m) (m_btc_funding m) (m_participant_fund_by m)
    (m_closed_at m) (m_keys m) (m_hashlock m) (m_missed_participant_deadline m) (m_release_txs m) (Some l).
Definition m_set_fund_by (m : Match) (t : Z) : Match :=
  update_match m (m_accepted m) (m_status m) (m_xbt_funding m) (m_btc_funding m) (Some t)
    (m_closed_at m) (m_keys m) (m_hashlock m) (m_missed_participant_deadline m) (m_release_txs m) (m_release_sigs m).

(** ** The legs on chain *)
Section legs.
Context `{BitcoinLib, TextLib}.

Definition funding_of (m : Match) (c : Chain) : option (string * Z) :=
  match c with Xbt => m_xbt_funding m | Btc => m_btc_funding m end.

Definition leg_amount (m : Match) (c : Chain) : Z :=
  match c with Xbt => xbt_sat (m_terms m) | Btc => btc_sat (m_terms m) end.

(** [PublicKey::from_str(hex).ok().map(|k| k.inner)] *)
Definition key_inner (hex : string) : option bytes := snd <$> pubkey_from_str hex.

Definition leg_witness_script (m : Match) (c : Chain) : option bytes :=
  '(i_xbt, i_btc) ← fst (m_keys m);
  '(p_xbt, p_btc) ← snd (m_keys m);
  hashlock ← m_hashlock m ≫= hex32;
  '(btc_params, xbt_params) ← to_option (network_params (t_network (m_terms m)));
  contract ← match c with
    | Xbt =>
        redeem ← key_inner p_xbt; refund ← key_inner i_xbt;
        to_option (try_build xbt_params (contract_version (m_terms m)) hashlock redeem refund
          (xbt_locktime (m_terms m)) (xbt_sat (m_terms m)))
    | Btc =>
        redeem ← key_inner i_btc; refund ← key_inner p_btc;
        to_option (try_build btc_params (contract_version (m_terms m)) hashlock redeem refund
          (btc_locktime (m_terms m)) (btc_sat (m_terms m)))
    end;
  Some (witness_script contract).

(** [ScriptBuf::new_p2wsh(&ws.wscript_hash())], as hex. *)
Definition leg_spk_hex (ws : bytes) : string := hex_encode (new_p2wsh ws).

Inductive Unpaid : Type := NoScript | NoReader | NotSeen | Mismatch | ReadFailed (e : string).

(** An output pays exactly the leg's script and amount. *)
Definition pays_leg (m : Match) (c : Chain) (ws : bytes) (out : TxOutInfo) : bool :=
  eq_ignore_ascii_case (scriptpubkey_hex out) (leg_spk_hex ws) && (value_sat out =? leg_amount m c).

Definition leg_paid_on_chain `{ChainReader} (sw : Swap) (m : Match) (c : Chain) (htlc : OutPoint) : IO Unpaid unit :=
  ws ← io_lift (ok_or (leg_witness_script m c) NoScript);
  _ ← io_lift (bail_if (negb (sw_chain sw)) NoReader);
  out ← try_ask ReadFailed (λ n, created_output n c (txid_display (txid htlc)) (vout htlc));
  out ← io_lift (ok_or out NotSeen);
  io_lift (bail_if (negb (pays_leg m c ws out)) Mismatch).

Definition NOT_RECORDED : string := "htlc_outpoint is not this match's recorded funding on that chain".

Definition record_leg_funding `{ChainReader} (sw : Swap) (m : Match) (c : Chain) (htlc : OutPoint)
    (by_owner : bool) : IO Reply unit :=
  let want := (txid_display (txid htlc), vout htlc) in
  match funding_of m c with
  | Some f => if decide (f = want) then mret tt else fail (err 409 NOT_RECORDED)
  | None =>
      if negb by_owner then fail (err 409 NOT_RECORDED)
      else
        paid ← caught (leg_paid_on_chain sw m c htlc);
        match paid with
        | Err NoScript => fail (err 409 "htlc_outpoint is not recorded, and both keys and the hashlock are needed to check it")
        | Err (ReadFailed _) => fail (unavailable "the chain")
        | Err _ => fail (err 409 "htlc_outpoint is not this match's HTLC on that chain")
        | Panic => io_lift Panic
        | Ok _ =>
            section (
              cur ← sec_read (get_match (m_id m));
              cur ← sec_lift (ok_or cur (err 404 "no such match"));
              match funding_of cur c with
              | Some f =>
                  if decide (f = want) then mret tt
                  else sec_fail (err 409 "a different funding was recorded meanwhile")
              | None => sec_store internal (put_match (m_set_funding cur c want (m_status cur)))
              end)
        end
  end.

Inductive Reinstate : Type := RDone | NotMined | MinedLate | NotEligible.

(** A match cancelled for its participant's deadline, and not released. *)
Definition eligible (m : Match) : bool :=
  m_missed_participant_deadline m && bool_decide (m_status m = MCancelled) &&
  bool_decide (m_release_sigs m = None).

Definition reinstate_if_funded_in_time `{ChainReader} (sw : Swap) (id : string) : IO string Reinstate :=
  m ← io_read (get_match id);
  match m with
  | Some m =>
      if negb (eligible m) then mret NotEligible
      else
        match m_btc_funding m, m_participant_fund_by m with
        | Some (fund, _), Some fund_by =>
            if negb (sw_chain sw) then mret NotEligible
            else
              mined ← try_ask (λ e, e) (λ n, tx_block_time n Btc fund);
              match mined with
              | None => mret NotMined
              | Some mined =>
                  if fund_by <? mined then mret MinedLate
                  else section (
                    cur ← sec_read (get_match id);
                    match cur with
                    | Some cur =>
                        if negb (eligible cur) then mret NotEligible
                        else if negb (bool_decide (fst <$> m_btc_funding cur = Some fund)) then mret NotEligible
                        else
                          _ ← match m_closed_at cur with
                              | Some at_ => sec_store (λ e, e) (remove_strike (m_participant_token cur) at_)
                              | None => mret tt
                              end;
                          _ ← sec_store (λ e, e) (put_match (with_status cur ParticipantFunded None false));
                          mret RDone
                    | None => mret NotEligible
                    end)
              end
        | _, _ => mret NotEligible
        end
  | None => mret NotEligible
  end.

(** The one-input spend of a recorded funding with that leg's script. *)
Definition is_swap_spend (c : Chain) (raw_tx_hex : string) (s : Store) : bool :=
  match hex_decode (trim raw_tx_hex) with
  | None => false
  | Some bytes =>
      match consensus_deserialize bytes with
      | inl _ => false
      | inr tx =>
          match input tx with
          | [i] =>
              let o := previous_output i in
              existsb (λ ws, bool_decide (last (witness i) = Some ws))
                (omap (λ m, leg_witness_script m c)
                  (matches_funded_by c (txid_display (txid o)) (vout o) s))
          | _ => false
          end
      end
  end.

End legs.
