(* ===== verification/SwapApi.v ===== *)
(** The [/swap/*] routes of the edge ([fortis-edge/src/swap/mod.rs]): posting,
    taking, cancelling and recovering offers, the messages of a match, and
    handing spends to the watchtower.

    A route is a program of [Edge]; its early returns are [Err reply], its last
    reply is [Ok].  Lines for the journal are left out.  The decoders serde
    derives for the request bodies are the class [Bodies]. *)

From Stdlib Require Import Ascii.
From S2P Require Import Prelude Json Threads Chain SwapTerms Bitcoin Script Toy Sighash Htlc Swap Store Matcher Edge.

Definition DEFAULT_EXPIRES_SECS : Z := 24 * 3600.
Definition MAX_EXPIRES_SECS : Z := 7 * 24 * 3600.
Definition MAX_STRIKES : Z := 3.
Definition MAX_OPEN_OFFERS : nat := 10.
Definition MAX_MESSAGE_BODY : Z := 4 * 1024.
Definition MAX_MESSAGES_PER_MATCH : nat := 200.
Definition MAX_VARIANTS : nat := 16.
Definition MAX_CLIENT_ID : nat := 64.
Definition MAX_RECOVER_TAGS : nat := 100.
Definition MAX_RELEASE_TXS : nat := 4.
Definition BOOK_MAX_PER_SIDE : nat := 50.
Definition LOG_MAX_LINES : nat := 50.
Definition LOG_MAX_CHARS : nat := 300.
Definition LOG_LINES_PER_MIN : Z := 300.
Definition STRUCK_OUT : string := "too many missed funding deadlines — try again in 24 hours".
Definition CROCKFORD : string := "0123456789ABCDEFGHJKMNPQRSTVWXYZ".

(** ** Request bodies *)
Record NewOffer : Type := {
  n_direction : Direction;
  n_amount_sat : Z;
  n_price : Z;
  n_expires_in : option Z;
  n_private : bool;
  n_client_id : option string;
  n_recovery_tag : option string;
}.

Record TakeReq : Type := {
  t_amount_sat : Z;
  t_price : Z;
  t_client_id : string;
  t_recovery_tag : option string;
}.

Record RecoverReq : Type := { rr_tags : list string; rr_claim : bool }.

Inductive SwapMsg : Type :=
| MsgAccept
| MsgDecline
| MsgKeys (xbt btc : string)
| MsgHashlock (hex : string) (nonce : option string)
| MsgFunded (chain tx : string) (vout : Z)
| MsgReleaseRequest (txs : list string)
| MsgRelease (sigs : list string).

Record WatchReq : Type := {
  wr_match_id : string;
  wr_chain : string;
  wr_kind : string;
  wr_htlc_outpoint : string * Z;
  wr_not_before : Z;
  wr_variants : list string;
  wr_sigs : option (list string);
  wr_pubkey : option string;
  wr_witness_script : option string;
}.

(** What serde decodes; [TakeCode] is just its optional tag. *)
Class Bodies : Type := {
  value_from_slice : bytes → string + Value;
  new_offer_from_slice : bytes → string + NewOffer;
  take_code_from_slice : bytes → string + option string;
  take_req_from_slice : bytes → string + TakeReq;
  recover_req_from_slice : bytes → string + RecoverReq;
  watch_req_from_slice : bytes → string + WatchReq;
  msg_from_value : Value → string + SwapMsg;
}.

(** ** JSON forms *)
Definition direction_str (d : Direction) : string :=
  match d with XbtToBtc => "xbt_to_btc" | BtcToXbt => "btc_to_xbt" end.
Definition offer_status_str (s : OfferStatus) : string :=
  match s with
  | Open => "open" | Matched => "matched" | OCancelled => "cancelled" | Expired => "expired"
  | Filled => "filled"
  end.
Definition match_status_str (s : MatchStatus) : string :=
  match s with
  | Proposed => "proposed" | Accepted => "accepted" | InitiatorFunded => "initiator_funded"
  | ParticipantFunded => "participant_funded" | Closed => "closed" | MCancelled => "cancelled"
  end.

Definition terms_json (t : SwapTerms) : Value :=
  VObj ([("match_id", VStr (match_id t)); ("network", VStr (t_network t)); ("xbt_sat", VNum (xbt_sat t));
         ("btc_sat", VNum (btc_sat t)); ("price_sat_per_xbt", VNum (price_sat_per_xbt t));
         ("fee_bps", VNum (fee_bps t)); ("fee_address", VStr (fee_address t));
         ("matched_at", VNum (matched_at t)); ("xbt_locktime", VNum (xbt_locktime t));
         ("btc_locktime", VNum (btc_locktime t)); ("xbt_confs", VNum (xbt_confs t));
         ("btc_confs", VNum (btc_confs t)); ("accept_by", VNum (accept_by t));
         ("initiator_fund_by", VNum (initiator_fund_by t))] ++
        if contract_version t =? CONTRACT_V1 then [] else [("contract_version", VNum (contract_version t))]).

Definition outpoint_json (o : option (string * Z)) : Value :=
  match o with
  | Some (tx, n) => VObj [("txid", VStr tx); ("vout", VNum n)]
  | None => VNull
  end.

(** ** Text the routes read *)

(** Upper case, [O] as [0], [I] and [L] as [1], no dashes. *)
Definition normalize_char (c : ascii) : ascii :=
  match to_ascii_upper c with
  | "O"%char => "0"%char
  | "I"%char | "L"%char => "1"%char
  | c => c
  end.
Definition normalize_code (code : string) : string :=
  String.string_of_list_ascii
    (map normalize_char (filter (λ c, c ≠ "-"%char) (String.list_ascii_of_string (trim code)))).

Definition valid_client_id (c : string) : bool :=
  negb (String.eqb c EmptyString) && Nat.leb (String.length c) MAX_CLIENT_ID && all_chars is_ascii_hexdigit c.

Definition parse_tag (t : option string) : result Reply (option string) :=
  match t with
  | None => Ok None
  | Some t =>
      if Nat.eqb (String.length t) 64 && all_chars is_ascii_hexdigit t
      then Ok (Some (to_ascii_lowercase t))
      else Err (err 400 "recovery_tag must be 64 hex digits")
  end.

Definition store_failed (e : string) : Reply :=
  if String.eqb e TAG_USED then err 409 TAG_USED else internal e.

(** ** Log lines *)

(** The characters of a text: UTF-8, decoded. *)
Fixpoint chars (fuel : nat) (l : list Z) : list Z :=
  match fuel with
  | O => []
  | S fuel =>
      match l with
      | [] => []
      | a :: l =>
          if a <? 0x80 then a :: chars fuel l
          else match l with
          | b :: l1 =>
              if a <? 0xE0 then ((a - 0xC0) * 64 + (b - 0x80)) :: chars fuel l1
              else match l1 with
              | c :: l2 =>
                  if a <? 0xF0 then ((a - 0xE0) * 4096 + (b - 0x80) * 64 + (c - 0x80)) :: chars fuel l2
                  else match l2 with
                  | d :: l3 => ((a - 0xF0) * 262144 + (b - 0x80) * 4096 + (c - 0x80) * 64 + (d - 0x80)) :: chars fuel l3
                  | [] => []
                  end
              | [] => []
              end
          | [] => []
          end
      end
  end.
Definition str_chars (s : string) : list Z :=
  chars (String.length s) (map code (String.list_ascii_of_string s)).

(** [char::is_control]: the category Cc. *)
Definition is_control (c : Z) : bool := (c <? 32) || ((127 <=? c) && (c <=? 159)).

Fixpoint hex_digits (fuel : nat) (n : Z) (acc : list Z) : list Z :=
  match fuel with
  | O => acc
  | S fuel =>
      let d := n mod 16 in
      let acc := (if d <? 10 then 48 + d else 87 + d) :: acc in
      if n <? 16 then acc else hex_digits fuel (n / 16) acc
  end.

(** One character as it is written: a space for a control character, itself
    when printable ASCII, else [\u{..}]. *)
Definition log_char (c : Z) : list Z :=
  if is_control c then [32]
  else if (32 <=? c) && (c <=? 126) then [c]
  else [92; 117; 123] ++ hex_digits 8 c [] ++ [125].

Definition log_line (l : string) : string :=
  String.string_of_list_ascii (map char_of (take LOG_MAX_CHARS (str_chars l ≫= log_char))).

Definition log_lines (body : Value) : result Reply (list string) :=
  let bad := err 400 "lines must be an array of strings" in
  arr ← ok_or (as_array (vindex "lines" body)) bad;
  _ ← bail_if (Nat.ltb LOG_MAX_LINES (length arr)) (err 400 ("at most " +:+ pretty LOG_MAX_LINES +:+ " lines"));
  collect (λ l, l ← ok_or (as_string l) bad; mret (log_line l)) arr.

(** [LogQuota::take] *)
Definition quota_take (offer : string) (n : nat) (now : Z) (q : gmap string (Z * Z)) : bool * gmap string (Z * Z) :=
  let minute := now / 60 in
  let q := if 10000 <? Z.of_nat (size q) then filter (λ x, fst (snd x) = minute) q else q in
  let slot := default (minute, 0) (q !! offer) in
  let slot := if fst slot =? minute then slot else (minute, 0) in
  let n := Z.min (Z.of_nat n) u32_max in
  if LOG_LINES_PER_MIN <? saturating_add u32_max (snd slot) n then (false, <[offer := slot]> q)
  else (true, <[offer := (fst slot, snd slot + n)]> q).

(** ** Long polls: [PollGate] *)
Definition try_enter (gate_cap : nat) (match_id : string) (role : SwapRole) (l : list (string * SwapRole)) :
    bool * list (string * SwapRole) :=
  if Nat.leb gate_cap (length l) || bool_decide ((match_id, role) ∈ l) then (false, l)
  else (true, (match_id, role) :: l).

(** Dropping the slot. *)
Definition leave (match_id : string) (role : SwapRole) (l : list (string * SwapRole)) : list (string * SwapRole) :=
  filter (λ x, x ≠ (match_id, role)) l.

(** ** Routes *)
Section routes.
Context `{BitcoinLib, KeyLib, TextLib, System, ChainReader, Bodies}.
Context (sw : Swap).

(** [tag_hash]: SHA-256 of the tag's text, as hex. *)
Definition tag_hash (tag : string) : string := hex_encode (sha256 (String.list_byte_of_string tag)).

Definition claimed_tag (t : option string) : IO Reply (option string) :=
  tag ← io_lift (parse_tag t);
  match tag with
  | None => mret None
  | Some tag =>
      used ← io_read (tag_used (tag_hash tag));
      if (used : bool) then fail (err 409 TAG_USED) else mret (Some (tag_hash tag))
  end.

Definition struck_out (token : string) : IO Reply bool :=
  now ← ask unix_now;
  n ← io_read (strikes token now);
  mret (MAX_STRIKES <=? n).

Definition open_offers_of (token : string) : IO Reply nat :=
  now ← ask unix_now;
  io_read (λ s, length (filter (λ o, o_token o = token ∧ o_status o = Open ∧ now < o_expires_at o) (all_offers s))).

(** A code of 8 random Crockford digits. *)
Definition share_code : Sec string string :=
  r ← sec_ask random8;
  b ← sec_lift (from_sum (λ e, "CSPRNG: " +:+ e) r);
  mret (String.string_of_list_ascii
    (omap (λ x, String.list_ascii_of_string CROCKFORD !! Z.to_nat (Z.land (Z_of_byte x) 31)) b)).

Fixpoint unused_share_code (tries : nat) : Sec string string :=
  match tries with
  | O => sec_fail "no free share code"
  | S tries =>
      code ← share_code;
      taken ← sec_read (offer_by_code code);
      match taken with
      | None => mret code
      | Some _ => unused_share_code tries
      end
  end.

Definition sec_new_secret : Sec string (string * bytes) :=
  r ← sec_ask random32;
  b ← sec_lift (from_sum (λ e, "CSPRNG: " +:+ e) r);
  mret (hex_encode b, sha256 b).

Definition offer_matches (offer_id : string) (s : Store) : list Match :=
  sort_by (λ a b, matched_at (m_terms a) <=? matched_at (m_terms b))
    (filter (λ m, m_initiator_offer m = offer_id ∨ m_participant_offer m = offer_id) (all_matches s)).

Definition offer_json (o : Offer) (s : Store) : Value :=
  let ms := offer_matches (o_id o) s in
  let mid := match o_match_id o with
             | Some id => Some id
             | None => m_id ∘ snd <$> list_find (λ m, m_status m ≠ MCancelled) (rev ms)
             end in
  VObj [("offer_id", VStr (o_id o)); ("direction", VStr (direction_str (o_direction o)));
        ("amount_sat", VNum (o_amount_sat o)); ("price_sat_per_xbt", VNum (o_price o));
        ("created_at", VNum (o_created_at o)); ("expires_at", VNum (o_expires_at o));
        ("private", VBool (o_private o)); ("share_code", vopt VStr (o_share_code o));
        ("status", VStr (offer_status_str (o_status o))); ("match_id", vopt VStr mid);
        ("matches", VArr (map (λ m, VObj [("match_id", VStr (m_id m)); ("status", VStr (match_status_str (m_status m)))]) ms))].

Definition offer_created (o : Offer) (secret : string) : IO Reply Reply :=
  out ← io_read (offer_json o);
  mret (RJson 200 (vset "owner_secret" (VStr secret) (vset "offer_id" (VStr (o_id o)) out))).

(** The closure of [create_offer]: the lookup and the insert are one step.
    Returns the offer, its secret, and whether it is new. *)
Definition make_offer (token : string) (n : NewOffer) (client_id tag : option string) (now expires_in : Z) :
    Sec string (Offer * string * bool) :=
  let make secret hash : Sec string (Offer * string * bool) :=
    code ← (if n_private n then c ← unused_share_code 8; mret (Some c) else mret None);
    id ← sec_store (λ e, e) (new_id fresh_id);
    let o := {| o_id := id; o_token := token; o_secret_hash := hash; o_direction := n_direction n;
                o_amount_sat := n_amount_sat n; o_price := n_price n; o_created_at := now;
                o_expires_at := wrapping_add u64_max now expires_in; o_private := n_private n;
                o_share_code := code; o_status := Open; o_match_id := None; o_client_id := client_id;
                o_recovery_tag := tag |} in
    _ ← sec_store (λ e, e) (put_offer o);
    mret (o, secret, true) in
  match client_id with
  | Some c =>
      known ← sec_read (offer_by_client token c);
      match known with
      | Some o => mret (o, fst (client_secret sw token c), false)
      | None => make (fst (client_secret sw token c)) (snd (client_secret sw token c))
      end
  | None => s ← sec_new_secret; make (fst s) (snd s)
  end.

(** The matching loop of [create_offer]: [fuel] bounds its rounds. *)
Fixpoint match_rounds (fuel : nat) (o : Offer) (now : Z) : IO Reply unit :=
  match fuel with
  | O => mret tt
  | S fuel =>
      r ← caught (io_store (λ e, e) (match_offer fresh_id o now (cap sw) (sw_network sw) (sw_fee_address sw)));
      match r with
      | Ok (Some _) =>
          cur ← io_read (offer (o_id o));
          match cur with
          | Some cur => if decide (o_status cur = Open) then match_rounds fuel o now else mret tt
          | None => mret tt
          end
      | _ => mret tt
      end
  end.

Definition create_offer (fuel : nat) (req : Request) (token : string) : IO Reply Reply :=
  n ← io_lift (read_json new_offer_from_slice req);
  let client_id := to_ascii_lowercase <$> n_client_id n in
  _ ← io_lift (bail_if (from_option (λ c, negb (valid_client_id c)) false client_id)
                 (err 400 "client_id must be 1..=64 hex digits"));
  known ← match client_id with
          | Some c => o ← io_read (offer_by_client token c); mret ((λ o, (o, c)) <$> o)
          | None => mret None
          end;
  match known with
  | Some (o, c) => offer_created o (fst (client_secret sw token c))
  | None =>
      tag ← claimed_tag (n_recovery_tag n);
      out ← struck_out token;
      _ ← io_lift (bail_if out (err 429 STRUCK_OUT));
      open ← open_offers_of token;
      _ ← io_lift (bail_if (Nat.leb MAX_OPEN_OFFERS open)
            (err 429 ("you have " +:+ pretty MAX_OPEN_OFFERS +:+ " open offers waiting: cancel one or wait for a match")));
      _ ← io_lift (bail_if ((n_price n =? 0) || (MAX_PRICE_SAT_PER_XBT <? n_price n))
            (err 400 ("price_sat_per_xbt must be 1..=" +:+ pretty MAX_PRICE_SAT_PER_XBT)));
      let expires_in := default DEFAULT_EXPIRES_SECS (n_expires_in n) in
      _ ← io_lift (bail_if ((expires_in =? 0) || (MAX_EXPIRES_SECS <? expires_in)) (err 400 "expires_in out of range"));
      let btc_leg := btc_leg_value (n_direction n) (n_amount_sat n) (n_price n) in
      _ ← io_lift (bail_if (btc_leg <? MIN_BTC_LEG_SAT)
            (err 400 ("amount must be worth at least " +:+ pretty MIN_BTC_LEG_SAT +:+ " BTC sat")));
      _ ← io_lift (match sw_max_btc_sat sw with
                   | Some max => bail_if (max <? btc_leg) (err 400 ("amount must be worth at most " +:+ pretty max +:+ " BTC sat"))
                   | None => Ok tt
                   end);
      now ← ask unix_now;
      made ← caught (section (make_offer token n client_id tag now expires_in));
      match made with
      | Err e => fail (store_failed e)
      | Panic => io_lift Panic
      | Ok (o, secret, new_) =>
          _ ← (if new_ && negb (o_private o) then match_rounds fuel o now else mret tt);
          current ← io_read (λ s, default o (offer (o_id o) s));
          offer_created current secret
      end
  end.

Definition get_offer (req : Request) (id : string) : IO Reply Reply :=
  o ← io_read (offer id);
  match o with
  | None => mret (err 404 "no such offer")
  | Some o =>
      if negb (owns_offer req o) then mret (err 403 "wrong or missing X-Swap-Secret")
      else out ← io_read (offer_json o); mret (RJson 200 out)
  end.

Definition sec_quota (offer : string) (n : nat) (now : Z) : Sec Reply bool := λ w,
  let '(ok, q) := quota_take offer n now (quota w) in (Ok ok, with_quota w q).

Definition phone_log (req : Request) (id : string) : IO Reply Reply :=
  o ← io_read (offer id);
  o ← io_lift (ok_or o (err 404 "no such offer"));
  _ ← io_lift (bail_if (negb (owns_offer req o)) (err 403 "wrong or missing X-Swap-Secret"));
  body ← io_lift (read_json value_from_slice req);
  lines ← io_lift (log_lines body);
  now ← ask unix_now;
  ok ← section (sec_quota id (length lines) now);
  if negb ok then fail (err 429 "too many log lines this minute")
  else mret (RJson 200 (VObj [("ok", VBool true)])).

Definition cancel_offer (req : Request) (id : string) : IO Reply Reply :=
  section (
    o ← sec_read (offer id);
    o ← sec_lift (ok_or o (err 404 "no such offer"));
    _ ← sec_lift (bail_if (negb (owns_offer req o)) (err 403 "wrong or missing X-Swap-Secret"));
    _ ← sec_lift (bail_if (bool_decide (o_status o ≠ Open)) (err 409 "only an unmatched offer can be cancelled"));
    let o := refill o (o_amount_sat o) OCancelled (o_match_id o) in
    _ ← sec_store internal (put_offer o);
    out ← sec_read (offer_json o);
    mret (RJson 200 out)).

(** What a take leaves of the taker's own offer is withdrawn. *)
Definition withdraw_rest (id : string) : IO Reply unit :=
  section (
    o ← sec_read (offer id);
    match o with
    | Some o =>
        if decide (o_status o = Open)
        then sec_store internal (put_offer (refill o (o_amount_sat o) OCancelled (o_match_id o)))
        else mret tt
    | None => mret tt
    end).

(** The one-shot offer of a taker: never on the public book. *)
Definition taker_offer (id token : string) (hash : bytes) (d : Direction) (amount price now : Z)
    (client_id tag : option string) : Offer := {|
  o_id := id; o_token := token; o_secret_hash := hash; o_direction := d; o_amount_sat := amount;
  o_price := price; o_created_at := now; o_expires_at := wrapping_add u64_max now DEFAULT_EXPIRES_SECS;
  o_private := true; o_share_code := None; o_status := Open; o_match_id := None;
  o_client_id := client_id; o_recovery_tag := tag |}.

(** An offer's amount, on the other side's send chain. *)
Definition on_other_chain (d : Direction) (maker : Offer) : result Reply Z :=
  match d with
  | XbtToBtc => xbt_for_btc (o_amount_sat maker) (o_price maker)
  | BtcToXbt => Ok (btc_for_xbt (o_amount_sat maker) (o_price maker))
  end.

Definition take_reply (m : string) (secret : string) (offer_id : string) : Reply :=
  RJson 200 (VObj [("match_id", VStr m); ("owner_secret", VStr secret); ("offer_id", VStr offer_id)]).

Definition take_code (req : Request) (code token : string) : IO Reply Reply :=
  body ← io_lift (read_json take_code_from_slice req);
  tag ← claimed_tag body;
  out ← struck_out token;
  _ ← io_lift (bail_if out (err 429 STRUCK_OUT));
  let code := normalize_code code in
  maker ← io_read (offer_by_code code);
  maker ← io_lift (ok_or maker (err 404 "unknown share code"));
  let d := opposite (o_direction maker) in
  amount ← io_lift (on_other_chain d maker);
  now ← ask unix_now;
  s ← caught new_secret;
  match s with
  | Ok (secret, hash) =>
      id ← io_store internal (new_id fresh_id);
      let taker := taker_offer id token hash d amount (o_price maker) now None tag in
      m ← io_store (λ e, err 409 e)
            (take_private fresh_id code taker now (cap sw) (sw_network sw) (sw_fee_address sw));
      _ ← withdraw_rest id;
      mret (take_reply (m_id m) secret id)
  | Err e => fail (internal e)
  | Panic => io_lift Panic
  end.

Definition take_offer (req : Request) (id token : string) : IO Reply Reply :=
  t ← io_lift (read_json take_req_from_slice req);
  let client_id := to_ascii_lowercase (t_client_id t) in
  _ ← io_lift (bail_if (negb (valid_client_id client_id)) (err 400 "client_id must be 1..=64 hex digits"));
  let '(secret, hash) := client_secret sw token client_id in
  known ← io_read (offer_by_client token client_id);
  match known with
  | Some o =>
      ms ← io_read (offer_matches (o_id o));
      match match o_match_id o with Some m => Some m | None => m_id <$> last ms end with
      | Some m => mret (take_reply m secret (o_id o))
      | None => mret (err 409 "offer is no longer available")
      end
  | None =>
      tag ← claimed_tag (t_recovery_tag t);
      out ← struck_out token;
      _ ← io_lift (bail_if out (err 429 STRUCK_OUT));
      maker ← io_read (offer id);
      maker ← io_lift (ok_or maker (err 404 "no such offer"));
      now ← ask unix_now;
      _ ← io_lift (bail_if (o_private maker) (err 409 "that offer is private: take it with its share code"));
      _ ← io_lift (bail_if (bool_decide (o_status maker ≠ Open) || (o_expires_at maker <=? now))
            (err 409 "offer is no longer available"));
      _ ← io_lift (bail_if (String.eqb (o_token maker) token) (err 409 "cannot take your own offer"));
      _ ← io_lift (bail_if (negb (o_price maker =? t_price t)) (err 409 "price changed"));
      let d := opposite (o_direction maker) in
      let btc_leg := btc_leg_value d (t_amount_sat t) (t_price t) in
      available ← io_lift (on_other_chain d maker);
      _ ← io_lift (bail_if (btc_leg <? MIN_BTC_LEG_SAT)
            (err 400 ("below the minimum swap (" +:+ pretty MIN_BTC_LEG_SAT +:+ " sat BTC)")));
      _ ← io_lift (bail_if (available <? t_amount_sat t) (err 400 "more than the offer holds"));
      _ ← io_lift (bail_if (from_option (λ max, max <? btc_leg) false (sw_max_btc_sat sw))
            (err 400 "above the maximum swap size"));
      new_offer_id ← io_store internal (new_id fresh_id);
      let taker := taker_offer new_offer_id token hash d (t_amount_sat t) (t_price t) now (Some client_id) tag in
      m ← io_store (λ e, err 409 e)
            (take_public fresh_id id taker now (cap sw) (sw_network sw) (sw_fee_address sw));
      _ ← withdraw_rest new_offer_id;
      mret (take_reply (m_id m) secret new_offer_id)
  end.

(** ** Recovery *)

(** The leg the owner of [offer_id] funds in [m] is recorded as funded. *)
Definition own_funded (m : Match) (offer_id : string) : bool :=
  bool_decide (is_Some (if decide (m_initiator_offer m = offer_id) then m_xbt_funding m else m_btc_funding m)).

Definition set_owner_hash (m : Match) (role : SwapRole) (hash : bytes) : Match := {|
  m_id := m_id m; m_terms := m_terms m;
  m_initiator_offer := m_initiator_offer m; m_participant_offer := m_participant_offer m;
  m_initiator_token := m_initiator_token m; m_participant_token := m_participant_token m;
  m_initiator_secret_hash := match role with Initiator => hash | Participant => m_initiator_secret_hash m end;
  m_participant_secret_hash := match role with Initiator => m_participant_secret_hash m | Participant => hash end;
  m_accepted := m_accepted m; m_status := m_status m;
  m_xbt_funding := m_xbt_funding m; m_btc_funding := m_btc_funding m;
  m_participant_fund_by := m_participant_fund_by m; m_pre_match_amounts := m_pre_match_amounts m;
  m_closed_at := m_closed_at m; m_keys := m_keys m; m_hashlock := m_hashlock m;
  m_missed_participant_deadline := m_missed_participant_deadline m; m_release_txs := m_release_txs m;
  m_release_sigs := m_release_sigs m |}.

(** The match a recovered offer speaks of: the latest with its own leg funded,
    else its final one, else the latest. *)
Definition recover_choice (o : Offer) (s : Store) : option Match :=
  let all := offer_matches (o_id o) s in
  id ← match list_find (λ m, own_funded m (o_id o) = true) (rev all) with
       | Some (_, m) => Some (m_id m)
       | None => match o_match_id o with Some id => Some id | None => m_id <$> last all end
       end;
  get_match id s.

(** One tag: what is found, [None] for a tag never used. *)
Definition recover_tag (claim : bool) (tag : string) : Sec Reply (option Value) :=
  used ← sec_read (tag_used (tag_hash tag));
  if negb used then mret None
  else
    o ← sec_read (offer_by_tag (tag_hash tag));
    match o with
    | None => mret (Some (VObj [("tag", VStr tag); ("offer_id", VNull); ("offer_status", VStr "purged");
                                ("direction", VNull); ("match", VNull); ("owner_secret", VNull)]))
    | Some o =>
        chosen ← sec_read (recover_choice o);
        found ← match chosen with
          | Some m =>
              let role := if decide (m_initiator_offer m = o_id o) then Initiator else Participant in
              secret ← (if own_funded m (o_id o) && claim then
                          r ← sec_ask random32;
                          b ← sec_lift (from_sum internal r);
                          _ ← sec_store internal (put_match (set_owner_hash m role (sha256 b)));
                          _ ← sec_store internal (set_secret_hash (o_id o) (sha256 b));
                          mret (VStr (hex_encode b))
                        else mret VNull);
              mret (VObj [("id", VStr (m_id m)); ("role", VStr (role_str role));
                          ("status", VStr (match_status_str (m_status m))); ("terms", terms_json (m_terms m));
                          ("xbt_funding", outpoint_json (m_xbt_funding m));
                          ("btc_funding", outpoint_json (m_btc_funding m))], secret)
          | None => mret (VNull, VNull)
          end;
        mret (Some (VObj [("tag", VStr tag); ("offer_id", VStr (o_id o));
                          ("offer_status", VStr (offer_status_str (o_status o)));
                          ("direction", VStr (direction_str (o_direction o)));
                          ("match", fst found); ("owner_secret", snd found)]))
    end.

Fixpoint recover_tags (claim : bool) (tags : list string) : Sec Reply (list Value) :=
  match tags with
  | [] => mret []
  | tag :: tags =>
      v ← recover_tag claim tag;
      vs ← recover_tags claim tags;
      mret (option_list v ++ vs)
  end.

(** [parse_tag] of a given tag is never [None]. *)
Definition given_tag (t : string) : result Reply string :=
  r ← parse_tag (Some t);
  match r with Some t => Ok t | None => Panic end.

Definition recover (req : Request) : IO Reply Reply :=
  r ← io_lift (read_json recover_req_from_slice req);
  _ ← io_lift (bail_if (Nat.ltb MAX_RECOVER_TAGS (length (rr_tags r)))
        (err 400 ("at most " +:+ pretty MAX_RECOVER_TAGS +:+ " tags")));
  tags ← io_lift (collect given_tag (rr_tags r));
  found ← section (recover_tags (rr_claim r) tags);
  mret (RJson 200 (VObj [("found", VArr found)])).

(** ** A match and its messages *)
Definition get_match_route (req : Request) (id : string) : IO Reply Reply :=
  '(m, role) ← authed_match req id;
  mret (RJson 200 (VObj [
    ("terms", terms_json (m_terms m)); ("role", VStr (role_str role));
    ("status", VStr (match_status_str (m_status m)));
    ("participant_fund_by", vopt VNum (m_participant_fund_by m));
    ("xbt_funding", outpoint_json (m_xbt_funding m)); ("btc_funding", outpoint_json (m_btc_funding m))])).

Definition release_tx_hex (funding : option OutPoint) (t : string) : result Reply string :=
  b ← ok_or (b ← hex_decode t; if Nat.leb (length b) 1000 then Some b else None)
        (err 400 "release transactions must be hex transactions of at most 1000 bytes");
  match consensus_deserialize b with
  | inl _ => Err (err 400 "release transactions must be hex transactions of at most 1000 bytes")
  | inr tx =>
      match input tx with
      | [i] =>
          if decide (Some (previous_output i) = funding) then Ok (serialize_hex tx)
          else Err (err 400 "a release spends exactly the match's XBT HTLC")
      | _ => Err (err 400 "a release spends exactly the match's XBT HTLC")
      end
  end.

Definition release_txs_of (txs : list string) (xbt_funding : string * Z) : result Reply (list string) :=
  _ ← bail_if (bool_decide (txs = []) || Nat.ltb MAX_RELEASE_TXS (length txs))
        (err 400 ("a release request carries 1 to " +:+ pretty MAX_RELEASE_TXS +:+ " transactions"));
  let funding := (λ t, {| txid := t; vout := snd xbt_funding |}) <$> txid_from_str (fst xbt_funding) in
  collect (release_tx_hex funding) txs.

Definition release_sig (s : string) : option string :=
  b ← hex_decode s;
  if Nat.leb 9 (length b) && Nat.leb (length b) 73 then Some (hex_encode b) else None.

Definition releasable (m : Match) : bool :=
  (CONTRACT_V2 <=? contract_version (m_terms m)) && bool_decide (m_status m = MCancelled) &&
  bool_decide (is_Some (m_xbt_funding m)) && bool_decide (m_btc_funding m = None).

Definition compressed_hex (s : string) : option string :=
  k ← pubkey_from_str s;
  if (fst k : bool) then Some (pubkey_display k) else None.

Definition terminal (s : MatchStatus) : bool := bool_decide (s = MCancelled ∨ s = Closed).

(** [match id] under the lock. *)
Definition locked_match (id : string) : Sec Reply Match :=
  m ← sec_read (get_match id);
  sec_lift (ok_or m (err 404 "no such match")).

(** The answer to a repeat: nothing new is relayed. *)
Definition unrelayed : Reply := RJson 200 (VObj [("seq", VNull)]).

(** A section that either records something, and the message to relay for it,
    or answers by itself. *)
Definition pushed (id : string) (role : SwapRole) (body : Value) : IO Reply Reply :=
  seq ← relay_push internal id (role_str role) body;
  mret (RJson 200 (VObj [("seq", VNum seq)])).

Definition relay_if (id : string) (role : SwapRole) (r : option Value) : IO Reply Reply :=
  match r with Some body => pushed id role body | None => mret unrelayed end.

Definition on_accept (id : string) (role : SwapRole) : Sec Reply (option Value) :=
  m ← locked_match id;
  match m_status m with
  | Proposed =>
      let mine := match role with Initiator => fst (m_accepted m) | Participant => snd (m_accepted m) end in
      if (mine : bool) then mret None
      else
        now ← sec_ask unix_now;
        if accept_by (m_terms m) <? now then sec_fail (err 409 "accept deadline passed")
        else
          let accepted := match role with
                          | Initiator => (true, snd (m_accepted m))
                          | Participant => (fst (m_accepted m), true)
                          end in
          let st := if decide (accepted = (true, true)) then Accepted else m_status m in
          _ ← sec_store internal (put_match (m_set_accepted m accepted st));
          mret (Some (VObj [("type", VStr "accept")]))
  | Accepted => mret None
  | _ => sec_fail (err 409 "match is past acceptance")
  end.

Definition on_keys (id : string) (role : SwapRole) (xbt btc : string) : Sec Reply (option Value) :=
  m ← locked_match id;
  if terminal (m_status m) then sec_fail (err 409 "match is over")
  else
    match match role with Initiator => fst (m_keys m) | Participant => snd (m_keys m) end with
    | Some existing =>
        if decide (existing = (xbt, btc)) then mret None
        else sec_fail (err 409 "different keys are already recorded")
    | None =>
        let keys := match role with
                    | Initiator => (Some (xbt, btc), snd (m_keys m))
                    | Participant => (fst (m_keys m), Some (xbt, btc))
                    end in
        _ ← sec_store internal (put_match (m_set_keys m keys));
        mret (Some (VObj [("type", VStr "keys"); ("xbt", VStr xbt); ("btc", VStr btc)]))
    end.

Definition on_hashlock (id h : string) (nonce : option string) : Sec Reply (option Value) :=
  m ← locked_match id;
  if terminal (m_status m) then sec_fail (err 409 "match is over")
  else
    match m_hashlock m with
    | Some existing =>
        if decide (existing = h) then mret None
        else sec_fail (err 409 "a different hashlock is already recorded")
    | None =>
        _ ← sec_store internal (put_match (m_set_hashlock m h));
        let body := VObj [("type", VStr "hashlock"); ("hex", VStr h)] in
        mret (Some (match nonce with Some n => vset "nonce" (VStr n) body | None => body end))
    end.

Definition NOT_RELEASABLE : string := "a release is only for a cancelled match with only the XBT locked".

Definition on_release_request (id : string) (txs : list string) : Sec Reply (option Value) :=
  m ← locked_match id;
  if negb (releasable m) then sec_fail (err 409 NOT_RELEASABLE)
  else
    funding ← sec_lift (expect (m_xbt_funding m));
    txs ← sec_lift (release_txs_of txs funding);
    match m_release_txs m with
    | Some existing =>
        if decide (existing = txs) then mret None
        else sec_fail (err 409 "a different release request is already recorded")
    | None =>
        _ ← sec_store internal (put_match (m_set_release_txs m txs));
        mret (Some (VObj [("type", VStr "release_request"); ("txs", VArr (map VStr txs))]))
    end.

Definition on_release (id : string) (sigs : list string) : Sec Reply (option Value) :=
  m ← locked_match id;
  if negb (releasable m) then sec_fail (err 409 NOT_RELEASABLE)
  else
    match m_release_txs m with
    | None => sec_fail (err 409 "no release was asked for")
    | Some txs =>
        if negb (Nat.eqb (length sigs) (length txs)) then sec_fail (err 400 "one signature per release transaction")
        else
          match m_release_sigs m with
          | Some existing =>
              if decide (existing = sigs) then mret None
              else sec_fail (err 409 "a different release is already recorded")
          | None =>
              _ ← sec_store internal (put_match (m_set_release_sigs m sigs));
              mret (Some (VObj [("type", VStr "release"); ("sigs", VArr (map VStr sigs))]))
          end
    end.

(** The participant's [funded] on a match its deadline cancelled. *)
Definition late_participant_funded (m : Match) (htlc : OutPoint) (relay : IO Reply Reply) : IO Reply Reply :=
  _ ← record_leg_funding sw m Btc htlc true;
  r ← caught (reinstate_if_funded_in_time sw (m_id m));
  match r with
  | Ok RDone => relay
  | Ok MinedLate => mret (err 410 "the match was cancelled: this funding was mined after its deadline")
  | Ok NotMined => mret (err 409 "the match was cancelled: this funding isn't mined yet")
  | Ok NotEligible =>
      cur ← io_read (get_match (m_id m));
      if from_option (λ cur, bool_decide (m_status cur = ParticipantFunded ∧
            m_btc_funding cur = Some (txid_display (txid htlc), vout htlc))) false cur
      then mret unrelayed
      else mret (err 409 "the match was cancelled")
  | Err _ => mret (unavailable "the chain")
  | Panic => io_lift Panic
  end.

(** What [funded] needs of the match, and what it makes of it. *)
Definition funded_needs (role : SwapRole) : MatchStatus :=
  match role with Initiator => Accepted | Participant => InitiatorFunded end.
Definition funded_next (role : SwapRole) : MatchStatus :=
  match role with Initiator => InitiatorFunded | Participant => ParticipantFunded end.

Definition refused_unpaid (why : Unpaid) : Reply :=
  match why with
  | NoScript => err 409 "send both keys and the hashlock before funding: they are needed to check it"
  | NoReader => err 503 "fundings can't be checked on chain right now: try again later"
  | NotSeen => err 503 "this funding isn't seen on chain yet: try again shortly"
  | Mismatch => err 409 "this output doesn't pay this match's HTLC: wrong script or amount"
  | ReadFailed _ => unavailable "the chain"
  end.

(** Recording the funding under the lock. *)
Definition on_funded (id : string) (role : SwapRole) (outpoint : string * Z) (relay : Value) : Sec Reply (option Value) :=
  m ← locked_match id;
  match funding_of m (send_chain_of role) with
  | Some existing =>
      if decide (existing = outpoint ∧ m_status m ≠ funded_needs role) then mret None
      else if decide (existing ≠ outpoint) then sec_fail (err 409 "a different funding is already recorded")
      else if decide (m_status m ≠ funded_needs role) then sec_fail (err 409 "not your turn to fund")
      else
        _ ← sec_store internal (put_match (m_set_funding m (send_chain_of role) outpoint (funded_next role)));
        mret (Some relay)
  | None =>
      if decide (m_status m ≠ funded_needs role) then sec_fail (err 409 "not your turn to fund")
      else
        _ ← sec_store internal (put_match (m_set_funding m (send_chain_of role) outpoint (funded_next role)));
        mret (Some relay)
  end.

Definition post_funded (id : string) (role : SwapRole) (chain tx : string) (n : Z) : IO Reply Reply :=
  m0 ← (if decide (role = Participant) then io_read (get_match id) else mret None);
  _ ← io_lift (bail_if (from_option (λ m, bool_decide (is_Some (m_release_sigs m))) false m0)
        (err 409 "this match was released: it can't be funded"));
  _ ← io_lift (bail_if (bool_decide (parse_chain chain ≠ Some (send_chain_of role)))
        (err 400 ("the " +:+ role_str role +:+ " funds on " +:+ as_str (send_chain_of role))));
  t ← io_lift (ok_or (txid_from_str tx) (err 400 "bad txid"));
  let outpoint := (txid_display t, n) in
  let htlc := {| txid := t; vout := n |} in
  let relay := VObj [("type", VStr "funded"); ("chain", VStr (as_str (send_chain_of role)));
                     ("txid", VStr (fst outpoint)); ("vout", VNum n)] in
  late ← (if decide (role = Participant) then
            m ← io_read (get_match id);
            mret (m ≫= λ m, if m_missed_participant_deadline m then Some m else None)
          else mret None);
  match late with
  | Some m => late_participant_funded m htlc (pushed id role relay)
  | None =>
      m ← io_read (get_match id);
      m ← io_lift (ok_or m (err 404 "no such match"));
      _ ← (if decide (funding_of m (send_chain_of role) = Some outpoint) then mret tt
           else if decide (m_status m ≠ funded_needs role) then fail (err 409 "not your turn to fund")
           else
             paid ← caught (leg_paid_on_chain sw m (send_chain_of role) htlc);
             match paid with
             | Ok _ => mret tt
             | Err why => fail (refused_unpaid why)
             | Panic => io_lift Panic
             end);
      r ← section (on_funded id role outpoint relay);
      relay_if id role r
  end.

Definition post_decline (id : string) (role : SwapRole) : IO Reply Reply :=
  _ ← section (
    now ← sec_ask unix_now;
    sec_store (λ e, err 409 e) (on_decline id role now));
  pushed id role (VObj [("type", VStr "decline")]).

Definition post_hashlock (id : string) (role : SwapRole) (hex : string) (nonce : option string) : IO Reply Reply :=
  _ ← io_lift (bail_if (bool_decide (role ≠ Initiator)) (err 403 "only the initiator sends the hashlock"));
  h ← io_lift (ok_or (hex32 hex) (err 400 "hashlock must be 32 bytes of hex"));
  nonce ← io_lift (match nonce with
    | None => Ok None
    | Some n =>
        match hex_decode n with
        | Some b => if Nat.eqb (length b) 16 then Ok (Some (hex_encode b))
                    else Err (err 400 "nonce must be 16 bytes of hex")
        | None => Err (err 400 "nonce must be 16 bytes of hex")
        end
    end);
  r ← section (on_hashlock id (hex_encode h) nonce);
  relay_if id role r.

Definition post_message (req : Request) (id : string) : IO Reply Reply :=
  '(_, role) ← authed_match req id;
  body ← io_lift (read_small_json value_from_slice req MAX_MESSAGE_BODY);
  msg ← io_lift (from_sum (λ e, err 400 ("bad message: " +:+ e)) (msg_from_value body));
  n ← io_read (λ s, length (msgs_after id 0 s));
  _ ← io_lift (bail_if (Nat.leb MAX_MESSAGES_PER_MATCH n) (err 429 "this match has relayed too many messages"));
  match msg with
  | MsgDecline => post_decline id role
  | MsgAccept => r ← section (on_accept id role); relay_if id role r
  | MsgKeys xbt btc =>
      match compressed_hex xbt, compressed_hex btc with
      | Some xbt, Some btc => r ← section (on_keys id role xbt btc); relay_if id role r
      | _, _ => fail (err 400 "keys must be compressed public keys")
      end
  | MsgHashlock hex nonce => post_hashlock id role hex nonce
  | MsgReleaseRequest txs =>
      _ ← io_lift (bail_if (bool_decide (role ≠ Initiator)) (err 403 "only the initiator asks for a release"));
      r ← section (on_release_request id txs); relay_if id role r
  | MsgRelease sigs =>
      _ ← io_lift (bail_if (bool_decide (role ≠ Participant)) (err 403 "only the participant signs a release"));
      sigs ← io_lift (ok_or (mapM release_sig sigs) (err 400 "release signatures must be DER signatures in hex"));
      r ← section (on_release id sigs); relay_if id role r
  | MsgFunded chain tx n => post_funded id role chain tx n
  end.

Definition sec_enter (id : string) (role : SwapRole) : Sec Reply bool := λ w,
  let '(ok, l) := try_enter (Nat.max (sw_polls_cap sw) 1) id role (inflight w) in (Ok ok, with_inflight w l).
Definition sec_leave (id : string) (role : SwapRole) : Sec Reply unit := λ w,
  (Ok tt, with_inflight w (leave id role (inflight w))).

Definition poll_messages (wakes : nat) (req : Request) (id : string) : IO Reply Reply :=
  '(_, role) ← authed_match req id;
  after ← io_lift (match query_param req "after" with
                   | None => Ok 0
                   | Some n => ok_or (parse_u64 n) (err 400 "bad after")
                   end);
  entered ← section (sec_enter id role);
  msgs ← (if (entered : bool) then
            msgs ← relay_wait id after wakes;
            _ ← section (sec_leave id role);
            mret msgs
          else io_read (msgs_after id after));
  mret (RJson 200 (VObj [("messages", VArr (map (λ '(seq, from, body),
    VObj [("seq", VNum seq); ("from", VStr from); ("body", body)]) msgs))])).

(** ** Watch jobs *)
Definition is_hex (h : string) : bool := negb (String.eqb h EmptyString) && bool_decide (is_Some (hex_decode h)).

Definition watch_kind (w : WatchReq) : result Reply WatchKind :=
  let bad := err 400 "kind must be refund or redeem (with sigs, pubkey and witness_script hex for a preimage-less redeem)" in
  match wr_sigs w, wr_pubkey w, wr_witness_script w with
  | None, None, None =>
      if String.eqb (wr_kind w) "refund" then Ok WkRefund
      else if String.eqb (wr_kind w) "redeem" then Ok WkRedeem
      else Err bad
  | Some sigs, Some pk, Some ws =>
      if String.eqb (wr_kind w) "redeem" && is_hex pk && is_hex ws && forallb is_hex sigs then
        if negb (Nat.eqb (length sigs) (length (wr_variants w)))
        then Err (err 400 "sigs must hold one signature per variant, in order")
        else Ok (WkWaitingRedeem pk ws sigs)
      else Err bad
  | _, _, _ => Err bad
  end.

Definition is_refund (k : WatchKind) : bool := match k with WkRefund => true | _ => false end.

Definition spends_htlc (htlc : OutPoint) (hex_tx : string) : bool :=
  match hex_decode hex_tx with
  | Some b =>
      match consensus_deserialize b with
      | inr tx => match input tx with [i] => bool_decide (previous_output i = htlc) | _ => false end
      | inl _ => false
      end
  | None => false
  end.

Definition watch_route (req : Request) : IO Reply Reply :=
  w ← io_lift (read_json watch_req_from_slice req);
  '(m, role) ← authed_match req (wr_match_id w);
  c ← io_lift (ok_or (parse_chain (wr_chain w)) (err 400 "chain must be xbt or btc"));
  kind ← io_lift (watch_kind w);
  let own := bool_decide (c = send_chain_of role) in
  _ ← io_lift (bail_if (negb (Bool.eqb own (is_refund kind))) (err 403 "refund your own HTLC, redeem the counterparty's"));
  t ← io_lift (ok_or (txid_from_str (fst (wr_htlc_outpoint w))) (err 400 "bad htlc_outpoint txid"));
  let htlc := {| txid := t; vout := snd (wr_htlc_outpoint w) |} in
  _ ← io_lift (bail_if (bool_decide (wr_variants w = []) || Nat.ltb MAX_VARIANTS (length (wr_variants w)))
        (err 400 "1 to 16 variants"));
  _ ← io_lift (bail_if (negb (forallb (spends_htlc htlc) (wr_variants w)))
        (err 400 "every variant must be a transaction spending only htlc_outpoint"));
  _ ← record_leg_funding sw m c htlc (is_refund kind);
  _ ← (if bool_decide (c = Btc) && is_refund kind
       then _ ← caught (reinstate_if_funded_in_time sw (m_id m)); mret tt
       else mret tt);
  _ ← io_store internal (put_watch {|
        w_match_id := m_id m; w_chain := c; w_kind := kind; w_htlc := (txid_display t, vout htlc);
        w_not_before := wr_not_before w; w_variants := wr_variants w; w_done := false;
        w_sent_prevout := None |});
  mret (RJson 200 (VObj [("ok", VBool true)])).

(** ** The book *)

(** The offers of a side that pass, one by one: each is looked up in the
    strikes at its own time. *)
Fixpoint not_struck_out (l : list Offer) : IO Reply (list Offer) :=
  match l with
  | [] => mret []
  | o :: l =>
      out ← struck_out (o_token o);
      l ← not_struck_out l;
      mret (if out : bool then l else o :: l)
  end.

(** [sort_by_key]: stable; the lowest ask or the highest bid first. *)
Definition by_price (d : Direction) (a b : Offer) : bool :=
  match d with XbtToBtc => o_price a <=? o_price b | BtcToXbt => o_price b <=? o_price a end.

Definition book_entry (o : Offer) : result Reply Value :=
  '(btc, xbt) ← match o_direction o with
    | XbtToBtc => Ok (btc_leg_value (o_direction o) (o_amount_sat o) (o_price o), o_amount_sat o)
    | BtcToXbt => x ← xbt_for_btc (o_amount_sat o) (o_price o); Ok (o_amount_sat o, x)
    end;
  mret (VObj [("id", VStr (o_id o)); ("direction", VStr (direction_str (o_direction o)));
              ("amount_sat", VNum (o_amount_sat o)); ("price_sat_per_xbt", VNum (o_price o));
              ("btc_sat", VNum btc); ("xbt_sat", VNum xbt); ("expires_at", VNum (o_expires_at o))]).

(** What a caller could take. *)
Definition takeable (token : string) (now : Z) (o : Offer) : bool :=
  negb (o_private o) && (now <? o_expires_at o) && negb (String.eqb (o_token o) token) &&
  (MIN_BTC_LEG_SAT <=? btc_leg_value (o_direction o) (o_amount_sat o) (o_price o)).

Definition book_side (token : string) (now : Z) (d : Direction) : IO Reply (list Value) :=
  l ← io_read (λ s, filter (λ o, takeable token now o = true) (open_offers d s));
  l ← not_struck_out l;
  io_lift (collect book_entry (take BOOK_MAX_PER_SIDE (sort_by (by_price d) l))).

Definition book (token : string) : IO Reply Reply :=
  now ← ask unix_now;
  asks ← book_side token now XbtToBtc;
  bids ← book_side token now BtcToXbt;
  mret (RJson 200 (VObj [("xbt_to_btc", VArr asks); ("btc_to_xbt", VArr bids)])).

(** [reference] is what the price reference answers when asked: a price and
    whether it may be relied on. *)
Definition list_min (l : list Z) : option Z :=
  match l with [] => None | x :: l => Some (foldl Z.min x l) end.
Definition list_max (l : list Z) : option Z :=
  match l with [] => None | x :: l => Some (foldl Z.max x l) end.

Definition quote (reference : nat → option (Z * bool)) : IO Reply Reply :=
  ref ← ask reference;
  now ← ask unix_now;
  let side d s := o_price <$> filter (λ o, o_private o = false ∧ now < o_expires_at o) (open_offers d s) in
  asks ← io_read (side XbtToBtc);
  bids ← io_read (side BtcToXbt);
  mret (RJson 200 (VObj [
    ("reference_price", vopt VNum (fst <$> ref)); ("reference_ok", VBool (from_option snd false ref));
    ("best", VObj [("xbt_to_btc", vopt VNum (list_min asks)); ("btc_to_xbt", vopt VNum (list_max bids))]);
    ("fee_bps", VNum (sw_fee_bps sw)); ("min_btc_sat", VNum MIN_BTC_LEG_SAT);
    ("max_btc_sat", vopt VNum (sw_max_btc_sat sw));
    ("open", VObj [("xbt_to_btc", VNum (Z.of_nat (length asks))); ("btc_to_xbt", VNum (Z.of_nat (length bids)))])])).

(** ** Dispatch

    [path] has no query string; [token] is the verified install token.
    [fuel] bounds the matching rounds of a new offer, [wakes] the wake-ups of
    a long poll. *)
Inductive Method : Type := Get | Post | Delete | OtherMethod.

Definition trim_slashes (s : string) : string :=
  let s := strip_all ["/"] (String.length s) s in
  srev (strip_all ["/"] (String.length s) (srev s)).

Definition route (reference : nat → option (Z * bool)) (fuel wakes : nat) (req : Request) (method : Method)
    (path token : string) : IO Reply Reply :=
  let no_route := mret (err 404 "no such route") in
  match split "/"%char (trim_slashes path) with
  | root :: parts =>
      if negb (String.eqb root "swap") then no_route
      else match method, parts with
      | Get, [a] =>
          if String.eqb a "quote" then quote reference
          else if String.eqb a "book" then book token
          else no_route
      | Post, [a] =>
          if String.eqb a "offers" then create_offer fuel req token
          else if String.eqb a "recover" then recover req
          else if String.eqb a "watch" then watch_route req
          else no_route
      | Get, [a; id] =>
          if String.eqb a "offers" then get_offer req id
          else if String.eqb a "matches" then get_match_route req id
          else no_route
      | Delete, [a; id] => if String.eqb a "offers" then cancel_offer req id else no_route
      | Post, [a; code] => if String.eqb a "take" then take_code req code token else no_route
      | Post, [a; id; b] =>
          if String.eqb a "offers" && String.eqb b "log" then phone_log req id
          else if String.eqb a "offers" && String.eqb b "take" then take_offer req id token
          else if String.eqb a "matches" && String.eqb b "messages" then post_message req id
          else no_route
      | Get, [a; id; b] =>
          if String.eqb a "matches" && String.eqb b "messages" then poll_messages wakes req id else no_route
      | _, _ => no_route
      end
  | [] => no_route
  end.

End routes.
