(* ===== verification/Watchtower.v ===== *)
(** The swap watchtower ([fortis-edge/src/swap/watchtower.rs]): the pass its
    thread runs every minute.  It works the spends phones handed it, runs the
    matcher's housekeeping, starts the participant's clock, closes what is
    spent and purges what is old.

    A pass is a program of [Edge]: each answer of the chain and each read or
    write of the store is a step of its own, and what runs under the matching
    lock is one step.  A failure of one job or match is logged and the pass
    goes on. *)

From S2P Require Import Prelude Json Threads Chain SwapTerms Bitcoin Script Toy Sighash Htlc Swap Store Matcher Edge.

Definition PARTICIPANT_FUND_SECS : Z := 7200.

(** ** Choosing what to send *)
Section choice.
Context `{BitcoinLib}.

(** [sum] of [u64] wraps in a release build. *)
Definition fee (tx : Transaction) (prevout_value : Z) : Z :=
  let out := foldl (λ acc o, wrapping_add u64_max acc (value o)) 0 (output tx) in
  saturating_sub prevout_value out.

(** [Iterator::min_by_key]: the first of the least; [max_by_key]: the last of
    the greatest. *)
Definition min_by_key {A} (key : A → Z) (l : list A) : option A :=
  foldl (λ acc x, match acc with
                  | Some b => if key b <=? key x then Some b else Some x
                  | None => Some x
                  end) None l.
Definition max_by_key {A} (key : A → Z) (l : list A) : option A :=
  foldl (λ acc x, match acc with
                  | Some b => if key b <=? key x then Some x else Some b
                  | None => Some x
                  end) None l.

Definition meets (prevout_value feerate_ : Z) (tx : Transaction) : bool :=
  feerate_ <=? fee tx prevout_value / Z.max (vsize tx) 1.

Definition pick_variant {E} (variants : list Transaction) (prevout_value feerate_ : Z) : result E Transaction :=
  expect (match min_by_key (λ tx, fee tx prevout_value) (filter (λ tx, meets prevout_value feerate_ tx = true) variants) with
          | Some tx => Some tx
          | None => max_by_key (λ tx, fee tx prevout_value) variants
          end).

Definition decode_tx (hex_str : string) : result string Transaction :=
  b ← ok_or (hex_decode (trim hex_str)) "tx hex";
  match consensus_deserialize b with inr tx => Ok tx | inl _ => Err "tx decode" end.

Definition decode_all (variants : list string) : result string (list Transaction) :=
  txs ← collect decode_tx variants;
  _ ← bail_if (bool_decide (txs = [])) "no variants";
  mret txs.

Definition match_hashlock (hex_str : string) : option bytes := hex_decode hex_str ≫= preimage_try_from.

(** [split_last] *)
Definition split_last (b : bytes) : option (byte * bytes) :=
  x ← last b; Some (x, removelast b).

(** The witness signature [[sig; pubkey; _; _; ws]] is valid for input 0. *)
Definition signature_covers (tx : Transaction) (prevout : TxOut) (variant : SighashVariant) : bool :=
  default false (
    i ← head (input tx);
    sig ← witness i !! 0%nat; pk ← witness i !! 1%nat; ws ← witness i !! 4%nat;
    '(flag_, der) ← split_last sig;
    sh ← to_option (sighash_all tx [prevout] 0 ws variant);
    if negb (Z_of_byte flag_ =? flag sh) then Some false
    else
      sig ← signature_from_der der;
      pk ← pubkey_from_slice pk;
      Some (verify_ecdsa (message sh) sig pk)).

(** The variants of a presigned redeem that the preimage finishes, and whose
    signature is good. *)
Definition finish_variants (variants sigs_hex : list string) (pubkey_hex ws_hex : string) (preimage : bytes)
    (prevout : TxOut) (variant : SighashVariant) : list Transaction :=
  filter (λ tx, signature_covers tx prevout variant = true)
    (omap (λ '(tx_hex, sig_hex), to_option (finish_presigned_redeem {|
        tx_hex := tx_hex; sig_hex := sig_hex; pubkey_hex := pubkey_hex; witness_script_hex := ws_hex |} preimage))
      (zip variants sigs_hex)).

(** The preimage in the input of [spender] that spends [op]. *)
Definition revealed_by (spender : Transaction) (op : OutPoint) (hashlock : bytes) : option bytes :=
  '(_, i) ← list_find (λ i, previous_output i = op) (input spender);
  preimage_from_witness (witness i) hashlock.

End choice.

(** A job with another [done] or [sent_prevout]. *)
Definition job_done (j : WatchJob) : WatchJob := {|
  w_match_id := w_match_id j; w_chain := w_chain j; w_kind := w_kind j; w_htlc := w_htlc j;
  w_not_before := w_not_before j; w_variants := w_variants j; w_done := true;
  w_sent_prevout := w_sent_prevout j |}.
Definition job_sent (j : WatchJob) (p : Z * string) : WatchJob := {|
  w_match_id := w_match_id j; w_chain := w_chain j; w_kind := w_kind j; w_htlc := w_htlc j;
  w_not_before := w_not_before j; w_variants := w_variants j; w_done := w_done j;
  w_sent_prevout := Some p |}.

(** ** The pass *)
Section pass.
Context `{BitcoinLib, TextLib, System, ChainReader}.

(** Handing a transaction to the network, whatever the answer. *)
Definition sec_broadcast (c : Chain) (hex : string) : Sec string (string + string) := λ w,
  (Ok (broadcast (asked w) c hex), with_sent (with_asked w (S (asked w))) (sent w ++ [(c, hex)])).

Definition put_job (j : WatchJob) : IO string unit := io_store (λ e, e) (put_watch j).

Definition phone_sent_redeem (job : WatchJob) : IO string (option TxOutInfo) :=
  match w_chain job, w_kind job with
  | Btc, WkRedeem =>
      m ← io_read (get_match (w_match_id job));
      match m with
      | None => mret None
      | Some m =>
          match m_hashlock m, leg_witness_script m Btc with
          | Some hashlock, Some ws =>
              spender ← try_ask (λ e, e) (λ n, spending_tx_hex n Btc (fst (w_htlc job)) (snd (w_htlc job)));
              match spender with
              | None => mret None
              | Some spender_hex =>
                  t ← io_lift (ok_or (txid_from_str (fst (w_htlc job))) "bad txid");
                  match match_hashlock hashlock with
                  | None => mret None
                  | Some hashlock =>
                      spender ← io_lift (decode_tx spender_hex);
                      match revealed_by spender {| txid := t; vout := snd (w_htlc job) |} hashlock with
                      | None => mret None
                      | Some _ => mret (Some {|
                          value_sat := btc_sat (m_terms m); scriptpubkey_hex := leg_spk_hex ws; confs := 0 |})
                      end
                  end
              end
          | _, _ => mret None
          end
      end
  | _, _ => mret None
  end.

(** What a job sees of its HTLC: nothing to do, or the output it spends,
    whether it is spent in the mempool by what was sent before ([resend]), and
    the job as it is now. *)
Definition job_prevout (job : WatchJob) : IO string (option (WatchJob * TxOutInfo * bool)) :=
  out ← try_ask (λ e, e) (λ n, txout n (w_chain job) (fst (w_htlc job)) (snd (w_htlc job)));
  match out with
  | Some out => mret (Some (job, out, false))
  | None =>
      confirmed ← try_ask (λ e, e) (λ n, spend_confirmed n (w_chain job) (fst (w_htlc job)) (snd (w_htlc job)));
      if (confirmed : bool) then _ ← put_job (job_done job); mret None
      else
        match w_sent_prevout job with
        | Some (v, spk) => mret (Some (job, {| value_sat := v; scriptpubkey_hex := spk; confs := 0 |}, true))
        | None =>
            p ← phone_sent_redeem job;
            match p with
            | Some prevout =>
                let job := job_sent job (value_sat prevout, scriptpubkey_hex prevout) in
                _ ← put_job job;
                mret (Some (job, prevout, true))
            | None => mret None
            end
        end
  end.

(** The transactions a presigned redeem can send: none before the preimage
    is on the other chain. *)
Definition waiting_txs (job : WatchJob) (pubkey_hex ws_hex : string) (sigs_hex : list string) (out : TxOutInfo) :
    IO string (option (list Transaction)) :=
  m ← io_read (get_match (w_match_id job));
  match m with
  | None => mret None
  | Some m =>
      let other := match w_chain job with Xbt => Btc | Btc => Xbt end in
      match funding_of m other with
      | None => mret None
      | Some (otxid, ovout) =>
          spender ← try_ask (λ e, e) (λ n, spending_tx_hex n other otxid ovout);
          match spender with
          | None => mret None
          | Some spender_hex =>
              spender ← io_lift (decode_tx spender_hex);
              t ← io_lift (ok_or (txid_from_str otxid) "bad txid");
              match m_hashlock m ≫= match_hashlock with
              | None => mret None
              | Some hashlock =>
                  match revealed_by spender {| txid := t; vout := ovout |} hashlock with
                  | None => mret None
                  | Some preimage =>
                      '(btc_params, xbt_params) ← io_lift (map_err (network_params (t_network (m_terms m))));
                      let params := match w_chain job with Xbt => xbt_params | Btc => btc_params end in
                      spk ← io_lift (ok_or (hex_decode (scriptpubkey_hex out)) "scriptpubkey hex");
                      _ ← io_lift (bail_if (negb (Nat.eqb (length sigs_hex) (length (w_variants job))))
                            (pretty (length sigs_hex) +:+ " sigs for " +:+ pretty (length (w_variants job)) +:+ " variants"));
                      let finished := finish_variants (w_variants job) sigs_hex pubkey_hex ws_hex preimage
                        {| value := value_sat out; script_pubkey := spk |} (sighash_variant_of params) in
                      _ ← io_lift (bail_if (bool_decide (finished = []))
                            "preimage found, but no variant is validly signed");
                      mret (Some finished)
                  end
              end
          end
      end
  end.

(** What a job may send now, [None] while it is not due. *)
Definition job_txs (job : WatchJob) (out : TxOutInfo) (resend : bool) (now : Z) : IO string (option (list Transaction)) :=
  match w_kind job with
  | WkRefund =>
      if now <? w_not_before job then mret None
      else txs ← io_lift (decode_all (w_variants job)); mret (Some txs)
  | WkRedeem =>
      m ← io_read (get_match (w_match_id job));
      match m with
      | None => mret None
      | Some m =>
          let need := match w_chain job with Xbt => xbt_confs (m_terms m) | Btc => btc_confs (m_terms m) end in
          if negb resend && (confs out <? need) then mret None
          else txs ← io_lift (decode_all (w_variants job)); mret (Some txs)
      end
  | WkWaitingRedeem pubkey_hex ws_hex sigs_hex => waiting_txs job pubkey_hex ws_hex sigs_hex out
  end.

Definition run_job (job : WatchJob) (now : Z) : IO string unit :=
  seen ← job_prevout job;
  match seen with
  | None => mret tt
  | Some (job, out, resend) =>
      txs ← job_txs job out resend now;
      match txs with
      | None => mret tt
      | Some txs =>
          rate ← ask (λ n, feerate n (w_chain job));
          let rate := match rate with inr r => r | inl _ => u64_max end in
          tx ← io_lift (pick_variant txs (value_sat out) rate);
          sent ← section (sec_broadcast (w_chain job) (serialize_hex tx));
          _ ← io_lift (from_sum (λ e, e) sent);
          if decide (w_sent_prevout job = None)
          then put_job (job_sent job (value_sat out, scriptpubkey_hex out))
          else mret tt
      end
  end.

(** One after the other, a failure being only logged; a panic ends the pass. *)
Fixpoint each {A} (f : A → IO string unit) (l : list A) : IO string unit :=
  match l with
  | [] => mret tt
  | a :: l => _ ← caught (E':=string) (f a); each f l
  end.

Definition run_jobs (now : Z) : IO string unit :=
  jobs ← io_read (λ s, filter (λ j, w_done j = false) (watch_jobs s));
  each (λ j, run_job j now) jobs.

(** The participant must fund by then. *)
Definition fund_by_of (t : SwapTerms) (now : Z) : Z :=
  Z.min (wrapping_add u64_max now PARTICIPANT_FUND_SECS) (participant_fund_latest t) mod 2^32.

Definition start_participant_clock (m : Match) (now : Z) : IO string unit :=
  match m_xbt_funding m, leg_witness_script m Xbt with
  | Some (tx, n), Some ws =>
      out ← try_ask (λ e, e) (λ k, txout k Xbt tx n);
      match out with
      | None => mret tt
      | Some out =>
          if negb (pays_leg m Xbt ws out) || (confs out <? xbt_confs (m_terms m)) then mret tt
          else
            let fund_by := fund_by_of (m_terms m) now in
            set ← section (
              cur ← sec_read (get_match (m_id m));
              match cur with
              | None => mret false
              | Some cur =>
                  if bool_decide (m_status cur ≠ InitiatorFunded) ||
                     bool_decide (m_participant_fund_by cur ≠ None) ||
                     bool_decide (m_xbt_funding cur ≠ m_xbt_funding m) then mret false
                  else _ ← sec_store (λ e, e) (put_match (m_set_fund_by cur fund_by)); mret true
              end);
            if (set : bool) then
              _ ← relay_push (λ e, e) (m_id m) "edge"
                    (VObj [("type", VStr "deadline"); ("participant_fund_by", VNum fund_by)]);
              mret tt
            else mret tt
      end
  | _, _ => mret tt
  end.

(** The legs of a match that have a recorded funding. *)
Definition funded_legs (m : Match) : list (Chain * (string * Z)) :=
  omap (λ c, (λ f, (c, f)) <$> funding_of m c) [Xbt; Btc].

(** None of them is unspent. *)
Fixpoint all_spent (legs : list (Chain * (string * Z))) : IO string bool :=
  match legs with
  | [] => mret true
  | (c, (tx, n)) :: legs =>
      out ← try_ask (λ e, e) (λ k, txout k c tx n);
      match out with Some _ => mret false | None => all_spent legs end
  end.

Definition close_if_spent (m : Match) (now : Z) : IO string unit :=
  if negb (bool_decide (m_status m = InitiatorFunded ∨ m_status m = ParticipantFunded)) then mret tt
  else if bool_decide (funded_legs m = []) then mret tt
  else
    spent ← all_spent (funded_legs m);
    if negb spent then mret tt
    else section (
      cur ← sec_read (get_match (m_id m));
      match cur with
      | None => mret tt
      | Some cur =>
          if bool_decide (m_status cur ≠ m_status m) || bool_decide (m_xbt_funding cur ≠ m_xbt_funding m) ||
             bool_decide (m_btc_funding cur ≠ m_btc_funding m) then mret tt
          else sec_store (λ e, e)
            (put_match (with_status cur Closed (Some now) (m_missed_participant_deadline cur)))
      end).

(** [purge] holds no lock over its scans: it goes by what it read before. *)
Definition purge_pass (now : Z) : IO string unit :=
  pending ← io_read pending_of;
  ms ← io_read all_matches;
  _ ← each (λ m, io_store (λ e, e) (modify (λ s, purge_match now pending s m))) ms;
  used ← io_read offers_in_matches;
  os ← io_read all_offers;
  _ ← each (λ o, io_store (λ e, e) (modify (λ s, purge_offer now used s o))) os;
  io_store (λ e, e) (modify (λ s,
    set_strikes s (filter (λ x, existsb (λ t, in_window t now) (snd x) = true) (strikes_cf s)))).

Definition run_once (sw : Swap) : IO string unit :=
  now ← ask reader_now;
  _ ← run_jobs now;
  _ ← io_store (λ e, e) (modify (tick now));
  _ ← io_store (λ e, e) (rematch fresh_id now (cap sw) (sw_network sw) (sw_fee_address sw));
  ms ← io_read all_matches;
  _ ← each (λ m, if bool_decide (m_status m = InitiatorFunded) && bool_decide (m_participant_fund_by m = None)
                 then start_participant_clock m now else mret tt) ms;
  ms ← io_read all_matches;
  _ ← each (λ m, close_if_spent m now) ms;
  purge_pass now.

End pass.
