(* ===== verification/MatchLife.v ===== *)
(** The life of a match: the moves the code makes it take, each with the guard
    the code has for it, and what holds of every match that only made such
    moves.

    [move k] is a step of one match of the store, made by a handler of
    [SwapApi], by the matcher or by the watchtower; [k] bounds the answers of
    the environment its guard went by (those given before the [k]-th question).
    [EdgeSafety] shows that under any interleaving of requests and watchtower
    passes a stored match takes these moves and no others. *)

From S2P Require Import Prelude Json Threads Chain SwapTerms Bitcoin Script Toy Sighash Htlc Swap Store Matcher Edge SwapApi Watchtower.

Section life.
Context `{BitcoinLib, TextLib, System, ChainReader}.

(** The chain showed an output that pays the match's leg on [c]. *)
Definition shown (k : nat) (m : Match) (c : Chain) (f : string * Z) : Prop :=
  ∃ n ws out, (n < k)%nat ∧ leg_witness_script m c = Some ws ∧
    created_output n c (fst f) (snd f) = inr (Some out) ∧ pays_leg m c ws out = true.

(** The chain showed that output unspent, with the confirmations agreed on. *)
Definition confirmed (k : nat) (m : Match) (f : string * Z) : Prop :=
  ∃ n ws out, (n < k)%nat ∧ leg_witness_script m Xbt = Some ws ∧
    txout n Xbt (fst f) (snd f) = inr (Some out) ∧ pays_leg m Xbt ws out = true ∧
    xbt_confs (m_terms m) ≤ confs out.

(** The chain showed the transaction in a block of time at most [t]. *)
Definition mined_by (k : nat) (tx : string) (t : Z) : Prop :=
  ∃ n b, (n < k)%nat ∧ tx_block_time n Btc tx = inr (Some b) ∧ b ≤ t.

(** The chain showed no such unspent output. *)
Definition gone (k : nat) (c : Chain) (f : string * Z) : Prop :=
  ∃ n, (n < k)%nat ∧ txout n c (fst f) (snd f) = inr None.

Definition mine {A} (r : SwapRole) (p : A * A) : A :=
  match r with Initiator => fst p | Participant => snd p end.
Definition set_mine {A} (r : SwapRole) (x : A) (p : A * A) : A * A :=
  match r with Initiator => (x, snd p) | Participant => (fst p, x) end.

Inductive move (k : nat) : Match → Match → Prop :=
| mv_accept m r n :
    m_status m = Proposed → (n < k)%nat → unix_now n ≤ accept_by (m_terms m) →
    move k m (m_set_accepted m (set_mine r true (m_accepted m))
      (if decide (set_mine r true (m_accepted m) = (true, true)) then Accepted else m_status m))
| mv_keys m r x :
    terminal (m_status m) = false → mine r (m_keys m) = None →
    move k m (m_set_keys m (set_mine r (Some x) (m_keys m)))
| mv_hashlock m h :
    terminal (m_status m) = false → m_hashlock m = None → move k m (m_set_hashlock m h)
| mv_funded m r f :
    m_status m = funded_needs r →
    funding_of m (send_chain_of r) = None ∨ funding_of m (send_chain_of r) = Some f →
    shown k m (send_chain_of r) f →
    move k m (m_set_funding m (send_chain_of r) f (funded_next r))
| mv_record m c f :
    funding_of m c = None → shown k m c f → move k m (m_set_funding m c f (m_status m))
| mv_clock m f n :
    m_status m = InitiatorFunded → m_participant_fund_by m = None → m_xbt_funding m = Some f →
    confirmed k m f → (n < k)%nat →
    move k m (m_set_fund_by m (fund_by_of (m_terms m) (reader_now n)))
| mv_decline m now :
    m_status m = Proposed → m_xbt_funding m = None →
    move k m (with_status m MCancelled (Some now) (m_missed_participant_deadline m))
| mv_lapse m n :
    (n < k)%nat → due (reader_now n) m → move k m (lapsed (reader_now n) m)
| mv_reinstate m f t :
    eligible m = true → m_btc_funding m = Some f → m_participant_fund_by m = Some t →
    mined_by k (fst f) t → move k m (with_status m ParticipantFunded None false)
| mv_close m now :
    m_status m = InitiatorFunded ∨ m_status m = ParticipantFunded →
    (∀ c f, funding_of m c = Some f → gone k c f) →
    move k m (with_status m Closed (Some now) (m_missed_participant_deadline m))
| mv_release_txs m l :
    releasable m = true → m_release_txs m = None → move k m (m_set_release_txs m l)
| mv_release_sigs m txs l :
    releasable m = true → m_release_txs m = Some txs → m_release_sigs m = None →
    length l = length txs → move k m (m_set_release_sigs m l)
| mv_rekey m r h :
    is_Some (funding_of m (send_chain_of r)) → move k m (set_owner_hash m r h).

Definition newborn (m : Match) : Prop :=
  ∃ id terms init part, offer_wf init ∧ offer_wf part ∧ m = new_match id terms init part.

(** What the moves can make of a new match. *)
Definition reached (k : nat) (m : Match) : Prop := ∃ m0, newborn m0 ∧ rtc (move k) m0 m.

(** ** Later answers do not take a move back *)
Lemma shown_mono k k' m c f : (k ≤ k')%nat → shown k m c f → shown k' m c f.
Proof. intros Hk (n & ws & out & Hn & Hx). exists n, ws, out. split; [lia|done]. Qed.

Lemma move_mono k k' m m' : (k ≤ k')%nat → move k m m' → move k' m m'.
Proof.
  intros Hk Hm. destruct Hm as [? ? n|?|?|?|?|? ? n ? ? ? Hc ?|?|? n|? ? ? ? ? ? Hb|? ? ? Hg|?|?|?].
  1: apply (mv_accept _ _ _ n); auto with lia.
  all: econstructor; eauto using shown_mono with lia.
  - destruct Hc as (i & ws & out & Hi & Hx). exists i, ws, out. split; [lia|done].
  - destruct Hb as (i & b & Hi & Hx). exists i, b. split; [lia|done].
  - intros c f Hf. destruct (Hg c f Hf) as (i & Hi & Hx). exists i. split; [lia|done].
Qed.

Lemma moves_mono k k' m m' : (k ≤ k')%nat → rtc (move k) m m' → rtc (move k') m m'.
Proof. intros Hk. induction 1; [done|]. eapply rtc_l; eauto using move_mono. Qed.

Lemma reached_mono k k' m : (k ≤ k')%nat → reached k m → reached k' m.
Proof. intros Hk (m0 & Hb & Hm). exists m0. eauto using moves_mono. Qed.

Lemma reached_moves k m m' : reached k m → rtc (move k) m m' → reached k m'.
Proof. intros (m0 & Hb & Hm) Hm'. exists m0. split; [done|by etrans]. Qed.

(** ** What never changes, and what is set once *)
Definition keeps {A} (o o' : option A) : Prop := ∀ a, o = Some a → o' = Some a.

(** [later m m']: [m'] can be what became of [m]. *)
Record later (m m' : Match) : Prop := {
  lt_id : m_id m' = m_id m;
  lt_terms : m_terms m' = m_terms m;
  lt_offers : (m_initiator_offer m', m_participant_offer m') = (m_initiator_offer m, m_participant_offer m);
  lt_tokens : (m_initiator_token m', m_participant_token m') = (m_initiator_token m, m_participant_token m);
  lt_amounts : m_pre_match_amounts m' = m_pre_match_amounts m;
  lt_accepted : ∀ r, mine r (m_accepted m) = true → mine r (m_accepted m') = true;
  lt_keys : ∀ r, keeps (mine r (m_keys m)) (mine r (m_keys m'));
  lt_hashlock : keeps (m_hashlock m) (m_hashlock m');
  lt_funding : ∀ c, keeps (funding_of m c) (funding_of m' c);
  lt_fund_by : keeps (m_participant_fund_by m) (m_participant_fund_by m');
  lt_release_txs : keeps (m_release_txs m) (m_release_txs m');
  lt_release_sigs : keeps (m_release_sigs m) (m_release_sigs m');
}.

#[export] Instance keeps_refl {A} : Reflexive (@keeps A).
Proof. by intros o a. Qed.
#[export] Instance keeps_trans {A} : Transitive (@keeps A).
Proof. intros o1 o2 o3 H12 H23 a Ha. auto. Qed.
Lemma keeps_None {A} (o o' : option A) : o = None → keeps o o'.
Proof. by intros -> a. Qed.

#[export] Instance later_refl : Reflexive later.
Proof. intros m. by split. Qed.
#[export] Instance later_trans : Transitive later.
Proof. intros m1 m2 m3 [] []. split; unfold keeps in *; solve [congruence | intros; eauto]. Qed.

Lemma move_later k m m' : move k m m' → later m m'.
Proof.
  destruct 1 as [m r|m r x ? Hk|m h|m r f ? Hf|m c f Hf|m f n|m|m n|m|m|m l|m txs l|m r h];
    split; simpl; try done; try (by apply keeps_None).
  all: intros x'; try (by apply keeps_None); try (destruct x', r; simpl in *; try done; by apply keeps_None).
  - destruct r, x'; simpl in *; try done; intros a; naive_solver.
  - destruct c, x'; simpl in *; try done; intros a; naive_solver.
Qed.

Lemma moves_later k m m' : rtc (move k) m m' → later m m'.
Proof. induction 1 as [|m1 m2 m3 H12 _ IH]; [done|]. etrans; [by eapply move_later|done]. Qed.

(** ** The script of a leg is fixed once it can be built *)
Lemma leg_witness_script_keeps m m' c :
  m_terms m' = m_terms m → (∀ r, keeps (mine r (m_keys m)) (mine r (m_keys m'))) →
  keeps (m_hashlock m) (m_hashlock m') → keeps (leg_witness_script m c) (leg_witness_script m' c).
Proof.
  intros Ht Hk Hh ws. unfold leg_witness_script. rewrite Ht.
  pose proof (Hk Initiator) as Hi. pose proof (Hk Participant) as Hp. simpl in Hi, Hp.
  destruct (fst (m_keys m)) as [ki|]; [|done]. rewrite (Hi _ eq_refl).
  destruct ki as [i_xbt i_btc]; simpl.
  destruct (snd (m_keys m)) as [kp|]; [|done]. rewrite (Hp _ eq_refl).
  destruct kp as [p_xbt p_btc]; simpl.
  destruct (m_hashlock m) as [h|]; [|done]. by rewrite (Hh _ eq_refl).
Qed.

Lemma shown_later k m m' c f : later m m' → shown k m c f → shown k m' c f.
Proof.
  intros [] (n & ws & out & Hn & Hw & Ho & Hp). exists n, ws, out.
  split_and!; [done| |done|].
  - eapply leg_witness_script_keeps; eauto.
  - unfold pays_leg, leg_amount in *. by rewrite lt_terms0.
Qed.

Lemma confirmed_later k m m' f : later m m' → confirmed k m f → confirmed k m' f.
Proof.
  intros [] (n & ws & out & Hn & Hw & Ho & Hp & Hc). exists n, ws, out. rewrite lt_terms0.
  split_and!; try done; [eapply leg_witness_script_keeps; eauto|].
  unfold pays_leg, leg_amount in *. by rewrite lt_terms0.
Qed.

(** ** What holds of a match in each phase *)
Record phases (k : nat) (m : Match) : Prop := {
  ph_accepted : m_status m ≠ Proposed → m_status m ≠ MCancelled → m_accepted m = (true, true);
  ph_xbt : m_status m = InitiatorFunded ∨ m_status m = ParticipantFunded ∨ m_status m = Closed →
    is_Some (m_xbt_funding m);
  ph_btc : m_status m = ParticipantFunded → is_Some (m_btc_funding m);
  ph_missed : m_missed_participant_deadline m = true →
    m_status m = MCancelled ∧ m_accepted m = (true, true) ∧ is_Some (m_xbt_funding m) ∧
    is_Some (m_participant_fund_by m);
  ph_closed : is_Some (m_closed_at m) ↔ m_status m = Closed ∨ m_status m = MCancelled;
  ph_shown : ∀ c f, funding_of m c = Some f → shown k m c f;
  ph_released : ∀ l, m_release_sigs m = Some l → m_status m = MCancelled ∧
    is_Some (m_xbt_funding m) ∧ ∃ txs, m_release_txs m = Some txs ∧ length l = length txs;
  ph_clock : ∀ t, m_participant_fund_by m = Some t →
    ∃ f n, m_xbt_funding m = Some f ∧ confirmed k m f ∧ t = fund_by_of (m_terms m) (reader_now n);
}.

Lemma newborn_phases k m : newborn m → phases k m.
Proof.
  intros (id & t & i & p & _ & _ & ->). split; simpl; try done; try naive_solver. by intros [].
Qed.

Lemma later_both m m' : later m m' → m_accepted m = (true, true) → m_accepted m' = (true, true).
Proof.
  intros Hl Ha. pose proof (lt_accepted _ _ Hl Initiator) as Hi. pose proof (lt_accepted _ _ Hl Participant) as Hp.
  rewrite Ha in Hi, Hp. destruct (m_accepted m'); simpl in *. by rewrite Hi, Hp.
Qed.

Lemma keeps_Some {A} (o o' : option A) : keeps o o' → is_Some o → is_Some o'.
Proof. intros Hk [a Ha]. exists a. auto. Qed.

(** A move that leaves the phase alone. *)
Lemma same_phase k m m' :
  later m m' → phases k m →
  m_status m' = m_status m → m_missed_participant_deadline m' = m_missed_participant_deadline m →
  m_closed_at m' = m_closed_at m →
  (∀ c f, funding_of m' c = Some f → funding_of m c = Some f ∨ shown k m' c f) →
  (∀ l, m_release_sigs m' = Some l → m_release_sigs m = Some l ∨
     m_status m = MCancelled ∧ is_Some (m_xbt_funding m) ∧ ∃ txs, m_release_txs m' = Some txs ∧ length l = length txs) →
  (∀ t, m_participant_fund_by m' = Some t → m_participant_fund_by m = Some t ∨
     ∃ f n, m_xbt_funding m = Some f ∧ confirmed k m f ∧ t = fund_by_of (m_terms m) (reader_now n)) →
  phases k m'.
Proof.
  intros Hl [Pacc Pxbt Pbtc Pmiss Pclosed Psh Prel Pcl] Hst Hm Hc Hsh Hrel Hcl.
  pose proof (keeps_Some _ _ (lt_funding _ _ Hl Xbt)) as Kx. pose proof (keeps_Some _ _ (lt_funding _ _ Hl Btc)) as Kb.
  pose proof (keeps_Some _ _ (lt_fund_by _ _ Hl)) as Kf. simpl in Kx, Kb.
  split; rewrite ?Hst, ?Hm, ?Hc; auto.
  - intros H1' H2'. apply (later_both _ _ Hl). auto.
  - intros (? & ? & ? & ?)%Pmiss. split_and!; auto. by apply (later_both _ _ Hl).
  - intros c f [Hf|Hf]%Hsh; [|done]. eapply shown_later; eauto.
  - intros l [(? & ? & txs & Htx & ?)%Prel|(? & ? & ?)]%Hrel; [|eauto].
    split_and!; auto. exists txs. split; [|done]. by apply (lt_release_txs _ _ Hl).
  - intros t Ht. assert (∃ f n, m_xbt_funding m = Some f ∧ confirmed k m f ∧ t = fund_by_of (m_terms m) (reader_now n))
      as (f & n & Hf & Hcf & ->) by (apply Hcl in Ht as [?|?]; eauto).
    exists f, n. rewrite (lt_terms _ _ Hl). split_and!; [by apply (lt_funding _ _ Hl Xbt)|by eapply confirmed_later|done].
Qed.

(** A move to another phase; what a later match keeps, it keeps. *)
Lemma next_phase k m m' :
  later m m' → phases k m →
  (m_status m' ≠ Proposed → m_status m' ≠ MCancelled → m_accepted m' = (true, true)) →
  (m_status m' = InitiatorFunded ∨ m_status m' = ParticipantFunded ∨ m_status m' = Closed → is_Some (m_xbt_funding m')) →
  (m_status m' = ParticipantFunded → is_Some (m_btc_funding m')) →
  (m_missed_participant_deadline m' = true → m_status m' = MCancelled ∧ m_accepted m' = (true, true) ∧
     is_Some (m_xbt_funding m') ∧ is_Some (m_participant_fund_by m')) →
  (is_Some (m_closed_at m') ↔ m_status m' = Closed ∨ m_status m' = MCancelled) →
  (∀ c f, funding_of m' c = Some f → funding_of m c = Some f ∨ shown k m' c f) →
  m_release_sigs m' = m_release_sigs m → m_participant_fund_by m' = m_participant_fund_by m →
  (is_Some (m_release_sigs m) → m_status m' = MCancelled) →
  phases k m'.
Proof.
  intros Hl [_ _ _ _ _ Psh Prel Pcl] Ha Hx Hb Hm Hc Hsh Hrs Hfb Hr.
  split; try done.
  - intros c f [Hf|Hf]%Hsh; [|done]. eapply shown_later; eauto.
  - intros l. rewrite Hrs. intros Hs. destruct (Prel l Hs) as (_ & Hxf & txs & Htx & Hlen).
    split_and!; [by apply Hr|by apply (keeps_Some _ _ (lt_funding _ _ Hl Xbt))|].
    exists txs. split; [|done]. by apply (lt_release_txs _ _ Hl).
  - intros t. rewrite Hfb. intros (f & n & Hf & Hcf & ->)%Pcl. exists f, n. rewrite (lt_terms _ _ Hl).
    split_and!; [by apply (lt_funding _ _ Hl Xbt)|by eapply confirmed_later|done].
Qed.

Lemma unreleased k m : phases k m → m_status m ≠ MCancelled → is_Some (m_release_sigs m) → False.
Proof. intros Hp Hs [l Hl]. by apply (ph_released _ _ Hp) in Hl as [? _]. Qed.

Lemma not_missed k m : phases k m → m_status m ≠ MCancelled → m_missed_participant_deadline m = true → False.
Proof. intros Hp Hs Hm. by apply (ph_missed _ _ Hp) in Hm as [? _]. Qed.

Lemma move_phases k m m' : move k m m' → phases k m → phases k m'.
Proof.
  intros Hm Hp. pose proof (move_later _ _ _ Hm) as Hl.
  pose proof (unreleased _ _ Hp) as Hu. pose proof (not_missed _ _ Hp) as Hnm. pose proof Hp as [Pacc Pxbt Pbtc Pmiss Pclosed _ _ _].
  destruct Hm as [m r n Hst|m r x Hst Hk|m h Hst|m r f Hst Hf Hs|m c f Hf Hs|m f n Hst Hn Hf Hc|m now Hst
    |m n Hn Hd|m f t He Hf Ht Hb|m now Hst Hg|m l Hr Hn|m txs l Hr Htx Hs Hl'|m r h Hf].
  - apply (next_phase k m); simpl; rewrite ?Hst in *; auto; case_decide as Ha; try done.
    all: try (intros Hmi; destruct (Hnm ltac:(done) Hmi)); try (intros Hi; destruct (Hu ltac:(done) Hi)).
    all: try (rewrite Pclosed; intuition congruence); intuition congruence.
  - apply (same_phase k m); simpl; auto.
  - apply (same_phase k m); simpl; auto.
  - assert (Hne : m_status m ≠ MCancelled) by (rewrite Hst; by destruct r).
    apply (next_phase k m); simpl; auto.
    + intros _ _. apply Pacc; rewrite Hst; by destruct r.
    + destruct r; [done|]. intros _. apply Pxbt. by rewrite Hst; auto.
    + by destruct r.
    + intros Hmi. destruct (Hnm Hne Hmi).
    + rewrite Pclosed, Hst. destruct r; simpl; intuition congruence.
    + intros c g. destruct r, c; simpl; auto; intros [= <-]; right; by eapply (shown_later _ m).
    + intros Hi. destruct (Hu Hne Hi).
  - apply (same_phase k m); simpl; auto.
    intros c' g. destruct c, c'; simpl; auto; intros [= <-]; right; by eapply (shown_later _ m).
  - apply (same_phase k m); simpl; auto. intros t [= <-]. right. eauto.
  - apply (next_phase k m); simpl; auto; try (intuition congruence). by split; eauto.
  - assert (Hne : m_status m ≠ MCancelled) by (intros E; unfold due in Hd; by rewrite E in Hd).
    apply (next_phase k m); simpl; auto; try (intuition congruence); [|by split; eauto].
    case_decide as Hi; [|intros Hmi; destruct (Hnm Hne Hmi)].
    intros _. split_and!; auto; [apply Pacc; congruence|].
    unfold due in Hd. rewrite Hi in Hd. destruct Hd as [_ Hd]. by destruct (m_participant_fund_by m).
  - unfold eligible in He. apply andb_true_iff in He as [[Hmi Hc]%andb_true_iff Hns]. zbool.
    destruct (Pmiss Hmi) as (_ & Hacc & Hx & _).
    apply (next_phase k m); simpl; auto; try (intuition congruence).
    + split; [by intros []|intuition congruence].
    + rewrite Hns. by intros [].
  - apply (next_phase k m); simpl; auto; try (intuition congruence).
    by split; eauto.
  - apply (same_phase k m); simpl; auto.
  - unfold releasable in Hr. repeat (apply andb_true_iff in Hr as [Hr ?]). zbool.
    apply (same_phase k m); simpl; auto. intros l' [= <-]. right. eauto.
  - apply (same_phase k m); simpl; auto.
Qed.

Lemma reached_phases k m : reached k m → phases k m.
Proof.
  intros (m0 & Hb & Hm). apply (newborn_phases k) in Hb. induction Hm; eauto using move_phases.
Qed.

Lemma reached_amounts k m :
  reached k m → u64 (fst (m_pre_match_amounts m)) ∧ u64 (snd (m_pre_match_amounts m)).
Proof.
  intros (m0 & (id & t & i & p & [Hi _] & [Hp _] & ->) & Hm). by rewrite (lt_amounts _ _ (moves_later _ _ _ Hm)).
Qed.

(** ** Where a match can go *)

(** The phases a match can be in after [s], [missed] being whether it was
    cancelled for its participant's deadline. *)
Definition may_follow (s : MatchStatus) (missed : bool) (s' : MatchStatus) : bool :=
  match s, s' with
  | Proposed, _ => true
  | Accepted, Proposed => false
  | Accepted, _ => true
  | InitiatorFunded, (Proposed | Accepted) => false
  | InitiatorFunded, _ => true
  | ParticipantFunded, (ParticipantFunded | Closed) => true
  | ParticipantFunded, _ => false
  | Closed, Closed => true
  | Closed, _ => false
  | MCancelled, MCancelled => true
  | MCancelled, (ParticipantFunded | Closed) => missed
  | MCancelled, _ => false
  end.

(** One move: where it leads, and that being cancelled in time stays so. *)
Lemma move_follow k m m' :
  move k m m' → phases k m →
  may_follow (m_status m) (m_missed_participant_deadline m) (m_status m') = true ∧
  (m_status m = MCancelled → m_status m' = MCancelled →
     m_missed_participant_deadline m' = m_missed_participant_deadline m).
Proof.
  intros Hm Hp. destruct Hm as [m r n Hst| | |m r f Hst| | |m now Hst|m n Hn Hd|m f t He|m now [Hst|Hst]| | | ]; simpl;
    try (split; [by destruct (m_status m), (m_missed_participant_deadline m)|done]);
    try (rewrite Hst; try destruct r; try case_decide; done).
  - unfold due in Hd. by destruct (m_status m).
  - unfold eligible in He. apply andb_true_iff in He as [[-> ->%bool_decide_eq_true]%andb_true_iff _]. done.
Qed.

Lemma moves_follow k m m' :
  reached k m → rtc (move k) m m' →
  may_follow (m_status m) (m_missed_participant_deadline m) (m_status m') = true.
Proof.
  intros Hr Hm. revert Hr. induction Hm as [m|m1 m2 m3 H12 _ IH]; intros Hr.
  { by destruct (m_status m). }
  destruct (move_follow _ _ _ H12 (reached_phases _ _ Hr)) as [Hf Hk].
  specialize (IH (reached_moves _ _ _ Hr (rtc_once _ _ H12))).
  destruct (m_status m1), (m_status m2); try done; destruct (m_status m3); try done;
    by rewrite ?Hk in IH by done.
Qed.

(** A released match stays cancelled, with the release it has. *)
Lemma released_stays k m m' l :
  reached k m → rtc (move k) m m' → m_release_sigs m = Some l →
  m_status m' = MCancelled ∧ m_release_sigs m' = Some l ∧ m_release_txs m' = m_release_txs m.
Proof.
  intros Hr Hm Hs. pose proof (moves_later _ _ _ Hm) as Hl.
  destruct (ph_released _ _ (reached_phases _ _ Hr) l Hs) as (_ & _ & txs & Htx & _).
  pose proof (lt_release_sigs _ _ Hl l Hs) as Hs'.
  destruct (ph_released _ _ (reached_phases _ _ (reached_moves _ _ _ Hr Hm)) l Hs') as (Hc & _).
  split_and!; [done..|]. rewrite Htx. by apply (lt_release_txs _ _ Hl).
Qed.

End life.
