(* ===== verification/StoreGuard.v ===== *)
(** What the operations on the swap store guarantee: from a well-formed store
    they lead to a well-formed store, and every match that is there afterwards
    is new or came from the one under its id by moves of [MatchLife].

    [mok k m s Q] is that guarantee for one operation, with what holds of its
    answer ([Q]).  New ids are assumed never drawn twice (128 random bits). *)

From S2P Require Import Prelude Json Threads Chain SwapTerms Bitcoin Script Toy Sighash Htlc Swap Store Matcher Edge SwapApi Watchtower MatchLife.

Section guard.
Context `{BitcoinLib, TextLib, System, ChainReader}.

(** ** The well-formed store *)
Definition offers_wf (s : Store) : Prop := ∀ id o, offers s !! id = Some o → offer_wf o.

Definition drawn (s : Store) (id : string) : Prop := ∃ i, (i < ids_drawn s)%nat ∧ fresh_id i = inr id.

Definition matches_ok (k : nat) (s : Store) : Prop :=
  ∀ id m, matches s !! id = Some m → reached k m ∧ drawn s id.

(** The same job, up to what the watchtower notes in it. *)
Definition same_job (j j' : WatchJob) : Prop :=
  w_match_id j' = w_match_id j ∧ w_chain j' = w_chain j ∧ w_kind j' = w_kind j ∧ w_htlc j' = w_htlc j ∧
  w_not_before j' = w_not_before j ∧ w_variants j' = w_variants j.

#[export] Instance same_job_po : PreOrder same_job.
Proof. split; [by intros j|]. unfold same_job. intros j1 j2 j3 ? ?. intuition congruence. Qed.

(** A job as a request files it: not worked on yet. *)
Definition fresh_job (j : WatchJob) : Prop := w_done j = false ∧ w_sent_prevout j = None.

(** The job was filed, and is what was filed but for the notes in it. *)
Definition filed (s : Store) (j : WatchJob) : Prop := ∃ j0, j0 ∈ watch_log s ∧ fresh_job j0 ∧ same_job j0 j.

(** The chain showed the output a job is about. *)
Definition output_shown (k : nat) (j : WatchJob) (p : Z * string) : Prop :=
  ∃ n out, (n < k)%nat ∧ txout n (w_chain j) (fst (w_htlc j)) (snd (w_htlc j)) = inr (Some out) ∧
    p = (value_sat out, scriptpubkey_hex out).

(** The chain showed a spend of the BTC leg that reveals the preimage of its
    match: the phone redeemed it itself. *)
Definition phone_redeemed (k : nat) (s : Store) (j : WatchJob) (p : Z * string) : Prop :=
  w_kind j = WkRedeem ∧ w_chain j = Btc ∧ ∃ n m ws t spender_hex spender h x, (n < k)%nat ∧
    m ∈ match_log s ∧ m_id m = w_match_id j ∧ leg_witness_script m Btc = Some ws ∧
    txid_from_str (fst (w_htlc j)) = Some t ∧
    spending_tx_hex n Btc (fst (w_htlc j)) (snd (w_htlc j)) = inr (Some spender_hex) ∧ decode_tx spender_hex = Ok spender ∧
    m_hashlock m ≫= match_hashlock = Some h ∧ revealed_by spender {| txid := t; vout := snd (w_htlc j) |} h = Some x ∧
    p = (btc_sat (m_terms m), leg_spk_hex ws).

Definition noted (k : nat) (s : Store) (j : WatchJob) (p : Z * string) : Prop :=
  output_shown k j p ∨ phone_redeemed k s j p.
Definition prevout_seen (k : nat) (s : Store) (j : WatchJob) : Prop := ∀ p, w_sent_prevout j = Some p → noted k s j p.

(** A spend the watchtower was handed: every variant spends only the funding
    recorded for that leg of that match. *)
Definition spend_ok (k : nat) (s : Store) (j : WatchJob) : Prop :=
  ∃ m t, m ∈ match_log s ∧ reached k m ∧ m_id m = w_match_id j ∧ funding_of m (w_chain j) = Some (w_htlc j) ∧
    fst (w_htlc j) = txid_display t ∧ w_variants j ≠ [] ∧
    Forall (λ v, spends_htlc {| txid := t; vout := snd (w_htlc j) |} v = true) (w_variants j).

Definition job_ok (k : nat) (s : Store) (j : WatchJob) : Prop := filed s j ∧ prevout_seen k s j ∧ spend_ok k s j.

Definition jobs_ok (k : nat) (s : Store) : Prop := ∀ key j, watch s !! key = Some j → job_ok k s j.

Record sinv (k : nat) (s : Store) : Prop := {
  si_keyed : keyed s;
  si_tags : tags_ok s;
  si_logged : in_history s;
  si_offers : offers_wf s;
  si_matches : matches_ok k s;
  si_jobs : jobs_ok k s;
}.

(** ** What becomes of a match *)
Definition origin (k : nat) (s s' : Store) (id : string) (m' : Match) : Prop :=
  (∃ m, matches s !! id = Some m ∧ rtc (move k) m m') ∨
  (∃ i, (ids_drawn s ≤ i < ids_drawn s')%nat ∧ fresh_id i = inr id ∧ reached k m').

Record sle (k : nat) (s s' : Store) : Prop := {
  sl_ids : (ids_drawn s ≤ ids_drawn s')%nat;
  sl_matches : ∀ id m', matches s' !! id = Some m' → origin k s s' id m';
  sl_log : log_grows s s';
}.

Lemma sle_refl k s : sle k s s.
Proof. split; [done| |done]. intros id m Hm. left. eauto using rtc_refl. Qed.

Lemma sle_trans k s1 s2 s3 : sle k s1 s2 → sle k s2 s3 → sle k s1 s3.
Proof.
  intros [I1 M1 L1] [I2 M2 L2]. split; [lia| |by etrans]. intros id m3 H3.
  destruct (M2 _ _ H3) as [(m2 & H2' & Hm)|(i & Hi & Hf & Hr)]; [|right; exists i; split; [lia|done]].
  destruct (M1 _ _ H2') as [(m1 & H1' & Hm1)|(i & Hi & Hf & Hr)].
  - left. exists m1. split; [done|by etrans].
  - right. exists i. split_and!; [lia..|done|by eapply reached_moves].
Qed.

Lemma sle_mono k k' s s' : (k ≤ k')%nat → sle k s s' → sle k' s s'.
Proof.
  intros Hk [I1 M1 L1]. split; [done| |done]. intros id m H3.
  destruct (M1 _ _ H3) as [(m1 & ? & ?)|(i & ? & ? & ?)]; [left|right]; eauto using moves_mono, reached_mono.
Qed.

Lemma output_shown_mono k k' j p : (k ≤ k')%nat → output_shown k j p → output_shown k' j p.
Proof. intros Hk (n & out & ? & ?). exists n, out. split; [lia|done]. Qed.
Lemma noted_mono k k' s s' j p : (k ≤ k')%nat → log_grows s s' → noted k s j p → noted k' s' j p.
Proof.
  intros Hk [Hl _] [Ho|(? & ? & n & m & ws & t & x & sp & h & y & ? & Hm & Hx)]; [left; by eapply output_shown_mono|right].
  split; [done|]. split; [done|]. exists n, m, ws, t, x, sp, h, y. split; [lia|]. split; [by apply Hl|done].
Qed.
Lemma prevout_seen_mono k k' s s' j : (k ≤ k')%nat → log_grows s s' → prevout_seen k s j → prevout_seen k' s' j.
Proof. intros Hk Hl Hs p E. by eapply noted_mono, Hs. Qed.

Lemma filed_mono s s' j : log_grows s s' → filed s j → filed s' j.
Proof. intros [_ Hl] (j0 & Hj & Hx). exists j0. split; [by apply Hl|done]. Qed.

Lemma spend_ok_mono k k' s s' j : (k ≤ k')%nat → log_grows s s' → spend_ok k s j → spend_ok k' s' j.
Proof.
  intros Hk [Hl _] (m & t & Hm & Hr & Hx). exists m, t. split_and!; [by apply Hl|by eapply reached_mono|apply Hx..].
Qed.

Lemma job_ok_mono k k' s s' j : (k ≤ k')%nat → log_grows s s' → job_ok k s j → job_ok k' s' j.
Proof. intros Hk Hl (? & ? & ?). split_and!; eauto using filed_mono, prevout_seen_mono, spend_ok_mono. Qed.

(** Noting something else in a job. *)
Lemma same_job_filed s j j' : same_job j j' → filed s j → filed s j'.
Proof. intros Hs (j0 & ? & ? & ?). exists j0. split_and!; [done..|by etrans]. Qed.

Lemma same_job_spend_ok k s j j' : same_job j j' → spend_ok k s j → spend_ok k s j'.
Proof. intros (E1 & E2 & E3 & E4 & E5 & E6) (m & t & Hx). exists m, t. by rewrite E1, E2, E4, E6. Qed.

Lemma sinv_mono k k' s : (k ≤ k')%nat → sinv k s → sinv k' s.
Proof.
  intros Hk []. split; try done.
  - intros id m Hm. destruct (si_matches0 id m Hm). split; [by eapply reached_mono|done].
  - intros key j Hj. by eapply job_ok_mono; eauto.
Qed.

(** The matches of a store that follows a well-formed one are well-formed. *)
Lemma sle_matches_ok k s s' : matches_ok k s → sle k s s' → matches_ok k s'.
Proof.
  intros Hs [I1 M1 _] id m Hm. destruct (M1 _ _ Hm) as [(m1 & Hm1 & Hmv)|(i & Hi & Hf & Hr)].
  - destruct (Hs _ _ Hm1) as [Hr (i & Hi & Hf)]. split; [by eapply reached_moves|]. exists i. split; [lia|done].
  - split; [done|]. exists i. split; [lia|done].
Qed.

(** ** Operations *)
Definition mok {A} (k : nat) (m : M A) (s : Store) (Q : A → Store → Prop) : Prop :=
  sinv k (exec_M m s) ∧ sle k s (exec_M m s) ∧ ∀ a, fst (m s) = Ok a → Q a (exec_M m s).

Definition anything {A} (_ : A) (_ : Store) : Prop := True.

Lemma mok_bind {A B} k (m : M A) (f : A → M B) s S Q :
  mok k m s S → (∀ a s1, sinv k s1 → sle k s s1 → S a s1 → mok k (f a) s1 Q) → mok k (m ≫= f) s Q.
Proof.
  intros (Hi & Hl & HS) Hf. unfold mok, exec_M, mbind, M_bind in *.
  destruct (m s) as [[a|e|] s1]; simpl in *; try (by split_and!).
  destruct (Hf a s1 Hi Hl (HS a eq_refl)) as (Hi2 & Hl2 & HQ). split_and!; [done|by eapply sle_trans|done].
Qed.

Lemma mok_ret {A} k (a : A) s Q : sinv k s → Q a s → mok k (mret a) s Q.
Proof. intros Hs Hq. split_and!; [done|apply sle_refl|]. by intros ? [= <-]. Qed.

Lemma mok_lift {A} k (r : result string A) s Q : sinv k s → (∀ a, r = Ok a → Q a s) → mok k (lift r) s Q.
Proof. intros Hs Hq. split_and!; [done|apply sle_refl|done]. Qed.

Lemma mok_throw {A} k e s (Q : A → Store → Prop) : sinv k s → mok k (throw e) s Q.
Proof. intros Hs. by split_and!; [|apply sle_refl|]. Qed.

Lemma mok_read {A} k (f : Store → A) s Q : sinv k s → Q (f s) s → mok k (read f) s Q.
Proof. intros Hs Hq. split_and!; [done|apply sle_refl|]. by intros ? [= <-]. Qed.

Lemma mok_weaken {A} k (m : M A) s (Q Q' : A → Store → Prop) :
  mok k m s Q → (∀ a s', sinv k s' → sle k s s' → Q a s' → Q' a s') → mok k m s Q'.
Proof. intros (Hi & Hl & HQ) HQ'. split_and!; try done. intros a Ha. by apply HQ'; auto. Qed.

(** Writing something that is not a match, with the ids as they are. *)
Lemma sle_same k s s' :
  matches s' = matches s → ids_drawn s' = ids_drawn s → log_grows s s' → sle k s s'.
Proof. intros Hm Hi Hl. split; [lia| |done]. intros id m. rewrite Hm. left. eauto using rtc_refl. Qed.

Lemma sinv_step k s s' :
  sinv k s → rtc step s s' → sle k s s' → offers_wf s' → jobs_ok k s' → sinv k s'.
Proof.
  intros [Hk Ht Hg Ho Hm Hj] Hst Hl Ho' Hj'. destruct (steps_keyed_tags _ _ Hst Hk Ht) as (? & ? & _).
  destruct (steps_logged _ _ Hst Hg). split; try done. by eapply sle_matches_ok.
Qed.

(** The jobs of a store that has the same ones and a longer history. *)
Lemma jobs_ok_same k s s' : jobs_ok k s → watch s' = watch s → log_grows s s' → jobs_ok k s'.
Proof. intros Hj Hw Hl key j. rewrite Hw. intros Hx. eapply job_ok_mono; [done..|by eapply Hj]. Qed.

Lemma steps_grow k s s' : sinv k s → rtc step s s' → log_grows s s'.
Proof. intros Hs Hst. by destruct (steps_logged _ _ Hst (si_logged _ _ Hs)). Qed.

(** An operation that writes neither matches, jobs nor ids. *)
Lemma sinv_sle_rest k s s' :
  sinv k s → rtc step s s' → matches s' = matches s → ids_drawn s' = ids_drawn s → watch s' = watch s →
  offers_wf s' → sinv k s' ∧ sle k s s'.
Proof.
  intros Hs Hst Hm Hi Hw Ho. pose proof (steps_grow _ _ _ Hs Hst) as Hg.
  assert (Hl : sle k s s') by by apply sle_same. split; [|done].
  eapply sinv_step; [done..|]. by eapply jobs_ok_same; [apply Hs|..].
Qed.

Lemma put_offer_rest o s :
  ids_drawn (exec_M (put_offer o) s) = ids_drawn s ∧ watch (exec_M (put_offer o) s) = watch s ∧
  matches (exec_M (put_offer o) s) = matches s.
Proof. unfold exec_M, put_offer. by repeat case_match. Qed.

Lemma mok_put_offer k o s : sinv k s → offer_wf o → mok k (put_offer o) s anything.
Proof.
  intros Hs Ho. destruct (put_offer_rest o s) as (Hi & Hw & Hm).
  destruct (sinv_sle_rest k s (exec_M (put_offer o) s)) as [? ?]; [done|apply (writes_put_offer o)|done..| |by split_and!].
  intros id x. unfold exec_M. destruct (put_offer_cases o s) as [->|(s' & -> & Hof & _)]; simpl; [apply Hs|].
  rewrite Hof. intros [[_ <-]|[_ Hx]]%lookup_insert_Some; [done|by eapply Hs].
Qed.

(** One match moves. *)
Lemma mok_put_match k m m' s :
  sinv k s → matches s !! m_id m = Some m → rtc (move k) m m' → mok k (put_match m') s anything.
Proof.
  intros Hs Hm Hmv. assert (Hid : m_id m' = m_id m) by by apply (lt_id _ _ (moves_later _ _ _ Hmv)).
  pose proof (steps_grow _ _ _ Hs (writes_put_match m' s)) as Hg.
  assert (Hl : sle k s (exec_M (put_match m') s)).
  { split; [done| |done]. intros id x. simpl. rewrite Hid.
    intros [[<- <-]|[_ Hx]]%lookup_insert_Some; left; eauto using rtc_refl. }
  split_and!; [|done|done]. eapply sinv_step; try done; [apply (writes_put_match m')|apply Hs|].
  by eapply jobs_ok_same; [apply Hs|..].
Qed.

Lemma mok_new_id k s :
  sinv k s → mok k (new_id fresh_id) s (λ id s', s' = set_ids_drawn s (S (ids_drawn s)) ∧ fresh_id (ids_drawn s) = inr id).
Proof.
  intros Hs. assert (Hl : sle k s (exec_M (new_id fresh_id) s)).
  { split; [simpl; lia| |done]. intros id m Hm. left. eauto using rtc_refl. }
  split_and!; [|done|].
  - eapply sinv_step; try done; [apply (writes_new_id fresh_id)|apply Hs..].
  - intros id. simpl. by destruct (fresh_id (ids_drawn s)) as [?|?]; intros [= <-].
Qed.

(** A new match, under an id just drawn. *)
Lemma mok_new_match {B} k (terms : string → SwapTerms) init part (f : string → Match → M B) s Q :
  sinv k s → offer_wf init → offer_wf part →
  (∀ id s1, sinv k s1 → sle k s s1 → mok k (f id (new_match id (terms id) init part)) s1 Q) →
  mok k (id ← new_id fresh_id; let m := new_match id (terms id) init part in _ ← put_match m; f id m) s Q.
Proof.
  intros Hs Hwi Hwp Hf. pose proof (mok_new_id k s Hs) as (Hi & Hl & Hid).
  unfold mok, exec_M, mbind, M_bind in *. destruct (new_id fresh_id s) as [[id|e|] s1]; simpl in *; try by split_and!.
  destruct (Hid id eq_refl) as [-> Hfr]. set (m := new_match id (terms id) init part).
  set (s1 := set_ids_drawn s (S (ids_drawn s))) in *.
  set (s2 := log_match m (set_matches s1 (<[id := m]> (matches s1)))).
  assert (Hr : reached k m) by (exists m; split; [unfold newborn; eauto 8|done]).
  assert (Hst : rtc step s s2) by (trans s1; [apply (writes_new_id fresh_id s)|apply (writes_put_match m s1)]).
  pose proof (steps_grow _ _ _ Hs Hst) as Hg.
  assert (Hl2 : sle k s s2).
  { split; [simpl; lia| |done]. intros id' x. simpl. intros [[<- <-]|[_ Hx]]%lookup_insert_Some.
    - right. exists (ids_drawn s). split_and!; [simpl; lia..|done|done].
    - left. eauto using rtc_refl. }
  assert (Hi2 : sinv k s2).
  { eapply sinv_step; [exact Hs|done|done|apply Hs|]. by eapply jobs_ok_same; [apply Hs|..]. }
  destruct (Hf id s2 Hi2 Hl2) as (? & ? & ?). split_and!; [done|by eapply sle_trans|done].
Qed.

Lemma wrapping_u64 a b : u64 (wrapping_add u64_max a b).
Proof. unfold wrapping_add, u64, in_range, u64_max. pose proof (Z.mod_pos_bound (a + b) (2^64 - 1 + 1)). lia. Qed.

Lemma refill_wf o a st mid : u64 a → offer_wf o → offer_wf (refill o a st mid).
Proof. intros Ha [_ Hp]. by split. Qed.

Lemma settle_wf o c l id : offer_wf o → offer_wf (settle o c l id).
Proof. intros Ho. unfold settle. case_match; apply refill_wf; auto using wrapping_u64. Qed.

Lemma mok_if {A} k (b : bool) (m1 m2 : M A) s Q :
  mok k m1 s Q → mok k m2 s Q → mok k (if b then m1 else m2) s Q.
Proof. by destruct b. Qed.

Lemma mok_pair k a b price now max network fee_address s :
  sinv k s → offer_wf a → offer_wf b →
  mok k (pair fresh_id a b price now max network fee_address) s anything.
Proof.
  intros Hs Ha Hb. unfold pair. apply mok_if; [by apply mok_throw|].
  destruct (match o_direction a with XbtToBtc => (a, b) | BtcToXbt => (b, a) end) as [init part] eqn:Hd.
  assert (offer_wf init ∧ offer_wf part) as [Hi Hp] by (destruct (o_direction a); by simplify_eq). clear Hd.
  apply mok_if; [by apply mok_throw|].
  apply (mok_bind _ _ _ _ anything); [by apply mok_lift|]. intros px s1 Hs1 _ _.
  apply (mok_bind _ _ _ _ anything); [by apply mok_lift|]. intros mx s2 Hs2 _ _.
  apply mok_if; [by apply mok_ret|].
  apply (mok_bind _ _ _ _ anything); [by apply mok_lift|]. intros [bp xp] s3 Hs3 _ _.
  apply (mok_bind _ _ _ _ anything); [by apply mok_lift|]. intros at_ s4 Hs4 _ _.
  set (xbt := Z.min _ mx). set (tl := swap_timelocks bp xp).
  apply (mok_new_match k (λ id, build_terms id network fee_address tl xbt (btc_for_xbt xbt price) price at_) init part
    (λ id m, _ ← put_offer (settle init xbt (xbt =? o_amount_sat init) id);
             _ ← put_offer (settle part (btc_for_xbt xbt price) (xbt =? px) id); mret (Some m))); [done..|].
  intros id s5 Hs5 _. apply (mok_bind _ _ _ _ anything); [apply mok_put_offer; auto using settle_wf|].
  intros [] s6 Hs6 _ _. apply (mok_bind _ _ _ _ anything); [apply mok_put_offer; auto using settle_wf|].
  intros [] s7 Hs7 _ _. by apply mok_ret.
Qed.

Lemma mok_try_candidates k incoming cands now max network fee_address s :
  sinv k s → offer_wf incoming → Forall offer_wf cands →
  mok k (try_candidates fresh_id incoming cands now max network fee_address) s anything.
Proof.
  intros Hs Hi Hc. revert s Hs. induction Hc as [|c cands Hc _ IH]; intros s Hs; simpl; [by apply mok_ret|].
  eapply mok_bind; [by apply mok_pair|]. intros [m|] s1 Hs1 _ _; [by apply mok_ret|by apply IH].
Qed.

Lemma mok_match_locked k incoming barred now max network fee_address s :
  sinv k s → offer_wf incoming →
  mok k (match_locked fresh_id incoming barred now max network fee_address) s anything.
Proof.
  intros Hs Hi. unfold match_locked.
  apply (mok_bind _ _ _ _ (λ inc _, offer_wf inc)).
  { apply mok_read; [done|]. unfold offer. destruct (offers s !! o_id incoming) eqn:Ho; [|done].
    by eapply (si_offers _ _ Hs). }
  intros inc s1 Hs1 _ Hinc. apply mok_if; [by apply mok_ret|].
  apply (mok_bind _ _ _ _ (λ cands _, Forall offer_wf cands)).
  { apply mok_read; [done|]. apply Forall_forall. intros c Hc%candidates_elem.
    destruct (cand_stored _ _ _ _ _ Hc) as [id Hid]. by eapply (si_offers _ _ Hs1). }
  intros cands s2 Hs2 _ Hc. by apply mok_try_candidates.
Qed.

Lemma mok_rematch k now max network fee_address s :
  sinv k s → mok k (rematch fresh_id now max network fee_address) s anything.
Proof.
  intros Hs. unfold mok, exec_M, rematch.
  match goal with |- context [rematch_loop _ ?c ?l] => set (cancelled := c); set (open := l) end.
  assert (Hwf : Forall offer_wf open).
  { apply Forall_forall. intros o [_ Ho]%list_elem_of_filter. rewrite sort_by_Permutation in Ho.
    apply list_elem_of_filter in Ho as [_ [id Ho]%all_offers_elem]. by eapply (si_offers _ _ Hs). }
  change (mok k (rematch_loop fresh_id cancelled open now max network fee_address) s anything).
  clearbody cancelled open. revert s Hs. induction Hwf as [|o open Ho _ IH]; intros s Hs; simpl; [by apply mok_ret|].
  apply (mok_bind _ _ _ _ anything); [|intros; by apply IH].
  destruct (mok_match_locked k o (barred_for cancelled (o_id o)) now max network fee_address s Hs Ho) as (? & ? & _).
  by split_and!.
Qed.

(** What was looked up, if it is there. *)
Lemma mok_found {A X} k (r : option X) (e : string) (f : X → M A) s Q :
  sinv k s → (∀ x, r = Some x → mok k (f x) s Q) → mok k (x ← lift (ok_or r e); f x) s Q.
Proof. intros Hs Hf. destruct r as [o|]; simpl; [by apply Hf|by apply mok_throw]. Qed.

Lemma offer_by_code_elem code s o : offer_by_code code s = Some o → ∃ id, offers s !! id = Some o.
Proof.
  unfold offer_by_code. intros ([i o'] & (Hi & _)%list_find_Some & ->)%fmap_Some.
  apply all_offers_elem. by eapply list_elem_of_lookup_2.
Qed.

Lemma mok_take_private k code taker now max network fee_address s :
  sinv k s → offer_wf taker → mok k (take_private fresh_id code taker now max network fee_address) s anything.
Proof.
  intros Hs Ht. apply mok_found; [done|]. intros maker [mid Hm%(si_offers _ _ Hs)]%offer_by_code_elem.
  repeat (apply mok_if; [by apply mok_throw|]).
  eapply mok_bind; [by apply mok_pair|]. intros r s1 Hs1 _ _. by apply mok_lift.
Qed.

Lemma mok_take_public k id taker now max network fee_address s :
  sinv k s → offer_wf taker → mok k (take_public fresh_id id taker now max network fee_address) s anything.
Proof.
  intros Hs Ht. apply mok_found; [done|]. intros maker Hm%(si_offers _ _ Hs).
  repeat (apply mok_if; [by apply mok_throw|]).
  eapply mok_bind; [by apply mok_pair|]. intros r s1 Hs1 _ _. by apply mok_lift.
Qed.

(** ** Cancelling and the deadlines *)
Lemma mok_release k m id pre c how s :
  sinv k s → u64 pre → mok k (release m id pre c how) s anything.
Proof.
  intros Hs Hp. unfold mok, exec_M, release, offer. destruct (offers s !! id) as [o|] eqn:Ho; [|by apply (mok_ret k tt)].
  apply (si_offers _ _ Hs) in Ho as Hwf. pose proof Hwf as [Hu _].
  repeat case_decide; [apply (mok_put_offer k)..|by apply (mok_ret k tt)]; try done;
    destruct how; apply refill_wf; auto using wrapping_u64.
Qed.

Lemma mok_cancel k m0 m now i p s :
  sinv k s → matches s !! m_id m0 = Some m0 →
  rtc (move k) m0 (with_status m MCancelled (Some now) (m_missed_participant_deadline m)) →
  mok k (cancel m now i p) s anything.
Proof.
  intros Hs Hm Hmv. unfold cancel. set (m' := with_status m _ _ _) in *.
  destruct (reached_amounts k m') as [Hi Hp].
  { eapply reached_moves; [|exact Hmv]. by eapply (si_matches _ _ Hs). }
  eapply mok_bind; [by apply (mok_put_match k m0)|]. intros [] s1 Hs1 _ _.
  eapply mok_bind; [by apply mok_release|]. intros [] s2 Hs2 _ _. by apply mok_release.
Qed.

Lemma mok_add_strike k token now s :
  sinv k s → mok k (add_strike token now) s (λ _ s', matches s' = matches s).
Proof.
  intros Hs. destruct (sinv_sle_rest k s (exec_M (add_strike token now) s)) as [? ?];
    [done|apply (writes_add_strike token now)|done..|apply Hs|by split_and!].
Qed.

Lemma mok_remove_strike k token at_ s :
  sinv k s → mok k (remove_strike token at_) s (λ _ s', matches s' = matches s).
Proof.
  intros Hs. assert (E : ∀ A (f : Store → A), (∀ s x, f (set_strikes s x) = f s) → f (exec_M (remove_strike token at_) s) = f s).
  { intros A f Hf. unfold exec_M, remove_strike, modify. simpl. by repeat case_match. }
  destruct (sinv_sle_rest k s (exec_M (remove_strike token at_) s)) as [? ?];
    [done|apply (writes_remove_strike token at_)|by apply E..| |].
  - unfold offers_wf. rewrite (E _ offers) by done. apply Hs.
  - split_and!; [done..|]. intros _ _. by apply E.
Qed.

(** A match past its deadline lapses; [now] is an answer of the clock. *)
Lemma mok_tick_match k n m s :
  sinv k s → matches s !! m_id m = Some m → (n < k)%nat → mok k (tick_match m (reader_now n)) s anything.
Proof.
  intros Hs Hm Hn. pose proof (mv_lapse k m n Hn) as Hmv. unfold due, lapsed in Hmv. unfold tick_match.
  destruct (m_status m) eqn:Hst; try (by apply mok_ret).
  - destruct (_ <? _) eqn:Hd; [|by apply mok_ret]. zbool. rewrite decide_False in Hmv by done.
    apply (mok_cancel k m); [done..|by apply rtc_once, Hmv].
  - destruct (_ && _) eqn:Hd; [|by apply mok_ret]. apply andb_true_iff in Hd as [? ?]. zbool.
    rewrite decide_False in Hmv by done.
    eapply mok_bind; [by apply mok_add_strike|]. intros [] s1 Hs1 _ Hms.
    apply (mok_cancel k m); [done|by rewrite Hms|by apply rtc_once, Hmv].
  - destruct (_ && _) eqn:Hd; [|by apply mok_ret]. apply andb_true_iff in Hd as [? ?]. zbool.
    rewrite decide_True in Hmv by done.
    eapply mok_bind; [by apply mok_add_strike|]. intros [] s1 Hs1 _ Hms.
    apply (mok_cancel k m); [done|by rewrite Hms|by apply rtc_once, Hmv].
Qed.

(** A fold of operations, each guaranteed where it runs. *)
Lemma fold_ok {A} k (f : Store → A → Store) (P : list A → Store → Prop) l s :
  sinv k s → P l s →
  (∀ x l s, sinv k s → P (x :: l) s → sinv k (f s x) ∧ sle k s (f s x) ∧ P l (f s x)) →
  sinv k (foldl f s l) ∧ sle k s (foldl f s l).
Proof.
  intros Hs HP Hf. revert s Hs HP. induction l as [|x l IH]; intros s Hs HP; simpl; [split; [done|apply sle_refl]|].
  destruct (Hf x l s Hs HP) as (H1' & H2' & H3'). destruct (IH _ H1' H3') as [? ?].
  split; [done|by eapply sle_trans].
Qed.

Lemma mok_modify k f s Q : sinv k (f s) → sle k s (f s) → Q tt (f s) → mok k (modify f) s Q.
Proof. intros. split_and!; try done. by intros []. Qed.

Lemma tick_ok k n s : sinv k s → (n < k)%nat → sinv k (tick (reader_now n) s) ∧ sle k s (tick (reader_now n) s).
Proof.
  intros Hs Hn. unfold tick. set (s1 := foldl _ s (all_matches s)).
  assert (H1s : sinv k s1 ∧ sle k s s1).
  { apply (fold_ok k _ (λ l s, NoDup (map m_id l) ∧ Forall (λ m, matches s !! m_id m = Some m) l)); [done|..].
    - split; [apply all_matches_NoDup, Hs|]. apply Forall_forall. intros m [id Hm]%all_matches_elem.
      by rewrite (proj2 (si_keyed _ _ Hs) _ _ Hm).
    - intros m l s2 Hs2 [Hnd Hall]. apply NoDup_cons in Hnd as [Hnin Hnd]. apply Forall_cons in Hall as [Hm Hall].
      destruct (mok_tick_match k n m s2 Hs2 Hm Hn) as (? & ? & _). split_and!; [done..|].
      eapply Forall_impl; [apply Forall_and; split; [exact Hall|apply Forall_forall; intros x Hx; exact Hx]|].
      intros m' [Hm' Hin]. rewrite tick_match_matches. case_decide; [|done]. rewrite lookup_insert_ne; [done|].
      intros Heq. apply Hnin. rewrite Heq. by apply list_elem_of_fmap_2. }
  destruct H1s as [Hs1 Hl1]. assert (H2s : ∀ s', sinv k s' ∧ sle k s1 s' → sinv k s' ∧ sle k s s')
    by (intros s' [? ?]; split; [done|by eapply sle_trans]). apply H2s.
  apply (fold_ok k _ (λ l _, Forall offer_wf l)); [done|..].
  - apply Forall_forall. intros o [id Ho]%all_offers_elem. by eapply (si_offers _ _ Hs1).
  - intros o l s2 Hs2 [Ho Hl]%Forall_cons. case_match; [|split_and!; [done|apply sle_refl|done]].
    destruct (mok_put_offer k (refill o (o_amount_sat o) Expired (o_match_id o)) s2 Hs2) as (? & ? & _);
      [apply refill_wf; [apply Ho|done]|done].
Qed.

Lemma mok_on_decline k id r now s : sinv k s → mok k (on_decline id r now) s anything.
Proof.
  intros Hs. apply mok_found; [done|]. intros m Hm. pose proof (proj2 (si_keyed _ _ Hs) _ _ Hm) as Hid.
  destruct (bool_decide _ || bool_decide _) eqn:Hd; [by apply mok_throw|].
  apply orb_false_iff in Hd as [?%bool_decide_eq_false ?%bool_decide_eq_false].
  destruct r; apply (mok_cancel k m); rewrite ?Hid; try done; apply rtc_once, mv_decline; by apply dec_stable.
Qed.

(** ** The rest of the store *)
Lemma mok_push_msg k id from body s : sinv k s → mok k (push_msg id from body) s anything.
Proof.
  intros Hs. destruct (sinv_sle_rest k s (exec_M (push_msg id from body) s)) as [? ?];
    [done|apply rtc_once, step_push_msg|done..|apply Hs|by split_and!].
Qed.

(** A job is filed, or one that was is written with other notes. *)
Lemma mok_put_watch k j s :
  sinv k s → fresh_job j ∨ filed s j → prevout_seen k s j → spend_ok k s j → mok k (put_watch j) s anything.
Proof.
  intros Hs Hj Hp Ht. assert (Hst : rtc step s (exec_M (put_watch j) s)) by apply rtc_once, step_put_watch.
  pose proof (steps_grow _ _ _ Hs Hst) as Hg.
  assert (Hl : sle k s (exec_M (put_watch j) s)) by by apply sle_same.
  split_and!; [|done|done]. eapply sinv_step; [done..|apply Hs|].
  assert (Hf : filed (exec_M (put_watch j) s) j).
  { destruct Hj as [Hj|Hj]; [|by eapply filed_mono]. exists j. simpl. split_and!; [|done..].
    apply elem_of_app. right. by left. }
  intros key x. simpl. intros [[_ <-]|[_ Hx]]%lookup_insert_Some; [|by eapply job_ok_mono; [done..|by eapply Hs]].
  split_and!; [done|by eapply prevout_seen_mono|by eapply spend_ok_mono].
Qed.

Lemma mok_set_secret_hash k id h s : sinv k s → mok k (set_secret_hash id h) s anything.
Proof.
  intros Hs. unfold mok, exec_M, set_secret_hash, offer. destruct (offers s !! id) as [o|] eqn:Ho; [|by apply (mok_throw k)].
  apply (mok_put_offer k); [done|]. apply (si_offers _ _ Hs) in Ho as [? ?]. by split.
Qed.

(** What a purge drops. *)
Lemma sinv_shrink k s s' :
  sinv k s → offers s' ⊆ offers s → matches s' ⊆ matches s → watch s' ⊆ watch s → tags s' = tags s →
  ids_drawn s' = ids_drawn s → match_log s' = match_log s → watch_log s' = watch_log s → sinv k s' ∧ sle k s s'.
Proof.
  intros [[Hko Hkm] Ht Hg Ho Hm Hj] So Sm Sw Et Ei Em Ew.
  destruct (logged_shrink s s' Hg Sm Sw Em Ew) as [Hg' Hgr].
  split; [split; [split| | | | |]|split; [lia| |done]].
  - intros id o Hx. by eapply Hko, lookup_weaken.
  - intros id m Hx. by eapply Hkm, lookup_weaken.
  - intros id o tag Hx. rewrite Et. by eapply Ht, lookup_weaken.
  - done.
  - intros id o Hx. by eapply Ho, lookup_weaken.
  - intros id m Hx. destruct (Hm id m) as [? (i & ? & ?)]; [by eapply lookup_weaken|]. split; [done|]. exists i. by rewrite Ei.
  - intros key j Hx. eapply job_ok_mono; [done..|]. by eapply Hj, lookup_weaken.
  - intros id m Hx. left. exists m. split; [by eapply lookup_weaken|done].
Qed.

Lemma drop_prefix_subseteq {A} (m : gmap string A) prefix : drop_prefix m prefix ⊆ m.
Proof. apply map_filter_subseteq. Qed.

Lemma purge_match_ok k now pending m s :
  sinv k s → sinv k (purge_match now pending s m) ∧ sle k s (purge_match now pending s m).
Proof.
  intros Hs. unfold purge_match. case_match; [|split; [done|apply sle_refl]].
  apply sinv_shrink; simpl; try done; [apply delete_subseteq|apply drop_prefix_subseteq].
Qed.

Lemma purge_offer_ok k now used o s :
  sinv k s → sinv k (purge_offer now used s o) ∧ sle k s (purge_offer now used s o).
Proof.
  intros Hs. destruct (purge_offer_cases now used s o) as [(_ & _ & ->)|[_ ->]]; [|split; [done|apply sle_refl]].
  apply sinv_shrink; simpl; try done. apply delete_subseteq.
Qed.

Lemma set_strikes_ok k x s : sinv k s → sinv k (set_strikes s x) ∧ sle k s (set_strikes s x).
Proof. intros Hs. by apply sinv_shrink. Qed.

End guard.
