(* ===== verification/EdgeSafety.v ===== *)
(** Every interleaving of the edge's requests and watchtower passes: the
    programs of [SwapApi] and [Watchtower] keep the world well-formed and only
    move matches as [MatchLife] says, whatever runs between their steps.

    [triple P p Q]: started in a well-formed world where [P] holds, [p] makes
    only moves of [R] while others do the same, and if it answers [a] then [Q a]
    holds at its end.  A fact another thread cannot undo is [Stable]; what a
    program once read of a match ([known]) is. *)

From Stdlib Require Import Ascii.
From S2P Require Import Prelude Json Threads Chain SwapTerms Bitcoin Script Toy Sighash Htlc Swap Store Matcher Edge SwapApi Watchtower MatchLife StoreGuard.

(** Hex text has no white space around it, and [deserialize_hex] reads the
    transaction its bytes are. *)
Class CodecLaws `{BitcoinLib} : Prop := {
  hex_decode_trim s b : hex_decode s = Some b → trim s = s;
  deserialize_hex_bytes s tx : deserialize_hex s = Some tx →
    ∃ b, hex_decode s = Some b ∧ consensus_deserialize b = inr tx;
}.

(** Amounts are [u64] in the request types. *)
Class BodyLaws `{Bodies} : Prop := {
  new_offer_amount b n : new_offer_from_slice b = inr n → u64 (n_amount_sat n) ∧ u64 (n_price n);
  take_req_amount b t : take_req_from_slice b = inr t → u64 (t_amount_sat t);
}.

(** Ids are never drawn twice. *)
Class FreshIds `{System} : Prop :=
  fresh_id_inj i j id : fresh_id i = inr id → fresh_id j = inr id → i = j.

Section safety.
Context `{BitcoinLib, KeyLib, TextLib, System, ChainReader, Bodies}.
Context `{!CodecLaws, !BodyLaws, !FreshIds}.
Context (sw : Swap).

(** ** The well-formed world *)
Definition polls_ok (w : World) : Prop :=
  NoDup (inflight w) ∧ (length (inflight w) ≤ Nat.max (sw_polls_cap sw) 1)%nat.

Definition quota_ok (w : World) : Prop := map_Forall (λ _ x, 0 ≤ snd x ≤ LOG_LINES_PER_MIN) (quota w).

Record inv (w : World) : Prop := {
  iv_store : sinv (asked w) (store w);
  iv_polls : polls_ok w;
  iv_quota : quota_ok w;
}.

(** ** What may be sent to the network *)

(** The chain showed the output spent, by a transaction not confirmed yet. *)
Definition respent (k : nat) (c : Chain) (f : string * Z) : Prop :=
  gone k c f ∧ ∃ n, (n < k)%nat ∧ spend_confirmed n c (fst f) (snd f) = inr false.

(** [tx] is one of the transactions the job was filed with. *)
Definition variant_of (j : WatchJob) (tx : Transaction) : Prop := ∃ v, v ∈ w_variants j ∧ decode_tx v = Ok tx.

(** The other leg's spend showed the preimage of the match's hashlock. *)
Definition preimage_shown (k : nat) (m : Match) (c : Chain) (p : bytes) : Prop :=
  ∃ n f t spender_hex spender h, (n < k)%nat ∧ funding_of m c = Some f ∧ txid_from_str (fst f) = Some t ∧
    spending_tx_hex n c (fst f) (snd f) = inr (Some spender_hex) ∧ decode_tx spender_hex = Ok spender ∧
    m_hashlock m ≫= match_hashlock = Some h ∧
    revealed_by spender {| txid := t; vout := snd f |} h = Some p.

(** [tx] is a presigned variant finished with the preimage [p], and its
    signature covers the output the chain showed for the job. *)
Definition finished_with (k : nat) (m : Match) (j : WatchJob) (pk ws : string) (sigs : list string) (p : bytes)
    (tx : Transaction) : Prop :=
  ∃ v sig n out spk bp xp, v ∈ w_variants j ∧ sig ∈ sigs ∧
    finish_presigned_redeem {| tx_hex := v; sig_hex := sig; pubkey_hex := pk; witness_script_hex := ws |} p = Ok tx ∧
    (n < k)%nat ∧ txout n (w_chain j) (fst (w_htlc j)) (snd (w_htlc j)) = inr (Some out) ∧
    hex_decode (scriptpubkey_hex out) = Some spk ∧ network_params (t_network (m_terms m)) = Ok (bp, xp) ∧
    signature_covers tx {| value := value_sat out; script_pubkey := spk |}
      (sighash_variant_of (match w_chain j with Xbt => xp | Btc => bp end)) = true.

Definition other_chain (c : Chain) : Chain := match c with Xbt => Btc | Btc => Xbt end.

(** Why a job may send [tx] now. *)
Definition allowed (k : nat) (s : Store) (j : WatchJob) (tx : Transaction) : Prop :=
  match w_kind j with
  | WkRefund => variant_of j tx ∧ ∃ n, (n < k)%nat ∧ w_not_before j ≤ reader_now n
  | WkRedeem =>
      variant_of j tx ∧ ∃ m, m ∈ match_log s ∧ reached k m ∧ m_id m = w_match_id j ∧
      ((∃ n out, (n < k)%nat ∧ txout n (w_chain j) (fst (w_htlc j)) (snd (w_htlc j)) = inr (Some out) ∧
          match w_chain j with Xbt => xbt_confs (m_terms m) | Btc => btc_confs (m_terms m) end ≤ confs out) ∨
       ((∃ p, noted k s j p) ∧ respent k (w_chain j) (w_htlc j)))
  | WkWaitingRedeem pk ws sigs =>
      ∃ m p, m ∈ match_log s ∧ reached k m ∧ m_id m = w_match_id j ∧
        preimage_shown k m (other_chain (w_chain j)) p ∧ finished_with k m j pk ws sigs p tx
  end.

(** [x] was filed with the watchtower and may be sent: it spends the funding
    the job was filed for. *)
Definition sendable (w : World) (x : Chain * string) : Prop :=
  ∃ j t tx i, job_ok (asked w) (store w) j ∧ fst x = w_chain j ∧ snd x = serialize_hex tx ∧
    fst (w_htlc j) = txid_display t ∧ input tx = [i] ∧
    previous_output i = {| txid := t; vout := snd (w_htlc j) |} ∧ allowed (asked w) (store w) j tx.

(** ** Moves of the world *)
Record le (w w' : World) : Prop := {
  le_asked : (asked w ≤ asked w')%nat;
  le_store : sle (asked w') (store w) (store w');
  le_sent : ∃ l, sent w' = sent w ++ l ∧ Forall (sendable w') l;
}.

Definition R (w w' : World) : Prop := inv w → inv w' ∧ le w w'.

Lemma gone_mono k k' c f : (k ≤ k')%nat → gone k c f → gone k' c f.
Proof. intros Hk (n & Hn & Hx). exists n. split; [lia|done]. Qed.

Lemma respent_mono k k' c f : (k ≤ k')%nat → respent k c f → respent k' c f.
Proof. intros Hk [? (n & ? & ?)]. split; [by eapply gone_mono|]. exists n. split; [lia|done]. Qed.

Lemma preimage_shown_mono k k' m c p : (k ≤ k')%nat → preimage_shown k m c p → preimage_shown k' m c p.
Proof. intros Hk (n & f & t & sh & sp & h & Hn & Hx). exists n, f, t, sh, sp, h. split; [lia|done]. Qed.

Lemma finished_with_mono k k' m j pk ws sigs p tx :
  (k ≤ k')%nat → finished_with k m j pk ws sigs p tx → finished_with k' m j pk ws sigs p tx.
Proof.
  intros Hk (v & sig & n & out & spk & bp & xp & ? & ? & ? & ? & ?). exists v, sig, n, out, spk, bp, xp.
  split_and!; try lia; naive_solver.
Qed.

(** What is noted in a job does not matter. *)
Lemma same_job_allowed k s j j' tx : same_job j j' → allowed k s j' tx → allowed k s j tx.
Proof.
  intros (E1 & E2 & E3 & E4 & E5 & E6). unfold allowed, finished_with, noted, output_shown, phone_redeemed, variant_of.
  by rewrite E1, E2, E3, E4, E5, E6.
Qed.

Lemma allowed_mono k k' s s' j tx : (k ≤ k')%nat → log_grows s s' → allowed k s j tx → allowed k' s' j tx.
Proof.
  intros Hk Hg Ha. pose proof Hg as [Hl _]. unfold allowed in *. destruct (w_kind j).
  - destruct Ha as (? & n & Hn & ?). split; [done|]. exists n. split; [lia|done].
  - destruct Ha as (? & m & Hm & Hr & Hid & Hw). split; [done|]. exists m.
    split_and!; [by apply Hl|by eapply reached_mono|done|].
    destruct Hw as [(n & out & Hn & ?)|[[q ?] ?]]; [left|right; split; [exists q; by eapply noted_mono|by eapply respent_mono]].
    exists n, out. split; [lia|done].
  - destruct Ha as (m & p & Hm & Hr & Hid & Hp & Hf). exists m, p.
    split_and!; [by apply Hl|by eapply reached_mono|done|by eapply preimage_shown_mono|by eapply finished_with_mono].
Qed.

Lemma sendable_mono w w' x :
  (asked w ≤ asked w')%nat → log_grows (store w) (store w') → sendable w x → sendable w' x.
Proof.
  intros Hk Hl (j & t & tx & i & Hj & H1' & H2' & H3' & H4' & H5' & Ha). exists j, t, tx, i.
  split_and!; try done; [by eapply job_ok_mono|by eapply allowed_mono].
Qed.

Lemma le_refl w : le w w.
Proof. split; [done|apply sle_refl|]. exists []. by rewrite app_nil_r. Qed.

Lemma le_trans w1 w2 w3 : le w1 w2 → le w2 w3 → le w1 w3.
Proof.
  intros [A1 S1 (l1 & E1 & F1)] [A2 S2 (l2 & E2 & F2)]. split; [lia|..].
  - eapply sle_trans; [by eapply sle_mono|done].
  - exists (l1 ++ l2). rewrite E2, E1, app_assoc. split; [done|]. apply Forall_app. split; [|done].
    eapply Forall_impl; [done|]. intros x. apply sendable_mono; [done|apply S2].
Qed.

Lemma R_refl : reflexive World R.
Proof. intros w Hw. split; [done|apply le_refl]. Qed.
Lemma R_trans : transitive World R.
Proof.
  intros w1 w2 w3 H12 H23 Hw. destruct (H12 Hw) as [Hw2 ?]. destruct (H23 Hw2) as [? ?].
  split; [done|by eapply le_trans].
Qed.

(** ** Facts that stay *)
Class Stable (P : World → Prop) : Prop := stable w w' : inv w → inv w' → le w w' → P w → P w'.

#[export] Instance stable_pure (P : Prop) : Stable (λ _, P).
Proof. by intros w w'. Qed.
#[export] Instance stable_and P Q : Stable P → Stable Q → Stable (λ w, P w ∧ Q w).
Proof. intros HP HQ w w' Hi Hi' Hl [Hp Hq]. split; [exact (HP w w' Hi Hi' Hl Hp)|exact (HQ w w' Hi Hi' Hl Hq)]. Qed.

(** ** Sections *)
Definition sok {E A} (m : Sec E A) (w : World) (Q : A → World → Prop) : Prop :=
  inv (snd (m w)) ∧ le w (snd (m w)) ∧ ∀ a, fst (m w) = Ok a → Q a (snd (m w)).

Lemma sok_bind {E A B} (m : Sec E A) (f : A → Sec E B) w S Q :
  sok m w S → (∀ a w1, inv w1 → le w w1 → S a w1 → sok (f a) w1 Q) → sok (m ≫= f) w Q.
Proof.
  intros (Hi & Hl & HS) Hf. unfold sok, mbind, Sec_bind in *.
  destruct (m w) as [[a|e|] w1]; simpl in *; try (by split_and!).
  destruct (Hf a w1 Hi Hl (HS a eq_refl)) as (Hi2 & Hl2 & HQ). split_and!; [done|by eapply le_trans|done].
Qed.

Lemma sok_ret {E A} (a : A) w Q : inv w → Q a w → sok (E:=E) (mret a) w Q.
Proof. intros Hw Hq. split_and!; [done|apply le_refl|]. by intros ? [= <-]. Qed.
Lemma sok_fail {E A} (e : E) w (Q : A → World → Prop) : inv w → sok (sec_fail e) w Q.
Proof. intros Hw. by split_and!; [|apply le_refl|]. Qed.
Lemma sok_lift {E A B} (r : result E A) (f : A → Sec E B) w Q :
  inv w → (∀ a, r = Ok a → sok (f a) w Q) → sok (sec_lift r ≫= f) w Q.
Proof.
  intros Hw Hf. destruct r as [a|e|]; [by apply (Hf a)|by split_and!; [|apply le_refl|]..].
Qed.
Lemma sok_read {E A B} (g : Store → A) (f : A → Sec E B) w Q :
  sok (f (g (store w))) w Q → sok (sec_read g ≫= f) w Q.
Proof. done. Qed.
Lemma sok_if {E A} (b : bool) (m1 m2 : Sec E A) w Q :
  (b = true → sok m1 w Q) → (b = false → sok m2 w Q) → sok (if b then m1 else m2) w Q.
Proof. destruct b; auto. Qed.

Lemma inv_ask w : inv w → inv (with_asked w (S (asked w))) ∧ le w (with_asked w (S (asked w))).
Proof.
  intros [Hs Hp Hq]. split; [split; [eapply sinv_mono; [|done]; simpl; lia|done..]|].
  split; [simpl; lia|apply sle_refl|]. exists []. by rewrite app_nil_r.
Qed.

Lemma sok_ask {E A B} (g : nat → A) (f : A → Sec E B) w Q :
  inv w →
  (∀ w1, inv w1 → le w w1 → store w1 = store w → asked w1 = S (asked w) → sok (f (g (asked w))) w1 Q) →
  sok (sec_ask g ≫= f) w Q.
Proof.
  intros Hw Hf. destruct (inv_ask w Hw) as [Hi Hl]. apply (sok_bind _ _ _ (λ a w1, a = g (asked w) ∧ w1 = with_asked w (S (asked w)))).
  - split_and!; [done..|]. by intros ? [= <-].
  - intros a w1 Hi1 Hl1 [-> ->]. by apply Hf.
Qed.

Lemma sok_store {E A} (h : string → E) (m : M A) w (Q : A → Store → Prop) :
  inv w → mok (asked w) m (store w) Q →
  sok (sec_store h m) w (λ a w', Q a (store w') ∧ asked w' = asked w).
Proof.
  intros [Hs Hp Hq] (Hi & Hl & HQ). unfold sok, sec_store, exec_M in *. destruct (m (store w)) as [r s]; simpl in *.
  split_and!; [by split|split; [done|done|by exists []; rewrite app_nil_r]|].
  intros a Ha. split; [|done]. apply HQ. by destruct r; simplify_eq/=.
Qed.

(** Doing it last, whatever it answers. *)
Lemma sok_store_last {E A} (h : string → E) (m : M A) w :
  inv w → mok (asked w) m (store w) anything → sok (sec_store h m) w (λ _ _, True).
Proof. intros Hw Hm. destruct (sok_store h m w _ Hw Hm) as (? & ? & _). by split_and!. Qed.

(** Doing it, then the rest. *)
Lemma sok_then {E A B} (h : string → E) (m : M A) (f : A → Sec E B) w Q :
  inv w → mok (asked w) m (store w) anything →
  (∀ a w1, inv w1 → le w w1 → sok (f a) w1 Q) → sok (sec_store h m ≫= f) w Q.
Proof. intros Hw Hm Hf. eapply sok_bind; [by apply sok_store|]. intros a w1 ? ? _. by apply Hf. Qed.

(** ** Programs *)
Definition triple {E A} (P : World → Prop) (p : IO E A) (Q : A → World → Prop) : Prop :=
  ∀ w, inv w → P w → rg R R p w (λ r w', inv w' ∧ ∀ a, r = Ok a → Q a w').

Lemma rg_frame {A} (P : World → Prop) (p : Prog World A) w T :
  Stable P → inv w → P w → rg R R p w T → rg R R p w (λ a w', T a w' ∧ P w').
Proof.
  intros HP. revert w. induction p as [a|f k IH]; intros w Hw Hp; simpl; [done|].
  intros Hr w1 Hw1. destruct (Hw1 Hw) as [Hi1 Hl1]. destruct (Hr w1 Hw1) as [HG Hk].
  destruct (HG Hi1) as [Hi2 Hl2]. split; [done|]. apply IH; [done| |done].
  eapply HP; [exact Hi1|done..|]. by eapply HP; [exact Hw|..].
Qed.

Lemma triple_bind {E A B} P (p : IO E A) (g : A → IO E B) S Q :
  Stable P → triple P p S → (∀ a, triple (λ w, P w ∧ S a w) (g a) Q) → triple P (p ≫= g) Q.
Proof.
  intros HP Hp Hg w Hw HPw. apply rg_bind. eapply rg_mono; [|apply (rg_frame P); eauto].
  simpl. intros [a|e|] w' [[Hi Hs] Hpw]; simpl; [|by split..]. apply Hg; eauto.
Qed.

Lemma triple_weaken {E A} P P' (p : IO E A) (Q Q' : A → World → Prop) :
  triple P p Q → (∀ w, inv w → P' w → P w) → (∀ a w, inv w → Q a w → Q' a w) → triple P' p Q'.
Proof.
  intros Hp HP HQ w Hw HPw. eapply rg_mono; [|by apply Hp; auto]. simpl. intros r w' [Hi Hr]. split; [done|]. eauto.
Qed.

Lemma triple_frame {E A} P (p : IO E A) Q :
  Stable P → triple P p Q → triple P p (λ a w, P w ∧ Q a w).
Proof.
  intros HP Hp w Hw HPw. eapply rg_mono; [|apply (rg_frame P); eauto]. simpl.
  intros r w' [[Hi Hr] Hpw]. split; [done|]. auto.
Qed.

Lemma triple_ret {E A} P (a : A) Q : (∀ w, inv w → P w → Q a w) → triple (E:=E) P (mret a) Q.
Proof. intros HQ w Hw HP. split; [done|]. intros ? [= <-]. auto. Qed.
Lemma triple_fail {E A} P (e : E) (Q : A → World → Prop) : triple P (fail e) Q.
Proof. intros w Hw HP. by split. Qed.
Lemma triple_result {E A} P (r : result E A) (Q : A → World → Prop) :
  (∀ a w, r = Ok a → inv w → P w → Q a w) → triple P (io_lift r) Q.
Proof. intros HQ w Hw HP. split; [done|]. intros a Ha. auto. Qed.
Lemma triple_lift {E A B} P (r : result E A) (f : A → IO E B) Q :
  (∀ a, r = Ok a → triple P (f a) Q) → triple P (io_lift r ≫= f) Q.
Proof. intros Hf. destruct r as [a|e|]; [by apply Hf|by intros w Hw HP; split..]. Qed.

Lemma triple_section {E A} P (m : Sec E A) Q :
  Stable P → (∀ w, inv w → P w → sok m w Q) → triple P (section m) Q.
Proof.
  intros HP Hm w Hw HPw. apply rg_atomically. intros w1 Hw1. destruct (Hw1 Hw) as [Hi1 Hl1].
  destruct (Hm w1 Hi1) as (Hi & Hl & HQ); [by eapply HP; [exact Hw|..]|]. split; [by split|done].
Qed.

(** The first step of a program, and the rest. *)
Lemma triple_read {E A B} P (g : Store → A) (f : A → IO E B) S Q :
  Stable P → (∀ w, inv w → P w → S (g (store w)) w) →
  (∀ a, triple (λ w, P w ∧ S a w) (f a) Q) → triple P (io_read g ≫= f) Q.
Proof.
  intros HP HS Hf. eapply triple_bind; [done| |exact Hf]. apply triple_section; [done|].
  intros w Hw HPw. split_and!; [done|apply le_refl|]. intros ? [= <-]. auto.
Qed.

Lemma triple_look {E A B} P (g : Store → A) (f : A → IO E B) Q :
  Stable P → (∀ a, triple P (f a) Q) → triple P (io_read g ≫= f) Q.
Proof.
  intros HP Hf. apply (triple_read _ _ _ (λ _ _, True)); [done..|].
  intros a. eapply triple_weaken; [apply Hf|tauto|done].
Qed.

#[export] Instance stable_asked n : Stable (λ w, (n < asked w)%nat).
Proof. intros w w' _ _ [? _ _] ?. lia. Qed.

Lemma triple_ask {E A B} P (g : nat → A) (f : A → IO E B) Q :
  Stable P → (∀ n, triple (λ w, P w ∧ (n < asked w)%nat) (f (g n)) Q) → triple P (ask g ≫= f) Q.
Proof.
  intros HP Hf. apply (triple_bind _ _ _ (λ a w, ∃ n, (n < asked w)%nat ∧ a = g n)); [done|..].
  - apply triple_section; [done|]. intros w Hw HPw. destruct (inv_ask w Hw) as [Hi Hl].
    split_and!; [done..|]. intros ? [= <-]. exists (asked w). split; [simpl; lia|done].
  - intros a w Hw [HPw (n & Hn & ->)]. by apply Hf.
Qed.

Lemma triple_try_ask {E A B} P h (g : nat → string + A) (f : A → IO E B) Q :
  Stable P → (∀ n a, g n = inr a → triple (λ w, P w ∧ (n < asked w)%nat) (f a) Q) →
  triple P (try_ask h g ≫= f) Q.
Proof.
  intros HP Hf. unfold try_ask.
  apply (triple_bind _ _ _ (λ a w, ∃ n, (n < asked w)%nat ∧ g n = inr a)); [done|..].
  - apply triple_ask; [done|]. intros n. apply triple_result. intros a w Ha Hw [_ Hn]. exists n.
    destruct (g n); simplify_eq/=. done.
  - intros a w Hw [HPw (n & Hn & Ha)]. by apply (Hf n a Ha).
Qed.

Lemma triple_store {E A B} P h (m : M A) (f : A → IO E B) Q :
  Stable P → (∀ w, inv w → P w → mok (asked w) m (store w) anything) →
  (∀ a, triple P (f a) Q) → triple P (io_store h m ≫= f) Q.
Proof.
  intros HP Hm Hf. apply (triple_bind _ _ _ (λ _ _, True)); [done|..].
  - apply triple_section; [done|]. intros w Hw HPw. apply sok_store_last; auto.
  - intros a. eapply triple_weaken; [apply Hf|tauto|done].
Qed.

Lemma triple_store_last {E A} P h (m : M A) :
  Stable P → (∀ w, inv w → P w → mok (asked w) m (store w) anything) →
  triple (E:=E) P (io_store h m) (λ _ _, True).
Proof. intros HP Hm. apply triple_section; [done|]. intros w Hw HPw. apply sok_store_last; auto. Qed.

Lemma triple_caught {E E' A} P (p : IO E A) Q :
  triple P p Q → triple (E:=E') P (caught p) (λ r w, ∀ a, r = Ok a → Q a w).
Proof.
  intros Hp w Hw HPw. unfold caught. apply rg_bind. eapply rg_mono; [|by apply Hp].
  simpl. intros [a|e|] w' [Hi Hr]; simpl; split; try done; intros ? [= <-]; [by intros ? [= <-]; apply Hr|done].
Qed.

Lemma triple_if {E A} P (b : bool) (p1 p2 : IO E A) Q :
  (b = true → triple P p1 Q) → (b = false → triple P p2 Q) → triple P (if b then p1 else p2) Q.
Proof. destruct b; auto. Qed.

(** Programs with nothing to prove at their end. *)
Definition safe {E A} (P : World → Prop) (p : IO E A) : Prop := triple P p (λ _ _, True).

Lemma safe_bind {E A B} P (p : IO E A) (g : A → IO E B) Q :
  Stable P → safe P p → (∀ a, triple P (g a) Q) → triple P (p ≫= g) Q.
Proof.
  intros HP Hp Hg. eapply triple_bind; [done|exact Hp|]. intros a. eapply triple_weaken; [apply Hg|tauto|done].
Qed.

Lemma safe_weaken {E A} P P' (p : IO E A) : safe P p → (∀ w, inv w → P' w → P w) → safe P' p.
Proof. intros Hp HP. by eapply triple_weaken. Qed.

Lemma safe_ret {E A} P (a : A) : safe (E:=E) P (mret a).
Proof. by apply triple_ret. Qed.

Lemma safe_caught {E E' A} P (p : IO E A) : safe P p → safe (E:=E') P (caught p).
Proof. intros Hp. eapply triple_weaken; [by apply triple_caught|done..]. Qed.

(** A first program that establishes something of its answer alone. *)
Lemma triple_pure {E A B} P (p : IO E A) (g : A → IO E B) (φ : A → Prop) Q :
  Stable P → triple P p (λ a _, φ a) → (∀ a, φ a → triple P (g a) Q) → triple P (p ≫= g) Q.
Proof.
  intros HP Hp Hg. eapply triple_bind; [done|exact Hp|]. intros a w Hw [HPw Ha]. by apply Hg.
Qed.

Lemma triple_caught_pure {E E' A} P (p : IO E A) (φ : A → Prop) :
  triple P p (λ a _, φ a) → triple (E:=E') P (caught p) (λ r _, ∀ a, r = Ok a → φ a).
Proof. apply triple_caught. Qed.

Lemma triple_found {E A B} P (g : Store → A) (f : A → IO E B) (φ : A → Prop) Q :
  Stable P → (∀ w, inv w → φ (g (store w))) → (∀ a, φ a → triple P (f a) Q) → triple P (io_read g ≫= f) Q.
Proof.
  intros HP Hg Hf. eapply (triple_read _ _ _ (λ a _, φ a)); [done|auto|]. intros a w Hw [HPw Ha]. by apply Hf.
Qed.

(** ** What was read of a match *)
Definition known (m : Match) (w : World) : Prop :=
  reached (asked w) m ∧ (m ∈ match_log (store w) ∧ drawn (store w) (m_id m)) ∧
  ∀ cur, matches (store w) !! m_id m = Some cur → rtc (move (asked w)) m cur.

#[export] Instance stable_known m : Stable (known m).
Proof.
  intros w w' Hi Hi' [Ha [Hids Hms [Hlog _]] _] (Hr & (Hm & i & Hd & Hf) & Hc). split_and!.
  - by eapply reached_mono.
  - by apply Hlog.
  - exists i. split; [lia|done].
  - intros cur Hcur. destruct (Hms _ _ Hcur) as [(m1 & Hm1 & Hmv)|(j & Hj & Hfj & _)].
    + etrans; [eapply moves_mono; [done|by apply Hc]|done].
    + rewrite (fresh_id_inj _ _ _ Hf Hfj) in Hd. lia.
Qed.

Lemma known_now w id m : inv w → matches (store w) !! id = Some m → m_id m = id ∧ known m w.
Proof.
  intros Hw Hm. pose proof (proj2 (si_keyed _ _ (iv_store _ Hw)) _ _ Hm) as Hid. split; [done|].
  destruct (si_matches _ _ (iv_store _ Hw) _ _ Hm) as [Hr Hd]. split_and!; [done|by eapply (si_logged _ _ (iv_store _ Hw))|by rewrite Hid|].
  rewrite Hid, Hm. by intros ? [= <-].
Qed.

End safety.
