(* ===== verification/EdgeRoutes.v ===== *)
(** The routes of [SwapApi] keep the world well-formed and move matches only as
    [MatchLife] says, whatever runs between their steps. *)

From Stdlib Require Import Ascii.
From S2P Require Import Prelude Json Threads Chain SwapTerms Bitcoin Script Toy Sighash Htlc Swap Store Matcher Edge SwapApi Watchtower MatchLife StoreGuard EdgeSafety.

(** Steps that need no thought: pure results, reads, questions, branches. *)
Ltac safe_step :=
  match goal with
  | |- safe _ _ _ => unfold safe
  | |- triple _ _ (mret _) (λ _ _, True) => apply safe_ret
  | |- triple _ _ (fail _) _ => apply triple_fail
  | |- triple _ _ (io_lift _) (λ _ _, True) => by apply triple_result
  | |- triple _ _ (io_lift _ ≫= _) _ => apply triple_lift; intros ? ?
  | |- triple _ _ (io_read _ ≫= _) _ => apply triple_look; [apply _|intros ?]
  | |- triple _ _ (ask _ ≫= _) _ => apply triple_ask; [apply _|intros ?]
  | |- triple _ _ (try_ask _ _ ≫= _) _ => apply triple_try_ask; [apply _|intros ? ? ?]
  | |- triple _ _ (if ?b then _ else _) _ =>
      first [apply triple_if; intros ?|destruct b eqn:?]
  | |- triple _ _ (match ?x with _ => _ end) _ => destruct x eqn:?
  | |- triple _ _ (let x := _ in _) _ => cbv zeta
  end.
Ltac safe_steps := repeat safe_step.

Section routes.
Context `{BitcoinLib, KeyLib, TextLib, System, ChainReader, Bodies}.
Context `{!CodecLaws, !BodyLaws, !FreshIds}.
Context (sw : Swap).

Notation safe := (safe sw).
Notation triple := (triple sw).
Notation sok := (sok sw).
Notation inv := (inv sw).
Notation Stable := (Stable sw).

(** A step and the rest, for steps shown safe on their own. *)
Ltac safe_then L := apply safe_bind; [apply _|by apply L|intros ?].

(** ** Small programs *)
Lemma safe_claimed_tag P t : Stable P → safe P (claimed_tag t).
Proof. intros HP. unfold claimed_tag. safe_steps. Qed.

Lemma safe_struck_out P token : Stable P → safe P (struck_out token).
Proof. intros HP. unfold struck_out. safe_steps. Qed.

Lemma safe_open_offers_of P token : Stable P → safe P (open_offers_of token).
Proof.
  intros HP. unfold open_offers_of. safe_steps.
  apply triple_section; [apply _|]. intros w Hw _. split_and!; [done|apply le_refl|done].
Qed.

Lemma safe_offer_created P o secret : Stable P → safe P (offer_created o secret).
Proof. intros HP. unfold offer_created. safe_steps. Qed.

Lemma safe_new_secret P : Stable P → safe P new_secret.
Proof. intros HP. unfold new_secret. safe_steps. Qed.

Lemma safe_pushed P id role body : Stable P → safe P (pushed id role body).
Proof.
  intros HP. unfold pushed, relay_push. apply triple_store; [done| |intros; safe_steps].
  intros w Hw _. apply mok_push_msg, Hw.
Qed.

Lemma safe_relay_if P id role r : Stable P → safe P (relay_if id role r).
Proof. intros HP. destruct r; [by apply safe_pushed|apply safe_ret]. Qed.

(** ** Offers *)
Lemma sok_unused_share_code tries w : inv w → sok (unused_share_code tries) w (λ _ _, True).
Proof.
  revert w. induction tries as [|tries IH]; intros w Hw; simpl; [by apply sok_fail|].
  apply (sok_bind _ _ _ _ (λ _ _, True)).
  - unfold share_code. apply sok_ask; [done|]. intros w1 Hw1 _ _ _. apply sok_lift; [done|]. intros b _.
    by apply sok_ret.
  - intros code w1 Hw1 _ _. apply sok_read. destruct (offer_by_code _ _); [by apply IH|by apply sok_ret].
Qed.

Lemma offer_by_client_elem token c s o : offer_by_client token c s = Some o → ∃ id, offers s !! id = Some o.
Proof.
  unfold offer_by_client. intros ([i o'] & (Hi & _)%list_find_Some & ->)%fmap_Some.
  apply all_offers_elem. by eapply list_elem_of_lookup_2.
Qed.

Lemma sok_make_offer token n client_id tag now expires_in w :
  inv w → u64 (n_amount_sat n) → 0 < n_price n ≤ MAX_PRICE_SAT_PER_XBT →
  sok (make_offer sw token n client_id tag now expires_in) w (λ r _, offer_wf (fst (fst r))).
Proof.
  intros Hw Ha Hp. unfold make_offer. cbv zeta.
  assert (Hmake : ∀ w secret hash, inv w → sok
    (code ← (if n_private n then c ← unused_share_code 8; mret (Some c) else mret None);
     id ← sec_store (λ e, e) (new_id fresh_id);
     let o := {| o_id := id; o_token := token; o_secret_hash := hash; o_direction := n_direction n;
                 o_amount_sat := n_amount_sat n; o_price := n_price n; o_created_at := now;
                 o_expires_at := wrapping_add u64_max now expires_in; o_private := n_private n;
                 o_share_code := code; o_status := Open; o_match_id := None; o_client_id := client_id;
                 o_recovery_tag := tag |} in
     _ ← sec_store (λ e, e) (put_offer o);
     mret (o, secret, true)) w (λ (r : Offer * string * bool) _, offer_wf (fst (fst r)))).
  { intros w1 secret hash Hw1. apply (sok_bind _ _ _ _ (λ _ _, True)).
    - destruct (n_private n); [|by apply sok_ret].
      eapply sok_bind; [by apply sok_unused_share_code|]. intros c w2 Hw2 _ _. by apply sok_ret.
    - intros code w2 Hw2 _ _. apply sok_then; [done|eapply mok_weaken; [apply mok_new_id, Hw2|done]|].
      intros id w3 Hw3 _. cbv zeta. apply sok_then; [done|apply mok_put_offer; [apply Hw3|by split]|].
      intros [] w4 Hw4 _. apply sok_ret; [done|]. by split. }
  destruct client_id as [c|].
  - apply sok_read. destruct (offer_by_client token c (store w)) as [o|] eqn:Ho; [|by apply Hmake].
    apply sok_ret; [done|]. apply offer_by_client_elem in Ho as [id Ho]. by eapply (si_offers _ _ (iv_store _ _ Hw)).
  - unfold sec_new_secret. eapply (sok_bind _ _ _ _ (λ _ _, True)).
    + apply sok_ask; [done|]. intros w1 Hw1 _ _ _. apply sok_lift; [done|]. intros b _. by apply sok_ret.
    + intros x w1 Hw1 _ _. by apply Hmake.
Qed.

Lemma safe_match_rounds P fuel o now : Stable P → offer_wf o → safe P (match_rounds sw fuel o now).
Proof.
  intros HP Ho. revert P HP. induction fuel as [|fuel IH]; intros P HP; cbn [match_rounds]; [apply safe_ret|].
  apply safe_bind; [done| |].
  - apply safe_caught, triple_store_last; [done|].
    intros w Hw _. apply mok_match_locked; [apply Hw|done].
  - intros [[m|]|e|]; safe_steps. by apply IH.
Qed.

Lemma safe_create_offer P fuel req token : Stable P → safe P (create_offer sw fuel req token).
Proof.
  intros HP. unfold create_offer. apply triple_lift. intros n Hn. cbv zeta.
  assert (Hamount : u64 (n_amount_sat n) ∧ u64 (n_price n)).
  { unfold read_json in Hn. destruct (new_offer_from_slice _) as [|n'] eqn:E; simplify_eq/=. by eapply new_offer_amount. }
  apply triple_lift. intros _ _. apply safe_bind; [done| |intros [[o c]|]].
  - destruct (to_ascii_lowercase <$> n_client_id n); safe_steps.
  - by apply safe_offer_created.
  - apply safe_bind; [done|by apply safe_claimed_tag|intros tag].
    apply safe_bind; [done|by apply safe_struck_out|intros out]. apply triple_lift. intros _ _.
    apply safe_bind; [done|by apply safe_open_offers_of|intros open]. apply triple_lift. intros _ _.
    apply triple_lift. intros [] Hprice%bail_if_Ok. apply orb_false_iff in Hprice as [? ?]. zbool.
    do 3 (apply triple_lift; intros _ _). apply triple_ask; [done|intros now_n].
    destruct Hamount as [Ha [Hp _]].
    eapply triple_pure; [apply _|apply triple_caught_pure, triple_section; [apply _|]|].
    + intros w Hw _. apply sok_make_offer; [done..|lia].
    + intros [[[o secret] new_]|e|] Hr; [|apply triple_fail|by apply triple_result].
      specialize (Hr _ eq_refl). apply safe_bind; [apply _| |intros _].
      * destruct (new_ && _); [by apply safe_match_rounds; [apply _|]|apply safe_ret].
      * safe_steps. apply safe_offer_created, _.
Qed.

Lemma safe_get_offer P req id : Stable P → safe P (get_offer req id).
Proof. intros HP. unfold get_offer. safe_steps. Qed.

Lemma sok_quota offer n now w : inv w → sok (sec_quota offer n now) w (λ _ _, True).
Proof.
  intros [Hs Hp Hq]. unfold sok, EdgeSafety.sok, sec_quota. destruct (quota_take offer n now (quota w)) as [ok q] eqn:E. simpl.
  split_and!; [split; [done|done|]|split; [done|apply sle_refl|by exists []; rewrite app_nil_r]|done].
  unfold quota_ok in *. simpl. unfold quota_take in E.
  set (q0 := if 10000 <? _ then _ else _) in E.
  assert (Hq0 : map_Forall (λ _ x, 0 ≤ snd x ≤ LOG_LINES_PER_MIN) q0).
  { unfold q0. destruct (10000 <? _); [intros i x [Hx _]%map_lookup_filter_Some; by eapply Hq|exact Hq]. }
  set (slot := default (now / 60, 0) (q0 !! offer)) in E.
  assert (Hslot : 0 ≤ snd slot ≤ LOG_LINES_PER_MIN).
  { unfold slot. destruct (q0 !! offer) eqn:Ho; simpl; [by eapply Hq0|unfold LOG_LINES_PER_MIN; lia]. }
  set (slot' := if fst slot =? now / 60 then slot else (now / 60, 0)) in E.
  assert (Hslot' : 0 ≤ snd slot' ≤ LOG_LINES_PER_MIN)
    by (unfold slot'; destruct (fst slot =? _); simpl; [done|unfold LOG_LINES_PER_MIN; lia]).
  destruct (LOG_LINES_PER_MIN <? _) eqn:Hlt; simplify_eq; apply map_Forall_insert_2; try done; simpl.
  zbool. unfold saturating_add, u32_max in *. unfold LOG_LINES_PER_MIN in *. lia.
Qed.

Lemma safe_phone_log P req id : Stable P → safe P (phone_log req id).
Proof.
  intros HP. unfold phone_log. safe_steps. apply safe_bind; [apply _| |intros ok; safe_steps].
  apply triple_section; [apply _|]. intros w Hw _. by apply sok_quota.
Qed.

Lemma stored_wf w id o : inv w → offers (store w) !! id = Some o → offer_wf o.
Proof. intros Hw Ho. by eapply (si_offers _ _ (iv_store _ _ Hw)). Qed.

Lemma mok_withdraw w o id :
  inv w → offers (store w) !! id = Some o →
  mok (asked w) (put_offer (refill o (o_amount_sat o) OCancelled (o_match_id o))) (store w) anything.
Proof. intros Hw Ho. pose proof (stored_wf _ _ _ Hw Ho) as [? ?]. apply mok_put_offer; [apply Hw|by split]. Qed.

Lemma safe_cancel_offer P req id : Stable P → safe P (cancel_offer req id).
Proof.
  intros HP. apply triple_section; [done|]. intros w Hw _. apply sok_read. apply sok_lift; [done|].
  intros o Ho%ok_or_Ok. apply sok_lift; [done|intros _ _]. apply sok_lift; [done|intros _ _]. cbv zeta.
  apply sok_then; [done|by eapply mok_withdraw|]. intros [] w1 Hw1 _. apply sok_read. by apply sok_ret.
Qed.

Lemma safe_withdraw_rest P id : Stable P → safe P (withdraw_rest id).
Proof.
  intros HP. apply triple_section; [done|]. intros w Hw _. apply sok_read.
  destruct (offer id (store w)) as [o|] eqn:Ho; [|by apply sok_ret]. case_decide; [|by apply sok_ret].
  apply sok_store_last; [done|by eapply mok_withdraw].
Qed.

(** ** Taking an offer *)
Definition found_wf (o : option Offer) : Prop := ∀ x, o = Some x → offer_wf x.

Lemma found_wf_code code w : inv w → found_wf (offer_by_code code (store w)).
Proof. intros Hw o [id Ho]%offer_by_code_elem. by eapply stored_wf. Qed.
Lemma found_wf_id id w : inv w → found_wf (offer id (store w)).
Proof. intros Hw o Ho. by eapply stored_wf. Qed.

Lemma on_other_chain_u64 d maker a : offer_wf maker → on_other_chain d maker = Ok a → u64 a.
Proof.
  intros [[Ha _] [Hp _]]. unfold on_other_chain, xbt_for_btc, btc_for_xbt, u64, in_range. destruct d.
  - rewrite (proj2 (Z.eqb_neq _ _)) by lia. intros [= <-].
    assert (0 ≤ o_amount_sat maker * 100_000_000 / o_price maker) by (apply Z.div_pos; lia). unfold u64_max. lia.
  - intros [= <-]. assert (0 ≤ o_amount_sat maker * o_price maker / 100_000_000) by (apply Z.div_pos; nia).
    unfold u64_max. lia.
Qed.

Lemma safe_take_code P req code token : Stable P → safe P (take_code sw req code token).
Proof.
  intros HP. unfold take_code. apply triple_lift. intros body _.
  apply safe_bind; [done|by apply safe_claimed_tag|intros tag].
  apply safe_bind; [done|by apply safe_struck_out|intros out]. apply triple_lift. intros _ _. cbv zeta.
  apply (triple_found _ _ _ _ found_wf); [done|by apply found_wf_code|]. intros maker Hmaker.
  apply triple_lift. intros m Hm%ok_or_Ok. specialize (Hmaker _ Hm). apply triple_lift.
  intros amount Hamount%on_other_chain_u64; [|done]. apply triple_ask; [done|intros now].
  apply safe_bind; [apply _|apply safe_caught, safe_new_secret, _|].
  intros [[secret hash]|e|]; [|apply triple_fail|by apply triple_result].
  apply triple_store; [apply _|intros w Hw _; eapply mok_weaken; [apply mok_new_id, Hw|done]|intros id].
  apply triple_store; [apply _|intros w Hw _|intros mt].
  { apply mok_take_private; [apply Hw|]. split; [done|apply Hmaker]. }
  apply safe_bind; [apply _|apply safe_withdraw_rest, _|intros _]. apply safe_ret.
Qed.

Lemma safe_take_offer P req id token : Stable P → safe P (take_offer sw req id token).
Proof.
  intros HP. unfold take_offer. apply triple_lift. intros t Ht.
  assert (Hamount : u64 (t_amount_sat t)).
  { unfold read_json in Ht. destruct (take_req_from_slice _) as [|t'] eqn:E; simplify_eq/=. by eapply take_req_amount. }
  apply triple_lift. intros _ _. destruct (client_secret _ _ _) as [secret hash].
  apply triple_look; [done|intros [o|]]; [safe_steps|].
  apply safe_bind; [done|by apply safe_claimed_tag|intros tag].
  apply safe_bind; [done|by apply safe_struck_out|intros out]. apply triple_lift. intros _ _.
  apply (triple_found _ _ _ _ found_wf); [done|by apply found_wf_id|]. intros maker Hmaker.
  apply triple_lift. intros m Hm%ok_or_Ok. destruct (Hmaker _ Hm) as [_ Hp]. apply triple_ask; [done|intros now].
  do 3 (apply triple_lift; intros _ _). apply triple_lift. intros [] Hprice%bail_if_Ok.
  apply negb_false_iff, Z.eqb_eq in Hprice. cbv zeta. apply triple_lift. intros available _.
  do 3 (apply triple_lift; intros _ _).
  apply triple_store; [apply _|intros w Hw _; eapply mok_weaken; [apply mok_new_id, Hw|done]|intros nid].
  apply triple_store; [apply _|intros w Hw _|intros mt].
  { apply mok_take_public; [apply Hw|]. split; simpl; [done|by rewrite <-Hprice]. }
  apply safe_bind; [apply _|apply safe_withdraw_rest, _|intros _]. apply safe_ret.
Qed.

(** ** Recovery *)
Lemma sok_recover_tag claim tag w : inv w → sok (recover_tag claim tag) w (λ _ _, True).
Proof.
  intros Hw. unfold recover_tag. apply sok_read. apply sok_if; [by intros _; apply sok_ret|intros _].
  apply sok_read. destruct (offer_by_tag _ _) as [o|]; [|by apply sok_ret]. apply sok_read.
  apply (sok_bind _ _ _ _ (λ _ _, True)); [|intros found w1 Hw1 _ _; by apply sok_ret].
  destruct (recover_choice o (store w)) as [m|] eqn:Hc; [|by apply sok_ret]. cbv zeta.
  set (role := if decide (m_initiator_offer m = o_id o) then Initiator else Participant).
  apply (sok_bind _ _ _ _ (λ _ _, True)); [|intros secret w1 Hw1 _ _; by apply sok_ret].
  destruct (own_funded m (o_id o) && claim) eqn:Hf; [|by apply sok_ret].
  apply andb_true_iff in Hf as [Hf%bool_decide_eq_true _].
  apply sok_ask; [done|]. intros w1 Hw1 _ Hst _. apply sok_lift; [done|]. intros b _.
  assert (Hm : matches (store w1) !! m_id m = Some m).
  { rewrite Hst. unfold recover_choice in Hc. apply bind_Some in Hc as (id & _ & Hc).
    by destruct (known_now sw w id m Hw Hc) as [-> _]. }
  apply sok_then; [done|apply (mok_put_match _ m); [apply Hw1|done|]|].
  { apply rtc_once, mv_rekey. unfold role. by case_decide. }
  intros [] w2 Hw2 _. apply sok_then; [done|apply mok_set_secret_hash, Hw2|]. intros [] w3 Hw3 _. by apply sok_ret.
Qed.

Lemma safe_recover P req : Stable P → safe P (recover req).
Proof.
  intros HP. unfold recover. safe_steps. apply safe_bind; [done| |intros found; apply safe_ret].
  apply triple_section; [done|]. intros w Hw _. clear -Hw. rename a1 into tags. revert w Hw.
  induction tags as [|tag tags IH]; intros w Hw; cbn [recover_tags]; [by apply sok_ret|].
  eapply sok_bind; [by apply sok_recover_tag|]. intros v w1 Hw1 _ _.
  eapply sok_bind; [by apply IH|]. intros vs w2 Hw2 _ _. by apply sok_ret.
Qed.

(** ** A match and its messages *)
Lemma triple_authed {B} P req id (f : Match * SwapRole → IO Reply B) Q :
  Stable P → (∀ m r, m_id m = id → triple (λ w, P w ∧ known m w) (f (m, r)) Q) →
  triple P (authed_match req id ≫= f) Q.
Proof.
  intros HP Hf. unfold authed_match.
  apply (triple_bind _ _ _ _ (λ x w, m_id (fst x) = id ∧ known (fst x) w)); [done|..].
  - apply (triple_read _ _ _ _ (λ o w, ∀ m, o = Some m → m_id m = id ∧ known m w)); [done|..].
    + intros w Hw _ m Hm. by apply (known_now sw).
    + intros o. apply triple_result. intros [m r] w (m' & Hm'%ok_or_Ok & Hr)%bind_Ok Hw [_ Hk].
      apply bind_Ok in Hr as (r' & _ & Hr). injection Hr as -> ->. simpl. by apply Hk.
  - intros [m r] w Hw [HPw [Hid Hk]]. by apply (Hf m r Hid).
Qed.

Lemma safe_get_match_route P req id : Stable P → safe P (get_match_route req id).
Proof. intros HP. apply triple_authed; [done|]. intros m r _. apply safe_ret. Qed.

Lemma sok_locked {B} id (f : Match → Sec Reply B) w Q :
  inv w → (∀ m, m_id m = id → matches (store w) !! m_id m = Some m → sok (f m) w Q) →
  sok (locked_match id ≫= f) w Q.
Proof.
  intros Hw Hf. unfold locked_match.
  apply (sok_bind _ _ _ _ (λ m w1, w1 = w ∧ matches (store w) !! id = Some m)).
  - unfold sok, EdgeSafety.sok, mbind, Sec_bind, sec_read, sec_lift, get_match.
    destruct (matches (store w) !! id) as [m|]; simpl; split_and!; try done; try apply le_refl. by intros ? [= <-].
  - intros m w1 _ _ [-> Hm]. destruct (known_now sw w id m Hw Hm) as [Hid _]. apply Hf; [done|by rewrite Hid].
Qed.

Lemma sok_move {B} m m' (f : unit → Sec Reply B) w Q :
  inv w → matches (store w) !! m_id m = Some m → move (asked w) m m' →
  (∀ w1, inv w1 → le w w1 → sok (f tt) w1 Q) → sok (sec_store internal (put_match m') ≫= f) w Q.
Proof.
  intros Hw Hm Hmv Hf. apply sok_then; [done|apply (mok_put_match _ m); [apply Hw|done|by apply rtc_once]|].
  intros []. apply Hf.
Qed.

(** A recording section: it moves the match it found, or leaves it. *)
Ltac recorded m := apply (sok_move m); [done|done| |intros ? ? _; by apply sok_ret].

Lemma sok_on_accept id role w : inv w → sok (on_accept id role) w (λ _ _, True).
Proof.
  intros Hw. apply sok_locked; [done|]. intros m Hid Hm.
  destruct (m_status m) eqn:Hst; try (by apply sok_fail); try (by apply sok_ret). cbv zeta.
  apply sok_if; intros _; [by apply sok_ret|]. apply sok_ask; [done|]. intros w1 Hw1 _ Hs Ha.
  apply sok_if; intros Hby; [by apply sok_fail|]. zbool. rewrite <-Hs in Hm.
  apply (sok_move m); [done..| |intros w2 Hw2 _; by apply sok_ret].
  pose proof (mv_accept (asked w1) m role (asked w) Hst ltac:(lia) Hby) as Hmv. rewrite Hst in Hmv. by destruct role.
Qed.

Lemma sok_on_keys id role xbt btc w : inv w → sok (on_keys id role xbt btc) w (λ _ _, True).
Proof.
  intros Hw. apply sok_locked; [done|]. intros m Hid Hm. apply sok_if; intros Ht; [by apply sok_fail|].
  pose proof (mv_keys (asked w) m role (xbt, btc) Ht) as Hmv.
  destruct role; simpl in Hmv; [destruct (fst (m_keys m))|destruct (snd (m_keys m))];
    try (case_decide; [by apply sok_ret|by apply sok_fail]); recorded m; by apply Hmv.
Qed.

Lemma sok_on_hashlock id h nonce w : inv w → sok (on_hashlock id h nonce) w (λ _ _, True).
Proof.
  intros Hw. apply sok_locked; [done|]. intros m Hid Hm. apply sok_if; intros Ht; [by apply sok_fail|].
  destruct (m_hashlock m) eqn:Hh; [case_decide; [by apply sok_ret|by apply sok_fail]|].
  recorded m. by apply mv_hashlock.
Qed.

Lemma sok_on_release_request id txs w : inv w → sok (on_release_request id txs) w (λ _ _, True).
Proof.
  intros Hw. apply sok_locked; [done|]. intros m Hid Hm. apply sok_if; intros Hr; [by apply sok_fail|].
  apply negb_false_iff in Hr. apply sok_lift; [done|]. intros f _. apply sok_lift; [done|]. intros l _.
  destruct (m_release_txs m) eqn:Ht; [case_decide; [by apply sok_ret|by apply sok_fail]|].
  recorded m. by apply mv_release_txs.
Qed.

Lemma sok_on_release id sigs w : inv w → sok (on_release id sigs) w (λ _ _, True).
Proof.
  intros Hw. apply sok_locked; [done|]. intros m Hid Hm. apply sok_if; intros Hr; [by apply sok_fail|].
  apply negb_false_iff in Hr. destruct (m_release_txs m) as [txs|] eqn:Ht; [|by apply sok_fail].
  apply sok_if; intros Hlen; [by apply sok_fail|]. apply negb_false_iff, Nat.eqb_eq in Hlen.
  destruct (m_release_sigs m) eqn:Hs; [case_decide; [by apply sok_ret|by apply sok_fail]|].
  recorded m. by eapply mv_release_sigs.
Qed.

(** ** Fundings *)

(** The outpoint is recorded for the leg, or the chain showed it pays it. *)
Definition backed (m : Match) (c : Chain) (f : string * Z) (w : World) : Prop :=
  known m w ∧ (funding_of m c = Some f ∨ shown (asked w) m c f).

#[local] Instance stable_shown m c f : Stable (λ w, shown (asked w) m c f).
Proof. intros w w' _ _ [? _ _]. by apply shown_mono. Qed.

#[local] Instance stable_backed m c f : Stable (backed m c f).
Proof.
  intros w w' Hw Hw' Hl [Hk Hf]. split; [exact (stable_known sw m w w' Hw Hw' Hl Hk)|]. destruct Hf as [Hf|Hf]; [by left|right].
  exact (stable_shown m c f w w' Hw Hw' Hl Hf).
Qed.

(** What backs a leg backs it in the match as it is now. *)
Lemma backed_now m c f cur w :
  backed m c f w → matches (store w) !! m_id m = Some cur → shown (asked w) cur c f.
Proof.
  intros [(Hr & _ & Hc) Hf] Hcur. apply Hc in Hcur as Hmv. apply moves_later in Hmv as Hl.
  eapply shown_later; [exact Hl|]. destruct Hf as [Hf|Hf]; [|done]. by apply (ph_shown _ _ (reached_phases _ _ Hr)).
Qed.

Lemma triple_leg_paid P m c htlc :
  Stable P → triple P (leg_paid_on_chain sw m c htlc) (λ _ w, shown (asked w) m c (txid_display (txid htlc), vout htlc)).
Proof.
  intros HP. unfold leg_paid_on_chain. apply triple_lift. intros ws Hws%ok_or_Ok. apply triple_lift. intros _ _.
  apply triple_try_ask; [done|]. intros n out Hout. apply triple_lift. intros o ->%ok_or_Ok.
  apply triple_result. intros [] w Hp%bail_if_Ok Hw [_ Hn]. apply negb_false_iff in Hp.
  exists n, ws, o. done.
Qed.

Lemma triple_record m c htlc by_owner :
  let want := (txid_display (txid htlc), vout htlc) in
  triple (known m) (record_leg_funding sw m c htlc by_owner)
    (λ _ w, ∃ m', known m' w ∧ m_id m' = m_id m ∧ funding_of m' c = Some want).
Proof.
  cbv zeta. unfold record_leg_funding. set (want := (txid_display (txid htlc), vout htlc)).
  destruct (funding_of m c) as [f|] eqn:Hf.
  { case_decide as Hd; [|apply triple_fail]. apply triple_ret. intros w _ Hk. exists m. subst f. done. }
  apply triple_if; intros _; [apply triple_fail|].
  eapply triple_bind; [apply _|by apply triple_caught, triple_leg_paid, _|].
  intros [[]|[]|]; try apply triple_fail; [|by apply triple_result].
  eapply triple_weaken; [apply (triple_section _ (backed m c want)); [apply _|]| |intros ? ? ? Hx; exact Hx].
  2:{ intros w _ [Hk Hs]. split; [done|]. right. exact (Hs tt eq_refl). }
  intros w Hw Hb. apply sok_read. apply sok_lift; [done|]. intros cur Hcur%ok_or_Ok.
  destruct (known_now sw w _ cur Hw Hcur) as [Hid Hk].
  destruct (funding_of cur c) as [g|] eqn:Hg.
  { case_decide; [|by apply sok_fail]. subst g. apply sok_ret; [done|]. eauto. }
  assert (Hmv : move (asked w) cur (m_set_funding cur c want (m_status cur))).
  { apply mv_record; [done|]. by eapply backed_now. }
  assert (Hput : mok (asked w) (put_match (m_set_funding cur c want (m_status cur))) (store w)
    (λ _ s', matches s' !! m_id cur = Some (m_set_funding cur c want (m_status cur)))).
  { rewrite <-Hid in Hcur. destruct (mok_put_match _ cur (m_set_funding cur c want (m_status cur)) (store w) (iv_store _ _ Hw)) as (? & ? & _); [done|by apply rtc_once|].
    split_and!; [done..|]. intros ? _. simpl. apply lookup_insert_eq. }
  destruct (sok_store sw internal _ w _ Hw Hput) as (Hi & Hl & HQ). split_and!; [done..|].
  intros a Ha. destruct (HQ a Ha) as [Hm _].
  destruct (known_now sw _ _ _ Hi Hm) as [_ Hk']. eexists. split; [exact Hk'|]. split; [done|]. by destruct c.
Qed.

Lemma safe_reinstate P id : Stable P → safe P (reinstate_if_funded_in_time sw id).
Proof.
  intros HP. unfold reinstate_if_funded_in_time.
  apply (triple_read _ _ _ _ (λ o w, ∀ m, o = Some m → m_id m = id ∧ known m w)); [done|..].
  { intros w Hw _ m Hm. by apply (known_now sw). }
  intros [m|]; [|apply safe_ret]. eapply (triple_weaken _ (λ w, m_id m = id ∧ known m w)); [|naive_solver|done].
  apply triple_if; intros _; [apply safe_ret|].
  destruct (m_btc_funding m) as [[fund fv]|] eqn:Hb; [|apply safe_ret].
  destruct (m_participant_fund_by m) as [fund_by|] eqn:Hfb; [|apply safe_ret].
  apply triple_if; intros _; [apply safe_ret|]. apply triple_try_ask; [apply _|]. intros n [mined|] Hmined; [|apply safe_ret].
  apply triple_if; intros Hlate; [apply safe_ret|]. zbool.
  apply triple_section; [apply _|]. intros w Hw [[Hid Hk] Hn]. apply sok_read.
  destruct (get_match id (store w)) as [cur|] eqn:Hcur; [|by apply sok_ret].
  apply sok_if; intros He; [by apply sok_ret|]. apply negb_false_iff in He.
  apply sok_if; intros Hf; [by apply sok_ret|]. apply negb_false_iff, bool_decide_eq_true in Hf.
  destruct (known_now sw w id cur Hw Hcur) as [Hcid _].
  assert (Hmv : move (asked w) cur (with_status cur ParticipantFunded None false)).
  { apply fmap_Some in Hf as (f & Hf & ->). eapply mv_reinstate; [done|exact Hf| |by exists n, mined].
    apply (lt_fund_by m cur); [|done]. eapply moves_later, Hk. by rewrite Hid. }
  assert (Hlast : ∀ w1, inv w1 → matches (store w1) = matches (store w) → asked w1 = asked w →
    sok (_ ← sec_store (λ e, e) (put_match (with_status cur ParticipantFunded None false)); mret RDone) w1 (λ _ _, True)).
  { intros w1 Hw1 Hms Ha. apply sok_then; [done|apply (mok_put_match _ cur); [apply Hw1| |]|intros [] w2 Hw2 _; by apply sok_ret].
    - by rewrite Hms, Hcid.
    - rewrite Ha. by apply rtc_once. }
  destruct (m_closed_at cur) as [at_|]; [|by apply Hlast].
  eapply sok_bind; [apply sok_store; [done|apply mok_remove_strike, Hw]|].
  intros [] w1 Hw1 _ [Hms Ha]. by apply Hlast.
Qed.

Lemma safe_late P m htlc relay :
  Stable P → (∀ w, inv w → P w → known m w) → safe P relay → safe P (late_participant_funded sw m htlc relay).
Proof.
  intros HP Hk Hr. unfold late_participant_funded. apply safe_bind; [done| |intros _].
  { eapply triple_weaken; [apply triple_record|done|done]. }
  apply safe_bind; [done|by apply safe_caught, safe_reinstate|intros [[]|e|]]; try done; safe_steps.
Qed.

Lemma sok_on_funded id role out relay m w :
  inv w → m_id m = id → backed m (send_chain_of role) out w → sok (on_funded id role out relay) w (λ _ _, True).
Proof.
  intros Hw Hid Hb. apply sok_locked; [done|]. intros cur Hcid Hcur.
  assert (Hs : shown (asked w) cur (send_chain_of role) out)
    by (eapply backed_now; [done|]; by rewrite Hid, <-Hcid).
  assert (Hput : m_status cur = funded_needs role →
    funding_of cur (send_chain_of role) = None ∨ funding_of cur (send_chain_of role) = Some out →
    sok (_ ← sec_store internal (put_match (m_set_funding cur (send_chain_of role) out (funded_next role)));
         mret (Some relay)) w (λ _ _, True)).
  { intros Hst Hf. apply (sok_move cur); [done|done|by apply mv_funded|]. intros w1 Hw1 _. by apply sok_ret. }
  destruct (funding_of cur (send_chain_of role)) as [e|] eqn:Hf.
  - case_decide as Hd1; [by apply sok_ret|]. case_decide as Hd2; [by apply sok_fail|].
    case_decide as Hd3; [by apply sok_fail|]. subst e. auto.
  - case_decide as Hd3; [by apply sok_fail|]. auto.
Qed.

Lemma safe_post_funded P id role chain tx n : Stable P → safe P (post_funded sw id role chain tx n).
Proof.
  intros HP. unfold post_funded. apply safe_bind; [done|case_decide; safe_steps|intros m0].
  { apply triple_section; [done|]. intros w Hw _. split_and!; [done|apply le_refl|done]. }
  do 2 (apply triple_lift; intros _ _). apply triple_lift. intros t _. cbv zeta.
  set (out := (txid_display t, n)). set (htlc := {| txid := t; vout := n |}).
  apply (triple_bind _ _ _ _ (λ late w, ∀ m, late = Some m → m_id m = id ∧ known m w)); [done|..].
  { case_decide; [|by apply triple_ret].
    apply (triple_read _ _ _ _ (λ o w, ∀ m, o = Some m → m_id m = id ∧ known m w)); [done|..].
    - intros w Hw _ m Hm. by apply (known_now sw).
    - intros [m|]; apply triple_ret; intros w Hw [_ Hk] m'; simpl; [|done]. case_match; [|done]. intros [= <-]. by apply Hk. }
  intros [m|].
  { eapply (triple_weaken _ (λ w, P w ∧ known m w)); [apply safe_late; [apply _|tauto|apply safe_pushed, _]|naive_solver|done]. }
  eapply (triple_weaken _ P); [|tauto|done].
  apply (triple_read _ _ _ _ (λ o w, ∀ m, o = Some m → m_id m = id ∧ known m w)); [done|..].
  { intros w Hw _ m Hm. by apply (known_now sw). }
  intros o. apply triple_lift. intros m ->%ok_or_Ok.
  eapply (triple_weaken _ (λ w, m_id m = id ∧ known m w)); [|naive_solver|done].
  apply (triple_bind _ _ _ _ (λ _ w, backed m (send_chain_of role) out w)); [apply _|..].
  { case_decide as Hf; [apply triple_ret; intros w Hw [_ Hk]; by split; [|left]|].
    case_decide; [apply triple_fail|].
    eapply triple_bind; [apply _|by apply triple_caught, triple_leg_paid, _|].
    intros [[]|why|]; [|apply triple_fail|by apply triple_result].
    apply triple_ret. intros w Hw [[_ Hk] Hs]. split; [done|]. right. exact (Hs tt eq_refl). }
  intros _. apply (safe_bind _ (λ w, (m_id m = id ∧ known m w) ∧ backed m (send_chain_of role) out w)); [apply _|..].
  - apply triple_section; [apply _|]. intros w Hw [[Hid _] Hb]. by eapply sok_on_funded.
  - intros r. apply safe_relay_if, _.
Qed.

Lemma safe_post_decline P id role : Stable P → safe P (post_decline id role).
Proof.
  intros HP. unfold post_decline. apply safe_bind; [done| |intros _; by apply safe_pushed].
  apply triple_section; [done|]. intros w Hw _. apply sok_ask; [done|]. intros w1 Hw1 _ _ _.
  apply sok_store_last; [done|apply mok_on_decline, Hw1].
Qed.

(** A section, then relaying what it says. *)
Lemma safe_recorded P id role (m : Sec Reply (option Value)) :
  Stable P → (∀ w, inv w → sok m w (λ _ _, True)) → safe P (r ← section m; relay_if id role r).
Proof.
  intros HP Hm. apply safe_bind; [done| |intros r; by apply safe_relay_if].
  apply triple_section; [done|]. intros w Hw _. auto.
Qed.

Lemma safe_post_message P req id : Stable P → safe P (post_message sw req id).
Proof.
  intros HP. apply triple_authed; [done|]. intros m role _.
  assert (HP' : Stable (λ w, P w ∧ known m w)) by apply _. set (P' := λ w, P w ∧ known m w) in *.
  do 2 (apply triple_lift; intros ? _). apply triple_look; [done|intros n]. apply triple_lift. intros _ _.
  destruct a0 as [| |xbt btc|hex nonce|c tx v|txs|sigs].
  - by apply safe_recorded; [|intros; apply sok_on_accept].
  - by apply safe_post_decline.
  - destruct (compressed_hex xbt), (compressed_hex btc); try apply triple_fail.
    by apply safe_recorded; [|intros; apply sok_on_keys].
  - unfold post_hashlock. do 3 (apply triple_lift; intros ? _). by apply safe_recorded; [|intros; apply sok_on_hashlock].
  - by apply safe_post_funded.
  - apply triple_lift. intros _ _. by apply safe_recorded; [|intros; apply sok_on_release_request].
  - do 2 (apply triple_lift; intros ? _). by apply safe_recorded; [|intros; apply sok_on_release].
Qed.

(** ** Long polls *)
Lemma sok_enter id role w : inv w → sok (sec_enter sw id role) w (λ _ _, True).
Proof.
  intros [Hs [Hnd Hlen] Hq]. unfold sok, EdgeSafety.sok, sec_enter, try_enter.
  destruct (_ || _) eqn:E; simpl.
  - split_and!; [by split|split; [done|apply sle_refl|by exists []; rewrite app_nil_r]|done].
  - apply orb_false_iff in E as [Hc%Nat.leb_gt Hin%bool_decide_eq_false].
    split_and!; [split; [done|split; simpl; [by apply NoDup_cons|lia]|done]|split; [done|apply sle_refl|by exists []; rewrite app_nil_r]|done].
Qed.

Lemma sok_leave id role w : inv w → sok (sec_leave id role) w (λ _ _, True).
Proof.
  intros [Hs [Hnd Hlen] Hq]. unfold sok, EdgeSafety.sok, sec_leave, leave. simpl.
  split_and!; [split; [done|split; simpl|done]|split; [done|apply sle_refl|by exists []; rewrite app_nil_r]|done].
  - by apply NoDup_filter.
  - etrans; [apply length_filter|done].
Qed.

Lemma safe_relay_wait P id after wakes : Stable P → EdgeSafety.safe sw (E:=Reply) P (relay_wait id after wakes).
Proof.
  intros HP. induction wakes as [|wakes IH]; cbn [relay_wait]; safe_steps. done.
Qed.

Lemma safe_read {E A} P (f : Store → A) : Stable P → EdgeSafety.safe sw (E:=E) P (io_read f).
Proof.
  intros HP. apply triple_section; [done|]. intros w Hw _. split_and!; [done|apply le_refl|done].
Qed.

Lemma safe_poll_messages P wakes req id : Stable P → safe P (poll_messages sw wakes req id).
Proof.
  intros HP. apply triple_authed; [done|]. intros m role _.
  assert (HP' : Stable (λ w, P w ∧ known m w)) by apply _. set (P' := λ w, P w ∧ known m w) in *.
  apply triple_lift. intros after _. apply safe_bind; [done| |intros [|]].
  - apply triple_section; [done|]. intros w Hw _. by apply sok_enter.
  - apply safe_bind; [done| |intros msgs; apply safe_ret].
    apply safe_bind; [done|by apply safe_relay_wait|intros msgs]. apply safe_bind; [done| |intros _; apply safe_ret].
    apply triple_section; [done|]. intros w Hw _. by apply sok_leave.
  - apply safe_bind; [done|by apply safe_read|intros msgs; apply safe_ret].
Qed.

(** ** Watch jobs *)
Lemma safe_watch_route P req : Stable P → safe P (watch_route sw req).
Proof.
  intros HP. unfold watch_route. apply triple_lift. intros wr _. apply triple_authed; [done|]. intros m role _.
  apply triple_lift. intros c _. apply triple_lift. intros kind _. cbv zeta. apply triple_lift. intros _ _.
  apply triple_lift. intros t _. apply triple_lift. intros [] Hv%bail_if_Ok. apply triple_lift. intros [] Hall%bail_if_Ok.
  apply orb_false_iff in Hv as [Hv%bool_decide_eq_false _]. apply negb_false_iff in Hall.
  eapply (triple_weaken _ (known m)); [|tauto|done]. eapply triple_bind; [apply _|apply triple_record|]. intros [].
  set (want := (txid_display _, vout _)).
  set (P' := λ w, ∃ m', m' ∈ match_log (store w) ∧ reached (asked w) m' ∧ m_id m' = m_id m ∧ funding_of m' c = Some want).
  assert (HP' : Stable P').
  { intros w w' _ _ [? [_ _ [Hlog _]] _] (m' & Hm' & Hr & Hx). exists m'.
    split_and!; [by apply Hlog|by eapply reached_mono|apply Hx..]. }
  eapply (triple_weaken _ P'); [| |done].
  2:{ intros w _ [_ (m' & (Hr & [Hm' _] & _) & Hx)]. by exists m'. }
  apply safe_bind; [done| |intros _].
  { destruct (_ && _); [|apply safe_ret]. apply safe_bind; [done|by apply safe_caught, safe_reinstate|intros _; apply safe_ret]. }
  apply triple_store; [done| |intros _; apply safe_ret]. intros w Hw (m' & Hm' & Hr & Hid & Hf).
  apply mok_put_watch; [apply Hw|by left|done|]. exists m', t. split_and!; try done.
  apply Forall_forall. intros v Hin. rewrite forallb_forall in Hall. by apply Hall, list_elem_of_In.
Qed.

(** ** Reading the book *)
Lemma safe_not_struck_out P l : Stable P → safe P (not_struck_out l).
Proof.
  intros HP. induction l as [|o l IH]; cbn [not_struck_out]; [apply safe_ret|].
  apply safe_bind; [done|by apply safe_struck_out|intros out]. apply safe_bind; [done|done|intros ?]. apply safe_ret.
Qed.

Lemma safe_book_side P token now d : Stable P → safe P (book_side token now d).
Proof.
  intros HP. unfold book_side. apply triple_look; [done|intros l].
  apply safe_bind; [done|by apply safe_not_struck_out|intros l']. by apply triple_result.
Qed.

Lemma safe_book P token : Stable P → safe P (book token).
Proof.
  intros HP. unfold book. apply triple_ask; [done|intros n]. do 2 (apply safe_bind; [apply _|apply safe_book_side, _|intros ?]).
  apply safe_ret.
Qed.

Lemma safe_quote P reference : Stable P → safe P (quote sw reference).
Proof. intros HP. unfold quote. safe_steps. Qed.

(** ** Every request *)
Lemma safe_route P reference fuel wakes req method path token :
  Stable P → safe P (route sw reference fuel wakes req method path token).
Proof.
  intros HP. unfold route.
  pose proof (safe_quote P reference HP). pose proof (safe_book P token HP). pose proof (safe_create_offer P fuel req token HP).
  pose proof (λ id, safe_get_offer P req id HP). pose proof (λ id, safe_phone_log P req id HP).
  pose proof (λ id, safe_take_offer P req id token HP). pose proof (λ id, safe_cancel_offer P req id HP).
  pose proof (λ code, safe_take_code P req code token HP). pose proof (safe_recover P req HP).
  pose proof (λ id, safe_get_match_route P req id HP). pose proof (λ id, safe_post_message P req id HP).
  pose proof (λ id, safe_poll_messages P wakes req id HP). pose proof (safe_watch_route P req HP).
  pose proof (safe_ret sw (E:=Reply) P (err 404 "no such route")).
  unfold EdgeSafety.safe in *. destruct (split _ _) as [|root parts]; [done|]. destruct (negb _); [done|].
  destruct parts as [|a [|b [|c [|]]]], method; try done; repeat (apply triple_if; intros _); auto.
Qed.

End routes.
