(* ===== verification/EdgeTower.v ===== *)
(** The watchtower's pass keeps the world well-formed and moves matches only as
    [MatchLife] says, and what it sends to the network is always a spend of a
    recorded funding that it was allowed to send ([sendable]). *)

From S2P Require Import Prelude Json Threads Chain SwapTerms Bitcoin Script Toy Sighash Htlc Swap Store Matcher Edge SwapApi Watchtower MatchLife StoreGuard EdgeSafety EdgeRoutes.

(** ** Picking a variant *)

(** Keeping, at each element, one of it and the best so far. *)
Lemma fold_best {A} (le : A → A → Prop) (f : option A → A → option A) (l : list A) acc :
  Reflexive le → Transitive le →
  (∀ x, f None x = Some x) →
  (∀ b x, ∃ c, f (Some b) x = Some c ∧ (c = b ∨ c = x) ∧ le c b ∧ le c x) →
  match foldl f acc l with
  | Some c => (acc = Some c ∨ c ∈ l) ∧ (∀ b, acc = Some b → le c b) ∧ Forall (le c) l
  | None => acc = None ∧ l = []
  end.
Proof.
  intros Hr Ht Hn Hs. revert acc. induction l as [|x l IH]; intros acc; simpl.
  { destruct acc; [|done]. split_and!; [by left| |constructor]. by intros ? [= <-]. }
  specialize (IH (f acc x)). destruct (foldl f (f acc x) l) as [c|].
  - destruct IH as (Hin & Hle & Hall). destruct acc as [b|].
    + destruct (Hs b x) as (d & Hd & Hor & Hb & Hx). rewrite Hd in *. specialize (Hle d eq_refl).
      split_and!; [|intros ? [= <-]; by etrans|constructor; [by etrans|done]].
      destruct Hin as [[= ->]|?]; [|right; by right]. destruct Hor as [->| ->]; [by left|right; left].
    + rewrite Hn in *. specialize (Hle x eq_refl). split_and!; [|done|by constructor].
      destruct Hin as [[= ->]|?]; right; [left|by right].
  - destruct IH as [IH _]. destruct acc as [b|]; [destruct (Hs b x) as (d & Hd & _)|]; congruence.
Qed.

Section variants.
Context `{BitcoinLib}.

Lemma min_by_key_spec {A} (key : A → Z) l :
  match min_by_key key l with
  | Some c => c ∈ l ∧ Forall (λ x, key c ≤ key x) l
  | None => l = []
  end.
Proof.
  pose proof (fold_best (λ a b, key a ≤ key b)
    (λ acc x, match acc with Some b => if key b <=? key x then Some b else Some x | None => Some x end) l None) as Hf.
  unfold min_by_key. case_match; [destruct Hf as ([|] & _ & ?)|apply Hf]; try done.
  all: try (intros x; lia); try (intros x y z; lia).
  all: intros b x; destruct (key b <=? key x) eqn:E; zbool; eexists; split_and!; eauto; lia.
Qed.

Lemma max_by_key_spec {A} (key : A → Z) l :
  match max_by_key key l with
  | Some c => c ∈ l ∧ Forall (λ x, key x ≤ key c) l
  | None => l = []
  end.
Proof.
  pose proof (fold_best (λ a b, key b ≤ key a)
    (λ acc x, match acc with Some b => if key b <=? key x then Some x else Some b | None => Some x end) l None) as Hf.
  unfold max_by_key. case_match; [destruct Hf as ([|] & _ & ?)|apply Hf]; try done.
  all: try (intros x; lia); try (intros x y z; lia).
  all: intros b x; destruct (key b <=? key x) eqn:E; zbool; eexists; split_and!; eauto; lia.
Qed.

Lemma pick_variant_elem {E} txs v rate tx : pick_variant (E:=E) txs v rate = Ok tx → tx ∈ txs.
Proof.
  unfold pick_variant. intros Hp%expect_Ok.
  pose proof (min_by_key_spec (λ tx, fee tx v) (filter (λ tx, meets v rate tx = true) txs)) as Hmin.
  pose proof (max_by_key_spec (λ tx, fee tx v) txs) as Hmax.
  destruct (min_by_key _ _); simplify_eq.
  - destruct Hmin as [Hin _]. by apply list_elem_of_filter in Hin as [_ ?].
  - rewrite Hp in Hmax. apply Hmax.
Qed.

(** ** Spends of an outpoint *)
Definition spends (op : OutPoint) (tx : Transaction) : Prop := ∃ i, input tx = [i] ∧ previous_output i = op.

Context `{!CodecLaws}.

Lemma spends_htlc_decode op v tx : spends_htlc op v = true → decode_tx v = Ok tx → spends op tx.
Proof.
  unfold spends_htlc, decode_tx. destruct (hex_decode v) as [b|] eqn:Hv; [|done].
  rewrite (hex_decode_trim _ _ Hv), Hv. simpl. destruct (consensus_deserialize b) as [|tx']; [done|].
  destruct (input tx') as [|i [|]] eqn:Hi; try done. intros Hp%bool_decide_eq_true [= <-]. by exists i.
Qed.

Lemma decode_all_elem vs txs tx : decode_all vs = Ok txs → tx ∈ txs → ∃ v, v ∈ vs ∧ decode_tx v = Ok tx.
Proof.
  intros (txs' & Hc & Hb)%bind_Ok. apply bind_Ok in Hb as ([] & _ & [= <-]). apply collect_Ok in Hc.
  intros Hin. induction Hc as [|v x vs xs Hd _ IH]; [by apply elem_of_nil in Hin|].
  apply elem_of_cons in Hin as [->|Hin]; [exists v; split; [by left|done]|].
  destruct (IH Hin) as (v' & ? & ?). exists v'. split; [by right|done].
Qed.

Lemma finish_spends op p pre tx :
  spends_htlc op (tx_hex p) = true → finish_presigned_redeem p pre = Ok tx →
  spends op tx ∧ ∃ i sig pk ws, input tx = [i] ∧ witness i = redeem_witness sig pk pre ws.
Proof.
  unfold finish_presigned_redeem, spends_htlc. intros Hs Hf.
  apply bind_Ok in Hf as (tx0 & Htx%ok_or_Ok & Hf).
  destruct (deserialize_hex_bytes _ _ Htx) as (b & Hb & Hd). rewrite Hb, Hd in Hs.
  destruct (input tx0) as [|i [|]] eqn:Hi; try done. apply bool_decide_eq_true in Hs.
  apply bind_Ok in Hf as (sig & _ & Hf). apply bind_Ok in Hf as (pk & _ & Hf). apply bind_Ok in Hf as (ws & _ & Hf).
  apply bind_Ok in Hf as ([] & _ & Hf). apply bind_Ok in Hf as ([] & _ & Hf).
  unfold set_witness in Hf. rewrite Hi in Hf. injection Hf as <-. simpl. split; [|by eauto 8].
  eexists. split; [done|]. done.
Qed.

End variants.

Section tower.
Context `{BitcoinLib, KeyLib, TextLib, System, ChainReader, Bodies}.
Context `{!CodecLaws, !BodyLaws, !FreshIds}.
Context (sw : Swap).

Notation triple := (triple sw).
Notation sok := (sok sw).
Notation inv := (inv sw).
Notation Stable := (Stable sw).

(** ** Jobs *)

Notation good_job j := (λ w, job_ok (asked w) (store w) j).

#[local] Instance stable_job j : Stable (good_job j).
Proof. intros w w' _ _ [? [_ _ ?] _]. by apply job_ok_mono. Qed.
#[local] Instance stable_respent c f : Stable (λ w, respent (asked w) c f).
Proof. intros w w' _ _ [? _ _]. by apply respent_mono. Qed.
#[local] Instance stable_gone c f : Stable (λ w, gone (asked w) c f).
Proof. intros w w' _ _ [? _ _]. by apply gone_mono. Qed.

(** Writing a job with other notes. *)
Lemma safe_put_job P j :
  Stable P → (∀ w, inv w → P w → job_ok (asked w) (store w) j) → safe sw P (put_job j).
Proof.
  intros HP Hj. apply triple_store_last; [done|]. intros w Hw HPw. destruct (Hj w Hw HPw) as (? & ? & ?).
  apply mok_put_watch; [apply Hw|by right|done..].
Qed.

Lemma job_done_ok k s j : job_ok k s j → job_ok k s (job_done j).
Proof. intros (? & Hp & ?). split_and!; [by eapply (same_job_filed _ j)|exact Hp|by eapply (same_job_spend_ok _ _ j)]. Qed.

Lemma job_sent_ok k s j p :
  job_ok k s j → noted k s j p → job_ok k s (job_sent j p).
Proof.
  intros (? & _ & ?) Hp. split_and!; [by eapply (same_job_filed _ j)| |by eapply (same_job_spend_ok _ _ j)].
  by intros q [= <-].
Qed.

(** The phone's own spend is looked for on behalf of a redeem of the BTC leg
    only. *)
Lemma triple_phone_sent_redeem P j :
  Stable P → triple P (phone_sent_redeem j) (λ r w, ∀ out, r = Some out →
    phone_redeemed (asked w) (store w) j (value_sat out, scriptpubkey_hex out)).
Proof.
  intros HP. set (Q := λ (r : option TxOutInfo) (w : World), _).
  assert (Hnone : ∀ P, triple P (mret (M:=IO string) None) Q) by (intros P'; apply triple_ret; by intros w _ _ ?).
  unfold phone_sent_redeem. destruct (w_chain j) eqn:Hc, (w_kind j) eqn:Hk; try apply Hnone.
  apply (triple_read _ _ _ _ (λ o w, ∀ m, o = Some m → m_id m = w_match_id j ∧ known m w)); [apply _|..].
  { intros w Hw _ m Hm. by apply (known_now sw). }
  intros [m|]; [|by apply Hnone]. destruct (m_hashlock m) as [hl|] eqn:Hhl; [|by apply Hnone].
  destruct (leg_witness_script m Btc) as [ws|] eqn:Hws; [|by apply Hnone].
  eapply (triple_weaken _ (λ w, m_id m = w_match_id j ∧ known m w)); [|naive_solver|intros ? ? ? Hx; exact Hx].
  apply triple_try_ask; [apply _|]. intros n [hex|] Hsp; [|by apply Hnone].
  apply triple_lift. intros t Ht%ok_or_Ok. destruct (match_hashlock hl) as [h|] eqn:Hh; [|by apply Hnone].
  apply triple_lift. intros spender Hdec. destruct (revealed_by spender _ h) as [x|] eqn:Hx; [|by apply Hnone].
  apply triple_ret. intros w Hw [[Hid (_ & [Hm _] & _)] Hn] out [= <-]. split; [done|]. split; [done|].
  exists n, m, ws, t, hex, spender, h, x. rewrite Hhl. by split_and!.
Qed.

(** What a job sees: its output unspent, or spent by what is not confirmed. *)
Definition saw (j : WatchJob) (r : option (WatchJob * TxOutInfo * bool)) (w : World) : Prop :=
  ∀ j' out resend, r = Some (j', out, resend) → job_ok (asked w) (store w) j' ∧
    if resend then
      w_sent_prevout j' = Some (value_sat out, scriptpubkey_hex out) ∧ respent (asked w) (w_chain j') (w_htlc j')
    else ∃ n, (n < asked w)%nat ∧ txout n (w_chain j') (fst (w_htlc j')) (snd (w_htlc j')) = inr (Some out).

#[local] Instance stable_saw j r : Stable (saw j r).
Proof.
  intros w w' Hw Hw' [Ha [_ _ Hl] _] Hs j' out' resend' E. destruct (Hs j' out' resend' E) as [Hj Hx].
  split; [by eapply job_ok_mono|].
  destruct resend'; [split; [apply Hx|by eapply respent_mono; [|apply Hx]]|].
  destruct Hx as (i & ? & ?). exists i. split; [lia|done].
Qed.

Lemma triple_job_prevout j : triple (good_job j) (job_prevout j) (saw j).
Proof.
  unfold job_prevout. apply triple_try_ask; [apply _|]. intros n [out|] Ho.
  { apply triple_ret. intros w Hw [Hj Hn] j' out' resend [= <- <- <-]. split; [done|]. eauto. }
  apply triple_try_ask; [apply _|]. intros n' confirmed_ Hc.
  apply triple_if; intros Hb; subst confirmed_.
  { apply safe_bind; [apply _|apply safe_put_job; [apply _|]; intros w _ [[? _] _]; by apply job_done_ok|].
    intros _. apply triple_ret. by intros w _ _ ? ? ?. }
  eapply (triple_weaken _ (λ w, job_ok (asked w) (store w) j ∧ respent (asked w) (w_chain j) (w_htlc j)));
    [|intros w _ [[? ?] ?]; split; [done|split; [by exists n|by exists n']]|intros ? ? ? Hx; exact Hx].
  destruct (w_sent_prevout j) as [[v spk]|] eqn:Hsp.
  { apply triple_ret. intros w Hw [Hj Hg] j' out' resend [= <- <- <-]. done. }
  eapply triple_bind; [apply _|by apply triple_phone_sent_redeem; apply _|]. intros [p|].
  - cbv zeta. eapply (triple_weaken _ (λ w, job_ok (asked w) (store w) (job_sent j (value_sat p, scriptpubkey_hex p)) ∧
      respent (asked w) (w_chain j) (w_htlc j))); [| |intros ? ? ? Hx; exact Hx].
    2:{ intros w _ [[Hj Hg] Hp]. split; [|done]. apply job_sent_ok; [done|]. right. by apply Hp. }
    apply safe_bind; [apply _|apply safe_put_job; [apply _|]; by intros w _ [? _]|].
    intros _. apply triple_ret. by intros w Hw [Hj Hg] j' out' resend [= <- <- <-].
  - apply triple_ret. by intros w _ _ ? ? ?.
Qed.

(** Transactions a job may send. *)
Definition ready (j : WatchJob) (r : option (list Transaction)) (w : World) : Prop :=
  ∀ txs, r = Some txs → Forall (λ tx, ∃ t, fst (w_htlc j) = txid_display t ∧
    spends {| txid := t; vout := snd (w_htlc j) |} tx ∧ allowed (asked w) (store w) j tx) txs.

#[local] Instance stable_ready j r : Stable (ready j r).
Proof.
  intros w w' Hw Hw' [Ha [_ _ Hl] _] Hs txs E. eapply Forall_impl; [by apply Hs|].
  intros tx (t & ? & ? & ?). exists t. split_and!; [done..|by eapply allowed_mono].
Qed.

(** What a filed variant is. *)
Lemma job_ok_spends k s j txs tx :
  job_ok k s j → decode_all (w_variants j) = Ok txs → tx ∈ txs →
  variant_of j tx ∧ ∃ t, fst (w_htlc j) = txid_display t ∧ spends {| txid := t; vout := snd (w_htlc j) |} tx.
Proof.
  intros (_ & _ & m & t & _ & _ & _ & _ & Ht & _ & Hall) Hd Hin.
  destruct (decode_all_elem _ _ _ Hd Hin) as (v & Hv & Hdec). split; [by exists v|]. exists t. split; [done|].
  rewrite Forall_forall in Hall. by eapply spends_htlc_decode; [apply Hall|].
Qed.

(** The output a presigned redeem is signed against was shown by the chain. *)
Lemma saw_output k s j out (resend : bool) :
  job_ok k s j → w_kind j ≠ WkRedeem →
  (if resend then w_sent_prevout j = Some (value_sat out, scriptpubkey_hex out) ∧ respent k (w_chain j) (w_htlc j)
   else ∃ n, (n < k)%nat ∧ txout n (w_chain j) (fst (w_htlc j)) (snd (w_htlc j)) = inr (Some out)) →
  ∃ n out', (n < k)%nat ∧ txout n (w_chain j) (fst (w_htlc j)) (snd (w_htlc j)) = inr (Some out') ∧
    value_sat out = value_sat out' ∧ scriptpubkey_hex out = scriptpubkey_hex out'.
Proof.
  intros (_ & Hp & _) Hk. destruct resend; [|naive_solver]. intros [Hs _].
  destruct (Hp _ Hs) as [(n & out' & ? & ? & [= ? ?])|[? _]]; [|done]. eauto 6.
Qed.

Lemma finish_variants_elem vs sigs pk ws p prevout variant tx :
  tx ∈ finish_variants vs sigs pk ws p prevout variant →
  signature_covers tx prevout variant = true ∧ ∃ v sig, v ∈ vs ∧ sig ∈ sigs ∧
    finish_presigned_redeem {| tx_hex := v; sig_hex := sig; pubkey_hex := pk; witness_script_hex := ws |} p = Ok tx.
Proof.
  intros [Hcov Hin]%list_elem_of_filter. split; [done|]. apply list_elem_of_omap in Hin as ([v sig] & Hz & Hfin).
  exists v, sig. split_and!; [by eapply elem_of_zip_l|by eapply elem_of_zip_r|].
  by destruct (finish_presigned_redeem _ p); simplify_eq/=.
Qed.

Lemma waiting_ready j pk ws sigs out resend :
  w_kind j = WkWaitingRedeem pk ws sigs →
  triple (saw j (Some (j, out, resend))) (waiting_txs j pk ws sigs out) (ready j).
Proof.
  intros Hkind.
  assert (Hnone : ∀ P, triple P (mret (M:=IO string) None) (ready j)) by (intros P; apply triple_ret; by intros w _ _ ?).
  unfold waiting_txs.
  apply (triple_read _ _ _ _ (λ o w, ∀ m, o = Some m → m_id m = w_match_id j ∧ known m w)); [apply _|..].
  { intros w Hw _ m Hm. by apply (known_now sw). }
  intros [m|]; [|by apply Hnone].
  eapply (triple_weaken _ (λ w, saw j (Some (j, out, resend)) w ∧ m_id m = w_match_id j ∧ known m w));
    [|naive_solver|intros ? ? ? Hx; exact Hx].
  cbv zeta. fold (other_chain (w_chain j)).
  destruct (funding_of m (other_chain (w_chain j))) as [[otxid ovout]|] eqn:Hf; [|by apply Hnone].
  apply triple_try_ask; [apply _|]. intros n [spender_hex|] Hsp; [|by apply Hnone].
  apply triple_lift. intros spender Hdec. apply triple_lift. intros t Ht%ok_or_Ok.
  destruct (m_hashlock m ≫= match_hashlock) as [h|] eqn:Hh; [|by apply Hnone].
  destruct (revealed_by spender _ h) as [p|] eqn:Hp; [|by apply Hnone].
  apply triple_lift. intros [bp xp] Hnet. cbv zeta. apply triple_lift. intros spk Hspk%ok_or_Ok.
  apply triple_lift. intros _ _.
  apply triple_lift. intros _ _. apply triple_ret. intros w Hw [[Hsaw [Hid (Hr & [Hm _] & _)]] Hn] txs [= <-].
  destruct (Hsaw j out resend eq_refl) as [Hj Hx].
  assert (Hnet' : network_params (t_network (m_terms m)) = Ok (bp, xp)).
  { clear -Hnet. unfold map_err in Hnet. by destruct (network_params _); simplify_eq. }
  destruct (saw_output _ _ _ _ _ Hj ltac:(congruence) Hx) as (n' & out' & Hn' & Hout' & Hv' & Hs').
  pose proof Hj as (_ & _ & m' & t' & _ & _ & _ & _ & Ht' & _ & Hall).
  apply Forall_forall. intros tx (Hcov & v & sig & Hv & Hsig & Hfin)%finish_variants_elem. pose proof Hfin as Hfin'.
  rewrite Forall_forall in Hall. eapply finish_spends in Hfin as [Hspends _]; [|exact (Hall v Hv)].
  exists t'. split_and!; [done..|]. unfold allowed. rewrite Hkind. exists m, p. split_and!; [done..| |].
  - exists n, (otxid, ovout), t, spender_hex, spender, h. done.
  - exists v, sig, n', out', spk, bp, xp. rewrite <-Hv', <-Hs'. by split_and!.
Qed.

Lemma triple_job_txs j out resend n :
  triple (λ w, (n < asked w)%nat ∧ saw j (Some (j, out, resend)) w) (job_txs j out resend (reader_now n)) (ready j).
Proof.
  assert (Hnone : ∀ P, triple P (mret (M:=IO string) None) (ready j)) by (intros P; apply triple_ret; by intros w _ _ ?).
  unfold job_txs. destruct (w_kind j) as [| |pk ws sigs] eqn:Hkind.
  - apply triple_if; intros Hb; [by apply Hnone|]. zbool. apply triple_lift. intros txs Htxs. apply triple_ret.
    intros w Hw (Hn & Hs) txs' [= <-]. destruct (Hs j out resend eq_refl) as [Hj _]. apply Forall_forall. intros tx Hin.
    destruct (job_ok_spends _ _ _ _ _ Hj Htxs Hin) as (Hv & t & ? & ?). exists t. split_and!; [done..|].
    unfold allowed. rewrite Hkind. eauto.
  - apply (triple_read _ _ _ _ (λ o w, ∀ m, o = Some m → m_id m = w_match_id j ∧ known m w)); [apply _|..].
    { intros w Hw _ m Hm. by apply (known_now sw). }
    intros [m|]; [|by apply Hnone]. cbv zeta. apply triple_if; intros Hb; [by apply Hnone|].
    apply triple_lift. intros txs Htxs. apply triple_ret. intros w Hw [[Hn Hs] Hk] txs' [= <-].
    destruct (Hk m eq_refl) as [Hid (Hr & [Hm _] & _)]. destruct (Hs j out resend eq_refl) as [Hj Hx].
    apply Forall_forall. intros tx Hin.
    destruct (job_ok_spends _ _ _ _ _ Hj Htxs Hin) as (Hv & t & ? & ?). exists t. split_and!; [done..|].
    unfold allowed. rewrite Hkind. split; [done|]. exists m. split_and!; [done..|].
    destruct resend; [right|left].
    { destruct Hx as [Es Hx]. split; [|done]. eexists. by apply Hj. }
    destruct Hx as (i & Hi & Hx).
    simpl in Hb. zbool. by exists i, out.
  - eapply triple_weaken; [by apply (waiting_ready j pk ws sigs out resend)|tauto|done].
Qed.

Lemma sok_broadcast c hex w :
  inv w → sendable w (c, hex) → sok (sec_broadcast c hex) w (λ _ _, True).
Proof.
  intros Hw Hs. destruct (inv_ask sw w Hw) as [[Hi1 Hi2 Hi3] [Ha Hst _]].
  unfold sok, EdgeSafety.sok, sec_broadcast. simpl. split_and!; [by split|split; [done|done|]|done].
  exists [(c, hex)]. split; [done|]. constructor; [|done]. eapply sendable_mono; [..|exact Hs]; [simpl; lia|done].
Qed.

Lemma safe_run_job j n : safe sw (λ w, job_ok (asked w) (store w) j ∧ (n < asked w)%nat) (run_job j (reader_now n)).
Proof.
  unfold run_job. apply (triple_bind _ _ _ _ (saw j)); [apply _|eapply triple_weaken; [apply triple_job_prevout|tauto|done]|].
  intros [[[j' out] resend]|]; [|apply safe_ret].
  eapply (triple_weaken _ (λ w, (n < asked w)%nat ∧ saw j' (Some (j', out, resend)) w)); [| |done].
  2:{ intros w Hw [[_ Hn] Hs]. split; [done|]. intros ? ? ? [= <- <- <-]. by apply (Hs _ _ _ eq_refl). }
  apply (triple_bind _ _ _ _ (ready j')); [apply _|apply triple_job_txs|].
  intros [txs|]; [|apply safe_ret].
  apply triple_ask; [apply _|intros n']. cbv zeta. apply triple_lift. intros tx Htx%pick_variant_elem.
  eapply (triple_weaken _ (λ w, saw j' (Some (j', out, resend)) w ∧ ready j' (Some txs) w)); [|tauto|done].
  apply safe_bind; [apply _| |intros sent].
  { apply triple_section; [apply _|]. intros w Hw [Hs Hready]. destruct (Hs _ _ _ eq_refl) as [Hj _].
    apply sok_broadcast; [done|].
    specialize (Hready txs eq_refl). rewrite Forall_forall in Hready. destruct (Hready tx Htx) as (t & Ht & (i & Hi & Hp) & Hall).
    exists j', t, tx, i. done. }
  apply triple_lift. intros _ _. case_decide as Hnew; [|apply safe_ret].
  apply safe_put_job; [apply _|]. intros w Hw [Hs _]. destruct (Hs _ _ _ eq_refl) as [Hj Hx].
  apply job_sent_ok; [done|left]. destruct resend; [destruct Hx as [Hx _]; congruence|].
  destruct Hx as (i & ? & ?). exists i, out. done.
Qed.

Lemma safe_each {A} P (f : A → IO string unit) l :
  Stable P → Forall (λ a, safe sw P (f a)) l → safe sw P (each f l).
Proof.
  intros HP. induction 1 as [|a l Ha _ IH]; cbn [each]; [apply safe_ret|].
  apply safe_bind; [done|by apply safe_caught|intros _; done].
Qed.

Lemma watch_jobs_elem s j : j ∈ watch_jobs s ↔ ∃ key, watch s !! key = Some j.
Proof.
  unfold watch_jobs. rewrite list_elem_of_fmap. split.
  - intros ([key j'] & -> & Hx%scan_all_elem). eauto.
  - intros [key Hx]. exists (key, j). by rewrite scan_all_elem.
Qed.

#[local] Instance stable_jobs l : Stable (λ w, Forall (job_ok (asked w) (store w)) l).
Proof. intros w w' _ _ [? [_ _ ?] _] Hl. eapply Forall_impl; [done|]. intros j. by apply job_ok_mono. Qed.

Lemma safe_run_jobs n : safe sw (λ w, (n < asked w)%nat) (run_jobs (reader_now n)).
Proof.
  unfold run_jobs. apply (triple_read _ _ _ _ (λ l w, Forall (job_ok (asked w) (store w)) l)); [apply _|..].
  { intros w Hw _. apply Forall_forall. intros j [_ [key Hj]%watch_jobs_elem]%list_elem_of_filter.
    by eapply (si_jobs _ _ (iv_store _ _ Hw)). }
  intros jobs. apply safe_each; [apply _|]. apply Forall_forall. intros j Hj.
  eapply safe_weaken; [apply safe_run_job|]. intros w Hw [Hn Hall]. rewrite Forall_forall in Hall. auto.
Qed.

(** ** The participant's clock *)
Lemma safe_start_clock m n :
  safe sw (λ w, known m w ∧ (n < asked w)%nat) (start_participant_clock m (reader_now n)).
Proof.
  unfold start_participant_clock. destruct (m_xbt_funding m) as [[tx v]|] eqn:Hf; [|apply safe_ret].
  destruct (leg_witness_script m Xbt) as [ws|] eqn:Hws; [|apply safe_ret].
  apply triple_try_ask; [apply _|]. intros n' [out|] Hout; [|apply safe_ret].
  apply triple_if; intros Hb; [apply safe_ret|]. apply orb_false_iff in Hb as [Hpays%negb_false_iff Hconfs]. zbool.
  cbv zeta. apply safe_bind; [apply _| |intros [|]; [|apply safe_ret]].
  - apply triple_section; [apply _|]. intros w Hw [[Hk Hn] Hn']. apply sok_read.
    destruct (get_match (m_id m) (store w)) as [cur|] eqn:Hcur; [|by apply sok_ret].
    destruct (_ || _) eqn:Hg; [by apply sok_ret|]. rewrite !orb_false_iff, !bool_decide_eq_false in Hg.
    destruct Hg as [[Hst Hfb] Hxf]. apply dec_stable in Hst, Hfb, Hxf.
    destruct (known_now sw w _ cur Hw Hcur) as [Hid _]. pose proof (proj2 (proj2 Hk) _ Hcur) as Hmv.
    apply moves_later in Hmv as Hl.
    apply sok_then; [done|apply (mok_put_match _ cur); [apply Hw|by rewrite Hid|]|intros [] w1 Hw1 _; by apply sok_ret].
    apply rtc_once. rewrite <-(lt_terms _ _ Hl). eapply mv_clock; [done|done|by rewrite Hxf| |done].
    eapply confirmed_later; [exact Hl|]. exists n', ws, out. split_and!; done.
  - unfold relay_push. apply triple_store; [apply _|intros w Hw _; apply mok_push_msg, Hw|intros _; apply safe_ret].
Qed.

(** ** Closing *)
#[local] Instance stable_all_gone (legs : list (Chain * (string * Z))) :
  Stable (λ w, Forall (λ x, gone (asked w) (fst x) (snd x)) legs).
Proof. intros w w' _ _ [? _ _] Hl. eapply Forall_impl; [done|]. intros j. by apply gone_mono. Qed.

Lemma triple_all_spent P legs :
  Stable P → triple P (all_spent legs)
    (λ r w, r = true → Forall (λ x, gone (asked w) (fst x) (snd x)) legs).
Proof.
  revert P. induction legs as [|[c [tx v]] legs IH]; intros P HP; cbn [all_spent]; [apply triple_ret; by constructor|].
  apply triple_try_ask; [done|]. intros n [out|] Ho; [by apply triple_ret|].
  eapply triple_weaken; [apply (triple_frame _ (λ w, P w ∧ (n < asked w)%nat)); [apply _|apply IH, _]|done|].
  intros r w _ [[_ Hn] Hall] Hr. constructor; [by exists n|auto].
Qed.

Lemma funded_legs_elem m c f : (c, f) ∈ funded_legs m ↔ funding_of m c = Some f.
Proof.
  unfold funded_legs. rewrite list_elem_of_omap. split.
  - intros (c' & _ & (f' & Hf & [= -> ->])%fmap_Some). done.
  - intros Hf. exists c. rewrite Hf. split; [destruct c; set_solver|done].
Qed.

Lemma safe_close_if_spent P m now : Stable P → safe sw P (close_if_spent m now).
Proof.
  intros HP. unfold close_if_spent. apply triple_if; intros Hst; [apply safe_ret|].
  apply negb_false_iff, bool_decide_eq_true in Hst. apply triple_if; intros _; [apply safe_ret|].
  eapply triple_bind; [done|by apply triple_all_spent|]. intros [|]; [|apply safe_ret]. cbn [negb].
  apply (safe_weaken _ (λ w, Forall (λ x, gone (asked w) (fst x) (snd x)) (funded_legs m))); [|intros w _ [_ Hx]; by apply Hx].
  apply triple_section; [apply _|]. intros w Hw Hg. apply sok_read.
  destruct (get_match (m_id m) (store w)) as [cur|] eqn:Hcur; [|by apply sok_ret].
  destruct (_ || _) eqn:Hb; [by apply sok_ret|]. rewrite !orb_false_iff, !bool_decide_eq_false in Hb.
  destruct Hb as [[Hs Hx] Hbt]. apply dec_stable in Hs, Hx, Hbt. destruct (known_now sw w _ cur Hw Hcur) as [Hid _].
  apply sok_store_last; [done|apply (mok_put_match _ cur); [apply Hw|by rewrite Hid|]].
  apply rtc_once, mv_close; [by rewrite Hs|]. intros c f Hf.
  assert (Hin : (c, f) ∈ funded_legs m) by (apply funded_legs_elem; destruct c; simpl in *; congruence).
  rewrite Forall_forall in Hg. by apply (Hg (c, f)).
Qed.

(** ** The pass *)
Lemma safe_modify P (f : Store → Store) :
  Stable P → (∀ w, inv w → P w → sinv (asked w) (f (store w)) ∧ sle (asked w) (store w) (f (store w))) →
  safe sw P (io_store (E:=string) (λ e, e) (modify f)).
Proof.
  intros HP Hf. apply triple_store_last; [done|]. intros w Hw HPw. destruct (Hf w Hw HPw). by apply mok_modify.
Qed.

Lemma safe_purge_pass P now : Stable P → safe sw P (purge_pass now).
Proof.
  intros HP. unfold purge_pass. apply triple_look; [done|intros pending]. apply triple_look; [done|intros ms].
  apply safe_bind; [done|apply safe_each; [done|]|intros _].
  { apply Forall_forall. intros m _. apply safe_modify; [done|]. intros w Hw _. apply purge_match_ok, Hw. }
  apply triple_look; [done|intros used]. apply triple_look; [done|intros os].
  apply safe_bind; [done|apply safe_each; [done|]|intros _].
  { apply Forall_forall. intros o _. apply safe_modify; [done|]. intros w Hw _. apply purge_offer_ok, Hw. }
  apply safe_modify; [done|]. intros w Hw _. apply set_strikes_ok, Hw.
Qed.

#[local] Instance stable_all_known ms : Stable (λ w, Forall (λ m, known m w) ms).
Proof.
  intros w w' Hw Hw' Hl Hall. eapply Forall_impl; [exact Hall|]. intros m.
  exact (stable_known sw m w w' Hw Hw' Hl).
Qed.

Lemma all_known w : inv w → Forall (λ m, known m w) (all_matches (store w)).
Proof. intros Hw. apply Forall_forall. intros m [id Hm]%all_matches_elem. by apply (known_now sw w id m). Qed.

Lemma safe_run_once P : Stable P → safe sw P (run_once sw).
Proof.
  intros HP. unfold run_once. apply triple_ask; [done|intros n].
  eapply (triple_weaken _ (λ w, (n < asked w)%nat)); [|tauto|done].
  apply safe_bind; [apply _|apply safe_run_jobs|intros _].
  apply safe_bind; [apply _|apply safe_modify; [apply _|]|intros _].
  { intros w Hw Hn. apply tick_ok; [apply Hw|done]. }
  apply triple_store; [apply _|intros w Hw _; apply mok_rematch, Hw|intros _].
  apply (triple_read _ _ _ _ (λ ms w, Forall (λ m, known m w) ms)); [apply _|intros w Hw _; by apply all_known|].
  intros ms. apply safe_bind; [apply _|apply safe_each; [apply _|]|intros _].
  { apply Forall_forall. intros m Hm. apply triple_if; intros _; [|apply safe_ret].
    eapply safe_weaken; [apply safe_start_clock|]. intros w Hw [Hn Hall]. rewrite Forall_forall in Hall. auto. }
  apply triple_look; [apply _|intros ms']. apply safe_bind; [apply _|apply safe_each; [apply _|]|intros _].
  { apply Forall_forall. intros m _. apply safe_close_if_spent, _. }
  apply safe_purge_pass, _.
Qed.

End tower.
