(* ===== verification/EdgeRuns.v ===== *)
(** What holds of the edge however its requests and watchtower passes
    interleave.

    A run is a pool of programs that take steps in any order, new requests and
    passes joining at any time.  It starts in the empty world.  [EdgeRoutes] and
    [EdgeTower] show what each program guarantees; here are the consequences
    for the world. *)

From S2P Require Import Prelude Json Threads Chain SwapTerms Bitcoin Script Toy Sighash Htlc Swap Store Matcher Edge SwapApi Watchtower MatchLife StoreGuard EdgeSafety EdgeRoutes EdgeTower.

Section runs.
Context `{BitcoinLib, KeyLib, TextLib, System, ChainReader, Bodies}.
Context (sw : Swap).

(** A program whose answer goes back to its caller. *)
Definition served {A} (p : Prog World A) : Prog World unit := prog_bind p (λ _, Done tt).

Inductive edge_program : Prog World unit → Prop :=
| a_request reference fuel wakes req method path token :
    edge_program (served (route sw reference fuel wakes req method path token))
| a_pass : edge_program (served (run_once sw)).

(** [ps] still running, in the world [w]. *)
Definition running (ps : list (Prog World unit)) (w : World) : Prop :=
  pool_reach edge_program ([], empty_world) (ps, w).

(** From there on. *)
Definition goes_on (ps : list (Prog World unit)) (w : World) (ps' : list (Prog World unit)) (w' : World) : Prop :=
  pool_reach edge_program (ps, w) (ps', w').

Context `{!CodecLaws, !BodyLaws, !FreshIds}.

Lemma empty_inv : inv sw empty_world.
Proof.
  split; [split|split|].
  - apply empty_keyed.
  - apply empty_keyed.
  - by split; intros ? ?.
  - by intros ? ?.
  - by intros ? ?.
  - by intros ? ?.
  - constructor.
  - simpl. lia.
  - by intros ? ?.
Qed.

Lemma served_safe {E A} (p : IO E A) w : inv sw w → safe sw (λ _, True) p → rg (R sw) (R sw) (served p) w (λ _ _, True).
Proof. intros Hw Hp. apply rg_bind. eapply rg_mono; [|by apply Hp]. done. Qed.

Lemma edge_program_safe p w : edge_program p → inv sw w → rg (R sw) (R sw) p w (λ _ _, True).
Proof.
  intros [reference fuel wakes req method path token|] Hw; apply served_safe; try done.
  - apply safe_route, _.
  - apply safe_run_once, _.
Qed.

Lemma pool_inv ps w ps' w' :
  inv sw w → Forall (λ p, rg (R sw) (R sw) p w (λ _ _, True)) ps → goes_on ps w ps' w' →
  inv sw w' ∧ le w w' ∧ Forall (λ p, rg (R sw) (R sw) p w' (λ _ _, True)) ps'.
Proof.
  intros Hw Hps Hgo.
  destruct (pool_moves (inv sw) (R sw) edge_program ps w ps' w') as [HR Hps']; try done.
  - apply R_refl.
  - apply R_trans.
  - intros w1 w2 H1' H2'. by apply H2'.
  - apply edge_program_safe.
  - by destruct (HR Hw).
Qed.

Lemma running_inv ps w : running ps w → inv sw w ∧ Forall (λ p, rg (R sw) (R sw) p w (λ _ _, True)) ps.
Proof. intros Hr. by destruct (pool_inv _ _ _ _ empty_inv (Forall_nil_2 _) Hr) as (? & _ & ?). Qed.

Lemma goes_on_le ps w ps' w' : running ps w → goes_on ps w ps' w' → inv sw w ∧ inv sw w' ∧ le w w'.
Proof.
  intros [Hw Hps]%running_inv Hgo. by destruct (pool_inv _ _ _ _ Hw Hps Hgo) as (? & ? & _).
Qed.

(** What is stored now came from what was stored then. *)
Lemma match_origin ps w ps' w' id m' :
  running ps w → goes_on ps w ps' w' → matches (store w') !! id = Some m' →
  match matches (store w) !! id with
  | Some m => reached (asked w') m ∧ rtc (move (asked w')) m m'
  | None => reached (asked w') m'
  end.
Proof.
  intros Hr Hgo Hm. destruct (goes_on_le _ _ _ _ Hr Hgo) as (Hw & Hw' & [Ha [Hids Hms _] _]).
  destruct (Hms _ _ Hm) as [(m & Hm0 & Hmv)|(i & Hi & Hf & Hre)].
  - rewrite Hm0. split; [|done]. eapply reached_mono; [done|]. by eapply (si_matches _ _ (iv_store _ _ Hw)).
  - destruct (matches (store w) !! id) as [m|] eqn:Hm0; [|done].
    destruct (si_matches _ _ (iv_store _ _ Hw) _ _ Hm0) as [_ (j & Hj & Hfj)].
    rewrite (fresh_id_inj _ _ _ Hf Hfj) in Hi. lia.
Qed.

(** C8. Under every interleaving of requests and watchtower passes, a match
    changes only by the moves of the match's life: what is stored under an id
    later came from what was stored under it before by such moves, each made
    under its guard with the answers of the chain and the clock the guard asks
    for; a match that was not there before is a new one that made such moves. *)
Theorem edge_refines_match_life ps w ps' w' id m' :
  running ps w → goes_on ps w ps' w' → matches (store w') !! id = Some m' →
  match matches (store w) !! id with
  | Some m => rtc (move (asked w')) m m'
  | None => ∃ m0, newborn m0 ∧ rtc (move (asked w')) m0 m'
  end.
Proof.
  intros Hr Hgo Hm. pose proof (match_origin _ _ _ _ _ _ Hr Hgo Hm) as Ho. case_match; [by destruct Ho|done].
Qed.

(** A match never takes anything back, however the requests and passes
    interleave: its terms, parties and amounts are fixed; an acceptance, a
    side's keys, the hashlock, a leg's funding, the participant's deadline and a
    release are set at most once; and its phase only goes forward, the one way
    out of being cancelled being a reinstatement after its participant's
    deadline was missed. *)
Theorem edge_match_history ps w ps' w' id m m' :
  running ps w → goes_on ps w ps' w' →
  matches (store w) !! id = Some m → matches (store w') !! id = Some m' →
  later m m' ∧ may_follow (m_status m) (m_missed_participant_deadline m) (m_status m') = true.
Proof.
  intros Hr Hgo Hm Hm'. pose proof (match_origin _ _ _ _ _ _ Hr Hgo Hm') as Ho. rewrite Hm in Ho.
  destruct Ho as [Hre Hmv]. split; [by eapply moves_later|by eapply moves_follow].
Qed.

(** A release is final: once a match has its release signatures it is
    cancelled at every later time, with the same release transactions and
    signatures, so it is never reinstated or funded on the BTC side. *)
Theorem edge_release_final ps w ps' w' id m m' sigs :
  running ps w → goes_on ps w ps' w' →
  matches (store w) !! id = Some m → matches (store w') !! id = Some m' → m_release_sigs m = Some sigs →
  m_status m' = MCancelled ∧ m_release_sigs m' = Some sigs ∧ m_release_txs m' = m_release_txs m ∧
  ∃ txs, m_release_txs m = Some txs ∧ length sigs = length txs.
Proof.
  intros Hr Hgo Hm Hm' Hs. pose proof (match_origin _ _ _ _ _ _ Hr Hgo Hm') as Ho. rewrite Hm in Ho.
  destruct Ho as [Hre Hmv]. destruct (released_stays _ _ _ _ Hre Hmv Hs) as (? & ? & ?). split_and!; [done..|].
  by destruct (ph_released _ _ (reached_phases _ _ Hre) sigs Hs) as (_ & _ & ?).
Qed.

(** In every reachable world every match is in order for its phase.
    Above all, a recorded funding is one the chain showed to pay exactly the
    match's script and amount on that leg.  A match past its proposal was
    accepted by both sides; an initiator-funded, participant-funded or closed
    one has its XBT funding, a participant-funded one both; the participant's
    deadline runs only once the chain showed the XBT leg with the agreed
    confirmations, and is the one computed from the terms. *)
Theorem edge_match_phases ps w id m :
  running ps w → matches (store w) !! id = Some m → m_id m = id ∧ phases (asked w) m.
Proof.
  intros [Hw _]%running_inv Hm. destruct (known_now sw w id m Hw Hm) as [Hid [Hre _]].
  split; [done|by apply reached_phases].
Qed.

(** Every reachable world is well-formed: each offer and match is stored
    under its id, every offer has an amount that fits [u64] and a price from 1
    to the maximum, every offer holds its recovery tag, no match and role waits
    in two long polls, at most the allowed number wait at once, and no offer is
    over its log lines of the minute. *)
Theorem edge_world_wf ps w :
  running ps w →
  keyed (store w) ∧ book_wf (store w) ∧ tags_ok (store w) ∧ NoDup (inflight w) ∧
  (length (inflight w) ≤ Nat.max (sw_polls_cap sw) 1)%nat ∧ map_Forall (λ _ x, 0 ≤ snd x ≤ 300) (quota w).
Proof.
  intros [[[Hk Ht _ Ho _ _] [Hnd Hlen] Hq] _]%running_inv. split_and!; try done.
  intros id o Hoo. split; [by apply Hk|by eapply Ho].
Qed.

(** C9. What the watchtower hands to the network is always a spend it was
    given for a swap: it comes from a job as a request filed it, which is in the
    store's history; the output the job is about is the funding recorded for
    that leg of its match, which the chain showed to pay that leg, and the
    transaction's one input spends it.  A refund is one of the job's variants,
    sent once its time has come.  A redeem is one of its variants, sent when the
    output is unspent with the confirmations agreed on, or when the output is
    spent by what is not yet confirmed and the watchtower has either seen the
    output itself before or seen a spend of it that reveals the match's
    preimage.  A presigned redeem is one of its variants finished with the
    preimage that a spend of the match's other leg revealed, and its signature
    covers the output the chain showed. *)
Theorem edge_sends_only_spends ps w c hex :
  running ps w → (c, hex) ∈ sent w →
  ∃ j m t tx i,
    (j ∈ watch_log (store w) ∧ fresh_job j) ∧
    (m ∈ match_log (store w) ∧ reached (asked w) m ∧ m_id m = w_match_id j) ∧
    w_chain j = c ∧ funding_of m c = Some (w_htlc j) ∧ shown (asked w) m c (w_htlc j) ∧
    hex = serialize_hex tx ∧ fst (w_htlc j) = txid_display t ∧ input tx = [i] ∧
    previous_output i = {| txid := t; vout := snd (w_htlc j) |} ∧ allowed (asked w) (store w) j tx.
Proof.
  intros Hr Hin. destruct (pool_inv _ _ _ _ empty_inv (Forall_nil_2 _) Hr) as (_ & [_ _ (l & Hl & Hall)] & _).
  rewrite Hl in Hin. rewrite Forall_forall in Hall.
  destruct (Hall _ Hin) as (j & t & tx & i & ((j0 & Hj0 & Hfr & Hsame) & _ & m & t' & Hm & Hre & Hid & Hf & _) & Hc & Hx & Ht & Hi & Hp & Ha).
  apply (same_job_allowed _ _ _ _ _ Hsame) in Ha. destruct Hsame as (E1 & E2 & _ & E4 & _).
  simpl in Hc, Hx. rewrite <-Hc in Hf. rewrite E1 in Hid. rewrite E2 in Hc. rewrite E4 in Hf, Ht, Hp.
  exists j0, m, t, tx, i. split_and!; try done. by apply (ph_shown _ _ (reached_phases _ _ Hre)).
Qed.

End runs.
