(* ===== verification/EdgeClaims.v ===== *)
(** Behaviour of single routes and of the watchtower's choices: who is let in,
    replays, the end of the matching loop, which transaction is sent, what
    counts as a swap's spend, and what reaches the log. *)

From Stdlib Require Import Ascii.
From S2P Require Import Prelude Json Threads Chain SwapTerms Bitcoin Script Toy Sighash Htlc Swap Store Matcher Edge SwapApi Watchtower MatchLife StoreGuard EdgeSafety EdgeRoutes EdgeTower.

(** ** Owner secrets *)
(** The comparison in constant time is equality. *)
Lemma ct_eq_iff a b : length a = length b → ct_eq a b = true ↔ a = b.
Proof. intros Hlen. unfold ct_eq. rewrite Z.eqb_eq. by apply no_diffs. Qed.

(** ** Log lines *)
Definition printable (n : Z) : Prop := 32 ≤ n ≤ 126.

Lemma hex_digits_printable fuel n acc : Forall printable acc → Forall printable (hex_digits fuel n acc).
Proof.
  revert n acc. induction fuel as [|fuel IH]; intros n acc Hacc; cbn [hex_digits]; [done|].
  assert (Hd : Forall printable ((if n mod 16 <? 10 then 48 + n mod 16 else 87 + n mod 16) :: acc)).
  { constructor; [|done]. pose proof (Z.mod_pos_bound n 16 ltac:(lia)). unfold printable. case_match; lia. }
  destruct (n <? 16); [done|by apply IH].
Qed.

Lemma log_char_printable c : Forall printable (log_char c).
Proof.
  unfold log_char. destruct (is_control c); [repeat constructor; unfold printable; lia|].
  destruct ((32 <=? c) && (c <=? 126)) eqn:E.
  - apply andb_true_iff in E as [? ?]. zbool. repeat constructor; unfold printable; lia.
  - apply Forall_app. split; [repeat constructor; unfold printable; lia|]. apply Forall_app.
    split; [apply hex_digits_printable; constructor|repeat constructor; unfold printable; lia].
Qed.

Lemma code_char_of n : 0 ≤ n < 256 → code (char_of n) = n.
Proof. intros Hn. unfold code, char_of. rewrite Ascii.N_ascii_embedding by lia. lia. Qed.

Lemma string_of_codes (l : list Z) :
  Forall printable l →
  String.length (String.string_of_list_ascii (map char_of l)) = length l ∧
  all_chars (between 32 126) (String.string_of_list_ascii (map char_of l)) = true.
Proof.
  unfold all_chars. rewrite String.list_ascii_of_string_of_list_ascii.
  induction 1 as [|n l Hn _ [IH1 IH2]]; [done|]. unfold printable in Hn. simpl. rewrite IH1, IH2. split; [done|].
  unfold between. rewrite code_char_of by lia. rewrite andb_true_r. apply andb_true_iff. split; apply Z.leb_le; lia.
Qed.

(** What a phone sends for the journal reaches it as at most fifty lines of
    at most three hundred printable ASCII characters, whatever the body holds:
    no control character or escape gets through. *)
Theorem log_lines_printable body ls :
  log_lines body = Ok ls →
  (length ls ≤ 50)%nat ∧
  Forall (λ l, (String.length l ≤ 300)%nat ∧ all_chars (between 32 126) l = true) ls.
Proof.
  intros (arr & _ & Hl)%bind_Ok. apply bind_Ok in Hl as ([] & Hlen%bail_if_Ok & Hc).
  apply Nat.ltb_ge in Hlen. apply collect_Ok in Hc. split.
  - rewrite <-(Forall2_length _ _ _ Hc). exact Hlen.
  - clear Hlen. induction Hc as [|x l arr ls Hx _ IH]; constructor; [|done].
    apply bind_Ok in Hx as (t & _ & [= <-]). unfold log_line.
    set (cs := take LOG_MAX_CHARS _).
    assert (Hp : Forall printable cs).
    { apply Forall_take. apply Forall_forall. intros n (c & Hn & _)%list_elem_of_bind.
      pose proof (log_char_printable c) as Hc'. rewrite Forall_forall in Hc'. by apply Hc'. }
    destruct (string_of_codes cs Hp) as [-> ->]. split; [|done]. unfold cs. rewrite length_take. unfold LOG_MAX_CHARS. lia.
Qed.

Section claims.
Context `{BitcoinLib, KeyLib, TextLib, System, ChainReader, Bodies}.
Context (sw : Swap).

(** A caller has a role in a match exactly when SHA-256 of the 32-byte
    secret it presents is that side's stored hash: the constant-time comparison
    lets nobody else in, and the initiator is looked at first. *)
Theorem role_in_exact req m h :
  presented_hash req = Some h → length h = 32%nat →
  length (m_initiator_secret_hash m) = 32%nat → length (m_participant_secret_hash m) = 32%nat →
  role_in req m = if decide (h = m_initiator_secret_hash m) then Some Initiator
                  else if decide (h = m_participant_secret_hash m) then Some Participant else None.
Proof.
  intros Hh Hl Hi Hp. unfold role_in. rewrite Hh. simpl.
  pose proof (ct_eq_iff h (m_initiator_secret_hash m) ltac:(congruence)) as Ei.
  pose proof (ct_eq_iff h (m_participant_secret_hash m) ltac:(congruence)) as Ep.
  case_decide; [by rewrite (proj2 Ei)|]. destruct (ct_eq h (m_initiator_secret_hash m)); [tauto|].
  case_decide; [by rewrite (proj2 Ep)|]. destruct (ct_eq h (m_participant_secret_hash m)); [tauto|done].
Qed.

(** The reply of a route, returned early or at its end. *)
Definition answer (r : result Reply Reply) : option Reply :=
  match r with Ok a | Err a => Some a | Panic => None end.

(** What a private request is about, and the hashes whose secrets let one in. *)
Inductive Subject : Type := AMatch (id : string) | AnOffer (id : string).

Definition keys_of (x : Subject) (s : Store) : list bytes :=
  match x with
  | AMatch id => from_option (λ m, [m_initiator_secret_hash m; m_participant_secret_hash m]) [] (get_match id s)
  | AnOffer id => from_option (λ o, [o_secret_hash o]) [] (offer id s)
  end.

(** The private requests: all that name a match or an offer but taking one,
    which is open to everybody. *)
Inductive private (req : Request) : Method → list string → Subject → Prop :=
| pr_show id : private req Get ["offers"; id] (AnOffer id)
| pr_cancel id : private req Delete ["offers"; id] (AnOffer id)
| pr_log id : private req Post ["offers"; id; "log"] (AnOffer id)
| pr_match id : private req Get ["matches"; id] (AMatch id)
| pr_post id : private req Post ["matches"; id; "messages"] (AMatch id)
| pr_poll id : private req Get ["matches"; id; "messages"] (AMatch id)
| pr_watch wr : read_json watch_req_from_slice req = Ok wr → private req Post ["watch"] (AMatch (wr_match_id wr)).

(** The caller shows none of the secrets. *)
Definition shut_out (req : Request) (x : Subject) (s : Store) : Prop :=
  Forall (λ k, length k = 32%nat) (keys_of x s) ∧ ∀ h, presented_hash req = Some h → h ∉ keys_of x s.

Context `{!SerLaws}.

Lemma presented_length req h : presented_hash req = Some h → length h = 32%nat.
Proof.
  unfold presented_hash. intros ([i hd] & _ & (secret & _ & [= <-])%bind_Some)%bind_Some. apply sha256_length.
Qed.

Lemma wrong_key req h k : presented_hash req = Some h → length k = 32%nat → h ≠ k → ct_eq h k = false.
Proof.
  intros Hh%presented_length Hk Hne. apply not_true_iff_false. rewrite ct_eq_iff by congruence. done.
Qed.

Lemma shut_out_match req id m s : shut_out req (AMatch id) s → get_match id s = Some m → role_in req m = None.
Proof.
  intros [Hk Hh] Hm. simpl in *. rewrite Hm in *. simpl in *. apply Forall_cons in Hk as [Hi [Hp _]%Forall_cons].
  unfold role_in. destruct (presented_hash req) as [h|] eqn:E; [|done]. simpl. specialize (Hh h eq_refl).
  rewrite !not_elem_of_cons in Hh. by rewrite !(wrong_key req h) by naive_solver.
Qed.

Lemma shut_out_offer req id o s : shut_out req (AnOffer id) s → offer id s = Some o → owns_offer req o = false.
Proof.
  intros [Hk Hh] Ho. simpl in *. rewrite Ho in *. simpl in *. apply Forall_cons in Hk as [Hi _].
  unfold owns_offer. destruct (presented_hash req) as [h|] eqn:E; [|done]. simpl. specialize (Hh h eq_refl).
  rewrite !not_elem_of_cons in Hh. by apply (wrong_key req h); naive_solver.
Qed.

(** Turned away: a reply that refuses, and nothing done. *)
Definition turned_away (p : IO Reply Reply) (w : World) : Prop :=
  ∃ r, answer (fst (run_prog p w)) = Some r ∧ snd (run_prog p w) = w ∧ (status_of r = 403 ∨ status_of r = 404).

Lemma no_role_turned_away req id f w : shut_out req (AMatch id) (store w) → turned_away (authed_match req id ≫= f) w.
Proof.
  intros Hs. unfold turned_away, authed_match, authed, io_read, section, io_lift, mbind, IO_bind. simpl.
  destruct (get_match id (store w)) as [m|] eqn:Hm; simpl; [rewrite (shut_out_match req id m (store w) Hs Hm); simpl|]; eauto.
Qed.

Lemma no_owner_turned_away req id w :
  shut_out req (AnOffer id) (store w) → Forall (λ p, turned_away p w) [get_offer req id; phone_log req id; cancel_offer req id].
Proof.
  intros Hs. pose proof (λ o, shut_out_offer req id o (store w) Hs) as Ho. unfold turned_away.
  repeat constructor.
  - unfold get_offer, io_read, section, mbind, IO_bind. simpl.
    destruct (offer id (store w)) as [o|] eqn:E; simpl; [rewrite (Ho o eq_refl)|]; simpl; eauto.
  - unfold phone_log, io_read, section, mbind, IO_bind. simpl.
    destruct (offer id (store w)) as [o|] eqn:E; simpl; [rewrite (Ho o eq_refl)|]; simpl; eauto.
  - unfold cancel_offer, section, mbind, Sec_bind, sec_read, sec_lift. simpl.
    destruct (offer id (store w)) as [o|] eqn:E; simpl; [rewrite (Ho o eq_refl)|]; simpl; eauto.
Qed.

(** C10. Without its secret nothing of a swap is shown or changed: any private
    request to the service - showing, cancelling or logging for an offer,
    reading a match, posting or polling its messages, handing its watchtower
    job in - whose caller presents no secret, or one whose SHA-256 is none of
    the 32-byte hashes stored for that offer or for the two sides of that
    match, is answered 403 or 404 and leaves the world as it was, whatever
    else it carries.  (Taking an offer, by its id or by its share code, is open
    to everybody and asks for no secret.) *)
Theorem strangers_have_no_effect reference fuel wakes req method path token parts x w :
  split "/"%char (trim_slashes path) = "swap" :: parts → private req method parts x → shut_out req x (store w) →
  ∃ r, answer (fst (run_prog (route sw reference fuel wakes req method path token) w)) = Some r ∧
    snd (run_prog (route sw reference fuel wakes req method path token) w) = w ∧
    (status_of r = 403 ∨ status_of r = 404).
Proof.
  intros Hpath Hp Hs. unfold route. rewrite Hpath. change (negb (String.eqb "swap" "swap")) with false. cbv iota.
  destruct Hp as [id|id|id|id|id|id|wr Hwr]; cbn [String.eqb Ascii.eqb Bool.eqb andb];
    try (by apply no_role_turned_away); try (by pose proof (no_owner_turned_away req id w Hs) as Hall; decompose_Forall_hyps).
  unfold watch_route. rewrite Hwr. by apply no_role_turned_away.
Qed.

(** ** Replays *)

(** Posting an offer again with the same client id is answered with the
    first offer and the same owner secret and changes nothing, whatever else
    the request says now. *)
Theorem create_offer_replayed fuel req token n c o w :
  read_json new_offer_from_slice req = Ok n → to_ascii_lowercase <$> n_client_id n = Some c →
  valid_client_id c = true → offer_by_client token c (store w) = Some o →
  ∃ v, run_prog (create_offer sw fuel req token) w = (Ok (RJson 200 v), w) ∧
    vget "offer_id" v = Some (VStr (o_id o)) ∧
    vget "owner_secret" v = Some (VStr (fst (client_secret sw token c))).
Proof.
  intros Hn Hc Hv Ho. unfold create_offer. rewrite Hn, run_lift. cbv zeta. rewrite Hc. cbn [from_option].
  rewrite Hv, run_lift. cbn [negb bail_if]. rewrite run_IO_bind, run_read, Ho. simpl.
  eexists. split; [reflexivity|]. done.
Qed.

(** Asking to recover without claiming changes nothing: no owner secret
    is drawn and the world stays as it was. *)
Theorem recover_only_looks req r w :
  read_json recover_req_from_slice req = Ok r → rr_claim r = false →
  snd (run_prog (recover req) w) = w.
Proof.
  intros Hr Hc. unfold recover. rewrite Hr, run_lift, run_lift, Hc. destruct (bail_if _ _) as [[]|e|]; [|done..].
  rewrite run_lift. destruct (collect given_tag (rr_tags r)) as [tags|e|]; [|done..].
  cut (∀ tags, ∃ vs, recover_tags false tags w = (Ok vs, w)).
  { intros Ht. destruct (Ht tags) as [vs Hvs]. by rewrite run_section, Hvs. }
  clear. intros tags. induction tags as [|tag tags [vs IH]]; [by exists []|]. cbn [recover_tags].
  assert (Hone : ∃ v, recover_tag false tag w = (Ok v, w)).
  { unfold recover_tag, mbind, Sec_bind, sec_read. simpl.
    destruct (negb _); [by eexists|]. destruct (offer_by_tag _ _) as [o|]; [|by eexists].
    destruct (recover_choice o (store w)) as [m|]; simpl; [|by eexists]. rewrite andb_false_r. by eexists. }
  destruct Hone as [v Hv]. unfold mbind, Sec_bind. rewrite Hv, IH. by eexists.
Qed.

(** ** The matching loop ends *)

(** The environment of the matching loop is in order: the network is known,
    the time fits its field and ids can be drawn. *)
Record matching_env (now : Z) : Prop := {
  me_network : ∃ p, network_params (sw_network sw) = Ok p;
  me_now : 0 ≤ now ≤ u32_max;
  me_ids : ∀ n, ∃ id, fresh_id n = inr id;
  me_cap : 0 ≤ cap sw;
}.

Definition tagged (s : Store) (o : Offer) : Prop :=
  ∀ tag, o_recovery_tag o = Some tag → tags s !! tag = Some (o_id o).

Lemma settle_tag o c l id : o_recovery_tag (settle o c l id) = o_recovery_tag o.
Proof. unfold settle. by case_match. Qed.

Lemma put_settled s o c l id :
  tagged s o → put_offer (settle o c l id) s = (Ok tt, set_offers s (<[o_id o := settle o c l id]> (offers s))).
Proof. intros Ht. apply put_offer_back; [apply settle_id|apply settle_tag|done]. Qed.

Lemma pair_total a b price now network fee_address max s :
  (∃ p, network_params network = Ok p) → 0 ≤ now ≤ u32_max → (∀ n, ∃ id, fresh_id n = inr id) →
  pairable a b price → tagged s a → tagged s b →
  ∃ r s', pair fresh_id a b price now max network fee_address s = (Ok r, s') ∧ (r = None → s' = s).
Proof.
  intros [[bp xp] Hn] Hnow Hids Hp Ha Hb. rewrite pair_eq by done.
  assert (Ht : tagged s (fst (sides a b)) ∧ tagged s (snd (sides a b))) by (unfold sides; by destruct (o_direction a)).
  destruct (sides a b) as [seller buyer]. destruct Ht as [Hts Htb]. simpl in Hts, Htb.
  destruct (fill seller buyer price max) as [x bt]. destruct (bt <? MIN_BTC_LEG_SAT); [by eauto|].
  rewrite Hn. unfold mbind, M_bind, lift, map_err, ok_or, new_id.
  rewrite (proj2 (try_from_Some u32_max now now)) by done. destruct (Hids (ids_drawn s)) as [id ->].
  unfold put_match, modify. rewrite put_settled by done. rewrite put_settled by done.
  do 2 eexists. split; [reflexivity|done].
Qed.

Lemma try_candidates_total incoming cands now network fee_address max s :
  (∃ p, network_params network = Ok p) → 0 ≤ now ≤ u32_max → (∀ n, ∃ id, fresh_id n = inr id) →
  tagged s incoming → Forall (λ c, pairable incoming c (resting_price incoming c) ∧ tagged s c) cands →
  ∃ r s', try_candidates fresh_id incoming cands now max network fee_address s = (Ok r, s') ∧ (r = None → s' = s).
Proof.
  intros Hn Hnow Hids Hi. induction 1 as [|c cands [Hp Hc] _ IH]; cbn [try_candidates]; [by do 2 eexists|].
  destruct (pair_total incoming c (resting_price incoming c) now network fee_address max s) as (r & s' & E & Hr); try done.
  unfold mbind, M_bind. rewrite E. destruct r as [m|]; [by do 2 eexists|]. by rewrite (Hr eq_refl).
Qed.

(** What the loop relies on in the store. *)
Record book_ok (s : Store) : Prop := { bo_wf : book_wf s; bo_keyed : keyed s; bo_tags : tags_ok s }.

Lemma match_locked_total incoming barred now s o0 :
  matching_env now → book_ok s → offers s !! o_id incoming = Some o0 →
  ∃ r s', match_locked fresh_id incoming barred now (cap sw) (sw_network sw) (sw_fee_address sw) s = (Ok r, s') ∧
    (r = None → s' = s).
Proof.
  intros [Hn Hnow Hids _] [Hwf Hk Ht] Ho. unfold match_locked, mbind, M_bind, read. cbn [fst snd].
  unfold offer. rewrite Ho. simpl. destruct (negb _); [by do 2 eexists|].
  apply try_candidates_total; try done.
  - intros tag Htag. destruct (Hwf _ _ Ho) as [-> _]. by eapply Ht.
  - apply Forall_forall. intros c [[id Hid] Hside _ _ _]%candidates_elem. destruct (Hwf _ _ Hid) as [Hcid [_ Hcp]].
    destruct (Hwf _ _ Ho) as [_ [_ Hop]]. split; [split|].
    + unfold resting_price. case_match; lia.
    + rewrite Hside. by destruct (o_direction o0).
    + intros tag Htag. rewrite Hcid. by eapply Ht.
Qed.

(** A round that matches leaves less of the offer. *)
Lemma match_round_progress o now s o0 m s' :
  matching_env now → book_ok s → offer_wf o → offers s !! o_id o = Some o0 →
  match_offer fresh_id o now (cap sw) (sw_network sw) (sw_fee_address sw) s = (Ok (Some m), s') →
  book_ok s' ∧ ∃ o1, offers s' !! o_id o = Some o1 ∧ 0 ≤ o_amount_sat o1 < o_amount_sat o0.
Proof.
  intros [_ _ _ Hcap] [Hwf Hk Ht] Hwo Ho E. unfold match_offer in E.
  assert (Hst : rtc step s s').
  { pose proof (writes_match_locked fresh_id o [] now (cap sw) (sw_network sw) (sw_fee_address sw) s) as Hw.
    unfold exec_M in Hw. by rewrite E in Hw. }
  destruct (steps_keyed_tags _ _ Hst Hk Ht) as (Hk' & Ht' & _).
  apply match_locked_made in E as (inc & l1 & c & l2 & Hinc & Hincwf & _ & _ & _ & [[cid Hc] Hside _ [_ Hbar] _] & Hcwf & Hmade); [|done..].
  unfold offer in Hinc. rewrite Ho in Hinc. simpl in Hinc. subst inc.
  destruct Hmade as [(bp & xp & _ & _ & Hm) Hmin _ (b1 & b2 & Hoffers) _].
  destruct (Hwf _ _ Ho) as [Hid _]. destruct (Hwf _ _ Hc) as [Hcid _].
  assert (Hne : o_id o0 ≠ o_id c).
  { intros Heq. rewrite Hid in Heq. rewrite <-Hcid, <-Heq in Hc. rewrite Ho in Hc. simplify_eq.
    by destruct (o_direction c). }
  set (price := resting_price o0 c) in *.
  assert (Hprice : 0 < price) by (unfold price, resting_price; destruct Hincwf, Hcwf; case_match; lia).
  assert (Hsides : offer_wf (fst (sides o0 c)) ∧ offer_wf (snd (sides o0 c)) ∧ o_id (fst (sides o0 c)) ≠ o_id (snd (sides o0 c)) ∧
    (o0 = fst (sides o0 c) ∨ o0 = snd (sides o0 c))).
  { unfold sides. destruct (o_direction o0); simpl; auto. }
  destruct (sides o0 c) as [seller buyer]. cbn [fst snd] in *. destruct Hsides as (Hsw & Hbw & Hsb & Hwho).
  destruct (fill seller buyer price (cap sw)) as [x bt] eqn:Hf. cbn [fst snd] in *.
  assert (Hx : xbt_sat (m_terms m) = x) by by rewrite Hm. assert (Hbt : btc_sat (m_terms m) = bt) by by rewrite Hm.
  rewrite Hx, Hbt in *. clear Hm. pose proof Hsw as [Hsu _]. pose proof Hbw as [Hbu _].
  apply fill_bounds in Hf as (Hxr & Hbr & _ & Hbx); [|done..]. unfold MIN_BTC_LEG_SAT in Hmin.
  assert (0 < x).
  { destruct (decide (x = 0)) as [->|]; [|lia]. unfold btc_for_xbt in Hbx. rewrite Z.mul_0_l, Z.div_0_l in Hbx; unfold u64_max in Hbx; lia. }
  split.
  - split; [|done..]. intros id y Hy. rewrite Hoffers in Hy. split; [by apply Hk'; rewrite Hoffers|].
    apply lookup_insert_Some in Hy as [[_ <-]|[_ Hy]]; [by apply settle_wf|].
    apply lookup_insert_Some in Hy as [[_ <-]|[_ Hy]]; [by apply settle_wf|by apply Hwf in Hy as [_ ?]].
  - rewrite <-Hid, Hoffers. destruct Hwho as [->| ->].
    + eexists. rewrite lookup_insert_ne, lookup_insert_eq by done. split; [done|]. rewrite settle_amount by done. lia.
    + eexists. rewrite lookup_insert_eq. split; [done|]. rewrite settle_amount by done. lia.
Qed.

(** C11. Posting a public offer matches it until nothing more can be
    matched, and comes to an end: with as many rounds as the offer's amount
    allows, the loop returns, and then the offer is off the book or no match can
    be made with it any more. *)
Theorem match_rounds_settle fuel o now w o0 :
  matching_env now → book_ok (store w) → offer_wf o → offers (store w) !! o_id o = Some o0 →
  (Z.to_nat (o_amount_sat o0) < fuel)%nat →
  ∃ w', run_prog (match_rounds sw fuel o now) w = (Ok tt, w') ∧
    ∀ cur m s, offers (store w') !! o_id o = Some cur → o_status cur = Open →
      match_offer fresh_id o now (cap sw) (sw_network sw) (sw_fee_address sw) (store w') ≠ (Ok (Some m), s).
Proof.
  intros Henv Hb Hwo. revert w o0 Hb. induction fuel as [|fuel IH]; intros w o0 Hb Ho Hfuel; [lia|].
  cbn [match_rounds]. rewrite run_IO_bind. unfold caught. rewrite run_bind. unfold io_store at 1, section.
  rewrite run_atomically. unfold sec_store.
  destruct (match_locked_total o [] now (store w) o0 Henv Hb Ho) as (r & s' & E & Hr).
  fold (match_offer fresh_id o now (cap sw) (sw_network sw) (sw_fee_address sw)) in E.
  rewrite E. destruct r as [m|].
  - simpl. destruct (match_round_progress o now (store w) o0 m s' Henv Hb Hwo Ho E) as (Hb' & o1 & Ho1 & Hlt).
    unfold offer. rewrite Ho1. case_decide as Hopen.
    + apply (IH (with_store w s') o1); [done|done|]. lia.
    + eexists. split; [reflexivity|]. intros cur m' s2 Hcur Hst. simpl in Hcur. congruence.
  - rewrite (Hr eq_refl). simpl. eexists. split; [reflexivity|]. intros cur m s2 _ _. simpl. rewrite (Hr eq_refl) in E.
    congruence.
Qed.

(** ** What the watchtower sends *)

(** The watchtower sends the cheapest of its variants that pays the
    asked feerate, and the one that pays most when none does. *)
Theorem pick_variant_spec variants v rate :
  variants ≠ [] →
  ∃ tx, pick_variant (E:=string) variants v rate = Ok tx ∧ tx ∈ variants ∧
    (Exists (λ x, meets v rate x = true) variants →
       meets v rate tx = true ∧ Forall (λ x, meets v rate x = true → fee tx v ≤ fee x v) variants) ∧
    (Forall (λ x, meets v rate x = false) variants → Forall (λ x, fee x v ≤ fee tx v) variants).
Proof.
  intros Hne. unfold pick_variant.
  pose proof (min_by_key_spec (λ tx, fee tx v) (filter (λ tx, meets v rate tx = true) variants)) as Hmin.
  pose proof (max_by_key_spec (λ tx, fee tx v) variants) as Hmax.
  destruct (min_by_key _ _) as [tx|].
  - destruct Hmin as [[Hm Hin]%list_elem_of_filter Hall]. exists tx. split_and!; [done..| |].
    + intros _. split; [done|]. rewrite !Forall_forall in *. intros x Hx Hmx. apply Hall. by apply list_elem_of_filter.
    + intros Hno. rewrite Forall_forall in Hno. rewrite (Hno tx Hin) in Hm. done.
  - destruct (max_by_key _ _) as [tx|]; [|done]. destruct Hmax as [Hin Hall]. exists tx. split_and!; try done.
    intros (x & Hx & Hmx)%Exists_exists.
    assert (Hf : x ∈ filter (λ tx, meets v rate tx = true) variants) by by apply list_elem_of_filter.
    rewrite Hmin in Hf. by apply elem_of_nil in Hf.
Qed.

(** The participant is given two hours to fund, and never past the last
    time the terms allow: for times and terms that fit their fields the
    deadline is the earlier of the two, so it is not after either. *)
Theorem fund_by_bounds t now :
  0 ≤ now → now + 7200 ≤ u64_max → 0 ≤ btc_locktime t ≤ u32_max → 0 ≤ matched_at t ≤ btc_locktime t →
  fund_by_of t now = Z.min (now + 7200) (participant_fund_latest t) ∧
  fund_by_of t now ≤ now + 7200 ∧ fund_by_of t now ≤ participant_fund_latest t ∧
  fund_by_of t now ≤ btc_locktime t.
Proof.
  intros Hn Hfit Hl Hm. unfold fund_by_of, PARTICIPANT_FUND_SECS. rewrite wrapping_add_small by (unfold u64_max in *; lia).
  assert (Hlatest : 0 ≤ participant_fund_latest t ≤ btc_locktime t).
  { unfold participant_fund_latest, saturating_sub, MIN_BTC_LEG_LEFT_SECS.
    assert (0 ≤ Z.max (btc_locktime t - matched_at t) 0 / 2) by (apply Z.div_pos; lia). lia. }
  rewrite Z.mod_small by (unfold u32_max in *; lia). lia.
Qed.

(** A transaction is taken for a swap's spend, free of the service fee,
    exactly when it decodes, has one input, and that input spends the recorded
    funding of a stored match on that chain with a witness that ends in that
    leg's script. *)
Theorem is_swap_spend_exact c raw s :
  is_swap_spend c raw s = true ↔
  ∃ b tx i m ws, hex_decode (trim raw) = Some b ∧ consensus_deserialize b = inr tx ∧ input tx = [i] ∧
    (∃ id, matches s !! id = Some m) ∧
    funding_of m c = Some (txid_display (txid (previous_output i)), vout (previous_output i)) ∧
    leg_witness_script m c = Some ws ∧ last (witness i) = Some ws.
Proof.
  unfold is_swap_spend. split.
  - destruct (hex_decode (trim raw)) as [b|]; [|done]. destruct (consensus_deserialize b) as [|tx] eqn:Hd; [done|].
    destruct (input tx) as [|i [|]] eqn:Hi; try done.
    intros (ws & Hws & Hlast%bool_decide_eq_true)%existsb_exists. apply list_elem_of_In, list_elem_of_omap in Hws as (m & Hm & Hw).
    unfold matches_funded_by in Hm. apply list_elem_of_filter in Hm as [Hf Hm%all_matches_elem].
    exists b, tx, i, m, ws. done.
  - intros (b & tx & i & m & ws & -> & -> & -> & Hm & Hf & Hw & Hlast). apply existsb_exists. exists ws.
    split; [|by apply bool_decide_eq_true]. apply list_elem_of_In, list_elem_of_omap. exists m. split; [|done].
    unfold matches_funded_by. apply list_elem_of_filter. split; [done|by apply all_matches_elem].
Qed.

(** ** Retention *)
Lemma run_each_modify {A} (f : Store → A → Store) l w :
  run_prog (each (λ a, io_store (λ e, e) (modify (λ s, f s a))) l) w = (Ok tt, with_store w (foldl f (store w) l)).
Proof.
  revert w. induction l as [|a l IH]; intros w; [by destruct w|]. cbn [each].
  rewrite run_IO_bind. unfold caught. rewrite run_bind. simpl. rewrite IH. done.
Qed.

(** The watchtower's purge, which holds no lock and goes by lists it read
    before, is the purge of the store when nothing else runs in between. *)
Theorem purge_pass_alone now w :
  run_prog (purge_pass now) w = (Ok tt, with_store w (purge now (store w))).
Proof.
  unfold purge_pass. rewrite !run_read, run_IO_bind, run_each_modify, !run_read, run_IO_bind, run_each_modify.
  unfold io_store, section. rewrite run_atomically. reflexivity.
Qed.

End claims.
