(* ===== verification/EdgeFees.v ===== *)
(** The service fee of a broadcast and the exemption of Lightning transactions
    ([fortis-edge/src/pricing.rs], [ln_fee.rs] and the broadcast gate of
    [main.rs]).

    Looking up a parent over HTTP is a parameter that answers by the number of
    the call. *)

From S2P Require Import Prelude Json Threads Chain SwapTerms Bitcoin Script Htlc Swap Store Matcher Edge.

(** ** Pricing *)
Record Pricing : Type := { pr_address : string; pr_spk : bytes; pr_bps : Z; pr_floor_sat : Z; pr_cap_sat : Z }.

Definition paid_by (p : Pricing) (tx : Transaction) : Z :=
  foldl (saturating_add u64_max) 0 (map value (filter (λ o, script_pubkey o = pr_spk p) (output tx))).
Definition pays_floor (p : Pricing) (tx : Transaction) : bool := pr_floor_sat p <=? paid_by p tx.

Section pricing.
Context `{BitcoinLib}.

Definition tx_of_hex (s : string) : option Transaction :=
  b ← hex_decode (trim s); match consensus_deserialize b with inr tx => Some tx | inl _ => None end.

Definition check_tx_hex (p : Pricing) (raw_tx_hex : string) : result string unit :=
  match tx_of_hex raw_tx_hex with
  | None => Ok tt
  | Some tx => bail_if (paid_by p tx <? pr_floor_sat p)
      ("transaction must pay the service fee: at least " +:+ pretty (pr_floor_sat p) +:+ " sat to " +:+ pr_address p)
  end.
End pricing.

Definition pricing_json (p : Pricing) : Value := VObj [("address", VStr (pr_address p)); ("bps", VNum (pr_bps p));
  ("floor_sat", VNum (pr_floor_sat p)); ("cap_sat", VNum (pr_cap_sat p))].

(** ** Lightning scripts *)
Definition MAX_DEPTH : nat := 2.
Definition MAX_INPUTS : nat := 25.
Definition MAX_FETCHES : nat := 60.

(** One element of a template: an opcode, a push of a length, or a number. *)
Inductive T : Type := TOp (o : Z) | TPush (n : nat) | TNum.

Definition OP_PUSHNUM_1 : Z := 0x51.
Definition OP_PUSHNUM_2 : Z := 0x52.
Definition OP_PUSHNUM_16 : Z := 0x60.
Definition op_if := TOp 0x63.
Definition op_notif := TOp 0x64.
Definition op_else := TOp 0x67.
Definition op_endif := TOp 0x68.
Definition op_ifdup := TOp 0x73.
Definition op_drop := TOp 0x75.
Definition op_dup := TOp 0x76.
Definition op_swap := TOp 0x7c.
Definition op_size := TOp 0x82.
Definition op_equal := TOp 0x87.
Definition op_equalverify := TOp 0x88.
Definition op_hash160 := TOp 0xa9.
Definition op_checksig := TOp 0xac.
Definition op_checksigverify := TOp 0xad.
Definition op_checkmultisig := TOp 0xae.
Definition op_cltv := TOp 0xb1.
Definition op_csv := TOp 0xb2.

Definition FUNDING : list T := [TOp OP_PUSHNUM_2; TPush 33; TPush 33; TOp OP_PUSHNUM_2; op_checkmultisig].
Definition KEYED_ANCHOR : list T := [TPush 33; op_checksig; op_ifdup; op_notif; TOp OP_PUSHNUM_16; op_csv; op_endif].
Definition TO_REMOTE_ANCHORS : list T := [TPush 33; op_checksigverify; TOp OP_PUSHNUM_1; op_csv].
Definition REVOKEABLE : list T :=
  [op_if; TPush 33; op_else; TNum; op_csv; op_drop; TPush 33; op_endif; op_checksig].
Definition ANCHORS_HTLC_SUFFIX : list T := [TOp OP_PUSHNUM_1; op_csv; op_drop].
Definition OFFERED_HTLC : list T :=
  [op_dup; op_hash160; TPush 20; op_equal; op_if; op_checksig; op_else; TPush 33; op_swap; op_size; TPush 1; op_equal;
   op_notif; op_drop; TOp OP_PUSHNUM_2; op_swap; TPush 33; TOp OP_PUSHNUM_2; op_checkmultisig; op_else; op_hash160;
   TPush 20; op_equalverify; op_checksig; op_endif].
Definition RECEIVED_HTLC : list T :=
  [op_dup; op_hash160; TPush 20; op_equal; op_if; op_checksig; op_else; TPush 33; op_swap; op_size; TPush 1; op_equal;
   op_if; op_hash160; TPush 20; op_equalverify; TOp OP_PUSHNUM_2; op_swap; TPush 33; TOp OP_PUSHNUM_2; op_checkmultisig;
   op_else; op_drop; TNum; op_cltv; op_drop; op_checksig; op_endif].

(** What [Script::instructions] yields, with every opcode as its byte, and
    whether a transaction is a coinbase. *)
Inductive RawInstruction : Type := RawOp (o : Z) | RawPush (b : bytes).
Class ScriptLib : Type := {
  raw_instructions : bytes → list (option RawInstruction);
  tx_is_coinbase : Transaction → bool;
}.

Definition element_ok (t : T) (i : RawInstruction) : bool :=
  match t, i with
  | TOp o, RawOp got => got =? o
  | TPush n, RawPush b => Nat.eqb (length b) n
  | TNum, RawOp got => (OP_PUSHNUM_1 <=? got) && (got <=? OP_PUSHNUM_16)
  | TNum, RawPush b => Nat.leb 1 (length b) && Nat.leb (length b) 5
  | _, _ => false
  end.

Fixpoint matches (want : list T) (l : list (option RawInstruction)) : bool :=
  match l with
  | [] => match want with [] => true | _ => false end
  | None :: _ => false
  | Some i :: l =>
      match want with
      | [] => false
      | t :: want => element_ok t i && matches want l
      end
  end.

Section exempt.
Context `{BitcoinLib, ScriptLib}.

Definition is_ln_script (script : bytes) : bool :=
  let ins := raw_instructions script in
  existsb (λ t, matches t ins) [FUNDING; KEYED_ANCHOR; TO_REMOTE_ANCHORS; REVOKEABLE] ||
  existsb (λ t, matches (t ++ ANCHORS_HTLC_SUFFIX ++ [op_endif]) ins || matches (t ++ [op_endif]) ins)
    [OFFERED_HTLC; RECEIVED_HTLC].

Definition is_ln_spend (witness : list bytes) : bool :=
  Nat.leb 2 (length witness) && match last witness with Some ws => is_ln_script ws | None => false end.

(** ** The exemption *)
Record Ctx : Type := { cx_cache : gmap bytes (option Transaction); cx_fetches : nat; cx_calls : list bytes }.
Definition new_ctx : Ctx := {| cx_cache := ∅; cx_fetches := 0; cx_calls := [] |}.

Context (pays_fee : Transaction → bool) (fetch : nat → bytes → option Transaction).

(** The calls made are kept, the latest first. *)
Definition ctx_get (c : Ctx) (t : bytes) : option Transaction * Ctx :=
  match cx_cache c !! t with
  | Some o => (o, c)
  | None =>
      if Nat.leb MAX_FETCHES (cx_fetches c) then (None, c)
      else let o := fetch (cx_fetches c) t in
           (o, {| cx_cache := <[t := o]> (cx_cache c); cx_fetches := S (cx_fetches c); cx_calls := t :: cx_calls c |})
  end.

(** [iter().all(..)]: stops at the first that fails. *)
Fixpoint all_inputs (f : Ctx → TxIn → bool * Ctx) (c : Ctx) (l : list TxIn) : bool * Ctx :=
  match l with
  | [] => (true, c)
  | i :: l => let '(b, c) := f c i in if b then all_inputs f c l else (false, c)
  end.

Fixpoint coin_qualifies (depth : nat) (c : Ctx) (t : bytes) : bool * Ctx :=
  let '(parent, c) := ctx_get c t in
  match parent with
  | None => (false, c)
  | Some parent =>
      if existsb (λ i, is_ln_spend (witness i)) (input parent) || pays_fee parent then (true, c)
      else match depth with
           | S (S _ as d) =>
               if negb (tx_is_coinbase parent) && Nat.leb (length (input parent)) MAX_INPUTS
               then all_inputs (λ c i, coin_qualifies d c (txid (previous_output i))) c (input parent)
               else (false, c)
           | _ => (false, c)
           end
  end.

Definition exempt (tx : Transaction) : bool * Ctx :=
  if Nat.eqb (length (input tx)) 0 || Nat.ltb MAX_INPUTS (length (input tx)) then (false, new_ctx)
  else all_inputs (λ c i, if is_ln_spend (witness i) then (true, c)
                          else coin_qualifies MAX_DEPTH c (txid (previous_output i))) new_ctx (input tx).
End exempt.

(** ** The gate of a broadcast ([main.rs]) *)
Section gate.
Context `{BitcoinLib, TextLib, ScriptLib}.

(** [http k id]: the status and body the [k]th lookup of a parent got. *)
Definition fetch_parent (http : nat → bytes → option (Z * string)) (k : nat) (t : bytes) : option Transaction :=
  '(status, body) ← http k t;
  if negb (status =? 200) then None
  else tx ← tx_of_hex body; if decide (compute_txid tx = t) then Some tx else None.

Definition ln_fee_exempt (p : Pricing) (http : nat → bytes → option (Z * string)) (tx_hex : string) : bool :=
  match tx_of_hex tx_hex with
  | Some tx => fst (exempt (pays_floor p) (fetch_parent http) tx)
  | None => false
  end.

(** What is refused before it is forwarded. *)
Definition fee_gate (pricing : option Pricing) (swap : option Store) (chain : string) (http : nat → bytes → option (Z * string))
    (tx_hex : string) : result Reply unit :=
  match pricing with
  | None => Ok tt
  | Some p =>
      let swap_spend := match swap, parse_chain chain with
                        | Some s, Some c => is_swap_spend c tx_hex s
                        | _, _ => false
                        end in
      if swap_spend then Ok tt
      else match check_tx_hex p tx_hex with
           | Err msg => if String.eqb chain "btc" && ln_fee_exempt p http tx_hex then Ok tt else Err (err 402 msg)
           | _ => Ok tt
           end
  end.
End gate.

(** ** What the exemption decides *)
Section rules.
Context `{BitcoinLib, ScriptLib} (pays_fee : Transaction → bool).

(** Against the transactions that are known, with no bound on the lookups. *)
Fixpoint coin_ok (known : bytes → option Transaction) (depth : nat) (t : bytes) : bool :=
  match known t with
  | None => false
  | Some parent =>
      existsb (λ i, is_ln_spend (witness i)) (input parent) || pays_fee parent ||
      match depth with
      | S (S _ as d) =>
          negb (tx_is_coinbase parent) && Nat.leb (length (input parent)) MAX_INPUTS &&
          forallb (λ i, coin_ok known d (txid (previous_output i))) (input parent)
      | _ => false
      end
  end.

Definition exempt_spec (known : bytes → option Transaction) (tx : Transaction) : bool :=
  negb (Nat.eqb (length (input tx)) 0) && Nat.leb (length (input tx)) MAX_INPUTS &&
  forallb (λ i, is_ln_spend (witness i) || coin_ok known MAX_DEPTH (txid (previous_output i))) (input tx).

(** What the lookups of a check have answered. *)
Definition looked_up (c : Ctx) (t : bytes) : option Transaction := cx_cache c !! t ≫= λ o, o.

Record ctx_ok (fetch : nat → bytes → option Transaction) (c : Ctx) : Prop := {
  cc_fetches : cx_fetches c = length (cx_calls c);
  cc_bound : (cx_fetches c ≤ MAX_FETCHES)%nat;
  cc_once : NoDup (cx_calls c);
  cc_calls t : is_Some (cx_cache c !! t) ↔ t ∈ cx_calls c;
  cc_answer t o : cx_cache c !! t = Some o → ∃ k, (k < cx_fetches c)%nat ∧ fetch k t = o;
}.

(** [c'] has looked up more; with no lookup left nothing changes. *)
Definition grows (c c' : Ctx) : Prop :=
  cx_cache c ⊆ cx_cache c' ∧ ((MAX_FETCHES ≤ cx_fetches c)%nat → c' = c).

Lemma grows_refl c : grows c c.
Proof. by split. Qed.
Lemma grows_trans c1 c2 c3 : grows c1 c2 → grows c2 c3 → grows c1 c3.
Proof.
  intros [H1 E1] [H2 E2]. split; [by etrans|]. intros Hm. pose proof (E1 Hm) as ->. by apply E2.
Qed.

(** The answer is that of the rule, by whatever is looked up from now on. *)
Definition decides (b : bool) (c c' : Ctx) (spec : (bytes → option Transaction) → bool) : Prop :=
  grows c c' ∧ ∀ c'', grows c' c'' → spec (looked_up c'') = b.

Context (fetch : nat → bytes → option Transaction).

Lemma ctx_get_spec c t o c' : ctx_ok fetch c → ctx_get fetch c t = (o, c') →
  ctx_ok fetch c' ∧ grows c c' ∧ ∀ c'', grows c' c'' → looked_up c'' t = o.
Proof.
  intros Hc Hg. unfold ctx_get in Hg. destruct (cx_cache c !! t) as [x|] eqn:Ec.
  { injection Hg as <- <-. split; [done|]. split; [apply grows_refl|]. intros c'' [Hs _]. unfold looked_up.
    by rewrite (lookup_weaken _ _ _ _ Ec Hs). }
  destruct (Nat.leb_spec MAX_FETCHES (cx_fetches c)) as [Hm|Hm]; injection Hg as <- <-.
  { split; [done|]. split; [apply grows_refl|]. intros c'' [_ E]. rewrite (E Hm). unfold looked_up. by rewrite Ec. }
  destruct Hc as [Hf Hb Ho Hcalls Ha]. split; [|split].
  - split; cbn [cx_fetches cx_calls cx_cache].
    + simpl. lia.
    + lia.
    + constructor; [|done]. rewrite <-Hcalls, Ec. by intros [? ?].
    + intros u. rewrite elem_of_cons, <-Hcalls. destruct (decide (u = t)) as [->|].
      * rewrite lookup_insert_eq. split; [by left|]. intros _. by eexists.
      * rewrite lookup_insert_ne by done. naive_solver.
    + intros u o. destruct (decide (u = t)) as [->|].
      * rewrite lookup_insert_eq. intros [= <-]. exists (cx_fetches c). split; [lia|done].
      * rewrite lookup_insert_ne by done. intros (k & Hk & E)%Ha. exists k. split; [lia|done].
  - split; [by apply insert_subseteq|]. lia.
  - intros c'' [Hs _]. unfold looked_up. simpl in Hs.
    by rewrite (lookup_weaken _ _ t (fetch (cx_fetches c) t) (lookup_insert_eq _ _ _) Hs).
Qed.

Lemma all_inputs_spec (f : Ctx → TxIn → bool * Ctx) (spec : (bytes → option Transaction) → TxIn → bool) l c b c' :
  (∀ c i b c', ctx_ok fetch c → f c i = (b, c') → ctx_ok fetch c' ∧ decides b c c' (λ known, spec known i)) →
  ctx_ok fetch c → all_inputs f c l = (b, c') →
  ctx_ok fetch c' ∧ decides b c c' (λ known, forallb (spec known) l).
Proof.
  intros Hf. revert c. induction l as [|i l IH]; intros c Hc Hall; cbn [all_inputs] in Hall.
  { injection Hall as <- <-. split; [done|]. split; [apply grows_refl|done]. }
  destruct (f c i) as [bi ci] eqn:Ei. destruct (Hf _ _ _ _ Hc Ei) as (Hci & Hgi & Hdi). destruct bi.
  - destruct (IH _ Hci Hall) as (Hc' & Hg & Hd). split; [done|]. split; [by eapply grows_trans|].
    intros c'' Hg''. cbn [forallb]. rewrite Hdi by (by eapply grows_trans). simpl. by apply Hd.
  - injection Hall as <- <-. split; [done|]. split; [done|]. intros c'' Hg''. cbn [forallb]. by rewrite Hdi.
Qed.

Lemma coin_qualifies_spec depth c t b c' :
  ctx_ok fetch c → coin_qualifies pays_fee fetch depth c t = (b, c') →
  ctx_ok fetch c' ∧ decides b c c' (λ known, coin_ok known depth t).
Proof.
  revert c t b c'. induction depth as [|d IH]; intros c t b c' Hc Hq; cbn [coin_qualifies] in Hq;
    destruct (ctx_get fetch c t) as [parent c1] eqn:Eg; destruct (ctx_get_spec _ _ _ _ Hc Eg) as (Hc1 & Hg1 & Hl1);
    (destruct parent as [parent|]; [|injection Hq as <- <-; split; [done|]; split; [done|]; intros c'' Hg'';
      cbn [coin_ok]; by rewrite Hl1]); destruct (_ || _) eqn:Eb.
  1, 3: injection Hq as <- <-; split; [done|]; split; [done|]; intros c'' Hg''; cbn [coin_ok]; by rewrite Hl1, Eb.
  - injection Hq as <- <-. split; [done|]. split; [done|]. intros c'' Hg''. cbn [coin_ok]. by rewrite Hl1, Eb.
  - destruct d as [|d]; [injection Hq as <- <-; split; [done|]; split; [done|]; intros c'' Hg''; cbn [coin_ok]; by rewrite Hl1, Eb|].
    destruct (_ && _) eqn:Ec.
    + apply (all_inputs_spec _ (λ known i, coin_ok known (S d) (txid (previous_output i)))) in Hq as (Hc' & Hg & Hd);
        [|by intros; eapply IH|done].
      split; [done|]. split; [by eapply grows_trans|]. intros c'' Hg''. pose proof (Hd _ Hg'') as Hx.
      cbn [coin_ok]. rewrite Hl1 by (by eapply grows_trans). rewrite Eb, Ec. exact Hx.
    + injection Hq as <- <-. split; [done|]. split; [done|]. intros c'' Hg''. cbn [coin_ok]. by rewrite Hl1, Eb, Ec.
Qed.

(** More known transactions only help. *)
Lemma coin_ok_mono (k1 k2 : bytes → option Transaction) depth t :
  (∀ t x, k1 t = Some x → k2 t = Some x) → coin_ok k1 depth t = true → coin_ok k2 depth t = true.
Proof.
  intros Hk. revert t. induction depth as [|d IH]; intros t Ht; cbn [coin_ok] in *;
    (destruct (k1 t) as [x|] eqn:E; [|done]); rewrite (Hk _ _ E); [done|].
  apply orb_true_iff in Ht as [Ht|Ht]; apply orb_true_iff; [by left|right]. destruct d as [|d]; [done|].
  apply andb_true_iff in Ht as [Hl Ht]. apply andb_true_iff. split; [done|].
  rewrite forallb_forall in *. intros i Hi. apply IH, Ht, Hi.
Qed.

Lemma exempt_spec_mono (k1 k2 : bytes → option Transaction) tx :
  (∀ t x, k1 t = Some x → k2 t = Some x) → exempt_spec k1 tx = true → exempt_spec k2 tx = true.
Proof.
  unfold exempt_spec. intros Hk [Hl Ht]%andb_true_iff. apply andb_true_iff. split; [done|].
  rewrite forallb_forall in *. intros i Hi. apply Ht in Hi as [Hi|Hi]%orb_true_iff; apply orb_true_iff; [by left|right].
  by eapply coin_ok_mono.
Qed.

(** C35. The exemption of Lightning transactions from the service fee is its
    rule, within its bounds.  A check looks up at most sixty transactions, none
    twice, and decides exactly as the rule does with the transactions its
    lookups answered: every input spends a Lightning contract or a coin whose
    transaction does, paid the fee, or has only such inputs, two hops back.
    And if lookups only answer with real transactions, what is exempt by them
    is exempt by the real ones. *)
Theorem exempt_exact tx :
  let '(b, c) := exempt pays_fee fetch tx in
  b = exempt_spec (looked_up c) tx ∧
  (length (cx_calls c) ≤ MAX_FETCHES)%nat ∧ NoDup (cx_calls c) ∧
  (∀ t, is_Some (looked_up c t) → ∃ k, (k < length (cx_calls c))%nat ∧ fetch k t = looked_up c t) ∧
  ∀ known, (∀ k t x, fetch k t = Some x → known t = Some x) → b = true → exempt_spec known tx = true.
Proof.
  destruct (exempt pays_fee fetch tx) as [b c] eqn:E.
  assert (Hnew : ctx_ok fetch new_ctx).
  { split; simpl; [done|unfold MAX_FETCHES; lia|constructor| |done]. intros t. rewrite lookup_empty. split; [by intros [? ?]|by intros ?%elem_of_nil]. }
  assert (Hcb : ctx_ok fetch c ∧ b = exempt_spec (looked_up c) tx).
  { unfold exempt in E. unfold exempt_spec. destruct (Nat.eqb_spec (length (input tx)) 0) as [E0|E0]; cbn [orb] in E; [by injection E as <- <-|].
    destruct (Nat.ltb_spec MAX_INPUTS (length (input tx))) as [Hm|Hm].
    { injection E as <- <-. by rewrite (proj2 (Nat.leb_gt _ _)) by lia. }
    apply (all_inputs_spec _ (λ known i, is_ln_spend (witness i) || coin_ok known MAX_DEPTH (txid (previous_output i))))
      in E as (Hc & _ & Hd); [| |done].
    - split; [done|]. rewrite (proj2 (Nat.leb_le _ _)) by lia. symmetry. exact (Hd c (grows_refl c)).
    - intros c0 i b0 c1 Hc0 Hi. destruct (is_ln_spend (witness i)); [injection Hi as <- <-; split; [done|]; by split; [apply grows_refl|]|].
      by apply coin_qualifies_spec. }
  destruct Hcb as [[Hf Hb Ho Hcalls Ha] ->]. split; [done|]. rewrite <-Hf. split; [done|]. split; [done|].
  assert (Hx : ∀ t, is_Some (looked_up c t) → ∃ k, (k < cx_fetches c)%nat ∧ fetch k t = looked_up c t); [|split; [exact Hx|]].
  2:{ intros known Hk. apply exempt_spec_mono. intros t x Ht. destruct (Hx t) as (k & _ & Ek); [by eexists|].
      apply (Hk k). by rewrite Ek. }
  intros t [tx' Ht]. unfold looked_up in *. destruct (cx_cache c !! t) as [o|] eqn:Ec; [|done]. simpl in *.
  destruct (Ha _ _ Ec) as (k & Hk & Ek). by exists k.
Qed.
End rules.
