(* ===== verification/EdgeToy.v ===== *)
(** A concrete environment for the edge and a run in it: two offers are posted
    and matched, both sides accept and exchange keys, the initiator funds and
    hands the watchtower its refund, the watchtower sends it and starts the
    participant's clock; that deadline passes, and the match is cancelled and
    released.  It stands
    for no real code: it shows that the assumptions of the theorems about runs
    can hold together, and it is what their witnesses evaluate. *)

From Stdlib Require Import Ascii.
From S2P Require Import Prelude Json Threads Chain SwapTerms Bitcoin Script Toy Sighash Htlc Swap Store Matcher Edge SwapApi Watchtower MatchLife StoreGuard EdgeSafety EdgeRoutes EdgeTower EdgeRuns EdgeClaims.

(** ** Libraries *)
Definition text (b : bytes) : string := String.string_of_list_byte b.
Definition untext (s : string) : bytes := String.list_byte_of_string s.

Definition plain_decode (s : string) : option bytes := if String.eqb (trim s) s then Some (untext s) else None.

Definition FUND_TX : string := "fundtx".

(** The one transaction of the run, and its text. *)
Definition refund_variant : Transaction := {|
  version := 2; lock_time := 0; output := [{| value := 9_000_000; script_pubkey := [] |}];
  input := [{| previous_output := {| txid := untext FUND_TX; vout := 0 |}; script_sig := []; sequence := 0; witness := [] |}] |}.

Definition plain_deserialize (b : bytes) : string + Transaction :=
  if String.eqb (text b) "refund" then inr refund_variant else inl "unreadable".

#[local] Instance edge_lib : BitcoinLib := {|
  minimal_non_dust := λ _, 294;
  is_op_return := λ _, false;
  new_op_return := λ b, b;
  push_bytes_try_from := Some;
  new_p2wsh := λ ws, untext "wsh" ++ pad 8 ws;
  into_script := λ l, untext "script";
  int_push := toy_int;
  instructions := read_script None;
  sha256 := pad 32;
  hash160 := pad 20;
  pubkey_from_slice := Some;
  verify_ecdsa := λ msg sig pk, true;
  signature_from_der := Some;
  vsize := λ _, 100;
  compute_txid := λ tx, [];
  consensus_deserialize := plain_deserialize;
  serialize_hex := λ tx, if decide (tx = refund_variant) then "refund" else "other";
  deserialize_hex := λ s, b ← plain_decode s; match plain_deserialize b with inr tx => Some tx | inl _ => None end;
  p2wsh_signature_hash := λ tx i sc v, inr [];
  ser_version := le_bytes 4;
  ser_lock_time := le_bytes 4;
  ser_outpoint := λ o, pad 36 (txid o);
  ser_sequence := le_bytes 4;
  ser_txout := λ o, script_pubkey o;
  hex_encode := text;
  hex_decode := plain_decode;
  amount_display := pretty;
|}.

#[local] Instance edge_ser : SerLaws.
Proof. split; intros; cbn; rewrite ?length_pad, ?length_le_bytes; done. Qed.

#[local] Instance edge_codec : CodecLaws.
Proof.
  split.
  - intros s b. cbn. unfold plain_decode. destruct (String.eqb_spec (trim s) s); done.
  - intros s tx. cbn. destruct (plain_decode s) as [b|]; simpl; [|done]. intros Hd. exists b. split; [done|].
    by destruct (plain_deserialize b); simplify_eq.
Qed.

#[local] Instance edge_keys : KeyLib := {|
  SecretKey := bytes;
  secret_from_slice := inr;
  public_key := λ k, k;
  sign_der := λ msg k, msg;
  secret_bytes := λ k, k;
  hmac_sha256 := λ k m, pad 32 m;
|}.

#[local] Instance edge_text : TextLib := {|
  txid_from_str := λ s, Some (untext s);
  txid_display := text;
  pubkey_from_str := λ s, Some (true, untext s);
  pubkey_display := λ k, text (snd k);
|}.

(** ** The system: a clock that stands still, numbered ids *)
Definition T0 : Z := 1_800_000_000.

#[local] Instance edge_system : System := {|
  unix_now := λ _, T0;
  random32 := λ n, inr (pad 32 (untext (pretty n)));
  random8 := λ n, inr (pad 8 (untext (pretty n)));
  fresh_id := λ n, inr ("id" +:+ pretty n);
|}.

#[local] Instance edge_fresh : FreshIds.
Proof.
  intros i j id. cbn [fresh_id edge_system]. intros [= Hi] [= Hj]. rewrite <-Hj in Hi.
  by apply (inj (String.app "id")), (inj pretty) in Hi.
Qed.

(** ** Requests *)
Definition offer_body (d : Direction) (amount : Z) (client : string) : NewOffer := {|
  n_direction := d; n_amount_sat := amount; n_price := 1_000_000; n_expires_in := None; n_private := false;
  n_client_id := Some client; n_recovery_tag := None |}.

Definition HASHLOCK : string := "hhhhhhhhhhhhhhhhhhhhhhhhhhhhhhhh".

Definition refund_watch : WatchReq := {|
  wr_match_id := "id2"; wr_chain := "xbt"; wr_kind := "refund"; wr_htlc_outpoint := (FUND_TX, 0);
  wr_not_before := T0 + 5_000; wr_variants := [serialize_hex refund_variant]; wr_sigs := None; wr_pubkey := None;
  wr_witness_script := None |}.

Definition toy_msg (s : string) : string + SwapMsg :=
  if String.eqb s "accept" then inr MsgAccept
  else if String.eqb s "keys" then inr (MsgKeys "kx" "kb")
  else if String.eqb s "hashlock" then inr (MsgHashlock HASHLOCK None)
  else if String.eqb s "funded" then inr (MsgFunded "xbt" FUND_TX 0)
  else if String.eqb s "release_request" then inr (MsgReleaseRequest ["refund"])
  else if String.eqb s "release" then inr (MsgRelease ["signature"])
  else inl "unknown message".

#[local] Instance edge_bodies : Bodies := {|
  value_from_slice := λ b, inr (VStr (text b));
  new_offer_from_slice := λ b,
    if String.eqb (text b) "sell" then inr (offer_body XbtToBtc 10_000_000 "aa")
    else if String.eqb (text b) "buy" then inr (offer_body BtcToXbt 100_000 "bb")
    else inl "bad offer";
  take_code_from_slice := λ _, inr None;
  take_req_from_slice := λ _, inl "bad take";
  recover_req_from_slice := λ _, inl "bad recover";
  watch_req_from_slice := λ _, inr refund_watch;
  msg_from_value := λ v, match v with VStr s => toy_msg s | _ => inl "unknown message" end;
|}.

#[local] Instance edge_body_laws : BodyLaws.
Proof.
  split; [|done]. intros b n. cbn [new_offer_from_slice edge_bodies].
  repeat case_match; intros [= <-]; split; split; vm_compute; discriminate.
Qed.

Definition edge_swap : Swap := {|
  sw_fee_bps := 30; sw_max_btc_sat := None; sw_network := "regtest"; sw_fee_address := "fee"; sw_polls_cap := 4;
  sw_chain := true; sw_owner_key := [] |}.

Definition secret_of (token client : string) : string := fst (client_secret edge_swap token client).

Definition request (secret body : string) : Request := {|
  headers := [("X-Swap-Secret", secret)]; url := "/"; req_body := untext body; read_ok := true |}.

(** ** The chain *)

(** Both legs are seen paid, and confirmed. *)
Definition leg_out (c : Chain) : TxOutInfo := {|
  value_sat := match c with Xbt => 10_000_000 | Btc => 100_000 end;
  scriptpubkey_hex := leg_spk_hex (untext "script"); confs := 10 |}.

#[local] Instance edge_chain : ChainReader := {|
  txout := λ _ c _ _, inr (Some (leg_out c));
  created_output := λ _ c _ _, inr (Some (leg_out c));
  spending_tx_hex := λ _ _ _ _, inr None;
  spend_confirmed := λ _ _ _ _, inr false;
  tx_block_time := λ _ _ _, inr None;
  feerate := λ _ _, inr 2;
  broadcast := λ _ _ _, inr "sent";
  reader_now := λ _, T0 + 10_000;
|}.

(** ** A run *)
Definition call (method : Method) (path secret token body : string) : Prog World unit :=
  served (route edge_swap (λ _, None) 5 0 (request secret body) method path token).

Definition message (secret body : string) : Prog World unit := call Post "/swap/matches/id2/messages" secret "" body.

Definition example_programs : list (Prog World unit) :=
  let ann := secret_of "ann" "aa" in
  let bob := secret_of "bob" "bb" in
  [call Post "/swap/offers" "" "ann" "sell"; call Post "/swap/offers" "" "bob" "buy";
   message ann "accept"; message bob "accept"; message ann "keys"; message bob "keys";
   message ann "hashlock"; message ann "funded"; call Post "/swap/watch" ann "" "refund";
   served (run_once edge_swap); served (run_once edge_swap);
   message ann "release_request"; message bob "release"].

Definition run_all (ps : list (Prog World unit)) (w : World) : World :=
  foldl (λ w p, snd (run_prog p w)) w ps.

Definition example_world (n : nat) : World := run_all (take n example_programs) empty_world.

(** ** The run is one *)
Lemma pool_run_all c ps w qs :
  pool_reach (edge_program edge_swap) c (ps, w) → Forall (edge_program edge_swap) qs →
  pool_reach (edge_program edge_swap) c (ps ++ replicate (length qs) (Done tt), run_all qs w).
Proof.
  intros Hc Hqs. revert ps w Hc. induction Hqs as [|q qs Hq _ IH]; intros ps w Hc; simpl; [by rewrite app_nil_r|].
  pose proof (pool_run _ _ _ _ q Hc Hq) as Hr. destruct (fst (run_prog q w)).
  apply IH in Hr. by rewrite <-app_assoc in Hr.
Qed.

Lemma example_programs_ok : Forall (edge_program edge_swap) example_programs.
Proof. repeat constructor. Qed.

Definition example_pool (n : nat) : list (Prog World unit) := replicate (length (take n example_programs)) (Done tt).

Lemma example_running n : running edge_swap (example_pool n) (example_world n).
Proof.
  apply (pool_run_all _ [] empty_world (take n example_programs)); [apply pool_refl|].
  apply Forall_take, example_programs_ok.
Qed.

(** From the [n]-th world on, to the last. *)
Lemma example_goes_on n :
  ∃ ps, goes_on edge_swap (example_pool n) (example_world n) ps (example_world 13).
Proof.
  eexists. unfold goes_on.
  assert (E : example_world 13 = run_all (drop n example_programs) (example_world n)).
  { unfold example_world, run_all. rewrite <-foldl_app, (take_drop n). by rewrite (take_ge example_programs 13 (le_n 13)). }
  rewrite E. apply pool_run_all; [apply pool_refl|]. apply Forall_drop, example_programs_ok.
Qed.

(** ** Witnesses *)
Notation example_at n := (matches (store (example_world n)) !! "id2").

Lemma example_seen : ∃ m m', example_at 8 = Some m ∧ example_at 13 = Some m' ∧ m_status m = InitiatorFunded.
Proof.
  assert (Hd : from_option (λ m, bool_decide (m_status m = InitiatorFunded)) false (example_at 8) = true)
    by (vm_compute; reflexivity).
  assert (Hd' : from_option (λ _, true) false (example_at 13) = true) by (vm_compute; reflexivity).
  destruct (example_at 8) as [m|]; [|discriminate Hd]. destruct (example_at 13) as [m'|]; [|discriminate Hd'].
  exists m, m'. split_and!; [reflexivity..|]. exact (proj1 (bool_decide_eq_true _) Hd).
Qed.

Lemma example_released : ∃ m sigs, example_at 13 = Some m ∧ m_release_sigs m = Some sigs.
Proof.
  assert (Hd : from_option (λ _, true) false (example_at 13 ≫= m_release_sigs) = true) by (vm_compute; reflexivity).
  destruct (example_at 13) as [m|]; [|discriminate Hd]. simpl in Hd.
  destruct (m_release_sigs m) as [sigs|] eqn:E; [|discriminate Hd]. exists m, sigs. split; [reflexivity|exact E].
Qed.

Lemma example_sent : (Xbt, "refund") ∈ sent (example_world 13).
Proof.
  assert (Hd : bool_decide ((Xbt, "refund") ∈ sent (example_world 13)) = true) by (vm_compute; reflexivity).
  exact (proj1 (bool_decide_eq_true _) Hd).
Qed.

Lemma edge_refines_match_life_witness :
  ∃ m m', example_at 8 = Some m ∧ example_at 13 = Some m' ∧ rtc (move (asked (example_world 13))) m m'.
Proof.
  destruct example_seen as (m & m' & Hm & Hm' & _). destruct (example_goes_on 8) as [ps Hgo].
  pose proof (edge_refines_match_life edge_swap (example_pool 8) (example_world 8) ps (example_world 13) "id2" m' (example_running 8) Hgo Hm') as H.
  rewrite Hm in H. exists m, m'. exact (conj Hm (conj Hm' H)).
Defined.

Lemma edge_match_history_witness :
  ∃ m m', example_at 8 = Some m ∧ example_at 13 = Some m' ∧ later m m'.
Proof.
  destruct example_seen as (m & m' & Hm & Hm' & _). destruct (example_goes_on 8) as [ps Hgo].
  exists m, m'. exact (conj Hm (conj Hm' (proj1
    (edge_match_history edge_swap (example_pool 8) (example_world 8) ps (example_world 13) "id2" m m' (example_running 8) Hgo Hm Hm')))).
Defined.

Lemma edge_release_final_witness :
  ∃ m sigs, example_at 13 = Some m ∧ m_release_sigs m = Some sigs ∧ m_status m = MCancelled.
Proof.
  destruct example_released as (m & sigs & Hm & Hs). exists m, sigs.
  exact (conj Hm (conj Hs (proj1 (edge_release_final edge_swap (example_pool 13) (example_world 13)
    (example_pool 13) (example_world 13) "id2" m m sigs (example_running 13) (pool_refl _ _) Hm Hm Hs)))).
Defined.

Lemma edge_match_phases_witness :
  ∃ m, example_at 8 = Some m ∧ m_status m = InitiatorFunded ∧ phases (asked (example_world 8)) m.
Proof.
  destruct example_seen as (m & _ & Hm & _ & Hst). exists m.
  exact (conj Hm (conj Hst (proj2 (edge_match_phases edge_swap (example_pool 8) (example_world 8) "id2" m (example_running 8) Hm)))).
Defined.

Lemma edge_world_wf_witness : book_wf (store (example_world 8)) ∧ tags_ok (store (example_world 8)).
Proof.
  destruct (edge_world_wf edge_swap (example_pool 8) (example_world 8) (example_running 8)) as (_ & Hb & Ht & _). exact (conj Hb Ht).
Defined.

Lemma edge_sends_only_spends_witness :
  ∃ j m f, (Xbt, "refund") ∈ sent (example_world 13) ∧ j ∈ watch_log (store (example_world 13)) ∧ fresh_job j ∧
    funding_of m Xbt = Some f ∧ shown (asked (example_world 13)) m Xbt f.
Proof.
  destruct (edge_sends_only_spends edge_swap (example_pool 13) (example_world 13) Xbt "refund" (example_running 13) example_sent)
    as (j & m & t & tx & i & (Hj & Hfr) & _ & _ & Hf & Hs & _).
  exists j, m, (w_htlc j). exact (conj example_sent (conj Hj (conj Hfr (conj Hf Hs)))).
Defined.

(** ** Witnesses of the single routes *)

(** A secret that is nobody's. *)
Definition outsider : Request := request (text (pad 32 (untext "nobody"))) "funded".

Lemma outsider_shut_out : shut_out outsider (AMatch "id2") (store (example_world 8)).
Proof.
  assert (Hd : bool_decide (length (keys_of (AMatch "id2") (store (example_world 8))) = 2%nat ∧
    Forall (λ k, length k = 32%nat) (keys_of (AMatch "id2") (store (example_world 8))) ∧
    pad 32 (pad 32 (untext "nobody")) ∉ keys_of (AMatch "id2") (store (example_world 8))) = true)
    by (vm_compute; reflexivity).
  apply bool_decide_eq_true in Hd as (_ & Hl & Hn). split; [exact Hl|].
  assert (E : presented_hash outsider = Some (pad 32 (pad 32 (untext "nobody")))) by (vm_compute; reflexivity).
  rewrite E. by intros h [= <-].
Qed.

Lemma outsider_watches : read_json watch_req_from_slice outsider = Ok refund_watch.
Proof. vm_compute. reflexivity. Qed.

(** Somebody else's watchtower job, handed in under the match. *)
Lemma strangers_have_no_effect_witness :
  snd (run_prog (route edge_swap (λ _, None) 5 0 outsider Post "/swap/watch" "") (example_world 8)) = example_world 8.
Proof.
  destruct (strangers_have_no_effect edge_swap (λ _, None) 5 0 outsider Post "/swap/watch" "" ["watch"] (AMatch "id2")
    (example_world 8) eq_refl (pr_watch outsider refund_watch outsider_watches) outsider_shut_out) as (r & _ & E & _).
  exact E.
Defined.

Lemma sell_request : read_json new_offer_from_slice (request "" "sell") = Ok (offer_body XbtToBtc 10_000_000 "aa").
Proof. vm_compute. reflexivity. Qed.

Lemma create_offer_replayed_witness :
  ∃ v, run_prog (create_offer edge_swap 5 (request "" "sell") "ann") (example_world 1) = (Ok (RJson 200 v), example_world 1).
Proof.
  assert (Hd : from_option (λ _, true) false (offer_by_client "ann" "aa" (store (example_world 1))) = true)
    by (vm_compute; reflexivity).
  destruct (offer_by_client "ann" "aa" (store (example_world 1))) as [o|] eqn:Ho; [|discriminate Hd].
  destruct (create_offer_replayed edge_swap 5 (request "" "sell") "ann" (offer_body XbtToBtc 10_000_000 "aa") "aa" o
    (example_world 1) sell_request eq_refl eq_refl Ho) as (v & E & _).
  exists v. exact E.
Defined.

Lemma edge_matching_env : matching_env edge_swap T0.
Proof.
  split.
  - eexists. reflexivity.
  - unfold T0, u32_max. lia.
  - intros n. eexists. reflexivity.
  - vm_compute. discriminate.
Qed.

(** The seller of the example book meets both buyers. *)
Lemma match_rounds_settle_witness :
  ∃ w', run_prog (match_rounds edge_swap (S (Z.to_nat (o_amount_sat seller))) seller T0)
    (with_store empty_world example_book) = (Ok tt, w').
Proof.
  destruct (match_rounds_settle edge_swap (S (Z.to_nat (o_amount_sat seller))) seller T0 (with_store empty_world example_book) seller)
    as (w' & E & _).
  - exact edge_matching_env.
  - split; [exact example_book_wf|apply example_book_keyed..].
  - apply example_offer_wf.
  - vm_compute. reflexivity.
  - apply Nat.lt_succ_diag_r.
  - exists w'. exact E.
Defined.

Lemma pick_variant_spec_witness :
  ∃ tx, pick_variant (E:=string) [refund_variant] 10_000_000 2 = Ok tx ∧ tx ∈ [refund_variant].
Proof.
  destruct (pick_variant_spec [refund_variant] 10_000_000 2 ltac:(discriminate)) as (tx & E & Hin & _).
  exists tx. exact (conj E Hin).
Defined.

Lemma outsider_hash : presented_hash outsider = Some (sha256 (pad 32 (untext "nobody"))).
Proof. vm_compute. reflexivity. Qed.

Lemma role_in_exact_witness :
  ∃ m, example_at 8 = Some m ∧ role_in outsider m = None.
Proof.
  assert (Hd : from_option (λ m, bool_decide (length (m_initiator_secret_hash m) = 32%nat ∧
    length (m_participant_secret_hash m) = 32%nat ∧ sha256 (pad 32 (untext "nobody")) ≠ m_initiator_secret_hash m ∧
    sha256 (pad 32 (untext "nobody")) ≠ m_participant_secret_hash m)) false (example_at 8) = true)
    by (vm_compute; reflexivity).
  destruct (example_at 8) as [m|]; [|discriminate Hd]. exists m. split; [reflexivity|].
  simpl in Hd. apply bool_decide_eq_true in Hd as (Hi & Hp & Hni & Hnp).
  rewrite (role_in_exact outsider m (sha256 (pad 32 (untext "nobody"))) outsider_hash eq_refl Hi Hp).
  by rewrite !decide_False.
Defined.
