(* ===== verification/IndexKeys.v ===== *)
(** Keys and values of the block index ([fortis-index/src/keys.rs], the undo
    records of [db.rs]): big-endian integers, so that the database's bytewise
    order is the numeric one. *)

From S2P Require Import Prelude Bitcoin.

(** ** Big-endian integers *)

(** [to_be_bytes] of an [n]-byte integer. *)
Fixpoint be_bytes (n : nat) (z : Z) : bytes :=
  match n with
  | O => []
  | S n => byte_of_Z (z / 256 ^ Z.of_nat n) :: be_bytes n z
  end.

Arguments be_bytes : simpl never.

(** [from_be_bytes]. *)
Definition from_be (b : bytes) : Z := foldl (λ acc x, acc * 256 + Z_of_byte x) 0 b.

(** The order of the database: byte by byte. *)
Fixpoint bytes_ltb (a b : bytes) : bool :=
  match a, b with
  | [], [] => false
  | [], _ :: _ => true
  | _ :: _, [] => false
  | x :: a, y :: b =>
      (Z_of_byte x <? Z_of_byte y) || ((Z_of_byte x =? Z_of_byte y) && bytes_ltb a b)
  end.

(** ** Keys *)
Definition TXNUM_LEN : nat := 5.
Definition MAX_TXNUM : Z := 2^40 - 1.

(** Its five bytes; [txnum_key] is the same under its assertion. *)
Definition txnum_bytes (n : Z) : bytes := be_bytes TXNUM_LEN n.
Definition txnum_key {E} (n : Z) : result E bytes :=
  if n <=? MAX_TXNUM then Ok (txnum_bytes n) else Panic.
Definition txnum_from (b : bytes) : Z := from_be (take TXNUM_LEN b).

Definition height_key (h : Z) : bytes := be_bytes 4 h.

Definition history_bytes (p : bytes) (n : Z) : bytes := p ++ txnum_bytes n.
Definition history_key {E} (p : bytes) (n : Z) : result E bytes :=
  k ← txnum_key n; mret (p ++ k).
Definition history_txnum (key : bytes) : Z := txnum_from (drop 20 key).

Definition utxo_key (p : bytes) (op : OutPoint) : bytes := p ++ txid op ++ be_bytes 4 (vout op).
Definition utxo_outpoint (key : bytes) : OutPoint := {|
  txid := take 32 (drop 20 key); vout := from_be (take 4 (drop 52 key)) |}.

(** ** Values *)
Record UtxoVal : Type := { u_value : Z; u_height : Z }.

#[export] Instance UtxoVal_eq_dec : EqDecision UtxoVal.
Proof. solve_decision. Defined.

Definition utxo_encode (v : UtxoVal) : bytes := be_bytes 8 (u_value v) ++ be_bytes 4 (u_height v).
Definition utxo_decode (b : bytes) : result string UtxoVal :=
  if negb (Nat.eqb (length b) 12) then
    Err ("utxo value: expected 12 bytes, got " +:+ pretty (length b))
  else Ok {| u_value := from_be (take 8 b); u_height := from_be (drop 8 b) |}.

Record BlockRec : Type := { br_hash : bytes; br_time : Z; br_first_txnum : Z; br_n_txs : Z }.

#[export] Instance BlockRec_eq_dec : EqDecision BlockRec.
Proof. solve_decision. Defined.

Definition rec_bytes (r : BlockRec) : bytes :=
  br_hash r ++ be_bytes 4 (br_time r) ++ txnum_bytes (br_first_txnum r) ++ be_bytes 4 (br_n_txs r).
Definition rec_encode {E} (r : BlockRec) : result E bytes :=
  k ← txnum_key (br_first_txnum r);
  mret (br_hash r ++ be_bytes 4 (br_time r) ++ k ++ be_bytes 4 (br_n_txs r)).
Definition rec_decode (b : bytes) : result string BlockRec :=
  if negb (Nat.eqb (length b) 45) then
    Err ("block record: expected 45 bytes, got " +:+ pretty (length b))
  else Ok {| br_hash := take 32 b; br_time := from_be (take 4 (drop 32 b));
             br_first_txnum := txnum_from (take 5 (drop 36 b)); br_n_txs := from_be (drop 41 b) |}.

Definition tip_value (h : Z) (hash : bytes) : bytes := be_bytes 4 h ++ hash.
Definition tip_from (b : bytes) : result string (Z * bytes) :=
  if negb (Nat.eqb (length b) 36) then Err ("tip: expected 36 bytes, got " +:+ pretty (length b))
  else Ok (from_be (take 4 b), drop 4 b).

Definition p2wpkh_scripthash `{BitcoinLib} (p : bytes) : bytes := sha256 (x00 :: x14 :: p).

(** ** Undo records *)
Record Undo : Type := {
  ud_first_txnum : Z;
  ud_n_txs : Z;
  ud_added_history : list bytes;
  ud_added_utxo : list bytes;
  ud_deleted_utxo : list (bytes * UtxoVal);
}.

(** [len() as u32] *)
Definition be_len {A} (l : list A) : bytes := be_bytes 4 (Z.of_nat (length l) mod 2^32).

Definition undo_encode {E} (u : Undo) : result E bytes :=
  k ← txnum_key (ud_first_txnum u);
  mret (k ++ be_bytes 4 (ud_n_txs u) ++
    be_len (ud_added_history u) ++ concat (ud_added_history u) ++
    be_len (ud_added_utxo u) ++ concat (ud_added_utxo u) ++
    be_len (ud_deleted_utxo u) ++ concat (map (λ x, fst x ++ utxo_encode (snd x)) (ud_deleted_utxo u))).

(** The reader of [decode]: what it takes, and what is left. *)
Definition take_bytes (n : nat) (r : bytes) : result string (bytes * bytes) :=
  if Nat.ltb (length r) n then Err "undo record truncated" else Ok (take n r, drop n r).
Definition take_count (r : bytes) : result string (nat * bytes) :=
  '(b, r) ← take_bytes 4 r; mret (Z.to_nat (from_be b), r).
Fixpoint take_many {A} (f : bytes → result string (A * bytes)) (n : nat) (r : bytes) : result string (list A * bytes) :=
  match n with
  | O => Ok ([], r)
  | S n => '(a, r) ← f r; '(l, r) ← take_many f n r; mret (a :: l, r)
  end.
Definition take_spent (r : bytes) : result string ((bytes * UtxoVal) * bytes) :=
  '(k, r) ← take_bytes 56 r; '(v, r) ← take_bytes 12 r; v ← utxo_decode v; mret ((k, v), r).

Arguments take_bytes : simpl never.
Arguments take_count : simpl never.
Arguments take_many : simpl never.

Definition undo_decode (b : bytes) : result string Undo :=
  '(f, r) ← take_bytes 5 b;
  '(nt, r) ← take_bytes 4 r;
  '(n, r) ← take_count r;
  '(hist, r) ← take_many (take_bytes 25) n r;
  '(n, r) ← take_count r;
  '(added, r) ← take_many (take_bytes 56) n r;
  '(n, r) ← take_count r;
  '(deleted, r) ← take_many take_spent n r;
  if Nat.eqb (length r) 0 then
    Ok {| ud_first_txnum := txnum_from f; ud_n_txs := from_be nt; ud_added_history := hist;
          ud_added_utxo := added; ud_deleted_utxo := deleted |}
  else Err ("undo record has " +:+ pretty (length r) +:+ " trailing bytes").

(** ** Lemmas *)

(** Arithmetic with the widths in bytes written out. *)
Ltac width_lia :=
  unfold MAX_TXNUM, TXNUM_LEN, u32_max, u64_max in *;
  change (256 ^ Z.of_nat 4) with (2^32) in *; change (256 ^ Z.of_nat 5) with (2^40) in *;
  change (256 ^ Z.of_nat 8) with (2^64) in *; lia.

Lemma be_bytes_S n z : be_bytes (S n) z = byte_of_Z (z / 256 ^ Z.of_nat n) :: be_bytes n z.
Proof. done. Qed.

Lemma length_be_bytes n z : length (be_bytes n z) = n.
Proof. induction n as [|n IH]; [done|]. rewrite be_bytes_S. simpl. by rewrite IH. Qed.

Lemma Z_of_byte_range b : 0 ≤ Z_of_byte b < 256.
Proof. unfold Z_of_byte. pose proof (Byte.to_N_bounded b). lia. Qed.

Lemma foldl_be (l : bytes) acc : foldl (λ acc x, acc * 256 + Z_of_byte x) acc l = acc * 256 ^ Z.of_nat (length l) + from_be l.
Proof.
  unfold from_be. revert acc. induction l as [|b l IH]; intros acc; simpl; [lia|].
  rewrite (IH (acc * 256 + _)), (IH (0 * 256 + _)). replace (Z.of_nat (S (length l))) with (Z.of_nat (length l) + 1) by lia.
  rewrite Z.pow_add_r by lia. lia.
Qed.

Lemma from_be_cons b l : from_be (b :: l) = Z_of_byte b * 256 ^ Z.of_nat (length l) + from_be l.
Proof. unfold from_be at 1. simpl. by rewrite foldl_be. Qed.

Lemma from_be_range l : 0 ≤ from_be l < 256 ^ Z.of_nat (length l).
Proof.
  induction l as [|b l IH]; [done|]. rewrite from_be_cons. pose proof (Z_of_byte_range b).
  simpl length. rewrite Nat2Z.inj_succ, Z.pow_succ_r by lia. nia.
Qed.

Lemma from_be_mod n z : from_be (be_bytes n z) = z mod 256 ^ Z.of_nat n.
Proof.
  induction n as [|n IH]; [by rewrite Z.mod_1_r|].
  rewrite be_bytes_S, from_be_cons, Z_of_byte_of_Z, length_be_bytes, IH, Nat2Z.inj_succ, Z.pow_succ_r by lia.
  set (m := 256 ^ Z.of_nat n). assert (0 < m) by (unfold m; apply Z.pow_pos_nonneg; lia).
  rewrite (Z.mul_comm 256 m), Z.rem_mul_r by lia. lia.
Qed.

(** The bytes only depend on the number modulo their range. *)
Lemma be_bytes_mod_eq n a b : a mod 256 ^ Z.of_nat n = b mod 256 ^ Z.of_nat n → be_bytes n a = be_bytes n b.
Proof.
  induction n as [|n IH]; [done|]. rewrite Nat2Z.inj_succ, Z.pow_succ_r, !be_bytes_S by lia.
  set (m := 256 ^ Z.of_nat n) in *. assert (Hm : 0 < m) by (unfold m; apply Z.pow_pos_nonneg; lia).
  rewrite (Z.mul_comm 256 m), !Z.rem_mul_r by lia. intros E.
  pose proof (Z.mod_pos_bound a m Hm). pose proof (Z.mod_pos_bound b m Hm).
  assert ((a / m) mod 256 = (b / m) mod 256 ∧ a mod m = b mod m) as [E1 E2].
  { set (x := (a / m) mod 256) in *. set (y := (b / m) mod 256) in *. assert (x = y) by nia. split; [done|nia]. }
  f_equal; [|by apply IH]. unfold byte_of_Z. by rewrite E1.
Qed.

Lemma from_be_be_bytes n z : 0 ≤ z < 256 ^ Z.of_nat n → from_be (be_bytes n z) = z.
Proof. intros Hz. by rewrite from_be_mod, Z.mod_small. Qed.

Lemma be_bytes_inj n a b :
  0 ≤ a < 256 ^ Z.of_nat n → 0 ≤ b < 256 ^ Z.of_nat n → be_bytes n a = be_bytes n b → a = b.
Proof. intros Ha Hb E. apply (f_equal from_be) in E. by rewrite !from_be_be_bytes in E. Qed.

Lemma bytes_ltb_from_be a b : length a = length b → bytes_ltb a b = (from_be a <? from_be b).
Proof.
  revert b. induction a as [|x a IH]; intros [|y b] Hl; try done. cbn [bytes_ltb].
  rewrite IH by (simpl in Hl; lia). rewrite !from_be_cons. injection Hl as Hl. rewrite Hl.
  pose proof (from_be_range a). pose proof (from_be_range b). rewrite Hl in *.
  set (m := 256 ^ Z.of_nat (length b)) in *.
  destruct (Z.ltb_spec (Z_of_byte x) (Z_of_byte y)); [symmetry; apply Z.ltb_lt; nia|].
  destruct (Z.eqb_spec (Z_of_byte x) (Z_of_byte y)) as [->|]; simpl.
  - destruct (Z.ltb_spec (from_be a) (from_be b)); symmetry; [apply Z.ltb_lt|apply Z.ltb_ge]; lia.
  - symmetry. apply Z.ltb_ge. nia.
Qed.

(** The bytewise order of the keys is the numeric one. *)
Lemma bytes_ltb_be n a b :
  0 ≤ a < 256 ^ Z.of_nat n → 0 ≤ b < 256 ^ Z.of_nat n → bytes_ltb (be_bytes n a) (be_bytes n b) = (a <? b).
Proof. intros Ha Hb. rewrite bytes_ltb_from_be by by rewrite !length_be_bytes. by rewrite !from_be_be_bytes. Qed.

Lemma bytes_ltb_app p a b : bytes_ltb (p ++ a) (p ++ b) = bytes_ltb a b.
Proof. induction p as [|x p IH]; simpl; [done|]. by rewrite Z.ltb_irrefl, Z.eqb_refl, IH. Qed.

Lemma length_txnum_bytes n : length (txnum_bytes n) = 5%nat.
Proof. apply length_be_bytes. Qed.

Lemma txnum_key_Ok {E} n k : txnum_key (E:=E) n = Ok k ↔ n ≤ MAX_TXNUM ∧ k = txnum_bytes n.
Proof. unfold txnum_key. destruct (Z.leb_spec n MAX_TXNUM); naive_solver lia. Qed.

Lemma txnum_bytes_inj a b : 0 ≤ a ≤ MAX_TXNUM → 0 ≤ b ≤ MAX_TXNUM → txnum_bytes a = txnum_bytes b → a = b.
Proof. intros Ha Hb. apply be_bytes_inj; width_lia. Qed.

Lemma txnum_from_bytes n : 0 ≤ n ≤ MAX_TXNUM → txnum_from (txnum_bytes n) = n.
Proof.
  intros Hn. unfold txnum_from, txnum_bytes. rewrite take_ge by by rewrite length_be_bytes.
  apply from_be_be_bytes. width_lia.
Qed.

Lemma history_bytes_inj p q a b :
  length p = 20%nat → length q = 20%nat → 0 ≤ a ≤ MAX_TXNUM → 0 ≤ b ≤ MAX_TXNUM →
  history_bytes p a = history_bytes q b → p = q ∧ a = b.
Proof.
  intros Hp Hq Ha Hb E. unfold history_bytes in E. apply app_inj_1 in E as [-> E]; [|congruence].
  split; [done|]. by apply txnum_bytes_inj.
Qed.

Lemma history_txnum_bytes p n : length p = 20%nat → 0 ≤ n ≤ MAX_TXNUM → history_txnum (history_bytes p n) = n.
Proof. intros Hp Hn. unfold history_txnum, history_bytes. rewrite drop_app_length' by done. by apply txnum_from_bytes. Qed.

Lemma utxo_outpoint_key p op :
  length p = 20%nat → length (txid op) = 32%nat → 0 ≤ vout op ≤ u32_max → utxo_outpoint (utxo_key p op) = op.
Proof.
  intros Hp Ht Hv. unfold utxo_outpoint, utxo_key. destruct op as [t v]. cbn [txid vout] in *. f_equal.
  - rewrite drop_app_length' by done. by apply take_app_length'.
  - rewrite app_assoc, drop_app_length' by (rewrite length_app; lia). rewrite take_ge by by rewrite length_be_bytes.
    apply from_be_be_bytes. width_lia.
Qed.

Definition utxo_val_ok (v : UtxoVal) : Prop := 0 ≤ u_value v ≤ u64_max ∧ 0 ≤ u_height v ≤ u32_max.

Lemma length_utxo_encode v : length (utxo_encode v) = 12%nat.
Proof. unfold utxo_encode. by rewrite length_app, !length_be_bytes. Qed.

Lemma utxo_decode_encode v : utxo_val_ok v → utxo_decode (utxo_encode v) = Ok v.
Proof.
  intros [Hv Hh]. unfold utxo_decode. rewrite length_utxo_encode. cbn [negb Nat.eqb]. unfold utxo_encode.
  rewrite take_app_length', drop_app_length' by by rewrite length_be_bytes.
  rewrite !from_be_be_bytes by width_lia. by destruct v.
Qed.

Definition rec_ok (r : BlockRec) : Prop :=
  length (br_hash r) = 32%nat ∧ 0 ≤ br_time r ≤ u32_max ∧ 0 ≤ br_first_txnum r ≤ MAX_TXNUM ∧ 0 ≤ br_n_txs r ≤ u32_max.

Lemma rec_encode_Ok {E} r b : rec_encode (E:=E) r = Ok b ↔ br_first_txnum r ≤ MAX_TXNUM ∧ b = rec_bytes r.
Proof.
  unfold rec_encode. rewrite bind_Ok. setoid_rewrite txnum_key_Ok. unfold rec_bytes. split.
  - intros (k & [? ->] & [= <-]). done.
  - intros [? ->]. eauto.
Qed.

Lemma rec_decode_bytes r : rec_ok r → rec_decode (rec_bytes r) = Ok r.
Proof.
  intros (Hh & Ht & Hf & Hn). unfold rec_decode, rec_bytes.
  assert (Hl : length (br_hash r ++ be_bytes 4 (br_time r) ++ txnum_bytes (br_first_txnum r) ++ be_bytes 4 (br_n_txs r)) = 45%nat)
    by (rewrite !length_app, !length_be_bytes, Hh; done).
  rewrite Hl. cbn [negb Nat.eqb]. destruct r as [h t f n]. cbn [br_hash br_time br_first_txnum br_n_txs] in *. do 2 f_equal.
  - by apply take_app_length'.
  - rewrite drop_app_length' by done. rewrite take_app_length' by by rewrite length_be_bytes.
    apply from_be_be_bytes. width_lia.
  - rewrite app_assoc, drop_app_length' by (rewrite length_app, length_be_bytes; lia).
    rewrite take_app_length' by by rewrite length_txnum_bytes. by apply txnum_from_bytes.
  - rewrite app_assoc, app_assoc, drop_app_length' by (rewrite !length_app, length_txnum_bytes, length_be_bytes; lia).
    apply from_be_be_bytes. width_lia.
Qed.

Lemma tip_from_value h hash : 0 ≤ h ≤ u32_max → length hash = 32%nat → tip_from (tip_value h hash) = Ok (h, hash).
Proof.
  intros Hh Hl. unfold tip_from, tip_value. rewrite length_app, length_be_bytes, Hl. cbn [negb Nat.eqb Nat.add].
  rewrite take_app_length', drop_app_length' by by rewrite length_be_bytes.
  rewrite from_be_be_bytes by width_lia. done.
Qed.

(** One step of a bind, and nothing else. *)
Ltac rcbn := cbn [mbind result_bind].

(** ** Undo records read back *)
Record undo_ok (u : Undo) : Prop := {
  uo_first : 0 ≤ ud_first_txnum u ≤ MAX_TXNUM;
  uo_n_txs : 0 ≤ ud_n_txs u ≤ u32_max;
  uo_history : Forall (λ k, length k = 25%nat) (ud_added_history u);
  uo_added : Forall (λ k, length k = 56%nat) (ud_added_utxo u);
  uo_deleted : Forall (λ x, length (fst x) = 56%nat ∧ utxo_val_ok (snd x)) (ud_deleted_utxo u);
  uo_sizes : Z.of_nat (length (ud_added_history u)) ≤ u32_max ∧ Z.of_nat (length (ud_added_utxo u)) ≤ u32_max ∧
    Z.of_nat (length (ud_deleted_utxo u)) ≤ u32_max;
}.

Lemma take_bytes_app n a r : length a = n → take_bytes n (a ++ r) = Ok (a, r).
Proof.
  intros Hn. unfold take_bytes. rewrite length_app.
  destruct (Nat.ltb_spec (length a + length r) n); [lia|]. by rewrite take_app_length', drop_app_length' by done.
Qed.

Lemma take_count_len {A} (l : list A) r : Z.of_nat (length l) ≤ u32_max → take_count (be_len l ++ r) = Ok (length l, r).
Proof.
  intros Hl. unfold take_count, be_len. rewrite take_bytes_app by apply length_be_bytes. rcbn.
  rewrite Z.mod_small by width_lia. rewrite from_be_be_bytes by width_lia. by rewrite Nat2Z.id.
Qed.

Lemma take_many_app {A} (f : bytes → result string (A * bytes)) (enc : A → bytes) l r :
  Forall (λ a, ∀ r, f (enc a ++ r) = Ok (a, r)) l →
  take_many f (length l) (concat (map enc l) ++ r) = Ok (l, r).
Proof.
  induction 1 as [|a l Ha _ IH]; [done|]. cbn [concat map length]. unfold take_many. fold (take_many (A:=A)).
  rewrite <-app_assoc, Ha. rcbn. by rewrite IH.
Qed.

Lemma take_spent_app k v r : length k = 56%nat → utxo_val_ok v → take_spent ((k ++ utxo_encode v) ++ r) = Ok ((k, v), r).
Proof.
  intros Hk Hv. unfold take_spent. rewrite <-app_assoc, take_bytes_app by done. rcbn.
  rewrite take_bytes_app by apply length_utxo_encode. rcbn. by rewrite utxo_decode_encode.
Qed.

Lemma undo_decode_encode {E} u : undo_ok u → ∃ b, undo_encode (E:=E) u = Ok b ∧ undo_decode b = Ok u.
Proof.
  intros [Hf Hn Hh Ha Hd (Hs1 & Hs2 & Hs3)]. unfold undo_encode. rewrite (proj2 (txnum_key_Ok _ _)) by (split; [lia|done]).
  eexists. split; [reflexivity|]. unfold undo_decode.
  rewrite take_bytes_app by apply length_txnum_bytes. rcbn.
  rewrite take_bytes_app by apply length_be_bytes. rcbn.
  rewrite take_count_len by done. rcbn. rewrite <-(map_id (ud_added_history u)) at 2.
  rewrite (take_many_app _ (λ x, x)) by (eapply Forall_impl; [exact Hh|]; intros k Hk r; by apply take_bytes_app). rcbn.
  rewrite take_count_len by done. rcbn. rewrite <-(map_id (ud_added_utxo u)) at 2.
  rewrite (take_many_app _ (λ x, x)) by (eapply Forall_impl; [exact Ha|]; intros k Hk r; by apply take_bytes_app). rcbn.
  rewrite take_count_len by done. rcbn.
  rewrite <-(app_nil_r (concat _)).
  rewrite (take_many_app _ (λ x, fst x ++ utxo_encode (snd x)))
    by (eapply Forall_impl; [exact Hd|]; intros [k v] [Hk Hv] r; by apply take_spent_app). rcbn.
  rewrite txnum_from_bytes, from_be_be_bytes by width_lia. by destruct u.
Qed.

(** An undo record reads back as it was written: for transaction
    numbers, key lengths and counts in their ranges, encoding succeeds and
    decoding the bytes gives the same record. *)
Theorem undo_roundtrip u :
  undo_ok u → ∃ b, undo_encode (E:=string) u = Ok b ∧ undo_decode b = Ok u.
Proof. apply undo_decode_encode. Qed.
