(* ===== verification/Index.v ===== *)
(** The block index ([fortis-index/src/chain.rs], [extract.rs], [db.rs]): what
    is read of a block, and the rows a batch of blocks writes, undoes and
    answers from.

    The database is a finite map from column family and key to value; a batch
    of writes takes effect at once.  Iterators go through keys in bytewise
    order.  Decoding transactions and recognising P2WPKH scripts is the bitcoin
    crate's ([BlockLib]); the order in which a [HashSet] is gone through is
    [hash_iter]. *)

From S2P Require Import Prelude Json Bitcoin IndexKeys.

(** ** Blocks *)
Class BlockLib : Type := {
  is_p2wpkh : bytes → bool;
  is_coinbase : Transaction → bool;
  varint_decode : bytes → string + (Z * bytes);
  tx_decode : bytes → string + (Transaction * bytes);
}.

(** 164-byte headers from this height on; [None] for plain Bitcoin. *)
Record HeaderFormat : Type := { v2_from : option Z }.

Definition header_len (f : HeaderFormat) (height : Z) : Z :=
  match v2_from f with
  | Some h => if h <=? height then 164 else 80
  | None => 80
  end.

Definition chain_id (f : HeaderFormat) : string :=
  match v2_from f with
  | Some h => "xbt@" +:+ pretty h
  | None => "btc"
  end.

Definition from_deployment_info (v : Value) : HeaderFormat := {|
  v2_from := head (omap as_u64
    [vindex "height" (vindex "blake2b" v); vindex "height" (vindex "blake2b" (vindex "deployments" v))] : list Z)
    ≫= try_from u32_max |}.

Record BlockBody : Type := { body_prev : bytes; body_time : Z; body_txs : list Transaction }.

(** [u32::from_le_bytes] *)
Definition from_le (b : bytes) : Z := from_be (rev b).

Definition slice (a b : nat) (l : bytes) : bytes := take (b - a) (drop a l).

Record Funded : Type := { f_program : bytes; f_vout : Z; f_value : Z }.
Record Spent : Type := { s_program : bytes; s_prevout : OutPoint }.
Record TxRows : Type := { r_txid : bytes; r_funded : list Funded; r_spent : list Spent }.
Record ParsedBlock : Type := { b_height : Z; b_hash : bytes; b_prev : bytes; b_time : Z; b_txs : list TxRows }.

Section extract.
Context `{BitcoinLib, BlockLib}.

Fixpoint decode_txs (k : nat) (i n : Z) (r : bytes) : result string (list Transaction * bytes) :=
  match k with
  | O => Ok ([], r)
  | S k =>
      match tx_decode r with
      | inl _ => Err ("decoding tx " +:+ pretty i +:+ " of " +:+ pretty n)
      | inr (tx, r) => '(txs, r) ← decode_txs k (i + 1) n r; mret (tx :: txs, r)
      end
  end.

Definition parse_block (b : bytes) (hlen : Z) : result string BlockBody :=
  _ ← bail_if (negb ((72 <=? hlen) && (hlen <=? Z.of_nat (length b))))
        ("block too short: " +:+ pretty (length b) +:+ " bytes for a " +:+ pretty hlen +:+ "-byte header");
  let r := drop (Z.to_nat hlen) b in
  '(n, r) ← match varint_decode r with inr x => Ok x | inl _ => Err "tx count" end;
  _ ← bail_if (negb (n <=? Z.of_nat (length r) / 10))
        ("implausible tx count " +:+ pretty n +:+ " for " +:+ pretty (length r) +:+ " remaining bytes (wrong header length?)");
  '(txs, r) ← decode_txs (Z.to_nat n) 0 n r;
  _ ← bail_if (negb (Nat.eqb (length r) 0)) ("trailing bytes: " +:+ pretty (length r) +:+ " after " +:+ pretty n +:+ " txs");
  mret {| body_prev := slice 4 36 b; body_time := from_le (slice 68 72 b); body_txs := txs |}.

Definition spend_program (i : TxIn) : option bytes :=
  if negb (Nat.eqb (length (script_sig i)) 0) || negb (Nat.eqb (length (witness i)) 2) then None
  else pk ← witness i !! 1%nat; Some (hash160 pk).

Definition funded_rows (tx : Transaction) : list Funded :=
  omap (λ x, x) (imap (λ i o, if is_p2wpkh (script_pubkey o)
    then Some {| f_program := slice 2 22 (script_pubkey o); f_vout := Z.of_nat i mod 2^32; f_value := value o |}
    else None) (output tx)).

Definition spent_rows (tx : Transaction) : list Spent :=
  if is_coinbase tx then []
  else omap (λ i, (λ p, {| s_program := p; s_prevout := previous_output i |}) <$> spend_program i) (input tx).

Definition tx_rows (tx : Transaction) : option TxRows :=
  match funded_rows tx, spent_rows tx with
  | [], [] => None
  | funded, spent => Some {| r_txid := compute_txid tx; r_funded := funded; r_spent := spent |}
  end.

Definition parse_and_extract (height : Z) (hash b : bytes) (fmt : HeaderFormat) : result string ParsedBlock :=
  body ← parse_block b (header_len fmt height);
  mret {| b_height := height; b_hash := hash; b_prev := body_prev body; b_time := body_time body;
          b_txs := omap tx_rows (body_txs body) |}.
End extract.

(** ** The database *)
Inductive Cf : Type := CfMeta | CfBlocks | CfTxids | CfHistory | CfUtxo | CfUndo | CfRender | CfScripthash.

#[export] Instance Cf_eq_dec : EqDecision Cf.
Proof. solve_decision. Defined.
#[export] Instance Cf_countable : Countable Cf.
Proof.
  refine (inj_countable'
    (λ c, match c with CfMeta => 0 | CfBlocks => 1 | CfTxids => 2 | CfHistory => 3 | CfUtxo => 4 | CfUndo => 5
                     | CfRender => 6 | CfScripthash => 7 end)%nat
    (λ n, match n with 0 => CfMeta | 1 => CfBlocks | 2 => CfTxids | 3 => CfHistory | 4 => CfUtxo | 5 => CfUndo
                     | 6 => CfRender | _ => CfScripthash end%nat) _).
  by intros [].
Defined.

Abbreviation Kv := (gmap (Cf * bytes) bytes).

Inductive Write : Type :=
| Put (cf : Cf) (k v : bytes)
| Del (cf : Cf) (k : bytes)
| DelRange (cf : Cf) (lo hi : bytes).

Definition in_span (cf : Cf) (lo hi : bytes) (x : Cf * bytes) : Prop :=
  fst x = cf ∧ bytes_ltb (snd x) lo = false ∧ bytes_ltb (snd x) hi = true.

#[export] Instance in_span_dec cf lo hi x : Decision (in_span cf lo hi x).
Proof. unfold in_span. apply _. Defined.

Definition write1 (kv : Kv) (w : Write) : Kv :=
  match w with
  | Put cf k v => <[(cf, k) := v]> kv
  | Del cf k => delete (cf, k) kv
  | DelRange cf lo hi => filter (λ x, ¬ in_span cf lo hi (fst x)) kv
  end.

(** A [WriteBatch], in the order it was filled. *)
Definition commit (kv : Kv) (wb : list Write) : Kv := foldl write1 kv wb.

Definition META_TIP : bytes := String.list_byte_of_string "tip".
Definition META_SCHEMA : bytes := String.list_byte_of_string "schema".
Definition META_CHAIN : bytes := String.list_byte_of_string "chain".
Definition SCHEMA_VERSION : Z := 2.
Definition MAX_REORG_DEPTH : Z := 288.

(** Going through a [HashSet]: its members, in no order one could name. *)
Class HashOrder : Type := {
  hash_iter : gset bytes → list bytes;
  hash_iter_perm s : hash_iter s ≡ₚ elements s;
}.

(** Errors that stop the process, and the others. *)
Inductive DbErr : Type := NoUndo (height : Z) | Other (e : string).

Definition lift_err {A} (r : result string A) : result DbErr A :=
  match r with Ok a => Ok a | Err e => Err (Other e) | Panic => Panic end.

Section db.
Context `{BitcoinLib, HashOrder}.

(** *** Applying blocks *)
Definition touched (tx : TxRows) : gset bytes :=
  list_to_set (map f_program (r_funded tx) ++ map s_program (r_spent tx)).

Definition funded_key (tx : TxRows) (f : Funded) : bytes :=
  utxo_key (f_program f) {| txid := r_txid tx; vout := f_vout f |}.
Definition funded_val (height : Z) (f : Funded) : UtxoVal := {| u_value := f_value f; u_height := height |}.
Definition spent_key (s : Spent) : bytes := utxo_key (s_program s) (s_prevout s).

(** What one transaction writes; its number was checked to fit. *)
Definition touch_writes (n : Z) (p : bytes) : list Write :=
  [Put CfScripthash (p2wpkh_scripthash p) p; Put CfHistory (history_bytes p n) []].
Definition tx_writes (n height : Z) (tx : TxRows) : list Write :=
  Put CfTxids (txnum_bytes n) (r_txid tx) ::
  map (λ f, Put CfUtxo (funded_key tx f) (utxo_encode (funded_val height f))) (r_funded tx) ++
  map (λ s, Del CfUtxo (spent_key s)) (r_spent tx) ++
  concat (map (touch_writes n) (hash_iter (touched tx))).

(** What an undo record is made from: the outputs funded so far in the batch,
    those added by this block, those it deletes. *)
Record Book : Type := {
  bk_batch : gmap bytes UtxoVal;
  bk_added : gset bytes;
  bk_deleted : list (bytes * UtxoVal);
}.

Definition book_fund (height : Z) (tx : TxRows) (bk : Book) (f : Funded) : Book := {|
  bk_batch := <[funded_key tx f := funded_val height f]> (bk_batch bk);
  bk_added := bk_added bk ∪ {[funded_key tx f]}; bk_deleted := bk_deleted bk |}.

Definition book_spend (bk : Book) (s : Spent) : Book :=
  let k := spent_key s in
  let bk := {| bk_batch := delete k (bk_batch bk); bk_added := bk_added bk; bk_deleted := bk_deleted bk |} in
  if decide (k ∈ bk_added bk) then
    {| bk_batch := bk_batch bk; bk_added := bk_added bk ∖ {[k]};
       bk_deleted := filter (λ x, fst x ≠ k) (bk_deleted bk) |}
  else bk.

Definition book_tx (keep_undo : bool) (height : Z) (bk : Book) (tx : TxRows) : Book :=
  if keep_undo then foldl book_spend (foldl (book_fund height tx) bk (r_funded tx)) (r_spent tx) else bk.

(** The transactions of a block from number [n] on: the writes, the keys
    added to the history, the book, the next number. *)
Fixpoint apply_txs (keep_undo : bool) (height n : Z) (bk : Book) (txs : list TxRows) :
    result DbErr (list Write * list bytes * Book * Z) :=
  match txs with
  | [] => Ok ([], [], bk, n)
  | tx :: txs =>
      _ ← bail_if (MAX_TXNUM <? n) (Other ("txnum space exhausted at height " +:+ pretty height));
      let hist := map (λ p, history_bytes p n) (hash_iter (touched tx)) in
      '(wb, hs, bk, m) ← apply_txs keep_undo height (n + 1) (book_tx keep_undo height bk tx) txs;
      mret (tx_writes n height tx ++ wb, hist ++ hs, bk, m)
  end.

(** The values of the outputs a block spends that exist before it: funded
    earlier in the batch, or committed. *)
Fixpoint spent_loop (kv : Kv) (batch : gmap bytes UtxoVal) (seen : gset bytes) (keys : list bytes) :
    result DbErr (list (bytes * UtxoVal)) :=
  match keys with
  | [] => Ok []
  | k :: keys =>
      if decide (k ∈ seen) then spent_loop kv batch seen keys
      else
        v ← match batch !! k with
            | Some v => Ok (Some v)
            | None =>
                match kv !! (CfUtxo, k) with
                | Some raw => v ← lift_err (utxo_decode raw); mret (Some v)
                | None => Ok None
                end
            end;
        l ← spent_loop kv batch ({[k]} ∪ seen) keys;
        mret (match v with Some v => (k, v) :: l | None => l end)
  end.

Definition block_spends (b : ParsedBlock) : list bytes := concat (map (λ tx, map spent_key (r_spent tx)) (b_txs b)).

Definition spent_values (kv : Kv) (b : ParsedBlock) (batch : gmap bytes UtxoVal) : result DbErr (list (bytes * UtxoVal)) :=
  spent_loop kv batch ∅ (block_spends b).

Definition block_rec (b : ParsedBlock) (first : Z) : BlockRec := {|
  br_hash := b_hash b; br_time := b_time b; br_first_txnum := first;
  br_n_txs := Z.of_nat (length (b_txs b)) mod 2^32 |}.

Fixpoint apply_blocks (kv : Kv) (keep_undo : bool) (batch : gmap bytes UtxoVal) (n : Z) (blocks : list ParsedBlock) :
    result DbErr (list Write * list BlockRec) :=
  match blocks with
  | [] => Ok ([], [])
  | b :: blocks =>
      deleted ← (if keep_undo then spent_values kv b batch else Ok []);
      '(wb, hist, bk, m) ← apply_txs keep_undo (b_height b) n
        {| bk_batch := batch; bk_added := ∅; bk_deleted := deleted |} (b_txs b);
      let rec := block_rec b n in
      row ← rec_encode rec;
      undo ← (if keep_undo then
                u ← undo_encode {| ud_first_txnum := n; ud_n_txs := br_n_txs rec; ud_added_history := hist;
                                   ud_added_utxo := hash_iter (bk_added bk); ud_deleted_utxo := bk_deleted bk |};
                mret [Put CfUndo (height_key (b_height b)) u]
              else Ok []);
      '(wbs, recs) ← apply_blocks kv keep_undo (bk_batch bk) m blocks;
      mret (wb ++ Put CfBlocks (height_key (b_height b)) row :: undo ++ wbs, rec :: recs)
  end.

Definition apply_batch (kv : Kv) (blocks : list ParsedBlock) (next_txnum : Z) (keep_undo : bool) :
    result DbErr (list Write * list BlockRec) :=
  '(wb, recs) ← apply_blocks kv keep_undo ∅ next_txnum blocks;
  let tip := match last blocks with
             | Some b => [Put CfMeta META_TIP (tip_value (b_height b) (b_hash b))]
             | None => []
             end in
  mret (wb ++ tip, recs).

(** *** Undoing one *)
Definition rollback_batch (kv : Kv) (height : Z) (rec : BlockRec) (new_tip : option (Z * bytes)) : result DbErr (list Write) :=
  match kv !! (CfUndo, height_key height) with
  | None => Err (NoUndo height)
  | Some raw =>
      undo ← match undo_decode raw with
             | Ok u => Ok u
             | Err _ => Err (Other ("undo record for height " +:+ pretty height))
             | Panic => Panic
             end;
      _ ← bail_if (negb (bool_decide ((ud_first_txnum undo, ud_n_txs undo) = (br_first_txnum rec, br_n_txs rec))))
            (Other ("undo for height " +:+ pretty height +:+ " covers txnums " +:+ pretty (ud_first_txnum undo) +:+ "+" +:+
               pretty (ud_n_txs undo) +:+ ", block row says " +:+ pretty (br_first_txnum rec) +:+ "+" +:+ pretty (br_n_txs rec)));
      let end_ := wrapping_add u64_max (br_first_txnum rec) (br_n_txs rec) in
      ranges ← (if br_first_txnum rec <? end_ then
                  lo ← txnum_key (br_first_txnum rec);
                  hi ← txnum_key end_;
                  mret [DelRange CfTxids lo hi; DelRange CfRender lo hi]
                else Ok []);
      mret (map (Del CfHistory) (ud_added_history undo) ++
            map (Del CfUtxo) (ud_added_utxo undo) ++
            map (λ x, Put CfUtxo (fst x) (utxo_encode (snd x))) (ud_deleted_utxo undo) ++
            ranges ++
            [Del CfBlocks (height_key height); Del CfUndo (height_key height);
             match new_tip with
             | Some (h, hash) => Put CfMeta META_TIP (tip_value h hash)
             | None => Del CfMeta META_TIP
             end])
  end.

Definition prune_batch (below : Z) : list Write := [DelRange CfUndo (height_key 0) (height_key below)].

(** *** Reading *)

(** The rows of a column family, in key order. *)
Definition bytes_leb (a b : bytes) : bool := negb (bytes_ltb b a).
Definition key_leb (a b : bytes * bytes) : bool := bytes_leb (fst a) (fst b).
Definition rows_of (kv : Kv) (cf : Cf) : list (bytes * bytes) :=
  sort_by key_leb (omap (λ x, if decide (fst (fst x) = cf) then Some (snd (fst x), snd x) else None) (map_to_list kv)).

Definition starts_with (p : bytes) (x : bytes * bytes) : bool := bool_decide (take (length p) (fst x) = p).
Fixpoint take_while {A} (f : A → bool) (l : list A) : list A :=
  match l with
  | [] => []
  | a :: l => if f a then a :: take_while f l else []
  end.

(** An iterator after [seek] goes up from the first key not below [k]; after
    [seek_for_prev], down from the last one not above it. *)
Definition from_key (k : bytes) (l : list (bytes * bytes)) : list (bytes * bytes) := filter (λ x, bytes_leb k (fst x)) l.
Definition down_from_key (k : bytes) (l : list (bytes * bytes)) : list (bytes * bytes) :=
  reverse (filter (λ x, bytes_leb (fst x) k) l).

Definition db_tip (kv : Kv) : result string (option (Z * bytes)) :=
  match kv !! (CfMeta, META_TIP) with
  | Some v => t ← tip_from v; mret (Some t)
  | None => Ok None
  end.

Definition load_blocks (kv : Kv) : result string (list (Z * BlockRec)) :=
  collect (λ x, if Nat.eqb (length (fst x)) 4 then r ← rec_decode (snd x); mret (from_be (fst x), r)
                else Err "blocks key length") (rows_of kv CfBlocks).

(** Newest first, at most [limit]. *)
Definition history (kv : Kv) (p : bytes) (limit : nat) : list Z :=
  take limit (map (λ x, history_txnum (fst x))
    (take_while (starts_with p) (down_from_key (history_bytes p MAX_TXNUM) (rows_of kv CfHistory)))).

Definition db_utxo (kv : Kv) (p : bytes) (op : OutPoint) : result string (option UtxoVal) :=
  match kv !! (CfUtxo, utxo_key p op) with
  | Some v => v ← utxo_decode v; mret (Some v)
  | None => Ok None
  end.

Definition db_txid (kv : Kv) (n : Z) : result string (option bytes) :=
  k ← txnum_key n;
  match kv !! (CfTxids, k) with
  | Some v => if Nat.eqb (length v) 32 then Ok (Some v) else Err "txid value length"
  | None => Ok None
  end.

Inductive ReadErr : Type := TooHeavy | ReadOther (e : string).

Fixpoint utxo_rows (max_rows seen : nat) (l : list (bytes * bytes)) : result ReadErr (list (OutPoint * UtxoVal)) :=
  match l with
  | [] => Ok []
  | (k, raw) :: l =>
      if Nat.eqb seen max_rows then Err TooHeavy
      else
        v ← match utxo_decode raw with Ok v => Ok v | Err e => Err (ReadOther e) | Panic => Panic end;
        rest ← utxo_rows max_rows (S seen) l;
        mret ((utxo_outpoint k, v) :: rest)
  end.
Definition program_rows (kv : Kv) (p : bytes) : list (bytes * bytes) :=
  take_while (starts_with p) (from_key p (rows_of kv CfUtxo)).
Definition utxos_of (kv : Kv) (p : bytes) (max_rows : nat) : result ReadErr (list (OutPoint * UtxoVal)) :=
  utxo_rows max_rows 0 (program_rows kv p).

(** The heap of [utxos_largest]: its smallest element first. *)
Definition heap_leb (op_leb : OutPoint → OutPoint → bool) (a b : OutPoint * UtxoVal) : bool :=
  (u_value (snd a) <? u_value (snd b)) || ((u_value (snd a) =? u_value (snd b)) && op_leb (fst a) (fst b)).
Record Unlisted : Type := { un_count : Z; un_value : Z }.

Fixpoint largest_loop (op_leb : OutPoint → OutPoint → bool) (max_rows : nat) (keep : OutPoint → bool)
    (heap : list (OutPoint * UtxoVal)) (rest : Unlisted) (l : list (bytes * bytes)) :
    result string (list (OutPoint * UtxoVal) * Unlisted) :=
  match l with
  | [] => Ok (heap, rest)
  | (k, raw) :: l =>
      let op := utxo_outpoint k in
      if keep op then
        v ← utxo_decode raw;
        let heap := insert_by (heap_leb op_leb) (op, v) heap in
        if Nat.ltb max_rows (length heap) then
          match heap with
          | [] => Panic
          | (_, v) :: heap =>
              largest_loop op_leb max_rows keep heap
                {| un_count := wrapping_add u64_max (un_count rest) 1;
                   un_value := wrapping_add u64_max (un_value rest) (u_value v) |} l
          end
        else largest_loop op_leb max_rows keep heap rest l
      else largest_loop op_leb max_rows keep heap rest l
  end.
Definition utxos_largest (op_leb : OutPoint → OutPoint → bool) (kv : Kv) (p : bytes) (max_rows : nat) (keep : OutPoint → bool) :
    result string (list (OutPoint * UtxoVal) * Unlisted) :=
  largest_loop op_leb max_rows keep [] {| un_count := 0; un_value := 0 |} (program_rows kv p).

Definition program_for_scripthash (kv : Kv) (sh : bytes) : option bytes :=
  v ← kv !! (CfScripthash, sh); if Nat.eqb (length v) 20 then Some v else None.

Definition program_at_or_after (kv : Kv) (in_history : bool) (key : bytes) : option bytes :=
  x ← head (from_key key (rows_of kv (if in_history then CfHistory else CfUtxo)));
  if Nat.leb 20 (length (fst x)) then Some (take 20 (fst x)) else None.

Definition render_get (kv : Kv) (n : Z) : result string (option bytes) :=
  k ← txnum_key n; mret (kv !! (CfRender, k)).

End db.
