(* ===== verification/IndexSpec.v ===== *)
(** What the rows of the index mean: the transactions of a chain numbered from
    zero, the unspent outputs they leave, and how the writes of a batch change
    a database that holds them. *)

From S2P Require Import Prelude Json Bitcoin IndexKeys Index.

(** ** The transactions of a chain *)
Abbreviation Row := (Z * TxRows)%type.

Definition rows_in (b : ParsedBlock) : list Row := map (λ tx, (b_height b, tx)) (b_txs b).
Definition numbered (chain : list ParsedBlock) : list Row := concat (map rows_in chain).

(** Types of the fields: fixed-size arrays and machine integers. *)
Record tx_ok (tx : TxRows) : Prop := {
  to_txid : length (r_txid tx) = 32%nat;
  to_funded : Forall (λ f, length (f_program f) = 20%nat ∧ 0 ≤ f_vout f ≤ u32_max ∧ 0 ≤ f_value f ≤ u64_max) (r_funded tx);
  to_spent : Forall (λ s, length (s_program s) = 20%nat ∧ length (txid (s_prevout s)) = 32%nat ∧
    0 ≤ vout (s_prevout s) ≤ u32_max) (r_spent tx);
}.

Definition row_ok (x : Row) : Prop := 0 ≤ fst x ≤ u32_max ∧ tx_ok (snd x).

(** The fields of a block, and a size any block stays under. *)
Record block_ok (b : ParsedBlock) : Prop := {
  ko_height : 0 ≤ b_height b ≤ u32_max;
  ko_hash : length (b_hash b) = 32%nat;
  ko_time : 0 ≤ b_time b ≤ u32_max;
  ko_txs : Forall tx_ok (b_txs b);
  ko_size : sumZ (λ tx, 1 + Z.of_nat (length (r_funded tx)) + Z.of_nat (length (r_spent tx))) (b_txs b) ≤ u32_max;
}.

(** ** Unspent outputs *)
Definition fund_all (height : Z) (tx : TxRows) (m : gmap bytes UtxoVal) (l : list Funded) : gmap bytes UtxoVal :=
  foldl (λ m f, <[funded_key tx f := funded_val height f]> m) m l.
Definition spend_all (m : gmap bytes UtxoVal) (l : list Spent) : gmap bytes UtxoVal :=
  foldl (λ m s, delete (spent_key s) m) m l.
Definition tx_effect (m : gmap bytes UtxoVal) (x : Row) : gmap bytes UtxoVal :=
  spend_all (fund_all (fst x) (snd x) m (r_funded (snd x))) (r_spent (snd x)).
Definition utxo_set (l : list Row) : gmap bytes UtxoVal := foldl tx_effect ∅ l.

Lemma utxo_set_snoc l x : utxo_set (l ++ [x]) = tx_effect (utxo_set l) x.
Proof. unfold utxo_set. by rewrite foldl_app. Qed.
Lemma utxo_set_app l l' : utxo_set (l ++ l') = foldl tx_effect (utxo_set l) l'.
Proof. unfold utxo_set. by rewrite foldl_app. Qed.

Definition val_ok (k : bytes) (v : UtxoVal) : Prop := length k = 56%nat ∧ utxo_val_ok v.

Lemma length_funded_key tx f : tx_ok tx → f ∈ r_funded tx → length (funded_key tx f) = 56%nat.
Proof.
  intros [Ht Hf _] Hin. rewrite Forall_forall in Hf. destruct (Hf f Hin) as (Hp & _).
  unfold funded_key, utxo_key. simpl. by rewrite !length_app, Hp, Ht, length_be_bytes.
Qed.

Lemma fund_all_ok height tx m l :
  row_ok (height, tx) → l ⊆ r_funded tx → map_Forall val_ok m → map_Forall val_ok (fund_all height tx m l).
Proof.
  intros [Hh Htx] Hl. revert m. induction l as [|f l IH]; intros m Hm; simpl; [done|].
  apply IH; [set_solver|]. apply map_Forall_insert_2; [|done].
  split; [apply length_funded_key; [done|set_solver]|]. simpl in *. destruct Htx as [_ Hf _]. rewrite Forall_forall in Hf.
  destruct (Hf f) as (_ & _ & Hv); [set_solver|]. by split.
Qed.

Lemma spend_all_ok (m : gmap bytes UtxoVal) l : map_Forall val_ok m → map_Forall val_ok (spend_all m l).
Proof. revert m. induction l as [|s l IH]; intros m Hm; simpl; [done|]. by apply IH, map_Forall_delete. Qed.

Lemma tx_effect_ok m x : row_ok x → map_Forall val_ok m → map_Forall val_ok (tx_effect m x).
Proof. destruct x. intros Hx Hm. by apply spend_all_ok, fund_all_ok. Qed.

Lemma utxo_set_ok l : Forall row_ok l → map_Forall val_ok (utxo_set l).
Proof.
  induction l as [|x l IH] using rev_ind; [done|]. rewrite Forall_app, Forall_singleton, utxo_set_snoc.
  intros [Hl Hx]. by apply tx_effect_ok; [|apply IH].
Qed.

(** ** Databases that hold the rows of a list of transactions *)
Arguments commit : simpl never.

Section rows.
Context `{BitcoinLib, HashOrder}.

Definition holds_utxos (kv : Kv) (m : gmap bytes UtxoVal) : Prop :=
  ∀ k, kv !! (CfUtxo, k) = utxo_encode <$> m !! k.

Record rows_ok (kv : Kv) (l : list Row) : Prop := {
  ro_fits : Z.of_nat (length l) ≤ MAX_TXNUM + 1;
  ro_txids k v : kv !! (CfTxids, k) = Some v ↔
    ∃ n x, l !! n = Some x ∧ k = txnum_bytes (Z.of_nat n) ∧ v = r_txid (snd x);
  ro_history k v : kv !! (CfHistory, k) = Some v ↔
    v = [] ∧ ∃ n x p, l !! n = Some x ∧ p ∈ touched (snd x) ∧ k = history_bytes p (Z.of_nat n);
  ro_utxo : holds_utxos kv (utxo_set l);
}.

(** ** Writes *)
Definition write_cf (w : Write) : Cf := match w with Put cf _ _ | Del cf _ | DelRange cf _ _ => cf end.

Lemma commit_app kv a b : commit kv (a ++ b) = commit (commit kv a) b.
Proof. apply foldl_app. Qed.
Lemma commit_cons kv w b : commit kv (w :: b) = commit (write1 kv w) b.
Proof. done. Qed.

Lemma write1_other kv w cf k : write_cf w ≠ cf → write1 kv w !! (cf, k) = kv !! (cf, k).
Proof.
  destruct w as [c k' v|c k'|c lo hi]; simpl; intros Hne.
  - rewrite lookup_insert_ne; [done|congruence].
  - rewrite lookup_delete_ne; [done|congruence].
  - destruct (kv !! (cf, k)) as [v|] eqn:E.
    + apply map_lookup_filter_Some. split; [done|]. intros [? _]. simpl in *. congruence.
    + apply map_lookup_filter_None. by left.
Qed.

Lemma commit_other kv wb cf k : Forall (λ w, write_cf w ≠ cf) wb → commit kv wb !! (cf, k) = kv !! (cf, k).
Proof.
  intros Hall. revert kv. induction Hall as [|w wb Hw _ IH]; intros kv; [done|].
  rewrite commit_cons, IH. by apply write1_other.
Qed.

(** Families a list of writes leaves alone. *)
Lemma Forall_map_cf {A} (f : A → Write) l cf : (∀ a, write_cf (f a) ≠ cf) → Forall (λ w, write_cf w ≠ cf) (map f l).
Proof. intros Hf. apply Forall_map. by apply Forall_forall. Qed.

Lemma touch_cf n ps cf : cf ≠ CfScripthash → cf ≠ CfHistory →
  Forall (λ w, write_cf w ≠ cf) (concat (map (touch_writes n) ps)).
Proof.
  intros H1 H2. induction ps as [|p ps IH]; simpl; [constructor|]. repeat (constructor; [simpl; congruence|]). done.
Qed.

Lemma tx_writes_cf n height tx cf :
  cf ≠ CfTxids → cf ≠ CfUtxo → cf ≠ CfScripthash → cf ≠ CfHistory →
  Forall (λ w, write_cf w ≠ cf) (tx_writes n height tx).
Proof.
  intros H1 H2 H3 H4. unfold tx_writes. constructor; [done|]. rewrite !Forall_app. split_and!.
  - by apply Forall_map_cf.
  - by apply Forall_map_cf.
  - by apply touch_cf.
Qed.

(** *** One transaction *)
Lemma holds_fund kv m height tx l :
  holds_utxos kv m →
  holds_utxos (commit kv (map (λ f, Put CfUtxo (funded_key tx f) (utxo_encode (funded_val height f))) l)) (fund_all height tx m l).
Proof.
  revert kv m. induction l as [|f l IH]; intros kv m Hm; [done|]. cbn [map]. rewrite commit_cons. apply IH. intros k. simpl.
  destruct (decide (k = funded_key tx f)) as [->|Hne]; [by rewrite !lookup_insert_eq|].
  rewrite !lookup_insert_ne by congruence. apply Hm.
Qed.

Lemma holds_spend kv m l :
  holds_utxos kv m → holds_utxos (commit kv (map (λ s, Del CfUtxo (spent_key s)) l)) (spend_all m l).
Proof.
  revert kv m. induction l as [|s l IH]; intros kv m Hm; [done|]. cbn [map]. rewrite commit_cons. apply IH. intros k. simpl.
  destruct (decide (k = spent_key s)) as [->|Hne]; [by rewrite !lookup_delete_eq|].
  rewrite !lookup_delete_ne by congruence. apply Hm.
Qed.

Lemma holds_other kv m wb : Forall (λ w, write_cf w ≠ CfUtxo) wb → holds_utxos kv m → holds_utxos (commit kv wb) m.
Proof. intros Hwb Hm k. rewrite commit_other by done. apply Hm. Qed.

Lemma tx_writes_utxo kv m n height tx :
  holds_utxos kv m → holds_utxos (commit kv (tx_writes n height tx)) (tx_effect m (height, tx)).
Proof.
  intros Hm. unfold tx_writes. rewrite commit_cons, !commit_app. apply holds_other; [by apply touch_cf|].
  apply holds_spend, holds_fund. intros k. rewrite write1_other by done. apply Hm.
Qed.

Lemma touch_history kv n ps k :
  commit kv (concat (map (touch_writes n) ps)) !! (CfHistory, k) =
  if decide (k ∈ map (λ p, history_bytes p n) ps) then Some [] else kv !! (CfHistory, k).
Proof.
  revert kv. induction ps as [|p ps IH]; intros kv; [done|]. cbn [map concat]. unfold touch_writes at 1. cbn [app].
  rewrite !commit_cons, IH. cbn [write1].
  destruct (decide (k ∈ map _ ps)) as [Hin|Hin]; [rewrite decide_True by set_solver; done|].
  destruct (decide (k = history_bytes p n)) as [->|Hne].
  - rewrite lookup_insert_eq, decide_True by set_solver. done.
  - rewrite lookup_insert_ne, lookup_insert_ne, decide_False by set_solver. done.
Qed.

(** The rows of one more transaction. *)
Lemma tx_step kv l height tx :
  rows_ok kv l → Z.of_nat (length l) ≤ MAX_TXNUM →
  rows_ok (commit kv (tx_writes (Z.of_nat (length l)) height tx)) (l ++ [(height, tx)]).
Proof.
  intros [_ Ht Hh Hu] Hmax. split.
  - rewrite length_app. simpl. lia.
  - intros k v. unfold tx_writes. rewrite commit_cons, !commit_app, !commit_other
      by (try apply Forall_map_cf; try apply touch_cf; done).
    cbn [write1]. rewrite lookup_insert_Some, Ht. split.
    + intros [[[= <-] <-]|[_ (n & x & Hn & -> & ->)]].
      * exists (length l), (height, tx). split; [by apply list_lookup_middle|done].
      * exists n, x. split; [by apply lookup_app_l_Some|done].
    + intros (n & x & [Hn|[-> <-]]%lookup_snoc_Some & -> & ->); [right|by left]. destruct Hn as [Hlt Hn].
      split; [|by eauto]. intros E%(f_equal snd). apply txnum_bytes_inj in E; lia.
  - intros k v. unfold tx_writes. rewrite commit_cons, !commit_app, touch_history.
    rewrite !commit_other by by apply Forall_map_cf. rewrite write1_other by done.
    assert (Hin : k ∈ map (λ p, history_bytes p (Z.of_nat (length l))) (hash_iter (touched tx)) ↔
      ∃ p, p ∈ touched tx ∧ k = history_bytes p (Z.of_nat (length l))).
    { rewrite list_elem_of_fmap. setoid_rewrite hash_iter_perm. setoid_rewrite elem_of_elements. naive_solver. }
    case_decide as Hk.
    + apply Hin in Hk as (p & Hp & ->). split.
      * intros [= <-]. split; [done|]. exists (length l), (height, tx), p. split; [by apply list_lookup_middle|done].
      * by intros [-> _].
    + rewrite Hh. split.
      * intros (-> & n & x & p & Hn & Hp & ->). split; [done|]. exists n, x, p. split; [by apply lookup_app_l_Some|done].
      * intros (-> & n & x & p & [[_ Hn]|[-> <-]]%lookup_snoc_Some & Hp & ->); [split; [done|by exists n, x, p]|].
        exfalso. apply Hk, Hin. by exists p.
  - rewrite utxo_set_snoc. by apply tx_writes_utxo.
Qed.

(** *** The book of a block *)

(** What undoing a record makes of the unspent outputs. *)
Definition restored (u : Undo) (m : gmap bytes UtxoVal) : gmap bytes UtxoVal :=
  foldl (λ m x, <[fst x := snd x]> m) (foldl (λ m k, delete k m) m (ud_added_utxo u)) (ud_deleted_utxo u).

Lemma foldl_insert_lookup (d : list (bytes * UtxoVal)) (m : gmap bytes UtxoVal) (U : gmap bytes UtxoVal) k :
  (∀ k v, (k, v) ∈ d → U !! k = Some v) →
  foldl (λ m x, <[fst x := snd x]> m) m d !! k = if decide (k ∈ d.*1) then U !! k else m !! k.
Proof.
  revert m. induction d as [|[k' v'] d IH]; intros m Hd; [done|]. cbn [foldl fst snd fmap list_fmap].
  rewrite IH by set_solver. destruct (decide (k ∈ d.*1)) as [Hin|Hin].
  - rewrite decide_True by set_solver. done.
  - destruct (decide (k = k')) as [->|Hne].
    + rewrite lookup_insert_eq, decide_True by set_solver. symmetry. apply Hd. set_solver.
    + rewrite lookup_insert_ne, decide_False by set_solver. done.
Qed.

Lemma foldl_delete_lookup (ks : list bytes) (m : gmap bytes UtxoVal) k :
  foldl (λ m k, delete k m) m ks !! k = if decide (k ∈ ks) then None else m !! k.
Proof.
  revert m. induction ks as [|k' ks IH]; intros m; [done|]. cbn [foldl]. rewrite IH.
  destruct (decide (k ∈ ks)) as [Hin|Hin]; [by rewrite decide_True by set_solver|].
  destruct (decide (k = k')) as [->|Hne].
  - rewrite lookup_delete_eq, decide_True by set_solver. done.
  - rewrite lookup_delete_ne, decide_False by set_solver. done.
Qed.

Lemma filter_id {A} (P : A → Prop) `{∀ x, Decision (P x)} (l : list A) : Forall P l → filter P l = l.
Proof. induction 1 as [|x l Hx _ IH]; [done|]. by rewrite filter_cons_True, IH. Qed.

(** Half way through a block: [U] are the outputs before it, [m] those now,
    [ks] the keys it spends. *)
Record book_ok (U m : gmap bytes UtxoVal) (ks : list bytes) (d : list (bytes * UtxoVal)) (bk : Book) : Prop := {
  ok_deleted : bk_deleted bk = d;
  ok_values k v : (k, v) ∈ d ↔ k ∈ ks ∧ U !! k = Some v;
  ok_added k : k ∈ bk_added bk → U !! k = None;
  ok_rest k : U !! k = None ∨ k ∉ ks → U !! k = if decide (k ∈ bk_added bk) then None else m !! k;
}.

Lemma book_fund_ok U m ks d bk height tx f :
  book_ok U m ks d bk → U !! funded_key tx f = None →
  book_ok U (<[funded_key tx f := funded_val height f]> m) ks d (book_fund height tx bk f).
Proof.
  intros [Hd Hv Ha Hr] Hf. split; [done|done|..].
  - intros k. simpl. intros [Hk|Hk%elem_of_singleton]%elem_of_union; [by apply Ha|by subst].
  - intros k Hk. simpl. destruct (decide (k = funded_key tx f)) as [->|Hne].
    + rewrite decide_True by set_solver. done.
    + rewrite lookup_insert_ne by done. rewrite (Hr k Hk).
      destruct (decide (k ∈ bk_added bk)); [by rewrite decide_True by set_solver|by rewrite decide_False by set_solver].
Qed.

Lemma book_spend_ok U m ks d bk s :
  book_ok U m ks d bk → spent_key s ∈ ks → book_ok U (delete (spent_key s) m) ks d (book_spend bk s).
Proof.
  intros [Hd Hv Ha Hr] Hs. unfold book_spend. simpl. set (k0 := spent_key s) in *. case_decide as Hin.
  - split; simpl.
    + rewrite Hd. apply filter_id, Forall_forall. intros [k v] [_ Hk]%Hv. simpl. intros ->. rewrite (Ha k0 Hin) in Hk. done.
    + done.
    + intros k [Hk _]%elem_of_difference. by apply Ha.
    + intros k Hk. destruct (decide (k = k0)) as [->|Hne].
      * rewrite decide_False by set_solver. rewrite lookup_delete_eq. by apply Ha.
      * rewrite lookup_delete_ne by done. rewrite (Hr k Hk).
        destruct (decide (k ∈ bk_added bk)); [by rewrite decide_True by set_solver|by rewrite decide_False by set_solver].
  - split; simpl; [done|done|done|]. intros k Hk. destruct (decide (k = k0)) as [->|Hne].
    + rewrite decide_False by done. rewrite lookup_delete_eq. by destruct Hk.
    + rewrite lookup_delete_ne by done. by apply Hr.
Qed.

(** A funded output of the block is not there before it: no two unspent
    outputs share an outpoint (BIP 30). *)
Definition fresh_in (U : gmap bytes UtxoVal) (txs : list TxRows) : Prop :=
  ∀ tx f, tx ∈ txs → f ∈ r_funded tx → U !! funded_key tx f = None.

Lemma book_tx_ok U m ks d bk height tx :
  book_ok U m ks d bk → (∀ f, f ∈ r_funded tx → U !! funded_key tx f = None) →
  (∀ s, s ∈ r_spent tx → spent_key s ∈ ks) →
  book_ok U (tx_effect m (height, tx)) ks d (book_tx true height bk tx).
Proof.
  intros Hok Hf Hs. unfold tx_effect, book_tx. cbn [fst snd].
  assert (Hfund : ∀ l m bk, book_ok U m ks d bk → (∀ f, f ∈ l → U !! funded_key tx f = None) →
    book_ok U (fund_all height tx m l) ks d (foldl (book_fund height tx) bk l)).
  { induction l as [|f l IH]; intros m' bk' Hok' Hl; [done|]. cbn. apply IH; [|set_solver].
    apply book_fund_ok; [done|set_solver]. }
  assert (Hspend : ∀ l m bk, book_ok U m ks d bk → (∀ s, s ∈ l → spent_key s ∈ ks) →
    book_ok U (spend_all m l) ks d (foldl book_spend bk l)).
  { induction l as [|s l IH]; intros m' bk' Hok' Hl; [done|]. cbn. apply IH; [|set_solver].
    apply book_spend_ok; [done|set_solver]. }
  apply Hspend; [|done]. by apply Hfund.
Qed.

Lemma book_restores U m ks d bk u :
  book_ok U m ks d bk → ud_deleted_utxo u = d → ud_added_utxo u ≡ₚ elements (bk_added bk) → restored u m = U.
Proof.
  intros [_ Hv Ha Hr] Hd Hadd. apply map_eq. intros k. unfold restored. rewrite Hd.
  rewrite (foldl_insert_lookup d _ U) by by intros k' v' [_ ?]%Hv. rewrite foldl_delete_lookup.
  assert (Hin : k ∈ ud_added_utxo u ↔ k ∈ bk_added bk) by by rewrite Hadd, elem_of_elements.
  case_decide as Hk; [done|]. destruct (U !! k) as [v|] eqn:HU.
  - rewrite decide_False by (intros ?%Hin%Ha; congruence). rewrite <-HU, Hr.
    + rewrite decide_False; [done|]. intros ?%Ha. congruence.
    + right. intros Hks. apply Hk. apply list_elem_of_fmap. exists (k, v). split; [done|]. by apply Hv.
  - rewrite <-HU, (Hr k) by by left. by destruct (decide (k ∈ ud_added_utxo u)), (decide (k ∈ bk_added bk)); try tauto.
Qed.

(** *** What a block's undo record holds *)

(** The outputs a batch sees: funded in it, or committed before. *)
Definition seen_in (batch m : gmap bytes UtxoVal) (k : bytes) : option UtxoVal :=
  match batch !! k with Some v => Some v | None => m !! k end.

Lemma spent_loop_spec kv m batch seen keys d :
  holds_utxos kv m → map_Forall val_ok m → spent_loop kv batch seen keys = Ok d →
  ∀ k v, (k, v) ∈ d ↔ k ∈ keys ∧ k ∉ seen ∧ seen_in batch m k = Some v.
Proof.
  intros Hm Hok. revert seen d. induction keys as [|k0 keys IH]; intros seen d; cbn [spent_loop].
  { intros [= <-]. set_solver. }
  case_decide as Hseen.
  { intros Hd k v. rewrite (IH _ _ Hd). set_solver. }
  intros (v0 & Hv0 & (l & Hl & [= <-])%bind_Ok)%bind_Ok k v.
  assert (Hlook : v0 = seen_in batch m k0).
  { unfold seen_in. destruct (batch !! k0); [by injection Hv0 as <-|]. rewrite Hm in Hv0.
    destruct (m !! k0) as [v1|] eqn:E; cbn [fmap option_fmap option_map] in Hv0; [|by injection Hv0 as <-].
    destruct (Hok _ _ E) as [_ Hvok]. rewrite utxo_decode_encode in Hv0 by done. by injection Hv0 as <-. }
  pose proof (IH _ _ Hl k v) as Hrest.
  assert (Hcase : (k, v) ∈ (match v0 with Some v => (k0, v) :: l | None => l end) ↔
    (k = k0 ∧ v0 = Some v) ∨ (k, v) ∈ l).
  { destruct v0; [|naive_solver]. rewrite elem_of_cons. naive_solver. }
  rewrite Hcase, Hrest, Hlook, elem_of_cons, elem_of_union, elem_of_singleton.
  destruct (decide (k = k0)) as [->|]; naive_solver.
Qed.

Lemma spent_loop_length kv batch seen keys d : spent_loop kv batch seen keys = Ok d → (length d ≤ length keys)%nat.
Proof.
  revert seen d. induction keys as [|k keys IH]; intros seen d; cbn [spent_loop]; [by intros [= <-]|].
  case_decide; [intros Hd; apply IH in Hd; simpl; lia|].
  intros (v & _ & (l & Hl & [= <-])%bind_Ok)%bind_Ok. apply IH in Hl. destruct v; simpl; lia.
Qed.

(** The record undoes the transactions [l'] after [l]. *)
Record undo_for (u : Undo) (l l' : list Row) : Prop := {
  uf_first : ud_first_txnum u = Z.of_nat (length l);
  uf_n_txs : ud_n_txs u = Z.of_nat (length l');
  uf_history k : k ∈ ud_added_history u ↔
    ∃ n x p, l' !! n = Some x ∧ p ∈ touched (snd x) ∧ k = history_bytes p (Z.of_nat (length l + n));
  uf_utxo : restored u (utxo_set (l ++ l')) = utxo_set l;
}.

(** *** The transactions of a block *)
Definition row_at (height : Z) (tx : TxRows) : Row := (height, tx).

Lemma elem_of_hash_iter p s : p ∈ hash_iter s ↔ p ∈ s.
Proof. by rewrite hash_iter_perm, elem_of_elements. Qed.

(** Families the transactions of a block leave alone. *)
Lemma apply_txs_cf keep height n bk txs wb hist bk' m cf :
  apply_txs keep height n bk txs = Ok (wb, hist, bk', m) →
  cf ≠ CfTxids → cf ≠ CfUtxo → cf ≠ CfScripthash → cf ≠ CfHistory → Forall (λ w, write_cf w ≠ cf) wb.
Proof.
  intros Htxs H1 H2 H3 H4. revert n bk wb hist bk' m Htxs. induction txs as [|tx txs IH]; intros n bk wb hist bk' m; cbn [apply_txs].
  { intros [= <- <- <- <-]. constructor. }
  intros (_ & _ & ([[[wb1 hist1] bk1] m1] & Hr & Heq)%bind_Ok)%bind_Ok.
  remember (tx_writes n height tx) as txw eqn:Htxw. injection Heq as <- <- <- <-.
  apply Forall_app. split; [subst txw; by apply tx_writes_cf|by eapply IH].
Qed.

Lemma apply_txs_rows keep height txs l bk kv wb hist bk' m :
  rows_ok kv l → apply_txs keep height (Z.of_nat (length l)) bk txs = Ok (wb, hist, bk', m) →
  let l' := map (row_at height) txs in
  rows_ok (commit kv wb) (l ++ l') ∧ m = Z.of_nat (length (l ++ l')) ∧ bk' = foldl (book_tx keep height) bk txs ∧
  (∀ k, k ∈ hist ↔ ∃ n x p, l' !! n = Some x ∧ p ∈ touched (snd x) ∧ k = history_bytes p (Z.of_nat (length l + n))) ∧
  (∀ cf, cf ≠ CfTxids → cf ≠ CfUtxo → cf ≠ CfScripthash → cf ≠ CfHistory → Forall (λ w, write_cf w ≠ cf) wb).
Proof.
  revert l bk kv wb hist bk' m. induction txs as [|tx txs IH]; intros l bk kv wb hist bk' m Hkv; cbn [apply_txs].
  { intros [= <- <- <- <-]. rewrite app_nil_r. split_and!; try done. set_solver. }
  intros Hall. pose proof (λ cf, apply_txs_cf _ _ _ _ (tx :: txs) _ _ _ _ cf Hall) as Hcf. revert Hall. cbn [apply_txs].
  intros (_ & Hfits%bail_if_Ok & Hrest)%bind_Ok. apply Z.ltb_ge in Hfits.
  apply bind_Ok in Hrest as ([[[wb1 hist1] bk1] m1] & Hr & Heq).
  remember (tx_writes (Z.of_nat (length l)) height tx) as txw eqn:Htxw. injection Heq as <- <- <- <-.
  assert (Hn : Z.of_nat (length l) + 1 = Z.of_nat (length (l ++ [row_at height tx])))
    by (rewrite length_app; simpl; lia).
  rewrite Hn in Hr. apply (IH _ _ (commit kv txw)) in Hr; [|subst txw; by apply tx_step].
  destruct Hr as (Hrows & -> & -> & Hhist & _). cbn [map]. rewrite commit_app.
  rewrite <-app_assoc in Hrows |- *. split_and!; [done|done|done| |done].
  - intros k. rewrite elem_of_app, Hhist, list_elem_of_fmap. setoid_rewrite elem_of_hash_iter. split.
    + intros [(p & -> & Hp)|(n & x & p & Hx & Hp & ->)].
      * exists 0%nat, (height, tx), p. by rewrite Nat.add_0_r.
      * exists (S n), x, p. split_and!; [done..|]. rewrite length_app. simpl. f_equal. lia.
    + intros ([|n] & x & p & Hx & Hp & ->).
      * injection Hx as <-. left. exists p. by rewrite Nat.add_0_r.
      * right. exists n, x, p. split_and!; [done..|]. rewrite length_app. simpl. f_equal. lia.
Qed.

Lemma apply_txs_length keep height txs n bk wb hist bk' m :
  apply_txs keep height n bk txs = Ok (wb, hist, bk', m) →
  Z.of_nat (length hist) ≤ sumZ (λ tx, 1 + Z.of_nat (length (r_funded tx)) + Z.of_nat (length (r_spent tx))) txs.
Proof.
  revert n bk wb hist bk' m. induction txs as [|tx txs IH]; intros n bk wb hist bk' m; cbn [apply_txs].
  { by intros [= <- <- <- <-]. }
  intros (_ & _ & ([[[wb1 hist1] bk1] m1] & Hr & [= <- <- <- <-])%bind_Ok)%bind_Ok. apply IH in Hr.
  rewrite length_app, length_map, sumZ_cons.
  assert (length (hash_iter (touched tx)) ≤ length (r_funded tx) + length (r_spent tx))%nat; [|lia].
  rewrite hash_iter_perm, <-(length_map f_program), <-(length_map s_program), <-length_app.
  apply submseteq_length, NoDup_submseteq; [apply NoDup_elements|]. intros p. unfold touched. set_solver.
Qed.

End rows.
