(* ===== verification/IndexChain.v ===== *)
(** The index of a chain of blocks: applying a batch of blocks extends the
    chain the database holds, undoing a block takes it back. *)

From S2P Require Import Prelude Json Bitcoin IndexKeys Index IndexSpec.

Section chain.
Context `{BitcoinLib, HashOrder}.

(** Blocks that follow each other. *)
Definition linked (chain : list ParsedBlock) : Prop :=
  ∀ i b b', chain !! i = Some b → chain !! S i = Some b' → b_height b' = b_height b + 1 ∧ b_prev b' = b_hash b.

Record chain_ok (chain : list ParsedBlock) : Prop := {
  co_blocks : Forall block_ok chain;
  co_linked : linked chain;
}.

(** The row of the [i]-th block. *)
Definition rec_of (chain : list ParsedBlock) (i : nat) (b : ParsedBlock) : BlockRec :=
  block_rec b (Z.of_nat (length (numbered (take i chain)))).
Definition recs_of (chain : list ParsedBlock) : list BlockRec := imap (rec_of chain) chain.

(** The database holds the rows of the chain; the tip is apart. *)
Record stored (kv : Kv) (chain : list ParsedBlock) : Prop := {
  st_rows : rows_ok kv (numbered chain);
  st_blocks k v : kv !! (CfBlocks, k) = Some v ↔
    ∃ i b, chain !! i = Some b ∧ k = height_key (b_height b) ∧ v = rec_bytes (rec_of chain i b);
  st_undo k v : kv !! (CfUndo, k) = Some v →
    ∃ i b u, chain !! i = Some b ∧ k = height_key (b_height b) ∧ undo_decode v = Ok u ∧
      undo_for u (numbered (take i chain)) (rows_in b);
}.

Definition tip_of (chain : list ParsedBlock) : option bytes :=
  (λ b, tip_value (b_height b) (b_hash b)) <$> last chain.

Record represents (kv : Kv) (chain : list ParsedBlock) : Prop := {
  rp_stored : stored kv chain;
  rp_tip : kv !! (CfMeta, META_TIP) = tip_of chain;
}.

(** ** Chains *)
Lemma numbered_app a b : numbered (a ++ b) = numbered a ++ numbered b.
Proof. unfold numbered. by rewrite map_app, concat_app. Qed.
Lemma numbered_snoc a b : numbered (a ++ [b]) = numbered a ++ rows_in b.
Proof. rewrite numbered_app. unfold numbered at 2. simpl. by rewrite app_nil_r. Qed.

Lemma linked_prefix a b : linked (a ++ b) → linked a.
Proof. intros Hl i x y Hx Hy. eapply Hl; by apply lookup_app_l_Some. Qed.
Lemma chain_ok_prefix a b : chain_ok (a ++ b) → chain_ok a.
Proof. intros [[Hb _]%Forall_app Hl]. split; [done|by eapply linked_prefix]. Qed.

Lemma chain_ok_mid a b l : chain_ok (a ++ b :: l) → block_ok b.
Proof. intros [Hb _]. apply Forall_app in Hb as [_ Hb]. by inversion Hb. Qed.

Lemma linked_heights chain i j b b' :
  linked chain → chain !! i = Some b → chain !! j = Some b' →
  b_height b' - b_height b = Z.of_nat j - Z.of_nat i.
Proof.
  intros Hl. assert (Hup : ∀ d i b b', chain !! i = Some b → chain !! (i + d)%nat = Some b' → b_height b' = b_height b + Z.of_nat d).
  { induction d as [|d IH]; intros i0 x y Hx Hy.
    - rewrite Nat.add_0_r in Hy. simplify_eq. lia.
    - destruct (lookup_lt_is_Some_2 chain (i0 + d)) as [z Hz]; [apply lookup_lt_Some in Hy; lia|].
      rewrite Nat.add_succ_r in Hy. destruct (Hl _ _ _ Hz Hy) as [-> _]. rewrite (IH _ _ _ Hx Hz). lia. }
  intros Hi Hj. destruct (decide (i ≤ j)%nat).
  - rewrite (Hup (j - i)%nat i b b'); [lia|done|]. by replace (i + (j - i))%nat with j by lia.
  - rewrite (Hup (i - j)%nat j b' b); [lia|done|]. by replace (j + (i - j))%nat with i by lia.
Qed.

Lemma height_key_inj a b : 0 ≤ a ≤ u32_max → 0 ≤ b ≤ u32_max → height_key a = height_key b → a = b.
Proof. intros Ha Hb. apply be_bytes_inj; width_lia. Qed.

Lemma block_keys_distinct chain i j b b' :
  chain_ok chain → chain !! i = Some b → chain !! j = Some b' →
  height_key (b_height b) = height_key (b_height b') → i = j.
Proof.
  intros [Hb Hl] Hi Hj E. pose proof (linked_heights _ _ _ _ _ Hl Hi Hj). rewrite Forall_lookup in Hb.
  apply height_key_inj in E; [lia|apply (Hb _ _ Hi)|apply (Hb _ _ Hj)].
Qed.

Lemma rows_in_ok b : block_ok b → Forall row_ok (rows_in b).
Proof.
  intros [Hh _ _ Ht _]. unfold rows_in. apply Forall_map. eapply Forall_impl; [exact Ht|]. by intros tx Htx.
Qed.
Lemma numbered_ok chain : Forall block_ok chain → Forall row_ok (numbered chain).
Proof.
  induction chain as [|b chain IH] using rev_ind; [constructor|]. rewrite Forall_app, Forall_singleton, numbered_snoc.
  intros [Hc Hb]. apply Forall_app. split; [by apply IH|by apply rows_in_ok].
Qed.

Lemma length_rows_in b : length (rows_in b) = length (b_txs b).
Proof. apply length_map. Qed.

Lemma block_ok_n_txs b first : block_ok b → br_n_txs (block_rec b first) = Z.of_nat (length (b_txs b)).
Proof.
  intros [_ _ _ _ Hsize]. unfold block_rec. cbn [br_n_txs]. apply Z.mod_small.
  assert (Z.of_nat (length (b_txs b)) ≤ sumZ (λ tx, 1 + Z.of_nat (length (r_funded tx)) + Z.of_nat (length (r_spent tx))) (b_txs b)).
  { clear. induction (b_txs b) as [|tx l IH]; [done|]. rewrite sumZ_cons. simpl length. lia. }
  width_lia.
Qed.

Lemma rec_of_app a b i x : (i ≤ length a)%nat → rec_of (a ++ b) i x = rec_of a i x.
Proof. intros Hi. unfold rec_of. by rewrite take_app_le. Qed.

(** ** Batches *)
Definition block_funds (txs : list TxRows) : list bytes := concat (map (λ tx, map (funded_key tx) (r_funded tx)) txs).
Definition txs_spends (txs : list TxRows) : list bytes := concat (map (λ tx, map spent_key (r_spent tx)) txs).

Lemma book_funds_added height tx bk l :
  bk_added (foldl (book_fund height tx) bk l) = bk_added bk ∪ list_to_set (map (funded_key tx) l) ∧
  bk_batch (foldl (book_fund height tx) bk l) = fund_all height tx (bk_batch bk) l.
Proof.
  revert bk. induction l as [|f l IH]; intros bk; [simpl; split; [set_solver|done]|]. cbn [foldl map list_to_set].
  destruct (IH (book_fund height tx bk f)) as [-> ->]. simpl. split; [set_solver|done].
Qed.

Lemma book_spends_added bk l :
  bk_added (foldl book_spend bk l) ⊆ bk_added bk ∧ bk_batch (foldl book_spend bk l) = spend_all (bk_batch bk) l.
Proof.
  revert bk. induction l as [|s l IH]; intros bk; [done|]. cbn [foldl]. destruct (IH (book_spend bk s)) as [Hsub ->].
  unfold book_spend in *. simpl in *. case_decide; simpl in *; (split; [set_solver|done]).
Qed.

Lemma book_txs_added height bk txs :
  ∀ k, k ∈ bk_added (foldl (book_tx true height) bk txs) → k ∈ bk_added bk ∨ k ∈ block_funds txs.
Proof.
  revert bk. induction txs as [|tx txs IH]; intros bk k; [by left|]. cbn [foldl]. intros [Hk|Hk]%IH.
  - unfold book_tx in Hk. destruct (book_spends_added (foldl (book_fund height tx) bk (r_funded tx)) (r_spent tx)) as [Hsub _].
    destruct (book_funds_added height tx bk (r_funded tx)) as [Hadd _]. rewrite Hadd in Hsub. apply Hsub in Hk.
    unfold block_funds. cbn [map concat]. set_solver.
  - right. unfold block_funds in *. cbn [map concat]. set_solver.
Qed.

Lemma fund_all_lookup height tx m l k :
  fund_all height tx m l !! k = match fund_all height tx ∅ l !! k with Some v => Some v | None => m !! k end.
Proof.
  revert m. induction l as [|f l IH]; intros m; [done|]. unfold fund_all in *. cbn [foldl].
  rewrite IH, (IH (<[_:=_]> ∅)). destruct (foldl _ ∅ l !! k); [done|].
  destruct (decide (k = funded_key tx f)) as [->|]; [by rewrite !lookup_insert_eq|].
  by rewrite !lookup_insert_ne, lookup_empty by done.
Qed.

Lemma spend_all_lookup (m : gmap bytes UtxoVal) l k :
  spend_all m l !! k = if decide (k ∈ map spent_key l) then None else m !! k.
Proof.
  revert m. induction l as [|s l IH]; intros m; [done|]. unfold spend_all in *. cbn [foldl map]. rewrite IH.
  destruct (decide (k ∈ map spent_key l)); [by rewrite decide_True by set_solver|].
  destruct (decide (k = spent_key s)) as [->|].
  - rewrite lookup_delete_eq, decide_True by set_solver. done.
  - rewrite lookup_delete_ne, decide_False by set_solver. done.
Qed.

(** What the batch sees is what is there, but for what it spent itself. *)
Lemma seen_tx (batch m0 m : gmap bytes UtxoVal) (S : gset bytes) height tx :
  (∀ k : bytes, k ∉ S → seen_in batch m0 k = m !! k) →
  ∀ k : bytes, k ∉ S → k ∉ map spent_key (r_spent tx) →
    seen_in (spend_all (fund_all height tx batch (r_funded tx)) (r_spent tx)) m0 k = tx_effect m (height, tx) !! k.
Proof.
  intros Hsee k HS Hk. unfold seen_in, tx_effect. cbn [fst snd]. rewrite !spend_all_lookup, !decide_False by done.
  rewrite (fund_all_lookup _ _ batch), (fund_all_lookup _ _ m). rewrite <-Hsee by done. unfold seen_in.
  by destruct (fund_all height tx ∅ (r_funded tx) !! k), (batch !! k).
Qed.

Lemma seen_txs (bk : Book) (m0 m : gmap bytes UtxoVal) (S : gset bytes) height txs :
  (∀ k : bytes, k ∉ S → seen_in (bk_batch bk) m0 k = m !! k) →
  ∀ k : bytes, k ∉ S → k ∉ txs_spends txs →
    seen_in (bk_batch (foldl (book_tx true height) bk txs)) m0 k = foldl tx_effect m (map (row_at height) txs) !! k.
Proof.
  revert bk m S. induction txs as [|tx txs IH]; intros bk m S Hsee k HS Hk; [by apply Hsee|].
  cbn [foldl map]. unfold txs_spends in *. cbn [map concat] in Hk. apply not_elem_of_app in Hk as [Hk1 Hk2].
  apply (IH _ _ (S ∪ list_to_set (map spent_key (r_spent tx)))); [|set_solver|done].
  intros k' Hk'. unfold book_tx.
  destruct (book_spends_added (foldl (book_fund height tx) bk (r_funded tx)) (r_spent tx)) as [_ ->].
  destruct (book_funds_added height tx bk (r_funded tx)) as [_ ->]. unfold row_at.
  apply (seen_tx _ _ _ S); [done|set_solver..].
Qed.

Lemma book_txs_ok U m ks d bk height txs :
  book_ok U m ks d bk → fresh_in U txs → (∀ k, k ∈ txs_spends txs → k ∈ ks) →
  book_ok U (foldl tx_effect m (map (row_at height) txs)) ks d (foldl (book_tx true height) bk txs).
Proof.
  revert m bk. induction txs as [|tx txs IH]; intros m bk Hok Hf Hs; [done|]. cbn [foldl map].
  unfold txs_spends in *. cbn [map concat] in Hs.
  apply IH; [|intros tx' f Htx'; apply Hf; set_solver|set_solver].
  apply book_tx_ok; [done|intros f Hin; apply Hf; set_solver|]. intros s Hin. apply Hs. set_solver.
Qed.

Lemma length_touched x p : row_ok x → p ∈ touched (snd x) → length p = 20%nat.
Proof.
  intros [_ [_ Hf Hs]]. rewrite Forall_forall in Hf; rewrite Forall_forall in Hs. unfold touched. rewrite elem_of_list_to_set.
  intros [(f & -> & Hin)%list_elem_of_fmap|(s & -> & Hin)%list_elem_of_fmap]%elem_of_app; [by apply Hf|by apply Hs].
Qed.

Lemma elem_of_concat_map {A} (f : A → list bytes) l k : k ∈ concat (map f l) ↔ ∃ a, a ∈ l ∧ k ∈ f a.
Proof. induction l as [|a l IH]; simpl; [set_solver|]. rewrite elem_of_app, IH. set_solver. Qed.

Lemma length_concat_map {A} (f : A → list bytes) l :
  Z.of_nat (length (concat (map f l))) = sumZ (λ a, Z.of_nat (length (f a))) l.
Proof. induction l as [|a l IH]; [done|]. simpl. rewrite length_app, sumZ_cons. lia. Qed.

Lemma sumZ_le {A} (f g : A → Z) l : (∀ a, f a ≤ g a) → sumZ f l ≤ sumZ g l.
Proof. intros Hfg. induction l as [|a l IH]; [done|]. rewrite !sumZ_cons. specialize (Hfg a). lia. Qed.

Lemma block_funds_key b k : block_ok b → k ∈ block_funds (b_txs b) → length k = 56%nat.
Proof.
  intros [_ _ _ Ht _] (tx & Htx & (f & -> & Hf)%list_elem_of_fmap)%elem_of_concat_map. rewrite Forall_forall in Ht.
  apply length_funded_key; [by apply Ht|done].
Qed.

Lemma block_counts b : block_ok b →
  Z.of_nat (length (block_funds (b_txs b))) ≤ u32_max ∧ Z.of_nat (length (block_spends b)) ≤ u32_max.
Proof.
  intros [_ _ _ _ Hsize]. unfold block_funds, block_spends. rewrite !length_concat_map.
  split; (etrans; [|exact Hsize]); apply sumZ_le; intros tx; rewrite length_map; lia.
Qed.

(** The undo record [apply] writes undoes the block, and reads back. *)
Lemma block_undo (kv0 : Kv) (m0 batch : gmap bytes UtxoVal) (S : gset bytes) (l : list Row) (b : ParsedBlock)
    (d : list (bytes * UtxoVal)) (hist : list bytes) (bk' : Book) :
  holds_utxos kv0 m0 → map_Forall val_ok m0 → Forall row_ok l → block_ok b → Z.of_nat (length l) ≤ MAX_TXNUM →
  (∀ k : bytes, k ∉ S → seen_in batch m0 k = utxo_set l !! k) →
  fresh_in (utxo_set l) (b_txs b) → (∀ k : bytes, k ∈ block_spends b → k ∉ S) →
  spent_values kv0 b batch = Ok d →
  bk' = foldl (book_tx true (b_height b)) {| bk_batch := batch; bk_added := ∅; bk_deleted := d |} (b_txs b) →
  (∀ k, k ∈ hist ↔ ∃ n x p, rows_in b !! n = Some x ∧ p ∈ touched (snd x) ∧ k = history_bytes p (Z.of_nat (length l + n))) →
  Z.of_nat (length hist) ≤ u32_max →
  let u := {| ud_first_txnum := Z.of_nat (length l); ud_n_txs := br_n_txs (block_rec b (Z.of_nat (length l)));
              ud_added_history := hist; ud_added_utxo := hash_iter (bk_added bk'); ud_deleted_utxo := bk_deleted bk' |} in
  undo_for u l (rows_in b) ∧ undo_ok u.
Proof.
  intros Hkv Hm0 Hl Hb Hmax Hsee Hfresh HS Hd Hbk Hhist Hlen u.
  assert (Hvals : ∀ k v, (k, v) ∈ d ↔ k ∈ block_spends b ∧ utxo_set l !! k = Some v).
  { intros k v. rewrite (spent_loop_spec kv0 m0 batch ∅ (block_spends b) d Hkv Hm0 Hd). split.
    - intros (Hk & _ & Hsn). split; [done|]. by rewrite <-Hsee by by apply HS.
    - intros [Hk Hv]. split_and!; [done|set_solver|]. by rewrite Hsee by by apply HS. }
  assert (Hbook : book_ok (utxo_set l) (utxo_set (l ++ rows_in b)) (block_spends b) d bk').
  { rewrite utxo_set_app, Hbk. apply book_txs_ok; [|done..]. split; [done|done|set_solver|].
    intros k _. simpl. by rewrite decide_False by set_solver. }
  pose proof (block_ok_n_txs b (Z.of_nat (length l)) Hb) as Hn. pose proof (block_counts b Hb) as [Hc1 Hc2].
  assert (Hadded : ∀ k, k ∈ hash_iter (bk_added bk') → k ∈ block_funds (b_txs b)).
  { intros k Hk%elem_of_hash_iter. rewrite Hbk in Hk. apply book_txs_added in Hk as [Hk|Hk]; [set_solver|done]. }
  split; [split|split]; unfold u; cbn [ud_first_txnum ud_n_txs ud_added_history ud_added_utxo ud_deleted_utxo].
  - done.
  - by rewrite Hn, length_rows_in.
  - done.
  - eapply book_restores; [exact Hbook|by apply Hbook|by apply hash_iter_perm].
  - lia.
  - rewrite Hn. split; [lia|]. rewrite <-Hn. unfold block_rec. cbn [br_n_txs].
    pose proof (Z.mod_pos_bound (Z.of_nat (length (b_txs b))) (2^32) ltac:(lia)). width_lia.
  - apply Forall_forall. intros k (n & x & p & Hx & Hp & ->)%Hhist. unfold history_bytes.
    rewrite length_app, length_txnum_bytes, (length_touched x p); [done| |done].
    eapply Forall_lookup_1; [by apply rows_in_ok|done].
  - apply Forall_forall. intros k Hk%Hadded. by eapply block_funds_key.
  - rewrite (ok_deleted _ _ _ _ _ Hbook). apply Forall_forall. intros [k v] [_ Hv]%Hvals. simpl.
    by apply (utxo_set_ok l Hl).
  - split_and!; [done| |].
    + etrans; [|exact Hc1]. apply Nat2Z.inj_le, submseteq_length, NoDup_submseteq; [|exact Hadded].
      rewrite hash_iter_perm. apply NoDup_elements.
    + rewrite (ok_deleted _ _ _ _ _ Hbook). etrans; [|exact Hc2]. apply Nat2Z.inj_le. by eapply spent_loop_length.
Qed.

(** *** One more block *)
Lemma stored_block kv chain b wb uw :
  stored kv chain → chain_ok (chain ++ [b]) →
  rows_ok (commit kv wb) (numbered chain ++ rows_in b) →
  (∀ cf, cf ≠ CfTxids → cf ≠ CfUtxo → cf ≠ CfScripthash → cf ≠ CfHistory → Forall (λ w, write_cf w ≠ cf) wb) →
  uw = [] ∨ (∃ raw u, uw = [Put CfUndo (height_key (b_height b)) raw] ∧ undo_decode raw = Ok u ∧
               undo_for u (numbered chain) (rows_in b)) →
  stored (commit kv (wb ++ Put CfBlocks (height_key (b_height b)) (rec_bytes (rec_of (chain ++ [b]) (length chain) b)) :: uw))
    (chain ++ [b]).
Proof.
  intros [_ Hb Hu] Hok Hrows Hcf Huw. rewrite commit_app, commit_cons.
  assert (Huwcf : ∀ cf, cf ≠ CfUndo → Forall (λ w, write_cf w ≠ cf) uw).
  { intros cf Hcf'. destruct Huw as [->|(raw & u & -> & _)]; [constructor|]. by constructor. }
  assert (Hnew : ∀ i x, chain !! i = Some x → height_key (b_height b) ≠ height_key (b_height x)).
  { intros i x Hi E. symmetry in E.
    assert (i = length chain) as ->; [|by apply lookup_lt_Some in Hi; lia].
    eapply block_keys_distinct; [exact Hok|by apply lookup_app_l_Some| |exact E]. by apply list_lookup_middle. }
  split.
  - rewrite numbered_snoc.
    destruct Hrows as [H1' H2' H3' H4']. split; [done|..].
    + intros k v. rewrite commit_other by by apply Huwcf. rewrite write1_other by done. apply H2'.
    + intros k v. rewrite commit_other by by apply Huwcf. rewrite write1_other by done. apply H3'.
    + intros k. rewrite commit_other by by apply Huwcf. rewrite write1_other by done. apply H4'.
  - intros k v. rewrite commit_other by by apply Huwcf. cbn [write1]. rewrite lookup_insert_Some.
    rewrite commit_other by by apply Hcf. rewrite Hb. split.
    + intros [[[= <-] <-]|[_ (i & x & Hi & -> & ->)]].
      * exists (length chain), b. split; [by apply list_lookup_middle|done].
      * exists i, x. split_and!; [by apply lookup_app_l_Some|done|]. rewrite rec_of_app; [done|].
        apply lookup_lt_Some in Hi. lia.
    + intros (i & x & [[Hlt Hi]|[-> <-]]%lookup_snoc_Some & -> & ->); [right|by left]. split.
      * intros E%(f_equal snd). by eapply Hnew.
      * exists i, x. split_and!; [done..|]. rewrite rec_of_app by lia. done.
  - intros k v Hkv. assert (Hold : kv !! (CfUndo, k) = Some v → ∃ i x u, (chain ++ [b]) !! i = Some x ∧
      k = height_key (b_height x) ∧ undo_decode v = Ok u ∧ undo_for u (numbered (take i (chain ++ [b]))) (rows_in x)).
    { intros (i & x & u & Hi & -> & Hd & Hf)%Hu. exists i, x, u. split_and!; [by apply lookup_app_l_Some|done|done|].
      rewrite take_app_le; [done|]. apply lookup_lt_Some in Hi. lia. }
    destruct Huw as [->|(raw & u & -> & Hd & Hf)].
    + change (commit ?m []) with m in Hkv. rewrite write1_other, commit_other in Hkv by (try apply Hcf; done). auto.
    + rewrite commit_cons in Hkv. change (commit ?m []) with m in Hkv. cbn [write1] in Hkv.
      apply lookup_insert_Some in Hkv as [[[= <-] <-]|[_ Hkv]].
      * exists (length chain), b, u. split_and!; [by apply list_lookup_middle|done|done|]. by rewrite take_app_length.
      * rewrite lookup_insert_ne in Hkv by done. rewrite commit_other in Hkv by by apply Hcf. auto.
Qed.

(** The blocks of a batch, for its undo records: outputs are new, and no block
    spends what an earlier one of the batch spent. *)
Fixpoint batch_ok (l : list Row) (S : gset bytes) (bs : list ParsedBlock) : Prop :=
  match bs with
  | [] => True
  | b :: bs =>
      fresh_in (utxo_set l) (b_txs b) ∧ (∀ k : bytes, k ∈ block_spends b → k ∉ S) ∧
      batch_ok (l ++ rows_in b) (S ∪ list_to_set (block_spends b)) bs
  end.

Lemma apply_blocks_stored (kv0 : Kv) (m0 : gmap bytes UtxoVal) (keep : bool) (bs : list ParsedBlock) :
  holds_utxos kv0 m0 → map_Forall val_ok m0 →
  ∀ (kv : Kv) (chain : list ParsedBlock) (batch : gmap bytes UtxoVal) (S : gset bytes) (wb : list Write) (recs : list BlockRec),
  stored kv chain → chain_ok (chain ++ bs) →
  (keep = true → batch_ok (numbered chain) S bs ∧ ∀ k : bytes, k ∉ S → seen_in batch m0 k = utxo_set (numbered chain) !! k) →
  apply_blocks kv0 keep batch (Z.of_nat (length (numbered chain))) bs = Ok (wb, recs) →
  stored (commit kv wb) (chain ++ bs) ∧ recs = drop (length chain) (recs_of (chain ++ bs)) ∧
  Forall (λ w, write_cf w ≠ CfMeta) wb.
Proof.
  intros Hkv0 Hm0. induction bs as [|b bs IH]; intros kv chain batch S wb recs Hst Hok Hundo; cbn [apply_blocks].
  { intros [= <- <-]. rewrite app_nil_r. split_and!; [done| |constructor].
    rewrite drop_ge; [done|]. unfold recs_of. by rewrite length_imap. }
  intros (d & Hd & ([[[wb1 hist] bk] m] & Htxs & (row & Hrow & Hrest)%bind_Ok)%bind_Ok)%bind_Ok.
  apply bind_Ok in Hrest as (uw & Huw & ([wbs recs1] & Hbs & Heq)%bind_Ok).
  apply rec_encode_Ok in Hrow as [Hmax ->]. cbn [block_rec br_first_txnum] in Hmax.
  pose proof Htxs as Hlen. apply apply_txs_length in Hlen.
  apply (apply_txs_rows keep (b_height b) (b_txs b) (numbered chain) _ kv) in Htxs; [|by apply Hst].
  destruct Htxs as (Hrows & -> & Hbk & Hhist & Hcf). fold (rows_in b) in *.
  assert (Hb : block_ok b) by (by eapply chain_ok_mid).
  replace (chain ++ b :: bs) with ((chain ++ [b]) ++ bs) in * by by rewrite <-app_assoc.
  assert (Hrec : block_rec b (Z.of_nat (length (numbered chain))) = rec_of (chain ++ [b]) (length chain) b)
    by (unfold rec_of; by rewrite take_app_length).
  assert (Huw' : uw = [] ∨ (∃ raw u, uw = [Put CfUndo (height_key (b_height b)) raw] ∧ undo_decode raw = Ok u ∧
    undo_for u (numbered chain) (rows_in b))).
  { destruct keep; [|injection Huw as <-; by left]. right. destruct Hundo as [(Hfresh & HS & _) Hsee]; [done|].
    apply bind_Ok in Huw as (raw & Hraw & [= <-]).
    destruct (block_undo kv0 m0 batch S (numbered chain) b d hist bk) as [Hfor Huok]; try done.
    - apply numbered_ok. pose proof (co_blocks _ Hok) as Hall. rewrite <-app_assoc in Hall. by apply Forall_app in Hall as [? _].
    - etrans; [exact Hlen|apply Hb].
    - destruct (undo_decode_encode (E:=DbErr) _ Huok) as (raw' & Henc & Hdec). rewrite Hraw in Henc. simplify_eq. eauto. }
  pose proof (chain_ok_prefix _ _ Hok) as Hokb.
  pose proof (stored_block kv chain b wb1 uw Hst Hokb Hrows Hcf Huw') as Hst1.
  change (map (row_at (b_height b)) (b_txs b)) with (rows_in b) in Hbs. rewrite <-numbered_snoc in Hbs.
  apply (IH (commit kv (wb1 ++ Put CfBlocks (height_key (b_height b)) (rec_bytes (rec_of (chain ++ [b]) (length chain) b)) :: uw))
    (chain ++ [b]) (bk_batch bk) (S ∪ list_to_set (block_spends b))) in Hbs; [|done|done|].
  - destruct Hbs as (Hst2 & -> & Hmeta). injection Heq as <- <-. rewrite Hrec. split_and!.
    + rewrite (app_comm_cons uw wbs), app_assoc, commit_app. done.
    + rewrite length_app. simpl. rewrite Nat.add_1_r. unfold recs_of.
      erewrite (drop_S _ _ (length chain)); [done|]. rewrite list_lookup_imap, lookup_app_l by (rewrite length_app; simpl; lia).
      rewrite list_lookup_middle by done. simpl. by rewrite rec_of_app by (rewrite length_app; simpl; lia).
    + rewrite Forall_app, Forall_cons, Forall_app. split_and!; [by apply Hcf|done| |done].
      destruct Huw' as [->|(raw & u & -> & _)]; [constructor|by constructor].
  - intros ->. destruct Hundo as [(_ & _ & Hnext) Hsee]; [done|]. split; [by rewrite numbered_snoc|].
    intros k Hk. rewrite numbered_snoc, utxo_set_app, Hbk. apply (seen_txs _ _ _ S); [done|set_solver|].
    change (txs_spends (b_txs b)) with (block_spends b). set_solver.
Qed.

End chain.
