(* ===== verification/IndexApply.v ===== *)
(** Whole batches: applying blocks returns and extends the chain the database
    represents; undoing the last block returns and takes it back. *)

From S2P Require Import Prelude Json Bitcoin IndexKeys Index IndexSpec IndexChain.

Section apply.
Context `{BitcoinLib, HashOrder}.

Definition next_of (chain : list ParsedBlock) : Z := Z.of_nat (length (numbered chain)).

(** ** Applying *)
Lemma apply_txs_total keep height n bk txs :
  n + Z.of_nat (length txs) ≤ MAX_TXNUM + 1 → ∃ wb hist bk', apply_txs keep height n bk txs = Ok (wb, hist, bk', n + Z.of_nat (length txs)).
Proof.
  revert n bk. induction txs as [|tx txs IH]; intros n bk Hn; cbn [apply_txs].
  { rewrite Z.add_0_r. eauto. }
  cbn [length] in Hn. rewrite (proj2 (Z.ltb_ge _ _)) by lia. cbn [bail_if]. rcbn.
  destruct (IH (n + 1) (book_tx keep height bk tx)) as (wb & hist & bk' & ->); [lia|]. rcbn.
  replace (n + 1 + Z.of_nat (length txs)) with (n + Z.of_nat (length (tx :: txs))) by (cbn [length]; lia). eauto.
Qed.

Lemma spent_loop_total (kv : Kv) (m batch : gmap bytes UtxoVal) (seen : gset bytes) (keys : list bytes) :
  holds_utxos kv m → map_Forall val_ok m → ∃ d, spent_loop kv batch seen keys = Ok d.
Proof.
  intros Hm Hok. revert seen. induction keys as [|k keys IH]; intros seen; cbn [spent_loop]; [eauto|].
  case_decide; [apply IH|]. destruct (IH ({[k]} ∪ seen)) as [d Hd].
  assert (Hv : ∃ v : option UtxoVal, match batch !! k with
      | Some v => Ok (Some v)
      | None => match kv !! (CfUtxo, k) with
                | Some raw => v ← lift_err (utxo_decode raw); mret (Some v)
                | None => Ok None
                end
      end = Ok v).
  { destruct (batch !! k); [eauto|]. rewrite Hm. destruct (m !! k) as [v|] eqn:E; [|by eauto].
    destruct (Hok _ _ E) as [_ Hvok]. cbn [fmap option_fmap option_map]. rewrite utxo_decode_encode by done. by eauto. }
  destruct Hv as [v ->]. rcbn. rewrite Hd. by eauto.
Qed.

Lemma apply_blocks_total (kv : Kv) (m : gmap bytes UtxoVal) (keep : bool) (batch : gmap bytes UtxoVal) (n : Z) (bs : list ParsedBlock) :
  holds_utxos kv m → map_Forall val_ok m → 0 ≤ n →
  n + Z.of_nat (length (numbered bs)) ≤ MAX_TXNUM → ∃ wb recs, apply_blocks kv keep batch n bs = Ok (wb, recs).
Proof.
  intros Hm Hok. revert batch n. induction bs as [|b bs IH]; intros batch n Hn Hmax; cbn [apply_blocks]; [eauto|].
  change (b :: bs) with ([b] ++ bs) in Hmax. rewrite numbered_app, length_app in Hmax.
  assert (Hb : length (numbered [b]) = length (b_txs b))
    by (unfold numbered; cbn [map concat]; by rewrite app_nil_r, length_rows_in).
  destruct (spent_loop_total kv m batch ∅ (block_spends b)) as [d Hd]; [done..|].
  set (dd := if keep then d else []).
  replace (if keep then spent_values kv b batch else Ok []) with (Ok (E:=DbErr) dd)
    by (unfold dd, spent_values; by destruct keep). rcbn.
  destruct (apply_txs_total keep (b_height b) n {| bk_batch := batch; bk_added := ∅; bk_deleted := dd |} (b_txs b))
    as (wb & hist & bk & ->); [lia|]. rcbn.
  rewrite (proj2 (rec_encode_Ok _ _)) by (split; [simpl; lia|done]). rcbn.
  destruct (IH (bk_batch bk) (n + Z.of_nat (length (b_txs b)))) as (wbs & recs & Hrest); [lia..|].
  destruct keep.
  - unfold undo_encode. rewrite (proj2 (txnum_key_Ok _ _)) by (split; [simpl; lia|done]). rcbn.
    cbn [mret result_ret]. rcbn. rewrite Hrest. by eauto.
  - rcbn. rewrite Hrest. by eauto.
Qed.

(** Which undo records there are. *)
Lemma apply_blocks_undo (kv0 : Kv) (keep : bool) (batch : gmap bytes UtxoVal) (n : Z) bs wb recs :
  apply_blocks kv0 keep batch n bs = Ok (wb, recs) →
  ∀ (kv : Kv) k, is_Some (commit kv wb !! (CfUndo, k)) ↔
    is_Some (kv !! (CfUndo, k)) ∨ (keep = true ∧ k ∈ map (λ b, height_key (b_height b)) bs).
Proof.
  revert batch n wb recs. induction bs as [|b bs IH]; intros batch n wb recs; cbn [apply_blocks].
  { intros [= <- <-] kv k. change (commit kv []) with kv. set_solver. }
  intros (d & _ & ([[[wb1 hist] bk] m] & Htxs & (row & _ & Hrest)%bind_Ok)%bind_Ok)%bind_Ok.
  apply bind_Ok in Hrest as (uw & Huw & ([wbs recs1] & Hbs & [= <- <-])%bind_Ok). intros kv k.
  rewrite commit_app, commit_cons, commit_app, (IH _ _ _ _ Hbs). cbn [map].
  assert (Hold : write1 (commit kv wb1) (Put CfBlocks (height_key (b_height b)) row) !! (CfUndo, k) = kv !! (CfUndo, k)).
  { rewrite write1_other by done. apply commit_other. eapply apply_txs_cf; done. }
  destruct keep.
  - apply bind_Ok in Huw as (raw & _ & [= <-]). rewrite commit_cons. change (commit ?m []) with m. cbn [write1].
    destruct (decide (k = height_key (b_height b))) as [->|Hne].
    + rewrite lookup_insert_eq. split; [right; set_solver|left; by eauto].
    + rewrite lookup_insert_ne by congruence. cbn [write1] in Hold. rewrite Hold. set_solver.
  - injection Huw as <-. change (commit ?m []) with m. rewrite Hold. naive_solver.
Qed.

Lemma represents_utxos kv chain : represents kv chain → holds_utxos kv (utxo_set (numbered chain)).
Proof. intros [[[_ _ _ Hu] _ _] _]. exact Hu. Qed.
Lemma chain_ok_utxos chain : chain_ok chain → map_Forall val_ok (utxo_set (numbered chain)).
Proof. intros [Hb _]. by apply utxo_set_ok, numbered_ok. Qed.

Lemma last_app_some {A} (l l' : list A) a : last l' = Some a → last (l ++ l') = Some a.
Proof. intros Hl. by rewrite last_app, Hl. Qed.

(** The tip's row and rendered transactions are not among the rows of the
    chain, and undo records may go. *)
Definition chain_cf (cf : Cf) : bool :=
  match cf with CfTxids | CfHistory | CfUtxo | CfBlocks => true | _ => false end.

Lemma stored_same (kv kv' : Kv) chain :
  stored kv chain → (∀ cf k, chain_cf cf → kv' !! (cf, k) = kv !! (cf, k)) →
  (∀ k v, kv' !! (CfUndo, k) = Some v → kv !! (CfUndo, k) = Some v) → stored kv' chain.
Proof.
  intros [[H1' H2' H3' H4'] H5' H6'] Hsame Hundo. split; [split; [done|..]|..].
  - intros k v. rewrite Hsame by done. apply H2'.
  - intros k v. rewrite Hsame by done. apply H3'.
  - intros k. rewrite Hsame by done. apply H4'.
  - intros k v. rewrite Hsame by done. apply H5'.
  - intros k v Hk. by apply H6', Hundo.
Qed.

Lemma apply_batch_represents kv chain keep bs wb recs :
  represents kv chain → chain_ok (chain ++ bs) → (keep = true → batch_ok (numbered chain) ∅ bs) →
  apply_batch kv bs (next_of chain) keep = Ok (wb, recs) →
  represents (commit kv wb) (chain ++ bs) ∧ recs = drop (length chain) (recs_of (chain ++ bs)).
Proof.
  intros Hrep Hok Hkeep ([wb1 recs1] & Hbs & [= <- <-])%bind_Ok.
  apply (apply_blocks_stored kv (utxo_set (numbered chain)) keep bs) with (kv := kv) (chain := chain) (S := ∅) in Hbs.
  - destruct Hbs as (Hst & -> & Hmeta). split; [|done]. rewrite commit_app. split.
    + assert (Hsame : ∀ cf k, cf ≠ CfMeta → commit (commit kv wb1) (match last bs with
        | Some b => [Put CfMeta META_TIP (tip_value (b_height b) (b_hash b))] | None => [] end) !! (cf, k) = commit kv wb1 !! (cf, k)).
      { intros cf k Hcf. apply commit_other. destruct (last bs); repeat constructor; done. }
      apply (stored_same (commit kv wb1)); [done| |].
      * intros cf k Hcf. apply Hsame. by destruct cf.
      * intros k v. by rewrite Hsame.
    + destruct (last bs) as [b|] eqn:Hl; unfold tip_of.
      * change (commit ?m [?w]) with (write1 m w). cbn [write1]. rewrite lookup_insert_eq.
        by rewrite (last_app_some _ _ _ Hl).
      * change (commit ?m []) with m. rewrite commit_other by done. apply last_None in Hl as ->. rewrite app_nil_r.
        by apply Hrep.
  - by apply represents_utxos.
  - by eapply chain_ok_utxos, chain_ok_prefix.
  - apply Hrep.
  - done.
  - intros Hk. split; [by apply Hkeep|]. intros k _. unfold seen_in. by rewrite lookup_empty.
Qed.

Lemma apply_batch_undo (kv : Kv) bs n keep wb recs :
  apply_batch kv bs n keep = Ok (wb, recs) →
  ∀ k, is_Some (commit kv wb !! (CfUndo, k)) ↔
    is_Some (kv !! (CfUndo, k)) ∨ (keep = true ∧ k ∈ map (λ b, height_key (b_height b)) bs).
Proof.
  intros ([wb1 recs1] & Hbs & [= <- <-])%bind_Ok k. rewrite commit_app, commit_other.
  - by eapply apply_blocks_undo.
  - destruct (last bs); repeat constructor; done.
Qed.

Lemma apply_batch_total kv chain keep bs :
  represents kv chain → chain_ok chain → next_of (chain ++ bs) ≤ MAX_TXNUM →
  ∃ wb recs, apply_batch kv bs (next_of chain) keep = Ok (wb, recs).
Proof.
  unfold next_of. rewrite numbered_app, length_app, Nat2Z.inj_add. intros Hrep Hok Hmax.
  destruct (apply_blocks_total kv (utxo_set (numbered chain)) keep ∅ (Z.of_nat (length (numbered chain))) bs)
    as (wb & recs & Hbs); [by apply represents_utxos|by apply chain_ok_utxos|lia|done|].
  unfold apply_batch. rewrite Hbs. by eauto.
Qed.

(** ** Undoing *)
Lemma commit_dels (kv : Kv) cf ks k :
  commit kv (map (Del cf) ks) !! (cf, k) = if decide (k ∈ ks) then None else kv !! (cf, k).
Proof.
  revert kv. induction ks as [|k0 ks IH]; intros kv; [done|]. cbn [map]. rewrite commit_cons, IH. cbn [write1].
  destruct (decide (k ∈ ks)); [by rewrite decide_True by set_solver|].
  destruct (decide (k = k0)) as [->|Hne].
  - by rewrite lookup_delete_eq, decide_True by set_solver.
  - rewrite lookup_delete_ne by congruence. by rewrite decide_False by set_solver.
Qed.

Lemma holds_dels (kv : Kv) (m : gmap bytes UtxoVal) ks :
  holds_utxos kv m → holds_utxos (commit kv (map (Del CfUtxo) ks)) (foldl (λ m k, delete k m) m ks).
Proof. intros Hm k. rewrite commit_dels, foldl_delete_lookup. case_decide; [done|apply Hm]. Qed.

Lemma holds_puts (kv : Kv) (m : gmap bytes UtxoVal) d :
  holds_utxos kv m →
  holds_utxos (commit kv (map (λ x, Put CfUtxo (fst x) (utxo_encode (snd x))) d)) (foldl (λ m x, <[fst x := snd x]> m) m d).
Proof.
  revert kv m. induction d as [|[k v] d IH]; intros kv m Hm; [done|]. cbn [map]. rewrite commit_cons. apply IH. intros k'. simpl.
  destruct (decide (k' = k)) as [->|Hne]; [by rewrite !lookup_insert_eq|].
  rewrite !lookup_insert_ne by congruence. apply Hm.
Qed.

(** The numbers from [lo] up to [hi], of transactions and of renderings. *)
Definition drop_txnums (lo hi : Z) : list Write :=
  if lo <? hi then [DelRange CfTxids (txnum_bytes lo) (txnum_bytes hi); DelRange CfRender (txnum_bytes lo) (txnum_bytes hi)]
  else [].

Lemma del_range_other (kv : Kv) cf lo hi cf' k :
  cf ≠ cf' → write1 kv (DelRange cf lo hi) !! (cf', k) = kv !! (cf', k).
Proof. intros Hne. by apply write1_other. Qed.

Lemma del_range_txnum (kv : Kv) cf lo hi n :
  0 ≤ lo ≤ MAX_TXNUM → 0 ≤ hi ≤ MAX_TXNUM → 0 ≤ n ≤ MAX_TXNUM →
  write1 kv (DelRange cf (txnum_bytes lo) (txnum_bytes hi)) !! (cf, txnum_bytes n) =
  if decide (lo ≤ n < hi) then None else kv !! (cf, txnum_bytes n).
Proof.
  intros Hlo Hhi Hn. cbn [write1].
  assert (Hspan : in_span cf (txnum_bytes lo) (txnum_bytes hi) (cf, txnum_bytes n) ↔ lo ≤ n < hi).
  { unfold in_span, txnum_bytes. cbn [fst snd]. rewrite !bytes_ltb_be by width_lia. rewrite Z.ltb_ge, Z.ltb_lt. naive_solver. }
  case_decide as Hr; [apply map_lookup_filter_None; right; intros v _; simpl; tauto|].
  destruct (kv !! (cf, txnum_bytes n)) as [v|] eqn:E.
  - apply map_lookup_filter_Some. split; [done|]. simpl. tauto.
  - apply map_lookup_filter_None. by left.
Qed.

Lemma drop_txnums_lookup (kv : Kv) lo hi cf n :
  0 ≤ lo ≤ MAX_TXNUM → 0 ≤ hi ≤ MAX_TXNUM → 0 ≤ n ≤ MAX_TXNUM → cf = CfTxids ∨ cf = CfRender →
  commit kv (drop_txnums lo hi) !! (cf, txnum_bytes n) = if decide (lo ≤ n < hi) then None else kv !! (cf, txnum_bytes n).
Proof.
  intros Hlo Hhi Hn Hcf. unfold drop_txnums. destruct (Z.ltb_spec lo hi); [|rewrite decide_False by lia; done].
  rewrite !commit_cons. change (commit ?m []) with m. destruct Hcf as [->| ->].
  - rewrite del_range_other by done. by apply del_range_txnum.
  - rewrite del_range_txnum by done. rewrite del_range_other by done. done.
Qed.

Lemma drop_txnums_sub (kv : Kv) lo hi cf k v :
  commit kv (drop_txnums lo hi) !! (cf, k) = Some v → kv !! (cf, k) = Some v.
Proof.
  unfold drop_txnums. destruct (lo <? hi); [|done]. rewrite !commit_cons. change (commit ?m []) with m. cbn [write1].
  intros [[? _]%map_lookup_filter_Some _]%map_lookup_filter_Some. done.
Qed.

Lemma drop_txnums_cf lo hi cf : cf ≠ CfTxids → cf ≠ CfRender → Forall (λ w, write_cf w ≠ cf) (drop_txnums lo hi).
Proof. intros ??. unfold drop_txnums. destruct (lo <? hi); repeat constructor; simpl; congruence. Qed.

(** What undoing a record writes. *)
Definition tip_write (new_tip : option (Z * bytes)) : Write :=
  match new_tip with
  | Some (h, hash) => Put CfMeta META_TIP (tip_value h hash)
  | None => Del CfMeta META_TIP
  end.
Definition undo_writes (u : Undo) (height lo hi : Z) (new_tip : option (Z * bytes)) : list Write :=
  map (Del CfHistory) (ud_added_history u) ++
  map (Del CfUtxo) (ud_added_utxo u) ++
  map (λ x, Put CfUtxo (fst x) (utxo_encode (snd x))) (ud_deleted_utxo u) ++
  drop_txnums lo hi ++
  [Del CfBlocks (height_key height); Del CfUndo (height_key height); tip_write new_tip].

Lemma tip_write_cf new_tip : write_cf (tip_write new_tip) = CfMeta.
Proof. by destruct new_tip as [[]|]. Qed.

(** Its last three writes, on one family. *)
Lemma undo_tail (kv : Kv) height new_tip cf k :
  commit kv [Del CfBlocks (height_key height); Del CfUndo (height_key height); tip_write new_tip] !! (cf, k) =
  match cf with
  | CfBlocks | CfUndo => if decide (k = height_key height) then None else kv !! (cf, k)
  | CfMeta => write1 kv (tip_write new_tip) !! (CfMeta, k)
  | _ => kv !! (cf, k)
  end.
Proof.
  rewrite !commit_cons. change (commit ?m []) with m.
  destruct (decide (cf = CfMeta)) as [->|Hne].
  { destruct new_tip as [[h hash]|]; cbn [tip_write write1].
    - rewrite !lookup_insert. by repeat rewrite lookup_delete_ne by done.
    - rewrite !lookup_delete. by repeat rewrite lookup_delete_ne by done. }
  rewrite write1_other by (rewrite tip_write_cf; congruence). cbn [write1].
  destruct cf; try done; try (by rewrite !lookup_delete_ne by done).
  - rewrite lookup_delete_ne by done. case_decide; [subst; by rewrite lookup_delete_eq|by rewrite lookup_delete_ne by congruence].
  - case_decide; [subst; by rewrite lookup_delete_eq|]. rewrite lookup_delete_ne by congruence. by rewrite lookup_delete_ne.
Qed.

(** The families the rest of them touch. *)
Lemma undo_head_other (kv : Kv) u lo hi cf k :
  cf ≠ CfHistory → cf ≠ CfUtxo → cf ≠ CfTxids → cf ≠ CfRender →
  commit (commit (commit (commit kv (map (Del CfHistory) (ud_added_history u))) (map (Del CfUtxo) (ud_added_utxo u)))
    (map (λ x, Put CfUtxo (fst x) (utxo_encode (snd x))) (ud_deleted_utxo u))) (drop_txnums lo hi) !! (cf, k) = kv !! (cf, k).
Proof.
  intros. rewrite commit_other by by apply drop_txnums_cf. by rewrite !commit_other by by apply Forall_map_cf.
Qed.

Lemma undo_rows (kv : Kv) l l' u height new_tip :
  rows_ok kv (l ++ l') → undo_for u l l' → Forall row_ok (l ++ l') → Z.of_nat (length (l ++ l')) ≤ MAX_TXNUM →
  rows_ok (commit kv (undo_writes u height (Z.of_nat (length l)) (Z.of_nat (length (l ++ l'))) new_tip)) l.
Proof.
  intros [Hfit Ht Hh Hu] [_ _ Huh Huu] Hrow Hmax. unfold undo_writes. rewrite !commit_app.
  assert (Hl : (length l ≤ length (l ++ l'))%nat) by (rewrite length_app; lia). split.
  - lia.
  - intros k v. rewrite undo_tail. split.
    + intros Hk. pose proof Hk as Hk'. apply drop_txnums_sub in Hk'. rewrite !commit_other in Hk' by by apply Forall_map_cf.
      apply Ht in Hk' as (n & x & Hn & -> & ->). pose proof (lookup_lt_Some _ _ _ Hn).
      rewrite drop_txnums_lookup in Hk by first [lia | by left]. case_decide as Hd; [done|].
      exists n, x. split_and!; [|done..]. rewrite lookup_app_l in Hn by lia. done.
    + intros (n & x & Hn & -> & ->). pose proof (lookup_lt_Some _ _ _ Hn).
      rewrite drop_txnums_lookup by first [lia | by left]. rewrite decide_False by lia.
      rewrite !commit_other by by apply Forall_map_cf. apply Ht. exists n, x. split_and!; [by apply lookup_app_l_Some|done..].
  - intros k v. rewrite undo_tail, commit_other by by apply drop_txnums_cf.
    do 2 rewrite commit_other by by apply Forall_map_cf. rewrite commit_dels. case_decide as Hin.
    + split; [done|]. intros (-> & n & x & p & Hn & Hp & ->). exfalso.
      apply Huh in Hin as (n' & x' & p' & Hn' & Hp' & E). pose proof (lookup_lt_Some _ _ _ Hn). pose proof (lookup_lt_Some _ _ _ Hn').
      rewrite length_app in *. rewrite Forall_app in Hrow. destruct Hrow as [Hr1 Hr2].
      apply history_bytes_inj in E as [_ E]; [lia|..|lia|lia].
      * eapply length_touched; [exact (Forall_lookup_1 _ _ _ _ Hr1 Hn)|done].
      * eapply length_touched; [exact (Forall_lookup_1 _ _ _ _ Hr2 Hn')|done].
    + rewrite Hh. split; intros (-> & n & x & p & Hn & Hp & ->); (split; [done|]); exists n, x, p; split_and!; try done.
      * destruct (decide (n < length l)%nat); [by rewrite lookup_app_l in Hn|]. exfalso. apply Hin, Huh.
        rewrite lookup_app_r in Hn by lia. exists (n - length l)%nat, x, p. split_and!; [done..|]. do 2 f_equal. lia.
      * by apply lookup_app_l_Some.
  - intros k. rewrite undo_tail, commit_other by by apply drop_txnums_cf. rewrite <-Huu. unfold restored.
    apply holds_puts, holds_dels. intros k'. rewrite commit_other by by apply Forall_map_cf. apply Hu.
Qed.

Lemma undo_stored (kv : Kv) chain b u new_tip :
  stored kv (chain ++ [b]) → chain_ok (chain ++ [b]) → undo_for u (numbered chain) (rows_in b) →
  next_of (chain ++ [b]) ≤ MAX_TXNUM →
  stored (commit kv (undo_writes u (b_height b) (next_of chain) (next_of (chain ++ [b])) new_tip)) chain.
Proof.
  unfold next_of. rewrite numbered_snoc. intros [Hr Hb Hu] Hok Hfor Hmax. rewrite numbered_snoc in Hr.
  assert (Hrow : Forall row_ok (numbered chain ++ rows_in b)) by (rewrite <-numbered_snoc; by apply numbered_ok, Hok).
  assert (Hlast : ∀ i x, (chain ++ [b]) !! i = Some x → height_key (b_height x) ≠ height_key (b_height b) ↔ (i < length chain)%nat).
  { intros i x Hi. pose proof (lookup_lt_Some _ _ _ Hi) as Hlt. rewrite length_app in Hlt. simpl in Hlt. split.
    - intros Hne. destruct (decide (i = length chain)) as [->|]; [|lia]. rewrite list_lookup_middle in Hi by done. by simplify_eq.
    - intros Hi' E. assert (i = length chain); [|lia].
      eapply block_keys_distinct; [exact Hok|exact Hi| |exact E]. by apply list_lookup_middle. }
  split.
  - by apply undo_rows.
  - intros k v. unfold undo_writes. rewrite !commit_app, undo_tail, undo_head_other by done. case_decide as Hk.
    + split; [done|]. intros (i & x & Hi & E & _). exfalso. subst k. pose proof (lookup_lt_Some _ _ _ Hi).
      eapply (Hlast i x); [by apply lookup_app_l_Some|done|done].
    + rewrite Hb. split; intros (i & x & Hi & -> & ->); exists i, x.
      * apply (Hlast i x Hi) in Hk. rewrite lookup_app_l in Hi by done. split_and!; [done..|]. by rewrite rec_of_app by lia.
      * pose proof (lookup_lt_Some _ _ _ Hi). split_and!; [by apply lookup_app_l_Some|done|]. by rewrite rec_of_app by lia.
  - intros k v. unfold undo_writes. rewrite !commit_app, undo_tail, undo_head_other by done. case_decide as Hk; [done|].
    intros (i & x & u' & Hi & -> & Hd & Hf)%Hu. exists i, x, u'. apply (Hlast i x Hi) in Hk.
    rewrite lookup_app_l in Hi by done. split_and!; [done..|]. by rewrite take_app_le in Hf by lia.
Qed.

Definition tip_pair (chain : list ParsedBlock) : option (Z * bytes) := (λ b, (b_height b, b_hash b)) <$> last chain.

Lemma tip_write_lookup (kv : Kv) chain : write1 kv (tip_write (tip_pair chain)) !! (CfMeta, META_TIP) = tip_of chain.
Proof. unfold tip_pair, tip_of. destruct (last chain); cbn; [by rewrite lookup_insert_eq|by rewrite lookup_delete_eq]. Qed.

Lemma rollback_represents (kv : Kv) chain b raw :
  represents kv (chain ++ [b]) → chain_ok (chain ++ [b]) → next_of (chain ++ [b]) ≤ MAX_TXNUM →
  kv !! (CfUndo, height_key (b_height b)) = Some raw →
  ∃ wb, rollback_batch kv (b_height b) (rec_of (chain ++ [b]) (length chain) b) (tip_pair chain) = Ok wb ∧
    represents (commit kv wb) chain ∧
    (∀ n, next_of chain ≤ n < next_of (chain ++ [b]) → commit kv wb !! (CfRender, txnum_bytes n) = None) ∧
    (∀ k, commit kv wb !! (CfUndo, k) = if decide (k = height_key (b_height b)) then None else kv !! (CfUndo, k)).
Proof.
  intros [Hst Htip] Hok Hmax Hraw. pose proof (st_undo _ _ Hst _ _ Hraw) as (i & x & u & Hi & Hk & Hdec & Hfor).
  assert (i = length chain) as ->.
  { eapply block_keys_distinct; [exact Hok|exact Hi| |symmetry; exact Hk]. by apply list_lookup_middle. }
  rewrite list_lookup_middle in Hi by done. injection Hi as <-. rewrite take_app_length in Hfor.
  assert (Hb : block_ok b) by (by eapply chain_ok_mid).
  assert (Hrec : rec_of (chain ++ [b]) (length chain) b = block_rec b (next_of chain))
    by (unfold rec_of; by rewrite take_app_length).
  assert (Hnext : next_of (chain ++ [b]) = next_of chain + Z.of_nat (length (b_txs b))).
  { unfold next_of. by rewrite numbered_snoc, length_app, length_rows_in, Nat2Z.inj_add. }
  pose proof (block_ok_n_txs b (next_of chain) Hb) as Hn. assert (0 ≤ next_of chain) by (unfold next_of; lia).
  exists (undo_writes u (b_height b) (next_of chain) (next_of (chain ++ [b])) (tip_pair chain)). split.
  - unfold rollback_batch. rewrite Hraw, Hdec. rcbn. rewrite Hrec, Hn. cbn [block_rec br_first_txnum].
    rewrite (uf_first _ _ _ Hfor), (uf_n_txs _ _ _ Hfor), length_rows_in. fold (next_of chain).
    rewrite bool_decide_true by done. cbn [negb bail_if]. rcbn. unfold wrapping_add.
    rewrite Z.mod_small by width_lia. rewrite <-Hnext. unfold undo_writes, drop_txnums.
    destruct (Z.ltb_spec (next_of chain) (next_of (chain ++ [b]))); [|done].
    rewrite !(proj2 (txnum_key_Ok _ _)) by (split; [lia|done]). done.
  - split_and!.
    + split; [by apply undo_stored|]. unfold undo_writes. rewrite !commit_app, undo_tail. apply tip_write_lookup.
    + intros n Hrange. unfold undo_writes. rewrite !commit_app, undo_tail.
      rewrite drop_txnums_lookup by first [lia | by right]. by rewrite decide_True.
    + intros k. unfold undo_writes. by rewrite !commit_app, undo_tail, undo_head_other.
Qed.

End apply.
