(* ===== verification/IndexRead.v ===== *)
(** What readers get from a database that represents a chain: the history of
    a program, its unspent outputs, the table of blocks. *)

From S2P Require Import Prelude Json Bitcoin IndexKeys Index IndexSpec IndexChain IndexApply.

(** ** The order of keys *)
Lemma bytes_leb_cons x a y b :
  bytes_leb (x :: a) (y :: b) = true ↔ Z_of_byte x < Z_of_byte y ∨ (x = y ∧ bytes_leb a b = true).
Proof.
  unfold bytes_leb. cbn [bytes_ltb]. rewrite negb_orb, andb_true_iff, !negb_true_iff.
  rewrite Z.ltb_ge, andb_false_iff, Z.eqb_neq. split.
  - intros [Hle [Hne|Hab]]; [left; lia|]. destruct (decide (x = y)) as [->|Hxy]; [by right|]. left.
    assert (Z_of_byte x ≠ Z_of_byte y) by by intros ?%Z_of_byte_inj. lia.
  - intros [Hlt|[-> Hab]]; [split; [lia|left; lia]|]. split; [lia|by right].
Qed.

Lemma bytes_leb_refl a : bytes_leb a a = true.
Proof. induction a as [|x a IH]; [done|]. apply bytes_leb_cons. by right. Qed.

Lemma bytes_leb_total a b : bytes_leb a b = true ∨ bytes_leb b a = true.
Proof.
  revert b. induction a as [|x a IH]; intros [|y b]; [by left|by left|by right|]. rewrite !bytes_leb_cons.
  destruct (Z.lt_trichotomy (Z_of_byte x) (Z_of_byte y)) as [?|[->%Z_of_byte_inj|?]]; [auto| |auto].
  destruct (IH b); auto.
Qed.

Lemma bytes_leb_trans a b c : bytes_leb a b = true → bytes_leb b c = true → bytes_leb a c = true.
Proof.
  revert b c. induction a as [|x a IH]; intros [|y b] [|z c]; try done. rewrite !bytes_leb_cons.
  intros [?|[-> ?]] [?|[-> ?]]; [left; lia|auto|auto|]. right. split; [done|]. by eapply IH.
Qed.

Lemma bytes_leb_antisym a b : bytes_leb a b = true → bytes_leb b a = true → a = b.
Proof.
  revert b. induction a as [|x a IH]; intros [|y b]; try done. rewrite !bytes_leb_cons.
  intros [?|[-> ?]] [?|[E ?]]; [lia|subst; lia|lia|]. f_equal. by apply IH.
Qed.

(** Keys between two that start with [p] do too. *)
Lemma prefix_convex p a k b :
  take (length p) a = p → take (length p) b = p → bytes_leb a k = true → bytes_leb k b = true → take (length p) k = p.
Proof.
  revert a k b. induction p as [|x p IH]; intros [|y a] k [|z b]; try done. simpl.
  intros [= -> Ha] [= -> Hb]. destruct k as [|w k]; [done|]. rewrite !bytes_leb_cons.
  intros [?|[E1 ?]] [?|[E2 ?]]; [lia|subst; lia..|]. subst. simpl. f_equal. by apply (IH a k b).
Qed.

Lemma prefix_leb n k : bytes_leb (take n k) k = true.
Proof. revert k. induction n as [|n IH]; intros [|x k]; try done. simpl take. apply bytes_leb_cons. right. split; [done|apply IH]. Qed.

Lemma be_bytes_from_be n b : length b = n → be_bytes n (from_be b) = b.
Proof.
  revert b. induction n as [|n IH]; intros [|x b] Hl; try done. injection Hl as Hl. rewrite be_bytes_S.
  pose proof (from_be_range b) as Hr. rewrite Hl in Hr. pose proof (Z_of_byte_range x). f_equal.
  - rewrite from_be_cons, Hl, Z.div_add_l, (Z.div_small (from_be b)), Z.add_0_r by lia.
    apply Z_of_byte_inj. rewrite Z_of_byte_of_Z. by apply Z.mod_small.
  - rewrite <-(IH b Hl) at 2. apply be_bytes_mod_eq. rewrite from_be_cons, Hl. by rewrite Z.add_comm, Z_mod_plus_full.
Qed.

(** ** Sorted lists *)
Lemma sorted_same_elements (l l' : list Z) :
  StronglySorted Z.lt l → StronglySorted Z.lt l' → (∀ n, n ∈ l ↔ n ∈ l') → l = l'.
Proof.
  assert (Hnd : ∀ l, StronglySorted Z.lt l → NoDup l).
  { induction 1 as [|n k _ IH Hn]; constructor; [|done]. rewrite Forall_forall in Hn. intros ?%Hn. lia. }
  intros Hl Hl' Hin. assert (AntiSymm (=) Z.lt) by (intros a b; lia).
  apply (StronglySorted_unique Z.lt); [done..|]. by apply NoDup_Permutation; [apply Hnd|apply Hnd|].
Qed.

Lemma filter_none {A} (P : A → Prop) `{∀ x, Decision (P x)} (l : list A) : Forall (λ x, ¬ P x) l → filter P l = [].
Proof. induction 1 as [|x l Hx _ IH]; [done|]. by rewrite filter_cons_False. Qed.

Lemma take_while_sorted {A} (R : relation A) (f : A → bool) (Q : A → Prop) l :
  StronglySorted R l → Forall Q l → (∀ x y, Q x → R x y → f y = true → f x = true) →
  take_while f l = filter (λ x, f x = true) l.
Proof.
  intros Hs HQ Hdown. induction Hs as [|x l _ IH Hx]; [done|]. inversion HQ as [|?? Hq HQ']; subst. cbn [take_while].
  destruct (f x) eqn:E; [by rewrite filter_cons_True, IH|]. rewrite filter_cons_False by congruence. symmetry.
  apply filter_none. eapply Forall_impl; [exact Hx|]. intros y Hy Hf. by rewrite (Hdown x y) in E.
Qed.

(** ** The rows of a family *)
Lemma key_leb_trans a b c : key_leb a b = true → key_leb b c = true → key_leb a c = true.
Proof. apply bytes_leb_trans. Qed.

Lemma rows_of_sorted kv cf : ordered key_leb (rows_of kv cf).
Proof. apply sort_by_sorted; [intros a b; apply bytes_leb_total|apply key_leb_trans]. Qed.

Lemma elem_of_rows_of kv cf k v : (k, v) ∈ rows_of kv cf ↔ kv !! (cf, k) = Some v.
Proof.
  unfold rows_of. rewrite sort_by_Permutation, list_elem_of_omap. split.
  - intros ([[cf' k'] v'] & Hin%elem_of_map_to_list & Hd). simpl in *. case_decide; by simplify_eq.
  - intros Hin. exists ((cf, k), v). split; [by apply elem_of_map_to_list|]. simpl. by rewrite decide_True.
Qed.

Lemma rows_of_keys_NoDup kv cf : NoDup (rows_of kv cf).*1.
Proof.
  unfold rows_of. rewrite sort_by_Permutation. pose proof (NoDup_fst_map_to_list kv) as Hnd.
  induction (map_to_list kv) as [|[[cf' k] v] l IH]; simpl; [constructor|]. inversion Hnd as [|?? Hk Hnd']; subst.
  case_decide; [|by apply IH]. subst. cbn. apply NoDup_cons. split; [|by apply IH]. intros Hin. apply Hk.
  apply list_elem_of_fmap in Hin as ([k' v'] & -> & ([[cf'' k''] v''] & Hin & Hd)%list_elem_of_omap). simpl in *.
  case_decide; simplify_eq. apply list_elem_of_fmap. by exists ((cf, k'), v').
Qed.

(** Sorted and without repetition: strictly. *)
Lemma rows_of_strict kv cf : StronglySorted (λ a b, bytes_ltb (fst a) (fst b) = true) (rows_of kv cf).
Proof.
  pose proof (rows_of_sorted kv cf) as Hs. pose proof (rows_of_keys_NoDup kv cf) as Hnd.
  induction Hs as [|x l _ IH Hx]; [constructor|]. inversion Hnd as [|?? Hnot Hnd']; subst. constructor; [by apply IH|].
  rewrite Forall_forall in Hx |- *. intros y Hy. pose proof (Hx y Hy) as Hle. unfold key_leb in Hle.
  destruct (bytes_ltb (fst x) (fst y)) eqn:E; [done|]. exfalso. apply Hnot. apply list_elem_of_fmap. exists y. split; [|done].
  apply bytes_leb_antisym; [done|]. unfold bytes_leb. by rewrite E.
Qed.

Lemma StronglySorted_rev {A} (R : relation A) l : StronglySorted R l → StronglySorted (flip R) (reverse l).
Proof.
  induction 1 as [|x l _ IH Hx]; [constructor|]. rewrite reverse_cons. apply StronglySorted_app_2; [|done|repeat constructor].
  intros a b Ha ->%list_elem_of_singleton. rewrite elem_of_reverse in Ha. rewrite Forall_forall in Hx. exact (Hx a Ha).
Qed.

Lemma starts_with_true p x : starts_with p x = true ↔ take (length p) (fst x) = p.
Proof. unfold starts_with. by rewrite bool_decide_eq_true. Qed.

(** Going up from the prefix itself, or down from a key that starts with it. *)
Lemma seek_rows p l :
  ordered key_leb l → take_while (starts_with p) (from_key p l) = filter (λ x, starts_with p x = true) (from_key p l).
Proof.
  intros Hl. apply (take_while_sorted (λ a b, key_leb a b = true) _ (λ x, bytes_leb p (fst x) = true)).
  - by apply StronglySorted_filter.
  - apply Forall_forall. intros x [Hx _]%list_elem_of_filter. by apply Is_true_true.
  - intros x y Hx Hxy. rewrite !starts_with_true. intros Hy. by apply (prefix_convex p p (fst x) (fst y)); [apply firstn_all|..].
Qed.

Lemma seek_prev_rows p k l :
  take (length p) k = p → ordered key_leb l →
  take_while (starts_with p) (down_from_key k l) = filter (λ x, starts_with p x = true) (down_from_key k l).
Proof.
  intros Hk Hl. apply (take_while_sorted (flip (λ a b, key_leb a b = true)) _ (λ x, bytes_leb (fst x) k = true)).
  - by apply StronglySorted_rev, StronglySorted_filter.
  - apply Forall_forall. intros x. unfold down_from_key. rewrite elem_of_reverse. intros [Hx _]%list_elem_of_filter. by apply Is_true_true.
  - intros x y Hx Hxy. rewrite !starts_with_true. intros Hy. by apply (prefix_convex p (fst y) (fst x) k).
Qed.

(** ** The history of a program *)

(** The numbers of the transactions that touch [p], in their order. *)
Fixpoint touching (p : bytes) (n : Z) (l : list Row) : list Z :=
  match l with
  | [] => []
  | x :: l => if decide (p ∈ touched (snd x)) then n :: touching p (n + 1) l else touching p (n + 1) l
  end.

Lemma elem_of_touching p n l m :
  m ∈ touching p n l ↔ ∃ i x, l !! i = Some x ∧ p ∈ touched (snd x) ∧ m = n + Z.of_nat i.
Proof.
  revert n. induction l as [|x l IH]; intros n; cbn [touching].
  - split; [by intros ?%elem_of_nil|]. by intros (i & x & Hi & _).
  - assert (Hrest : m ∈ touching p (n + 1) l ↔ ∃ i y, (x :: l) !! S i = Some y ∧ p ∈ touched (snd y) ∧ m = n + Z.of_nat (S i)).
    { rewrite IH. simpl. split; intros (i & y & Hi & Hy & ->); exists i, y; (split_and!; [done..|lia]). }
    case_decide as Hp; rewrite ?elem_of_cons, Hrest; split.
    + intros [->|(i & y & Hi & Hy & ->)]; [exists 0%nat, x|exists (S i), y]; split_and!; try done. lia.
    + intros ([|i] & y & Hi & Hy & ->); [left; lia|right; by exists i, y].
    + intros (i & y & Hi & Hy & ->). by exists (S i), y.
    + intros ([|i] & y & Hi & Hy & ->); [simpl in Hi; by simplify_eq|by exists i, y].
Qed.

Lemma touching_sorted p n l : StronglySorted Z.lt (touching p n l).
Proof.
  revert n. induction l as [|x l IH]; intros n; cbn [touching]; [constructor|]. case_decide; [|apply IH].
  constructor; [apply IH|]. apply Forall_forall. intros m (i & y & _ & _ & ->)%elem_of_touching. lia.
Qed.

Lemma map_reverse {A B} (f : A → B) l : map f (reverse l) = reverse (map f l).
Proof. exact (fmap_reverse f l). Qed.

Lemma StronglySorted_map_in {A B} (R : relation A) (S : relation B) (f : A → B) l :
  StronglySorted R l → (∀ x y, x ∈ l → y ∈ l → R x y → S (f x) (f y)) → StronglySorted S (map f l).
Proof.
  induction 1 as [|x l _ IH Hx]; intros Hf; [constructor|]. simpl. constructor; [apply IH; intros; apply Hf; by try right|].
  apply Forall_map. rewrite Forall_forall in Hx |- *. intros y Hy. apply Hf; [by left|by right|by apply Hx].
Qed.

Lemma Forall2_in_l {A B} (P : A → B → Prop) l k a : Forall2 P l k → a ∈ l → ∃ b, b ∈ k ∧ P a b.
Proof. induction 1 as [|x y l k Hxy _ IH]; [by intros ?%elem_of_nil|]. rewrite elem_of_cons. set_solver. Qed.
Lemma Forall2_in_r {A B} (P : A → B → Prop) l k b : Forall2 P l k → b ∈ k → ∃ a, a ∈ l ∧ P a b.
Proof. intros Hf%Forall2_flip Hb. by apply (Forall2_in_l _ _ _ _ Hf). Qed.

Section reads.
Context `{BitcoinLib, HashOrder}.

(** The rows of [p], as the iterator meets them. *)
Lemma history_keys (kv : Kv) l p k v :
  rows_ok kv l → Forall row_ok l → length p = 20%nat → kv !! (CfHistory, k) = Some v → take 20 k = p →
  ∃ n x, l !! n = Some x ∧ p ∈ touched (snd x) ∧ k = history_bytes p (Z.of_nat n).
Proof.
  intros Hkv Hl Hp (-> & n & x & q & Hn & Hq & ->)%(ro_history _ _ Hkv) Hk.
  assert (Hq20 : length q = 20%nat) by (eapply length_touched; [exact (Forall_lookup_1 _ _ _ _ Hl Hn)|done]).
  unfold history_bytes in Hk. rewrite take_app_length' in Hk by done. subst q. by exists n, x.
Qed.

Lemma history_rows_exact (kv : Kv) l p limit :
  rows_ok kv l → Forall row_ok l → length p = 20%nat →
  history kv p limit = take limit (reverse (touching p 0 l)).
Proof.
  intros Hkv Hl Hp. unfold history. f_equal.
  rewrite seek_prev_rows by (try apply rows_of_sorted; unfold history_bytes; by apply take_app_length).
  unfold down_from_key. rewrite filter_reverse, map_reverse. f_equal. rewrite list_filter_filter.
  set (rows := filter _ _).
  assert (Hin : ∀ x, x ∈ rows → ∃ n y, l !! n = Some y ∧ p ∈ touched (snd y) ∧ fst x = history_bytes p (Z.of_nat n)).
  { intros [k v] [[Hsw _] Hx%elem_of_rows_of]%list_elem_of_filter. apply starts_with_true in Hsw. rewrite Hp in Hsw.
    by apply (history_keys kv l p k v). }
  assert (Hfit : ∀ n y, l !! n = Some y → 0 ≤ Z.of_nat n ≤ MAX_TXNUM).
  { intros n y Hn%lookup_lt_Some. pose proof (ro_fits _ _ Hkv). lia. }
  apply sorted_same_elements; [|apply touching_sorted|].
  - eapply StronglySorted_map_in; [apply StronglySorted_filter, rows_of_strict|].
    intros x y (n & x' & Hn & _ & ->)%Hin (m & y' & Hm & _ & ->)%Hin.
    rewrite !history_txnum_bytes by eauto. unfold history_bytes. rewrite bytes_ltb_app. unfold txnum_bytes.
    pose proof (Hfit _ _ Hn). pose proof (Hfit _ _ Hm). rewrite bytes_ltb_be by width_lia. apply Z.ltb_lt.
  - intros m. rewrite elem_of_touching, list_elem_of_fmap. split.
    + intros (x & -> & (n & y & Hn & Hy & ->)%Hin). exists n, y. split_and!; [done..|]. rewrite history_txnum_bytes by eauto. lia.
    + intros (n & y & Hn & Hy & ->). rewrite Z.add_0_l. pose proof (Hfit _ _ Hn).
      exists (history_bytes p (Z.of_nat n), []). simpl. rewrite history_txnum_bytes by eauto. split; [done|].
      apply list_elem_of_filter. split; [split|].
      * apply starts_with_true. simpl. by apply take_app_length.
      * apply Is_true_true. cbn [fst]. unfold bytes_leb, history_bytes. rewrite bytes_ltb_app. unfold txnum_bytes.
        rewrite bytes_ltb_be by width_lia. rewrite (proj2 (Z.ltb_ge _ _)) by lia. done.
      * apply elem_of_rows_of, (ro_history _ _ Hkv). split; [done|]. by exists n, y, p.
Qed.

(** ** Unspent outputs *)
Definition outpoint_ok (op : OutPoint) : Prop := length (txid op) = 32%nat ∧ 0 ≤ vout op ≤ u32_max.

(** A key of 56 bytes is the key of its program and outpoint. *)
Lemma utxo_key_split k : length k = 56%nat → k = utxo_key (take 20 k) (utxo_outpoint k) ∧ outpoint_ok (utxo_outpoint k).
Proof.
  intros Hk. unfold outpoint_ok, utxo_key, utxo_outpoint. cbn [txid vout].
  assert (Hd : length (take 4 (drop 52 k)) = 4%nat) by (rewrite length_take, length_drop; lia). split.
  - rewrite be_bytes_from_be by done. rewrite (take_ge (drop 52 k)) by (rewrite length_drop; lia).
    rewrite <-(take_drop 20 k) at 1. f_equal. rewrite <-(take_drop 32 (drop 20 k)) at 1. by rewrite drop_drop.
  - split; [rewrite length_take, length_drop; lia|]. pose proof (from_be_range (take 4 (drop 52 k))) as Hr. rewrite Hd in Hr. width_lia.
Qed.

(** The outputs of [p], in key order. *)
Definition listing (rows : list (bytes * bytes)) (out : list (OutPoint * UtxoVal)) : Prop :=
  Forall2 (λ r x, utxo_outpoint (fst r) = fst x ∧ utxo_decode (snd r) = Ok (snd x)) rows out.

Lemma program_rows_in (kv : Kv) (m : gmap bytes UtxoVal) p k raw :
  holds_utxos kv m → length p = 20%nat →
  (k, raw) ∈ program_rows kv p ↔ take 20 k = p ∧ ∃ v, m !! k = Some v ∧ raw = utxo_encode v.
Proof.
  intros Hm Hp. unfold program_rows. rewrite seek_rows by apply rows_of_sorted. unfold from_key.
  rewrite !list_elem_of_filter, elem_of_rows_of, starts_with_true, Hm, Hp, fmap_Some, Is_true_true. cbn [fst]. split; [naive_solver|].
  intros [Hk Hv]. split_and!; [done| |naive_solver]. rewrite <-Hk. apply prefix_leb.
Qed.

Lemma program_listing (kv : Kv) (m : gmap bytes UtxoVal) p :
  holds_utxos kv m → map_Forall val_ok m → length p = 20%nat →
  ∃ out, listing (program_rows kv p) out ∧ NoDup out.*1 ∧
    ∀ op v, outpoint_ok op → (op, v) ∈ out ↔ m !! utxo_key p op = Some v.
Proof.
  intros Hm Hok Hp.
  assert (Hrow : ∀ r, r ∈ program_rows kv p → ∃ v, utxo_decode (snd r) = Ok v ∧ m !! fst r = Some v ∧
    fst r = utxo_key p (utxo_outpoint (fst r))).
  { intros [k raw] (<- & v & Hv & ->)%(program_rows_in kv m p); [|done..]. destruct (Hok _ _ Hv) as [Hk Hvok]. exists v. simpl.
    split_and!; [by apply utxo_decode_encode|done|]. by apply utxo_key_split. }
  set (out := omap (λ r, (λ v, (utxo_outpoint (fst r), v)) <$> to_option (utxo_decode (snd r))) (program_rows kv p)).
  assert (Hlist : listing (program_rows kv p) out).
  { unfold out. assert (Hall : Forall (λ r, ∃ v, utxo_decode (snd r) = Ok v) (program_rows kv p)).
    { apply Forall_forall. intros r (v & Hv & _)%Hrow. eauto. }
    clear -Hall. induction Hall as [|r l [v Hv] _ IH]; [constructor|]. cbn. rewrite Hv. cbn. constructor; [by rewrite Hv|exact IH]. }
  exists out. split_and!; [done| |].
  - assert (Hnd : NoDup (program_rows kv p).*1).
    { unfold program_rows. rewrite seek_rows by apply rows_of_sorted.
      eapply sublist_NoDup; [apply (rows_of_keys_NoDup kv CfUtxo)|]. apply fmap_sublist.
      etrans; [apply sublist_filter|]. apply sublist_filter. }
    assert (Hops : out.*1 = map utxo_outpoint (program_rows kv p).*1).
    { clear -Hlist. induction Hlist as [|r x l l' [Hx _] _ IH]; [done|]. cbn. by rewrite <-Hx, IH. }
    rewrite Hops. apply NoDup_fmap_2_strong; [|done].
    intros k k' ([? raw] & -> & Hr)%list_elem_of_fmap ([? raw'] & -> & Hr')%list_elem_of_fmap E.
    apply Hrow in Hr as (_ & _ & _ & ->). apply Hrow in Hr' as (_ & _ & _ & ->). simpl in *. by rewrite E.
  - intros op v [Ht Hv]. split.
    + intros Hin. pose proof (Forall2_in_r _ _ _ _ Hlist Hin) as (r & Hr & Hop & Hdec). simpl in *.
      apply Hrow in Hr as (v' & Hdec' & Hv' & Hk). rewrite Hop in Hk. rewrite <-Hk. congruence.
    + intros Hkey. destruct (Hok _ _ Hkey) as [Hlen Hvok].
      assert (Hr : (utxo_key p op, utxo_encode v) ∈ program_rows kv p).
      { apply (program_rows_in kv m p); [done..|]. split; [|eauto]. unfold utxo_key. by apply take_app_length'. }
      destruct (Forall2_in_l _ _ _ _ Hlist Hr) as ([op' v'] & Hx & Hop & Hdec). simpl in *.
      rewrite utxo_outpoint_key in Hop by done. rewrite utxo_decode_encode in Hdec by done. by simplify_eq.
Qed.

(** All of them, or [TooHeavy] when there are more than allowed. *)
Lemma utxo_rows_listing rows out max seen :
  listing rows out → (seen ≤ max)%nat →
  utxo_rows max seen rows = if Nat.leb (seen + length out) max then Ok out else Err TooHeavy.
Proof.
  intros Hl. revert seen. induction Hl as [|[k raw] [op v] rows out [Hop Hdec] _ IH]; intros seen Hs; cbn [utxo_rows].
  - by rewrite Nat.add_0_r, (proj2 (Nat.leb_le _ _)).
  - simpl in Hop, Hdec. destruct (Nat.eqb_spec seen max) as [->|Hne].
    + rewrite (proj2 (Nat.leb_gt _ _)); [done|]. cbn. lia.
    + rewrite Hdec. rcbn. rewrite IH by lia. cbn [length]. rewrite Nat.add_succ_r. cbn [Nat.add].
      destruct (Nat.leb (S (seen + length out)) max); rcbn; [by rewrite Hop|done].
Qed.

(** ** The largest outputs *)
Abbreviation val_le := (λ a b : OutPoint * UtxoVal, u_value (snd a) ≤ u_value (snd b)).

Lemma heap_insert op_leb x heap :
  StronglySorted val_le heap → StronglySorted val_le (insert_by (heap_leb op_leb) x heap).
Proof.
  induction 1 as [|y heap Hs IH Hy]; cbn [insert_by]; [repeat constructor|].
  destruct (heap_leb op_leb x y) eqn:E.
  - assert (u_value (snd x) ≤ u_value (snd y)).
    { unfold heap_leb in E. apply orb_true_iff in E as [?%Z.ltb_lt|[?%Z.eqb_eq _]%andb_true_iff]; lia. }
    constructor; [by constructor|]. constructor; [done|]. eapply Forall_impl; [exact Hy|]. simpl. lia.
  - assert (u_value (snd y) ≤ u_value (snd x)).
    { unfold heap_leb in E. apply orb_false_iff in E as [?%Z.ltb_ge _]. done. }
    constructor; [done|]. rewrite insert_by_Permutation. by constructor.
Qed.

(** The rest grows by what was dropped. *)
Definition unlisted (rest : Unlisted) (dropped : list (OutPoint * UtxoVal)) : Unlisted := {|
  un_count := (un_count rest + Z.of_nat (length dropped)) mod (u64_max + 1);
  un_value := (un_value rest + sumZ (λ x, u_value (snd x)) dropped) mod (u64_max + 1) |}.

Definition rest_ok (rest : Unlisted) : Prop := u64 (un_count rest) ∧ u64 (un_value rest).

Lemma unlisted_cons rest x dropped :
  unlisted {| un_count := wrapping_add u64_max (un_count rest) 1;
              un_value := wrapping_add u64_max (un_value rest) (u_value (snd x)) |} dropped = unlisted rest (x :: dropped).
Proof.
  unfold unlisted, wrapping_add. cbn [un_count un_value length]. rewrite sumZ_cons, !Zplus_mod_idemp_l. do 2 f_equal; lia.
Qed.

(** What is taken out of a full heap bounds what stays in. *)
Lemma heap_pop op_leb x heap y ys B :
  StronglySorted val_le heap → insert_by (heap_leb op_leb) x heap = y :: ys →
  Forall (λ z, u_value (snd y) ≤ u_value (snd z)) ys ∧
  (Forall (λ z, B ≤ u_value (snd z)) heap → Forall (λ z, B ≤ u_value (snd z)) ys).
Proof.
  intros Hs E. pose proof (heap_insert op_leb x heap Hs) as Hi. rewrite E in Hi. apply StronglySorted_cons in Hi as [Hy Hys].
  split; [done|]. intros HB. assert (Hp : x :: heap ≡ₚ y :: ys) by by rewrite <-E, insert_by_Permutation.
  assert (y ∈ x :: heap) as [->|Hin]%elem_of_cons by (rewrite Hp; by left).
  - apply Permutation_cons_inv in Hp. by rewrite <-Hp.
  - rewrite Forall_forall in HB. eapply Forall_impl; [exact Hy|]. intros z Hz. specialize (HB _ Hin). simpl in *. lia.
Qed.

Lemma largest_loop_spec op_leb max keep rows out :
  listing rows out → ∀ heap rest, StronglySorted val_le heap → (length heap ≤ max)%nat → rest_ok rest →
  ∃ listed dropped, largest_loop op_leb max keep heap rest rows = Ok (listed, unlisted rest dropped) ∧
    listed ++ dropped ≡ₚ heap ++ filter (λ x, keep (fst x) = true) out ∧ (length listed ≤ max)%nat ∧
    (dropped ≠ [] → length listed = max) ∧
    (∀ d x, d ∈ dropped → x ∈ listed → u_value (snd d) ≤ u_value (snd x)) ∧
    (∀ B, length heap = max → Forall (λ z, B ≤ u_value (snd z)) heap → Forall (λ z, B ≤ u_value (snd z)) listed).
Proof.
  induction 1 as [|[k raw] [op v] rows out [Hop Hdec] _ IH]; intros heap rest Hs Hlen Hrest; cbn [largest_loop].
  { exists heap, []. rewrite !app_nil_r. split_and!; try done; [|by intros d x ?%elem_of_nil].
    unfold unlisted. destruct Hrest as [Hc Hv], rest as [c w]. cbn [un_count un_value length Z.of_nat sumZ foldr] in *.
    unfold in_range, u64_max in *. change (sumZ _ []) with 0. rewrite !Z.add_0_r, !Z.mod_small by lia. done. }
  simpl in Hop, Hdec. rewrite Hop. destruct (keep op) eqn:Hk.
  2:{ rewrite filter_cons_False by (simpl; congruence). by apply IH. }
  rewrite filter_cons_True by done. rewrite Hdec. rcbn.
  pose proof (heap_insert op_leb (op, v) heap Hs) as Hs'. pose proof (insert_by_Permutation (heap_leb op_leb) (op, v) heap) as Hp.
  pose proof (Permutation_length Hp) as Hpl. simpl in Hpl.
  destruct (Nat.ltb_spec max (length (insert_by (heap_leb op_leb) (op, v) heap))).
  - destruct (insert_by (heap_leb op_leb) (op, v) heap) as [|[opy vy] ys] eqn:E; [simpl in *; lia|].
    cbn [length] in *. assert (length heap = max) as Hfull by lia. apply StronglySorted_cons in Hs' as [Hy Hys].
    destruct (IH ys {| un_count := wrapping_add u64_max (un_count rest) 1; un_value := wrapping_add u64_max (un_value rest) (u_value vy) |})
      as (listed & dropped & -> & Hperm & Hle & Hfl & Hdom & HB); [done|lia| |].
    { split; by apply wrapping_add_range. }
    exists listed, ((opy, vy) :: dropped). split_and!.
    + by rewrite <-(unlisted_cons rest (opy, vy)).
    + rewrite <-Permutation_middle, Hperm. rewrite app_comm_cons, Hp. by rewrite <-Permutation_middle.
    + done.
    + intros _. destruct dropped; [|by apply Hfl]. rewrite app_nil_r in Hperm.
      apply Permutation_length in Hperm. rewrite length_app in Hperm. lia.
    + intros d x [->|Hd]%elem_of_cons Hx; [|by apply Hdom]. specialize (HB (u_value vy) ltac:(lia) Hy).
      rewrite Forall_forall in HB. by apply HB.
    + intros B _ Hb. apply HB; [lia|]. by eapply heap_pop; [|exact E|].
  - destruct (IH (insert_by (heap_leb op_leb) (op, v) heap) rest) as (listed & dropped & -> & Hperm & Hle & Hfl & Hdom & HB);
      [done|lia|done|].
    exists listed, dropped. split_and!; try done; [|intros B Hfull; lia].
    rewrite Hperm, Hp. by rewrite <-Permutation_middle.
Qed.

(** *** Single rows *)
Lemma db_tip_of (kv : Kv) chain : represents kv chain → chain_ok chain → db_tip kv = Ok (tip_pair chain).
Proof.
  intros [_ Htip] Hok. unfold db_tip. rewrite Htip. unfold tip_of, tip_pair.
  destruct chain as [|b chain _] using rev_ind; [done|]. rewrite last_snoc. cbn.
  pose proof (chain_ok_mid _ _ _ Hok) as Hb. by rewrite tip_from_value by apply Hb.
Qed.

Lemma db_txid_exact (kv : Kv) l n x :
  rows_ok kv l → Forall row_ok l → l !! n = Some x → db_txid kv (Z.of_nat n) = Ok (Some (r_txid (snd x))).
Proof.
  intros Hrows Hok Hx. pose proof (lookup_lt_Some _ _ _ Hx). pose proof (ro_fits _ _ Hrows). unfold db_txid.
  rewrite (proj2 (txnum_key_Ok (Z.of_nat n) (txnum_bytes (Z.of_nat n)))) by (split; [lia|done]). rcbn.
  rewrite (proj2 (ro_txids _ _ Hrows (txnum_bytes (Z.of_nat n)) (r_txid (snd x)))) by by exists n, x.
  rewrite Forall_lookup in Hok. destruct (Hok _ _ Hx) as [_ Htx]. by rewrite (to_txid _ Htx).
Qed.

Lemma db_utxo_exact (kv : Kv) (m : gmap bytes UtxoVal) p op :
  holds_utxos kv m → map_Forall val_ok m → db_utxo kv p op = Ok (m !! utxo_key p op).
Proof.
  intros Hm Hok. unfold db_utxo. rewrite Hm. destruct (m !! utxo_key p op) as [v|] eqn:E; [|done]. cbn.
  destruct (Hok _ _ E) as [_ Hv]. by rewrite utxo_decode_encode.
Qed.

End reads.
