(* ===== verification/IndexTable.v ===== *)
(** The table of blocks in memory ([fortis-index/src/chainstate.rs]), and that
    it is the one of the chain the database represents. *)

From S2P Require Import Prelude Json Bitcoin IndexKeys Index IndexSpec IndexChain IndexApply IndexRead.

Record BlockTable : Type := { bt_start : Z; bt_recs : list BlockRec }.

Definition bt_default : BlockTable := {| bt_start := 0; bt_recs := [] |}.

(** [start + i as u32] *)
Definition height_at (start : Z) (i : nat) : Z := wrapping_add u32_max start (Z.of_nat i mod 2^32).

Fixpoint check_rows (start : Z) (i : nat) (rows : list (Z * BlockRec)) : result string unit :=
  match rows with
  | [] => Ok tt
  | (h, _) :: rows =>
      _ ← bail_if (negb (h =? height_at start i))
            ("blocks table has a gap: expected height " +:+ pretty (height_at start i) +:+ ", found " +:+ pretty h);
      check_rows start (S i) rows
  end.
Definition from_db (rows : list (Z * BlockRec)) : result string BlockTable :=
  match rows with
  | [] => Ok bt_default
  | (start, _) :: _ => _ ← check_rows start 0 rows; mret {| bt_start := start; bt_recs := map snd rows |}
  end.

Definition bt_tip (t : BlockTable) : option (Z * BlockRec) :=
  (λ r, (wrapping_add u32_max (height_at (bt_start t) (length (bt_recs t))) (-1), r)) <$> last (bt_recs t).

Definition bt_get (t : BlockTable) (h : Z) : option BlockRec := i ← checked_sub h (bt_start t); bt_recs t !! Z.to_nat i.

Definition rec_end (r : BlockRec) : Z := wrapping_add u64_max (br_first_txnum r) (br_n_txs r).
Definition next_txnum (t : BlockTable) : Z := match last (bt_recs t) with None => 0 | Some r => rec_end r end.

(** [partition_point] of a list that holds its predicate first and then no more. *)
Definition partition_point {A} (f : A → bool) (l : list A) : nat := length (take_while f l).

Definition height_of (t : BlockTable) (n : Z) : option Z :=
  let i := partition_point (λ r, rec_end r <=? n) (bt_recs t) in
  r ← bt_recs t !! i;
  if br_first_txnum r <=? n then Some (height_at (bt_start t) i) else None.

Definition bt_push {E} (t : BlockTable) (h : Z) (rec : BlockRec) : result E BlockTable :=
  match bt_tip t with
  | None => Ok {| bt_start := h; bt_recs := bt_recs t ++ [rec] |}
  | Some (tip, _) =>
      if h =? wrapping_add u32_max tip 1 then Ok {| bt_start := bt_start t; bt_recs := bt_recs t ++ [rec] |} else Panic
  end.

Definition bt_pop (t : BlockTable) : BlockTable * option (Z * BlockRec) :=
  match bt_tip t with
  | None => (t, None)
  | Some (h, r) => ({| bt_start := bt_start t; bt_recs := removelast (bt_recs t) |}, Some (h, r))
  end.

Section table.
Context `{BitcoinLib, HashOrder}.

(** The table of a chain; one with no blocks may keep an old start. *)
Record table_for (t : BlockTable) (chain : list ParsedBlock) : Prop := {
  tf_recs : bt_recs t = recs_of chain;
  tf_start b : head chain = Some b → bt_start t = b_height b;
}.

Lemma length_recs_of chain : length (recs_of chain) = length chain.
Proof. apply length_imap. Qed.

Lemma recs_of_lookup chain i : recs_of chain !! i = rec_of chain i <$> chain !! i.
Proof. unfold recs_of. by rewrite list_lookup_imap. Qed.

Lemma recs_of_snoc chain b : recs_of (chain ++ [b]) = recs_of chain ++ [rec_of (chain ++ [b]) (length chain) b].
Proof.
  unfold recs_of. rewrite imap_app. f_equal.
  - apply imap_ext. intros i x Hi. apply rec_of_app. apply lookup_lt_Some in Hi. lia.
  - cbn. by rewrite Nat.add_0_r.
Qed.

(** Heights of the table's entries. *)
Lemma table_height t chain i b :
  table_for t chain → chain_ok chain → chain !! i = Some b → b_height b = bt_start t + Z.of_nat i ∧ height_at (bt_start t) i = b_height b.
Proof.
  intros [_ Hs] [Hb Hl] Hi. destruct chain as [|b0 chain]; [done|]. rewrite (Hs b0) by done.
  pose proof (linked_heights _ 0 i b0 b Hl eq_refl Hi). rewrite Forall_lookup in Hb.
  pose proof (ko_height _ (Hb 0%nat b0 eq_refl)) as Hh0. pose proof (ko_height _ (Hb _ _ Hi)) as Hh.
  split; [lia|]. unfold height_at. rewrite Z.mod_small by width_lia. rewrite wrapping_add_small; lia.
Qed.

Lemma table_tip t chain b :
  table_for t (chain ++ [b]) → chain_ok (chain ++ [b]) →
  bt_tip t = Some (b_height b, rec_of (chain ++ [b]) (length chain) b).
Proof.
  intros Ht Hok. assert (Hb : (chain ++ [b]) !! length chain = Some b) by by apply list_lookup_middle.
  destruct (table_height _ _ _ _ Ht Hok Hb) as [Hh _]. pose proof (ko_height _ (chain_ok_mid _ _ _ Hok)) as Hr.
  assert (Hs : 0 ≤ bt_start t).
  { rewrite (tf_start _ _ Ht (default b (head (chain ++ [b])))) by by destruct chain.
    destruct chain as [|b0 chain]; simpl; [lia|]. apply (chain_ok_mid [] b0 (chain ++ [b]) Hok). }
  unfold bt_tip. rewrite (tf_recs _ _ Ht), recs_of_snoc, last_snoc. cbn. do 2 f_equal.
  rewrite length_app, length_recs_of. simpl. unfold height_at, wrapping_add.
  change (2^32) with (u32_max + 1). rewrite Zplus_mod_idemp_r, Zplus_mod_idemp_l.
  replace (bt_start t + Z.of_nat (length chain + 1) + -1) with (b_height b) by lia. apply Z.mod_small. lia.
Qed.

Lemma table_tip_nil t : table_for t [] → bt_tip t = None.
Proof. intros [Hr _]. unfold bt_tip. by rewrite Hr. Qed.

Lemma table_get t chain i b :
  table_for t chain → chain_ok chain → chain !! i = Some b → bt_get t (b_height b) = Some (rec_of chain i b).
Proof.
  intros Ht Hok Hi. destruct (table_height _ _ _ _ Ht Hok Hi) as [Hh _]. unfold bt_get, checked_sub.
  rewrite (proj2 (Z.leb_le _ _)) by lia. cbn. replace (Z.to_nat (b_height b - bt_start t)) with i by lia.
  by rewrite (tf_recs _ _ Ht), recs_of_lookup, Hi.
Qed.

Lemma table_get_Some t chain h r :
  table_for t chain → chain_ok chain → bt_get t h = Some r →
  ∃ i b, chain !! i = Some b ∧ b_height b = h ∧ r = rec_of chain i b.
Proof.
  intros Ht Hok. unfold bt_get. intros (i & Hi%checked_sub_Some & Hr)%bind_Some. rewrite (tf_recs _ _ Ht), recs_of_lookup in Hr.
  apply fmap_Some in Hr as (b & Hb & ->). exists (Z.to_nat i), b. split_and!; [done| |done].
  destruct (table_height _ _ _ _ Ht Hok Hb) as [-> _]. lia.
Qed.

Lemma rec_end_of chain i b :
  chain_ok chain → next_of chain ≤ MAX_TXNUM + 1 → chain !! i = Some b →
  rec_end (rec_of chain i b) = next_of (take (S i) chain).
Proof.
  intros Hok Hmax Hi. assert (Hb : block_ok b) by (eapply Forall_lookup_1; [apply Hok|done]).
  unfold rec_end. rewrite (take_S_r _ _ b) by done. unfold next_of, rec_of. rewrite block_ok_n_txs by done.
  rewrite numbered_snoc, length_app, length_rows_in. cbn [block_rec br_first_txnum]. rewrite wrapping_add_small; [lia|].
  unfold next_of in Hmax. rewrite <-(take_drop_middle _ _ _ Hi), numbered_app, length_app in Hmax.
  change (b :: drop (S i) chain) with ([b] ++ drop (S i) chain) in Hmax.
  rewrite numbered_app, length_app in Hmax. unfold numbered at 2 in Hmax. simpl in Hmax. rewrite app_nil_r, length_rows_in in Hmax.
  width_lia.
Qed.

Lemma table_next t chain :
  table_for t chain → chain_ok chain → next_of chain ≤ MAX_TXNUM + 1 → next_txnum t = next_of chain.
Proof.
  intros Ht Hok Hmax. unfold next_txnum. rewrite (tf_recs _ _ Ht).
  destruct chain as [|b chain _] using rev_ind; [done|].
  rewrite recs_of_snoc, last_snoc. assert (Hb : (chain ++ [b]) !! length chain = Some b) by by apply list_lookup_middle.
  rewrite (rec_end_of _ _ _ Hok Hmax Hb). by rewrite take_ge by (rewrite length_app; simpl; lia).
Qed.

Lemma table_push {E} t chain b :
  table_for t chain → chain_ok (chain ++ [b]) →
  ∃ t', bt_push (E:=E) t (b_height b) (rec_of (chain ++ [b]) (length chain) b) = Ok t' ∧ table_for t' (chain ++ [b]).
Proof.
  intros Ht Hok. unfold bt_push. destruct chain as [|b0 chain _] using rev_ind.
  { rewrite table_tip_nil by done. eexists. split; [done|]. split; [by rewrite (tf_recs _ _ Ht)|]. by intros ? [= <-]. }
  rewrite (table_tip _ _ _ Ht) by by eapply chain_ok_prefix.
  assert (b_height b = b_height b0 + 1).
  { eapply (co_linked _ Hok (length chain)); [rewrite <-app_assoc; by apply list_lookup_middle|].
    apply list_lookup_middle. rewrite length_app. simpl. lia. }
  pose proof (ko_height _ (chain_ok_mid _ _ _ Hok)). assert (0 ≤ b_height b0) by by apply (chain_ok_mid chain b0 []), (chain_ok_prefix _ [b]).
  rewrite wrapping_add_small by lia. rewrite (proj2 (Z.eqb_eq _ _)) by done. eexists. split; [done|]. split.
  - cbn. by rewrite recs_of_snoc, (tf_recs _ _ Ht).
  - intros x Hx. apply (tf_start _ _ Ht). by destruct chain.
Qed.

Lemma table_pop t chain b :
  table_for t (chain ++ [b]) → chain_ok (chain ++ [b]) → table_for (fst (bt_pop t)) chain.
Proof.
  intros Ht Hok. unfold bt_pop. rewrite (table_tip _ _ _ Ht Hok). cbn. split.
  - cbn. by rewrite (tf_recs _ _ Ht), recs_of_snoc, removelast_last.
  - intros x Hx. apply (tf_start _ _ Ht). by destruct chain.
Qed.

(** ** Which block holds a transaction *)
Lemma partition_point_eq {A} (f : A → bool) l i :
  (i ≤ length l)%nat → (∀ j a, l !! j = Some a → (j < i)%nat → f a = true) → (∀ a, l !! i = Some a → f a = false) →
  partition_point f l = i.
Proof.
  unfold partition_point. revert i. induction l as [|a l IH]; intros i Hi Hlt Hat; cbn [take_while length] in *; [lia|].
  destruct i as [|i]; [by rewrite (Hat a)|]. rewrite (Hlt 0%nat a) by (done || lia). cbn. f_equal. apply IH; [lia| |].
  - intros j x Hj Hji. apply (Hlt (S j)); [done|lia].
  - intros x Hx. by apply Hat.
Qed.

Lemma numbered_locate chain n x :
  numbered chain !! n = Some x →
  ∃ i b, chain !! i = Some b ∧ fst x = b_height b ∧ next_of (take i chain) ≤ Z.of_nat n < next_of (take (S i) chain).
Proof.
  induction chain as [|b chain IH] using rev_ind; [done|]. rewrite numbered_snoc. intros Hn.
  destruct (decide (n < length (numbered chain))%nat) as [Hlt|Hge].
  - rewrite lookup_app_l in Hn by done. destruct (IH Hn) as (i & b' & Hi & Hx & Hr). pose proof (lookup_lt_Some _ _ _ Hi).
    exists i, b'. rewrite !take_app_le by lia. split_and!; [by apply lookup_app_l_Some|done|lia|lia].
  - rewrite lookup_app_r in Hn by lia. exists (length chain), b. unfold rows_in in Hn.
    pose proof (lookup_lt_Some _ _ _ Hn) as Hlt. rewrite length_map in Hlt.
    rewrite (list_lookup_fmap (λ tx, (b_height b, tx)) (b_txs b)) in Hn. apply fmap_Some in Hn as (tx & _ & ->).
    rewrite take_app_length, (take_ge (chain ++ [b])) by (rewrite length_app; simpl; lia).
    unfold next_of. rewrite numbered_snoc, length_app, length_rows_in. split_and!; [by apply list_lookup_middle|done|lia|lia].
Qed.

Lemma next_of_mono chain i j : (i ≤ j)%nat → next_of (take i chain) ≤ next_of (take j chain).
Proof.
  intros Hij. unfold next_of. rewrite <-(take_drop i (take j chain)), take_take, Nat.min_l by done.
  rewrite numbered_app, length_app. lia.
Qed.

Lemma height_of_exact t chain n :
  table_for t chain → chain_ok chain → next_of chain ≤ MAX_TXNUM + 1 →
  height_of t (Z.of_nat n) = fst <$> numbered chain !! n.
Proof.
  intros Ht Hok Hmax. unfold height_of. rewrite (tf_recs _ _ Ht). destruct (numbered chain !! n) as [x|] eqn:Hn.
  - destruct (numbered_locate _ _ _ Hn) as (i & b & Hi & Hx & Hlo & Hhi). pose proof (lookup_lt_Some _ _ _ Hi).
    rewrite (partition_point_eq _ _ i).
    + rewrite recs_of_lookup, Hi. cbn. fold (next_of (take i chain)). rewrite (proj2 (Z.leb_le _ _)) by done.
      by rewrite (proj2 (table_height _ _ _ _ Ht Hok Hi)), Hx.
    + rewrite length_recs_of. lia.
    + intros j r Hr Hji. rewrite recs_of_lookup in Hr. apply fmap_Some in Hr as (b' & Hb' & ->).
      rewrite (rec_end_of chain j b') by done. apply Z.leb_le. pose proof (next_of_mono chain (S j) i). lia.
    + intros r Hr. rewrite recs_of_lookup, Hi in Hr. injection Hr as <-. rewrite (rec_end_of chain i b) by done. by apply Z.leb_gt.
  - apply lookup_ge_None in Hn. rewrite (partition_point_eq _ _ (length chain)).
    + by rewrite lookup_ge_None_2 by by rewrite length_recs_of.
    + by rewrite length_recs_of.
    + intros j r Hr Hj. rewrite recs_of_lookup in Hr. apply fmap_Some in Hr as (b' & Hb' & ->).
      rewrite (rec_end_of chain j b') by done. apply Z.leb_le. pose proof (next_of_mono chain (S j) (length chain) ltac:(lia)) as Hm.
      rewrite firstn_all in Hm. unfold next_of in *. lia.
    + intros r Hr. apply lookup_lt_Some in Hr. rewrite length_recs_of in Hr. lia.
Qed.

(** ** Reading the table back *)
Lemma StronglySorted_lookup {A} (R : relation A) l :
  (∀ i j x y, (i < j)%nat → l !! i = Some x → l !! j = Some y → R x y) → StronglySorted R l.
Proof.
  induction l as [|a l IH]; intros Hl; constructor.
  - apply IH. intros i j x y Hij Hx Hy. apply (Hl (S i) (S j)); [lia|done..].
  - apply Forall_lookup. intros j y Hy. apply (Hl 0%nat (S j)); [lia|done..].
Qed.

Definition block_row (chain : list ParsedBlock) (i : nat) (b : ParsedBlock) : bytes * bytes :=
  (height_key (b_height b), rec_bytes (rec_of chain i b)).

Lemma block_rows (kv : Kv) chain : stored kv chain → chain_ok chain → rows_of kv CfBlocks = imap (block_row chain) chain.
Proof.
  intros Hst Hok. assert (AntiSymm (=) (λ a b : bytes * bytes, bytes_ltb (fst a) (fst b) = true)).
  { intros a b Hab Hba. assert (bytes_leb (fst b) (fst a) = true); [|unfold bytes_leb in *; by rewrite Hab in *].
    destruct (bytes_leb_total (fst a) (fst b)) as [E|E]; [|done]. unfold bytes_leb in E. by rewrite Hba in E. }
  assert (Hs : StronglySorted (λ a b, bytes_ltb (fst a) (fst b) = true) (imap (block_row chain) chain)).
  { apply StronglySorted_lookup. intros i j x y Hij Hx Hy. rewrite list_lookup_imap in Hx, Hy.
    apply fmap_Some in Hx as (b & Hb & ->). apply fmap_Some in Hy as (b' & Hb' & ->). cbn [fst block_row].
    pose proof (linked_heights _ _ _ _ _ (co_linked _ Hok) Hb Hb'). pose proof (co_blocks _ Hok) as Hall.
    rewrite Forall_lookup in Hall. pose proof (ko_height _ (Hall _ _ Hb)). pose proof (ko_height _ (Hall _ _ Hb')).
    unfold height_key. rewrite bytes_ltb_be by width_lia. apply Z.ltb_lt. lia. }
  assert (Hnd : ∀ l, StronglySorted (λ a b : bytes * bytes, bytes_ltb (fst a) (fst b) = true) l → NoDup l).
  { induction 1 as [|x l _ IH Hx]; constructor; [|done]. rewrite Forall_forall in Hx. intros Hin. specialize (Hx _ Hin).
    pose proof (bytes_leb_refl (fst x)) as Hr. unfold bytes_leb in Hr. by rewrite Hx in Hr. }
  apply (StronglySorted_unique (λ a b : bytes * bytes, bytes_ltb (fst a) (fst b) = true)); [apply rows_of_strict|done|].
  apply NoDup_Permutation; [apply Hnd, rows_of_strict|by apply Hnd|]. intros [k v].
  rewrite elem_of_rows_of, (st_blocks _ _ Hst), elem_of_lookup_imap. unfold block_row. naive_solver.
Qed.

Lemma rec_of_ok chain i b :
  chain_ok chain → next_of chain ≤ MAX_TXNUM → chain !! i = Some b → rec_ok (rec_of chain i b).
Proof.
  intros [Hall _] Hmax Hi. rewrite Forall_lookup in Hall. destruct (Hall _ _ Hi) as [Hh Hhash Htime _ _].
  pose proof (next_of_mono chain i (length chain) ltac:(apply lookup_lt_Some in Hi; lia)) as Hm. rewrite firstn_all in Hm.
  pose proof (Z.mod_pos_bound (Z.of_nat (length (b_txs b))) (2^32) ltac:(lia)).
  unfold next_of in *. unfold rec_ok, rec_of, block_rec. cbn [br_hash br_time br_first_txnum br_n_txs].
  split_and!; (done || lia || width_lia).
Qed.

Lemma load_blocks_exact (kv : Kv) chain :
  stored kv chain → chain_ok chain → next_of chain ≤ MAX_TXNUM →
  load_blocks kv = Ok (imap (λ i b, (b_height b, rec_of chain i b)) chain).
Proof.
  intros Hst Hok Hmax. unfold load_blocks. rewrite (block_rows kv chain) by done. apply collect_Ok, Forall2_same_length_lookup.
  split; [by rewrite !length_imap|]. intros i x y Hx Hy. rewrite list_lookup_imap in Hx.
  rewrite list_lookup_imap in Hy. destruct (chain !! i) as [b|] eqn:Hi; [|done]. injection Hx as <-. injection Hy as <-. cbn [block_row fst snd].
  unfold height_key. rewrite length_be_bytes. cbn [Nat.eqb]. rewrite rec_decode_bytes by by apply rec_of_ok.
  pose proof (Forall_lookup_1 _ _ _ _ (co_blocks _ Hok) Hi) as Hb. destruct (ko_height _ Hb).
  rewrite from_be_be_bytes by width_lia. done.
Qed.

Lemma check_rows_ok t chain k :
  table_for t chain → chain_ok chain → ∀ l i, drop i chain = l →
  check_rows (bt_start t) i (imap (λ j b, (b_height b, rec_of k j b)) l) = Ok tt.
Proof.
  intros Ht Hok l. revert k. enough (Hg : ∀ f : nat → ParsedBlock → BlockRec, ∀ i, drop i chain = l →
    check_rows (bt_start t) i (imap (λ j b, (b_height b, f j b)) l) = Ok tt) by (intros; by apply Hg).
  induction l as [|b l IH]; intros f i Hi; [done|]. cbn.
  assert (Hb : chain !! i = Some b) by (rewrite <-(Nat.add_0_r i), <-lookup_drop, Hi; done).
  rewrite (proj2 (table_height _ _ _ _ Ht Hok Hb)), Z.eqb_refl. cbn. apply (IH (λ j, f (S j))).
  by rewrite <-(drop_drop chain 1 i), Nat.add_1_r || (replace (S i) with (i + 1)%nat by lia; rewrite <-drop_drop, Hi).
Qed.

(** The table the process starts with, from a database that holds a chain. *)
Lemma from_db_exact (kv : Kv) chain :
  stored kv chain → chain_ok chain → next_of chain ≤ MAX_TXNUM →
  ∃ rows t, load_blocks kv = Ok rows ∧ from_db rows = Ok t ∧ table_for t chain.
Proof.
  intros Hst Hok Hmax. rewrite (load_blocks_exact kv chain) by done. eexists _.
  set (t := {| bt_start := match chain with b :: _ => b_height b | [] => 0 end; bt_recs := recs_of chain |}).
  assert (Ht : table_for t chain) by (split; [done|]; destruct chain; by intros ? [= <-]). exists t. split_and!; [done| |done].
  pose proof (check_rows_ok t chain chain Ht Hok chain 0 eq_refl) as Hc.
  unfold from_db. destruct chain as [|b chain]; [done|]. cbn [imap] in Hc |- *. cbn [bt_start t] in Hc. rewrite Hc. rcbn.
  unfold t. do 2 f_equal. unfold recs_of. cbn. f_equal. by rewrite fmap_imap.
Qed.

End table.
