(* ===== verification/IndexParse.v ===== *)
(** A block read from bytes has fields in their ranges ([chain.rs],
    [extract.rs]). *)

From S2P Require Import Prelude Json Bitcoin IndexKeys Index IndexSpec.

(** What the bitcoin crate's decoding guarantees: sizes of hashes and scripts,
    and that a transaction takes at least ten bytes, nine for each output and
    forty-one for each input. *)
Class DecodeLaws `{BitcoinLib, BlockLib} : Prop := {
  dl_txid tx : length (compute_txid tx) = 32%nat;
  dl_hash160 b : length (hash160 b) = 20%nat;
  dl_p2wpkh s : is_p2wpkh s = true → length s = 22%nat;
  dl_varint r n r' : varint_decode r = inr (n, r') → (length r' ≤ length r)%nat;
  dl_size r tx r' : tx_decode r = inr (tx, r') →
    (length r' + 10 + 9 * length (output tx) + 41 * length (input tx) ≤ length r)%nat;
  dl_outputs r tx r' : tx_decode r = inr (tx, r') → Forall (λ o, 0 ≤ value o ≤ u64_max) (output tx);
  dl_inputs r tx r' : tx_decode r = inr (tx, r') →
    Forall (λ i, length (txid (previous_output i)) = 32%nat ∧ 0 ≤ vout (previous_output i) ≤ u32_max) (input tx);
}.

Section parse.
Context `{DecodeLaws}.

Definition tx_typed (tx : Transaction) : Prop :=
  Forall (λ o, 0 ≤ value o ≤ u64_max) (output tx) ∧
  Forall (λ i, length (txid (previous_output i)) = 32%nat ∧ 0 ≤ vout (previous_output i) ≤ u32_max) (input tx).

Definition tx_weight (tx : Transaction) : Z := 1 + Z.of_nat (length (output tx)) + Z.of_nat (length (input tx)).

Lemma decode_txs_typed k i n r txs r' :
  decode_txs k i n r = Ok (txs, r') →
  Forall tx_typed txs ∧ sumZ tx_weight txs + Z.of_nat (length r') ≤ Z.of_nat (length r).
Proof.
  revert i r txs r'. induction k as [|k IH]; intros i r txs r'; cbn [decode_txs].
  { intros [= <- <-]. split; [constructor|]. rewrite sumZ_nil. lia. }
  destruct (tx_decode r) as [|[tx r1]] eqn:E; [done|]. intros ([txs1 r2] & Hr & [= <- <-])%bind_Ok.
  apply IH in Hr as [Hall Hsum]. pose proof (dl_size _ _ _ E). split.
  - constructor; [|done]. split; [by eapply dl_outputs|by eapply dl_inputs].
  - rewrite sumZ_cons. unfold tx_weight at 1. lia.
Qed.

Lemma from_le_range b : 0 ≤ from_le b < 256 ^ Z.of_nat (length b).
Proof. unfold from_le. pose proof (from_be_range (rev b)). by rewrite length_rev in *. Qed.

Lemma length_omap_le {A B} (f : A → option B) l : (length (omap f l) ≤ length l)%nat.
Proof. induction l as [|a l IH]; cbn; [lia|]. destruct (f a); cbn in *; lia. Qed.

Lemma Forall_omap {A B} (f : A → option B) (P : A → Prop) (Q : B → Prop) l :
  Forall P l → (∀ a b, P a → f a = Some b → Q b) → Forall Q (omap f l).
Proof. intros Hl Hf. induction Hl as [|a l Ha _ IH]; simpl; [constructor|]. destruct (f a) eqn:E; [constructor; eauto|done]. Qed.

Lemma tx_rows_ok tx rows :
  tx_typed tx → tx_rows tx = Some rows →
  tx_ok rows ∧ 1 + Z.of_nat (length (r_funded rows)) + Z.of_nat (length (r_spent rows)) ≤ tx_weight tx.
Proof.
  intros [Ho Hi] Hrows.
  assert (rows = {| r_txid := compute_txid tx; r_funded := funded_rows tx; r_spent := spent_rows tx |}) as ->.
  { unfold tx_rows in Hrows. by destruct (funded_rows tx), (spent_rows tx); simplify_eq. }
  clear Hrows. split.
  - split; cbn; [apply dl_txid| |].
    + unfold funded_rows. eapply (Forall_omap _ (λ x, ∀ f, x = Some f → length (f_program f) = 20%nat ∧
        0 ≤ f_vout f ≤ u32_max ∧ 0 ≤ f_value f ≤ u64_max)); [|intros a f Ha ->; by apply Ha].
      apply Forall_lookup. intros i x Hx. rewrite list_lookup_imap in Hx. apply fmap_Some in Hx as (o & Hlo & ->).
      destruct (is_p2wpkh (script_pubkey o)) eqn:E; [|done]. intros f [= <-]. cbn. apply dl_p2wpkh in E.
      pose proof (Z.mod_pos_bound (Z.of_nat i) (2^32) ltac:(lia)). split_and!; [|lia|width_lia| |].
      * unfold slice. rewrite length_take, length_drop. lia.
      * by apply (Forall_lookup_1 _ _ _ _ Ho Hlo).
      * by apply (Forall_lookup_1 _ _ _ _ Ho Hlo).
    + unfold spent_rows. destruct (is_coinbase tx); [constructor|]. eapply Forall_omap; [exact Hi|].
      intros a s [Ht Hv] (p & Hp & ->)%fmap_Some. cbn. split_and!; [|done|lia|lia].
      unfold spend_program in Hp. destruct (_ || _); [done|]. apply bind_Some in Hp as (pk & _ & [= <-]). apply dl_hash160.
  - cbn. unfold tx_weight, funded_rows, spent_rows.
    pose proof (length_omap_le (λ x : option Funded, x) (imap (λ i o, if is_p2wpkh (script_pubkey o)
      then Some {| f_program := slice 2 22 (script_pubkey o); f_vout := Z.of_nat i mod 2^32; f_value := value o |} else None) (output tx))) as Hf.
    rewrite length_imap in Hf. destruct (is_coinbase tx); cbn [length]; [lia|].
    pose proof (length_omap_le (λ i, (λ p, {| s_program := p; s_prevout := previous_output i |}) <$> spend_program i) (input tx)). lia.
Qed.

Lemma parse_block_ok height hash b fmt pb :
  parse_and_extract height hash b fmt = Ok pb →
  0 ≤ height ≤ u32_max → length hash = 32%nat → Z.of_nat (length b) ≤ u32_max →
  block_ok pb ∧ b_height pb = height ∧ b_hash pb = hash.
Proof.
  intros (body & Hbody & [= <-])%bind_Ok Hh Hhash Hlen. split_and!; [|done..].
  unfold parse_block in Hbody. apply bind_Ok in Hbody as ([] & _ & Hbody). cbn in Hbody.
  apply bind_Ok in Hbody as ([n r] & Hvar & Hbody). apply bind_Ok in Hbody as ([] & _ & Hbody).
  apply bind_Ok in Hbody as ([txs r'] & Htxs & Hbody). apply bind_Ok in Hbody as ([] & _ & [= <-]).
  apply decode_txs_typed in Htxs as [Htyped Hsum].
  assert (Hr : (length r ≤ length b)%nat).
  { destruct (varint_decode _) as [|x] eqn:E in Hvar; [done|]. injection Hvar as ->. apply dl_varint in E. rewrite length_drop in E. lia. }
  split; cbn [b_height b_hash b_time b_txs body_time body_txs].
  - done.
  - done.
  - pose proof (from_le_range (slice 68 72 b)) as Ht.
    assert (length (slice 68 72 b) ≤ 4)%nat by (unfold slice; rewrite length_take; lia).
    assert (256 ^ Z.of_nat (length (slice 68 72 b)) ≤ 256 ^ 4) by (apply Z.pow_le_mono_r; lia).
    change (0 ≤ from_le (slice 68 72 b) ≤ u32_max). unfold u32_max. lia.
  - eapply Forall_omap; [exact Htyped|]. intros tx rows Htx Hrows. by apply (tx_rows_ok tx rows).
  - assert (sumZ (λ tx, 1 + Z.of_nat (length (r_funded tx)) + Z.of_nat (length (r_spent tx))) (omap tx_rows txs) ≤ sumZ tx_weight txs); [|lia].
    clear -Htyped H1. induction Htyped as [|tx txs Htx _ IH]; [done|]. cbn [omap list_omap]. rewrite sumZ_cons.
    destruct (tx_rows tx) as [rows|] eqn:E; [|unfold tx_weight at 1; lia].
    rewrite sumZ_cons. pose proof (proj2 (tx_rows_ok tx rows Htx E)). lia.
Qed.

End parse.
