(* ===== verification/IndexFetch.v ===== *)
(** Fetching blocks in parallel ([fortis-index/src/fetch.rs]): a machine of
    threads that share the next height, the blocks that are ready and two
    channels.  Whatever the node answers and however the threads run, blocks
    are handed on in the order of their heights.

    What the threads do under the lock, a send and a receive are one step
    each; waiting is not having a step.  A worker looks at the window before it
    asks the node and puts the answer later: then the window has only moved
    on, and whether the fetch has ended meanwhile makes no difference to it.
    What [hashes] and [raw_block] may answer is the node's ([BlockSource]);
    every call can also fail. *)

From S2P Require Import Prelude Json Bitcoin IndexKeys Index IndexSpec IndexChain.

Definition HASH_BATCH : Z := 1000.
Definition JOBS_CAP : nat := Z.to_nat (2 * HASH_BATCH).

Abbreviation Item := (result string ParsedBlock).

Definition is_err {E A} (r : result E A) : bool := match r with Ok _ => false | _ => true end.

(** Where [hash_stage] and [deliver] stand. *)
Inductive HashStage : Type :=
| HLookup (start : Z)
| HSend (start : Z) (queue : list (Z * bytes))
| HEnd.

Inductive Deliver : Type := DWait | DSend (item : Item) | DSent (failed : bool) | DEnd.

(** The trait [BlockSource]: what the node may answer to [hashes(start, n)]
    and to [raw_block(hash)]. *)
Class BlockSource : Type := {
  gives_hashes : Z → Z → list bytes → Prop;
  gives_raw : bytes → bytes → Prop;
}.

Record Fetch : Type := {
  fe_next : Z;
  fe_ready : gmap Z Item;
  fe_done : bool;
  fe_stop : bool;
  fe_jobs : list (Z * bytes);
  fe_hash : HashStage;
  fe_held : list (Z * bytes);
  fe_deliver : Deliver;
  fe_out : list Item;
}.

Definition halted (s : Fetch) : bool := fe_done s || fe_stop s.

Definition set_ready (f : gmap Z Item → gmap Z Item) (s : Fetch) : Fetch := {|
  fe_next := fe_next s; fe_ready := f (fe_ready s); fe_done := fe_done s; fe_stop := fe_stop s; fe_jobs := fe_jobs s;
  fe_hash := fe_hash s; fe_held := fe_held s; fe_deliver := fe_deliver s; fe_out := fe_out s |}.
Definition set_jobs (jobs : list (Z * bytes)) (s : Fetch) : Fetch := {|
  fe_next := fe_next s; fe_ready := fe_ready s; fe_done := fe_done s; fe_stop := fe_stop s; fe_jobs := jobs;
  fe_hash := fe_hash s; fe_held := fe_held s; fe_deliver := fe_deliver s; fe_out := fe_out s |}.
Definition set_hash (h : HashStage) (s : Fetch) : Fetch := {|
  fe_next := fe_next s; fe_ready := fe_ready s; fe_done := fe_done s; fe_stop := fe_stop s; fe_jobs := fe_jobs s;
  fe_hash := h; fe_held := fe_held s; fe_deliver := fe_deliver s; fe_out := fe_out s |}.
Definition set_held (l : list (Z * bytes)) (s : Fetch) : Fetch := {|
  fe_next := fe_next s; fe_ready := fe_ready s; fe_done := fe_done s; fe_stop := fe_stop s; fe_jobs := fe_jobs s;
  fe_hash := fe_hash s; fe_held := l; fe_deliver := fe_deliver s; fe_out := fe_out s |}.
Definition set_deliver (d : Deliver) (s : Fetch) : Fetch := {|
  fe_next := fe_next s; fe_ready := fe_ready s; fe_done := fe_done s; fe_stop := fe_stop s; fe_jobs := fe_jobs s;
  fe_hash := fe_hash s; fe_held := fe_held s; fe_deliver := d; fe_out := fe_out s |}.
Definition finish (s : Fetch) : Fetch := {|
  fe_next := fe_next s; fe_ready := fe_ready s; fe_done := true; fe_stop := fe_stop s; fe_jobs := fe_jobs s;
  fe_hash := fe_hash s; fe_held := fe_held s; fe_deliver := DEnd; fe_out := fe_out s |}.
Definition set_stop (s : Fetch) : Fetch := {|
  fe_next := fe_next s; fe_ready := fe_ready s; fe_done := fe_done s; fe_stop := true; fe_jobs := fe_jobs s;
  fe_hash := fe_hash s; fe_held := fe_held s; fe_deliver := fe_deliver s; fe_out := fe_out s |}.

(** [Shared::put] *)
Definition put (h : Z) (r : Item) : Fetch → Fetch := set_ready (insert h r).

(** The item reaches the channel; then, under the lock, the next one is due. *)
Definition send_out (item : Item) (s : Fetch) : Fetch := {|
  fe_next := fe_next s; fe_ready := fe_ready s; fe_done := fe_done s; fe_stop := fe_stop s; fe_jobs := fe_jobs s;
  fe_hash := fe_hash s; fe_held := fe_held s; fe_deliver := DSent (is_err item); fe_out := fe_out s ++ [item] |}.
Definition advance (to : Z) (failed : bool) (s : Fetch) : Fetch := {|
  fe_next := fe_next s + 1; fe_ready := fe_ready s; fe_done := fe_done s || failed || (to <? fe_next s + 1);
  fe_stop := fe_stop s; fe_jobs := fe_jobs s; fe_hash := fe_hash s; fe_held := fe_held s;
  fe_deliver := DWait; fe_out := fe_out s |}.

Section fetch.
Context `{BitcoinLib, BlockLib, BlockSource}.
Context (fmt : HeaderFormat) (workers : nat) (from to : Z).

(** [fetch_range], before its threads run; [workers] is at least one. *)
Definition window : Z := 2 * Z.of_nat workers.
Definition fetch_init : Fetch := {|
  fe_next := from; fe_ready := ∅; fe_done := to <? from; fe_stop := false; fe_jobs := [];
  fe_hash := HLookup from; fe_held := []; fe_deliver := DWait; fe_out := [] |}.

Definition block_context (h : Z) (hash : bytes) : string :=
  "block " +:+ pretty h +:+ " (" +:+ hex_encode (reverse hash) +:+ ")".

(** What a worker makes of the node's answer. *)
Definition fetch_block (h : Z) (hash : bytes) (answer : result string bytes) : Item :=
  match answer with
  | Ok raw => match parse_and_extract h hash raw fmt with
              | Ok b => Ok b
              | Err _ => Err (block_context h hash)
              | Panic => Panic
              end
  | Err _ => Err (block_context h hash)
  | Panic => Panic
  end.

(** The heights a batch of hashes gets: [(start..).zip(hashes)]. *)
Definition zip_heights (start : Z) (hashes : list bytes) : list (Z * bytes) :=
  imap (λ i hash, (start + Z.of_nat i, hash)) hashes.

Inductive fetch_step : Fetch → Fetch → Prop :=
(* hash_stage *)
| hash_end s start : fe_hash s = HLookup start → to < start → fetch_step s (set_hash HEnd s)
| hash_lookup s start hashes :
    fe_hash s = HLookup start → start ≤ to →
    length hashes = Z.to_nat (Z.min (to - start + 1) HASH_BATCH) →
    gives_hashes start (Z.min (to - start + 1) HASH_BATCH) hashes →
    fetch_step s (set_hash (HSend (start + Z.min (to - start + 1) HASH_BATCH) (zip_heights start hashes)) s)
| hash_failed s start :
    fe_hash s = HLookup start → start ≤ to →
    fetch_step s (set_hash HEnd (put start (Err ("block hashes from " +:+ pretty start)) s))
| hash_halted s start job queue : fe_hash s = HSend start (job :: queue) → halted s = true → fetch_step s (set_hash HEnd s)
| hash_send s start job queue :
    fe_hash s = HSend start (job :: queue) → halted s = false → (length (fe_jobs s) < JOBS_CAP)%nat →
    fetch_step s (set_hash (HSend start queue) (set_jobs (fe_jobs s ++ [job]) s))
| hash_next s start : fe_hash s = HSend start [] → fetch_step s (set_hash (HLookup start) s)
(* worker *)
| worker_take s job jobs :
    fe_jobs s = job :: jobs → (length (fe_held s) < workers)%nat →
    fetch_step s (set_held (fe_held s ++ [job]) (set_jobs jobs s))
| worker_fetch s i h hash answer :
    fe_held s !! i = Some (h, hash) → h < fe_next s + window →
    (∀ raw, answer = Ok raw → gives_raw hash raw) →
    fetch_step s (put h (fetch_block h hash answer) (set_held (delete i (fe_held s)) s))
| worker_quit s i job :
    fe_held s !! i = Some job → halted s = true → fetch_step s (set_held (delete i (fe_held s)) s)
(* deliver *)
| deliver_halted s : fe_deliver s = DWait → halted s = true → fetch_step s (finish s)
| deliver_take s r :
    fe_deliver s = DWait → halted s = false → fe_ready s !! fe_next s = Some r →
    fetch_step s (set_deliver (DSend r) (set_ready (delete (fe_next s)) s))
| deliver_stop s r : fe_deliver s = DSend r → fe_stop s = true → fetch_step s (finish s)
| deliver_gone s r : fe_deliver s = DSend r → fetch_step s (finish s)
| deliver_send s r : fe_deliver s = DSend r → fe_stop s = false → fetch_step s (send_out r s)
| deliver_next s failed : fe_deliver s = DSent failed → fetch_step s (advance to failed s)
(* the consumer *)
| consumer_stops s : fetch_step s (set_stop s).

Definition fetched : Fetch → Prop := rtc fetch_step fetch_init.

(** ** What is delivered *)

(** The node gave [hash] for the height [h] of the range. *)
Definition looked_up (h : Z) (hash : bytes) : Prop :=
  ∃ start n hashes i, gives_hashes start n hashes ∧ length hashes = Z.to_nat n ∧ n ≤ HASH_BATCH ∧
    start + n ≤ to + 1 ∧ hashes !! i = Some hash ∧ h = start + Z.of_nat i.

(** What can be handed on at height [h]: the block in the bytes the node gave
    for the hash it gave for [h], or the error of getting it. *)
Definition item_at (h : Z) (r : Item) : Prop :=
  match r with
  | Ok b => ∃ hash raw, looked_up h hash ∧ gives_raw hash raw ∧ parse_and_extract h hash raw fmt = Ok b
  | Err e => (∃ hash, looked_up h hash ∧ e = block_context h hash) ∨ e = "block hashes from " +:+ pretty h
  | Panic => True
  end.

(** The jobs still queued by [hash_stage]. *)
Definition queue_of (s : Fetch) : list (Z * bytes) := match fe_hash s with HSend _ q => q | _ => [] end.

(** Blocks of the range from its start on, without gap, and at most one error, the last. *)
Record in_order (out : list Item) : Prop := {
  io_items i r : out !! i = Some r → from + Z.of_nat i ≤ to ∧ item_at (from + Z.of_nat i) r;
  io_error i r : out !! i = Some r → is_err r = true → i = (length out - 1)%nat;
}.

Definition no_errors (out : list Item) : Prop := Forall (λ r, is_err r = false) out.

Record fetch_inv (s : Fetch) : Prop := {
  fi_ready h r : fe_ready s !! h = Some r → item_at h r;
  fi_jobs h hash : (h, hash) ∈ queue_of s ++ fe_jobs s ++ fe_held s → looked_up h hash;
  fi_out : in_order (fe_out s);
  fi_next : fe_next s + (match fe_deliver s with DSent _ => 1 | _ => 0 end) = from + Z.of_nat (length (fe_out s));
  fi_deliver :
    match fe_deliver s with
    | DWait => fe_done s = false → fe_next s ≤ to ∧ no_errors (fe_out s)
    | DSend r => fe_next s ≤ to ∧ no_errors (fe_out s) ∧ item_at (fe_next s) r
    | DSent failed => failed = false → no_errors (fe_out s)
    | DEnd => True
    end;
}.

Lemma in_order_snoc out r :
  in_order out → no_errors out → from + Z.of_nat (length out) ≤ to → item_at (from + Z.of_nat (length out)) r →
  in_order (out ++ [r]).
Proof.
  intros [Hi _] Hok Hto Hr. split.
  - intros i x [[_ Hx]|[-> <-]]%lookup_snoc_Some; [by apply Hi|done].
  - intros i x [[_ Hx]|[-> <-]]%lookup_snoc_Some He; [|rewrite length_app; simpl; lia].
    pose proof (Forall_lookup_1 _ _ _ _ Hok Hx) as Hn. simpl in Hn. congruence.
Qed.

Lemma fetch_block_at h hash answer :
  looked_up h hash → (∀ raw, answer = Ok raw → gives_raw hash raw) → item_at h (fetch_block h hash answer).
Proof.
  intros Hl Ha. unfold fetch_block. destruct answer as [raw| |]; simpl; [|by left; exists hash|done].
  destruct (parse_and_extract h hash raw fmt) as [b| |] eqn:E; simpl; [|by left; exists hash|done].
  exists hash, raw. auto.
Qed.

Lemma zip_heights_looked_up start n hashes h hash :
  gives_hashes start n hashes → length hashes = Z.to_nat n → n ≤ HASH_BATCH → start + n ≤ to + 1 →
  (h, hash) ∈ zip_heights start hashes → looked_up h hash.
Proof.
  intros Hg Hl Hn Hto [i Hi]%list_elem_of_lookup. unfold zip_heights in Hi. rewrite list_lookup_imap in Hi.
  apply fmap_Some in Hi as (x & Hx & [= -> ->]). by exists start, n, hashes, i.
Qed.

Lemma elem_of_delete_sub {A} (l : list A) i x y : l !! i = Some y → x ∈ delete i l → x ∈ l.
Proof. intros Hi Hx. rewrite (delete_Permutation l i y Hi). by right. Qed.

Lemma put_inv s h r : fetch_inv s → item_at h r → fetch_inv (put h r s).
Proof.
  intros [Hr Hj Ho Hn Hd] Hit. split; cbn; [|done..].
  intros h' r' [[<- <-]|[_ Hx]]%lookup_insert_Some; [done|by apply Hr].
Qed.

(** A step of [hash_stage] or a worker, which leaves [deliver] where it was. *)
Lemma jobs_inv s s' :
  fetch_inv s → fe_ready s' = fe_ready s → fe_next s' = fe_next s → fe_done s' = fe_done s →
  fe_deliver s' = fe_deliver s → fe_out s' = fe_out s →
  (∀ h hash, (h, hash) ∈ queue_of s' ++ fe_jobs s' ++ fe_held s' → looked_up h hash) → fetch_inv s'.
Proof. intros [Hr Hj Ho Hn Hd] Er En Ed Edl Eo Hj'. split; rewrite ?Er, ?En, ?Ed, ?Edl, ?Eo; done. Qed.

Lemma fetch_init_inv : fetch_inv fetch_init.
Proof.
  split; cbn; [done|intros h hash Hin; by apply elem_of_nil in Hin|split; by intros|lia|].
  intros Hd%Z.ltb_ge. split; [done|constructor].
Qed.

Lemma fetch_step_inv s s' : fetch_inv s → fetch_step s s' → fetch_inv s'.
Proof.
  intros Hinv Hstep. pose proof Hinv as [Hr Hj Ho Hn Hd]. destruct Hstep as
    [s start Hs Hto|s start hashes Hs Hto Hl Hg|s start Hs Hto|s start job queue Hs Hh|s start job queue Hs Hh Hc|s start Hs
    |s job jobs Hjs Hw|s i h hash answer Hi Hw Ha|s i job Hi Hh|s Hde Hh|s r Hde Hh Hx|s r Hde Hs|s r Hde|s r Hde Hs|s failed Hde|s].
  - apply (jobs_inv s); try done. intros h hash Hin. apply Hj. apply elem_of_app. by right.
  - apply (jobs_inv s); try done. intros h hash [Hin|Hin]%elem_of_app; [|apply Hj, elem_of_app; by right].
    eapply zip_heights_looked_up; [exact Hg|done|..|exact Hin]; lia.
  - apply (jobs_inv (put start (Err ("block hashes from " +:+ pretty start)) s)); try done.
    + apply put_inv; [done|by right].
    + intros h hash Hin. apply Hj. apply elem_of_app. by right.
  - apply (jobs_inv s); try done. intros h hash Hin. apply Hj. apply elem_of_app. by right.
  - apply (jobs_inv s); try done. intros h hash Hin. apply Hj. unfold queue_of in *. rewrite Hs. cbn in Hin. set_solver.
  - apply (jobs_inv s); try done. intros h hash Hin. apply Hj. apply elem_of_app. by right.
  - apply (jobs_inv s); try done. intros h hash Hin. apply Hj. unfold queue_of in *. rewrite Hjs. cbn in Hin. set_solver.
  - apply (jobs_inv (put h (fetch_block h hash answer) s)); try done.
    + apply put_inv; [done|]. apply fetch_block_at; [|done]. apply Hj. rewrite !elem_of_app. right. right.
      by eapply list_elem_of_lookup_2.
    + intros h' hash' Hin. apply Hj. revert Hin. rewrite !elem_of_app. cbn.
      intros [?|[?|Hin]]; [by left|by right; left|right; right; by eapply elem_of_delete_sub].
  - apply (jobs_inv s); try done. intros h hash Hin. apply Hj. revert Hin. rewrite !elem_of_app. cbn.
    intros [?|[?|Hin]]; [by left|by right; left|right; right; by eapply elem_of_delete_sub].
  - split; cbn; try assumption; [|done]. by rewrite Hde in Hn.
  - rewrite Hde in *. unfold halted in Hh. apply orb_false_iff in Hh as [Hdone _].
    split; cbn; [|exact Hj|done|done|].
    + intros h' r' [_ Hx']%lookup_delete_Some. by apply Hr.
    + destruct (Hd Hdone) as [Hle Hne]. split_and!; [done..|]. by apply Hr.
  - rewrite Hde in *. by split.
  - rewrite Hde in *. by split.
  - rewrite Hde in *. destruct Hd as (Hle & Hne & Hat). rewrite Z.add_0_r in Hn. split; cbn.
    + done.
    + exact Hj.
    + rewrite Hn in Hat, Hle. by apply in_order_snoc.
    + rewrite length_app. simpl. lia.
    + intros He. apply Forall_app. by repeat constructor.
  - rewrite Hde in *. split; cbn; [done|exact Hj|done|lia|].
    intros [[_ ->]%orb_false_iff Hlt%Z.ltb_ge]%orb_false_iff. auto.
  - by split.
Qed.

Lemma fetched_inv s : fetched s → fetch_inv s.
Proof.
  apply (rtc_ind_r fetch_inv); [apply fetch_init_inv|]. intros s1 s2 _ Hstep Hinv. by eapply fetch_step_inv.
Qed.

(** ** The pipeline comes to an end *)

(** The steps of the threads alone: the consumer neither stops nor goes away. *)
Definition work_step (s s' : Fetch) : Prop := fetch_step s s' ∧ fe_stop s' = false ∧ (fe_deliver s' = DEnd → halted s = true).

(** What is left to do. *)
Definition hash_left (st : HashStage) : nat :=
  match st with
  | HLookup start => 9 * Z.to_nat (to - start + 1) + 2
  | HSend start queue => 9 * Z.to_nat (to - start + 1) + 3 + 7 * length queue
  | HEnd => 0
  end.
Definition deliver_left (d : Deliver) : nat := match d with DWait => 1 | DSend _ => 3 | DSent _ => 2 | DEnd => 0 end.
Definition work_left (s : Fetch) : nat :=
  hash_left (fe_hash s) + 6 * length (fe_jobs s) + 5 * length (fe_held s) + 4 * size (fe_ready s) + deliver_left (fe_deliver s).

Lemma size_insert_le (m : gmap Z Item) h r : (size (<[h := r]> m) ≤ S (size m))%nat.
Proof.
  destruct (m !! h) eqn:E; [rewrite map_size_insert_Some by eauto|rewrite map_size_insert_None by done]; lia.
Qed.

Lemma work_left_lt s s' : work_step s s' → (work_left s' < work_left s)%nat.
Proof.
  intros (Hstep & Hstop & Hend). destruct Hstep as
    [s start Hs Hto|s start hashes Hs Hto Hl Hg|s start Hs Hto|s start job queue Hs Hh|s start job queue Hs Hh Hc|s start Hs
    |s job jobs Hj Hw|s i h hash answer Hi Hw Ha|s i job Hi Hh|s Hde Hh|s r Hde Hh Hx|s r Hde Hs|s r Hde|s r Hde Hs|s failed Hde|s];
    unfold work_left; cbn in *; try (rewrite Hs; cbn [hash_left]); try (rewrite Hde; cbn [deliver_left]).
  - lia.
  - unfold zip_heights. rewrite length_imap, Hl. unfold HASH_BATCH. lia.
  - pose proof (size_insert_le (fe_ready s) start (Err ("block hashes from " +:+ pretty start))). lia.
  - lia.
  - rewrite length_app. simpl. lia.
  - simpl. lia.
  - rewrite Hj, length_app. simpl. lia.
  - pose proof (size_insert_le (fe_ready s) h (fetch_block h hash answer)). apply lookup_lt_Some in Hi as Hlt.
    rewrite length_delete by eauto. lia.
  - apply lookup_lt_Some in Hi as Hlt. rewrite length_delete by eauto. lia.
  - lia.
  - rewrite map_size_delete_Some by eauto. assert (size (fe_ready s) ≠ 0)%nat; [|lia].
    intros E%map_size_empty_inv. by rewrite E in Hx.
  - congruence.
  - lia.
  - lia.
  - lia.
  - done.
Qed.

(** Every height below [lim] has been looked up, every one below [lo] been
    taken by a worker; the lookup that failed left an error at [lim]. *)
Definition failed_at (s : Fetch) (lim : Z) : Prop :=
  (∃ r, fe_ready s !! lim = Some r ∧ is_err r = true) ∨
  (fe_next s = lim ∧ match fe_deliver s with DSend r => is_err r = true | DSent f => f = true | _ => False end).

Record line (s : Fetch) (lo lim : Z) : Prop := {
  li_hash : match fe_hash s with HLookup st | HSend st _ => lim = st | HEnd => to < lim ∨ failed_at s lim end;
  li_le : lo ≤ lim;
  li_queue : map fst (fe_jobs s ++ queue_of s) = seqZ lo (lim - lo);
  li_held h hash : (h, hash) ∈ fe_held s → h < lo;
  li_held_len : (length (fe_held s) ≤ workers)%nat;
  li_ready h r : fe_ready s !! h = Some r → h < lo ∨ (h = lim ∧ is_err r = true ∧ fe_hash s = HEnd);
  li_covered h : fe_next s < h < lo → is_Some (fe_ready s !! h) ∨ ∃ hash, (h, hash) ∈ fe_held s;
  li_deliver :
    match fe_deliver s with
    | DWait => fe_next s ≤ lo ∧ (fe_next s < lo → is_Some (fe_ready s !! fe_next s) ∨ ∃ hash, (fe_next s, hash) ∈ fe_held s)
    | DSend r => fe_next s < lo ∨ is_err r = true
    | DSent f => fe_next s < lo ∨ f = true
    | DEnd => False
    end;
}.

Definition lined (s : Fetch) : Prop := halted s = false → ∃ lo lim, line s lo lim.

Lemma seqZ_snoc_app lo lim n : lo ≤ lim → 0 ≤ n → seqZ lo (lim + n - lo) = seqZ lo (lim - lo) ++ seqZ lim n.
Proof. intros Hl Hn. replace (lim + n - lo) with ((lim - lo) + n) by lia. rewrite seqZ_app by lia. do 2 f_equal. lia. Qed.

Lemma zip_heights_fst start hashes : map fst (zip_heights start hashes) = seqZ start (Z.of_nat (length hashes)).
Proof.
  apply list_eq. intros i. rewrite list_lookup_fmap. unfold zip_heights. rewrite list_lookup_imap.
  destruct (hashes !! i) as [x|] eqn:E; cbn.
  - symmetry. apply lookup_seqZ. apply lookup_lt_Some in E. lia.
  - symmetry. apply lookup_seqZ_ge. apply lookup_ge_None in E. lia.
Qed.

Lemma lined_init : lined fetch_init.
Proof.
  intros _. exists from, from. split; cbn; try done; try lia.
  - rewrite Z.sub_diag. done.
  - intros h hash ?%elem_of_nil. done.
Qed.

Lemma elem_of_delete_ne {A} (l : list A) i x y : l !! i = Some x → y ∈ l → y ≠ x → y ∈ delete i l.
Proof.
  intros Hi Hy Hne. rewrite (delete_Permutation l i x Hi) in Hy. by apply elem_of_cons in Hy as [|].
Qed.
Lemma is_Some_insert (m : gmap Z Item) h r k : is_Some (m !! k) → is_Some (<[h := r]> m !! k).
Proof. rewrite lookup_insert_is_Some. destruct (decide (h = k)); auto. Qed.

(** The lookups. *)
Lemma line_lookup s start hashes lo lim :
  line s lo lim → fe_hash s = HLookup start → start ≤ to →
  length hashes = Z.to_nat (Z.min (to - start + 1) HASH_BATCH) →
  let n := Z.min (to - start + 1) HASH_BATCH in
  line (set_hash (HSend (start + n) (zip_heights start hashes)) s) lo (start + n).
Proof.
  intros [H1' H2' H3' H4' H4l H5' H6' H7'] Hs Hto Hl n. rewrite Hs in H1', H5'. subst lim.
  assert (0 ≤ n) by (unfold n, HASH_BATCH; lia). split; cbn; try done; [lia| |].
  - unfold queue_of in *. rewrite Hs in H3'. cbn [fe_hash set_hash]. rewrite app_nil_r in H3'.
    rewrite map_app, H3', zip_heights_fst, Hl, Z2Nat.id by done. by rewrite seqZ_snoc_app.
  - intros h r [?|(_ & _ & ?)]%H5'; [by left|done].
Qed.

Lemma line_failed s start e lo lim :
  line s lo lim → fe_hash s = HLookup start → line (set_hash HEnd (put start (Err e) s)) lo lim.
Proof.
  intros [H1' H2' H3' H4' H4l H5' H6' H7'] Hs. rewrite Hs in H1', H5'. subst lim. split; cbn; try done.
  - right. left. exists (Err e). cbn. by rewrite lookup_insert_eq.
  - unfold queue_of in *. by rewrite Hs in H3'.
  - intros h r [[<- <-]|[_ Hr]]%lookup_insert_Some; [by right|]. apply H5' in Hr as [?|(_ & _ & ?)]; [by left|done].
  - intros h Hh. destruct (H6' h Hh); [left; by apply is_Some_insert|by right].
  - destruct (fe_deliver s); try done. destruct H7' as [? Hc]. split; [done|]. intros Hlt.
    destruct (Hc Hlt); [left; by apply is_Some_insert|by right].
Qed.

(** The workers. *)
Lemma line_take s job jobs lo lim :
  line s lo lim → fe_jobs s = job :: jobs → (length (fe_held s) < workers)%nat →
  line (set_held (fe_held s ++ [job]) (set_jobs jobs s)) (lo + 1) lim.
Proof.
  intros [H1' H2' H3' H4' H4l H5' H6' H7'] Hj Hw. rewrite Hj in H3'.
  destruct (decide (0 < lim - lo)); [|rewrite seqZ_nil in H3' by lia; done].
  rewrite seqZ_cons in H3' by lia. cbn [app map] in H3'. injection H3' as Hlo Hrest.
  assert (Hat : ∀ h, h = lo → ∃ hash, (h, hash) ∈ fe_held s ++ [job]).
  { intros h ->. exists (snd job). apply elem_of_app. right. rewrite <-Hlo. destruct job. by left. }
  split; cbn; try done; try lia.
  - unfold queue_of in *. cbn. rewrite Hrest. f_equal; lia.
  - intros h hash [?%H4'|E%list_elem_of_singleton]%elem_of_app; [lia|]. subst job. simpl in *. lia.
  - rewrite length_app. simpl. lia.
  - intros h r [?|?]%H5'; [left; lia|by right].
  - intros h Hh. destruct (decide (h = lo)) as [->|]; [right; by apply Hat|].
    destruct (H6' h) as [?|[hash ?]]; [lia|by left|right; exists hash; apply elem_of_app; by left].
  - destruct (fe_deliver s); try done; [|destruct H7'; [left; lia|by right]..]. destruct H7' as [? Hc]. split; [lia|].
    intros _. destruct (decide (fe_next s = lo)) as [E|]; [right; by apply Hat|].
    destruct Hc as [?|[hash ?]]; [lia|by left|right; exists hash; apply elem_of_app; by left].
Qed.

Lemma line_fetch s i h hash r lo lim :
  line s lo lim → fe_held s !! i = Some (h, hash) → line (put h r (set_held (delete i (fe_held s)) s)) lo lim.
Proof.
  intros [H1' H2' H3' H4' H4l H5' H6' H7'] Hi.
  assert (Hh : h < lo) by (eapply H4', list_elem_of_lookup_2; exact Hi).
  assert (Hkeep : ∀ k, is_Some (fe_ready s !! k) ∨ (∃ hash, (k, hash) ∈ fe_held s) →
    is_Some (<[h := r]> (fe_ready s) !! k) ∨ ∃ hash, (k, hash) ∈ delete i (fe_held s)).
  { intros k [?|[hash' Hk]]; [left; by apply is_Some_insert|]. destruct (decide (k = h)) as [->|]; [left; rewrite lookup_insert_eq; eauto|].
    right. exists hash'. eapply elem_of_delete_ne; [exact Hi|done|]. congruence. }
  split; cbn; try done.
  - destruct (fe_hash s); try done. destruct H1' as [?|[(r' & Hr & He)|?]]; [by left|right; left|by right; right].
    exists r'. cbn. rewrite lookup_insert_ne by lia. done.
  - intros k hash' Hk. eapply H4', elem_of_delete_sub; done.
  - rewrite length_delete by eauto. lia.
  - intros k r' [[<- <-]|[_ Hr]]%lookup_insert_Some; [by left|by apply H5'].
  - intros k Hk. by apply Hkeep, H6'.
  - destruct (fe_deliver s); try done. destruct H7' as [? Hc]. split; [done|]. intros Hlt. by apply Hkeep, Hc.
Qed.

(** [deliver]. *)
Lemma line_deliver_take s r lo lim :
  line s lo lim → fe_deliver s = DWait → fe_ready s !! fe_next s = Some r →
  line (set_deliver (DSend r) (set_ready (delete (fe_next s)) s)) lo lim.
Proof.
  intros [H1' H2' H3' H4' H4l H5' H6' H7'] Hd Hr. rewrite Hd in H7'. split; cbn; try done.
  - destruct (fe_hash s); try done. destruct H1' as [?|[(r' & Hr' & He)|[? Hf]]]; [by left|right|by rewrite Hd in Hf].
    destruct (decide (lim = fe_next s)) as [->|Hne]; [right; cbn; simplify_eq; done|left]. exists r'. cbn.
    by rewrite lookup_delete_ne.
  - intros h r' [_ Hr']%lookup_delete_Some. by apply H5'.
  - intros h Hh. rewrite lookup_delete_ne by lia. by apply H6'.
  - destruct (H5' _ _ Hr) as [?|(? & ? & ?)]; [by left|by right].
Qed.

Lemma line_deliver_send s r lo lim :
  line s lo lim → fe_deliver s = DSend r → line (send_out r s) lo lim.
Proof.
  intros [H1' H2' H3' H4' H4l H5' H6' H7'] Hd. rewrite Hd in H7'. split; cbn; try done.
  destruct (fe_hash s); try done. destruct H1' as [?|[?|[? Hf]]]; [by left|by right; left|right; right].
  rewrite Hd in Hf. done.
Qed.

Lemma line_deliver_next s lo lim :
  line s lo lim → fe_deliver s = DSent false → line (advance to false s) lo lim.
Proof.
  intros [H1' H2' H3' H4' H4l H5' H6' H7'] Hd. rewrite Hd in H7'. destruct H7' as [Hlt|?]; [|done]. split; cbn; try done.
  - destruct (fe_hash s); try done. destruct H1' as [?|[?|[? Hf]]]; [by left|by right; left|]. by rewrite Hd in Hf.
  - intros h Hh. apply H6'. lia.
  - split; [lia|]. intros Hn. apply H6'. lia.
Qed.

Lemma lined_step s s' : lined s → fetch_step s s' → lined s'.
Proof.
  intros Hl Hstep. destruct Hstep as
    [s start Hs Hto|s start hashes Hs Hto Hlen Hg|s start Hs Hto|s start job queue Hs Hh|s start job queue Hs Hh Hc|s start Hs
    |s job jobs Hj Hw|s i h hash answer Hi Hw Ha|s i job Hi Hh|s Hde Hh|s r Hde Hh Hx|s r Hde Hs|s r Hde|s r Hde Hs|s failed Hde|s];
    intros Hh'; try (by unfold halted in *; cbn in *; try rewrite orb_true_r in *; congruence);
    try (destruct (Hl Hh') as (lo & lim & HK)).
  - exists lo, lim. destruct HK as [H1' H2' H3' H4' H4l H5' H6' H7']. rewrite Hs in H1', H5'. unfold queue_of in *. rewrite Hs in H3'.
    split; cbn; try done; [left; lia|]. intros h r [?|(_ & _ & ?)]%H5'; [by left|done].
  - exists lo. eexists. by eapply line_lookup.
  - exists lo, lim. by eapply line_failed.
  - exists lo, lim. destruct HK as [H1' H2' H3' H4' H4l H5' H6' H7']. rewrite Hs in H1', H5'. unfold queue_of in *. rewrite Hs in H3'.
    split; cbn; try done; [by rewrite <-app_assoc|]. intros h r [?|(_ & _ & ?)]%H5'; [by left|done].
  - exists lo, lim. destruct HK as [H1' H2' H3' H4' H4l H5' H6' H7']. rewrite Hs in H1', H5'. unfold queue_of in *. rewrite Hs in H3'.
    split; cbn; try done. intros h r [?|(_ & _ & ?)]%H5'; [by left|done].
  - exists (lo + 1), lim. by eapply line_take.
  - exists lo, lim. by eapply line_fetch.
  - exists lo, lim. by apply line_deliver_take.
  - exists lo, lim. by apply line_deliver_send.
  - unfold halted in Hh'. cbn in Hh'. apply orb_false_iff in Hh' as [[[Hd ->]%orb_false_iff _]%orb_false_iff Hst].
    destruct Hl as (lo & lim & HK); [unfold halted; by rewrite Hd, Hst|]. exists lo, lim. by apply line_deliver_next.
Qed.

(** Some thread can always go on, until [deliver] has ended. *)
Lemma pipeline_progress s :
  (0 < workers)%nat → fetch_inv s → lined s → fe_stop s = false → fe_deliver s ≠ DEnd → ∃ s', work_step s s'.
Proof.
  intros Hw Hinv Hl Hstop Hend. unfold work_step.
  destruct (fe_deliver s) as [|r|failed|] eqn:Hd; [| | |done].
  2:{ exists (send_out r s). split_and!; [by apply deliver_send|done|done]. }
  2:{ exists (advance to failed s). split_and!; [by apply deliver_next|done|done]. }
  destruct (halted s) eqn:Hh.
  { exists (finish s). split_and!; [by apply deliver_halted|done|done]. }
  destruct (Hl Hh) as (lo & lim & [H1' H2' H3' H4' H4l H5' H6' H7']). rewrite Hd in H7'. destruct H7' as [Hn Hc].
  destruct (fe_ready s !! fe_next s) as [r|] eqn:Hr.
  { eexists. split_and!; [by eapply deliver_take|done|done]. }
  assert (Hwin : ∀ h hash, (h, hash) ∈ fe_held s → h ≤ fe_next s → ∃ s', fetch_step s s' ∧ fe_stop s' = false ∧ (fe_deliver s' = DEnd → false = true)).
  { intros h hash [i Hi]%list_elem_of_lookup Hle. eexists. split_and!; [eapply (worker_fetch s i h hash (Err EmptyString)); try done; unfold window; lia|done|].
    cbn. by rewrite Hd. }
  destruct (decide (fe_next s < lo)) as [Hlt|Hge].
  { destruct (Hc Hlt) as [[? ?]|[hash ?]]; [done|]. by apply (Hwin (fe_next s) hash). }
  assert (Hjobs : fe_jobs s ≠ [] → ∃ s', fetch_step s s' ∧ fe_stop s' = false ∧ (fe_deliver s' = DEnd → false = true)).
  { intros Hj. destruct (decide (length (fe_held s) < workers)%nat) as [Hfree|Hbusy].
    - destruct (fe_jobs s) as [|job jobs] eqn:E; [done|]. eexists. split_and!; [by eapply worker_take|done|]. cbn. by rewrite Hd.
    - destruct (fe_held s) as [|[h hash] held] eqn:E; [simpl in *; lia|]. apply (Hwin h hash); [by left|].
      specialize (H4' h hash ltac:(by left)). lia. }
  destruct (fe_hash s) as [start|start [|job queue]|] eqn:Hs.
  - destruct (decide (start ≤ to)).
    + eexists. split_and!; [by apply (hash_failed s start)|done|]. cbn. by rewrite Hd.
    + eexists. split_and!; [eapply hash_end; [done|lia]|done|]. cbn. by rewrite Hd.
  - eexists. split_and!; [by eapply hash_next|done|]. cbn. by rewrite Hd.
  - destruct (decide (length (fe_jobs s) < JOBS_CAP)%nat) as [Hfree|Hfull].
    + eexists. split_and!; [by eapply hash_send|done|]. cbn. by rewrite Hd.
    + apply Hjobs. intros E. rewrite E in Hfull. apply Hfull. unfold JOBS_CAP, HASH_BATCH. simpl. lia.
  - apply Hjobs. intros E. unfold queue_of in H3'. rewrite E, Hs in H3'. cbn in H3'.
    destruct (decide (0 < lim - lo)); [by rewrite seqZ_cons in H3' by lia|].
    assert (fe_next s = lim) by lia. destruct H1' as [Hto|[(r & Hx & _)|[_ Hf]]]; [|congruence|by rewrite Hd in Hf].
    pose proof (fi_deliver _ Hinv) as Hopen. rewrite Hd in Hopen. unfold halted in Hh. apply orb_false_iff in Hh as [Hdone _].
    destruct (Hopen Hdone). lia.
Qed.

(** The whole range, or what comes before an error and the error. *)
Definition complete (out : list Item) : Prop :=
  to < from + Z.of_nat (length out) ∨ ∃ r, last out = Some r ∧ is_err r = true.

Record ending (s : Fetch) : Prop := {
  en_stop : fe_stop s = false;
  en_done : fe_done s = true → complete (fe_out s);
  en_deliver : match fe_deliver s with
               | DEnd => fe_done s = true
               | DSend _ => fe_done s = false
               | DSent failed => fe_done s = false ∧ (failed = true → ∃ r, last (fe_out s) = Some r ∧ is_err r = true)
               | DWait => True
               end;
}.

Lemma ending_init : ending fetch_init.
Proof. split; cbn; [done|intros ?%Z.ltb_lt; left; simpl; lia|done]. Qed.

Lemma ending_step s s' : fetch_inv s → ending s → work_step s s' → ending s'.
Proof.
  intros Hinv [He1 He2 He3] (Hstep & Hstop & Hgone). destruct Hstep as
    [s start Hs Hto|s start hashes Hs Hto Hlen Hg|s start Hs Hto|s start job queue Hs Hh|s start job queue Hs Hh Hc|s start Hs
    |s job jobs Hj Hw|s i h hash answer Hi Hw Ha|s i job Hi Hh|s Hde Hh|s r Hde Hh Hx|s r Hde Hs|s r Hde|s r Hde Hs|s failed Hde|s];
    try (by split); rewrite ?Hde in *.
  - unfold halted in Hh. rewrite He1, orb_false_r in Hh. split; cbn; auto.
  - unfold halted in Hh. apply orb_false_iff in Hh as [Hd _]. split; cbn; auto.
  - cbn in Hgone. unfold halted in Hgone. specialize (Hgone eq_refl). rewrite He1, He3 in Hgone. done.
  - cbn in Hgone. unfold halted in Hgone. specialize (Hgone eq_refl). rewrite He1, He3 in Hgone. done.
  - split; cbn; [done|by rewrite He3|]. split; [done|]. intros Hf. exists r. by rewrite last_snoc.
  - destruct He3 as [Hd Hf]. split; cbn; [done| |done]. rewrite Hd. cbn. intros [->|Hlt%Z.ltb_lt]%orb_true_iff; [right; by apply Hf|].
    left. pose proof (fi_next _ Hinv) as Hn. rewrite Hde in Hn. lia.
Qed.

Lemma work_reach s : rtc work_step fetch_init s → fetch_inv s ∧ lined s ∧ ending s.
Proof.
  apply (rtc_ind_r (λ s, fetch_inv s ∧ lined s ∧ ending s)); [split_and!; [apply fetch_init_inv|apply lined_init|apply ending_init]|].
  intros s1 s2 _ Hw (Hi & Hl & He). pose proof Hw as (Hs & _). split_and!; [by eapply fetch_step_inv|by eapply lined_step|by eapply ending_step].
Qed.

Lemma work_steps_bounded n s s' : nsteps work_step n s s' → (n + work_left s' ≤ work_left s)%nat.
Proof. induction 1 as [|n s1 s2 s3 Hs _ IH]; [lia|]. apply work_left_lt in Hs. lia. Qed.

End fetch.
