(* ===== verification/IndexSync.v ===== *)
(** The syncer ([fortis-index/src/sync.rs]), the start of the process
    ([main.rs], the guard of [db.rs]) and the pairing of a table with a
    snapshot ([chainstate.rs]).

    The database is what was flushed and the batches written since, each with
    how it was written: without the log, to the log and synced, or to the log
    only.  The syncer's own fields ([bulk_dirty], [follow]) are part of the
    world, and what it does to them goes with the step beside it.  The other
    threads of the process write rendered transactions, and RocksDB flushes a
    prefix of the batches when it likes. *)

From S2P Require Import Prelude Json Threads Bitcoin IndexKeys Index IndexSpec IndexChain IndexApply IndexRead IndexTable IndexFetch.

Inductive Durability : Type := Bulk | Durable | Logged.

#[export] Instance Durability_eq_dec : EqDecision Durability.
Proof. solve_decision. Defined.

Abbreviation Batch := (Durability * list Write)%type.

Record IndexWorld : Type := {
  iw_flushed : Kv;
  iw_pending : list Batch;
  iw_table : BlockTable;          (* published *)
  iw_dirty : bool;
  iw_follow : bool;
  iw_node_tip : Z;
  iw_asked : nat;
}.

Definition replay (kv : Kv) (l : list Batch) : Kv := foldl (λ kv x, commit kv (snd x)) kv l.
Definition iw_db (w : IndexWorld) : Kv := replay (iw_flushed w) (iw_pending w).

(** *** Steps *)
Definition write_db (d : Durability) (wb : list Write) (w : IndexWorld) : IndexWorld := {|
  iw_flushed := iw_flushed w; iw_pending := iw_pending w ++ [(d, wb)]; iw_table := iw_table w;
  iw_dirty := iw_dirty w || bool_decide (d = Bulk); iw_follow := iw_follow w; iw_node_tip := iw_node_tip w; iw_asked := iw_asked w |}.
Definition flush (w : IndexWorld) : IndexWorld := {|
  iw_flushed := iw_db w; iw_pending := []; iw_table := iw_table w; iw_dirty := false; iw_follow := iw_follow w;
  iw_node_tip := iw_node_tip w; iw_asked := iw_asked w |}.
Definition set_table (t : BlockTable) (w : IndexWorld) : IndexWorld := {|
  iw_flushed := iw_flushed w; iw_pending := iw_pending w; iw_table := t; iw_dirty := iw_dirty w; iw_follow := iw_follow w;
  iw_node_tip := iw_node_tip w; iw_asked := iw_asked w |}.
Definition set_follow (w : IndexWorld) : IndexWorld := {|
  iw_flushed := iw_flushed w; iw_pending := iw_pending w; iw_table := iw_table w; iw_dirty := iw_dirty w; iw_follow := true;
  iw_node_tip := iw_node_tip w; iw_asked := iw_asked w |}.
Definition set_node_tip (h : Z) (w : IndexWorld) : IndexWorld := {|
  iw_flushed := iw_flushed w; iw_pending := iw_pending w; iw_table := iw_table w; iw_dirty := iw_dirty w; iw_follow := iw_follow w;
  iw_node_tip := h; iw_asked := iw_asked w |}.
Definition tick (w : IndexWorld) : IndexWorld := {|
  iw_flushed := iw_flushed w; iw_pending := iw_pending w; iw_table := iw_table w; iw_dirty := iw_dirty w; iw_follow := iw_follow w;
  iw_node_tip := iw_node_tip w; iw_asked := S (iw_asked w) |}.

(** *** Programs *)
Definition Job (A : Type) : Type := Prog IndexWorld (result DbErr A).
#[export] Instance Job_ret : MRet Job := λ A a, Done (Ok a).
#[export] Instance Job_bind : MBind Job := λ A B f m,
  prog_bind m (λ r, match r with Ok a => f a | Err e => Done (Err e) | Panic => Done Panic end).

Definition act {A} (f : IndexWorld → result DbErr A * IndexWorld) : Job A := atomically f.
Definition job_lift {A} (r : result DbErr A) : Job A := Done r.
Definition fail_with {A} (e : string) : Job A := Done (Err (Other e)).

(** A question to the node or a look at the stop flag: the answer depends on
    how many came before. *)
Definition ask_node {A} (f : nat → A) : Job A := act (λ w, (Ok (f (iw_asked w)), tick w)).

(** What is read of the database and written back at once. *)
Definition update_db {A} (d : Durability) (f : Kv → result DbErr (list Write * A)) : Job A :=
  act (λ w, match f (iw_db w) with
            | Ok (wb, a) => (Ok a, write_db d wb w)
            | Err e => (Err e, w)
            | Panic => (Panic, w)
            end).

Definition flush_dirty : Job unit := act (λ w, (Ok tt, if iw_dirty w then flush w else w)).
Definition publish (t : BlockTable) : Job unit := act (λ w, (Ok tt, set_table t w)).

(** *** The node *)
Class Node : Type := {
  node_tip : nat → result string Z;
  node_hashes : nat → Z → Z → result string (list bytes);
  node_stream : nat → Z → Z → list Item;
  stop_flag : nat → bool;
}.

Record SyncConfig : Type := { start_height : Z; stop_height : option Z }.

Definition BULK_BATCH : nat := 64.

Section sync.
Context `{BitcoinLib, HashOrder, Node}.
Context (cfg : SyncConfig).

(** [self.src.hashes(h, 1)?[0]] *)
Definition hash_at (h : Z) : Job bytes :=
  r ← ask_node (λ n, node_hashes n h 1);
  match r with
  | Ok (x :: _) => mret x
  | Ok [] => Done Panic
  | Err e => fail_with e
  | Panic => Done Panic
  end.

(** Each round takes one block off the table, so the table's length bounds them. *)
Fixpoint unwind_loop (rounds : nat) (tip : Z) (t : BlockTable) : Job BlockTable :=
  match rounds, bt_tip t with
  | S rounds, Some (h, rec) =>
      same ← (if h <=? tip then x ← hash_at h; mret (bool_decide (x = br_hash rec)) else mret false);
      if (same : bool) then mret t
      else
        _ ← flush_dirty;
        let new_tip := p ← checked_sub h 1; (λ r, (p, br_hash r)) <$> bt_get t p in
        _ ← update_db Durable (λ kv, wb ← rollback_batch kv h rec new_tip; mret (wb, tt));
        let t := fst (bt_pop t) in
        _ ← publish t;
        unwind_loop rounds tip t
  | _, _ => mret t
  end.

Definition unwind (tip : Z) (t : BlockTable) : Job BlockTable :=
  _ ← match bt_tip t, bt_get t tip with
      | Some (h, _), Some ours =>
          if tip <? h then
            x ← hash_at tip;
            if bool_decide (x = br_hash ours) then
              fail_with ("node tip " +:+ pretty tip +:+ " is behind the index tip " +:+ pretty h +:+ " on the same chain; waiting")
            else mret tt
          else mret tt
      | _, _ => mret tt
      end;
  unwind_loop (length (bt_recs t)) tip t.

Fixpoint push_all (t : BlockTable) (l : list (ParsedBlock * BlockRec)) : result DbErr BlockTable :=
  match l with
  | [] => Ok t
  | (b, r) :: l => t ← bt_push t (b_height b) r; push_all t l
  end.

Definition apply (t : BlockTable) (blocks : list ParsedBlock) (durable : bool) : Job BlockTable :=
  match blocks with
  | [] => mret t
  | _ =>
      _ ← (if durable then flush_dirty else mret tt);
      recs ← update_db (if durable then Durable else Bulk) (λ kv, apply_batch kv blocks (next_txnum t) durable);
      t ← job_lift (push_all t (zip blocks recs));
      _ ← publish t;
      mret t
  end.

Definition enter_follow : Job unit :=
  act (λ w, (Ok tt, if iw_follow w then w else flush (set_follow w))).

Definition prune_undo (below : Z) : Job unit := update_db Durable (λ kv, Ok (prune_batch below, tt)).

(** The blocks of one pass; at the end, and when it stops early, what is left
    of the bulk batch is applied. *)
Fixpoint sync_loop (durable_from : Z) (items : list Item) (t : BlockTable) (bulk : list ParsedBlock) (applied : Z) : Job Z :=
  let finish := (_ ← apply t bulk false; mret (applied + Z.of_nat (length bulk))) in
  match items with
  | [] => finish
  | item :: items =>
      stop ← ask_node stop_flag;
      if (stop : bool) then finish
      else
        match item with
        | Err e => fail_with e
        | Panic => Done Panic
        | Ok b =>
            let prev := match last bulk with
                        | Some p => Some (b_hash p)
                        | None => (λ x, br_hash (snd x)) <$> bt_tip t
                        end in
            if match prev with Some p => negb (bool_decide (p = b_prev b)) | None => false end then finish
            else if b_height b <? durable_from then
              let bulk := bulk ++ [b] in
              if Nat.eqb (length bulk) BULK_BATCH then
                t ← apply t bulk false;
                sync_loop durable_from items t [] (applied + Z.of_nat (length bulk))
              else sync_loop durable_from items t bulk applied
            else
              t ← apply t bulk false;
              _ ← enter_follow;
              t ← apply t [b] true;
              _ ← prune_undo (saturating_sub (b_height b) MAX_REORG_DEPTH);
              sync_loop durable_from items t [] (applied + Z.of_nat (length bulk) + 1)
        end
  end.

Definition step : Job Z :=
  tip ← ask_node node_tip;
  tip ← match tip with Ok tip => mret tip | Err _ => fail_with "node tip" | Panic => Done Panic end;
  _ ← act (λ w, (Ok tt, set_node_tip tip w));
  t ← act (λ w, (Ok (iw_table w), w));
  t ← unwind tip t;
  let from := match bt_tip t with None => start_height cfg | Some (h, _) => wrapping_add u32_max h 1 end in
  let to := match stop_height cfg with None => tip | Some s => Z.min s tip end in
  let durable_from := saturating_sub tip MAX_REORG_DEPTH in
  if to <? from then
    _ ← (if durable_from <=? from then enter_follow else mret tt);
    mret 0
  else
    items ← ask_node (λ n, node_stream n from to);
    sync_loop durable_from items t [] 0.

(** One round of [run]: what becomes of a pass. *)
Inductive Outcome : Type := Again | Reached | Retry | Stopped (e : DbErr).

Definition is_fatal (e : DbErr) : bool := match e with NoUndo _ => true | Other _ => false end.

Definition reached_stop_height (t : BlockTable) : bool :=
  match stop_height cfg, bt_tip t with Some s, Some (h, _) => s <=? h | _, _ => false end.

Definition run_pass : Job Outcome :=
  prog_bind step (λ r,
    match r with
    | Ok _ =>
        t ← act (λ w, (Ok (iw_table w), w));
        if reached_stop_height t then _ ← flush_dirty; mret Reached else mret Again
    | Err e => Done (Ok (if is_fatal e then Stopped e else Retry))
    | Panic => Done Panic
    end).

(** *** Starting *)
Inductive OpenErr : Type := ChainMismatch | Schema.

Definition guard (kv : Kv) (id : string) (may_init : bool) : result OpenErr (list Write) :=
  match kv !! (CfMeta, META_SCHEMA), kv !! (CfMeta, META_CHAIN) with
  | None, None =>
      if may_init then Ok [Put CfMeta META_SCHEMA (be_bytes 4 SCHEMA_VERSION); Put CfMeta META_CHAIN (String.list_byte_of_string id)]
      else Err Schema
  | schema, chain =>
      _ ← bail_if (negb (bool_decide (schema = Some (be_bytes 4 SCHEMA_VERSION)))) Schema;
      _ ← bail_if (negb (bool_decide (default [] chain = String.list_byte_of_string id))) ChainMismatch;
      mret []
  end.

Definition load_table (kv : Kv) : result string BlockTable :=
  rows ← load_blocks kv;
  t ← from_db rows;
  tip ← db_tip kv;
  _ ← bail_if (negb (bool_decide (tip = (λ x, (fst x, br_hash (snd x))) <$> bt_tip t)))
        "index is inconsistent: meta.tip does not match the blocks table";
  mret t.

(** *** Reading: [view] *)
Definition VIEW_TRIES : nat := Z.to_nat 1000.

Fixpoint view_loop (tries : nat) : Prog IndexWorld (result string (BlockTable * Kv)) :=
  match tries with
  | O => Done (Err "index is between states (writer has not published); try again")
  | S tries =>
      Step (λ w, w) (λ w1, Step (λ w, w) (λ w2,
        match db_tip (iw_db w2) with
        | Ok tip =>
            if bool_decide (tip = (λ x, (fst x, br_hash (snd x))) <$> bt_tip (iw_table w1)) then Done (Ok (iw_table w1, iw_db w2))
            else view_loop tries
        | Err e => Done (Err e)
        | Panic => Done Panic
        end))
  end.
Definition view : Prog IndexWorld (result string (BlockTable * Kv)) := view_loop VIEW_TRIES.

End sync.
