(* ===== verification/IndexRuns.v ===== *)
(** Every run of the index: whatever the node answers, whenever RocksDB
    flushes, whatever other threads render, and wherever the process dies, the
    database represents a chain of blocks the node served. *)

From S2P Require Import Prelude Json Threads Bitcoin IndexKeys Index IndexSpec IndexChain IndexApply IndexRead IndexTable IndexFetch IndexSync.

(** ** Databases up to rendered transactions *)
Definition same_rows (kv kv' : Kv) : Prop := ∀ cf k, cf ≠ CfRender → kv !! (cf, k) = kv' !! (cf, k).

#[export] Instance same_rows_equiv : Equivalence same_rows.
Proof.
  split; [by intros kv cf k|intros a b Hab cf k ?; symmetry; by apply Hab|].
  intros a b c Hab Hbc cf k ?. by rewrite Hab, Hbc.
Qed.

#[export] Instance write1_proper : Proper (same_rows ==> eq ==> same_rows) write1.
Proof.
  intros kv kv' Hkv w ? <- cf k Hcf. pose proof (Hkv cf k Hcf) as Hk. destruct w as [c k' v|c k'|c lo hi]; cbn [write1].
  - by rewrite !lookup_insert, Hk.
  - by rewrite !lookup_delete, Hk.
  - rewrite !map_lookup_filter, Hk. done.
Qed.

#[export] Instance commit_proper : Proper (same_rows ==> eq ==> same_rows) commit.
Proof.
  intros kv kv' Hkv wb ? <-. revert kv kv' Hkv. induction wb as [|w wb IH]; intros kv kv' Hkv; [done|].
  rewrite !commit_cons. apply IH. by rewrite Hkv.
Qed.

#[export] Instance replay_proper : Proper (same_rows ==> eq ==> same_rows) replay.
Proof.
  intros kv kv' Hkv l ? <-. revert kv kv' Hkv. induction l as [|x l IH]; intros kv kv' Hkv; [done|].
  cbn. apply IH. by rewrite Hkv.
Qed.

Lemma replay_app kv a b : replay kv (a ++ b) = replay (replay kv a) b.
Proof. apply foldl_app. Qed.
Lemma replay_snoc kv a x : replay kv (a ++ [x]) = commit (replay kv a) (snd x).
Proof. by rewrite replay_app. Qed.

(** Batches of other threads. *)
Definition render_only (wb : list Write) : Prop := Forall (λ w, write_cf w = CfRender) wb.

Lemma render_only_same kv wb : render_only wb → same_rows (commit kv wb) kv.
Proof.
  intros Hwb cf k Hcf. apply commit_other. eapply Forall_impl; [exact Hwb|]. intros w ->. congruence.
Qed.

Section represents.
Context `{BitcoinLib, HashOrder}.

#[export] Instance represents_proper : Proper (same_rows ==> eq ==> iff) represents.
Proof.
  assert (Himp : ∀ kv kv' c, same_rows kv kv' → represents kv c → represents kv' c).
  { intros kv kv' c Hkv [Hst Htip]. split; [|by rewrite <-Hkv].
    apply (stored_same kv); [done| |].
    - intros cf k Hcf. symmetry. apply Hkv. by destruct cf.
    - intros k v. by rewrite Hkv. }
  intros kv kv' Hkv c ? <-. split; apply Himp; [done|by symmetry].
Qed.
End represents.

(** ** What survives a crash *)
Inductive survives : list Batch → list Batch → Prop :=
| sv_nil : survives [] []
| sv_bulk wb l l' : survives l l' → survives ((Bulk, wb) :: l) l'
| sv_lost wb l l' : survives l l' → survives ((Logged, wb) :: l) l'
| sv_kept d wb l l' : d ≠ Bulk → survives l l' → survives ((d, wb) :: l) ((d, wb) :: l').

Definition batch_typed (x : Batch) : Prop := fst x = Logged → render_only (snd x).

Lemma survives_app_inv a b l : survives (a ++ b) l → ∃ la lb, l = la ++ lb ∧ survives a la ∧ survives b lb.
Proof.
  revert l. induction a as [|x a IH]; intros l Hl; [by exists [], l; repeat constructor|]. cbn in Hl. inversion Hl; subst.
  - destruct (IH _ ltac:(done)) as (la & lb & -> & Ha & Hb). exists la, lb. split_and!; [done|by constructor|done].
  - destruct (IH _ ltac:(done)) as (la & lb & -> & Ha & Hb). exists la, lb. split_and!; [done|by constructor|done].
  - destruct (IH _ ltac:(done)) as (la & lb & -> & Ha & Hb). exists ((d, wb) :: la), lb. split_and!; [done|by constructor|done].
Qed.

(** Without bulk batches nothing of the chain's rows is lost; without durable
    ones nothing of them is kept. *)
Lemma survives_all kv a la :
  Forall (λ x, fst x ≠ Bulk) a → Forall batch_typed a → survives a la → same_rows (replay kv la) (replay kv a).
Proof.
  intros Hb Ht Hs. revert kv Hb Ht. induction Hs as [|wb l l' Hs IH|wb l l' Hs IH|d wb l l' Hd Hs IH]; intros kv Hb Ht;
    inversion Hb as [|?? Hb1 Hb2]; inversion Ht as [|?? Ht1 Ht2]; subst; try done.
  - cbn [replay foldl snd]. rewrite IH by done. rewrite render_only_same; [done|]. by apply Ht1.
  - by apply IH.
Qed.

Lemma survives_none kv b lb :
  Forall (λ x, fst x ≠ Durable) b → Forall batch_typed b → survives b lb → same_rows (replay kv lb) kv.
Proof.
  intros Hb Ht Hs. revert kv Hb Ht. induction Hs as [|wb l l' Hs IH|wb l l' Hs IH|d wb l l' Hd Hs IH]; intros kv Hb Ht;
    inversion Hb as [|?? Hb1 Hb2]; inversion Ht as [|?? Ht1 Ht2]; subst; try done; [by apply IH|by apply IH|].
  cbn [replay foldl snd]. change (foldl _ ?m ?l) with (replay m l). rewrite IH by done. apply render_only_same.
  apply Ht1. by destruct d.
Qed.

(** ** The node's blocks *)
Definition served `{Node} (b : ParsedBlock) : Prop := ∃ n from to i, node_stream n from to !! i = Some (Ok b).

(** What is assumed of it: the stream is one of [IndexFetch] (its heights
    follow each other), blocks are typed ([IndexParse]), a hash names one
    block, no transaction of a chain funds an outpoint that is still unspent
    (BIP 30), and a chain has fewer than 2^32 blocks and 2^40 transactions. *)
Class NodeLaws `{BitcoinLib, HashOrder, Node} : Prop := {
  nl_order n from to i b : node_stream n from to !! i = Some (Ok b) → b_height b = from + Z.of_nat i;
  nl_typed b : served b → block_ok b ∧ b_height b < u32_max;
  nl_hash b b' : served b → served b' → b_hash b = b_hash b' → b = b';
  nl_fresh c b : Forall served (c ++ [b]) → linked (c ++ [b]) → fresh_in (utxo_set (numbered c)) (b_txs b);
  nl_fits c : Forall served c → linked c → next_of c ≤ MAX_TXNUM;
}.

Section runs.
Context `{NodeLaws}.
Context (cfg : SyncConfig).
Context (since : nat).

Record good (c : list ParsedBlock) : Prop := {
  gd_served : Forall served c;
  gd_linked : linked c;
  gd_start b : head c = Some b → b_height b = start_height cfg;
}.

Lemma good_ok c : good c → chain_ok c.
Proof. intros [Hs Hl _]. split; [|done]. eapply Forall_impl; [exact Hs|]. intros b Hb. by apply nl_typed. Qed.
Lemma good_fits c : good c → next_of c ≤ MAX_TXNUM.
Proof. intros [Hs Hl _]. by apply nl_fits. Qed.
Lemma good_prefix a b : good (a ++ b) → good a.
Proof.
  intros [[Hs _]%Forall_app Hl Hst]. split; [done|by eapply linked_prefix|]. intros x Hx. apply Hst. by destruct a.
Qed.
Lemma good_nil : good [].
Proof. split; [constructor|by intros i ??|done]. Qed.

(** The blocks two chains end in decide them. *)
Lemma good_same_tip c c' : good c → good c' → tip_pair c = tip_pair c' → c = c'.
Proof.
  revert c'. induction c as [|b c IH] using rev_ind; intros c' Hc Hc' Htip.
  { destruct c' as [|b' c'] using rev_ind; [done|]. unfold tip_pair in Htip. by rewrite last_snoc in Htip. }
  destruct c' as [|b' c' _] using rev_ind; [unfold tip_pair in Htip; by rewrite last_snoc in Htip|].
  unfold tip_pair in Htip. rewrite !last_snoc in Htip. injection Htip as _ Hhash.
  assert (b = b') as <-.
  { apply nl_hash; [| |done]; [pose proof (gd_served _ Hc) as Hs|pose proof (gd_served _ Hc') as Hs];
      apply Forall_app in Hs as [_ Hs]; by inversion Hs. }
  f_equal. apply IH; [by eapply good_prefix..|]. unfold tip_pair.
  assert (Hlen : length c = length c').
  { destruct (head_is_Some (c ++ [b])) as [_ [x Hx]]; [by destruct c|]. destruct (head_is_Some (c' ++ [b])) as [_ [y Hy]]; [by destruct c'|].
    rewrite head_lookup in Hx, Hy.
    pose proof (linked_heights _ 0 (length c) x b (gd_linked _ Hc) Hx ltac:(by apply list_lookup_middle)).
    pose proof (linked_heights _ 0 (length c') y b (gd_linked _ Hc') Hy ltac:(by apply list_lookup_middle)).
    rewrite <-head_lookup in Hx, Hy. pose proof (gd_start _ Hc _ Hx). pose proof (gd_start _ Hc' _ Hy). lia. }
  destruct c as [|p c _] using rev_ind; [by destruct c'|]. destruct c' as [|p' c' _] using rev_ind; [by rewrite length_app in Hlen; simpl in Hlen; lia|].
  rewrite !length_app in Hlen. simpl in Hlen. rewrite !last_snoc.
  destruct (gd_linked _ Hc (length c) p b) as [Hh Hp];
    [rewrite <-app_assoc; by apply list_lookup_middle|apply list_lookup_middle; rewrite length_app; simpl; lia|].
  destruct (gd_linked _ Hc' (length c') p' b) as [Hh' Hp'];
    [rewrite <-app_assoc; by apply list_lookup_middle|apply list_lookup_middle; rewrite length_app; simpl; lia|].
  cbn. do 2 f_equal; [lia|congruence].
Qed.

(** ** The world's invariant, after [since] questions *)
Record db_inv (w : IndexWorld) : Prop := {
  di_prefix n : ∃ c, good c ∧ represents (replay (iw_flushed w) (take n (iw_pending w))) c;
  di_typed : Forall batch_typed (iw_pending w);
  di_shape : ∃ a b, iw_pending w = a ++ b ∧ Forall (λ x, fst x ≠ Bulk) a ∧ Forall (λ x, fst x ≠ Durable) b;
  di_dirty : iw_dirty w = false → Forall (λ x, fst x ≠ Bulk) (iw_pending w);
  di_asked : (since ≤ iw_asked w)%nat;
}.

Definition table_ok (w : IndexWorld) : Prop := ∃ c, good c ∧ table_for (iw_table w) c.
Definition world_ok (w : IndexWorld) : Prop := db_inv w ∧ table_ok w.

(** The database holds the chain; its table may be published or not. *)
Record holds (w : IndexWorld) (c : list ParsedBlock) : Prop := {
  hd_inv : db_inv w;
  hd_rep : represents (iw_db w) c;
  hd_good : good c;
  hd_table : table_ok w;
}.
Definition settled (w : IndexWorld) (c : list ParsedBlock) : Prop := holds w c ∧ table_for (iw_table w) c.

(** The rest of the process, and RocksDB. *)
Inductive env_step : IndexWorld → IndexWorld → Prop :=
| env_render w wb : render_only wb → env_step w (write_db Logged wb w)
| env_flush w n : env_step w {|
    iw_flushed := replay (iw_flushed w) (take n (iw_pending w)); iw_pending := drop n (iw_pending w); iw_table := iw_table w;
    iw_dirty := iw_dirty w; iw_follow := iw_follow w; iw_node_tip := iw_node_tip w; iw_asked := iw_asked w |}
| env_ask w : env_step w (tick w).

Record env_same (w w' : IndexWorld) : Prop := {
  es_inv : db_inv w → db_inv w';
  es_rows : same_rows (iw_db w') (iw_db w);
  es_table : iw_table w' = iw_table w;
  es_dirty : iw_dirty w' = iw_dirty w;
  es_follow : iw_follow w' = iw_follow w;
}.

Lemma iw_db_write d wb w : iw_db (write_db d wb w) = commit (iw_db w) wb.
Proof. unfold iw_db. cbn. by rewrite replay_snoc. Qed.

(** One more batch. *)
Lemma db_inv_write w d wb c :
  db_inv w → represents (commit (iw_db w) wb) c → good c → (d = Durable → iw_dirty w = false) →
  (d = Logged → render_only wb) → db_inv (write_db d wb w).
Proof.
  intros [Hp Ht Hs Hd Ha] Hrep Hc Hdur Hlog. split; cbn [iw_flushed iw_pending iw_dirty iw_asked write_db]; [| | | |done].
  - intros n. destruct (decide (n ≤ length (iw_pending w))%nat).
    + rewrite take_app_le by done. apply Hp.
    + rewrite take_ge by (rewrite length_app; simpl; lia). exists c. split; [done|]. by rewrite replay_snoc.
  - apply Forall_app. by repeat constructor.
  - destruct Hs as (a & b & Hab & Ha' & Hb). destruct (decide (d = Durable)) as [->|Hnd].
    + exists (iw_pending w ++ [(Durable, wb)]), []. rewrite app_nil_r. split_and!; [done| |constructor].
      apply Forall_app. repeat constructor; [|done]. by apply Hd, Hdur.
    + exists a, (b ++ [(d, wb)]). rewrite app_assoc, <-Hab. split_and!; [done..|]. apply Forall_app. by repeat constructor.
  - intros [Hw Hnb%bool_decide_eq_false]%orb_false_iff. apply Forall_app. repeat constructor; [|done]. by apply Hd.
Qed.

Lemma db_inv_flush w : db_inv w → db_inv (flush w).
Proof.
  intros Hi. split; cbn [iw_flushed iw_pending iw_dirty iw_asked flush]; [|constructor|by exists [], []|constructor|apply Hi].
  intros n. rewrite take_nil. cbn. destruct (di_prefix _ Hi (length (iw_pending w))) as (c & Hc & Hr). exists c.
  by rewrite firstn_all in Hr.
Qed.

Lemma env_step_same w w' : env_step w w' → env_same w w'.
Proof.
  destruct 1 as [w wb Hwb|w n|w].
  - assert (Hsame : same_rows (iw_db (write_db Logged wb w)) (iw_db w)) by (rewrite iw_db_write; by apply render_only_same).
    split; [|done|done|cbn; by rewrite orb_false_r|done]. intros Hi.
    destruct (di_prefix _ Hi (length (iw_pending w))) as (c & Hc & Hr). rewrite firstn_all in Hr.
    apply (db_inv_write w Logged wb c); try done. rewrite render_only_same by done. exact Hr.
  - assert (Hdb : replay (replay (iw_flushed w) (take n (iw_pending w))) (drop n (iw_pending w)) = iw_db w)
      by (by rewrite <-replay_app, take_drop).
    split; [|intros cf k _; by rewrite <-Hdb|done|done|done]. intros [Hp Ht (a & b & Hab & Ha & Hb) Hd Hq].
    split; cbn [iw_flushed iw_pending iw_dirty iw_asked]; [| | | |done].
    + intros m. rewrite <-replay_app. destruct (Hp (n + m)%nat) as (c & Hc & Hr). exists c. split; [done|].
      by rewrite take_take_drop.
    + by apply Forall_drop.
    + exists (drop n a), (drop (n - length a) b). rewrite Hab, drop_app. split_and!; [done|by apply Forall_drop..].
    + intros ?. apply Forall_drop. by apply Hd.
  - split; try done. intros [Hp Ht Hs Hd Ha]. split; try done. cbn. lia.
Qed.

Lemma env_same_trans : transitive _ env_same.
Proof.
  intros a b c [A1 A2 A3 A4 A5] [B1 B2 B3 B4 B5]. split; [auto|by rewrite B2|congruence..].
Qed.
Lemma env_steps_same w w' : rtc env_step w w' → env_same w w'.
Proof. induction 1 as [w|w1 w2 w3 Hs _ IH]; [by split|]. eapply env_same_trans; [by apply env_step_same|done]. Qed.

Lemma holds_env w w' c : env_same w w' → holds w c → holds w' c.
Proof. intros [Hi Hr Ht _ _] [H1' H2' H3' H4']. split; [auto|by rewrite Hr|done|]. unfold table_ok. by rewrite Ht. Qed.
Lemma settled_env w w' c : env_same w w' → settled w c → settled w' c.
Proof. intros He [Hh Ht]. split; [by eapply holds_env|]. by rewrite (es_table _ _ He). Qed.

Lemma holds_write w d wb c c' :
  holds w c → represents (commit (iw_db w) wb) c' → good c' → (d = Durable → iw_dirty w = false) → d ≠ Logged →
  holds (write_db d wb w) c'.
Proof.
  intros [Hi _ _ Ht] Hr Hg Hd Hl. split; [by eapply db_inv_write|by rewrite iw_db_write|done|done].
Qed.
Lemma holds_flush w c : holds w c → holds (flush w) c.
Proof. intros [Hi Hr Hg Ht]. split; [by apply db_inv_flush|done|done|done]. Qed.

(** ** Specifications of the syncer's programs *)
Definition moves : relation IndexWorld := λ _ w', world_ok w'.

(** The program ends with [Q]; unless [total], it may also fail, and then
    leaves a settled world, or panic. *)
Definition job_post {A} (total : bool) (Q : A → IndexWorld → Prop) (r : result DbErr A) (w : IndexWorld) : Prop :=
  match r with Ok a => Q a w | Err _ => total = false ∧ ∃ c, settled w c | Panic => total = false end.
Definition job_spec {A} (total : bool) (m : Job A) (w : IndexWorld) (Q : A → IndexWorld → Prop) : Prop :=
  rg (rtc env_step) moves m w (job_post total Q).

Lemma job_ret tot {A} (a : A) w (Q : A → IndexWorld → Prop) : Q a w → job_spec tot (mret a) w Q.
Proof. done. Qed.

Lemma job_bind tot {A B} (m : Job A) (f : A → Job B) w (Q : B → IndexWorld → Prop) :
  job_spec tot m w (λ a w', job_spec tot (f a) w' Q) → job_spec tot (m ≫= f) w Q.
Proof.
  intros Hm. apply rg_bind. eapply rg_mono; [|exact Hm]. intros r w' Hr. by destruct r.
Qed.

Lemma job_mono tot {A} (m : Job A) w (Q Q' : A → IndexWorld → Prop) :
  (∀ a w', Q a w' → Q' a w') → job_spec tot m w Q → job_spec tot m w Q'.
Proof. intros HQ. apply rg_mono. intros [a| |] w'; cbn; auto. Qed.

Lemma job_act tot {A} (f : IndexWorld → result DbErr A * IndexWorld) w (Q : A → IndexWorld → Prop) :
  (∀ w1, env_same w w1 → world_ok (snd (f w1)) ∧
    job_post tot Q (fst (f w1)) (snd (f w1))) →
  job_spec tot (act f) w Q.
Proof. intros Hf. apply rg_atomically. intros w1 Hw. by apply Hf, env_steps_same. Qed.

Lemma job_fail {A} e w c (Q : A → IndexWorld → Prop) : settled w c → job_spec false (fail_with e) w Q.
Proof. intros Hs. split; [done|]. by exists c. Qed.

Lemma holds_ok w c : holds w c → world_ok w.
Proof. intros [Hi _ _ Ht]. by split. Qed.

Lemma holds_tick w c : holds w c → holds (tick w) c.
Proof. intros [[Hp Ht Hs Hd Ha] Hr Hg Hb]. split; [split; try done; cbn; lia|done..]. Qed.
Lemma settled_tick w c : settled w c → settled (tick w) c.
Proof. intros [Hh Ht]. split; [by apply holds_tick|done]. Qed.

Lemma job_ask tot {A} (f : nat → A) w c (Q : A → IndexWorld → Prop) :
  settled w c →
  (∀ w1, env_same w w1 → settled (tick w1) c → (since ≤ iw_asked w1)%nat → Q (f (iw_asked w1)) (tick w1)) →
  job_spec tot (ask_node f) w Q.
Proof.
  intros Hs HQ. apply job_act. intros w1 Hw. pose proof (settled_env _ _ _ Hw Hs) as Hs1. pose proof (settled_tick _ _ Hs1) as Ht. cbn.
  split; [eapply holds_ok, Ht|apply HQ; [done|done|apply Hs1]].
Qed.

Lemma settled_flush w c : settled w c → settled (flush w) c.
Proof. intros [Hh Ht]. split; [by apply holds_flush|done]. Qed.

Lemma flush_dirty_spec tot w c (Q : unit → IndexWorld → Prop) :
  settled w c → (∀ w', settled w' c → iw_dirty w' = false → same_rows (iw_db w') (iw_db w) → Q tt w') →
  job_spec tot flush_dirty w Q.
Proof.
  intros Hs HQ. apply job_act. intros w1 Hw. pose proof (settled_env _ _ _ Hw Hs) as Hs1. cbn.
  destruct (iw_dirty w1) eqn:E; (split; [eapply holds_ok|]).
  - by apply settled_flush.
  - apply HQ; [by apply settled_flush|done|apply Hw].
  - apply Hs1.
  - apply HQ; [done|done|apply Hw].
Qed.

Lemma publish_spec tot t w c (Q : unit → IndexWorld → Prop) :
  holds w c → table_for t c →
  (∀ w', settled w' c → iw_dirty w' = iw_dirty w → same_rows (iw_db w') (iw_db w) → Q tt w') → job_spec tot (publish t) w Q.
Proof.
  intros Hh Ht HQ. apply job_act. intros w1 Hw. pose proof (holds_env _ _ _ Hw Hh) as [Hi Hr Hg _]. cbn.
  assert (Hs : settled (set_table t w1) c).
  { split; [|done]. split; [destruct Hi; by split|done|done|by exists c]. }
  split; [eapply holds_ok, Hs|]. apply HQ; [done|by rewrite <-(es_dirty _ _ Hw)|apply Hw].
Qed.

(** ** Rolling back *)
Lemma new_tip_of t c b :
  table_for t (c ++ [b]) → good (c ++ [b]) →
  (p ← checked_sub (b_height b) 1; (λ r, (p, br_hash r)) <$> bt_get t p) = tip_pair c.
Proof.
  intros Ht Hg. pose proof (good_ok _ Hg) as Hok. unfold tip_pair.
  destruct c as [|b0 c _] using rev_ind.
  - cbn [last]. pose proof (tf_start _ _ Ht b eq_refl) as Hst. destruct (checked_sub (b_height b) 1) as [p|] eqn:E; [|done].
    apply checked_sub_Some in E as [-> Hp]. cbn. unfold bt_get. rewrite (proj2 (checked_sub_None _ _)) by lia. done.
  - rewrite last_snoc.
    assert (Hb0 : ((c ++ [b0]) ++ [b]) !! length c = Some b0) by (rewrite <-app_assoc; by apply list_lookup_middle).
    destruct (gd_linked _ Hg (length c) b0 b Hb0) as [Hh _]; [apply list_lookup_middle; rewrite length_app; simpl; lia|].
    pose proof (ko_height _ (Forall_lookup_1 _ _ _ _ (co_blocks _ Hok) Hb0)).
    unfold checked_sub at 1. rewrite (proj2 (Z.leb_le _ _)) by lia. cbn.
    replace (b_height b - 1) with (b_height b0) by lia. by rewrite (table_get _ _ _ _ Ht Hok Hb0).
Qed.

(** Blocks from height [D] on can be undone. *)
Definition kept (w : IndexWorld) (D : Z) (l : list ParsedBlock) : Prop :=
  ∀ b, b ∈ l → D ≤ b_height b → is_Some (iw_db w !! (CfUndo, height_key (b_height b))).

Lemma kept_same w w' D l : same_rows (iw_db w') (iw_db w) → kept w D l → kept w' D l.
Proof. intros Hsame Hl b Hb HD. rewrite Hsame by done. by apply Hl. Qed.

Lemma rollback_spec tot t w c b (Q : unit → IndexWorld → Prop) :
  settled w (c ++ [b]) → iw_dirty w = false → table_for t (c ++ [b]) →
  (tot = true → is_Some (iw_db w !! (CfUndo, height_key (b_height b)))) →
  (∀ w', holds w' c → (∀ D, kept w D c → kept w' D c) → Q tt w') →
  job_spec tot (update_db Durable (λ kv,
    wb ← rollback_batch kv (b_height b) (rec_of (c ++ [b]) (length c) b)
           (p ← checked_sub (b_height b) 1; (λ r, (p, br_hash r)) <$> bt_get t p);
    mret (wb, tt))) w Q.
Proof.
  intros Hs Hd Ht Htot HQ. pose proof (hd_good _ _ (proj1 Hs)) as Hg. rewrite (new_tip_of t c b) by done. apply job_act. intros w1 Hw.
  pose proof (settled_env _ _ _ Hw Hs) as [Hh Htab].
  destruct (iw_db w1 !! (CfUndo, height_key (b_height b))) as [raw|] eqn:Hraw.
  - destruct (rollback_represents (iw_db w1) c b raw) as (wb & Hwb & Hrep & _ & Hundo);
      [apply Hh|by apply good_ok|by apply good_fits|done|].
    rewrite Hwb. rcbn. cbn.
    assert (Hh' : holds (write_db Durable wb w1) c).
    { eapply holds_write; [done|done|by eapply good_prefix| |done]. intros _. by rewrite (es_dirty _ _ Hw). }
    split; [by eapply holds_ok|]. apply HQ; [done|]. intros D HD x Hx Hxh. rewrite iw_db_write, Hundo, decide_False.
    + rewrite (es_rows _ _ Hw) by done. by apply HD.
    + intros E. apply list_elem_of_lookup in Hx as [i Hi]. assert (i = length c) as ->; [|by apply lookup_lt_Some in Hi; lia].
      eapply block_keys_distinct; [by apply good_ok, Hg|by apply lookup_app_l_Some| |exact E]. by apply list_lookup_middle.
  - assert (Hno : rollback_batch (iw_db w1) (b_height b) (rec_of (c ++ [b]) (length c) b) (tip_pair c) = Err (NoUndo (b_height b)))
      by (unfold rollback_batch; by rewrite Hraw).
    rewrite Hno. rcbn. cbn. split; [by eapply holds_ok|]. split; [|by exists (c ++ [b])].
    destruct tot; [|done]. destruct (Htot eq_refl) as [? Hx]. rewrite <-(es_rows _ _ Hw) in Hx by done. congruence.
Qed.

Lemma hash_at_spec tot h w c (Q : bytes → IndexWorld → Prop) :
  settled w c → (tot = true → ∀ n, (since ≤ n)%nat → ∃ x, node_hashes n h 1 = Ok [x]) →
  (∀ n x l w', (since ≤ n)%nat → node_hashes n h 1 = Ok (x :: l) → settled w' c → same_rows (iw_db w') (iw_db w) → Q x w') →
  job_spec tot (hash_at h) w Q.
Proof.
  intros Hs Htot HQ. apply job_bind. apply (job_ask _ _ _ c); [done|]. intros w1 Hw1 Hs1 Hq.
  destruct (node_hashes (iw_asked w1) h 1) as [[|x l]| |] eqn:E.
  - destruct tot; [|done]. destruct (Htot eq_refl _ Hq). congruence.
  - eapply HQ; [done|done|done|apply Hw1].
  - destruct tot; [destruct (Htot eq_refl _ Hq); congruence|]. by eapply job_fail.
  - destruct tot; [|done]. destruct (Htot eq_refl _ Hq). congruence.
Qed.

Lemma unwind_loop_spec rounds tip t w c (Q : BlockTable → IndexWorld → Prop) :
  settled w c → table_for t c → (∀ t' w' c', settled w' c' → table_for t' c' → Q t' w') →
  job_spec false (unwind_loop rounds tip t) w Q.
Proof.
  intros Hs Ht HQ. revert t w c Hs Ht. induction rounds as [|rounds IH]; intros t w c Hs Ht; [by eapply HQ|].
  pose proof (hd_good _ _ (proj1 Hs)) as Hg. cbn [unwind_loop].
  destruct c as [|b c _] using rev_ind; [rewrite table_tip_nil by done; by eapply HQ|].
  rewrite (table_tip _ _ _ Ht) by by apply good_ok.
  apply job_bind. eapply (job_mono _ _ _ (λ _ w', settled w' (c ++ [b]))).
  2:{ destruct (b_height b <=? tip); [|done]. apply job_bind. by apply (hash_at_spec _ _ _ (c ++ [b])). }
  intros [] w1 Hs1; [by eapply HQ|]. apply job_bind. apply (flush_dirty_spec _ _ (c ++ [b])); [done|]. intros w2 Hs2 Hd2 _.
  apply job_bind. apply rollback_spec; [done..|]. intros w3 Hh3 _. apply job_bind.
  assert (Ht' : table_for (fst (bt_pop t)) c) by (eapply table_pop; [done|by apply good_ok]).
  apply (publish_spec _ _ _ c); [done..|]. intros w4 Hs4 _ _. by apply (IH _ _ c).
Qed.

Lemma unwind_spec tip t w c (Q : BlockTable → IndexWorld → Prop) :
  settled w c → table_for t c → (∀ t' w' c', settled w' c' → table_for t' c' → Q t' w') → job_spec false (unwind tip t) w Q.
Proof.
  intros Hs Ht HQ. apply job_bind. eapply (job_mono _ _ _ (λ _ w', settled w' c)).
  - intros [] w1 Hs1. by apply (unwind_loop_spec _ _ _ _ c).
  - destruct (bt_tip t) as [[h r]|]; [|done]. destruct (bt_get t tip) as [ours|]; [|done]. destruct (tip <? h); [|done].
    apply job_bind. apply (hash_at_spec _ _ _ c); [done|done|]. intros _ x _ w1 _ _ Hs1 _. case_bool_decide; [by eapply job_fail|done].
Qed.

(** ** Applying *)
Lemma push_all_spec t c bs :
  table_for t c → chain_ok (c ++ bs) →
  ∃ t', push_all t (zip bs (drop (length c) (recs_of (c ++ bs)))) = Ok t' ∧ table_for t' (c ++ bs).
Proof.
  revert t c. induction bs as [|b bs IH]; intros t c Ht Hok; [exists t; by rewrite app_nil_r in *|].
  replace (c ++ b :: bs) with ((c ++ [b]) ++ bs) in * by by rewrite <-app_assoc.
  destruct (table_push (E:=DbErr) t c b Ht) as (t1 & Hp & Ht1); [by eapply chain_ok_prefix|].
  destruct (IH t1 (c ++ [b]) Ht1 Hok) as (t' & Hall & Ht'). exists t'. split; [|done].
  assert (Hlt : recs_of ((c ++ [b]) ++ bs) !! length c = Some (rec_of (c ++ [b]) (length c) b)).
  { rewrite recs_of_lookup, lookup_app_l by (rewrite length_app; simpl; lia). rewrite list_lookup_middle by done. cbn.
    by rewrite rec_of_app by (rewrite length_app; simpl; lia). }
  rewrite (drop_S _ _ _ Hlt). cbn [zip zip_with push_all]. rewrite Hp. rcbn.
  rewrite length_app in Hall. simpl in Hall. by rewrite Nat.add_1_r in Hall.
Qed.

Lemma apply_spec tot t w c bs (durable : bool) (Q : BlockTable → IndexWorld → Prop) :
  settled w c → table_for t c → good (c ++ bs) → (durable = true → ∃ b, bs = [b]) →
  (∀ t' w', settled w' (c ++ bs) → table_for t' (c ++ bs) → (durable = true → iw_dirty w' = false) →
    (∀ D, kept w D c → durable = true ∨ Forall (λ b, b_height b < D) bs → kept w' D (c ++ bs)) → Q t' w') →
  job_spec tot (apply t bs durable) w Q.
Proof.
  intros Hs Ht Hg Hone HQ. unfold apply. destruct bs as [|b0 bs0] eqn:Ebs.
  { apply HQ; rewrite ?app_nil_r; [done..| |done]. intros Hd. destruct (Hone Hd) as [? [=]]. }
  rewrite <-Ebs in *. clear Ebs. apply job_bind.
  apply (job_mono _ _ _ (λ _ w', settled w' c ∧ (durable = true → iw_dirty w' = false) ∧ same_rows (iw_db w') (iw_db w))).
  2:{ destruct durable; [by apply (flush_dirty_spec _ _ c)|by apply job_ret]. }
  intros [] w1 (Hs1 & Hd1 & Hsame1). apply job_bind. apply job_act. intros w2 Hw2.
  pose proof (settled_env _ _ _ Hw2 Hs1) as [Hh2 Htab2]. pose proof (hd_good _ _ Hh2) as Hgc.
  rewrite (table_next t c Ht) by (try apply good_ok; try done; pose proof (good_fits _ Hgc); lia).
  destruct (apply_batch_total (iw_db w2) c durable bs) as (wb & recs & Hbatch); [apply Hh2|by apply good_ok|by apply good_fits|].
  rewrite Hbatch. cbn [fst snd].
  destruct (apply_batch_represents (iw_db w2) c durable bs wb recs) as [Hrep ->]; [apply Hh2|by apply good_ok| |done|].
  { intros Hd. destruct (Hone Hd) as [b ->]. cbn. split_and!; [by apply nl_fresh; apply Hg|set_solver|done]. }
  assert (Hh3 : holds (write_db (if durable then Durable else Bulk) wb w2) (c ++ bs)).
  { eapply holds_write; [done|done|done| |by destruct durable]. destruct durable; [|done]. intros _. rewrite (es_dirty _ _ Hw2). auto. }
  split; [by eapply holds_ok|]. destruct (push_all_spec t c bs Ht) as (t' & Hpush & Ht'); [by apply good_ok|].
  cbn [job_post]. rewrite Hpush. apply (job_bind _ (job_lift (Ok t'))). apply job_bind. apply (publish_spec _ _ _ (c ++ bs)); [done..|].
  intros w4 Hs4 Hd4 Hsame4. apply HQ; [done|done| |].
  - intros ->. rewrite Hd4. cbn. rewrite (es_dirty _ _ Hw2), Hd1 by done. done.
  - intros D HD Hbs. eapply kept_same; [exact Hsame4|]. intros b [Hb|Hb]%elem_of_app Hh; rewrite iw_db_write; eapply apply_batch_undo; try done.
    + left. rewrite (es_rows _ _ Hw2), Hsame1 by done. by apply HD.
    + right. destruct Hbs as [Hk|Hall]; [split; [done|by apply (list_elem_of_fmap_2 (λ b, height_key (b_height b)))]|].
      rewrite Forall_forall in Hall. specialize (Hall b Hb). simpl in Hall. lia.
Qed.

Lemma prune_same (kv : Kv) below c : represents kv c → represents (commit kv (prune_batch below)) c.
Proof.
  intros [Hst Htip]. unfold prune_batch. rewrite commit_cons. change (commit ?m []) with m. split.
  - apply (stored_same kv); [done| |].
    + intros cf k Hcf. apply write1_other. by destruct cf.
    + intros k v. cbn [write1]. by intros [? _]%map_lookup_filter_Some.
  - by rewrite write1_other.
Qed.

Lemma prune_keeps (kv : Kv) below h :
  0 ≤ below ≤ u32_max → 0 ≤ h ≤ u32_max → below ≤ h →
  commit kv (prune_batch below) !! (CfUndo, height_key h) = kv !! (CfUndo, height_key h).
Proof.
  intros Hb Hh Hle. unfold prune_batch. rewrite commit_cons. change (commit ?m []) with m. cbn [write1].
  rewrite map_lookup_filter. destruct (kv !! (CfUndo, height_key h)) as [v|]; [|done]. cbn. rewrite option_guard_True; [done|].
  intros (_ & _ & Hlt). cbn [snd] in Hlt. unfold height_key in Hlt. rewrite bytes_ltb_be in Hlt by width_lia. apply Z.ltb_lt in Hlt. lia.
Qed.

Lemma prune_spec tot below w c (Q : unit → IndexWorld → Prop) :
  settled w c → iw_dirty w = false → 0 ≤ below ≤ u32_max →
  (∀ w', settled w' c → (∀ D l, Forall block_ok l → below ≤ D → kept w D l → kept w' D l) → Q tt w') →
  job_spec tot (prune_undo below) w Q.
Proof.
  intros Hs Hd Hbelow HQ. apply job_act. intros w1 Hw. pose proof (settled_env _ _ _ Hw Hs) as [Hh Ht]. cbn.
  assert (Hh' : holds (write_db Durable (prune_batch below) w1) c).
  { eapply holds_write; [done|apply prune_same, Hh|apply Hh| |done]. intros _. by rewrite (es_dirty _ _ Hw). }
  split; [by eapply holds_ok|]. apply HQ; [done|]. intros D l Hl HD Hk b Hb Hh0. rewrite iw_db_write, prune_keeps; [|done| |lia].
  - rewrite (es_rows _ _ Hw) by done. by apply Hk.
  - rewrite Forall_forall in Hl. by apply Hl.
Qed.

Lemma enter_follow_spec tot w c (Q : unit → IndexWorld → Prop) :
  settled w c → (∀ w', settled w' c → same_rows (iw_db w') (iw_db w) → Q tt w') → job_spec tot enter_follow w Q.
Proof.
  intros Hs HQ. apply job_act. intros w1 Hw. pose proof (settled_env _ _ _ Hw Hs) as Hs1. cbn.
  destruct (iw_follow w1); [split; [eapply holds_ok, Hs1|apply HQ; [done|apply Hw]]|].
  assert (Hf : settled (flush (set_follow w1)) c).
  { apply settled_flush. destruct Hs1 as [[[Hp Ht' Hsh Hd Hq] Hr Hg Hb] Ht]. split; [|done]. split; [by split|done..]. }
  split; [eapply holds_ok, Hf|]. apply HQ; [done|apply Hw].
Qed.

(** ** A pass *)
Definition next_height (c : list ParsedBlock) : Z :=
  match last c with None => start_height cfg | Some b => b_height b + 1 end.

Definition items_from (h : Z) (items : list Item) : Prop :=
  ∀ i b, items !! i = Some (Ok b) → served b ∧ b_height b = h + Z.of_nat i.

Lemma good_snoc c b :
  good c → served b → b_height b = next_height c → (∀ p, last c = Some p → b_hash p = b_prev b) → good (c ++ [b]).
Proof.
  intros [Hs Hl Hst] Hb Hh Hp. split.
  - apply Forall_app. by repeat constructor.
  - intros i x y Hx Hy. apply lookup_snoc_Some in Hy as [[Hlt Hy]|[Hi <-]].
    + apply (Hl i); [|done]. rewrite lookup_app_l in Hx by lia. done.
    + rewrite lookup_app_l in Hx by lia. assert (Hlast : last c = Some x) by (rewrite last_lookup, <-Hi; done).
      unfold next_height in Hh. rewrite Hlast in Hh. split; [done|]. symmetry. by apply Hp.
  - intros x Hx. destruct c as [|b0 c]; [|by apply Hst]. injection Hx as <-. done.
Qed.

Lemma good_link c p b : good (c ++ [b]) → last c = Some p → b_hash p = b_prev b.
Proof.
  intros Hg Hp. rewrite last_lookup in Hp. assert (0 < length c)%nat by (destruct c; [done|simpl; lia]).
  destruct (gd_linked _ Hg (Nat.pred (length c)) p b) as [_ ?]; [by apply lookup_app_l_Some| |done].
  apply list_lookup_middle. lia.
Qed.

Lemma prev_of t c bulk :
  table_for t c → good c →
  match last bulk with Some p => Some (b_hash p) | None => (λ x, br_hash (snd x)) <$> bt_tip t end = b_hash <$> last (c ++ bulk).
Proof.
  intros Ht Hg. rewrite last_app. destruct (last bulk); [done|].
  destruct c as [|b c _] using rev_ind; [by rewrite table_tip_nil|].
  rewrite (table_tip _ _ _ Ht) by by apply good_ok. by rewrite last_snoc.
Qed.

(** The last condition is for a pass that must succeed: nobody stops it, and
    the blocks [bs] it gets continue the chain. *)
Lemma sync_loop_spec tot durable_from items t bulk applied w c bs :
  settled w c → table_for t c → good (c ++ bulk) → items_from (next_height (c ++ bulk)) items →
  0 ≤ durable_from → Forall (λ b, b_height b < durable_from) bulk →
  (tot = true → (∀ n, (since ≤ n)%nat → stop_flag n = false) ∧ items = map Ok bs ∧ good ((c ++ bulk) ++ bs) ∧
    Forall (λ b, b_height b - MAX_REORG_DEPTH ≤ durable_from) bs ∧ kept w durable_from c) →
  job_spec tot (sync_loop durable_from items t bulk applied) w (λ n w', ∃ c', settled w' c' ∧
    (tot = true → c' = (c ++ bulk) ++ bs ∧ n = applied + Z.of_nat (length bulk) + Z.of_nat (length bs) ∧ kept w' durable_from c')).
Proof.
  revert t bulk applied w c bs. induction items as [|item items IH]; intros t bulk applied w c bs Hs Ht Hg Hit HD Hlow Htot.
  { apply job_bind. apply (apply_spec _ _ _ c); [done..|]. intros t' w' Hs' _ _ Hk. apply job_ret. eexists. split; [done|]. intros Hx.
    destruct (Htot Hx) as (_ & Hbs & _ & _ & Hkc). destruct bs; [|done]. rewrite app_nil_r. split_and!; [done|simpl; lia|]. apply Hk; auto. }
  cbn [sync_loop]. apply job_bind. apply (job_ask _ _ _ c); [done|]. intros w1 Hw1 Hs1 Hq.
  set (Q := λ (n : Z) (w' : IndexWorld), ∃ c', settled w' c' ∧ (tot = true → c' = (c ++ bulk) ++ bs ∧
    n = applied + Z.of_nat (length bulk) + Z.of_nat (length bs) ∧ kept w' durable_from c')).
  assert (Hfin : tot = false → job_spec tot (_ ← apply t bulk false; mret (applied + Z.of_nat (length bulk))) (tick w1) Q).
  { intros ->. apply job_bind. apply (apply_spec _ _ _ c); [done..|]. intros. apply job_ret. by eexists. }
  destruct (stop_flag _) eqn:Estop; [destruct tot; [destruct Htot as [Hno _]; [done|]; rewrite Hno in Estop by done; done|by apply Hfin]|].
  destruct item as [b|e|]; [|destruct tot; [by destruct Htot as (_ & Hbs & _); destruct bs|by eapply job_fail]
    |destruct tot; [by destruct Htot as (_ & Hbs & _); destruct bs|done]].
  rewrite (prev_of t c bulk) by (try done; by eapply good_prefix).
  destruct (Hit 0%nat b eq_refl) as [Hserved Hheight]. rewrite Z.add_0_r in Hheight.
  assert (Hbs : tot = true → ∃ bs', bs = b :: bs' ∧ items = map Ok bs' ∧ good (((c ++ bulk) ++ [b]) ++ bs')).
  { intros Hx. destruct (Htot Hx) as (_ & Hbs & Hgb & _). destruct bs as [|b' bs]; [done|]. injection Hbs as <- ->.
    exists bs. rewrite <-(app_assoc _ [b]). done. }
  assert (Hnext : items_from (next_height ((c ++ bulk) ++ [b])) items).
  { intros i x Hx. unfold next_height at 1. rewrite last_snoc. destruct (Hit (S i) x Hx) as [? Hxh]. split; [done|]. lia. }
  destruct (match b_hash <$> last (c ++ bulk) with Some p => negb (bool_decide (p = b_prev b)) | None => false end) eqn:Elink.
  { destruct tot; [|by apply Hfin]. exfalso. destruct Hbs as (bs' & _ & _ & Hgb%good_prefix); [done|].
    destruct (last (c ++ bulk)) as [p|] eqn:El; [|done]. cbn in Elink. apply negb_true_iff, bool_decide_eq_false in Elink.
    by apply Elink, (good_link (c ++ bulk)). }
  assert (Hg' : good ((c ++ bulk) ++ [b])).
  { apply good_snoc; [done..|]. intros p Hp. rewrite Hp in Elink. cbn in Elink. by apply negb_false_iff, bool_decide_eq_true in Elink. }
  assert (Hgo : ∀ t' w' c' bulk' applied', c' ++ bulk' = (c ++ bulk) ++ [b] → settled w' c' → table_for t' c' →
    applied' + Z.of_nat (length bulk') = applied + Z.of_nat (length bulk) + 1 → Forall (λ b, b_height b < durable_from) bulk' →
    (tot = true → kept w' durable_from c') → job_spec tot (sync_loop durable_from items t' bulk' applied') w' Q).
  { intros t' w' c' bulk' applied' Heq Hs' Ht' Happ Hlow' Hk'.
    eapply job_mono; [|apply (IH t' bulk' applied' w' c' (tail bs)); [done|done|by rewrite Heq|by rewrite Heq|done|done|]].
    - intros n w2 (c2 & Hs2 & Hc2). exists c2. split; [done|]. intros Hx. destruct (Hbs Hx) as (bs' & -> & _). destruct (Hc2 Hx) as (-> & -> & Hk2).
      rewrite Heq, <-app_assoc in Hk2 |- *. simpl. split_and!; [done|lia|done].
    - intros Hx. destruct (Hbs Hx) as (bs' & -> & -> & Hgb). rewrite Heq. destruct (Htot Hx) as (? & _ & _ & Hdep & _).
      split_and!; [done|done|done|by inversion Hdep|by apply Hk']. }
  assert (Hk1 : tot = true → kept (tick w1) durable_from c).
  { intros Hx. eapply kept_same; [apply (es_rows _ _ Hw1)|]. by apply Htot. }
  destruct (Z.ltb_spec (b_height b) durable_from).
  - assert (Hlow' : Forall (λ b, b_height b < durable_from) (bulk ++ [b])) by (apply Forall_app; by repeat constructor).
    destruct (Nat.eqb _ _).
    + apply job_bind. apply (apply_spec _ _ _ c); [done|done|by rewrite app_assoc|done|]. intros t' w' Hs' Ht' _ Hk.
      apply (Hgo _ _ (c ++ bulk ++ [b])); [by rewrite app_nil_r, app_assoc|done|done| |constructor|auto].
      rewrite length_app. simpl. lia.
    + apply (Hgo _ _ c); [by rewrite app_assoc|done|done| |done|done]. rewrite length_app. simpl. lia.
  - apply job_bind. apply (apply_spec _ _ _ c); [done..|]. intros t2 w2 Hs2 Ht2 _ Hk2. apply job_bind.
    apply (enter_follow_spec _ _ (c ++ bulk)); [done|]. intros w3 Hs3 Hsame3. apply job_bind.
    apply (apply_spec _ _ _ (c ++ bulk)); [done|done|done|eauto|]. intros t4 w4 Hs4 Ht4 Hd4 Hk4. apply job_bind.
    pose proof (ko_height _ (proj1 (nl_typed b Hserved))). assert (0 ≤ saturating_sub (b_height b) MAX_REORG_DEPTH ≤ u32_max)
      by (unfold saturating_sub, MAX_REORG_DEPTH; lia).
    apply (prune_spec _ _ _ ((c ++ bulk) ++ [b])); [done|auto|done|]. intros w5 Hs5 Hk5.
    apply (Hgo _ _ ((c ++ bulk) ++ [b])); [by rewrite app_nil_r|done|done|simpl; lia|constructor|].
    intros Hx. apply Hk5; [apply (good_ok _ Hg')| |].
    + destruct (Htot Hx) as (_ & _ & _ & Hdep & _). destruct (Hbs Hx) as (bs' & -> & _). inversion Hdep; subst.
      unfold saturating_sub. lia.
    + apply Hk4; [|by left]. eapply kept_same; [exact Hsame3|]. apply Hk2; [by apply Hk1|by right].
Qed.

Lemma stream_items n from to : items_from from (node_stream n from to).
Proof. intros i b Hb. split; [by do 4 eexists|by eapply nl_order]. Qed.

(** The height after the table's tip. *)
Lemma from_height t c :
  table_for t c → good c →
  match bt_tip t with None => start_height cfg | Some (h, _) => wrapping_add u32_max h 1 end = next_height c.
Proof.
  intros Ht Hg. unfold next_height. destruct c as [|b c _] using rev_ind; [by rewrite table_tip_nil|].
  rewrite (table_tip _ _ _ Ht), last_snoc by by apply good_ok. pose proof (gd_served _ Hg) as Hsv.
  apply Forall_app in Hsv as [_ Hsv]. inversion Hsv as [|?? Hb4 _]; subst. destruct (nl_typed b Hb4) as [Hbok ?].
  pose proof (ko_height _ Hbok). apply wrapping_add_small. lia.
Qed.

Lemma step_spec w c : settled w c → job_spec false (step cfg) w (λ _ w', ∃ c', settled w' c').
Proof.
  intros Hs. unfold step. apply job_bind. apply (job_ask _ _ _ c); [done|]. intros w1 _ Hs1 _. apply job_bind.
  destruct (node_tip _) as [tip|e|]; [apply job_ret|by eapply job_fail|done]. apply job_bind.
  apply job_act. intros w2 Hw2. pose proof (settled_env _ _ _ Hw2 Hs1) as [[[Hp Ht' Hsh Hd Hq] Hr Hg Hb] Ht]. cbn [fst snd].
  assert (Hs2 : settled (set_node_tip tip w2) c) by (split; [split; [by split|done..]|done]).
  split; [eapply holds_ok, Hs2|]. apply job_bind. apply job_act. intros w3 Hw3. pose proof (settled_env _ _ _ Hw3 Hs2) as Hs3.
  cbn [fst snd]. split; [eapply holds_ok, Hs3|]. apply job_bind. apply (unwind_spec _ _ _ c); [done|apply Hs3|].
  intros t w4 c4 Hs4 Ht4. pose proof (hd_good _ _ (proj1 Hs4)) as Hg4.
  rewrite (from_height t c4) by done. destruct (_ <? next_height c4).
  - apply job_bind. eapply (job_mono _ _ _ (λ _ w', settled w' c4)); [intros [] w5 Hs5; apply job_ret; eauto|].
    destruct (_ <=? _); [by apply (enter_follow_spec _ _ c4)|by apply job_ret].
  - apply job_bind. apply (job_ask _ _ _ c4); [done|]. intros w5 _ Hs5 _.
    eapply job_mono; [|apply (sync_loop_spec _ _ _ _ _ _ _ c4 []); [done|done|by rewrite app_nil_r|rewrite app_nil_r| |constructor|done]].
    + intros n w6 (c6 & Hs6 & _). by exists c6.
    + by apply stream_items.
    + unfold saturating_sub. lia.
Qed.

Definition pass_ends (r : result DbErr Outcome) (w : IndexWorld) : Prop :=
  match r with Panic => True | _ => ∃ c, settled w c end.

Lemma run_pass_spec w c : settled w c → rg (rtc env_step) moves (run_pass cfg) w pass_ends.
Proof.
  intros Hs. apply rg_bind. eapply rg_mono; [|exact (step_spec w c Hs)].
  assert (Hdone : ∀ (m : Job Outcome) w1, job_spec false m w1 (λ _ w', ∃ c', settled w' c') → rg (rtc env_step) moves m w1 pass_ends).
  { intros m w1 Hm. eapply rg_mono; [|exact Hm]. intros [] w2; cbn; [done|by intros [_ ?]|done]. }
  intros [n|e|] w1; [|by intros [_ ?]|done]. intros [c1 Hs1]. apply Hdone.
  apply job_bind. apply job_act. intros w2 Hw2. pose proof (settled_env _ _ _ Hw2 Hs1) as Hs2.
  cbn [fst snd job_post]. split; [eapply holds_ok, Hs2|]. destruct (reached_stop_height _ _); [|apply job_ret; eauto].
  apply job_bind. apply (flush_dirty_spec _ _ c1); [done|]. intros w3 Hs3 _ _. apply job_ret. eauto.
Qed.

End runs.

(** ** Crashes *)
Section crashes.
Context `{NodeLaws}.
Context (cfg : SyncConfig).

Definition reopened (kv : Kv) (t : BlockTable) : IndexWorld := {|
  iw_flushed := kv; iw_pending := []; iw_table := t; iw_dirty := false; iw_follow := false; iw_node_tip := 0; iw_asked := 0 |}.

Lemma reopened_settled kv c t : represents kv c → good cfg c → table_for t c → settled cfg 0 (reopened kv t) c.
Proof.
  intros Hr Hg Ht. split; [|done]. split; [|done|done|by exists c]. split; cbn; [|constructor|by exists [], []|constructor|lia].
  intros n. rewrite take_nil. by exists c.
Qed.

Lemma table_tip_pair t c : table_for t c → good cfg c → (λ x, (fst x, br_hash (snd x))) <$> bt_tip t = tip_pair c.
Proof.
  intros Ht Hg. unfold tip_pair. destruct c as [|b c _] using rev_ind; [by rewrite table_tip_nil|].
  by rewrite (table_tip _ _ _ Ht), last_snoc by by eapply good_ok.
Qed.

Lemma load_table_exact kv c : represents kv c → good cfg c → ∃ t, load_table kv = Ok t ∧ table_for t c.
Proof.
  intros Hr Hg. destruct (from_db_exact kv c) as (rows & t & Hrows & Ht & Hfor); [apply Hr|by eapply good_ok|by eapply good_fits|].
  exists t. split; [|done]. unfold load_table. rewrite Hrows. rcbn. rewrite Ht. rcbn. rewrite (db_tip_of kv c) by (try done; by eapply good_ok). rcbn.
  by rewrite (table_tip_pair t c), bool_decide_true.
Qed.

Lemma recovered since w l : db_inv cfg since w → survives (iw_pending w) l → ∃ c, good cfg c ∧ represents (replay (iw_flushed w) l) c.
Proof.
  intros [Hp Ht (a & b & Hab & Ha & Hb) _ _] Hl. rewrite Hab in *. apply survives_app_inv in Hl as (la & lb & -> & Hla & Hlb).
  apply Forall_app in Ht as [Hta Htb]. destruct (Hp (length a)) as (c & Hc & Hr). rewrite take_app_length in Hr. exists c.
  split; [done|]. rewrite replay_app, (survives_none _ b lb), (survives_all _ a la) by done. done.
Qed.

(** ** Runs *)
Inductive index_reach : Job Outcome → IndexWorld → Prop :=
| ir_start kv : represents kv [] → index_reach (run_pass cfg) (reopened kv bt_default)
| ir_env p w w' : index_reach p w → env_step w w' → index_reach p w'
| ir_step f k w : index_reach (Step f k) w → index_reach (k w) (f w)
| ir_again o w : index_reach (Done (Ok o)) w → index_reach (run_pass cfg) w
| ir_crash p w l t :
    index_reach p w → survives (iw_pending w) l → load_table (replay (iw_flushed w) l) = Ok t →
    index_reach (run_pass cfg) (reopened (replay (iw_flushed w) l) t).

Lemma pass_ends_env r w w' : env_step w w' → pass_ends cfg 0 r w → pass_ends cfg 0 r w'.
Proof. intros Hw. destruct r; cbn; try done; intros [c Hs]; exists c; by eapply settled_env, Hs; apply env_step_same. Qed.

Lemma index_reach_ok p w : index_reach p w → world_ok cfg 0 w ∧ rg (rtc env_step) (moves cfg 0) p w (pass_ends cfg 0).
Proof.
  assert (Hgo : ∀ w c, settled cfg 0 w c → world_ok cfg 0 w ∧ rg (rtc env_step) (moves cfg 0) (run_pass cfg) w (pass_ends cfg 0)).
  { intros w' c Hs. split; [eapply holds_ok, Hs|by eapply run_pass_spec]. }
  induction 1 as [kv Hkv|p w w' _ [Hok Hrg] Hs|f k w _ [Hok Hrg]|o w _ [Hok Hrg]|p w l t _ [Hok Hrg] Hl Ht].
  - apply (Hgo _ []). apply reopened_settled; [done|apply good_nil|]. by split.
  - pose proof (env_step_same cfg 0 _ _ Hs) as Hsame. split.
    + destruct Hok as [Hi Ht]. split; [by apply Hsame|]. unfold table_ok. by rewrite (es_table _ _ _ _ Hsame).
    + eapply (rg_later _ _ _ w); [by intros x y z; etrans|by apply rtc_once| |done]. intros a. by apply pass_ends_env.
  - by apply Hrg.
  - destruct Hrg as [c Hs]. by apply (Hgo _ c).
  - destruct (recovered 0 w l) as (c & Hc & Hr); [apply Hok|done|]. destruct (load_table_exact _ c Hr Hc) as (t' & Ht' & Hfor).
    rewrite Ht in Ht'. injection Ht' as <-. apply (Hgo _ c). by apply reopened_settled.
Qed.

End crashes.
