(* ===== verification/IndexCatchUp.v ===== *)
(** A pass catches up: against a node that keeps to one chain, a pass takes
    off the blocks that are not on it, as long as they can be undone, and
    applies the rest of it. *)

From S2P Require Import Prelude Json Threads Bitcoin IndexKeys Index IndexSpec IndexChain IndexApply IndexRead IndexTable IndexFetch IndexSync IndexRuns.

Section catch_up.
Context `{NodeLaws}.
Context (cfg : SyncConfig) (since : nat).

(** From question [since] on the node answers from the chain [N]. *)
Record steady (N : list ParsedBlock) : Prop := {
  sd_good : good cfg N;
  sd_some : is_Some (last N);
  sd_tip n : (since ≤ n)%nat → ∃ b, last N = Some b ∧ node_tip n = Ok (b_height b);
  sd_hash n b : (since ≤ n)%nat → b ∈ N → node_hashes n (b_height b) 1 = Ok [b_hash b];
  sd_stream n pre new b : (since ≤ n)%nat → N = pre ++ new → last new = Some b → node_stream n (next_height cfg pre) (b_height b) = map Ok new;
  sd_stop n : (since ≤ n)%nat → stop_flag n = false;
}.

(** [pre] is all two chains share. *)
Definition forks (old new : list ParsedBlock) : Prop := ∀ b b', head old = Some b → head new = Some b' → b ≠ b'.

Lemma good_height c i b : good cfg c → c !! i = Some b → b_height b = start_height cfg + Z.of_nat i.
Proof.
  intros Hc Hi. destruct c as [|b0 c]; [done|].
  pose proof (linked_heights _ 0 i b0 b (gd_linked _ _ Hc) eq_refl Hi). rewrite <-(gd_start _ _ Hc b0 eq_refl). lia.
Qed.

Lemma fork_hashes pre old new b x :
  good cfg (pre ++ old) → good cfg (pre ++ new) → forks old new →
  b ∈ old → x ∈ pre ++ new → b_height x = b_height b → b_hash x ≠ b_hash b.
Proof.
  intros Hc HN Hf [i Hi]%list_elem_of_lookup [j Hj]%list_elem_of_lookup Hh Hhash.
  assert (Hci : (pre ++ old) !! (length pre + i)%nat = Some b) by (rewrite lookup_app_r by lia; rewrite <-Hi; f_equal; lia).
  pose proof (good_height _ _ _ Hc Hci). pose proof (good_height _ _ _ HN Hj). assert (j = (length pre + i)%nat) as -> by lia.
  assert (Hni : new !! i = Some x) by (rewrite lookup_app_r in Hj by lia; rewrite <-Hj; f_equal; lia).
  assert (Hsplit : ∀ l y, l !! i = Some y → good cfg (pre ++ l) → good cfg (pre ++ take (S i) l) ∧
    tip_pair (pre ++ take (S i) l) = Some (b_height y, b_hash y)).
  { intros l y Hy Hg. split.
    - apply (good_prefix cfg _ (drop (S i) l)). by rewrite <-app_assoc, take_drop.
    - unfold tip_pair. rewrite (take_S_r _ _ _ Hy), app_assoc, last_snoc. done. }
  destruct (Hsplit old b Hi Hc) as [Hg1 Ht1]. destruct (Hsplit new x Hni HN) as [Hg2 Ht2].
  assert (E : pre ++ take (S i) old = pre ++ take (S i) new).
  { apply (good_same_tip cfg); [done|done|]. rewrite Ht1, Ht2. by rewrite Hh, Hhash. }
  apply app_inv_head in E. destruct old as [|b0 old], new as [|x0 new]; try done. injection E as E _. by apply (Hf b0 x0).
Qed.

(** Every height up to the node's tip has its hash. *)
Lemma steady_answers N c b T n :
  steady N → (since ≤ n)%nat → good cfg c → b ∈ c → (∀ x, last N = Some x → T = b_height x) → b_height b ≤ T →
  ∃ x, x ∈ N ∧ b_height x = b_height b ∧ node_hashes n (b_height b) 1 = Ok [b_hash x].
Proof.
  intros HN Hn Hc [i Hi]%list_elem_of_lookup HT Hle. pose proof (good_height _ _ _ Hc Hi) as Hh.
  destruct (sd_some _ HN) as [z Hz]. specialize (HT _ Hz). rewrite last_lookup in Hz.
  pose proof (good_height _ _ _ (sd_good _ HN) Hz) as Hzh. pose proof (lookup_lt_Some _ _ _ Hz).
  destruct (lookup_lt_is_Some_2 N i) as [x Hx]; [lia|]. pose proof (good_height _ _ _ (sd_good _ HN) Hx) as Hxh.
  exists x. assert (x ∈ N) by by eapply list_elem_of_lookup_2. split_and!; [done|lia|].
  replace (b_height b) with (b_height x) by lia. by apply (sd_hash _ HN).
Qed.

Lemma unwind_loop_total N T D0 rounds t w pre old new (Q : BlockTable → IndexWorld → Prop) :
  steady N → (∀ x, last N = Some x → T = b_height x) → N = pre ++ new → forks old new →
  (length (pre ++ old) ≤ rounds)%nat → settled cfg since w (pre ++ old) → table_for t (pre ++ old) →
  kept w D0 (pre ++ old) → Forall (λ b, D0 ≤ b_height b) old →
  (∀ t' w', settled cfg since w' pre → table_for t' pre → kept w' D0 pre → Q t' w') → job_spec cfg since true (unwind_loop rounds T t) w Q.
Proof.
  intros HN HT HNeq Hfork Hr Hs Ht Hk Hdep HQ. revert rounds t w Hr Hs Ht Hk. induction old as [|b old IH] using rev_ind; intros rounds t w Hr Hs Ht Hk.
  - rewrite app_nil_r in *. pose proof (hd_good _ _ _ _ (proj1 Hs)) as Hg. destruct rounds as [|rounds]; [by apply HQ|]. cbn [unwind_loop].
    destruct pre as [|p pre _] using rev_ind; [rewrite table_tip_nil by done; by apply HQ|].
    rewrite (table_tip _ _ _ Ht) by by eapply good_ok.
    assert (Hp : p ∈ N) by (rewrite HNeq; set_solver).
    assert (Hle : b_height p ≤ T).
    { destruct (sd_some _ HN) as [z Hz]. rewrite (HT z Hz). rewrite last_lookup in Hz.
      assert (Hpi : N !! length pre = Some p) by (rewrite HNeq, <-app_assoc; by apply list_lookup_middle).
      pose proof (good_height _ _ _ (sd_good _ HN) Hz). pose proof (good_height _ _ _ (sd_good _ HN) Hpi).
      apply lookup_lt_Some in Hpi. lia. }
    rewrite (proj2 (Z.leb_le _ _)) by done. apply job_bind. apply job_bind. apply (hash_at_spec _ _ _ _ _ (pre ++ [p])); [done| |].
    + intros _ n Hn. exists (b_hash p). by apply (sd_hash _ HN).
    + intros n x l w1 Hn Hx Hs1 Hsame. rewrite (sd_hash _ HN n p Hn Hp) in Hx. simplify_eq. apply job_ret. cbn.
      rewrite bool_decide_true by done. apply HQ; [done|done|]. by eapply kept_same.
  - rewrite app_assoc in *. pose proof (hd_good _ _ _ _ (proj1 Hs)) as Hg. rewrite length_app in Hr. simpl in Hr.
    destruct rounds as [|rounds]; [lia|]. cbn [unwind_loop]. rewrite (table_tip _ _ _ Ht) by by eapply good_ok.
    apply job_bind. eapply (job_mono _ _ _ _ _ (λ same w', same = false ∧ settled cfg since w' ((pre ++ old) ++ [b]) ∧ same_rows (iw_db w') (iw_db w))).
    2:{ destruct (Z.leb_spec (b_height b) T); [|by apply job_ret]. apply job_bind.
        apply (hash_at_spec _ _ _ _ _ ((pre ++ old) ++ [b])); [done| |].
        - intros _ n Hn. destruct (steady_answers N ((pre ++ old) ++ [b]) b T n) as (x & _ & _ & ?); try done; [set_solver|by eauto].
        - intros n x l w1 Hn Hx Hs1 Hsame. apply job_ret. split_and!; [|done|done]. apply bool_decide_eq_false. intros ->.
          destruct (steady_answers N ((pre ++ old) ++ [b]) b T n) as (y & Hy & Hh & Hyh); try done; [set_solver|].
          rewrite Hx in Hyh. simplify_eq. eapply (fork_hashes pre (old ++ [b]) new b y); try done; [by rewrite app_assoc|apply HN|set_solver]. }
    intros ? w1 (-> & Hs1 & Hsame1). apply job_bind. apply (flush_dirty_spec _ _ _ _ ((pre ++ old) ++ [b])); [done|].
    intros w2 Hs2 Hd2 Hsame2.
    assert (Hk2 : kept w2 D0 ((pre ++ old) ++ [b])) by (eapply kept_same; [|eapply kept_same; [|exact Hk]]; done).
    apply Forall_app in Hdep as [Hdep Hb]. apply Forall_inv in Hb.
    apply job_bind. apply rollback_spec; [done|done|done|intros _; apply Hk2; [set_solver|exact Hb]|]. intros w3 Hh3 Hk3. apply job_bind.
    assert (Ht' : table_for (fst (bt_pop t)) (pre ++ old)) by (eapply table_pop; [done|by eapply good_ok]).
    apply (publish_spec _ _ _ _ _ (pre ++ old)); [done..|]. intros w4 Hs4 _ Hsame4.
    apply IH; [|done|lia|done|done|].
    + intros x y Hx Hy. apply Hfork; [|done]. by destruct old.
    + eapply kept_same; [exact Hsame4|]. apply Hk3. intros x Hx. apply Hk2. set_solver.
Qed.

(** The check for a node that is only behind does not stop the pass. *)
Lemma unwind_total N T D0 t w pre old new (Q : BlockTable → IndexWorld → Prop) :
  steady N → (∀ x, last N = Some x → T = b_height x) → N = pre ++ new → forks old new → (new = [] → old = []) →
  settled cfg since w (pre ++ old) → table_for t (pre ++ old) → kept w D0 (pre ++ old) → Forall (λ b, D0 ≤ b_height b) old →
  (∀ t' w', settled cfg since w' pre → table_for t' pre → kept w' D0 pre → Q t' w') → job_spec cfg since true (unwind T t) w Q.
Proof.
  intros HN HT HNeq Hfork Hbehind Hs Ht Hk Hdep HQ. pose proof (hd_good _ _ _ _ (proj1 Hs)) as Hg. pose proof (good_ok _ _ Hg) as Hok. unfold unwind.
  apply job_bind. eapply (job_mono _ _ _ _ _ (λ _ w', settled cfg since w' (pre ++ old) ∧ same_rows (iw_db w') (iw_db w))).
  - intros [] w1 [Hs1 Hsame]. apply (unwind_loop_total N T D0 _ _ _ pre old new); try done.
    + by rewrite (tf_recs _ _ Ht), length_recs_of.
    + by eapply kept_same.
  - assert (Hsame0 : same_rows (iw_db w) (iw_db w)) by done.
    destruct (bt_tip t) as [[h r]|] eqn:Etip; [|done]. destruct (bt_get t T) as [ours|] eqn:Eget; [|done].
    destruct (Z.ltb_spec T h); [|done]. apply (table_get_Some _ (pre ++ old)) in Eget as (i & b & Hi & Hbh & ->); [|done..].
    assert (Hin : b ∈ pre ++ old) by by eapply list_elem_of_lookup_2.
    assert (Hbold : b ∈ old).
    { apply elem_of_app in Hin as [Hin|]; [|done]. exfalso. apply list_elem_of_lookup in Hin as [j Hj].
      destruct (sd_some _ HN) as [z Hz]. pose proof (HT z Hz) as HTz. rewrite last_lookup in Hz.
      assert (Hjc : (pre ++ old) !! j = Some b) by by apply lookup_app_l_Some.
      pose proof (good_height _ _ _ Hg Hjc). pose proof (good_height _ _ _ (sd_good _ HN) Hz).
      pose proof (lookup_lt_Some _ _ _ Hj). pose proof (lookup_lt_Some _ _ _ Hz).
      assert (new = []) as Hnil by (destruct new; [done|]; rewrite HNeq, length_app in *; simpl in *; lia).
      rewrite (Hbehind Hnil), app_nil_r in *. destruct pre as [|p pre _] using rev_ind; [done|].
      rewrite (table_tip _ _ _ Ht) in Etip by done. injection Etip as <- <-.
      assert (Hp : (pre ++ [p]) !! length pre = Some p) by by apply list_lookup_middle.
      pose proof (good_height _ _ _ Hg Hp). subst new. rewrite app_nil_r in *. subst N. rewrite length_app in *. simpl in *. lia. }
    apply job_bind. apply (hash_at_spec _ _ _ _ _ (pre ++ old)); [done| |].
    + intros _ n Hn. destruct (steady_answers N (pre ++ old) b T n) as (x & _ & _ & Hx); try done; [lia|]. rewrite Hbh in Hx. by eauto.
    + intros n x l w1 Hn Hx Hs1 Hsame. rewrite bool_decide_false; [by apply job_ret|]. cbn. intros ->.
      destruct (steady_answers N (pre ++ old) b T n) as (y & Hy & Hh & Hyh); try done; [lia|].
      rewrite Hbh, Hx in Hyh. injection Hyh as Hyh _. eapply (fork_hashes pre old new b y); try done; [rewrite <-HNeq; apply HN|by rewrite <-HNeq].
Qed.

Lemma step_total N z D0 w pre old new :
  stop_height cfg = None → steady N → last N = Some z → N = pre ++ new → forks old new → (new = [] → old = []) →
  settled cfg since w (pre ++ old) → kept w D0 (pre ++ old) → Forall (λ b, D0 ≤ b_height b) old →
  D0 ≤ saturating_sub (b_height z) MAX_REORG_DEPTH →
  job_spec cfg since true (step cfg) w (λ n w', settled cfg since w' N ∧ n = Z.of_nat (length new) ∧
    kept w' (saturating_sub (b_height z) MAX_REORG_DEPTH) N).
Proof.
  intros Hstop HN Hz HNeq Hfork Hbehind Hs Hk Hdep HD0. unfold step. apply job_bind. apply (job_ask _ _ _ _ _ (pre ++ old)); [done|].
  intros w1 Hw1 Hs1 Hq1. destruct (sd_tip _ HN (iw_asked w1) Hq1) as (z' & Hz' & ->). rewrite Hz in Hz'. injection Hz' as <-.
  apply job_bind, job_ret, job_bind.
  assert (HT : ∀ x, last N = Some x → b_height z = b_height x) by (intros x; rewrite Hz; by intros [= ->]).
  apply job_act. intros w2 Hw2. pose proof (settled_env _ _ _ _ _ Hw2 Hs1) as [[[Hp Ht' Hsh Hd Hq] Hr Hg Hb] Ht]. cbn [fst snd job_post].
  assert (Hs2 : settled cfg since (set_node_tip (b_height z) w2) (pre ++ old)) by (split; [split; [by split|done..]|done]).
  split; [eapply holds_ok, Hs2|]. apply job_bind. apply job_act. intros w3 Hw3. pose proof (settled_env _ _ _ _ _ Hw3 Hs2) as Hs3.
  cbn [fst snd job_post]. split; [eapply holds_ok, Hs3|]. apply job_bind.
  assert (Hk3 : kept w3 D0 (pre ++ old)).
  { eapply kept_same; [apply (es_rows _ _ _ _ Hw3)|]. eapply (kept_same w2); [done|]. eapply kept_same; [apply (es_rows _ _ _ _ Hw2)|].
    eapply (kept_same w1); [done|]. eapply kept_same; [apply (es_rows _ _ _ _ Hw1)|done]. }
  apply (unwind_total N _ D0 _ _ pre old new); try done; [apply Hs3|]. intros t w4 Hs4 Ht4 Hk4.
  assert (Hk5 : kept w4 (saturating_sub (b_height z) MAX_REORG_DEPTH) pre) by (intros b Hb1 Hb2; apply Hk4; [done|lia]).
  pose proof (hd_good _ _ _ _ (proj1 Hs4)) as Hg4. rewrite (from_height cfg t pre) by done. rewrite Hstop.
  assert (Hend : new = [] ↔ b_height z < next_height cfg pre).
  { rewrite last_lookup in Hz. pose proof (good_height _ _ _ (sd_good _ HN) Hz). pose proof (lookup_lt_Some _ _ _ Hz).
    assert (next_height cfg pre = start_height cfg + Z.of_nat (length pre)) as ->.
    { unfold next_height. destruct pre as [|p pre _] using rev_ind; [simpl; lia|]. rewrite last_snoc, length_app. simpl.
      assert (Hpl : (pre ++ [p]) !! length pre = Some p) by by apply list_lookup_middle.
      pose proof (good_height _ _ _ Hg4 Hpl). lia. }
    assert (Hlen : length N = (length pre + length new)%nat) by (rewrite HNeq; apply length_app).
    destruct new; simpl in Hlen; [split; [lia|done]|split; [done|lia]]. }
  destruct (Z.ltb_spec (b_height z) (next_height cfg pre)) as [Hlt|Hge].
  - apply Hend in Hlt as ->. rewrite app_nil_r in HNeq. subst N. apply job_bind.
    eapply (job_mono _ _ _ _ _ (λ _ w', settled cfg since w' pre ∧ same_rows (iw_db w') (iw_db w4))).
    + intros [] w5 [Hs5 Hsame5]. apply job_ret. split_and!; [done|done|]. by eapply kept_same.
    + destruct (_ <=? _); [by apply (enter_follow_spec _ _ _ _ pre)|by apply job_ret].
  - apply job_bind. apply (job_ask _ _ _ _ _ pre); [done|]. intros w5 Hw5 Hs5 Hq5.
    assert (Hlast : last new = Some z).
    { destruct new as [|x new]; [pose proof (proj1 Hend eq_refl); lia|]. 
      rewrite HNeq, last_app, last_cons in Hz. rewrite last_cons. by destruct (last new). }
    rewrite (sd_stream _ HN _ pre new z Hq5 HNeq Hlast).
    eapply job_mono; [|apply (sync_loop_spec _ _ _ _ _ _ [] _ _ pre new); [done|done|by rewrite app_nil_r|rewrite app_nil_r| |constructor|]].
    + intros n w6 (c6 & Hs6 & Hc6). destruct (Hc6 eq_refl) as (-> & -> & Hk6). rewrite app_nil_r, <-HNeq in Hs6, Hk6.
      split_and!; [done|simpl; lia|done].
    + rewrite <-(sd_stream _ HN (iw_asked w5) pre new z Hq5 HNeq Hlast). by apply stream_items.
    + unfold saturating_sub. lia.
    + intros _. rewrite app_nil_r, <-HNeq. split_and!; [apply HN|done|apply HN| |].
      * apply Forall_forall. intros b Hb1. assert (b_height b ≤ b_height z); [|unfold saturating_sub; lia].
        assert (b ∈ N) as [i Hi]%list_elem_of_lookup by (rewrite HNeq; set_solver). rewrite last_lookup in Hz.
        pose proof (good_height _ _ _ (sd_good _ HN) Hi). pose proof (good_height _ _ _ (sd_good _ HN) Hz).
        apply lookup_lt_Some in Hi. lia.
      * eapply kept_same; [apply (es_rows _ _ _ _ Hw5)|done].
Qed.

Lemma pass_total N z D0 w pre old new :
  stop_height cfg = None → steady N → last N = Some z → N = pre ++ new → forks old new → (new = [] → old = []) →
  settled cfg since w (pre ++ old) → kept w D0 (pre ++ old) → Forall (λ b, D0 ≤ b_height b) old →
  D0 ≤ saturating_sub (b_height z) MAX_REORG_DEPTH →
  rg (rtc env_step) (moves cfg since) (run_pass cfg) w (λ r w',
    r = Ok Again ∧ settled cfg since w' N ∧ kept w' (saturating_sub (b_height z) MAX_REORG_DEPTH) N).
Proof.
  intros Hstop HN Hz HNeq Hfork Hbehind Hs Hk Hdep HD0. apply rg_bind.
  eapply rg_mono; [|by apply (step_total N z D0 w pre old new)].
  intros [n|e|] w1; [|by intros [? _]|done]. intros (Hs1 & _ & Hk1).
  apply rg_bind, rg_atomically. intros w2 Hw2%(env_steps_same cfg since). pose proof (settled_env _ _ _ _ _ Hw2 Hs1) as Hs2.
  cbn [fst snd]. split; [eapply holds_ok, Hs2|]. unfold reached_stop_height. rewrite Hstop.
  split_and!; [done|done|]. eapply kept_same; [apply Hw2|done].
Qed.

End catch_up.

(** Later is after earlier. *)
Lemma settled_since `{NodeLaws} cfg since w c : settled cfg 0 w c → (since ≤ iw_asked w)%nat → settled cfg since w c.
Proof. intros [[[Hp Ht Hs Hd _] Hr Hg Hb] Hf] Hq. split; [|done]. split; [by split|done..]. Qed.
