(* ===== verification/IndexClaims.v ===== *)
(** What the block index promises: its reads are those of one chain of blocks
    the node served, its batches extend and take back that chain, it survives
    crashes, and it catches up. *)

From S2P Require Import Prelude Json Threads Bitcoin IndexKeys Index IndexSpec IndexChain IndexApply IndexRead IndexTable IndexParse IndexFetch IndexSync IndexRuns IndexCatchUp.

(** ** Blocks *)
Section blocks.
Context `{DecodeLaws}.

(** C21. Whatever bytes the node gives for a height and a hash: if they are
    read as a block, every row of it has its widths (programs of 20 bytes,
    txids of 32, outputs' values and indices and the time within their
    integers) and there are few enough of them for the counts of an undo
    record, and the block has the height and the hash that were asked for. *)
Theorem parsed_block_typed height hash b fmt pb :
  parse_and_extract height hash b fmt = Ok pb →
  0 ≤ height ≤ u32_max → length hash = 32%nat → Z.of_nat (length b) ≤ u32_max →
  block_ok pb ∧ b_height pb = height ∧ b_hash pb = hash.
Proof. apply parse_block_ok. Qed.

End blocks.

(** ** The database *)
Section database.
Context `{BitcoinLib, HashOrder}.

(** On a database that represents a chain, a batch of blocks that
    continue it is always made, whether undo records are kept or not; once
    written, the database represents the longer chain, and the records the
    batch returns are those of the new blocks. *)
Theorem apply_batch_extends (kv : Kv) chain keep bs :
  represents kv chain → chain_ok (chain ++ bs) → next_of (chain ++ bs) ≤ MAX_TXNUM →
  (keep = true → batch_ok (numbered chain) ∅ bs) →
  ∃ wb recs, apply_batch kv bs (next_of chain) keep = Ok (wb, recs) ∧ represents (commit kv wb) (chain ++ bs) ∧
    recs = drop (length chain) (recs_of (chain ++ bs)).
Proof.
  intros Hrep Hok Hfits Hkeep. destruct (apply_batch_total kv chain keep bs) as (wb & recs & Hwb); [done|by eapply chain_ok_prefix|done|].
  exists wb, recs. split; [done|]. by eapply apply_batch_represents.
Qed.

(** The rows that say what a chain is: all but rendered transactions, undo
    records, and the scripts that were seen once. *)
Definition chain_rows_same (kv kv' : Kv) : Prop :=
  (∀ cf k, cf ∈ [CfBlocks; CfTxids; CfHistory; CfUtxo] → kv' !! (cf, k) = kv !! (cf, k)) ∧
  kv' !! (CfMeta, META_TIP) = kv !! (CfMeta, META_TIP).

Lemma represents_rows (kv kv' : Kv) chain : represents kv chain → represents kv' chain → chain_rows_same kv kv'.
Proof.
  intros [[[_ Ht Hh Hu] Hb _] Htip] [[[_ Ht' Hh' Hu'] Hb' _] Htip']. split; [|congruence].
  intros cf k Hcf. destruct (decide (cf = CfUtxo)) as [->|Hne]; [by rewrite Hu, Hu'|].
  apply option_eq. intros v. repeat (apply elem_of_cons in Hcf as [->|Hcf]); [..|by apply elem_of_nil in Hcf].
  - by rewrite Hb, Hb'.
  - by rewrite Ht, Ht'.
  - by rewrite Hh, Hh'.
  - done.
Qed.

(** C17. A block written with its undo record can be taken back: reading
    and applying the record gives exactly the rows there were before it
    (blocks, transactions, histories, unspent outputs and tip), and no
    rendering of its transactions stays behind. *)
Theorem rollback_undoes_apply (kv : Kv) chain b :
  represents kv chain → chain_ok (chain ++ [b]) → next_of (chain ++ [b]) ≤ MAX_TXNUM →
  fresh_in (utxo_set (numbered chain)) (b_txs b) →
  ∃ wb rec, apply_batch kv [b] (next_of chain) true = Ok (wb, [rec]) ∧
  ∃ wb', rollback_batch (commit kv wb) (b_height b) rec (tip_pair chain) = Ok wb' ∧
    chain_rows_same kv (commit (commit kv wb) wb') ∧
    ∀ n, next_of chain ≤ n < next_of (chain ++ [b]) → commit (commit kv wb) wb' !! (CfRender, txnum_bytes n) = None.
Proof.
  intros Hrep Hok Hfits Hfresh.
  destruct (apply_batch_total kv chain true [b]) as (wb & recs & Hwb); [done|by eapply chain_ok_prefix|done|].
  destruct (apply_batch_represents kv chain true [b] wb recs) as [Hrep' Hrecs]; [done|done| |done|].
  { intros _. split_and!; [done|set_solver|done]. }
  rewrite recs_of_snoc, drop_app_length' in Hrecs by by rewrite length_recs_of. subst recs.
  exists wb, (rec_of (chain ++ [b]) (length chain) b). split; [done|].
  assert (Hundo : is_Some (commit kv wb !! (CfUndo, height_key (b_height b)))).
  { apply (apply_batch_undo _ _ _ _ _ _ Hwb). right. split; [done|]. by apply list_elem_of_singleton. }
  destruct Hundo as [raw Hraw].
  destruct (rollback_represents (commit kv wb) chain b raw) as (wb' & Hwb' & Hback & Hrender & _); [done..|].
  exists wb'. split_and!; [done| |done]. by apply (represents_rows _ _ chain).
Qed.

(** What a table and a database answer of a chain: the tip, the block at a
    height, a program's transactions newest first, the height and the txid of a
    transaction number, the unspent output an outpoint names. *)
Record answers (t : BlockTable) (kv : Kv) (chain : list ParsedBlock) : Prop := {
  an_tip : db_tip kv = Ok (tip_pair chain);
  an_block i b : chain !! i = Some b → bt_get t (b_height b) = Some (rec_of chain i b);
  an_history p limit : length p = 20%nat → history kv p limit = take limit (reverse (touching p 0 (numbered chain)));
  an_height n : height_of t (Z.of_nat n) = fst <$> numbered chain !! n;
  an_txid n x : numbered chain !! n = Some x → db_txid kv (Z.of_nat n) = Ok (Some (r_txid (snd x)));
  an_utxo p op : db_utxo kv p op = Ok (utxo_set (numbered chain) !! utxo_key p op);
}.

(** A table and a database of the same chain answer as the chain does. *)
Lemma answers_exact (t : BlockTable) (kv : Kv) chain :
  represents kv chain → table_for t chain → chain_ok chain → next_of chain ≤ MAX_TXNUM → answers t kv chain.
Proof.
  intros Hrep Ht Hok Hfits. pose proof (numbered_ok _ (co_blocks _ Hok)) as Hrows. destruct (rp_stored _ _ Hrep) as [Hst _ _]. split.
  - by apply db_tip_of.
  - intros i b. by apply table_get.
  - intros p limit. by apply history_rows_exact.
  - intros n. apply height_of_exact; [done|done|lia].
  - intros n x Hx. by eapply db_txid_exact.
  - intros p op. apply db_utxo_exact; [by apply represents_utxos|by apply chain_ok_utxos].
Qed.

(** [utxos_largest] lists at most [max] of a program's unspent outputs
    that [keep] lets through, no other one is worth more than one it lists,
    it leaves one out only when the list is full, and the count and the sum of
    what it leaves out are right (modulo 2^64); [utxos_of] gives all of them,
    or says there are too many. *)
Theorem utxos_largest_exact (kv : Kv) chain op_leb p max keep :
  represents kv chain → chain_ok chain → length p = 20%nat →
  ∃ out listed dropped, (∀ op v, outpoint_ok op → (op, v) ∈ out ↔ utxo_set (numbered chain) !! utxo_key p op = Some v) ∧
    NoDup out.*1 ∧ utxos_of kv p max = (if Nat.leb (length out) max then Ok out else Err TooHeavy) ∧
    utxos_largest op_leb kv p max keep = Ok (listed, unlisted {| un_count := 0; un_value := 0 |} dropped) ∧
    listed ++ dropped ≡ₚ filter (λ x, keep (fst x) = true) out ∧ (length listed ≤ max)%nat ∧
    (dropped ≠ [] → length listed = max) ∧
    ∀ d x, d ∈ dropped → x ∈ listed → u_value (snd d) ≤ u_value (snd x).
Proof.
  intros Hrep Hok Hp.
  destruct (program_listing kv (utxo_set (numbered chain)) p) as (out & Hout & Hnd & Hin); [by apply represents_utxos|by apply chain_ok_utxos|done|].
  destruct (largest_loop_spec op_leb max keep _ _ Hout [] {| un_count := 0; un_value := 0 |})
    as (listed & dropped & Hrun & Hperm & Hlen & Hfull & Hbest & _); [constructor|simpl; lia|by repeat split|].
  exists out, listed, dropped. split_and!; try done. apply (utxo_rows_listing _ _ max 0 Hout). lia.
Qed.

End database.

(** ** Fetching *)
Section fetching.
Context `{BitcoinLib, BlockLib, BlockSource}.
Context (fmt : HeaderFormat) (workers : nat) (from to : Z).

(** C18. However the threads of a fetch run and whatever the node answers,
    what has been handed on is one item for each height from [from] on, in
    order and none past [to].  A block at a height is what the bytes hold that
    the node gave for the hash at that height's place in its answer to a
    lookup, read at that height and under that hash; an error names that height
    (and that hash), comes last, and after it nothing. *)
Theorem fetch_in_order s : fetched fmt workers from to s → in_order fmt from to (fe_out s).
Proof. intros Hs. apply (fi_out _ _ _ _ (fetched_inv _ _ _ _ _ Hs)). Qed.

(** With at least one worker and a consumer that keeps taking blocks,
    a fetch comes to its end: no run of its threads is longer than
    [work_left] of its start, none gets stuck before [deliver] has ended, and
    then the whole range has been handed on, or all that comes before an
    error and that error. *)
Theorem fetch_completes n s :
  (0 < workers)%nat → nsteps (work_step fmt workers to) n (fetch_init from to) s →
  (n ≤ work_left to (fetch_init from to))%nat ∧
  (fe_deliver s ≠ DEnd → ∃ s', work_step fmt workers to s s') ∧
  (fe_deliver s = DEnd → in_order fmt from to (fe_out s) ∧ complete from to (fe_out s)).
Proof.
  intros Hw Hn. pose proof (work_steps_bounded _ _ _ _ _ _ Hn).
  destruct (work_reach fmt workers from to s) as (Hinv & Hl & Hend); [by eapply rtc_nsteps_2|].
  split_and!; [lia|intros Hd; by eapply pipeline_progress, Hd; [..|apply Hend]|].
  intros Hd. pose proof (en_deliver _ _ _ Hend) as Hdone. rewrite Hd in Hdone. split; [apply Hinv|by apply Hend].
Qed.

End fetching.

(** ** Runs *)
Section index_runs.
Context `{NodeLaws}.
Context (cfg : SyncConfig).

(** C13. In every run of the index (passes of the syncer against a node that
    may answer anything its blocks allow, writes of other threads and flushes
    in between, crashes and restarts), the database represents at every moment
    one chain of blocks the node served, each on top of the one before, and so
    does the published table, which may be a step behind. *)
Theorem index_always_represents p w :
  index_reach cfg p w →
  (∃ chain, good cfg chain ∧ represents (iw_db w) chain) ∧ (∃ chain, good cfg chain ∧ table_for (iw_table w) chain).
Proof.
  intros [[Hi Ht] _]%index_reach_ok. split; [|done]. destruct (di_prefix _ _ _ Hi (length (iw_pending w))) as (c & Hc & Hr).
  rewrite firstn_all in Hr. by exists c.
Qed.

(** C14. Wherever the process dies, whatever it lost (every batch written
    without the log since the last flush, and any of those written to the log
    without a sync), what is left on disk represents a chain of blocks the node
    served, and the index starts again on it: the check of the table against
    the tip passes. *)
Theorem index_survives_crash p w l :
  index_reach cfg p w → survives (iw_pending w) l →
  ∃ chain t, good cfg chain ∧ represents (replay (iw_flushed w) l) chain ∧
    load_table (replay (iw_flushed w) l) = Ok t ∧ table_for t chain.
Proof.
  intros [[Hi _] _]%index_reach_ok Hl. destruct (recovered cfg 0 w l Hi Hl) as (c & Hc & Hr).
  destruct (load_table_exact cfg _ c Hr Hc) as (t & Ht & Hfor). by exists c, t.
Qed.

Definition reached (w : IndexWorld) : Prop := ∃ p, index_reach cfg p w.

Lemma reached_same_tip w1 w2 :
  reached w1 → reached w2 → db_tip (iw_db w2) = Ok ((λ x, (fst x, br_hash (snd x))) <$> bt_tip (iw_table w1)) →
  ∃ chain, good cfg chain ∧ table_for (iw_table w1) chain ∧ represents (iw_db w2) chain.
Proof.
  intros [p1 [[_ (c1 & Hc1 & Ht1)] _]%index_reach_ok] [p2 [[Hi _] _]%index_reach_ok] Htip.
  destruct (di_prefix _ _ _ Hi (length (iw_pending w2))) as (c2 & Hc2 & Hr2). rewrite firstn_all in Hr2. fold (iw_db w2) in Hr2.
  rewrite (db_tip_of _ c2), (table_tip_pair cfg _ c1) in Htip by (try done; by eapply good_ok). injection Htip as Htip.
  assert (c2 = c1) as -> by by apply (good_same_tip cfg). by exists c1.
Qed.

Lemma db_tip_reached w : reached w → ∃ tip, db_tip (iw_db w) = Ok tip.
Proof.
  intros [p [[Hi _] _]%index_reach_ok]. destruct (di_prefix _ _ _ Hi (length (iw_pending w))) as (c & Hc & Hr).
  rewrite firstn_all in Hr. fold (iw_db w) in Hr. exists (tip_pair c). apply db_tip_of; [done|by eapply good_ok].
Qed.

(** C15. A reader takes the table and a snapshot one after the other, while
    the syncer goes on.  Whatever moments of a run it takes them at, if [view]
    hands out a pair they are of one and the same chain; otherwise it says to
    try again, after at most [VIEW_TRIES] rounds. *)
Theorem view_reads_one_chain w :
  rg (λ _ w', reached w') eq view w (λ r _,
    match r with
    | Ok (t, kv) => ∃ chain, good cfg chain ∧ answers t kv chain
    | Err e => e = "index is between states (writer has not published); try again"
    | Panic => False
    end).
Proof.
  unfold view. revert w. induction VIEW_TRIES as [|tries IH]; intros w; [done|]. cbn [view_loop]. intros w1 Hw1. split; [done|].
  intros w2 Hw2. split; [done|]. destruct (db_tip_reached w2 Hw2) as [tip Etip]. rewrite Etip.
  case_bool_decide as Hsame; [|apply IH]. subst tip. destruct (reached_same_tip w1 w2 Hw1 Hw2 Etip) as (c & Hc & Ht & Hr).
  exists c. split; [done|]. apply answers_exact; [done|done|by eapply good_ok|by eapply good_fits].
Qed.

(** C16. Once the node keeps to a chain [N] that goes on from the index's, or
    branches off it and has blocks of its own (a chain that only takes blocks
    off the end is not one), one pass of the syncer brings the index to it, in
    the middle of flushes and of the writes of other threads: the blocks that
    are not on [N] are taken off, as long as undo records are kept for them,
    from a height that is at least [MAX_REORG_DEPTH] below the end of [N] (so
    [N] is no shorter than the chain the index last pruned its records for),
    and the rest of [N] is applied; no pass fails, and afterwards undo records are
    there again for the last [MAX_REORG_DEPTH] blocks. *)
Theorem index_catches_up since N z D0 w pre old new :
  stop_height cfg = None → steady cfg since N → last N = Some z → N = pre ++ new → forks old new → (new = [] → old = []) →
  settled cfg 0 w (pre ++ old) → (since ≤ iw_asked w)%nat →
  kept w D0 (pre ++ old) → Forall (λ b, D0 ≤ b_height b) old → D0 ≤ saturating_sub (b_height z) MAX_REORG_DEPTH →
  rg (rtc env_step) (moves cfg since) (run_pass cfg) w (λ r w',
    r = Ok Again ∧ represents (iw_db w') N ∧ table_for (iw_table w') N ∧
    kept w' (saturating_sub (b_height z) MAX_REORG_DEPTH) N).
Proof.
  intros Hstop HN Hz HNeq Hfork Hbehind Hs Hq Hk Hdep HD0.
  eapply rg_mono; [|apply (pass_total cfg since N z D0 w pre old new); try done; by apply settled_since].
  intros r w' (-> & [Hh Ht] & Hk'). split_and!; [done|apply Hh|done|done].
Qed.

End index_runs.
