(* ===== verification/IndexMempool.v ===== *)
(** The mempool overlay of the index ([fortis-index/src/mempool.rs]): the rows
    of the node's pending transactions, refreshed by fetching only what is new,
    and the view that requests read.

    Hash maps are finite maps; where the code goes through one, the order is
    that of [map_to_list]. *)

From S2P Require Import Prelude Json Bitcoin IndexKeys Index IndexRead.

#[export] Instance OutPoint_countable : Countable OutPoint.
Proof. by refine (inj_countable' (λ o, (txid o, vout o)) (λ '(t, v), {| txid := t; vout := v |}) _); intros []. Defined.

Definition RAW_BATCH : nat := 500.

(** ** The view *)
Record MempoolView : Type := {
  mv_txs : gmap bytes TxRows;
  mv_by_program : gmap bytes (list bytes);
  mv_by_scripthash : gmap bytes bytes;
  mv_spent : gset OutPoint;
  mv_outputs : gmap OutPoint (bytes * Z);
}.
Definition empty_view : MempoolView := {|
  mv_txs := ∅; mv_by_program := ∅; mv_by_scripthash := ∅; mv_spent := ∅; mv_outputs := ∅ |}.

Definition funded_at (id : bytes) (f : Funded) : OutPoint := {| txid := id; vout := f_vout f |}.

Section view.
Context `{BitcoinLib}.

Definition touched (r : TxRows) : gset bytes :=
  list_to_set (map f_program (r_funded r)) ∪ list_to_set (map s_program (r_spent r)).

Definition touch (id : bytes) (v : MempoolView) (p : bytes) : MempoolView := {|
  mv_txs := mv_txs v;
  mv_by_program := <[p := default [] (mv_by_program v !! p) ++ [id]]> (mv_by_program v);
  mv_by_scripthash := match mv_by_program v !! p with
                      | Some _ => mv_by_scripthash v
                      | None => <[p2wpkh_scripthash p := p]> (mv_by_scripthash v)
                      end;
  mv_spent := mv_spent v; mv_outputs := mv_outputs v |}.

Definition add_tx (v : MempoolView) (x : bytes * TxRows) : MempoolView :=
  let '(id, r) := x in
  foldl (touch id) {|
    mv_txs := mv_txs v; mv_by_program := mv_by_program v; mv_by_scripthash := mv_by_scripthash v;
    mv_spent := mv_spent v ∪ list_to_set (map s_prevout (r_spent r));
    mv_outputs := foldl (λ m f, <[funded_at id f := (f_program f, f_value f)]> m) (mv_outputs v) (r_funded r) |}
    (elements (touched r)).

Definition build (txs : gmap bytes TxRows) : MempoolView :=
  let v := foldl add_tx empty_view (map_to_list txs) in
  {| mv_txs := txs; mv_by_program := sort_by bytes_leb <$> mv_by_program v; mv_by_scripthash := mv_by_scripthash v;
     mv_spent := mv_spent v; mv_outputs := mv_outputs v |}.

Definition mempool_len (v : MempoolView) : nat := size (mv_txs v).
Definition program_for_scripthash (v : MempoolView) (sh : bytes) : option bytes := mv_by_scripthash v !! sh.
Definition txids_for (v : MempoolView) (p : bytes) : list bytes := default [] (mv_by_program v !! p).

(** Pairs are ordered field by field. *)
Definition utxo_leb (a b : OutPoint * Z) : bool :=
  bytes_ltb (txid (fst a)) (txid (fst b)) ||
  (bool_decide (txid (fst a) = txid (fst b)) &&
   ((vout (fst a) <? vout (fst b)) || ((vout (fst a) =? vout (fst b)) && (snd a <=? snd b)))).

(** A transaction that is listed but not held is a panic. *)
Definition utxos_for {E} (v : MempoolView) (p : bytes) : result E (list (OutPoint * Z)) :=
  rows ← collect (λ id, r ← expect (mv_txs v !! id); mret (id, r)) (txids_for v p);
  let coins := concat (map (λ x : bytes * TxRows, map (λ f, (funded_at (fst x) f, f_value f))
    (filter (λ f, f_program f = p) (r_funded (snd x)))) rows) in
  mret (sort_by utxo_leb (filter (λ c, fst c ∉ mv_spent v) coins)).

Definition is_spent (v : MempoolView) (op : OutPoint) : bool := bool_decide (op ∈ mv_spent v).
Definition output_at (v : MempoolView) (op : OutPoint) : option (bytes * Z) := mv_outputs v !! op.
Definition mempool_contains (v : MempoolView) (id : bytes) : bool := bool_decide (is_Some (mv_txs v !! id)).
End view.

(** ** Refreshing *)
Record MempoolTracker : Type := {
  mt_rows : gmap bytes TxRows;
  mt_nothing : gset bytes;
  mt_seq : option Z;
}.

(** [slice::chunks]; [n] is not 0, so the length is fuel enough. *)
Fixpoint chunks {A} (fuel n : nat) (l : list A) : list (list A) :=
  match fuel, l with
  | S fuel, _ :: _ => take n l :: chunks fuel n (drop n l)
  | _, _ => []
  end.

Section refresh.
Context `{BitcoinLib, BlockLib}.

Definition store_raw (t : MempoolTracker) (x : bytes * option bytes) : MempoolTracker :=
  match x with
  | (id, Some raw) =>
      match consensus_deserialize raw with
      | inl _ => t
      | inr tx =>
          match tx_rows tx with
          | Some r => {| mt_rows := <[id := r]> (mt_rows t); mt_nothing := mt_nothing t; mt_seq := mt_seq t |}
          | None => {| mt_rows := mt_rows t; mt_nothing := {[id]} ∪ mt_nothing t; mt_seq := mt_seq t |}
          end
      end
  | (_, None) => t
  end.

(** The batches, the [k]th answered by [raw_txs k]; what was stored before a
    batch fails stays. *)
Fixpoint fetch_all {E} (raw_txs : nat → list bytes → result E (list (option bytes))) (k : nat) (cs : list (list bytes))
    (t : MempoolTracker) : MempoolTracker * result E unit :=
  match cs with
  | [] => (t, Ok tt)
  | c :: cs =>
      match raw_txs k c with
      | Ok raws => fetch_all raw_txs (S k) cs (foldl store_raw t (zip c raws))
      | Err e => (t, Err e)
      | Panic => (t, Panic)
      end
  end.

Definition refresh {E} (snapshot : result E (Z * list bytes)) (raw_txs : nat → list bytes → result E (list (option bytes)))
    (t : MempoolTracker) : MempoolTracker * result E (option MempoolView) :=
  match snapshot with
  | Err e => (t, Err e)
  | Panic => (t, Panic)
  | Ok (seq, ids) =>
      if decide (mt_seq t = Some seq) then (t, Ok None)
      else
        let kept := {| mt_rows := filter (λ x, fst x ∈ ids) (mt_rows t); mt_nothing := filter (λ id, id ∈ ids) (mt_nothing t);
                       mt_seq := mt_seq t |} in
        let new := filter (λ id, mt_rows kept !! id = None ∧ id ∉ mt_nothing kept) ids in
        match fetch_all raw_txs 0 (chunks (length new) RAW_BATCH new) kept with
        | (t', Ok _) => ({| mt_rows := mt_rows t'; mt_nothing := mt_nothing t'; mt_seq := Some seq |}, Ok (Some (build (mt_rows t'))))
        | (t', Err e) => (t', Err e)
        | (t', Panic) => (t', Panic)
        end
  end.
End refresh.
