(* ===== verification/IndexPending.v ===== *)
(** The mempool view shows exactly the pending coins of the transactions the
    tracker holds, and the tracker holds the node's mempool ([IndexMempool.v]). *)

From S2P Require Import Prelude Json Bitcoin IndexKeys Index IndexRead IndexMempool.

(** ** Building the view *)
Section build.
Context `{BitcoinLib}.

Lemma touch_by_program id l v p x :
  x ∈ default [] (mv_by_program (foldl (touch id) v l) !! p) ↔ x ∈ default [] (mv_by_program v !! p) ∨ (x = id ∧ p ∈ l).
Proof.
  revert v. induction l as [|q l IH]; intros v; cbn [foldl]; [rewrite elem_of_nil; tauto|].
  rewrite IH. cbn [touch mv_by_program]. rewrite elem_of_cons. destruct (decide (p = q)) as [->|Hne].
  - rewrite lookup_insert_eq. simpl. rewrite elem_of_app, list_elem_of_singleton. tauto.
  - rewrite lookup_insert_ne by done. naive_solver.
Qed.

Lemma touch_other id l v : mv_spent (foldl (touch id) v l) = mv_spent v ∧ mv_txs (foldl (touch id) v l) = mv_txs v.
Proof. revert v. induction l as [|q l IH]; intros v; cbn [foldl]; [done|]. by rewrite !(proj1 (IH _)), (proj2 (IH _)). Qed.

Lemma touch_nodup id l v p :
  NoDup l → NoDup (default [] (mv_by_program v !! p)) → id ∉ default [] (mv_by_program v !! p) →
  NoDup (default [] (mv_by_program (foldl (touch id) v l) !! p)).
Proof.
  intros Hl. revert v. induction Hl as [|q l Hq Hl IH]; intros v Hv Hid; cbn [foldl]; [done|].
  destruct (decide (p = q)) as [->|Hne].
  - assert (Hnot : ∀ v, mv_by_program (foldl (touch id) v l) !! q = mv_by_program v !! q).
    { clear -Hq. induction l as [|x l IH]; intros v; [done|]. apply not_elem_of_cons in Hq as [Hne Hq].
      cbn [foldl]. rewrite IH by done. cbn [touch mv_by_program]. by rewrite lookup_insert_ne. }
    rewrite Hnot. cbn [touch mv_by_program]. rewrite lookup_insert_eq. simpl. apply NoDup_app. split; [done|].
    split; [|apply NoDup_singleton]. by intros x Hx ->%list_elem_of_singleton.
  - apply IH; cbn [touch mv_by_program]; by rewrite lookup_insert_ne.
Qed.

Lemma add_spent v id r op : op ∈ mv_spent (add_tx v (id, r)) ↔ op ∈ mv_spent v ∨ op ∈ map s_prevout (r_spent r).
Proof. cbn [add_tx]. rewrite (proj1 (touch_other _ _ _)). simpl. by rewrite elem_of_union, elem_of_list_to_set. Qed.

Lemma add_program v id r p x :
  x ∈ default [] (mv_by_program (add_tx v (id, r)) !! p) ↔ x ∈ default [] (mv_by_program v !! p) ∨ (x = id ∧ p ∈ touched r).
Proof. cbn [add_tx]. rewrite touch_by_program. simpl. by rewrite elem_of_elements. Qed.

Lemma pair_in_cons {A B} (P : A → B → Prop) a b (l : list (A * B)) :
  (∃ x y, (x, y) ∈ (a, b) :: l ∧ P x y) ↔ P a b ∨ ∃ x y, (x, y) ∈ l ∧ P x y.
Proof.
  split.
  - intros (x & y & [[= -> ->]|Hin]%elem_of_cons & HP); [by left|right; eauto].
  - intros [HP|(x & y & Hin & HP)]; [exists a, b; split; [left|]|exists x, y; split; [right|]]; done.
Qed.

Lemma foldl_view l v :
  NoDup l.*1 → (∀ p, NoDup (default [] (mv_by_program v !! p)) ∧ ∀ x, x ∈ default [] (mv_by_program v !! p) → x ∉ l.*1) →
  let v' := foldl add_tx v l in
  (∀ op, op ∈ mv_spent v' ↔ op ∈ mv_spent v ∨ ∃ id r, (id, r) ∈ l ∧ op ∈ map s_prevout (r_spent r)) ∧
  ∀ p, NoDup (default [] (mv_by_program v' !! p)) ∧
    ∀ x, x ∈ default [] (mv_by_program v' !! p) ↔ x ∈ default [] (mv_by_program v !! p) ∨ ∃ r, (x, r) ∈ l ∧ p ∈ touched r.
Proof.
  revert v. induction l as [|[id r] l IH]; intros v Hnd Hv; cbn [foldl].
  { split; [intros op; split; [by left|intros [?|(? & ? & ?%elem_of_nil & _)]; done]|].
    intros p. split; [apply Hv|]. intros x. split; [by left|]. by intros [?|(? & ?%elem_of_nil & _)]. }
  apply NoDup_cons in Hnd as [Hid Hnd]. destruct (IH (add_tx v (id, r))) as [Hs Hp]; [done| |].
  { intros p. split.
    - cbn [add_tx]. apply touch_nodup; [apply NoDup_elements|apply Hv|]. intros Hin%Hv. apply Hin. by left.
    - intros x [Hx|[-> _]]%add_program; [|done]. apply Hv in Hx. contradict Hx. by right. }
  split.
  - intros op. rewrite Hs, add_spent, pair_in_cons. tauto.
  - intros p. split; [apply Hp|]. intros x. rewrite (proj2 (Hp p)), add_program.
    assert (Hx : (∃ r', (x, r') ∈ (id, r) :: l ∧ p ∈ touched r') ↔ (x = id ∧ p ∈ touched r) ∨ ∃ r', (x, r') ∈ l ∧ p ∈ touched r').
    { setoid_rewrite elem_of_cons. split; [intros (r' & [[= -> ->]|?] & ?); eauto|intros [[-> ?]|(r' & ? & ?)]; eauto]. }
    rewrite Hx. tauto.
Qed.

Lemma build_spent txs op : op ∈ mv_spent (build txs) ↔ ∃ id r, txs !! id = Some r ∧ op ∈ map s_prevout (r_spent r).
Proof.
  destruct (foldl_view (map_to_list txs) empty_view (NoDup_fst_map_to_list txs)) as [Hs _].
  { intros p. simpl. rewrite lookup_empty. split; [constructor|]. by intros x ?%elem_of_nil. }
  unfold build. cbn [mv_spent]. rewrite Hs. setoid_rewrite elem_of_map_to_list. simpl. rewrite elem_of_empty. naive_solver.
Qed.

Lemma build_program txs p : NoDup (txids_for (build txs) p) ∧
  ∀ x, x ∈ txids_for (build txs) p ↔ ∃ r, txs !! x = Some r ∧ p ∈ touched r.
Proof.
  destruct (foldl_view (map_to_list txs) empty_view (NoDup_fst_map_to_list txs)) as [_ Hp].
  { intros q. simpl. rewrite lookup_empty. split; [constructor|]. by intros x ?%elem_of_nil. }
  specialize (Hp p) as [Hnd Hin]. unfold txids_for, build. cbn [mv_by_program]. rewrite lookup_fmap.
  set (o := mv_by_program (foldl add_tx empty_view (map_to_list txs)) !! p) in *.
  assert (Ho : default [] (sort_by bytes_leb <$> o) ≡ₚ default [] o) by (destruct o; simpl; [apply sort_by_Permutation|done]).
  rewrite Ho. split; [done|]. intros x. rewrite Ho, Hin. setoid_rewrite elem_of_map_to_list. simpl.
  rewrite lookup_empty. simpl. rewrite elem_of_nil. naive_solver.
Qed.

Lemma collect_all {E A B} (f : A → result E B) l : (∀ a, a ∈ l → ∃ b, f a = Ok b) → ∃ bs, collect f l = Ok bs ∧ Forall2 (λ a b, f a = Ok b) l bs.
Proof.
  induction l as [|a l IH]; intros Hf; [by exists []|]. destruct (Hf a) as [b Hb]; [by left|].
  destruct IH as (bs & Hbs & Hall); [intros; apply Hf; by right|]. exists (b :: bs). cbn [collect]. rewrite Hb. cbn. rewrite Hbs.
  split; [done|by constructor].
Qed.

(** The coins of a program in rows of transactions. *)
Definition coins_of (p : bytes) (x : bytes * TxRows) : list (OutPoint * Z) :=
  map (λ f, (funded_at (fst x) f, f_value f)) (filter (λ f, f_program f = p) (r_funded (snd x))).

Lemma elem_of_coins p x op a :
  (op, a) ∈ coins_of p x ↔ txid op = fst x ∧ ∃ f, f ∈ r_funded (snd x) ∧ f_program f = p ∧ f_vout f = vout op ∧ f_value f = a.
Proof.
  unfold coins_of. rewrite list_elem_of_fmap. setoid_rewrite list_elem_of_filter. split.
  - intros (f & [= -> ->] & Hp & Hf). eauto 10.
  - intros (Ht & f & Hf & Hp & Hv & <-). exists f. split; [|done]. unfold funded_at. destruct op. simpl in *. by subst.
Qed.

Lemma NoDup_coins p l : NoDup l.*1 → Forall (λ x, NoDup (map f_vout (r_funded (snd x)))) l → NoDup (concat (map (coins_of p) l)).*1.
Proof.
  intros Hnd Hl. induction Hl as [|[id r] l Hr _ IH]; [constructor|]. apply NoDup_cons in Hnd as [Hid Hnd].
  cbn [map concat]. rewrite fmap_app. apply NoDup_app. split; [|split; [|by apply IH]].
  - unfold coins_of. rewrite <-list_fmap_compose. simpl in Hr. cbn [fst snd]. clear -Hr.
    induction (r_funded r) as [|f fs IH]; [constructor|]. apply NoDup_cons in Hr as [Hf Hr]. rewrite filter_cons. case_decide; [|by apply IH].
    cbn [fmap list_fmap]. constructor; [|by apply IH]. intros (g & [= E] & [_ Hg]%list_elem_of_filter)%list_elem_of_fmap.
    apply Hf. rewrite E. by apply list_elem_of_fmap_2.
  - intros op ([o a] & -> & Hin)%list_elem_of_fmap ([o' a'] & E & Hin')%list_elem_of_fmap. simpl in E. subst o'.
    apply elem_of_coins in Hin as [Ht _]. apply list_elem_of_In, in_concat in Hin' as (cs & (x & <- & Hx)%in_map_iff & Hcs).
    apply list_elem_of_In, elem_of_coins in Hcs as [Ht' _]. apply list_elem_of_In in Hx.
    apply Hid. simpl in Ht. rewrite <-Ht, Ht'. exact (list_elem_of_fmap_2 fst _ _ Hx).
Qed.

Lemma rows_found {E : Type} (txs : gmap bytes TxRows) ids rows :
  Forall2 (λ id x, (r ← expect (E := E) (txs !! id); mret (id, r)) = Ok x) ids rows →
  rows.*1 = ids ∧ ∀ x, x ∈ rows ↔ fst x ∈ ids ∧ txs !! fst x = Some (snd x).
Proof.
  induction 1 as [|id x ids rows Hx _ [IH1 IH2]].
  { split; [done|]. intros x. simpl. rewrite !elem_of_nil. tauto. }
  apply bind_Ok in Hx as (r & Hr%expect_Ok & [= <-]). split; [by rewrite fmap_cons, IH1|].
  intros [i q]. rewrite !elem_of_cons, IH2. simpl. split; [naive_solver|]. intros [[->|Hi] Hq]; [left; congruence|by right].
Qed.

(** The answer to a request for the coins of a program. *)
Lemma utxos_for_spec {E : Type} txs p :
  map_Forall (λ _ r, NoDup (map f_vout (r_funded r))) txs →
  ∃ l, @utxos_for E (build txs) p = Ok l ∧ NoDup l.*1 ∧
    ∀ op a, (op, a) ∈ l ↔ (∃ r f, txs !! txid op = Some r ∧ f ∈ r_funded r ∧ f_program f = p ∧ f_vout f = vout op ∧ f_value f = a) ∧
      op ∉ mv_spent (build txs).
Proof.
  intros Hvout. destruct (build_program txs p) as [Hnd Hids].
  destruct (collect_all (E := E) (λ id, r ← expect (mv_txs (build txs) !! id); mret (id, r)) (txids_for (build txs) p)) as (rows & Hrows & Hall).
  { intros id (r & Hr & _)%Hids. cbn [build mv_txs]. rewrite Hr. by eexists. }
  cbn [build mv_txs] in Hall. destruct (rows_found txs _ _ Hall) as [E1 Hin].
  unfold utxos_for. rewrite Hrows. cbn [mbind result_bind]. eexists. split; [reflexivity|].
  change (concat _) with (concat (map (coins_of p) rows)). split.
  - rewrite sort_by_Permutation. eapply sublist_NoDup; [|apply fmap_sublist, sublist_filter].
    apply NoDup_coins; [by rewrite E1|]. apply Forall_forall. intros [id r] [_ Hr]%Hin. simpl in *. by eapply Hvout.
  - intros op a. rewrite sort_by_Permutation, list_elem_of_filter. cbn [fst].
    assert (Hc : (op, a) ∈ concat (map (coins_of p) rows) ↔ ∃ x, x ∈ rows ∧ (op, a) ∈ coins_of p x).
    { rewrite list_elem_of_In, in_concat. setoid_rewrite in_map_iff. setoid_rewrite <-list_elem_of_In. naive_solver. }
    rewrite Hc. setoid_rewrite Hin. setoid_rewrite elem_of_coins. split.
    + intros (Hs & [id r] & [_ Hr] & Ht & f & Hf). simpl in *. subst id. eauto 10.
    + intros ((r & f & Hr & Hf & Hp & Hf') & Hs). split; [done|]. exists (txid op, r). simpl. split; [|eauto].
      split; [|done]. apply Hids. exists r. split; [done|]. unfold touched. apply elem_of_union_l, elem_of_list_to_set.
      rewrite <-Hp. by apply list_elem_of_fmap_2.
Qed.
End build.

(** ** Refreshing *)
Lemma concat_chunks {A} n fuel (l : list A) : (0 < n)%nat → (length l ≤ fuel)%nat → concat (chunks fuel n l) = l.
Proof.
  intros Hn. revert l. induction fuel as [|fuel IH]; intros [|a l] Hl; simpl in *; try done; [lia|].
  destruct n as [|n]; [lia|]. cbn [take drop]. rewrite IH; [by rewrite <-app_comm_cons, take_drop|]. rewrite length_drop. lia.
Qed.

Section refresh.
Context `{BitcoinLib, BlockLib}.

(** [tx_of]: the transaction with an id.  The node tx_answer a request for a
    transaction with that one or not at all. *)
Variable tx_of : bytes → Transaction.
Definition tx_answer (id : bytes) (o : option bytes) : Prop :=
  match o with Some b => consensus_deserialize b = inr (tx_of id) | None => True end.
Definition node_honest {E} (raw_txs : nat → list bytes → result E (list (option bytes))) : Prop :=
  ∀ k c raws, raw_txs k c = Ok raws → Forall2 tx_answer c raws.

(** The node was asked for [id] and no longer had it. *)
Definition left_mempool {E} (raw_txs : nat → list bytes → result E (list (option bytes))) (id : bytes) : Prop :=
  ∃ k c raws i, raw_txs k c = Ok raws ∧ c !! i = Some id ∧ raws !! i = Some None.

Record tracker_ok (t : MempoolTracker) : Prop := {
  tk_rows id r : mt_rows t !! id = Some r → tx_rows (tx_of id) = Some r;
  tk_nothing id : id ∈ mt_nothing t → tx_rows (tx_of id) = None;
}.
Definition held (t : MempoolTracker) (id : bytes) : Prop := is_Some (mt_rows t !! id) ∨ id ∈ mt_nothing t.

Lemma held_dec t id : held t id ∨ ¬ held t id.
Proof. unfold held. destruct (mt_rows t !! id); [left; left; by eexists|]. destruct (decide (id ∈ mt_nothing t)); [by left; right|right]. by intros [[? ?]|?]. Qed.

Lemma store_ok t id o : tx_answer id o → tracker_ok t →
  tracker_ok (store_raw t (id, o)) ∧ (∀ i, held (store_raw t (id, o)) i ↔ held t i ∨ (i = id ∧ o ≠ None)).
Proof.
  intros Ha [Hr Hn]. destruct o as [b|]; simpl in *; [|split; [by split|tauto]]. rewrite Ha.
  destruct (tx_rows (tx_of id)) as [r|] eqn:E; (split; [split|]); simpl; unfold held; simpl.
  - intros i r'. destruct (decide (i = id)) as [->|]; [rewrite lookup_insert_eq; by intros [= <-]|].
    rewrite lookup_insert_ne by done. apply Hr.
  - done.
  - intros i. destruct (decide (i = id)) as [->|Hne]; [rewrite lookup_insert_eq|rewrite lookup_insert_ne by done; tauto].
    split; [by right|]. left. by eexists.
  - done.
  - intros i [->%elem_of_singleton|?]%elem_of_union; [done|by apply Hn].
  - intros i. rewrite elem_of_union, elem_of_singleton. naive_solver.
Qed.

Lemma store_all c raws t : Forall2 tx_answer c raws → tracker_ok t →
  let t' := foldl store_raw t (zip c raws) in
  tracker_ok t' ∧ (∀ i, held t i → held t' i) ∧ (∀ i, held t' i → held t i ∨ i ∈ c) ∧
  ∀ k i, c !! k = Some i → held t' i ∨ raws !! k = Some None.
Proof.
  intros Hall. revert t. induction Hall as [|id o c raws Ha _ IH]; intros t Ht; cbn [zip zip_with foldl].
  { split; [done|]. split; [done|]. split; [by left|done]. }
  destruct (store_ok t id o Ha Ht) as [Ht1 Hheld]. destruct (IH _ Ht1) as (Ht' & Hkeep & Hfrom & Hgot).
  split; [done|]. split; [|split].
  - intros i Hi. apply Hkeep, Hheld. by left.
  - intros i Hi. rewrite elem_of_cons. apply Hfrom in Hi as [Hi|]; [|tauto]. apply Hheld in Hi as [?|[-> _]]; tauto.
  - intros [|k] i Hk; [|by apply Hgot]. simpl in Hk. injection Hk as <-. destruct o; [left|by right]. apply Hkeep, Hheld. by right.
Qed.

Lemma fetch_all_ok {E} (raw_txs : nat → list bytes → result E (list (option bytes))) cs k t t' :
  node_honest raw_txs → tracker_ok t → fetch_all raw_txs k cs t = (t', Ok tt) →
  tracker_ok t' ∧ (∀ i, held t i → held t' i) ∧ (∀ i, held t' i → held t i ∨ i ∈ concat cs) ∧
  ∀ i, i ∈ concat cs → held t' i ∨ left_mempool raw_txs i.
Proof.
  intros Hh. revert k t. induction cs as [|c cs IH]; intros k t Ht Hf; cbn [fetch_all] in Hf.
  { injection Hf as <-. split; [done|]. split; [done|]. split; [by left|]. by intros i ?%elem_of_nil. }
  destruct (raw_txs k c) as [raws|e|] eqn:Er; [|done..].
  destruct (store_all c raws t (Hh _ _ _ Er) Ht) as (Ht1 & Hk1 & Hf1 & Hg1).
  destruct (IH _ _ Ht1 Hf) as (Ht' & Hk2 & Hf2 & Hg2). split; [done|]. cbn [concat]. setoid_rewrite elem_of_app.
  split; [by auto|]. split.
  - intros i [Hi|Hi]%Hf2; [|tauto]. apply Hf1 in Hi. tauto.
  - intros i [Hi|Hi]; [|by apply Hg2]. apply list_elem_of_lookup in Hi as [j Hj]. destruct (Hg1 _ _ Hj) as [?|Hn]; [left; auto|right].
    by exists k, c, raws, j.
Qed.

(** An output to [p] of a transaction with an id in [S], not spent by another
    such. *)
Definition pending_coin (S : bytes → Prop) (p : bytes) (op : OutPoint) (a : Z) : Prop :=
  S (txid op) ∧ (∃ f, f ∈ funded_rows (tx_of (txid op)) ∧ f_program f = p ∧ f_vout f = vout op ∧ f_value f = a) ∧
  ¬ ∃ id, S id ∧ op ∈ map s_prevout (spent_rows (tx_of id)).

Lemma tx_rows_cases tx :
  match tx_rows tx with
  | Some r => r_funded r = funded_rows tx ∧ r_spent r = spent_rows tx
  | None => funded_rows tx = [] ∧ spent_rows tx = []
  end.
Proof. unfold tx_rows. by destruct (funded_rows tx), (spent_rows tx). Qed.

Lemma held_funded t id f : tracker_ok t →
  (∃ r, mt_rows t !! id = Some r ∧ f ∈ r_funded r) ↔ held t id ∧ f ∈ funded_rows (tx_of id).
Proof.
  intros [Hr Hn]. pose proof (tx_rows_cases (tx_of id)) as Hc. split.
  - intros (r & E & Hf). split; [left; by eexists|]. rewrite (Hr _ _ E) in Hc. by rewrite <-(proj1 Hc).
  - intros [[[r E]|E%Hn] Hf]; [exists r; split; [done|]; rewrite (Hr _ _ E) in Hc; by rewrite (proj1 Hc)|].
    rewrite E in Hc. rewrite (proj1 Hc) in Hf. by apply elem_of_nil in Hf.
Qed.

Lemma held_spent t op : tracker_ok t →
  (∃ id r, mt_rows t !! id = Some r ∧ op ∈ map s_prevout (r_spent r)) ↔ ∃ id, held t id ∧ op ∈ map s_prevout (spent_rows (tx_of id)).
Proof.
  intros [Hr Hn]. split.
  - intros (id & r & E & Hs). exists id. split; [left; by eexists|]. pose proof (tx_rows_cases (tx_of id)) as Hc.
    rewrite (Hr _ _ E) in Hc. by rewrite <-(proj2 Hc).
  - intros (id & [[r E]|E%Hn] & Hs); pose proof (tx_rows_cases (tx_of id)) as Hc.
    + exists id, r. split; [done|]. rewrite (Hr _ _ E) in Hc. by rewrite (proj2 Hc).
    + rewrite E in Hc. rewrite (proj2 Hc) in Hs. by apply elem_of_nil in Hs.
Qed.

Lemma funded_vouts tx : Z.of_nat (length (output tx)) ≤ 2^32 → NoDup (map f_vout (funded_rows tx)).
Proof.
  intros Hl. unfold funded_rows. set (f := λ i o, if is_p2wpkh (script_pubkey o) then
    Some {| f_program := slice 2 22 (script_pubkey o); f_vout := Z.of_nat i mod 2^32; f_value := value o |} else None).
  assert (Hn : ∀ n os, Z.of_nat (n + length os) ≤ 2^32 →
    NoDup (map f_vout (omap (λ x, x) (imap (λ i o, f (n + i)%nat o) os))) ∧
    Forall (λ v, Z.of_nat n ≤ v) (map f_vout (omap (λ x, x) (imap (λ i o, f (n + i)%nat o) os)))).
  { intros n os. revert n. induction os as [|o os IH]; intros n Ho; [by split; constructor|]. cbn [imap].
    destruct (IH (S n)) as [IH1 IH2]; [simpl in *; lia|].
    assert (Ei : imap ((λ i o, f (n + i)%nat o) ∘ S) os = imap (λ i o, f (S n + i)%nat o) os).
    { apply imap_ext. intros i o' _. simpl. by rewrite Nat.add_succ_r. }
    rewrite Ei.
    assert (IH3 : Forall (λ v, Z.of_nat n ≤ v) (map f_vout (omap (λ x, x) (imap (λ i o, f (S n + i)%nat o) os)))).
    { eapply Forall_impl; [exact IH2|]. intros v Hv. simpl in *. lia. }
    cbn [omap list_omap]. rewrite Nat.add_0_r.
    assert (Ef : f n o = None ∨ ∃ x, f n o = Some x ∧ f_vout x = Z.of_nat n).
    { unfold f. destruct (is_p2wpkh _); [right|by left]. eexists. split; [done|]. simpl in *. apply Z.mod_small. lia. }
    destruct Ef as [->|(x & -> & Ex)]; [done|]. cbn [map]. rewrite Ex. split; [constructor; [|done]|constructor; [lia|done]].
    intros Hin. rewrite Forall_forall in IH2. apply IH2 in Hin. lia. }
  by apply (Hn 0%nat (output tx)).
Qed.

(** C19. The mempool view is the node's mempool.  After a refresh the tracker
    holds only transactions the node listed, and all of them but those the node
    no longer had when asked; and for every program the view's coins are
    exactly the unspent outputs of what is held, each once, whatever was
    fetched now and what was kept from earlier. *)
Theorem mempool_view_exact {E : Type} seq ids (raw_txs : nat → list bytes → result E (list (option bytes))) t t' v :
  (∀ id, Z.of_nat (length (output (tx_of id))) ≤ 2^32) →
  node_honest raw_txs → tracker_ok t → refresh (Ok (seq, ids)) raw_txs t = (t', Ok (Some v)) →
  tracker_ok t' ∧ mt_seq t' = Some seq ∧
  (∀ id, held t' id → id ∈ ids) ∧ (∀ id, id ∈ ids → held t' id ∨ left_mempool raw_txs id) ∧
  ∀ p, ∃ l, @utxos_for E v p = Ok l ∧ NoDup l.*1 ∧ ∀ op a, (op, a) ∈ l ↔ pending_coin (held t') p op a.
Proof.
  intros Hsize Hh Ht Hr. unfold refresh in Hr. case_decide; [done|].
  set (kept := {| mt_rows := _; mt_nothing := _; mt_seq := _ |}) in Hr.
  set (new := filter (λ id, mt_rows kept !! id = None ∧ id ∉ mt_nothing kept) ids) in Hr.
  assert (Hkept : tracker_ok kept).
  { destruct Ht as [Htr Htn]. split; simpl; [by intros id r [? _]%map_lookup_filter_Some; auto|by intros id [_ ?]%elem_of_filter; auto]. }
  assert (Hids : ∀ id, held kept id → id ∈ ids).
  { intros id [[r Hk]|Hk]; simpl in Hk; [by apply map_lookup_filter_Some in Hk as [_ ?]|by apply elem_of_filter in Hk as [? _]]. }
  destruct (fetch_all _ _ _ _) as [t1 [[]|e|]] eqn:Ef; [|done..]. injection Hr as <- <-.
  destruct (fetch_all_ok _ _ _ _ _ Hh Hkept Ef) as (Ht1 & Hk1 & Hf1 & Hg1).
  rewrite concat_chunks in Hf1, Hg1 by (unfold RAW_BATCH; lia).
  set (t' := {| mt_rows := mt_rows t1; mt_nothing := mt_nothing t1; mt_seq := Some seq |}).
  assert (Ht' : tracker_ok t') by (by destruct Ht1; split). split; [done|]. split; [done|]. split; [|split].
  - intros id [Hi|[_ Hi]%list_elem_of_filter]%Hf1; [by apply Hids|done].
  - intros id Hid. destruct (held_dec kept id) as [Hi|Hi]; [left; by apply Hk1|]. apply Hg1, list_elem_of_filter. split; [|done].
    unfold held in Hi. destruct (mt_rows kept !! id); [destruct Hi; left; by eexists|]. split; [done|]. intros ?. apply Hi. by right.
  - intros p. destruct (@utxos_for_spec _ E (mt_rows t') p) as (l & El & Hnd & Hl).
    { intros id r Hid. pose proof (tx_rows_cases (tx_of id)) as Hc. rewrite (tk_rows _ Ht' _ _ Hid) in Hc.
      rewrite (proj1 Hc). by apply funded_vouts. }
    exists l. split; [done|]. split; [done|]. intros op a. rewrite Hl, build_spent, (held_spent t' op Ht'). unfold pending_coin.
    setoid_rewrite <-(held_spent t' op Ht'). split.
    + intros ((r & f & Hi & Hf & Hx) & Hs). destruct (proj1 (held_funded t' (txid op) f Ht')) as [Hd Hf']; [eauto|]. eauto 10.
    + intros (Hd & (f & Hf & Hx) & Hs). destruct (proj2 (held_funded t' (txid op) f Ht') (conj Hd Hf)) as (r & Hi & Hf'). eauto 10.
Qed.
End refresh.
