(* ===== verification/IndexSpends.v ===== *)
(** Who spent an output ([fortis-index/src/spends.rs]): the node's own answer,
    what earlier searches learned, or a search of the blocks after the one that
    funded it, a bounded number in each request.

    A lookup is a program of steps on the shared cache and the set of searches
    that are running; each call of the node is a step, answered by its
    number. *)

From S2P Require Import Prelude Json Threads Bitcoin IndexMempool.

Definition MAX_SCAN_BLOCKS : Z := 2016.
Definition SCAN_BUDGET : Z := 50.
Definition MAX_CONCURRENT_SCANS : nat := 2.
Definition CACHE_MAX : nat := Z.to_nat 10_000.

Class SpendNode : Type := {
  sn_tx : nat → bytes → result string (option Value);
  sn_unspent : nat → OutPoint → result string bool;
  known_spender : nat → OutPoint → result string (option bytes);
  height_of : nat → bytes → result string (option Z);
  sn_tip : nat → result string Z;
  sn_block : nat → Z → result string (bytes * list Transaction);
  (* [Display] and parsing of hashes and outpoints *)
  txid_display : bytes → string;
  hash_parse : string → option bytes;
  op_display : OutPoint → string;
}.

Inductive Outspend : Type :=
| Unspent
| OSpent (txid : bytes) (vin : Z) (block : option (bytes * Z)).
#[export] Instance Outspend_eq_dec : EqDecision Outspend.
Proof. solve_decision. Defined.

Definition outspend_json `{SpendNode} (o : Outspend) : Value :=
  match o with
  | Unspent => VObj [("spent", VBool false)]
  | OSpent txid vin block => VObj [("spent", VBool true); ("txid", VStr (txid_display txid)); ("vin", VNum vin);
      ("status", match block with
                 | Some (hash, height) => VObj [("confirmed", VBool true); ("block_height", VNum height); ("block_hash", VStr (txid_display hash))]
                 | None => VObj [("confirmed", VBool false)]
                 end)]
  end.

Inductive OutspendError : Type := UnknownOutput | Pending (s : string) | OutOfRange (s : string) | NodeFailed (s : string).
#[export] Instance OutspendError_eq_dec : EqDecision OutspendError.
Proof. solve_decision. Defined.

Inductive Cached : Type :=
| Spender (txid : bytes)
| Found (o : Outspend)
| Scanned (through : Z) (hash : bytes)
| Exhausted (last : Z).
Definition found_one (c : Cached) : bool := match c with Spender _ | Found _ => true | _ => false end.

(** ** Programs *)
Record SpendWorld : Type := {
  sw_cache : gmap OutPoint Cached;
  sw_scanning : gset OutPoint;
  sw_asked : nat;
}.
Definition Sp (A : Type) : Type := Prog SpendWorld (result OutspendError A).
#[export] Instance Sp_ret : MRet Sp := λ A a, Done (Ok a).
#[export] Instance Sp_bind : MBind Sp := λ A B f m,
  prog_bind m (λ r, match r with Ok a => f a | Err e => Done (Err e) | Panic => Done Panic end).
Definition sp_lift {A} (r : result OutspendError A) : Sp A := Done r.

Definition node_call {A} (f : nat → result string A) : Sp A := atomically (λ w,
  (match f (sw_asked w) with Ok a => Ok a | Err e => Err (NodeFailed e) | Panic => Panic end,
   {| sw_cache := sw_cache w; sw_scanning := sw_scanning w; sw_asked := S (sw_asked w) |})).

Definition insert_cached (op : OutPoint) (c : Cached) (m : gmap OutPoint Cached) : gmap OutPoint Cached :=
  let full := Nat.leb CACHE_MAX (size m) && negb (bool_decide (is_Some (m !! op))) in
  let m := if full
           then let m := filter (λ x, found_one (snd x) = true) m in if Nat.leb CACHE_MAX (size m) then ∅ else m
           else m in
  <[op := c]> m.
Definition remember (op : OutPoint) (c : Cached) : Sp unit := atomically (λ w,
  (Ok tt, {| sw_cache := insert_cached op c (sw_cache w); sw_scanning := sw_scanning w; sw_asked := sw_asked w |})).
Definition recall (op : OutPoint) : Sp (option Cached) := atomically (λ w, (Ok (sw_cache w !! op), w)).

Definition set_scanning (w : SpendWorld) (s : gset OutPoint) : SpendWorld := {|
  sw_cache := sw_cache w; sw_scanning := s; sw_asked := sw_asked w |}.

Section spends.
Context `{BitcoinLib, SpendNode}.

Definition claim_slot (op : OutPoint) : Sp unit := atomically (λ w,
  if bool_decide (op ∈ sw_scanning w) then (Err (Pending (op_display op +:+ " is being searched; ask again shortly")), w)
  else if Nat.leb MAX_CONCURRENT_SCANS (size (sw_scanning w)) then (Err (Pending "too many searches running; ask again shortly"), w)
  else (Ok tt, set_scanning w ({[op]} ∪ sw_scanning w))).
Definition drop_slot (op : OutPoint) : Sp unit := atomically (λ w, (Ok tt, set_scanning w (sw_scanning w ∖ {[op]}))).

(** The index of the first element that passes a test. *)
Definition position {A} (P : A → Prop) `{∀ x, Decision (P x)} (l : list A) : option nat := fst <$> list_find P l.

Definition tx_block (t : Value) : Sp (option (bytes * Z)) :=
  match as_string (vindex "blockhash" t) ≫= hash_parse with
  | Some hash => h ← node_call (λ n, height_of n hash); mret ((λ h, (hash, h)) <$> h)
  | None => mret None
  end.

Definition spent_by (spend : bytes) (op : OutPoint) : Sp Outspend :=
  t ← node_call (λ n, sn_tx n spend);
  t ← sp_lift (ok_or t (Pending ("spender " +:+ txid_display spend +:+ " not found")));
  vin ← sp_lift (ok_or (ins ← as_array (vindex "vin" t);
      position (λ i, as_string (vindex "txid" i) = Some (txid_display (txid op)) ∧ as_u64 (vindex "vout" i) = Some (vout op)) ins)
    (Pending (txid_display spend +:+ " doesn't spend " +:+ op_display op)));
  block ← tx_block t;
  mret (OSpent spend (Z.of_nat vin) block).

(** The first spend of [op] in a block. *)
Definition spend_in (op : OutPoint) (txs : list Transaction) : option (bytes * Z) :=
  '(_, t) ← list_find (λ t, is_Some (position (λ i, previous_output i = op) (input t))) txs;
  i ← position (λ i, previous_output i = op) (input t);
  Some (compute_txid t, Z.of_nat i).

Fixpoint scan (op : OutPoint) (n : nat) (height : Z) : Sp (option Outspend) :=
  match n with
  | O => mret None
  | S n =>
      '(hash, txs) ← node_call (λ k, sn_block k height);
      match spend_in op txs with
      | Some (t, vin) =>
          let found := OSpent t vin (Some (hash, height)) in
          _ ← remember op (Found found);
          mret (Some found)
      | None =>
          _ ← remember op (Scanned height hash);
          scan op n (height + 1)
      end
  end.

(** What earlier lookups learned: an answer, or where to go on from. *)
Definition use_cached (op : OutPoint) (cached : option Cached) : Sp (Outspend + option Z) :=
  match cached with
  | Some (Spender spend) =>
      r ← prog_bind (spent_by spend op) (λ r, Done (Ok r));
      match r with
      | Ok (OSpent t v (Some b)) => _ ← remember op (Found (OSpent t v (Some b))); mret (inl (OSpent t v (Some b)))
      | Panic => Done Panic
      | _ => mret (inr None)
      end
  | Some (Found (OSpent t v (Some (hash, height)))) =>
      h ← node_call (λ n, height_of n hash);
      mret (if decide (h = Some height) then inl (OSpent t v (Some (hash, height))) else inr None)
  | Some (Scanned through hash) =>
      h ← node_call (λ n, height_of n hash);
      mret (inr (if decide (h = Some through) then Some (through + 1) else None))
  | Some (Exhausted last) =>
      sp_lift (Err (OutOfRange (op_display op +:+ " is spent, but not within " +:+ pretty MAX_SCAN_BLOCKS +:+
        " blocks of its funding (searched to " +:+ pretty last +:+ ")")))
  | _ => mret (inr None)
  end.

(** The slot is let go whatever comes of the search. *)
Definition with_slot {A} (op : OutPoint) (m : Sp A) : Sp A :=
  _ ← claim_slot op;
  r ← prog_bind m (λ r, Done (Ok r));
  _ ← drop_slot op;
  sp_lift r.

Definition u32_add (a b : Z) : Z := wrapping_add u32_max a b.

Definition search (op : OutPoint) (funding : Value) (from : option Z) : Sp Outspend :=
  funded ← tx_block funding;
  funded_at ← sp_lift (ok_or (snd <$> funded) (Pending (op_display op +:+ " is spent but its funding isn't mined")));
  tip ← node_call sn_tip;
  let last := Z.min tip (u32_add funded_at MAX_SCAN_BLOCKS) in
  let from := default funded_at from in
  _ ← sp_lift (bail_if ((from =? funded_at) && (u32_add funded_at MAX_SCAN_BLOCKS <? tip))
        (OutOfRange (op_display op +:+ "'s funding is more than " +:+ pretty MAX_SCAN_BLOCKS +:+
          " blocks old; this index only searches newer outputs")));
  with_slot op (
    let stop := Z.min last (saturating_add u32_max from (SCAN_BUDGET - 1)) in
    found ← scan op (Z.to_nat (stop + 1 - from)) from;
    match found with
    | Some found => mret found
    | None =>
        if stop <? last
        then sp_lift (Err (Pending (op_display op +:+ ": searched blocks " +:+ pretty from +:+ "..=" +:+ pretty stop +:+ " of " +:+
          pretty funded_at +:+ "..=" +:+ pretty last +:+ "; ask again to continue")))
        else if last =? u32_add funded_at MAX_SCAN_BLOCKS
        then _ ← remember op (Exhausted last);
             sp_lift (Err (OutOfRange (op_display op +:+ " is spent, but not within " +:+ pretty MAX_SCAN_BLOCKS +:+ " blocks of its funding")))
        else sp_lift (Err (Pending (op_display op +:+ " is spent, but not in blocks " +:+ pretty funded_at +:+ "..=" +:+ pretty last +:+ " yet")))
    end).

Definition outspend (t : bytes) (v : Z) : Sp Outspend :=
  f ← node_call (λ n, sn_tx n t);
  funding ← sp_lift (ok_or f UnknownOutput);
  out ← sp_lift (ok_or (l ← as_array (vindex "vout" funding); l !! Z.to_nat v) UnknownOutput);
  if decide (as_string (vindex "type" (vindex "scriptPubKey" out)) = Some "nulldata") then mret Unspent
  else
    let op := {| txid := t; vout := v |} in
    unspent ← node_call (λ n, sn_unspent n op);
    if (unspent : bool) then mret Unspent
    else
      k ← node_call (λ n, known_spender n op);
      match k with
      | Some spend => found ← spent_by spend op; _ ← remember op (Spender spend); mret found
      | None =>
          cached ← recall op;
          c ← use_cached op cached;
          match c with
          | inl found => mret found
          | inr from => search op funding from
          end
      end.
End spends.
