(* ===== verification/IndexSearch.v ===== *)
(** A search that is asked for again and again finds the spend
    ([IndexSpends.v]). *)

From S2P Require Import Prelude Json Threads Bitcoin IndexMempool IndexSpends.

Section search.
Context `{BitcoinLib, SpendNode}.

(** The output [t:v], funded in block [fa], is spent in block [s] of a chain
    that does not change meanwhile; the node itself does not name the
    spender. *)
Record stable_chain (t : bytes) (v : Z) (fa s tip : Z) (hash_at : Z → bytes) (txs_at : Z → list Transaction)
    (spend : bytes) (vin : Z) : Prop := {
  st_tx : ∃ funding out, (∀ n, sn_tx n t = Ok (Some funding)) ∧
    (as_array (vindex "vout" funding) ≫= (.!! Z.to_nat v)) = Some out ∧
    as_string (vindex "type" (vindex "scriptPubKey" out)) ≠ Some "nulldata" ∧
    (as_string (vindex "blockhash" funding) ≫= hash_parse) = Some (hash_at fa);
  st_unspent n : sn_unspent n {| txid := t; vout := v |} = Ok false;
  st_spender n : known_spender n {| txid := t; vout := v |} = Ok None;
  st_tip n : sn_tip n = Ok tip;
  st_height n h : fa ≤ h ≤ tip → height_of n (hash_at h) = Ok (Some h);
  st_block n h : fa ≤ h ≤ tip → sn_block n h = Ok (hash_at h, txs_at h);
  st_range : 0 ≤ fa ≤ s ∧ s ≤ tip ∧ s ≤ fa + MAX_SCAN_BLOCKS ∧ fa + MAX_SCAN_BLOCKS + SCAN_BUDGET ≤ u32_max;
  st_before h : fa ≤ h < s → spend_in {| txid := t; vout := v |} (txs_at h) = None;
  st_spend : spend_in {| txid := t; vout := v |} (txs_at s) = Some (spend, vin);
}.

Context {t : bytes} {v fa s tip : Z} {hash_at : Z → bytes} {txs_at : Z → list Transaction} {spend : bytes} {vin : Z}.
Hypothesis st : stable_chain t v fa s tip hash_at txs_at spend vin.
Abbreviation op := ({| txid := t; vout := v |} : OutPoint).
Abbreviation answer := (OSpent spend vin (Some (hash_at s, s))).

(** A search of this output can have a slot: none is running, and not too many
    of other outputs. *)
Definition slot_free (w : SpendWorld) : Prop := op ∉ sw_scanning w ∧ (size (sw_scanning w) < MAX_CONCURRENT_SCANS)%nat.

(** It can be searched for, and the blocks below [from] have been. *)
Definition searched_to (from : Z) (w : SpendWorld) : Prop :=
  slot_free w ∧ match sw_cache w !! op with
  | None => from = fa
  | Some (Scanned through hash) => hash = hash_at through ∧ fa ≤ through < s ∧ from = through + 1
  | _ => False
  end.

Lemma run_sp_bind {A B} (m : Sp A) (f : A → Sp B) w :
  run_prog (m ≫= f) w = match run_prog m w with
                        | (Ok a, w') => run_prog (f a) w'
                        | (Err e, w') => (Err e, w')
                        | (Panic, w') => (Panic, w')
                        end.
Proof. unfold mbind, Sp_bind. rewrite run_bind. by destruct (run_prog m w) as [[]]. Qed.

Definition next_step (w : SpendWorld) : SpendWorld := {|
  sw_cache := sw_cache w; sw_scanning := sw_scanning w; sw_asked := S (sw_asked w) |}.

Lemma run_call {A} (f : nat → result string A) w a : f (sw_asked w) = Ok a → run_prog (node_call f) w = (Ok a, next_step w).
Proof. intros E. simpl. by rewrite E. Qed.

Lemma insert_cached_self c m : insert_cached op c m !! op = Some c.
Proof. unfold insert_cached. cbv zeta. repeat case_match; by rewrite lookup_insert_eq. Qed.

Lemma scan_nothing n h w : fa ≤ h → h + Z.of_nat n ≤ s →
  ∃ w', run_prog (scan op n h) w = (Ok None, w') ∧ sw_scanning w' = sw_scanning w ∧
    sw_cache w' !! op = match n with O => sw_cache w !! op | _ => Some (Scanned (h + Z.of_nat n - 1) (hash_at (h + Z.of_nat n - 1))) end.
Proof.
  revert h w. induction n as [|n IH]; intros h w Hh Hs; [by exists w|]. pose proof (st_range _ _ _ _ _ _ _ _ _ st).
  cbn [scan]. rewrite run_sp_bind, (run_call _ _ _ (st_block _ _ _ _ _ _ _ _ _ st _ h ltac:(lia))). simpl.
  rewrite (st_before _ _ _ _ _ _ _ _ _ st h) by lia. rewrite run_sp_bind. cbn [remember run_prog atomically fst snd].
  destruct (IH (h + 1) {| sw_cache := insert_cached op (Scanned h (hash_at h)) (sw_cache (next_step w));
    sw_scanning := sw_scanning w; sw_asked := S (sw_asked w) |}) as (w' & E & Es & Ec); [lia..|].
  exists w'. split; [exact E|]. split; [done|]. rewrite Ec. destruct n as [|n].
  - replace (h + Z.of_nat 1 - 1) with h by lia. apply insert_cached_self.
  - by replace (h + 1 + Z.of_nat (S n) - 1) with (h + Z.of_nat (S (S n)) - 1) by lia.
Qed.

Lemma scan_app n m h w : run_prog (scan op (n + m) h) w =
  match run_prog (scan op n h) w with
  | (Ok None, w') => run_prog (scan op m (h + Z.of_nat n)) w'
  | x => x
  end.
Proof.
  revert h w. induction n as [|n IH]; intros h w; [simpl; by rewrite Z.add_0_r|]. cbn [Nat.add scan]. rewrite !run_sp_bind.
  destruct (run_prog (node_call _) w) as [[[hash txs]|e|] w1]; [|done..]. destruct (spend_in op txs) as [[]|].
  - done.
  - rewrite !run_sp_bind. cbn [remember run_prog atomically fst snd]. rewrite IH.
    by replace (h + 1 + Z.of_nat n) with (h + Z.of_nat (S n)) by lia.
Qed.

(** Scanning from [h] on reaches the spend. *)
Lemma scan_finds n h w : fa ≤ h ≤ s → s < h + Z.of_nat n →
  ∃ w', run_prog (scan op n h) w = (Ok (Some answer), w').
Proof.
  intros Hh Hn. pose proof (st_range _ _ _ _ _ _ _ _ _ st). set (k := Z.to_nat (s - h)).
  replace n with (k + S (n - S k))%nat by lia. rewrite scan_app.
  destruct (scan_nothing k h w) as (w' & -> & _); [lia..|]. replace (h + Z.of_nat k) with s by lia.
  cbn [scan]. rewrite run_sp_bind, (run_call _ _ _ (st_block _ _ _ _ _ _ _ _ _ st _ s ltac:(lia))). simpl.
  rewrite (st_spend _ _ _ _ _ _ _ _ _ st). rewrite run_sp_bind. by eexists.
Qed.

(** One request. *)
Lemma run_slot {A} (m : Sp A) w : slot_free w →
  run_prog (with_slot op m) w =
    let '(r, w') := run_prog m (set_scanning w ({[op]} ∪ sw_scanning w)) in (r, set_scanning w' (sw_scanning w' ∖ {[op]})).
Proof.
  intros [En Es]. unfold with_slot. rewrite run_sp_bind. cbn [claim_slot run_prog atomically fst snd].
  rewrite bool_decide_eq_false_2 by done. rewrite (proj2 (Nat.leb_gt _ _)) by done. cbn [fst snd].
  rewrite run_sp_bind, run_bind. destruct (run_prog m _) as [r w']. cbn [run_prog]. by rewrite run_sp_bind.
Qed.

(** The first search of an output this old is refused. *)
Definition too_old (from : Z) : bool := (from =? fa) && (fa + MAX_SCAN_BLOCKS <? tip).

Lemma search_step funding from w :
  (as_string (vindex "blockhash" funding) ≫= hash_parse) = Some (hash_at fa) →
  slot_free w → fa ≤ default fa from ≤ s → (from ≠ None → fa < default fa from) →
  ∃ r w', run_prog (search op funding from) w = (r, w') ∧
    if too_old (default fa from) then ∃ e, r = Err (OutOfRange e)
    else if s <? default fa from + SCAN_BUDGET then r = Ok answer
    else (∃ e, r = Err (Pending e)) ∧ searched_to (default fa from + SCAN_BUDGET) w'.
Proof.
  intros Ef Es Hr Hn. pose proof (st_range _ _ _ _ _ _ _ _ _ st) as Hx. unfold too_old, MAX_SCAN_BLOCKS, SCAN_BUDGET in *.
  unfold search. rewrite run_sp_bind. unfold tx_block. rewrite Ef. rewrite run_sp_bind.
  rewrite (run_call _ _ _ (st_height _ _ _ _ _ _ _ _ _ st _ fa ltac:(lia))). cbn [fmap option_fmap option_map run_prog mret Sp_ret].
  rewrite run_sp_bind. cbn [sp_lift run_prog ok_or snd]. rewrite run_sp_bind, (run_call _ _ _ (st_tip _ _ _ _ _ _ _ _ _ st _)).
  cbv zeta. unfold u32_add, MAX_SCAN_BLOCKS, SCAN_BUDGET. rewrite wrapping_add_small by lia.
  rewrite run_sp_bind. destruct ((default fa from =? fa) && (fa + 2016 <? tip)) eqn:Hold; [do 2 eexists; split; [reflexivity|by eexists]|].
  cbn [bail_if sp_lift run_prog].
  set (h := default fa from) in *.
  replace (saturating_add u32_max h (50 - 1)) with (h + 49) by (unfold saturating_add; lia).
  rewrite run_slot by done. rewrite run_sp_bind.
  set (w1 := set_scanning _ _). destruct (Z.ltb_spec s (h + 50)) as [Hlt|Hge].
  - destruct (scan_finds (Z.to_nat (Z.min (Z.min tip (fa + 2016)) (h + 49) + 1 - h)) h w1) as (w' & ->); [lia..|].
    by do 2 eexists.
  - replace (Z.min (Z.min tip (fa + 2016)) (h + 49)) with (h + 49) by lia.
    destruct (scan_nothing (Z.to_nat (h + 49 + 1 - h)) h w1) as (w' & -> & Es' & Ec); [lia..|].
    rewrite (proj2 (Z.ltb_lt (h + 49) (Z.min tip (fa + 2016)))) by lia. do 2 eexists. split; [done|]. split; [by eexists|].
    destruct Es as [En Es].
    assert (E : sw_scanning w' ∖ {[op]} = sw_scanning w) by (rewrite Es'; simpl; set_solver).
    split; [unfold slot_free; simpl; by rewrite E|]. simpl. rewrite Ec.
    replace (Z.to_nat (h + 49 + 1 - h)) with 50%nat by lia. simpl.
    replace (h + 50 - 1) with (h + 49) by lia. split; [done|]. lia.
Qed.

Lemma outspend_step from w : searched_to from w → ∃ r w', run_prog (outspend t v) w = (r, w') ∧
  if too_old from then ∃ e, r = Err (OutOfRange e)
  else if s <? from + SCAN_BUDGET then r = Ok answer else (∃ e, r = Err (Pending e)) ∧ searched_to (from + SCAN_BUDGET) w'.
Proof.
  intros [Es Hc]. destruct (st_tx _ _ _ _ _ _ _ _ _ st) as (funding & out & Etx & Eout & Enull & Eblk).
  pose proof (st_range _ _ _ _ _ _ _ _ _ st) as Hx.
  unfold outspend. rewrite run_sp_bind, (run_call _ _ _ (Etx _)). rewrite run_sp_bind. cbn [sp_lift run_prog ok_or].
  rewrite run_sp_bind. change (l ← as_array (vindex "vout" funding); l !! Z.to_nat v) with
    (as_array (vindex "vout" funding) ≫= (.!! Z.to_nat v)). rewrite Eout. cbn [sp_lift run_prog ok_or].
  rewrite decide_False by done. rewrite run_sp_bind, (run_call _ _ _ (st_unspent _ _ _ _ _ _ _ _ _ st _)).
  rewrite run_sp_bind, (run_call _ _ _ (st_spender _ _ _ _ _ _ _ _ _ st _)). rewrite run_sp_bind.
  cbn [recall run_prog atomically fst snd next_step sw_cache]. rewrite run_sp_bind.
  destruct (sw_cache w !! op) as [[| |through hash|]|] eqn:Ec; try done.
  - destruct Hc as (-> & Hth & ->). cbn [use_cached]. rewrite run_sp_bind.
    rewrite (run_call _ _ _ (st_height _ _ _ _ _ _ _ _ _ st _ through ltac:(lia))). cbn [run_prog mret Sp_ret].
    rewrite decide_True by done. apply (search_step funding (Some (through + 1))); simpl; [done|done|lia|lia].
  - subst from. cbn [use_cached run_prog mret Sp_ret]. apply (search_step funding None); simpl; [done|done|lia|done].
Qed.

(** Asking until there is an answer other than "ask again". *)
Fixpoint ask_until (k : nat) (w : SpendWorld) : result OutspendError Outspend :=
  match k with
  | O => Err (Pending "")
  | S k =>
      match run_prog (outspend t v) w with
      | (Err (Pending _), w') => ask_until k w'
      | (r, _) => r
      end
  end.

(** C20. A search that is asked for again and again finds the spend, and the
    right one.  Conditions: the chain does not change meanwhile and the node's
    calls succeed; the output is spent, at most 2016 blocks after its funding,
    and the node does not name the spender; the requests come one at a time,
    no search of this output is running already and a slot is free (at most
    one other output is being searched).  Then requests from any stage of the search answer "ask
    again" only so often: no later than one request for every 50 blocks that
    are left, the answer is the spending transaction, its input and its block.
    The one exception: if nothing of it was searched yet and its funding is
    more than 2016 blocks below the tip, the first request refuses it as out
    of range. *)
Theorem search_finds from w : searched_to from w →
  if (from =? fa) && (fa + MAX_SCAN_BLOCKS <? tip) then ∃ e, ask_until 1 w = Err (OutOfRange e)
  else ask_until (S (Z.to_nat ((s - from) / SCAN_BUDGET))) w = Ok answer.
Proof.
  fold (too_old from). destruct (too_old from) eqn:Hold.
  { intros Hw. destruct (outspend_step from w Hw) as (r & w' & Er & Hstep). rewrite Hold in Hstep.
    destruct Hstep as [e ->]. exists e. cbn [ask_until]. by rewrite Er. }
  unfold SCAN_BUDGET. remember (Z.to_nat ((s - from) / 50)) as k eqn:Ek. revert from Hold w Ek.
  induction k as [|k IH]; intros from Hold w Ek Hw; destruct (outspend_step from w Hw) as (r & w' & Er & Hstep);
    cbn [ask_until]; rewrite Er; rewrite Hold in Hstep; unfold SCAN_BUDGET in Hstep.
  all: assert (Hfrom : fa ≤ from ≤ s) by (destruct Hw as [_ Hc]; destruct (sw_cache w !! op) as [[]|]; pose proof (st_range _ _ _ _ _ _ _ _ _ st); lia || done).
  - assert ((s - from) / 50 < 1) by (pose proof (Z.div_pos (s - from) 50); lia). destruct (Z.ltb_spec s (from + 50)); [by subst r|].
    pose proof (Z.div_le_lower_bound (s - from) 50 1). lia.
  - destruct (Z.ltb_spec s (from + 50)); [by subst r|]. destruct Hstep as [[e ->] Hw']. apply (IH (from + 50)); [| |done].
    + unfold too_old. by rewrite (proj2 (Z.eqb_neq _ _)) by lia.
    + replace (s - (from + 50)) with (s - from + (-1) * 50) by lia. rewrite Z.div_add by lia. lia.
Qed.
End search.
