(* ===== verification/IndexToy.v ===== *)
(** A concrete node for the index and runs against it: a node that first has
    a chain of two blocks, then another one of three that leaves the second
    block out.  It stands for no real code: it shows that the assumptions of
    the theorems about the index can hold together, and it is what their
    witnesses evaluate. *)

From S2P Require Import Prelude Json Threads Bitcoin Script Toy IndexKeys Index IndexSpec IndexChain IndexApply IndexRead IndexTable IndexParse IndexFetch IndexSync IndexRuns IndexCatchUp IndexClaims IndexMempool IndexPending IndexSpends IndexSearch.

(** ** Libraries *)
#[export] Instance toy_hash_order : HashOrder.
Proof. by exists elements. Defined.

(** A transaction is 41 bytes: the value of its one output in the first, the
    program it pays in the next twenty. *)
Definition toy_tx (r : bytes) : Transaction := {|
  version := 2; lock_time := 0; input := [];
  output := [{| value := from_be (take 1 r); script_pubkey := [x00; x14] ++ pad 20 (drop 1 r) |}] |}.

#[export] Instance toy_block_lib : BlockLib := {|
  is_p2wpkh := λ s, Nat.eqb (length s) 22 && bool_decide (take 2 s = [x00; x14]);
  is_coinbase := λ tx, false;
  varint_decode := λ r, match r with [] => inl "end of bytes" | n :: r => inr (Z_of_byte n, r) end;
  tx_decode := λ r, if Nat.ltb (length r) 41 then inl "end of bytes" else inr (toy_tx r, drop 41 r);
|}.

#[export] Instance toy_decode_laws : DecodeLaws.
Proof.
  split.
  - intros tx. apply length_pad.
  - intros b. apply length_pad.
  - intros s [Hs%Nat.eqb_eq _]%andb_true_iff. done.
  - intros [|n r] m r'; cbn; [done|]. intros [= _ <-]. lia.
  - intros r tx r'. cbn [tx_decode toy_block_lib]. destruct (Nat.ltb_spec (length r) 41); [done|]. intros [= <- <-].
    rewrite length_drop. cbn [toy_tx output input length]. lia.
  - intros r tx r'. cbn [tx_decode toy_block_lib]. destruct (Nat.ltb_spec (length r) 41); [done|]. intros [= <- <-].
    apply Forall_singleton. cbn [value]. pose proof (from_be_range (take 1 r)) as Hr.
    rewrite length_take_le in Hr by lia. change (256 ^ Z.of_nat 1) with 256 in Hr. unfold u64_max. lia.
  - intros r tx r'. cbn [tx_decode toy_block_lib]. destruct (Nat.ltb_spec (length r) 41); [done|]. intros [= <- <-]. constructor.
Qed.

(** ** Blocks *)
Definition digest (n : Z) : bytes := pad 32 (be_bytes 1 n).
Definition program (n : Z) : bytes := pad 20 (be_bytes 1 n).

Definition funds (n : Z) : TxRows := {|
  r_txid := digest n; r_funded := [{| f_program := program n; f_vout := 0; f_value := 1000 * n |}]; r_spent := [] |}.
Definition moves_on (n from : Z) : TxRows := {|
  r_txid := digest n; r_funded := [{| f_program := program n; f_vout := 0; f_value := 1000 * n |}];
  r_spent := [{| s_program := program from; s_prevout := {| txid := digest from; vout := 0 |} |}] |}.

Definition toy_block (h n prev : Z) (tx : TxRows) : ParsedBlock := {|
  b_height := h; b_hash := digest n; b_prev := digest prev; b_time := 1_700_000_000 + h; b_txs := [tx] |}.

Definition block0 : ParsedBlock := toy_block 0 1 0 (funds 1).
Definition block1 : ParsedBlock := toy_block 1 2 1 (moves_on 2 1).
Definition block1' : ParsedBlock := toy_block 1 3 1 (moves_on 3 1).
Definition block2' : ParsedBlock := toy_block 2 4 3 (moves_on 4 3).

Definition chain_a : list ParsedBlock := [block0; block1].
Definition chain_b : list ParsedBlock := [block0; block1'; block2'].

(** The node changes its mind after five questions. *)
Definition toy_chain (n : nat) : list ParsedBlock := if Nat.ltb n 5 then chain_a else chain_b.

#[export] Instance toy_node : Node := {|
  node_tip := λ n, Ok (Z.of_nat (length (toy_chain n)) - 1);
  node_hashes := λ n h k,
    let l := take (Z.to_nat k) (drop (Z.to_nat h) (toy_chain n)) in
    if Nat.eqb (length l) (Z.to_nat k) then Ok (map b_hash l) else Err "no such height";
  node_stream := λ n from to,
    if from <? 0 then [] else map Ok (take (Z.to_nat (to - from + 1)) (drop (Z.to_nat from) (toy_chain n)));
  stop_flag := λ n, false;
|}.

Definition all_blocks : list ParsedBlock := [block0; block1; block1'; block2'].

Lemma toy_stream_lookup n from to i b :
  node_stream n from to !! i = Some (Ok b) → 0 ≤ from ∧ toy_chain n !! (Z.to_nat from + i)%nat = Some b.
Proof.
  cbn [node_stream toy_node]. destruct (Z.ltb_spec from 0); [done|]. rewrite list_lookup_fmap.
  intros (b' & Hb & [= <-])%fmap_Some. apply lookup_take_Some in Hb as [Hb _]. rewrite lookup_drop in Hb. done.
Qed.

Lemma toy_chain_heights n i b : toy_chain n !! i = Some b → b_height b = Z.of_nat i ∧ b ∈ all_blocks.
Proof.
  unfold toy_chain. destruct (Nat.ltb n 5); (destruct i as [|[|[|i]]]; cbn; intros [= <-]); (split; [done|]); set_solver.
Qed.

Lemma toy_served b : served b → b ∈ all_blocks.
Proof. intros (n & from & to & i & Hb). apply toy_stream_lookup in Hb as [_ Hb]. by apply toy_chain_heights in Hb as [_ Hb]. Qed.

Lemma toy_block_ok b : b ∈ all_blocks → block_ok b ∧ b_height b ≤ 2.
Proof.
  unfold all_blocks. intros Hb. repeat (apply elem_of_cons in Hb as [->|Hb]); [..|by apply elem_of_nil in Hb];
    (split; [|by vm_compute]); (split; [done|done|done|repeat constructor; done|done]).
Qed.

(** Blocks fund keys of their own. *)
Definition block_keys (b : ParsedBlock) : list bytes := block_funds (b_txs b).

Lemma toy_keys b b' k : b ∈ all_blocks → b' ∈ all_blocks → k ∈ block_keys b → k ∈ block_keys b' → b = b'.
Proof.
  unfold all_blocks. intros Hb Hb' Hk Hk'.
  repeat (apply elem_of_cons in Hb as [->|Hb]); try by apply elem_of_nil in Hb.
  all: repeat (apply elem_of_cons in Hb' as [->|Hb']); try by apply elem_of_nil in Hb'.
  all: try done; apply list_elem_of_singleton in Hk, Hk'; rewrite Hk in Hk'; by vm_compute in Hk'.
Qed.

Lemma utxo_set_funded (l : list Row) k :
  is_Some (utxo_set l !! k) → ∃ x f, x ∈ l ∧ f ∈ r_funded (snd x) ∧ k = funded_key (snd x) f.
Proof.
  induction l as [|x l IH] using rev_ind; [by intros [? ?]|]. rewrite utxo_set_snoc. unfold tx_effect. rewrite spend_all_lookup.
  destruct (decide _); [by intros [? ?]|]. rewrite fund_all_lookup.
  assert (Hf : ∀ fs m, is_Some (fund_all (fst x) (snd x) m fs !! k) → is_Some (m !! k) ∨ ∃ f, f ∈ fs ∧ k = funded_key (snd x) f).
  { intros fs. induction fs as [|f fs IHf]; intros m; cbn; [by left|]. intros [Hm|(f' & Hf' & ->)]%IHf.
    - destruct (decide (k = funded_key (snd x) f)) as [->|Hne]; [right; exists f; set_solver|].
      rewrite lookup_insert_ne in Hm by done. by left.
    - right. exists f'. set_solver. }
  destruct (fund_all _ _ ∅ _ !! k) eqn:E.
  - intros _. destruct (Hf (r_funded (snd x)) ∅) as [[? ?]|(f & Hin & ->)]; [by rewrite E|done|]. exists x, f. set_solver.
  - intros (y & f & Hy & Hin & ->)%IH. exists y, f. set_solver.
Qed.

#[export] Instance toy_node_laws : NodeLaws.
Proof.
  split.
  - intros n from to i b Hb. apply toy_stream_lookup in Hb as [Hf Hb]. apply toy_chain_heights in Hb as [Hb _]. lia.
  - intros b Hb%toy_served. apply toy_block_ok in Hb as [Hb Hh]. split; [done|]. unfold u32_max. lia.
  - intros b b' Hb%toy_served Hb'%toy_served Hh. unfold all_blocks in *.
    repeat (apply elem_of_cons in Hb as [->|Hb]); try by apply elem_of_nil in Hb.
    all: repeat (apply elem_of_cons in Hb' as [->|Hb']); try by apply elem_of_nil in Hb'.
    all: first [done|by vm_compute in Hh].
  - intros c b Hs Hl tx f Htx Hf. apply eq_None_not_Some. intros Hsome. apply utxo_set_funded in Hsome as (x & f' & Hx & Hf' & Hk).
    unfold numbered in Hx. apply list_elem_of_In, in_concat in Hx as (rows & Hrows & Hx). apply in_map_iff in Hrows as (b' & <- & Hb').
    apply in_map_iff in Hx as (tx' & <- & Htx'). apply list_elem_of_In in Hb', Htx'. cbn in Hf', Hk.
    apply Forall_app in Hs as [Hs Hsb]. rewrite Forall_forall in Hs. apply Forall_inv in Hsb.
    assert (b' = b) as ->.
    { apply (toy_keys b' b (funded_key tx f)); [by apply toy_served, Hs|by apply toy_served| |].
      - rewrite Hk. apply elem_of_concat_map. exists tx'. split; [done|]. by apply list_elem_of_fmap_2.
      - apply elem_of_concat_map. exists tx. split; [done|]. by apply list_elem_of_fmap_2. }
    apply list_elem_of_lookup in Hb' as [i Hi].
    pose proof (linked_heights _ i (length c) b b Hl ltac:(by apply lookup_app_l_Some) ltac:(by apply list_lookup_middle)).
    apply lookup_lt_Some in Hi. lia.
  - intros c Hs Hl. assert (Hlen : (length c ≤ 3)%nat).
    { destruct c as [|b0 c0] eqn:Ec; [simpl; lia|]. rewrite <-Ec in *. destruct (last c) as [z|] eqn:Ez; [|by rewrite Ec in Ez; rewrite last_None in Ez].
      rewrite last_lookup in Ez. pose proof (linked_heights c 0 _ b0 z Hl ltac:(by rewrite Ec) Ez).
      rewrite Forall_lookup in Hs. destruct (toy_block_ok z) as [_ ?]; [by eapply toy_served, Hs|].
      destruct (toy_block_ok b0) as [[? _ _ _ _] _]; [apply toy_served, (Hs 0%nat); by rewrite Ec|]. lia. }
    assert (Hn : (length (numbered c) ≤ length c)%nat).
    { clear Hlen Hl. induction Hs as [|b c Hb Hs IH]; [done|]. cbn [numbered map concat]. rewrite length_app, length_rows_in.
      fold (numbered c). apply toy_served in Hb. unfold all_blocks in Hb.
      repeat (apply elem_of_cons in Hb as [->|Hb]); [..|by apply elem_of_nil in Hb]; cbn; lia. }
    unfold next_of, MAX_TXNUM. lia.
Qed.

(** ** Chains of the node *)
Definition toy_cfg : SyncConfig := {| start_height := 0; stop_height := None |}.

Lemma toy_served_all b : b ∈ all_blocks → served b.
Proof.
  unfold all_blocks. intros Hb. repeat (apply elem_of_cons in Hb as [->|Hb]); [..|by apply elem_of_nil in Hb].
  - by exists 0%nat, 0, 0, 0%nat.
  - by exists 0%nat, 1, 1, 0%nat.
  - by exists 5%nat, 1, 1, 0%nat.
  - by exists 5%nat, 2, 2, 0%nat.
Qed.

Lemma good_a : good toy_cfg chain_a.
Proof.
  split; [|intros [|[|i]] b b'; cbn; try done; by intros [= <-] [= <-]|by intros b [= <-]].
  apply Forall_forall. intros b Hb. apply toy_served_all. set_solver.
Qed.
Lemma good_b : good toy_cfg chain_b.
Proof.
  split; [|intros [|[|[|i]]] b b'; cbn; try done; by intros [= <-] [= <-]|by intros b [= <-]].
  apply Forall_forall. intros b Hb. apply toy_served_all. set_solver.
Qed.

Lemma represents_empty : represents ∅ [].
Proof.
  split; [|done]. split.
  - split; [done| | |done].
    + intros k v. split; [done|]. by intros (n & x & Hx & _).
    + intros k v. split; [done|]. by intros (_ & n & x & p & Hx & _).
  - intros k v. split; [done|]. by intros (i & b & Hb & _).
  - done.
Qed.

Lemma batch_a : batch_ok (numbered []) ∅ chain_a.
Proof.
  split_and!; cbn; [| |split_and!; cbn; [| |done]].
  - intros tx f _ _. apply lookup_empty.
  - set_solver.
  - intros tx f ->%list_elem_of_singleton ->%list_elem_of_singleton. by vm_compute.
  - intros k Hk. set_solver.
Qed.

(** The database that holds the first chain, and its table. *)
Definition kv_a : Kv := match apply_batch ∅ chain_a 0 true with Ok (wb, _) => commit ∅ wb | _ => ∅ end.
Definition table_a : BlockTable := {| bt_start := 0; bt_recs := recs_of chain_a |}.

Lemma kv_a_represents : represents kv_a chain_a ∧ kept (reopened kv_a table_a) 0 chain_a.
Proof.
  destruct (apply_batch_total ∅ [] true chain_a) as (wb & recs & Hwb); [apply represents_empty|by split; [|intros ? ?]|done|].
  assert (E : kv_a = commit ∅ wb) by (unfold kv_a; change (next_of []) with 0 in Hwb; by rewrite Hwb).
  rewrite E. split.
  - eapply (apply_batch_represents ∅ [] true); [apply represents_empty|apply (good_ok toy_cfg), good_a| |done]. intros _. apply batch_a.
  - intros b Hb _. change (iw_db _) with (commit ∅ wb). eapply (apply_batch_undo _ _ _ _ _ _ Hwb). right. split; [done|].
    by apply (list_elem_of_fmap_2 (λ b, height_key (b_height b))).
Qed.

(** The index with that chain, when the node has changed its mind. *)
Definition world_a : IndexWorld := Nat.iter 5 tick (reopened kv_a table_a).

Lemma world_a_settled : settled toy_cfg 0 world_a chain_a.
Proof.
  do 5 apply settled_tick. apply reopened_settled; [apply kv_a_represents|apply good_a|]. split; [done|]. by intros b [= <-].
Qed.

Lemma toy_steady : steady toy_cfg 5 chain_b.
Proof.
  split; [apply good_b|done| | | |done].
  - intros n Hn. exists block2'. split; [done|]. cbn [node_tip toy_node]. unfold toy_chain. by rewrite (proj2 (Nat.ltb_ge _ _)) by lia.
  - intros n b Hn Hb. cbn [node_hashes toy_node]. unfold toy_chain. rewrite (proj2 (Nat.ltb_ge _ _)) by lia. unfold chain_b in Hb.
    repeat (apply elem_of_cons in Hb as [->|Hb]); [done..|by apply elem_of_nil in Hb].
  - intros n pre new b Hn Heq Hb. cbn [node_stream toy_node]. unfold toy_chain. rewrite (proj2 (Nat.ltb_ge _ _)) by lia.
    unfold chain_b in Heq. destruct pre as [|p0 [|p1 [|p2 pre]]]; cbn in Heq.
    + subst new. by injection Hb as <-.
    + injection Heq as <- <-. by injection Hb as <-.
    + injection Heq as <- <- <-. by injection Hb as <-.
    + injection Heq as <- <- <- Heq. by destruct pre, new.
Qed.

(** ** Witnesses *)
Lemma parsed_block_typed_witness :
  ∃ pb, parse_and_extract 7 (digest 9) (replicate 80 x00 ++ [x01] ++ replicate 41 x05) {| v2_from := None |} = Ok pb ∧ block_ok pb.
Proof.
  destruct (parse_and_extract 7 (digest 9) (replicate 80 x00 ++ [x01] ++ replicate 41 x05) {| v2_from := None |}) as [pb| |] eqn:E;
    [|by vm_compute in E..].
  exists pb. split; [done|]. by apply (parsed_block_typed _ _ _ _ _ E).
Defined.

Lemma apply_batch_extends_witness :
  ∃ wb recs, apply_batch ∅ chain_a (next_of []) true = Ok (wb, recs) ∧ represents (commit ∅ wb) ([] ++ chain_a) ∧
    recs = drop 0 (recs_of ([] ++ chain_a)).
Proof.
  apply (apply_batch_extends ∅ [] true chain_a); [apply represents_empty|apply (good_ok toy_cfg), good_a|done|].
  intros _. apply batch_a.
Defined.

Lemma rollback_undoes_apply_witness :
  ∃ wb rec, apply_batch kv_a [toy_block 2 5 2 (moves_on 5 2)] (next_of chain_a) true = Ok (wb, [rec]) ∧
  ∃ wb', rollback_batch (commit kv_a wb) 2 rec (tip_pair chain_a) = Ok wb' ∧ chain_rows_same kv_a (commit (commit kv_a wb) wb') ∧
    ∀ n, next_of chain_a ≤ n < next_of (chain_a ++ [toy_block 2 5 2 (moves_on 5 2)]) →
      commit (commit kv_a wb) wb' !! (CfRender, txnum_bytes n) = None.
Proof.
  apply (rollback_undoes_apply kv_a chain_a (toy_block 2 5 2 (moves_on 5 2))).
  - apply kv_a_represents.
  - split.
    + apply Forall_app. split; [apply (good_ok toy_cfg), good_a|]. repeat constructor; done.
    + intros [|[|[|i]]] b b'; cbn; try done; by intros [= <-] [= <-].
  - done.
  - intros tx f ->%list_elem_of_singleton ->%list_elem_of_singleton. by vm_compute.
Defined.

Lemma utxos_largest_exact_witness :
  ∃ out listed dropped,
    (∀ op v, outpoint_ok op → (op, v) ∈ out ↔ utxo_set (numbered chain_a) !! utxo_key (program 2) op = Some v) ∧
    NoDup out.*1 ∧ utxos_of kv_a (program 2) 10 = (if Nat.leb (length out) 10 then Ok out else Err TooHeavy) ∧
    utxos_largest (λ _ _, true) kv_a (program 2) 10 (λ _, true) = Ok (listed, unlisted {| un_count := 0; un_value := 0 |} dropped) ∧
    listed ++ dropped ≡ₚ filter (λ x, true = true) out ∧ (length listed ≤ 10)%nat ∧
    (dropped ≠ [] → length listed = 10%nat) ∧
    ∀ d x, d ∈ dropped → x ∈ listed → u_value (snd d) ≤ u_value (snd x).
Proof.
  apply (utxos_largest_exact kv_a chain_a (λ _ _, true) (program 2) 10 (λ _, true));
    [apply kv_a_represents|apply (good_ok toy_cfg), good_a|done].
Defined.

(** A fetch of one block by one worker, from a node with that one block. *)
Definition raw_block0 : bytes := replicate 80 x00 ++ [x01] ++ replicate 41 x05.
#[local] Instance toy_source : BlockSource := {|
  gives_hashes := λ start n hashes, start = 0 ∧ n = 1 ∧ hashes = [digest 1];
  gives_raw := λ hash raw, hash = digest 1 ∧ raw = raw_block0;
|}.
Abbreviation toy_work := (work_step {| v2_from := None |} 1 0).
Definition fetched1 : Fetch := {|
  fe_next := 1; fe_ready := ∅; fe_done := true; fe_stop := false; fe_jobs := []; fe_hash := HLookup 1; fe_held := [];
  fe_deliver := DEnd; fe_out := [fetch_block {| v2_from := None |} 0 (digest 1) (Ok raw_block0)] |}.

Lemma work_l {n s s' s''} : fetch_step {| v2_from := None |} 1 0 s s' → fe_stop s' = false → (fe_deliver s' = DEnd → halted s = true) →
  nsteps toy_work n s' s'' → nsteps toy_work (S n) s s''.
Proof. intros Hs Hst Hd Hn. by eapply nsteps_l. Qed.

Lemma toy_fetch_run : nsteps toy_work 9 (fetch_init 0 0) fetched1.
Proof.
  eapply work_l; [by apply (hash_lookup _ _ _ _ 0 [digest 1])|done|done|].
  eapply work_l; [by apply (hash_send _ _ _ _ 1 (0, digest 1) []); [..|apply Nat.ltb_lt; vm_compute]|done|done|].
  eapply work_l; [by apply (hash_next _ _ _ _ 1)|done|done|].
  eapply work_l; [by apply (worker_take _ _ _ _ (0, digest 1) []); [..|cbn; lia]|done|done|].
  eapply work_l; [by apply (worker_fetch _ _ _ _ 0 0 (digest 1) (Ok raw_block0)); [done|apply Z.ltb_lt|intros raw [= <-]]|done|done|].
  eapply work_l; [by eapply deliver_take|done|done|].
  eapply work_l; [by eapply deliver_send|done|done|].
  eapply work_l; [by eapply deliver_next|done|done|].
  eapply work_l; [by eapply deliver_halted|done|done|]. cbn. apply nsteps_O.
Qed.

Lemma fetch_in_order_witness :
  in_order {| v2_from := None |} 0 0 (fe_out fetched1) ∧ map is_err (fe_out fetched1) = [false].
Proof.
  split; [|by vm_compute]. apply (fetch_in_order {| v2_from := None |} 1 0 0).
  apply (rtc_subrel toy_work); [|by eapply rtc_nsteps_2, toy_fetch_run]. by intros s s' [Hs _].
Defined.

Lemma fetch_completes_witness :
  (9 ≤ work_left 0 (fetch_init 0 0))%nat ∧
  (fe_deliver fetched1 ≠ DEnd → ∃ s', toy_work fetched1 s') ∧
  (fe_deliver fetched1 = DEnd → in_order {| v2_from := None |} 0 0 (fe_out fetched1) ∧ complete 0 0 (fe_out fetched1)).
Proof. apply (fetch_completes {| v2_from := None |} 1 0 0 9 fetched1); [lia|apply toy_fetch_run]. Defined.

(** The first pass of a new index, and a rendered transaction afterwards. *)
Definition first_pass : result DbErr Outcome * IndexWorld := run_prog (run_pass toy_cfg) (reopened ∅ bt_default).
Definition rendered : IndexWorld := write_db Logged [Put CfRender (txnum_bytes 0) [x01]] (snd first_pass).

Lemma index_reach_run p w :
  index_reach toy_cfg p w → index_reach toy_cfg (Done (fst (run_prog p w))) (snd (run_prog p w)).
Proof. revert w. induction p as [a|f k IH]; intros w Hp; [done|]. cbn. by apply IH, ir_step. Qed.

Lemma rendered_reached : index_reach toy_cfg (Done (fst first_pass)) rendered.
Proof.
  eapply ir_env; [apply index_reach_run, ir_start, represents_empty|]. apply env_render. by repeat constructor.
Qed.

Lemma index_always_represents_witness :
  ((∃ chain, good toy_cfg chain ∧ represents (iw_db rendered) chain) ∧
   (∃ chain, good toy_cfg chain ∧ table_for (iw_table rendered) chain)) ∧
  db_tip (iw_db rendered) = Ok (Some (1, digest 2)).
Proof. split; [|by vm_compute]. apply (index_always_represents toy_cfg _ _ rendered_reached). Defined.

(** The process dies and the rendered transaction is lost. *)
Lemma first_pass_synced : Forall (λ x, fst x = Durable) (iw_pending (snd first_pass)).
Proof. apply (bool_decide_unpack _). by vm_compute. Qed.

Lemma rendered_survives : survives (iw_pending rendered) (iw_pending (snd first_pass)).
Proof.
  unfold rendered. cbn [write_db iw_pending]. generalize first_pass_synced. generalize (iw_pending (snd first_pass)).
  induction 1 as [|[d wb] l Hd _ IH]; [repeat constructor|]. cbn [app]. apply sv_kept; [by cbn in Hd; subst d|done].
Qed.

Lemma index_survives_crash_witness :
  ∃ chain t, good toy_cfg chain ∧ represents (replay (iw_flushed rendered) (iw_pending (snd first_pass))) chain ∧
    load_table (replay (iw_flushed rendered) (iw_pending (snd first_pass))) = Ok t ∧ table_for t chain.
Proof. apply (index_survives_crash toy_cfg _ _ _ rendered_reached rendered_survives). Defined.

Lemma view_reads_one_chain_witness :
  rg (λ _ w', reached toy_cfg w') eq view rendered (λ r _,
    match r with
    | Ok (t, kv) => ∃ chain, good toy_cfg chain ∧ answers t kv chain
    | Err e => e = "index is between states (writer has not published); try again"
    | Panic => False
    end).
Proof. apply (view_reads_one_chain toy_cfg rendered). Defined.

Definition next_pass : result DbErr Outcome * IndexWorld := run_prog (run_pass toy_cfg) world_a.

Lemma index_catches_up_witness :
  fst next_pass = Ok Again ∧ represents (iw_db (snd next_pass)) chain_b ∧ table_for (iw_table (snd next_pass)) chain_b ∧
  kept (snd next_pass) 0 chain_b.
Proof.
  apply (rg_alone (rtc env_step) (moves toy_cfg 5) _ _ (λ r w', r = Ok Again ∧ represents (iw_db w') chain_b ∧
    table_for (iw_table w') chain_b ∧ kept w' 0 chain_b)); [by intros w|].
  apply (index_catches_up toy_cfg 5 chain_b block2' 0 world_a [block0] [block1] [block1'; block2']);
    [done|apply toy_steady|done|done|by intros ?? [= <-] [= <-]|done|apply world_a_settled|done| |by repeat constructor|done].
  destruct kv_a_represents as [_ Hk]. intros b Hb Hh. by apply Hk.
Defined.

Lemma undo_roundtrip_witness :
  ∃ b, undo_encode (E:=string) {| ud_first_txnum := 7; ud_n_txs := 1; ud_added_history := [replicate 25 x01];
         ud_added_utxo := [replicate 56 x02]; ud_deleted_utxo := [(replicate 56 x03, {| u_value := 5; u_height := 6 |})] |} = Ok b ∧
    undo_decode b = Ok {| ud_first_txnum := 7; ud_n_txs := 1; ud_added_history := [replicate 25 x01];
         ud_added_utxo := [replicate 56 x02]; ud_deleted_utxo := [(replicate 56 x03, {| u_value := 5; u_height := 6 |})] |}.
Proof. apply undo_roundtrip. split; repeat constructor; done. Defined.

(** ** The mempool overlay *)
Module MempoolToy.
#[local] Instance lib : BitcoinLib := toy_lib_of (λ b, inr (toy_tx b)) String.string_of_list_byte (λ s, Some (String.list_byte_of_string s)).

(** The id of a transaction is its value and program here. *)
Definition tx_of (id : bytes) : Transaction := toy_tx id.
Definition ID1 : bytes := x07 :: pad 20 [x01].
Definition ID2 : bytes := x09 :: pad 20 [x01].
Definition raws (k : nat) (ids : list bytes) : result string (list (option bytes)) :=
  Ok (map (λ id, if decide (id = ID2) then None else Some id) ids).
Definition fresh : MempoolTracker := {| mt_rows := ∅; mt_nothing := ∅; mt_seq := None |}.

Lemma refreshes : ∃ t' v, refresh (Ok (5, [ID1; ID2])) raws fresh = (t', Ok (Some v)).
Proof.
  assert (Hb : match refresh (Ok (5, [ID1; ID2])) raws fresh with (_, Ok (Some _)) => true | _ => false end = true) by (by vm_compute).
  destruct (refresh _ _ _) as [t' [[v|]|e|]]; [by exists t', v|done..].
Qed.

Lemma mempool_view_exact_witness : ∃ t' v, refresh (Ok (5, [ID1; ID2])) raws fresh = (t', Ok (Some v)) ∧
  (∀ id, held t' id → id ∈ [ID1; ID2]) ∧
  ∀ p, ∃ l, @utxos_for string v p = Ok l ∧ NoDup l.*1 ∧ ∀ op a, (op, a) ∈ l ↔ pending_coin tx_of (held t') p op a.
Proof.
  destruct refreshes as (t' & v & E). exists t', v. split; [done|].
  destruct (mempool_view_exact tx_of 5 [ID1; ID2] raws fresh t' v) as (_ & _ & Hids & _ & Hv); [done| | |exact E|by split].
  - intros k c rs [= <-]. apply Forall2_fmap_r, Forall_Forall2_diag, Forall_forall. intros id _. simpl. by case_decide.
  - by split.
Defined.
End MempoolToy.

(** ** Searching for a spend *)
Module SpendsToy.
Definition T : bytes := pad 32 [x01].
Definition paid : Value := VObj [("vout", VArr [VObj []]); ("blockhash", VStr "10")].
Definition spending : Transaction := {|
  version := 2; lock_time := 77; output := [];
  input := [{| previous_output := {| txid := T; vout := 0 |}; script_sig := []; sequence := 0; witness := [] |}] |}.
Definition hash_at (h : Z) : bytes := String.list_byte_of_string (pretty h).

(** [named]: the hash of the block at a height, as a step sees it. *)
Definition spend_node (tip : Z) (block : nat → Z → bytes * list Transaction) (height : bytes → option Z) : SpendNode := {|
  sn_tx := λ _ t, Ok (if decide (t = T) then Some paid else None);
  sn_unspent := λ _ _, Ok false;
  known_spender := λ _ _, Ok None;
  height_of := λ _ h, Ok (height h);
  sn_tip := λ _, Ok tip;
  sn_block := λ n h, Ok (block n h);
  txid_display := String.string_of_list_byte;
  hash_parse := λ s, Some (String.list_byte_of_string s);
  op_display := λ _, "op";
|}.
Definition quiet_world : SpendWorld := {| sw_cache := ∅; sw_scanning := ∅; sw_asked := 0 |}.

(** Blocks 10 to 200; the output is spent in block 130. *)
Module Found.
Definition find_height (b : bytes) : option Z := snd <$> list_find (λ h, hash_at h = b) (seqZ 10 191).
#[local] Instance node : SpendNode := spend_node 200 (λ _ h, (hash_at h, if h =? 130 then [spending] else [])) find_height.

Lemma stable : stable_chain T 0 10 130 200 hash_at (λ h, if h =? 130 then [spending] else []) (compute_txid spending) 0.
Proof.
  split; try done.
  - by exists paid, (VObj []).
  - intros n h Hh. simpl. do 2 f_equal.
    assert (Hall : Forall (λ h, find_height (hash_at h) = Some h) (seqZ 10 191)).
    { apply Forall_forall, Forall_forall. apply (bool_decide_unpack _). by vm_compute. }
    rewrite Forall_forall in Hall. apply Hall, elem_of_seqZ. lia.
  - by intros h Hh; simpl; rewrite (proj2 (Z.eqb_neq h 130)) by lia.
Qed.

(** Another output is being searched for. *)
Definition busy_world : SpendWorld := {| sw_cache := ∅; sw_scanning := {[ {| txid := T; vout := 1 |} ]}; sw_asked := 0 |}.

Lemma busy_free : searched_to (t := T) (v := 0) (fa := 10) (s := 130) (hash_at := hash_at) 10 busy_world.
Proof. split; [|done]. split; [by apply (bool_decide_unpack _); vm_compute|]. vm_compute. lia. Qed.

Lemma search_finds_witness : ask_until (t := T) (v := 0) 3 busy_world = Ok (OSpent (compute_txid spending) 0 (Some (hash_at 130, 130))).
Proof. exact (search_finds stable 10 busy_world busy_free). Defined.
End Found.

(** Two blocks are fetched in one search while the chain changes from the first
    to the second: block 11 is seen of the old chain and block 12 of the new
    one, whose block 11 has the spend.  The search is remembered by the hash of
    block 12, and block 11 is not looked at again. *)
Module Reorg.
Definition old_block (n : nat) (h : Z) : bool := Nat.leb n 7 && (h =? 11).
Definition block (n : nat) (h : Z) : bytes * list Transaction :=
  if old_block n h then (hash_at 911, []) else (hash_at h, if h =? 11 then [spending] else []).
Definition find_height (b : bytes) : option Z := snd <$> list_find (λ h, hash_at h = b) (seqZ 10 3).
#[local] Instance node : SpendNode := spend_node 12 block find_height.

Definition first := run_prog (outspend T 0) quiet_world.

(** What the node now shows of block 11 is the spend; ten more requests do not
    find it. *)
Lemma reorged_block_skipped :
  (∃ e, fst first = Err (Pending e)) ∧
  (∀ n, (sw_asked (snd first) ≤ n)%nat → sn_block n 11 = Ok (hash_at 11, [spending])) ∧
  spend_in {| txid := T; vout := 0 |} [spending] = Some (compute_txid spending, 0) ∧
  ask_until (t := T) (v := 0) 10 (snd first) = Err (Pending "").
Proof.
  split; [by eexists; vm_compute|]. split; [|split; by vm_compute].
  intros n Hn. assert (Hs : (8 ≤ n)%nat) by (revert Hn; vm_compute; lia). simpl. unfold block, old_block.
  by rewrite (proj2 (Nat.leb_gt n 7)) by lia.
Qed.
End Reorg.
End SpendsToy.
