(* ===== verification/LspRules.v ===== *)
(** The arithmetic and the policies of the Lightning service provider that do
    not touch its state: fees of withdrawals and conversions
    ([fortis-lsp/src/account_api.rs], [conversion.rs]), the sizes of payments
    that open channels ([config.rs]), which outbound channels to open
    ([outbound.rs]), the operator's token ([admin.rs]). *)

From Stdlib Require Import Ascii.
From S2P Require Import Prelude Json.

(** Multiplication that wraps, and the checked one. *)
Definition wrapping_mul (max a b : Z) : Z := (a * b) mod (max + 1).
Definition checked_mul (max a b : Z) : option Z := if a * b <=? max then Some (a * b) else None.
Definition div_ceil (a b : Z) : Z := (a + b - 1) / b.

(** ** Withdrawals *)
Definition WITHDRAW_TX_VBYTES : Z := 200.
Definition MAX_FEERATE_SAT_VB : Z := 500.
Definition DUST_SAT : Z := 546.

Record Withdrawal : Type := { payout_sat : Z; w_fee_sat : Z }.

Definition withdrawal (amount_sat feerate_sat_vb : Z) : option Withdrawal :=
  let net := wrapping_mul u64_max WITHDRAW_TX_VBYTES (Z.max feerate_sat_vb 1) in
  let fee := Z.max (Z.max (amount_sat / 100) 1000) net in
  let share := if fee - net <? DUST_SAT then 0 else fee - net in
  let fee_sat := wrapping_add u64_max net share in
  payout ← checked_sub amount_sat fee_sat;
  if DUST_SAT <=? payout then Some {| payout_sat := payout; w_fee_sat := fee_sat |} else None.

(** What is held for routing fees on top of a payment. *)
Definition fee_cap_msat (amount_msat : Z) : Z := wrapping_add u64_max (amount_msat / 100) 50_000.

(** ** Conversions *)
Definition conversion_fee_msat (moved_msat : Z) : Z := Z.max (moved_msat / 100) 1_000_000.

Inductive Plan : Type :=
| PlanNone
| PayOverChannel (amount_msat : Z)
| OpenChannel (channel_sat push_msat : Z).

Definition plan (balance_msat cap_msat : Z) (peer_connected : bool) (inbound_room_msat : Z) (in_progress : bool)
    (channel_min_sat : Z) : Plan :=
  if (balance_msat <=? cap_msat) || negb peer_connected || in_progress then PlanNone
  else
    let fee := conversion_fee_msat balance_msat in
    match checked_sub balance_msat fee with
    | Some moved =>
        if 0 <? moved then
          if moved <=? inbound_room_msat then PayOverChannel moved
          else OpenChannel (Z.max channel_min_sat (wrapping_mul u64_max 2 (div_ceil moved 1000))) moved
        else PlanNone
    | None => PlanNone
    end.

(** ** Payments that open a channel *)
Record JitConfig : Type := {
  open_fee_ppm : Z;
  open_fee_min_sat : Z;
  min_payment_size_msat : Z;
  max_payment_size_msat : Z;
  channel_size_factor : string;     (* as it is printed *)
  channel_min_sat : Z;
  channel_max_sat : Z;
}.

(** [op_ppm] is [over_provisioning_ppm] of the factor, a [u32]. *)
Definition jit_channel_sat (c : JitConfig) (op_ppm payment_msat : Z) : option Z :=
  p ← checked_mul u64_max payment_msat (open_fee_ppm c);
  p ← checked_add u64_max p 999_999;
  let fee := p / 1_000_000 in
  m ← checked_mul u64_max (open_fee_min_sat c) 1000;
  let fee := Z.max fee m in
  let amt := saturating_sub payment_msat fee in
  if amt =? 0 then None
  else
    o ← checked_mul u64_max amt op_ppm;
    s ← checked_add u64_max amt (o / 1_000_000);
    Some (s / 1000).

Definition jit_ok (c : JitConfig) (op_ppm p : Z) : bool :=
  match jit_channel_sat c op_ppm p with Some ch => channel_min_sat c <=? ch | None => false end.

(** The search; the range halves in every round, so 64 are enough for [u64]. *)
Fixpoint bounds_loop (rounds : nat) (c : JitConfig) (op_ppm lo hi : Z) : Z :=
  match rounds with
  | O => lo
  | S rounds =>
      if lo <? hi then
        let mid := lo + (hi - lo) / 2 in
        if jit_ok c op_ppm mid then bounds_loop rounds c op_ppm lo mid else bounds_loop rounds c op_ppm (mid + 1) hi
      else lo
  end.

Definition no_payment_size (c : JitConfig) : string :=
  "no payment size gives a JIT channel within channel_min_sat..channel_max_sat (" +:+ pretty (channel_min_sat c) +:+ ".." +:+
  pretty (channel_max_sat c) +:+ " sat) with min/max_payment_size_msat " +:+ pretty (min_payment_size_msat c) +:+ ".." +:+
  pretty (max_payment_size_msat c) +:+ ", open_fee_ppm " +:+ pretty (open_fee_ppm c) +:+ ", open_fee_min_sat " +:+
  pretty (open_fee_min_sat c) +:+ ", channel_size_factor " +:+ channel_size_factor c.

Definition effective_payment_bounds (c : JitConfig) (over_provisioning_ppm : option Z) : result string (Z * Z) :=
  op_ppm ← ok_or over_provisioning_ppm ("channel_size_factor (" +:+ channel_size_factor c +:+ ") out of range");
  m ← ok_or (checked_mul u128_max (channel_max_sat c) (1000 * 1_000_000)) "channel_max_sat is too large";
  let cap := m / (1_000_000 + op_ppm) in
  let max := Z.min cap (max_payment_size_msat c) mod 2^64 in
  _ ← bail_if ((max <? min_payment_size_msat c) || negb (jit_ok c op_ppm max)) (no_payment_size c);
  _ ← bail_if (negb (bool_decide (is_Some (jit_channel_sat c op_ppm max))))
        "max_payment_size_msat too large for ldk-node's fee arithmetic";
  mret (bounds_loop 64 c op_ppm (min_payment_size_msat c) max, max).

(** The checks of [validate] on sizes and fees, the first ones; [factor_ok]:
    the factor is a finite number from 1.0 to 10.0. *)
Definition MAX_PAYMENT_CAP_MSAT : Z := 21_000_000 * 100_000_000 * 1000.
Definition validate_sizes (c : JitConfig) (factor_ok : bool) : result string unit :=
  _ ← bail_if (max_payment_size_msat c <? min_payment_size_msat c)
        ("min_payment_size_msat (" +:+ pretty (min_payment_size_msat c) +:+ ") > max_payment_size_msat (" +:+
         pretty (max_payment_size_msat c) +:+ ")");
  _ ← bail_if (channel_max_sat c <? channel_min_sat c)
        ("channel_min_sat (" +:+ pretty (channel_min_sat c) +:+ ") > channel_max_sat (" +:+ pretty (channel_max_sat c) +:+ ")");
  _ ← bail_if (negb factor_ok)
        ("channel_size_factor (" +:+ channel_size_factor c +:+ ") must be a number from 1.0 to 10");
  _ ← bail_if (MAX_PAYMENT_CAP_MSAT <? max_payment_size_msat c)
        ("max_payment_size_msat (" +:+ pretty (max_payment_size_msat c) +:+ ") is above 21 000 000 BTC");
  _ ← bail_if (100_000 <? open_fee_ppm c) ("open_fee_ppm (" +:+ pretty (open_fee_ppm c) +:+ ") is above 100000 (10%)");
  bail_if (bool_decide (checked_mul u64_max (open_fee_min_sat c) 1000 = None)) "open_fee_min_sat is too large".

(** ** Outbound channels *)
Definition MIN_OUTBOUND_SAT : Z := 20_000.
Definition MAX_OUTBOUND_SAT : Z := 100_000_000.
(** Durations and instants in nanoseconds. *)
Definition RETRY_AFTER : Z := 10 * 60 * 10^9.

Record Outbound : Type := { ob_node_id : string; ob_address : string; ob_sat : Z }.
Record RawOutbound : Type := { raw_peer : string; raw_sat : Z }.

Section outbound.
(** [PublicKey::from_str], [SocketAddress::from_str] with the text of its
    error, and [{:?}] of a text. *)
Context (parse_node : string → option string) (parse_address : string → string + string) (debug_text : string → string).

Definition parse_outbound (raw : RawOutbound) : result string Outbound :=
  '(id, addr) ← ok_or (split_once "@"%char (raw_peer raw))
    ("outbound peer " +:+ debug_text (raw_peer raw) +:+ " must be <node_id>@<host>:<port>");
  node_id ← ok_or (parse_node (trim id))
    ("outbound peer " +:+ debug_text (raw_peer raw) +:+ ": node id must be a 66-hex public key");
  address ← match parse_address (trim addr) with
            | inr a => Ok a
            | inl e => Err ("outbound peer " +:+ debug_text (raw_peer raw) +:+ ": address: " +:+ e)
            end;
  _ ← bail_if (negb ((MIN_OUTBOUND_SAT <=? raw_sat raw) && (raw_sat raw <=? MAX_OUTBOUND_SAT)))
        ("outbound sat (" +:+ pretty (raw_sat raw) +:+ ") for " +:+ id +:+ " must be " +:+ pretty MIN_OUTBOUND_SAT +:+ "..=" +:+
         pretty MAX_OUTBOUND_SAT);
  mret {| ob_node_id := node_id; ob_address := address; ob_sat := raw_sat raw |}.

Fixpoint parse_all_from (seen : gset string) (raw : list RawOutbound) : result string (list Outbound) :=
  match raw with
  | [] => Ok []
  | r :: raw =>
      o ← parse_outbound r;
      if decide (ob_node_id o ∈ seen) then Err ("outbound peer " +:+ ob_node_id o +:+ " is listed twice")
      else rest ← parse_all_from ({[ob_node_id o]} ∪ seen) raw; mret (o :: rest)
  end.
Definition parse_all (raw : list RawOutbound) : result string (list Outbound) := parse_all_from ∅ raw.
End outbound.

Record OutboundState : Type := { os_opened : gset string; os_failed_at : gmap string Z }.
Definition outbound_default : OutboundState := {| os_opened := ∅; os_failed_at := ∅ |}.

Definition record_opened (peer : string) (s : OutboundState) : OutboundState := {|
  os_opened := {[peer]} ∪ os_opened s; os_failed_at := delete peer (os_failed_at s) |}.
Definition record_failed (peer : string) (now : Z) (s : OutboundState) : OutboundState := {|
  os_opened := os_opened s; os_failed_at := <[peer := now]> (os_failed_at s) |}.

Record Snapshot : Type := {
  with_channel : gset string;
  wallet_synced : bool;
  spendable_sat : Z;
  reserve_per_channel_sat : Z;
}.

Definition wanted (snap : Snapshot) (s : OutboundState) (now : Z) (t : Outbound) : bool :=
  bool_decide (ob_node_id t ∉ with_channel snap) && bool_decide (ob_node_id t ∉ os_opened s) &&
  match os_failed_at s !! ob_node_id t with Some at_ => RETRY_AFTER <=? saturating_sub now at_ | None => true end.
Definition needs (snap : Snapshot) (t : Outbound) : Z := saturating_add u64_max (ob_sat t) (reserve_per_channel_sat snap).

Fixpoint due_from (snap : Snapshot) (s : OutboundState) (now budget : Z) (targets : list Outbound) : list Outbound :=
  match targets with
  | [] => []
  | t :: targets =>
      if wanted snap s now t && (needs snap t <=? budget)
      then t :: due_from snap s now (budget - needs snap t) targets
      else due_from snap s now budget targets
  end.
Definition due (targets : list Outbound) (snap : Snapshot) (s : OutboundState) (now : Z) : list Outbound :=
  if wallet_synced snap then due_from snap s now (spendable_sat snap) targets else [].

Definition waiting_for_funds (targets : list Outbound) (snap : Snapshot) (s : OutboundState) (due : list Outbound) : list Outbound :=
  if wallet_synced snap then
    filter (λ t, ob_node_id t ∉ with_channel snap ∧ ob_node_id t ∉ os_opened s ∧ os_failed_at s !! ob_node_id t = None ∧
                 ob_node_id t ∉ map ob_node_id due) targets
  else [].

(** ** The operator's token *)

(** The bytes are compared without stopping at the first difference. *)
Definition authorized (header : option string) (token : string) : bool :=
  match header ≫= strip_prefix "Bearer " with
  | None => false
  | Some given =>
      let a := String.list_byte_of_string (trim given) in
      let b := String.list_byte_of_string token in
      Nat.eqb (length a) (length b) &&
      (foldl (λ acc p, Z.lor acc (Z.lxor (Z_of_byte (fst p)) (Z_of_byte (snd p)))) 0 (zip a b) =? 0)
  end.

(** ** What they give *)
Lemma checked_mul_Some max a b c : checked_mul max a b = Some c ↔ c = a * b ∧ a * b ≤ max.
Proof. unfold checked_mul. destruct (Z.leb_spec (a * b) max); naive_solver lia. Qed.

(** A withdrawal splits the amount into what arrives and the fee,
    nothing else: at least dust arrives, the fee covers the network's at the
    rate asked for and is at most the larger of 1 %, 1,000 sat and that, and the
    operator's share of it is nothing or at least dust.  It is refused only
    when less than dust would arrive. *)
Theorem withdrawal_exact amount feerate :
  u64 amount → 1 ≤ feerate ≤ MAX_FEERATE_SAT_VB →
  let net := WITHDRAW_TX_VBYTES * feerate in
  let most := Z.max (Z.max (amount / 100) 1000) net in
  match withdrawal amount feerate with
  | Some w => payout_sat w + w_fee_sat w = amount ∧ DUST_SAT ≤ payout_sat w ∧ net ≤ w_fee_sat w ≤ most ∧
      (w_fee_sat w = net ∨ DUST_SAT ≤ w_fee_sat w - net)
  | None => amount < most + DUST_SAT
  end.
Proof.
  intros [Ha Hb] Hf net most. unfold withdrawal. rewrite (Z.max_l feerate 1) by lia.
  assert (wrapping_mul u64_max WITHDRAW_TX_VBYTES feerate = net) as ->.
  { unfold wrapping_mul, net. apply Z.mod_small. unfold WITHDRAW_TX_VBYTES, MAX_FEERATE_SAT_VB, u64_max in *. lia. }
  fold most. assert (net ≤ most ≤ u64_max).
  { unfold most, net, WITHDRAW_TX_VBYTES, MAX_FEERATE_SAT_VB, u64_max in *. Z.to_euclidean_division_equations. lia. }
  set (share := if most - net <? DUST_SAT then 0 else most - net).
  assert (Hshare : 0 ≤ share ∧ net + share ≤ most ∧ (share = 0 ∨ DUST_SAT ≤ share)).
  { unfold share, DUST_SAT. destruct (Z.ltb_spec (most - net) 546); lia. }
  assert (0 ≤ net) by (unfold net, WITHDRAW_TX_VBYTES; lia). rewrite wrapping_add_small by lia.
  destruct (checked_sub amount (net + share)) as [p|] eqn:Ep; cbn.
  - apply checked_sub_Some in Ep. unfold DUST_SAT in *. destruct (Z.leb_spec 546 p); cbn; lia.
  - apply checked_sub_None in Ep. unfold DUST_SAT. lia.
Qed.

(** A plan moves the balance less the fee, and only above the cap, to a phone
    that is there and not already served; a new channel has room for as much
    again. *)
Theorem plan_exact balance cap connected room busy min :
  u64 balance →
  match plan balance cap connected room busy min with
  | PlanNone => True
  | PayOverChannel m => m + conversion_fee_msat balance = balance ∧ 0 < m ≤ room ∧ cap < balance ∧ connected = true ∧ busy = false
  | OpenChannel size push => push + conversion_fee_msat balance = balance ∧ room < push ∧ 0 < push ∧ cap < balance ∧
      connected = true ∧ busy = false ∧ min ≤ size ∧ 2 * push ≤ 1000 * size
  end.
Proof.
  intros [Hb0 Hb]. unfold plan. destruct (Z.leb_spec balance cap), connected, busy; try done. cbn.
  destruct (checked_sub balance (conversion_fee_msat balance)) as [m|] eqn:Em; [|done]. apply checked_sub_Some in Em as [Hm Hm'].
  destruct (Z.ltb_spec 0 m); [|done]. destruct (Z.leb_spec m room); [split_and!; lia|].
  assert (wrapping_mul u64_max 2 (div_ceil m 1000) = 2 * div_ceil m 1000) as ->.
  { unfold wrapping_mul. apply Z.mod_small. unfold div_ceil, conversion_fee_msat, u64_max in *. Z.to_euclidean_division_equations. lia. }
  split_and!; try lia; try done. unfold div_ceil. Z.to_euclidean_division_equations. lia.
Qed.

(** *** Payment sizes *)
Section sizes.
Context (c : JitConfig) (op : Z).
Hypothesis (Hppm : 0 ≤ open_fee_ppm c ≤ 1_000_000) (Hop : 0 ≤ op).

Definition jit_fee (p : Z) : Z := Z.max ((p * open_fee_ppm c + 999_999) / 1_000_000) (open_fee_min_sat c * 1000).
Definition jit_amt (p : Z) : Z := saturating_sub p (jit_fee p).

Lemma jit_amt_mono p q : p ≤ q → jit_amt p ≤ jit_amt q.
Proof.
  intros Hpq. unfold jit_amt, jit_fee, saturating_sub.
  assert ((q * open_fee_ppm c + 999_999) / 1_000_000 ≤ (p * open_fee_ppm c + 999_999) / 1_000_000 + (q - p)); [|lia].
  rewrite <-Z.div_add by lia. apply Z.div_le_mono; nia.
Qed.

(** When none of its steps overflows. *)
Definition jit_fits (p : Z) : Prop :=
  p * open_fee_ppm c + 999_999 ≤ u64_max ∧ open_fee_min_sat c * 1000 ≤ u64_max ∧
  jit_amt p * op ≤ u64_max ∧ jit_amt p + jit_amt p * op / 1_000_000 ≤ u64_max.

Lemma jit_fits_mono p q : 0 ≤ p ≤ q → jit_fits q → jit_fits p.
Proof.
  intros Hpq (H1 & H2 & H3 & H4). pose proof (jit_amt_mono p q ltac:(lia)) as Hm. unfold jit_fits.
  assert (0 ≤ jit_amt p) by (unfold jit_amt, saturating_sub; lia).
  assert (jit_amt p * op / 1_000_000 ≤ jit_amt q * op / 1_000_000) by (apply Z.div_le_mono; nia).
  split_and!; [nia|done|nia|lia].
Qed.

Lemma jit_channel_Some p ch :
  0 ≤ p → jit_channel_sat c op p = Some ch ↔
  jit_fits p ∧ 0 < jit_amt p ∧ ch = (jit_amt p + jit_amt p * op / 1_000_000) / 1000.
Proof.
  intros Hp. unfold jit_channel_sat, jit_fits. fold (jit_fee p).
  assert (0 ≤ jit_amt p) by (unfold jit_amt, saturating_sub; lia).
  assert (0 ≤ jit_amt p * op / 1_000_000) by (apply Z.div_pos; nia).
  split.
  - intros (a & [-> Ha]%checked_mul_Some & Hx)%bind_Some. apply bind_Some in Hx as (b & [-> Hb]%checked_add_Some & Hx).
    apply bind_Some in Hx as (m & [-> Hm]%checked_mul_Some & Hx). fold (jit_fee p) in Hx. fold (jit_amt p) in Hx.
    destruct (Z.eqb_spec (jit_amt p) 0); [done|]. apply bind_Some in Hx as (o & [-> Ho]%checked_mul_Some & Hx).
    apply bind_Some in Hx as (s & [-> Hs]%checked_add_Some & [= <-]). split_and!; lia.
  - intros ((H1 & H2 & H3 & H4) & H5 & ->).
    assert (H6 : p * open_fee_ppm c ≤ u64_max) by lia.
    rewrite (proj2 (checked_mul_Some u64_max p (open_fee_ppm c) _) (conj eq_refl H6)). cbn [mbind option_bind].
    rewrite (proj2 (checked_add_Some u64_max (p * open_fee_ppm c) 999_999 _) (conj eq_refl H1)). cbn [mbind option_bind].
    rewrite (proj2 (checked_mul_Some u64_max (open_fee_min_sat c) 1000 _) (conj eq_refl H2)). cbn [mbind option_bind].
    fold (jit_fee p). fold (jit_amt p). destruct (Z.eqb_spec (jit_amt p) 0); [lia|].
    rewrite (proj2 (checked_mul_Some u64_max (jit_amt p) op _) (conj eq_refl H3)). cbn [mbind option_bind].
    by rewrite (proj2 (checked_add_Some u64_max (jit_amt p) (jit_amt p * op / 1_000_000) _) (conj eq_refl H4)).
Qed.

Lemma jit_ok_mono p q r : 0 ≤ p ≤ q → q ≤ r → jit_ok c op p = true → jit_ok c op r = true → jit_ok c op q = true.
Proof.
  unfold jit_ok. intros Hpq Hqr Hp Hr.
  destruct (jit_channel_sat c op p) as [cp|] eqn:Ep; [|done]. apply jit_channel_Some in Ep as (Hfp & Hap & ->); [|lia].
  destruct (jit_channel_sat c op r) as [cr|] eqn:Er; [|done]. apply jit_channel_Some in Er as (Hfr & Har & ->); [|lia].
  pose proof (jit_amt_mono p q ltac:(lia)). pose proof (jit_fits_mono q r ltac:(lia) Hfr).
  assert (E : jit_channel_sat c op q = Some ((jit_amt q + jit_amt q * op / 1_000_000) / 1000))
    by (apply jit_channel_Some; [lia|]; split_and!; [done|lia|done]).
  rewrite E.
  apply Z.leb_le in Hp. apply Z.leb_le. etrans; [exact Hp|]. apply Z.div_le_mono; [lia|].
  assert (jit_amt p * op / 1_000_000 ≤ jit_amt q * op / 1_000_000) by (apply Z.div_le_mono; nia). lia.
Qed.

(** The search finds the smallest size that is large enough. *)
Lemma bounds_loop_spec rounds lo hi :
  0 ≤ lo ≤ hi → hi - lo < 2 ^ Z.of_nat rounds → jit_ok c op hi = true →
  let r := bounds_loop rounds c op lo hi in
  lo ≤ r ≤ hi ∧ jit_ok c op r = true ∧ ∀ p, lo ≤ p < r → jit_ok c op p = false.
Proof.
  revert lo hi. induction rounds as [|rounds IH]; intros lo hi Hle Hlt Hok.
  { change (2 ^ Z.of_nat 0) with 1 in Hlt. assert (hi = lo) as -> by lia. cbn. split_and!; [lia|lia|done|lia]. }
  cbn [bounds_loop]. destruct (Z.ltb_spec lo hi); [|assert (hi = lo) as -> by lia; split_and!; [lia|lia|done|lia]].
  rewrite Nat2Z.inj_succ, Z.pow_succ_r in Hlt by lia. set (mid := lo + (hi - lo) / 2).
  assert (lo ≤ mid < hi ∧ mid - lo < 2 ^ Z.of_nat rounds ∧ hi - (mid + 1) < 2 ^ Z.of_nat rounds) as (Hmid & Hl & Hr).
  { unfold mid. Z.to_euclidean_division_equations. lia. }
  destruct (jit_ok c op mid) eqn:Em.
  - destruct (IH lo mid) as (H1 & H2 & H3); [lia|done|done|]. split_and!; [lia|lia|done|done].
  - destruct (IH (mid + 1) hi) as (H1 & H2 & H3); [lia|done|done|]. split_and!; [lia|lia|done|].
    intros p Hp. destruct (Z.le_gt_cases p mid); [|apply H3; lia].
    destruct (jit_ok c op p) eqn:Ep; [|done]. rewrite (jit_ok_mono p mid hi) in Em by (try done; lia). done.
Qed.
End sizes.

#[global] Opaque bounds_loop.

(** C37. The payment sizes the service offers are exactly those that open
    channels of the sizes it wants: within the bounds [effective_payment_bounds]
    returns, every payment opens a channel between the smallest and the largest
    size allowed; below the lower bound none the configuration admits does; the
    upper bound is the configured one, or the next size up could exceed the
    largest channel. *)
Theorem payment_bounds_exact c op lo hi :
  validate_sizes c true = Ok tt → 0 ≤ open_fee_ppm c → 0 ≤ open_fee_min_sat c → 0 ≤ min_payment_size_msat c → 0 ≤ channel_max_sat c →
  u32 op → effective_payment_bounds c (Some op) = Ok (lo, hi) →
  min_payment_size_msat c ≤ lo ≤ hi ∧ hi ≤ max_payment_size_msat c ∧
  (∀ p, lo ≤ p ≤ hi → ∃ ch, jit_channel_sat c op p = Some ch ∧ channel_min_sat c ≤ ch ≤ channel_max_sat c) ∧
  (∀ p, min_payment_size_msat c ≤ p < lo → jit_ok c op p = false) ∧
  (hi = max_payment_size_msat c ∨ channel_max_sat c * 10^9 < (hi + 1) * (10^6 + op)).
Proof.
  unfold validate_sizes. intros Hv Hppm Hmin Hpay Hmax Hop Heff.
  rewrite !bail_if_bind_Ok in Hv. destruct Hv as (Hv1 & Hv2 & _ & Hv3 & Hv4 & _). zbool.
  unfold effective_payment_bounds in Heff. cbn [ok_or] in Heff. apply bind_Ok in Heff as (op' & [= <-] & Heff).
  apply bind_Ok in Heff as (m & [-> Hm]%ok_or_Ok%checked_mul_Some & Heff).
  set (cap := channel_max_sat c * (1000 * 1_000_000) / (1_000_000 + op)) in *.
  destruct Hop as [Hop0 Hop1]. assert (0 ≤ cap) by (apply Z.div_pos; nia).
  assert (Hhi : Z.min cap (max_payment_size_msat c) mod 2 ^ 64 = Z.min cap (max_payment_size_msat c)).
  { apply Z.mod_small. unfold MAX_PAYMENT_CAP_MSAT in *. lia. }
  rewrite Hhi in Heff. set (top := Z.min cap (max_payment_size_msat c)) in *.
  apply bail_if_bind_Ok in Heff as [Hb Heff]. apply bail_if_bind_Ok in Heff as [_ Heff].
  remember (bounds_loop 64 c op (min_payment_size_msat c) top) as r eqn:Er. injection Heff as <- <-.
  apply orb_false_iff in Hb as [Hb1 Hb2%negb_false_iff]. zbool.
  assert (Hpp : 0 ≤ open_fee_ppm c ≤ 1_000_000) by lia.
  destruct (bounds_loop_spec c op Hpp Hop0 64 (min_payment_size_msat c) top) as (Hr & Hok & Hlow); [lia| |done|].
  { unfold top, MAX_PAYMENT_CAP_MSAT in *. change (2 ^ Z.of_nat 64) with (2^64). lia. }
  rewrite <-Er in Hr, Hok, Hlow. split_and!; [lia|lia|lia| |done|].
  - intros p Hp. pose proof (jit_ok_mono c op Hpp Hop0 r p top ltac:(lia) ltac:(lia) Hok Hb2) as Hpk. unfold jit_ok in Hpk.
    destruct (jit_channel_sat c op p) as [ch|] eqn:Ech; [|done]. apply Z.leb_le in Hpk. exists ch. split_and!; [done|done|].
    apply jit_channel_Some in Ech as (_ & Ha & ->); [|lia..].
    assert (Hamt : jit_amt c p ≤ p) by (unfold jit_amt, saturating_sub, jit_fee; lia).
    assert (Hcap : p * (1_000_000 + op) ≤ channel_max_sat c * (1000 * 1_000_000)).
    { assert (p ≤ cap) by lia. transitivity (cap * (1_000_000 + op)); [nia|]. unfold cap. pose proof (Z.mul_div_le (channel_max_sat c * (1000 * 1_000_000)) (1_000_000 + op) ltac:(lia)). lia. }
    apply Z.div_le_upper_bound; [lia|]. rewrite <-Z.div_add_l by lia. apply Z.div_le_upper_bound; nia.
  - destruct (Z.le_gt_cases (max_payment_size_msat c) cap); [left; lia|]. right. assert (top = cap) as -> by lia.
    unfold cap. pose proof (Z.mul_succ_div_gt (channel_max_sat c * (1000 * 1_000_000)) (1_000_000 + op) ltac:(lia)). lia.
Qed.

(** *** Outbound channels *)
Lemma due_from_spec snap s now budget targets :
  Forall (λ t, 0 ≤ ob_sat t) targets → 0 ≤ reserve_per_channel_sat snap →
  let l := due_from snap s now budget targets in
  l `sublist_of` targets ∧ Forall (λ t, wanted snap s now t = true) l ∧ sumZ (needs snap) l ≤ Z.max budget 0.
Proof.
  intros Ht Hr. revert budget. induction Ht as [|t targets Ht0 Ht IH]; intros budget; cbn [due_from].
  { split_and!; [done|done|rewrite sumZ_nil; lia]. }
  destruct (wanted snap s now t) eqn:Ew; cbn [andb]; [|destruct (IH budget) as (H1 & H2 & H3); split_and!; [by constructor|done|done]].
  assert (0 ≤ needs snap t) by (unfold needs, saturating_add, u64_max; lia).
  destruct (Z.leb_spec (needs snap t) budget).
  - destruct (IH (budget - needs snap t)) as (H1 & H2 & H3). split_and!; [by constructor|by constructor|]. rewrite sumZ_cons. lia.
  - destruct (IH budget) as (H1 & H2 & H3). split_and!; [by constructor|done|done].
Qed.

(** The channels to open are among those configured, in that order; together
    with their reserve the spendable balance covers them; none is to a peer
    with a channel, to one an open was started for in this run, or to one whose
    last attempt failed less than [RETRY_AFTER] ago; without a synced wallet
    there are none. *)
Theorem due_safe targets snap s now :
  Forall (λ t, 0 ≤ ob_sat t) targets → 0 ≤ reserve_per_channel_sat snap → 0 ≤ spendable_sat snap →
  let l := due targets snap s now in
  l `sublist_of` targets ∧ sumZ (needs snap) l ≤ spendable_sat snap ∧ (wallet_synced snap = false → l = []) ∧
  Forall (λ t, ob_node_id t ∉ with_channel snap ∧ ob_node_id t ∉ os_opened s ∧
    ∀ at_, os_failed_at s !! ob_node_id t = Some at_ → RETRY_AFTER ≤ now - at_) l.
Proof.
  intros Ht Hr Hs. unfold due. destruct (wallet_synced snap); [|split_and!; [apply sublist_nil_l|rewrite sumZ_nil; lia|done|done]].
  destruct (due_from_spec snap s now (spendable_sat snap) targets Ht Hr) as (H1 & H2 & H3). split_and!; [done|lia|done|].
  eapply Forall_impl; [exact H2|]. intros t [[Hc Ho]%andb_true_iff Hf]%andb_true_iff. zbool. split_and!; [done|done|].
  intros at_ Hat. rewrite Hat in Hf. zbool. unfold RETRY_AFTER, saturating_sub in *. lia.
Qed.

(** *** The operator's token *)
Lemma strip_prefix_spec p s r : strip_prefix p s = Some r → String.prefix p s = true.
Proof. unfold strip_prefix. by destruct (String.prefix p s). Qed.

(** Commands are let in with the token after [Bearer] and with nothing else. *)
Theorem authorized_exact header token :
  authorized header token = true ↔ ∃ given, header ≫= strip_prefix "Bearer " = Some given ∧ trim given = token.
Proof.
  unfold authorized. destruct (header ≫= strip_prefix "Bearer ") as [given|]; [|split; [done|by intros (? & ? & _)]].
  rewrite andb_true_iff, Nat.eqb_eq, Z.eqb_eq. split.
  - intros [Hlen Hd%no_diffs]; [|done]. exists given. split; [done|].
    rewrite <-(String.string_of_list_byte_of_string (trim given)), Hd. apply String.string_of_list_byte_of_string.
  - intros (g & [= <-] & <-). split; [done|]. by apply no_diffs.
Qed.

(** ** Witnesses *)
Lemma withdrawal_exact_witness :
  withdrawal 50_000 3 = Some {| payout_sat := 49_400; w_fee_sat := 600 |} ∧
  let net := WITHDRAW_TX_VBYTES * 3 in
  let most := Z.max (Z.max (50_000 / 100) 1000) net in
  match withdrawal 50_000 3 with
  | Some w => payout_sat w + w_fee_sat w = 50_000 ∧ DUST_SAT ≤ payout_sat w ∧ net ≤ w_fee_sat w ≤ most ∧
      (w_fee_sat w = net ∨ DUST_SAT ≤ w_fee_sat w - net)
  | None => 50_000 < most + DUST_SAT
  end.
Proof. split; [done|]. apply (withdrawal_exact 50_000 3); [by unfold in_range, u64_max|by unfold MAX_FEERATE_SAT_VB]. Defined.

(** The defaults of [lsp.toml.example]. *)
Definition jit_example : JitConfig := {|
  open_fee_ppm := 10_000; open_fee_min_sat := 1_000; min_payment_size_msat := 10_000_000; max_payment_size_msat := 500_000_000;
  channel_size_factor := "2"; channel_min_sat := 100_000; channel_max_sat := 500_000 |}.

Lemma payment_bounds_exact_witness :
  effective_payment_bounds jit_example (Some 1_000_000) = Ok (51_000_000, 250_000_000) ∧
  min_payment_size_msat jit_example ≤ 51_000_000 ≤ 250_000_000 ∧ 250_000_000 ≤ max_payment_size_msat jit_example ∧
  (∀ p, 51_000_000 ≤ p ≤ 250_000_000 →
    ∃ ch, jit_channel_sat jit_example 1_000_000 p = Some ch ∧ channel_min_sat jit_example ≤ ch ≤ channel_max_sat jit_example) ∧
  (∀ p, min_payment_size_msat jit_example ≤ p < 51_000_000 → jit_ok jit_example 1_000_000 p = false) ∧
  (250_000_000 = max_payment_size_msat jit_example ∨
   channel_max_sat jit_example * 10^9 < (250_000_000 + 1) * (10^6 + 1_000_000)).
Proof.
  assert (E : effective_payment_bounds jit_example (Some 1_000_000) = Ok (51_000_000, 250_000_000)) by by vm_compute.
  split; [exact E|]. refine (payment_bounds_exact jit_example 1_000_000 51_000_000 250_000_000 _ _ _ _ _ _ E);
    [by vm_compute..|unfold in_range, u32_max; lia].
Defined.
