(* ===== verification/Lsp.v ===== *)
(** The Lightning service provider around its ledger: the world its two
    threads share, what they ask of their environment, the notices it sends
    ([fortis-lsp/src/push.rs]) and who may give it orders
    ([account_auth.rs], [admin.rs]).

    A request or an event handler is a program of [Threads].  One step is one
    transaction of the ledger (they run under its lock; a method that commits
    two statements, or takes the lock twice, is two steps), one question to the
    environment, or one call to the Lightning node.  What the environment
    answers is a function of how many steps came before, so nothing relates two
    answers; the disk too may refuse any transaction.  Lines for the journal
    are left out. *)

From Stdlib Require Import Ascii.
From S2P Require Import Prelude Json Threads Bitcoin Script Ledger LspRules.

(** ** The environment *)
Record PeerDetails : Type := { pd_node_id : string; pd_address : string; pd_is_connected : bool }.

Record ChannelDetails : Type := {
  cd_counterparty_node_id : string;
  cd_user_channel_id : Z;
  cd_is_usable : bool;
  cd_next_outbound_htlc_limit_msat : Z;
  cd_forwarding_fee : Z * Z;
}.

Inductive SendError : Type := Unregistered | Other (msg : string).

(** The clock in seconds and in nanoseconds, the monotonic clock, a disk that
    may refuse a transaction, [/dev/urandom]. *)
Class LspSystem : Type := {
  now_secs : nat → Z;
  now_nanos : nat → Z;
  instant_now : nat → Z;
  disk : nat → option string;
  urandom32 : nat → bytes;
}.

(** Node ids as text, LN message signatures, [serde_json::from_slice]. *)
Class LspLib : Type := {
  parse_node : string → option string;
  verify_message : bytes → string → string → bool;
  json_from_slice : bytes → option Value;
}.

(** The trait [AccountNode] of [account_api.rs], its errors as text; [None]
    of [send_onchain]: not an address of this network.  [invoice_details] only
    reads the text of an invoice. *)
Class AccountNode : Type := {
  is_connected : nat → string → bool;
  receive_invoice : nat → Z → string → Z → string + (string * bytes);
  invoice_details : string → string + (option Z * bytes);
  send_bolt11 : nat → string → option Z → string + unit;
  backing_sat : nat → Z;
  send_onchain : nat → string → Z → Z → option string + bytes;
  receive_for_hash : nat → Z → string → Z → bytes → string + string;
  create_offer : nat → string → string + (string * bytes);
  paid_offer : nat → bytes → option bytes;
}.

(** What [held.rs], [main.rs] and [admin.rs] use of [ldk_node::Node], and
    Firebase's answer to a notification. *)
Class LdkNode : Type := {
  best_height : nat → Z;
  list_peers : nat → list PeerDetails;
  list_channels : nat → list ChannelDetails;
  wallet_synced_at : nat → option Z;
  spendable_onchain_sat : nat → Z;
  per_channel_reserve_sats : Z;
  spontaneous_send : nat → Z → string → string + bytes;
  claim_for_hash : nat → bytes → Z → bytes → string + unit;
  fail_for_hash : nat → bytes → string + unit;
  open_channel : nat → string → string → Z → Z → Z * Z → string + Z;
  open_announced_channel : nat → string → string → Z → Z * Z → string + Z;
  update_channel_config : nat → Z → string → Z * Z → string + unit;
  close_channel : nat → Z → string → string + unit;
  inbound_payments : nat → list (option bytes * option Z * Z);
  parse_invoice : string → string + option Z;
  pay_invoice : nat → string → option Z → string + bytes;
  fcm_send : nat → string → string → string → Value → SendError + unit;
}.

(** ** The world *)

(** What the node and the push service were asked to do and agreed to;
    [CForward] and [CKeysend] are both spontaneous payments, the first one
    delivers the held payment of that hash. *)
Inductive NodeCall : Type :=
| CSend (invoice : string) (amount_msat : option Z)
| COnchain (address : string) (amount_sat feerate : Z) (txid : bytes)
| CKeysend (amount_msat : Z) (node : string) (id : bytes)
| CForward (hash : bytes) (amount_msat : Z) (node : string) (id : bytes)
| CChannel (node address : string) (channel_sat push_msat : Z) (ucid : Z)
| CAnnounced (node address : string) (sat : Z) (ucid : Z)
| CClaim (hash : bytes) (amount_msat : Z) (preimage : bytes)
| CFail (hash : bytes)
| CConfig (ucid : Z) (node : string) (fees : Z * Z)
| CClose (ucid : Z) (node : string)
| CAdminPay (invoice : string) (amount_msat : option Z) (id : bytes)
| CPush (token title body : string) (data : Value).

Record LspWorld : Type := {
  lw_db : Db;
  lw_asked : nat;                 (* steps so far *)
  lw_calls : list NodeCall;       (* the latest first *)
  lw_woken : gset bytes;          (* [WOKEN] *)
  lw_notices : Z;                 (* [AccountService::notices] *)
  lw_outbound : OutboundState;    (* [outbound_state] of the main loop *)
}.

Definition lsp_start (db : Db) : LspWorld := {|
  lw_db := db; lw_asked := 0; lw_calls := []; lw_woken := ∅; lw_notices := 0;
  lw_outbound := outbound_default |}.

Definition stepped (w : LspWorld) : LspWorld := {|
  lw_db := lw_db w; lw_asked := S (lw_asked w); lw_calls := lw_calls w; lw_woken := lw_woken w;
  lw_notices := lw_notices w;
  lw_outbound := lw_outbound w |}.
Definition with_db (w : LspWorld) (db : Db) : LspWorld := {|
  lw_db := db; lw_asked := lw_asked w; lw_calls := lw_calls w; lw_woken := lw_woken w; lw_notices := lw_notices w;
  lw_outbound := lw_outbound w |}.
Definition with_call (w : LspWorld) (c : NodeCall) : LspWorld := {|
  lw_db := lw_db w; lw_asked := lw_asked w; lw_calls := c :: lw_calls w; lw_woken := lw_woken w;
  lw_notices := lw_notices w;
  lw_outbound := lw_outbound w |}.
Definition with_woken (w : LspWorld) (s : gset bytes) : LspWorld := {|
  lw_db := lw_db w; lw_asked := lw_asked w; lw_calls := lw_calls w; lw_woken := s; lw_notices := lw_notices w;
  lw_outbound := lw_outbound w |}.
Definition with_notices (w : LspWorld) (n : Z) : LspWorld := {|
  lw_db := lw_db w; lw_asked := lw_asked w; lw_calls := lw_calls w; lw_woken := lw_woken w; lw_notices := n;
  lw_outbound := lw_outbound w |}.
Definition with_outbound (w : LspWorld) (o : OutboundState) : LspWorld := {|
  lw_db := lw_db w; lw_asked := lw_asked w; lw_calls := lw_calls w; lw_woken := lw_woken w;
  lw_notices := lw_notices w; lw_outbound := o |}.

(** ** Programs *)
Definition Lsp (A : Type) : Type := Prog LspWorld (LResult A).
#[export] Instance Lsp_ret : MRet Lsp := λ A a, Done (Ok a).
#[export] Instance Lsp_bind : MBind Lsp := λ A B f m,
  prog_bind m (λ r, match r with Ok a => f a | Err e => Done (Err e) | Panic => Done Panic end).

(** The result of a program, for a caller that looks at it. *)
Definition attempt {A} (m : Lsp A) : Lsp (LResult A) :=
  prog_bind m (λ r, match r with Panic => Done Panic | r => Done (Ok r) end).

Definition ask {A} (f : nat → A) : Lsp A := atomically (λ w, (Ok (f (lw_asked w)), stepped w)).

(** A call to the node, written down when the node agreed. *)
Definition call {E A} (f : nat → E + A) (log : A → NodeCall) : Lsp (E + A) := atomically (λ w,
  let r := f (lw_asked w) in
  (Ok r, match r with inr a => with_call (stepped w) (log a) | inl _ => stepped w end)).

Section programs.
Context `{LspSystem}.

(** A transaction: on an error, the disk's or its own, the database is the
    old one. *)
Definition db_tx {A} (f : Z → Db → LResult (A * Db)) : Lsp A := atomically (λ w,
  match disk (lw_asked w) with
  | Some msg => (Err (DbError msg), stepped w)
  | None =>
      match f (now_secs (lw_asked w)) (lw_db w) with
      | Ok (a, db) => (Ok a, with_db (stepped w) db)
      | Err e => (Err e, stepped w)
      | Panic => (Panic, stepped w)
      end
  end).

Definition db_do (f : Z → Db → LResult Db) : Lsp unit := db_tx (λ now db, pair tt <$> f now db).
Definition db_set (f : Z → Db → Db) : Lsp unit := db_tx (λ now db, Ok (tt, f now db)).
Definition db_pair {A} (f : Z → Db → A * Db) : Lsp A := db_tx (λ now db, Ok (f now db)).
Definition db_read {A} (f : Db → LResult A) : Lsp A := db_tx (λ _ db, a ← f db; Ok (a, db)).
Definition db_get {A} (f : Db → A) : Lsp A := db_tx (λ _ db, Ok (f db, db)).

(** The two operations of [account.rs] that take the lock twice. *)
Definition settle_send_tx (id : string) (fee : Z) (hash : option bytes) : Lsp unit :=
  base ← db_read (λ db, h ← ok_or (holds db !! id) (UnknownHold id); mret (Z.max (h_base h) 0));
  db_do (λ now, settle_hold now id (saturating_add u64_max base fee) fee hash).

Definition start_conversion_tx (node id : string) : Lsp Z :=
  a ← db_read (λ db, Ledger.balance db node);
  let free := free_msat a in
  _ ← db_do (λ _, hold_kind node id free free "conversion");
  mret free.

(** The two that commit more than one statement; the lock is held over them. *)
Definition use_nonce (node nonce : string) (expires_at : Z) : Lsp bool :=
  _ ← db_set prune_nonces;
  db_pair (λ _, insert_nonce node nonce expires_at).

Definition held_update (hash : bytes) (state : string) (claimable : option (Z * option Z))
    (forward_id : option (option bytes)) : Lsp unit :=
  _ ← db_set (λ _, held_set hash (Some state) None None);
  _ ← match claimable with Some _ => db_set (λ _, held_set hash None claimable None) | None => mret tt end;
  match forward_id with Some _ => db_set (λ _, held_set hash None None forward_id) | None => mret tt end.

(** ** Notices ([push.rs]) *)
Context `{LdkNode}.

Fixpoint group_from (i len : nat) (s : string) : string :=
  match s with
  | EmptyString => EmptyString
  | String c s =>
      (if Nat.ltb 0 i && Nat.eqb ((len - i) mod 3) 0 then "," else EmptyString) +:+ String c (group_from (S i) len s)
  end.
Definition group (n : Z) : string := group_from 0 (String.length (pretty n)) (pretty n).

(** [fcm]: whether push is configured. *)
Definition send_to (fcm : bool) (node title body : string) (data : Value) : Lsp unit :=
  if fcm then
    r ← attempt (db_get (push_token node));
    match r with
    | Ok (Some token) =>
        e ← call (λ n, fcm_send n token title body data) (λ _, CPush token title body data);
        match e with
        | inl Unregistered => _ ← attempt (db_set (λ _, drop_push_token node token)); mret tt
        | inl (Other _) | inr _ => mret tt
        end
    | _ => mret tt
    end
  else mret tt.

Definition push_data (kd : string) (amount_msat : Z) : Value :=
  VObj [("kind", VStr kd); ("amount_msat", VStr (pretty amount_msat))].

(** [wake] spells out what [send_to] does; only its log lines differ. *)
Definition wake (fcm : bool) (node : string) (amount_msat : Z) : Lsp unit :=
  send_to fcm node "Incoming Lightning payment"
    (group (amount_msat / 1000) +:+ " sat is waiting for you. Open Fortis to receive it.")
    (push_data "ln_held" amount_msat).

Definition received (fcm : bool) (node : string) (amount_msat : Z) : Lsp unit :=
  send_to fcm node "Lightning payment received"
    (group (amount_msat / 1000) +:+
     " sat received. It's on your Fortis balance and moves into your wallet when you open Fortis.")
    (push_data "ln_received" amount_msat).
End programs.

(** ** Signed requests ([account_auth.rs]) *)
Definition SIG_PREFIX : string := "fortis-account-v1:".
Definition MAX_AHEAD_SECS : Z := 300.

Record AccountRequest : Type := {
  ar_node_id : string;
  ar_op : string;
  ar_params : Value;
  ar_nonce : string;
  ar_expires_at : Z;
}.

Inductive AuthError : Type := Malformed | BadSignature | Expired | TooFarAhead | Replayed.

#[export] Instance AuthError_eq_dec : EqDecision AuthError.
Proof. solve_decision. Defined.

Definition auth_error_str (e : AuthError) : string :=
  match e with
  | Malformed => "malformed" | BadSignature => "bad_signature" | Expired => "expired"
  | TooFarAhead => "too_far_ahead" | Replayed => "replayed"
  end.

Definition is_ascii_alphanumeric (a : ascii) : bool := between 48 57 a || between 65 90 a || between 97 122 a.

Definition nonce_ok (n : string) : bool :=
  Nat.leb 16 (String.length n) && Nat.leb (String.length n) 64 &&
  all_chars (λ a, is_ascii_alphanumeric a || Ascii.eqb a "-" || Ascii.eqb a "_") n.

Definition op_ok (s : string) : bool := negb (String.eqb s EmptyString) && Nat.leb (String.length s) 32.

(** [Option::filter] *)
Definition keep {A} (p : A → bool) (o : option A) : option A := a ← o; if p a then Some a else None.

Section auth.
Context `{LspLib}.

Definition parse (body : bytes) : result AuthError AccountRequest :=
  v ← ok_or (json_from_slice body) Malformed;
  node_id ← ok_or (as_string (vindex "node_id" v) ≫= parse_node) Malformed;
  op ← ok_or (keep op_ok (as_string (vindex "op" v))) Malformed;
  nonce ← ok_or (keep nonce_ok (as_string (vindex "nonce" v))) Malformed;
  expires_at ← ok_or (as_u64 (vindex "expires_at" v)) Malformed;
  mret {| ar_node_id := node_id; ar_op := op; ar_params := default VNull (vget "params" v); ar_nonce := nonce;
          ar_expires_at := expires_at |}.

(** The checks before the nonce is spent. *)
Definition check_request (body : bytes) (sig : string) (now : Z) : result AuthError AccountRequest :=
  req ← parse body;
  let msg := String.list_byte_of_string SIG_PREFIX ++ body in
  _ ← bail_if (negb (verify_message msg sig (ar_node_id req))) BadSignature;
  _ ← bail_if (ar_expires_at req <? now) Expired;
  _ ← bail_if (wrapping_add u64_max now MAX_AHEAD_SECS <? ar_expires_at req) TooFarAhead;
  mret req.

Definition verify `{LspSystem} (body : bytes) (sig : string) (now : Z) : Lsp (result AuthError AccountRequest) :=
  match check_request body sig now with
  | Ok req =>
      r ← attempt (use_nonce (ar_node_id req) (ar_nonce req) (ar_expires_at req));
      mret match r with
           | Ok true => Ok req
           | Ok false => Err Replayed
           | _ => Err Malformed
           end
  | Err e => mret (Err e)
  | Panic => Done Panic
  end.
End auth.

(** ** The operator's commands ([admin.rs]) *)
Section admin.
Context `{LspLib} `{LdkNode} `{BitcoinLib}.

Definition pay_bolt11 (invoice : string) (amount_msat : option Z) : Lsp (string + string) :=
  match parse_invoice (trim invoice) with
  | inl e => mret (inl e)
  | inr None =>
      match amount_msat with
      | None => mret (inl "amount_msat is required for an amountless invoice")
      | Some a =>
          r ← call (λ n, pay_invoice n (trim invoice) (Some a)) (CAdminPay (trim invoice) (Some a));
          mret match r with inr id => inr (hex_encode id) | inl e => inl e end
      end
  | inr (Some _) =>
      r ← call (λ n, pay_invoice n (trim invoice) None) (CAdminPay (trim invoice) None);
      mret match r with inr id => inr (hex_encode id) | inl e => inl e end
  end.

Fixpoint close_all (pk : string) (l : list ChannelDetails) : Lsp (string + unit) :=
  match l with
  | [] => mret (inr tt)
  | c :: l =>
      r ← call (λ n, close_channel n (cd_user_channel_id c) pk) (λ _, CClose (cd_user_channel_id c) pk);
      match r with inl e => mret (inl e) | inr _ => close_all pk l end
  end.

Definition close_peer (peer : string) : Lsp (string + nat) :=
  match parse_node (trim peer) with
  | None => mret (inl "peer must be a node id")
  | Some pk =>
      all ← ask list_channels;
      let channels := filter (λ c, cd_counterparty_node_id c = pk) all in
      match channels with
      | [] => mret (inl "no channel with that peer")
      | _ =>
          r ← close_all pk channels;
          mret match r with inl e => inl e | inr _ => inr (length channels) end
      end
  end.

Definition admin_reply : Type := Z * Value.
Definition admin_err (status : Z) (e : string) : admin_reply := (status, VObj [("error", VStr e)]).

Definition admin_pay (auth : option string) (token : string) (body : bytes) : Lsp admin_reply :=
  if negb (authorized auth token) then mret (admin_err 401 "unauthorized")
  else match json_from_slice body with
  | None => mret (admin_err 400 "body must be JSON")
  | Some v =>
      match as_string (vindex "invoice" v) with
      | None => mret (admin_err 400 "invoice")
      | Some invoice =>
          r ← pay_bolt11 invoice (as_u64 (vindex "amount_msat" v));
          mret match r with
               | inr id => (200, VObj [("payment_id", VStr id)])
               | inl e => admin_err 400 e
               end
      end
  end.

Definition admin_close (auth : option string) (token : string) (body : bytes) : Lsp admin_reply :=
  if negb (authorized auth token) then mret (admin_err 401 "unauthorized")
  else match json_from_slice body ≫= (λ v, as_string (vindex "peer" v)) with
  | None => mret (admin_err 400 "peer")
  | Some peer =>
      r ← close_peer peer;
      mret match r with
           | inr n => (200, VObj [("closing", VNum (Z.of_nat n))])
           | inl e => admin_err 400 e
           end
  end.
End admin.
