(* ===== verification/LspApi.v ===== *)
(** The account service of the Lightning service provider
    ([fortis-lsp/src/account_api.rs]): the signed requests of [POST /account]
    and what payments do to the accounts. *)

From Stdlib Require Import Ascii.
From S2P Require Import Prelude Json Threads Bitcoin Script Ledger LspRules Lsp.

Definition INVOICE_EXPIRY_SECS : Z := 3600.
Definition MAX_BODY : nat := 16 * 1024.
Definition MAX_HISTORY : Z := 200.
Definition MAX_FEE_INVOICE_MSAT : Z := 50_000_000.
Definition MAX_PUSH_TOKEN_LEN : nat := 1024.

(** [sv_fcm]: whether push is configured. *)
Record AccountService : Type := {
  account_max_msat : Z;
  custody_max_msat : Z;
  min_channel_receive_sat : Z;
  sv_fcm : bool;
}.

Definition new_service (account_max_sat custody_max_sat min_channel_receive : Z) (fcm : bool) : AccountService := {|
  account_max_msat := saturating_mul u64_max account_max_sat 1000;
  custody_max_msat := saturating_mul u64_max custody_max_sat 1000;
  min_channel_receive_sat := min_channel_receive;
  sv_fcm := fcm |}.

Definition ApiReply : Type := Z * Value.
Definition err (status : Z) (error : string) : ApiReply := (status, VObj [("error", VStr error)]).
Definition auth_err (status : Z) (reason : string) : ApiReply :=
  (status, VObj [("error", VStr "auth"); ("reason", VStr reason)]).

(** [s.chars().take(n).collect()]: a byte [10xxxxxx] goes on with the
    character before it. *)
Fixpoint take_chars (n : nat) (s : string) : string :=
  match s with
  | EmptyString => EmptyString
  | String a s =>
      if between 0x80 0xBF a then String a (take_chars n s)
      else match n with O => EmptyString | S n => String a (take_chars n s) end
  end.

Definition is_ascii_graphic (a : ascii) : bool := between 33 126 a.

Section api.
Context `{BitcoinLib} `{LspSystem} `{LspLib} `{AccountNode} `{LdkNode} (sv : AccountService).

Definition send_hold_id (hash : bytes) : string := "send:" +:+ hex_encode hash.

Definition custody_sat : Lsp Z :=
  r ← attempt (db_read total_custody_msat);
  mret (match r with Ok t => t | _ => 0 end / 1000).

Definition balance (node : string) : Lsp ApiReply :=
  a ← db_read (λ db, Ledger.balance db node);
  mret (200, VObj [("balance_msat", VNum (balance_msat a)); ("held_msat", VNum (held_msat a));
                   ("max_msat", VNum (account_max_msat sv))]).

Definition custody_full : ApiReply :=
  (409, VObj [("error", VStr "custody_full"); ("min_channel_sat", VNum (min_channel_receive_sat sv))]).

Definition positive_amount (p : Value) : option Z := keep (λ a, 0 <? a) (as_u64 (vindex "amount_msat" p)).
Definition description_of (p : Value) : string :=
  take_chars 200 (default EmptyString (as_string (vindex "description" p))).

Definition invoice (node : string) (p : Value) (now : Z) : Lsp ApiReply :=
  match positive_amount p with
  | None => mret (err 400 "amount_msat")
  | Some amount =>
      let description := description_of p in
      if custody_max_msat sv =? 0 then mret custody_full
      else
        total ← db_read total_custody_msat;
        let after := saturating_add u64_max total amount in
        if custody_max_msat sv <? after then mret custody_full
        else
          backing ← ask backing_sat;
          if backing <? after / 1000 then mret custody_full
          else
            r ← ask (λ n, receive_invoice n amount description INVOICE_EXPIRY_SECS);
            match r with
            | inl _ => mret (err 502 "node")
            | inr (inv, hash) =>
                _ ← db_set (λ _, pending_invoice hash node amount (wrapping_add u64_max now INVOICE_EXPIRY_SECS));
                mret (200, VObj [("invoice", VStr inv)])
            end
  end.

Definition fee_invoice (node : string) (p : Value) : Lsp ApiReply :=
  match keep (λ a, (1 <=? a) && (a <=? MAX_FEE_INVOICE_MSAT)) (as_u64 (vindex "amount_msat" p)) with
  | None => mret (err 400 "amount_msat")
  | Some amount =>
      r ← ask (λ n, receive_invoice n amount "Fortis transfer fee" INVOICE_EXPIRY_SECS);
      match r with
      | inr (inv, hash) =>
          _ ← attempt (db_set (λ now, add_fee_invoice now hash node amount));
          mret (200, VObj [("invoice", VStr inv)])
      | inl _ => mret (err 502 "node")
      end
  end.

Definition hash_of (preimage : bytes) : bytes := sha256 preimage.

Definition channel_invoice (node : string) (p : Value) : Lsp ApiReply :=
  match positive_amount p with
  | None => mret (err 400 "amount_msat")
  | Some amount =>
      let description := description_of p in
      preimage ← ask urandom32;
      let hash := hash_of preimage in
      r ← ask (λ n, receive_for_hash n amount description INVOICE_EXPIRY_SECS hash);
      match r with
      | inr inv =>
          _ ← db_do (λ now, held_insert now hash node preimage amount);
          mret (200, VObj [("invoice", VStr inv)])
      | inl _ => mret (err 502 "node")
      end
  end.

Definition push_token_ok (t : string) : bool :=
  negb (String.eqb t EmptyString) && Nat.leb (String.length t) MAX_PUSH_TOKEN_LEN && all_chars is_ascii_graphic t.

Definition push_register (node : string) (p : Value) (now : Z) : Lsp ApiReply :=
  match keep push_token_ok (as_string (vindex "token" p)) with
  | None => mret (err 400 "token")
  | Some token =>
      _ ← db_set (λ _, set_push_token node token now);
      mret (200, VObj [("ok", VBool true)])
  end.

Definition offer (node : string) : Lsp ApiReply :=
  if custody_max_msat sv =? 0 then mret custody_full
  else
    known ← db_get (offer_of node);
    match known with
    | Some o => mret (200, VObj [("offer", VStr o)])
    | None =>
        r ← ask (λ n, create_offer n "Fortis");
        match r with
        | inr (o, id) =>
            _ ← db_set (λ _, set_offer node id o);
            mret (200, VObj [("offer", VStr o)])
        | inl _ => mret (err 502 "node")
        end
    end.

Definition withdraw_hold_id (node nonce : string) : string := "wd:" +:+ node +:+ ":" +:+ nonce.

Definition withdraw (node : string) (p : Value) (nonce : string) : Lsp ApiReply :=
  match keep (λ a, (0 <? a) && (a mod 1000 =? 0)) (as_u64 (vindex "amount_msat" p)),
        as_string (vindex "address" p),
        keep (λ f, (1 <=? f) && (f <=? MAX_FEERATE_SAT_VB)) (as_u64 (vindex "feerate_sat_vb" p)) with
  | Some amount, Some address, Some feerate =>
      match withdrawal (amount / 1000) feerate with
      | None => mret (err 400 "too_small")
      | Some wd =>
          let id := withdraw_hold_id node nonce in
          r ← attempt (db_do (λ _, hold_withdrawal node id amount));
          match r with
          | Err InsufficientBalance => mret (err 402 "insufficient")
          | Err e => Done (Err e)
          | _ =>
              s ← call (λ n, send_onchain n address (payout_sat wd) feerate) (COnchain address (payout_sat wd) feerate);
              match s with
              | inr txid =>
                  _ ← db_do (λ now, settle_withdrawal now id (wrapping_mul u64_max (w_fee_sat wd) 1000) txid);
                  mret (200, VObj [("txid", VStr (hex_encode (rev txid))); ("payout_sat", VNum (payout_sat wd));
                                   ("fee_sat", VNum (w_fee_sat wd))])
              | inl e =>
                  _ ← db_do (λ now, settle_hold now id 0 0 None);
                  mret match e with None => err 400 "address" | Some _ => err 502 "node" end
              end
          end
      end
  | _, _, _ => mret (err 400 "params")
  end.

(** What a request to pay is for: the invoice's amount, or the caller's where
    it has none. *)
Definition pay_amount (inv_amount asked : option Z) : string + Z :=
  match inv_amount, asked with
  | Some a, None => inr a
  | Some a, Some b => if a =? b then inr a else inl "amount_mismatch"
  | None, Some b => if 0 <? b then inr b else inl "amount_required"
  | None, None => inl "amount_required"
  end.

Definition pay (node : string) (p : Value) : Lsp ApiReply :=
  match as_string (vindex "invoice" p) with
  | None => mret (err 400 "invoice")
  | Some inv =>
      match invoice_details inv with
      | inl _ => mret (err 400 "invoice")
      | inr (inv_amount, hash) =>
          match pay_amount inv_amount (as_u64 (vindex "amount_msat" p)) with
          | inl e => mret (err 400 e)
          | inr amount =>
              owner ← db_get (invoice_owner parse_node hash);
              match owner with
              | Some to =>
                  if String.eqb to node then mret (err 400 "own_invoice")
                  else
                    r ← attempt (db_tx (λ now, transfer now node to hash amount));
                    match r with
                    | Err InsufficientBalance => mret (err 402 "insufficient")
                    | Err e => Done (Err e)
                    | _ => mret (200, VObj [("internal", VBool true); ("payment_hash", VStr (hex_encode hash));
                                            ("fee_msat", VNum 0)])
                    end
              | None =>
                  let id := send_hold_id hash in
                  r ← attempt (db_do (λ _, hold_send node id amount (wrapping_add u64_max amount (fee_cap_msat amount))));
                  match r with
                  | Err InsufficientBalance => mret (err 402 "insufficient")
                  | Err e => Done (Err e)
                  | _ =>
                      let pay_amount := match inv_amount with None => Some amount | Some _ => None end in
                      s ← call (λ n, send_bolt11 n inv pay_amount) (λ _, CSend inv pay_amount);
                      match s with
                      | inl _ =>
                          _ ← db_do (λ now, settle_hold now id 0 0 None);
                          mret (err 502 "send_failed")
                      | inr _ => mret (200, VObj [("internal", VBool false); ("payment_hash", VStr (hex_encode hash))])
                      end
                  end
              end
          end
      end
  end.

Definition entry_json (e : Entry) : Value :=
  VObj [("at_secs", VNum (at_secs e)); ("kind", VStr (entry_kind_str (kind e))); ("amount_msat", VNum (amount_msat e));
        ("fee_msat", VNum (fee_msat e)); ("payment_hash", vopt (λ h, VStr (hex_encode h)) (payment_hash e))].

Definition history (node : string) (p : Value) : Lsp ApiReply :=
  let limit := Z.min (Z.max (default 50 (as_u64 (vindex "limit" p))) 1) MAX_HISTORY in
  entries ← db_get (Ledger.history node (Z.to_nat limit));
  mret (200, VArr (map entry_json entries)).

(** The request of an authenticated node. *)
Definition dispatch (req : AccountRequest) (now : Z) : Lsp ApiReply :=
  let node := ar_node_id req in
  let p := ar_params req in
  if String.eqb (ar_op req) "balance" then balance node
  else if String.eqb (ar_op req) "invoice" then invoice node p now
  else if String.eqb (ar_op req) "pay" then pay node p
  else if String.eqb (ar_op req) "history" then history node p
  else if String.eqb (ar_op req) "fee_invoice" then fee_invoice node p
  else if String.eqb (ar_op req) "withdraw" then withdraw node p (ar_nonce req)
  else if String.eqb (ar_op req) "offer" then offer node
  else if String.eqb (ar_op req) "channel_invoice" then channel_invoice node p
  else if String.eqb (ar_op req) "push_register" then push_register node p now
  else mret (err 400 "unknown_op").

Definition handle (body : bytes) (sig : option string) (now : Z) : Lsp ApiReply :=
  if Nat.ltb MAX_BODY (length body) then mret (err 413 "too_large")
  else match sig with
  | None => mret (auth_err 401 "missing_signature")
  | Some sig =>
      v ← verify body sig now;
      match v with
      | Ok req =>
          r ← attempt (dispatch req now);
          match r with
          | Ok reply => mret reply
          | _ => mret (err 500 "ledger")
          end
      | Err e => mret (auth_err (if decide (e = Malformed) then 400 else 401) (auth_error_str e))
      | Panic => Done Panic
      end
  end.

(** ** What payments do *)
Definition notify_received (node : string) (amount_msat : Z) : Lsp unit :=
  _ ← atomically (λ w, (Ok tt, with_notices (stepped w) (wrapping_add u64_max (lw_notices w) 1)));
  connected ← ask (λ n, is_connected n node);
  if (connected : bool) then mret tt else received (sv_fcm sv) node amount_msat.

Definition on_payment_received (hash : bytes) (amount_msat : Z) : Lsp bool :=
  owner ← db_get (invoice_owner parse_node hash);
  match owner with
  | Some node =>
      new ← db_tx (λ now, credit now node hash amount_msat);
      _ ← (if (new : bool) then notify_received node amount_msat else mret tt);
      mret true
  | None =>
      _ ← db_pair (λ now, fee_invoice_paid now hash amount_msat);
      mret false
  end.

Definition on_offer_payment_received (payment_id hash : bytes) (amount_msat : Z) : Lsp bool :=
  paid ← ask (λ n, paid_offer n payment_id);
  match paid with
  | None => mret false
  | Some offer_id =>
      owner ← db_get (offer_owner parse_node offer_id);
      match owner with
      | Some node =>
          new ← db_tx (λ now, credit now node hash amount_msat);
          _ ← (if (new : bool) then notify_received node amount_msat else mret tt);
          mret true
      | None => mret false
      end
  end.

Definition on_payment_resolved (hash : bytes) (fee_msat : option Z) : Lsp unit :=
  let id := send_hold_id hash in
  owner ← db_get (hold_owner parse_node id);
  match owner with
  | None => mret tt
  | Some _ =>
      match fee_msat with
      | Some fee => settle_send_tx id fee (Some hash)
      | None => db_do (λ now, settle_hold now id 0 0 None)
      end
  end.
End api.
