(* ===== verification/LspNode.v ===== *)
(** The main thread of the Lightning service provider: payments held for a
    phone ([fortis-lsp/src/held.rs]), the events of the Lightning node,
    conversions of large balances and outbound channels ([main.rs]). *)

From S2P Require Import Prelude Json Threads Bitcoin Script Ledger LspRules Lsp LspApi.

(** ** What the node reports *)
Inductive Event : Type :=
| PaymentReceived (payment_id : option bytes) (hash : bytes) (amount_msat : Z)
| PaymentForwarded (prev_channel next_channel : string) (next_node : option string)
    (total_fee_earned skimmed_fee outbound_amount : option Z)
| PaymentClaimable (hash : bytes) (claimable_amount_msat : Z) (claim_deadline : option Z)
| PaymentSuccessful (payment_id : option bytes) (hash : bytes) (fee_paid_msat : option Z)
| PaymentFailed (payment_id : option bytes) (hash : option bytes)
| ChannelPending
| ChannelReady (user_channel_id : Z)
| ChannelClosed (user_channel_id : Z)
| OtherEvent.

Definition peer_there (peers : list PeerDetails) (pk : string) : option PeerDetails :=
  snd <$> list_find (λ p, pd_node_id p = pk ∧ pd_is_connected p = true) peers.

(** The most one payment can carry to [pk] now. *)
Definition room_to (channels : list ChannelDetails) (pk : string) : Z :=
  foldr Z.max 0 (map cd_next_outbound_htlc_limit_msat
    (filter (λ c, cd_counterparty_node_id c = pk ∧ cd_is_usable c = true) channels)).

Section node.
Context `{BitcoinLib} `{LspSystem} `{LspLib} `{AccountNode} `{LdkNode} (sv : AccountService).

(** ** Held payments ([held.rs]) *)
Definition SAFETY_BLOCKS : Z := 6.

Definition settle_into_account (h : Held) (amount : Z) : Lsp unit :=
  total ← db_read total_custody_msat;
  let room := saturating_sub (custody_max_msat sv) total in
  if (0 <? custody_max_msat sv) && (amount <=? room) then
    r ← call (λ n, claim_for_hash n (hl_payment_hash h) amount (hl_preimage h))
             (λ _, CClaim (hl_payment_hash h) amount (hl_preimage h));
    match r with
    | inl _ => mret tt
    | inr _ =>
        _ ← db_tx (λ now, credit now (hl_node h) (hl_payment_hash h) amount);
        held_update (hl_payment_hash h) "credited" None None
    end
  else
    _ ← call (λ n, fail_for_hash n (hl_payment_hash h)) (λ _, CFail (hl_payment_hash h));
    held_update (hl_payment_hash h) "failed" None None.

Definition deliver (h : Held) : Lsp unit :=
  match hl_claimable_msat h with
  | None => mret tt
  | Some amount =>
      height ← ask best_height;
      let deadline := default u32_max (hl_deadline h) in
      if String.eqb (hl_state h) "claimable" && (deadline <=? saturating_add u32_max height SAFETY_BLOCKS)
      then settle_into_account h amount
      else if negb (String.eqb (hl_state h) "claimable") then mret tt
      else
        peers ← ask list_peers;
        let connected := bool_decide (is_Some (peer_there peers (hl_node h))) in
        channels ← ask list_channels;
        let room := room_to channels (hl_node h) in
        let time_left := saturating_add u32_max height (2 * SAFETY_BLOCKS) <? deadline in
        if connected && (amount <=? room) && time_left then
          r ← call (λ n, spontaneous_send n amount (hl_node h)) (CForward (hl_payment_hash h) amount (hl_node h));
          match r with
          | inr id => held_update (hl_payment_hash h) "forwarding" None (Some (Some id))
          | inl _ => mret tt
          end
        else if negb connected then
          first ← atomically (λ w, (Ok (bool_decide (hl_payment_hash h ∉ lw_woken w)),
                                    with_woken (stepped w) ({[hl_payment_hash h]} ∪ lw_woken w)));
          if (first : bool) then wake (sv_fcm sv) (hl_node h) amount else mret tt
        else mret tt
  end.

Definition on_claimable (hash : bytes) (amount_msat : Z) (deadline : option Z) : Lsp bool :=
  o ← db_read (held_get parse_node hash);
  match o with
  | None => mret false
  | Some h =>
      _ ← (if String.eqb (hl_state h) "open" then
             _ ← held_update hash "claimable" (Some (amount_msat, deadline)) None;
             o ← db_read (held_get parse_node hash);
             match o with Some h => deliver h | None => mret tt end
           else mret tt);
      mret true
  end.

(** One after the other, whatever becomes of each. *)
Fixpoint for_each {A} (f : A → Lsp unit) (l : list A) : Lsp unit :=
  match l with
  | [] => mret tt
  | a :: l => _ ← attempt (f a); for_each f l
  end.

Definition tick : Lsp unit :=
  r ← attempt (db_read (held_claimable parse_node));
  match r with
  | Ok held => for_each deliver held
  | _ => mret tt
  end.

Definition on_forward_result (payment_id : bytes) (succeeded : bool) : Lsp unit :=
  o ← db_read (held_by_forward parse_node payment_id);
  match o with
  | None => mret tt
  | Some h =>
      if negb succeeded then held_update (hl_payment_hash h) "claimable" None (Some None)
      else
        let amount := default (hl_amount_msat h) (hl_claimable_msat h) in
        r ← call (λ n, claim_for_hash n (hl_payment_hash h) amount (hl_preimage h))
                 (λ _, CClaim (hl_payment_hash h) amount (hl_preimage h));
        match r with
        | inr _ => held_update (hl_payment_hash h) "done" None None
        | inl _ => mret tt
        end
  end.

Definition deliver_hold_id (payment_id : bytes) : string := "deliver:pay:" +:+ hex_encode payment_id.

(** Holds all of the free balance under [tmp], starts what moves it and names
    the hold after it, or lets it go. *)
Definition deliver_balance (busy : list string) (peers : list PeerDetails) (channels : list ChannelDetails)
    (x : string * Account) : Lsp unit :=
  let '(pk, acct) := x in
  let free := free_msat acct in
  if (free <? 1000) || bool_decide (pk ∈ busy) then mret tt
  else if negb (bool_decide (is_Some (peer_there peers pk))) then mret tt
  else if room_to channels pk <? free then mret tt
  else
    let tmp := "deliver:pending:" +:+ pk in
    a ← attempt (start_conversion_tx pk tmp);
    match a with
    | Ok amount =>
        r ← call (λ n, spontaneous_send n amount pk) (CKeysend amount pk);
        match r with
        | inr id => _ ← attempt (db_do (λ _, rename_hold tmp (deliver_hold_id id))); mret tt
        | inl _ => _ ← attempt (db_do (λ _, abandon_conversion tmp)); mret tt
        end
    | _ => mret tt
    end.

Definition deliver_balances : Lsp unit :=
  w ← attempt (db_read (over_cap parse_node 0));
  match w with
  | Ok [] => mret tt
  | Ok with_balance =>
      c ← attempt (db_get (conversions parse_node));
      let busy := match c with Ok l => map snd l | _ => [] end in
      peers ← ask list_peers;
      channels ← ask list_channels;
      for_each (deliver_balance busy peers channels) with_balance
  | _ => mret tt
  end.

Definition on_delivery_result (payment_id : bytes) (succeeded : bool) : Lsp unit :=
  let hold := deliver_hold_id payment_id in
  owner ← db_get (hold_owner parse_node hold);
  match owner with
  | None => mret tt
  | Some _ =>
      if succeeded then db_do (λ now, finish_conversion_by now hold 0 (Some payment_id))
      else db_do (λ _, abandon_conversion hold)
  end.

(** ** Events ([main.rs]) *)
Definition conv_pay_id (payment_id : bytes) : string := "conv:pay:" +:+ hex_encode payment_id.
Definition conv_chan_id (user_channel_id : Z) : string := "conv:chan:" +:+ pretty user_channel_id.

(** A conversion that went through, and one that did not. *)
Definition conversion_done (hold : string) : Lsp unit :=
  owner ← db_get (hold_owner parse_node hold);
  match owner with
  | Some (_, held) => db_do (λ now, finish_conversion now hold (conversion_fee_msat held))
  | None => mret tt
  end.
Definition conversion_failed (hold : string) : Lsp unit :=
  owner ← db_get (hold_owner parse_node hold);
  match owner with
  | Some _ => db_do (λ _, abandon_conversion hold)
  | None => mret tt
  end.

(** [if let Some(x) = o] *)
Definition if_some {A} (o : option A) (f : A → Lsp unit) : Lsp unit :=
  match o with Some a => f a | None => mret tt end.

Definition account_event (e : Event) : Lsp unit :=
  match e with
  | PaymentReceived payment_id hash amount =>
      known ← on_payment_received sv hash amount;
      if (known : bool) then mret tt
      else if_some payment_id (λ id, _ ← on_offer_payment_received sv id hash amount; mret tt)
  | PaymentForwarded prev next next_node total skimmed outbound =>
      let skim := default 0 skimmed in
      let routing := saturating_sub (default 0 total) skim in
      at_ ← ask now_nanos;
      let reference := prev +:+ ">" +:+ next +:+ ":" +:+ pretty (default 0 outbound) +:+ ":" +:+ pretty at_ in
      _ ← db_pair (λ now, record_revenue now RoutingFee routing None reference);
      _ ← db_pair (λ now, record_revenue now ChannelFee skim next_node reference);
      mret tt
  | PaymentClaimable hash amount deadline => _ ← on_claimable hash amount deadline; mret tt
  | PaymentSuccessful payment_id hash fee =>
      _ ← if_some payment_id (λ id, _ ← on_forward_result id true; on_delivery_result id true);
      _ ← on_payment_resolved hash (Some (default 0 fee));
      if_some payment_id (λ id, conversion_done (conv_pay_id id))
  | PaymentFailed payment_id hash =>
      _ ← if_some payment_id (λ id, _ ← on_forward_result id false; on_delivery_result id false);
      _ ← if_some hash (λ h, on_payment_resolved h None);
      if_some payment_id (λ id, conversion_failed (conv_pay_id id))
  | ChannelReady ucid => conversion_done (conv_chan_id ucid)
  | ChannelClosed ucid => conversion_failed (conv_chan_id ucid)
  | ChannelPending | OtherEvent => mret tt
  end.

(** The forwarding fee of every channel. *)
Fixpoint enforce_from (fees : Z * Z) (l : list ChannelDetails) : Lsp nat :=
  match l with
  | [] => mret 0%nat
  | c :: l =>
      if decide (cd_forwarding_fee c = fees) then enforce_from fees l
      else
        r ← call (λ n, update_channel_config n (cd_user_channel_id c) (cd_counterparty_node_id c) fees)
                 (λ _, CConfig (cd_user_channel_id c) (cd_counterparty_node_id c) fees);
        rest ← enforce_from fees l;
        mret match r with inr _ => S rest | inl _ => rest end
  end.
Definition enforce_forwarding_fees (fees : Z * Z) : Lsp nat :=
  l ← ask list_channels; enforce_from fees l.

(** One event: [false] when it is kept for another time. *)
Definition handle_one (fees : Z * Z) (e : Event) : Lsp bool :=
  r ← attempt (account_event e);
  match r with
  | Ok _ =>
      match e with
      | ChannelPending | ChannelReady _ => _ ← enforce_forwarding_fees fees; mret true
      | _ => mret true
      end
  | _ => mret false
  end.

(** ** Conversions *)
Definition convert (fees : Z * Z) (channel_min : Z) (busy : list string) (peers : list PeerDetails)
    (channels : list ChannelDetails) (x : string * Account) : Lsp unit :=
  let '(pk, acct) := x in
  let peer := peer_there peers pk in
  let tmp := "conv:pending:" +:+ pk in
  match plan (free_msat acct) (account_max_msat sv) (bool_decide (is_Some peer)) (room_to channels pk)
          (bool_decide (pk ∈ busy)) channel_min with
  | PlanNone => mret tt
  | PayOverChannel amount =>
      s ← attempt (start_conversion_tx pk tmp);
      match s with
      | Ok _ =>
          r ← call (λ n, spontaneous_send n amount pk) (CKeysend amount pk);
          match r with
          | inr id => _ ← attempt (db_do (λ _, rename_hold tmp (conv_pay_id id))); mret tt
          | inl _ => _ ← attempt (db_do (λ _, abandon_conversion tmp)); mret tt
          end
      | _ => mret tt
      end
  | OpenChannel channel_sat push_msat =>
      match peer with
      | None => mret tt
      | Some peer =>
          s ← attempt (start_conversion_tx pk tmp);
          match s with
          | Ok _ =>
              r ← call (λ n, open_channel n pk (pd_address peer) channel_sat push_msat fees)
                       (CChannel pk (pd_address peer) channel_sat push_msat);
              match r with
              | inr ucid => _ ← attempt (db_do (λ _, rename_hold tmp (conv_chan_id ucid))); mret tt
              | inl _ => _ ← attempt (db_do (λ _, abandon_conversion tmp)); mret tt
              end
          | _ => mret tt
          end
      end
  end.

Definition run_conversions (fees : Z * Z) (channel_min : Z) : Lsp unit :=
  o ← attempt (db_read (over_cap parse_node (account_max_msat sv)));
  match o with
  | Ok [] => mret tt
  | Ok over =>
      c ← attempt (db_get (conversions parse_node));
      let busy := match c with Ok l => map snd l | _ => [] end in
      peers ← ask list_peers;
      channels ← ask list_channels;
      for_each (convert fees channel_min busy peers channels) over
  | _ => mret tt
  end.

(** ** Outbound channels *)
Definition open_one (fees : Z * Z) (now : Z) (t : Outbound) : Lsp unit :=
  r ← call (λ n, open_announced_channel n (ob_node_id t) (ob_address t) (ob_sat t) fees)
           (CAnnounced (ob_node_id t) (ob_address t) (ob_sat t));
  atomically (λ w, (Ok tt, with_outbound (stepped w)
    match r with
    | inr _ => record_opened (ob_node_id t) (lw_outbound w)
    | inl _ => record_failed (ob_node_id t) now (lw_outbound w)
    end)).

Definition open_missing_outbound (fees : Z * Z) (targets : list Outbound) : Lsp unit :=
  channels ← ask list_channels;
  synced ← ask wallet_synced_at;
  spendable ← ask spendable_onchain_sat;
  let snap := {| with_channel := list_to_set (map cd_counterparty_node_id channels);
                 wallet_synced := bool_decide (is_Some synced); spendable_sat := spendable;
                 reserve_per_channel_sat := per_channel_reserve_sats |} in
  now ← ask instant_now;
  state ← atomically (λ w, (Ok (lw_outbound w), stepped w));
  for_each (open_one fees now) (due targets snap state now).

(** ** Revenue from before the revenue ledger *)
Fixpoint unknown_payments (l : list (option bytes * option Z * Z)) : Lsp (list (bytes * Z * Z)) :=
  match l with
  | [] => mret []
  | (Some hash, Some amount, at_) :: l =>
      k ← attempt (db_get (knows_payment hash));
      rest ← unknown_payments l;
      mret match k with Ok false => (hash, amount, at_) :: rest | _ => rest end
  | _ :: l => unknown_payments l
  end.

Definition import_earlier_revenue : Lsp unit :=
  payments ← ask inbound_payments;
  earlier ← unknown_payments payments;
  _ ← attempt (db_pair (λ now, import_earlier now earlier));
  _ ← attempt (db_pair import_entry_fees);
  mret tt.
End node.
