(* ===== verification/LspRuns.v ===== *)
(** The two threads of the Lightning service provider, running together: every
    step of either is at most one operation of the ledger, with unsigned
    amounts, so the ledger's guarantees hold in every run. *)

From Stdlib Require Import Ascii.
From S2P Require Import Prelude Json Threads Bitcoin Script Ledger LspRules Lsp LspApi LspNode.

(** ** Answers of programs *)
Definition okq {A} (P : A → Prop) (r : LResult A) : Prop := match r with Ok a => P a | _ => True end.

Section lal.
Context (G : relation LspWorld).

(** Every step of [m] is a move of [G]; what it returns is in [P]. *)
Definition lal {A} (m : Lsp A) (P : A → Prop) : Prop := always G m (okq P).

Lemma lal_ret {A} (a : A) (P : A → Prop) : P a → lal (mret a) P.
Proof. done. Qed.
Lemma lal_err {A} e (P : A → Prop) : lal (Done (Err e)) P.
Proof. done. Qed.
Lemma lal_panic {A} (P : A → Prop) : lal (Done Panic) P.
Proof. done. Qed.

Lemma lal_mono {A} (m : Lsp A) (P Q : A → Prop) : (∀ a, P a → Q a) → lal m P → lal m Q.
Proof. intros HPQ. apply always_mono. intros [a|e|]; simpl; auto. Qed.

Lemma lal_bind {A B} (m : Lsp A) (f : A → Lsp B) (P : A → Prop) (Q : B → Prop) :
  lal m P → (∀ a, P a → lal (f a) Q) → lal (m ≫= f) Q.
Proof.
  intros Hm Hf. apply always_bind. eapply always_mono; [|exact Hm]. intros [a|e|]; simpl; [apply Hf|done..].
Qed.

Lemma lal_attempt {A} (m : Lsp A) (P : A → Prop) : lal m P → lal (attempt m) (okq P).
Proof. intros Hm. apply always_bind. eapply always_mono; [|exact Hm]. by intros []. Qed.

Lemma lal_try {A} (m : Lsp A) : lal m (λ _, True) → lal (attempt m) (λ _, True).
Proof. intros Hm. eapply lal_mono; [|by apply lal_attempt]. done. Qed.

Lemma lal_then {A B} (m : Lsp A) (f : A → Lsp B) (Q : B → Prop) :
  lal m (λ _, True) → (∀ a, lal (f a) Q) → lal (m ≫= f) Q.
Proof. intros Hm Hf. eapply lal_bind; [exact Hm|auto]. Qed.
End lal.

Create HintDb lsp discriminated.

(** One construct of a program after the other; what is left are its calls of
    other programs. *)
Ltac lsp_step :=
  lazymatch goal with
  | |- lal _ (mret _) _ => apply lal_ret; try done
  | |- lal _ (Done (Err _)) _ => apply lal_err
  | |- lal _ (Done Panic) _ => apply lal_panic
  | |- lal _ (mbind _ _) _ => apply lal_then; [|intros ?]
  | |- lal _ (attempt _) _ => apply lal_try
  | |- lal _ (if ?x then _ else _) _ => destruct x eqn:?
  | |- lal _ (match ?x with _ => _ end) _ => destruct x eqn:?
  | |- lal _ (let _ := _ in _) _ => cbv zeta
  end.
Ltac lsp_walk := repeat (lsp_step || solve [eauto with lsp]).

(** ** Moves *)
Section runs.
Context `{BitcoinLib} `{LspSystem}.

(** A step leaves the ledger alone or is one operation of it, which is in [A]
    at the time of the step; what it asks of the node is in [C]. *)
Context (A : Z → Op → Prop) (C : NodeCall → Prop).

Record step_by (w w' : LspWorld) : Prop := {
  sb_asked : lw_asked w' = S (lw_asked w);
  sb_db : lw_db w' = lw_db w ∨ ∃ op, A (now_secs (lw_asked w)) op ∧ lw_db w' = exec_op op (lw_db w);
  sb_calls : lw_calls w' = lw_calls w ∨ ∃ c, C c ∧ lw_calls w' = c :: lw_calls w;
}.

Abbreviation lsp m P := (lal step_by m P).

Lemma step_same w w' :
  lw_asked w' = S (lw_asked w) → lw_db w' = lw_db w → lw_calls w' = lw_calls w → step_by w w'.
Proof. split; auto. Qed.

Lemma lsp_ask {X} (f : nat → X) (P : X → Prop) : (∀ n, P (f n)) → lsp (ask f) P.
Proof. intros Hf. apply always_atomically. intros w. split; [by apply step_same|apply Hf]. Qed.

Lemma lsp_call {E X} (f : nat → E + X) log (P : E + X → Prop) :
  (∀ a, C (log a)) → (∀ n, P (f n)) → lsp (call f log) P.
Proof.
  intros HC Hf. apply always_atomically. intros w. simpl. split; [|apply Hf].
  destruct (f (lw_asked w)); [by apply step_same|]. split; [done|by left|right]. eauto.
Qed.

(** Steps of the threads' own memory. *)
Lemma lsp_memory {X} (f : LspWorld → LResult X * LspWorld) :
  (∀ w, lw_asked (snd (f w)) = S (lw_asked w)) → (∀ w, lw_db (snd (f w)) = lw_db w) →
  (∀ w, lw_calls (snd (f w)) = lw_calls w) → lsp (atomically f) (λ _, True).
Proof.
  intros Ha Hd Hc. apply always_atomically. intros w. split; [by apply step_same; [apply Ha|apply Hd|apply Hc]|].
  by destruct (f w) as [[]].
Qed.

(** A transaction that is the operation [op now]. *)
Lemma lsp_tx {X} (f : Z → Db → LResult (X * Db)) (op : Z → Op) (P : X → Prop) :
  (∀ now, A now (op now)) →
  (∀ now db a db', f now db = Ok (a, db') → db' = exec_op (op now) db ∧ P a) →
  lsp (db_tx f) P.
Proof.
  intros HA Hf. apply always_atomically. intros w. destruct (disk (lw_asked w)); [split; [by apply step_same|done]|].
  destruct (f _ _) as [[a db']|e|] eqn:E; (split; [|done || by eapply Hf]); [|by apply step_same..].
  apply Hf in E as [-> _]. split; [done| |by left]. right. by exists (op (now_secs (lw_asked w))).
Qed.

Lemma lsp_pure {X} (f : Z → Db → LResult (X * Db)) (P : X → Prop) :
  (∀ now db a db', f now db = Ok (a, db') → db' = db ∧ P a) → lsp (db_tx f) P.
Proof.
  intros Hf. apply always_atomically. intros w. destruct (disk (lw_asked w)); [split; [by apply step_same|done]|].
  destruct (f _ _) as [[a db']|e|] eqn:E; (split; [|done || by eapply Hf]); [|by apply step_same..].
  apply Hf in E as [-> _]. by apply step_same.
Qed.

Lemma lsp_read {X} (f : Db → LResult X) (P : X → Prop) : (∀ db a, f db = Ok a → P a) → lsp (db_read f) P.
Proof. intros Hf. apply lsp_pure. intros now db a db' (a' & Ha & [= <- <-])%bind_Ok. eauto. Qed.

Lemma lsp_get {X} (f : Db → X) (P : X → Prop) : (∀ db, P (f db)) → lsp (db_get f) P.
Proof. intros Hf. apply lsp_pure. intros now db a db' [= <- <-]. auto. Qed.

Lemma lsp_do (f : Z → Db → LResult Db) (op : Z → Op) :
  (∀ now, A now (op now)) →
  (∀ now db, committed_unit db (f now db) = exec_op (op now) db) → lsp (db_do f) (λ _, True).
Proof.
  intros HA Hf. apply (lsp_tx _ op); [done|]. intros now db [] db' E. split; [|done].
  rewrite <-Hf. destruct (f now db); by simplify_eq/=.
Qed.

Lemma lsp_committed {X} (f : Z → Db → LResult (X * Db)) (op : Z → Op) :
  (∀ now, A now (op now)) →
  (∀ now db, committed db (f now db) = exec_op (op now) db) → lsp (db_tx f) (λ _, True).
Proof.
  intros HA Hf. apply (lsp_tx _ op); [done|]. intros now db a db' E. split; [|done].
  by rewrite <-Hf, E.
Qed.

Lemma lsp_set (f : Z → Db → Db) (op : Z → Op) :
  (∀ now, A now (op now)) → (∀ now db, f now db = exec_op (op now) db) →
  lsp (db_set f) (λ _, True).
Proof. intros HA Hf. apply (lsp_tx _ op); [done|]. intros now db [] db' [= <-]. auto. Qed.

Lemma lsp_pair {X} (f : Z → Db → X * Db) (op : Z → Op) :
  (∀ now, A now (op now)) → (∀ now db, snd (f now db) = exec_op (op now) db) →
  lsp (db_pair f) (λ _, True).
Proof. intros HA Hf. apply (lsp_tx _ op); [done|]. intros now db a db' [= E]. by rewrite <-Hf, E. Qed.

(** The operations the threads use. *)
Lemma lsp_settle_hold id s f h : (∀ now, A now (OpSettleHold now id s f h)) →
  lsp (db_do (λ now, settle_hold now id s f h)) (λ _, True).
Proof. intros HA. by apply (lsp_do _ (λ now, OpSettleHold now id s f h)). Qed.
Lemma lsp_hold_send node id a r : (∀ now, A now (OpHoldSend node id a r)) →
  lsp (db_do (λ _, hold_send node id a r)) (λ _, True).
Proof. intros HA. by apply (lsp_do _ (λ _, OpHoldSend node id a r)). Qed.
Lemma lsp_hold_withdrawal node id a : (∀ now, A now (OpHoldWithdrawal node id a)) →
  lsp (db_do (λ _, hold_withdrawal node id a)) (λ _, True).
Proof. intros HA. by apply (lsp_do _ (λ _, OpHoldWithdrawal node id a)). Qed.
Lemma lsp_settle_withdrawal id f tx : (∀ now, A now (OpSettleWithdrawal now id f tx)) →
  lsp (db_do (λ now, settle_withdrawal now id f tx)) (λ _, True).
Proof. intros HA. by apply (lsp_do _ (λ now, OpSettleWithdrawal now id f tx)). Qed.
Lemma lsp_finish_by id f h : (∀ now, A now (OpFinishConversion now id f h)) →
  lsp (db_do (λ now, finish_conversion_by now id f h)) (λ _, True).
Proof. intros HA. by apply (lsp_do _ (λ now, OpFinishConversion now id f h)). Qed.
Lemma lsp_finish id f : (∀ now, A now (OpFinishConversion now id f None)) →
  lsp (db_do (λ now, finish_conversion now id f)) (λ _, True).
Proof. apply lsp_finish_by. Qed.
Lemma lsp_abandon id : (∀ now, A now (OpAbandonConversion id)) →
  lsp (db_do (λ _, abandon_conversion id)) (λ _, True).
Proof. intros HA. by apply (lsp_do _ (λ _, OpAbandonConversion id)). Qed.
Lemma lsp_rename old new : (∀ now, A now (OpRenameHold old new)) →
  lsp (db_do (λ _, rename_hold old new)) (λ _, True).
Proof. intros HA. by apply (lsp_do _ (λ _, OpRenameHold old new)). Qed.
Lemma lsp_held_insert h node p a : (∀ now, A now (OpHeldInsert now h node p a)) →
  lsp (db_do (λ now, held_insert now h node p a)) (λ _, True).
Proof. intros HA. by apply (lsp_do _ (λ now, OpHeldInsert now h node p a)). Qed.
Lemma lsp_held_set h st c f : (∀ now, A now (OpHeldSet h st c f)) →
  lsp (db_set (λ _, held_set h st c f)) (λ _, True).
Proof. intros HA. by apply (lsp_set _ (λ _, OpHeldSet h st c f)). Qed.
Lemma lsp_pending_invoice h node a e : (∀ now, A now (OpPendingInvoice h node a e)) →
  lsp (db_set (λ _, pending_invoice h node a e)) (λ _, True).
Proof. intros HA. by apply (lsp_set _ (λ _, OpPendingInvoice h node a e)). Qed.
Lemma lsp_add_fee_invoice h node a : (∀ now, A now (OpAddFeeInvoice now h node a)) →
  lsp (db_set (λ now, add_fee_invoice now h node a)) (λ _, True).
Proof. intros HA. by apply (lsp_set _ (λ now, OpAddFeeInvoice now h node a)). Qed.
Lemma lsp_set_push_token node t at_ : (∀ now, A now (OpSetPushToken node t at_)) →
  lsp (db_set (λ _, set_push_token node t at_)) (λ _, True).
Proof. intros HA. by apply (lsp_set _ (λ _, OpSetPushToken node t at_)). Qed.
Lemma lsp_drop_push_token node t : (∀ now, A now (OpDropPushToken node t)) →
  lsp (db_set (λ _, drop_push_token node t)) (λ _, True).
Proof. intros HA. by apply (lsp_set _ (λ _, OpDropPushToken node t)). Qed.
Lemma lsp_set_offer node id o : (∀ now, A now (OpSetOffer node id o)) →
  lsp (db_set (λ _, set_offer node id o)) (λ _, True).
Proof. intros HA. by apply (lsp_set _ (λ _, OpSetOffer node id o)). Qed.
Lemma lsp_credit node h a : (∀ now, A now (OpCredit now node h a)) →
  lsp (db_tx (λ now, credit now node h a)) (λ _, True).
Proof. intros HA. by apply (lsp_committed _ (λ now, OpCredit now node h a)). Qed.
Lemma lsp_transfer from to h a : (∀ now, A now (OpTransfer now from to h a)) →
  lsp (db_tx (λ now, transfer now from to h a)) (λ _, True).
Proof. intros HA. by apply (lsp_committed _ (λ now, OpTransfer now from to h a)). Qed.
Lemma lsp_prune_nonces : (∀ now, A now (OpPruneNonces now)) → lsp (db_set prune_nonces) (λ _, True).
Proof. intros HA. by apply (lsp_set _ OpPruneNonces). Qed.
Lemma lsp_insert_nonce node n e : (∀ now, A now (OpInsertNonce node n e)) →
  lsp (db_pair (λ _, insert_nonce node n e)) (λ _, True).
Proof. intros HA. by apply (lsp_pair _ (λ _, OpInsertNonce node n e)). Qed.
Lemma lsp_fee_invoice_paid h a : (∀ now, A now (OpFeeInvoicePaid now h a)) →
  lsp (db_pair (λ now, fee_invoice_paid now h a)) (λ _, True).
Proof. intros HA. by apply (lsp_pair _ (λ now, OpFeeInvoicePaid now h a)). Qed.
Lemma lsp_record_revenue k a node r : (∀ now, A now (OpRecordRevenue now k a node r)) →
  lsp (db_pair (λ now, record_revenue now k a node r)) (λ _, True).
Proof. intros HA. by apply (lsp_pair _ (λ now, OpRecordRevenue now k a node r)). Qed.
Lemma lsp_import_earlier ps : (∀ now, A now (OpImportEarlier now ps)) →
  lsp (db_pair (λ now, import_earlier now ps)) (λ _, True).
Proof. intros HA. by apply (lsp_pair _ (λ now, OpImportEarlier now ps)). Qed.
Lemma lsp_import_entry_fees : (∀ now, A now (OpImportEntryFees now)) →
  lsp (db_pair import_entry_fees) (λ _, True).
Proof. intros HA. by apply (lsp_pair _ OpImportEntryFees). Qed.

Lemma lsp_asks {X} (f : nat → X) : lsp (ask f) (λ _, True).
Proof. by apply lsp_ask. Qed.
Lemma lsp_calls {E X} (f : nat → E + X) log : (∀ a, C (log a)) → lsp (call f log) (λ _, True).
Proof. intros. by apply lsp_call. Qed.
Lemma lsp_reads {X} (f : Db → LResult X) : lsp (db_read f) (λ _, True).
Proof. by apply lsp_read. Qed.
Lemma lsp_gets {X} (f : Db → X) : lsp (db_get f) (λ _, True).
Proof. by apply lsp_get. Qed.
End runs.

#[export] Hint Resolve lsp_settle_hold lsp_hold_send lsp_hold_withdrawal lsp_settle_withdrawal lsp_finish_by lsp_finish
  lsp_abandon lsp_rename lsp_held_insert lsp_held_set lsp_pending_invoice lsp_add_fee_invoice lsp_set_push_token
  lsp_drop_push_token lsp_set_offer lsp_credit lsp_transfer lsp_prune_nonces lsp_insert_nonce lsp_fee_invoice_paid lsp_record_revenue
  lsp_import_earlier lsp_import_entry_fees lsp_asks lsp_calls lsp_reads lsp_gets : lsp.

(** ** What each thread does to the ledger

    The holds of requests and those of the main thread have different names;
    the main thread closes a request's hold when its payment is resolved. *)
Fixpoint starts_with (p s : string) : bool :=
  match p, s with
  | EmptyString, _ => true
  | String a p, String b s => Ascii.eqb a b && starts_with p s
  | _, EmptyString => false
  end.
Definition api_hold (id : string) : bool := starts_with "send:" id || starts_with "wd:" id.
Definition main_hold (id : string) : bool := starts_with "conv:" id || starts_with "deliver:" id.

(** An operation of a request of [n], which closes holds of [S]. *)
Definition request_op `{BitcoinLib} (S : string → Prop) (n : string) (now : Z) (op : Op) : Prop :=
  op_wf op ∧
  match op with
  | OpPruneNonces t => t = now
  | OpInsertNonce m _ _ => m = n
  | OpHoldSend m id _ _ | OpHoldWithdrawal m id _ => m = n ∧ api_hold id = true
  | OpSettleHold _ id spent _ _ => S id ∧ spent = 0
  | OpSettleWithdrawal _ id _ _ => S id
  | OpTransfer _ from _ _ _ => from = n
  | OpPendingInvoice _ m _ _ | OpAddFeeInvoice _ _ m _ | OpSetPushToken m _ _ | OpSetOffer m _ _ => m = n
  | OpHeldInsert _ hash m preimage _ => m = n ∧ hash = hash_of preimage
  | _ => False
  end.

(** An operation of the main thread; on held payments when [T]. *)
Definition node_op (T : Prop) (now : Z) (op : Op) : Prop :=
  op_wf op ∧
  match op with
  | OpCredit _ _ _ _ | OpFeeInvoicePaid _ _ _ | OpRecordRevenue _ _ _ _ _ | OpImportEarlier _ _ | OpImportEntryFees _
  | OpDropPushToken _ _ => True
  | OpHeldSet _ _ _ _ => T
  | OpSettleHold _ id _ _ _ => api_hold id = true
  | OpHoldKind _ id _ _ _ | OpFinishConversion _ id _ _ | OpAbandonConversion id => main_hold id = true
  | OpRenameHold old new => main_hold old = true ∧ main_hold new = true
  | _ => False
  end.
Definition main_op : Z → Op → Prop := node_op True.

(** What requests ask of the node: to pay, and the operator's commands. *)
Definition request_call (c : NodeCall) : Prop := match c with CSend _ _ | COnchain _ _ _ _ => True | _ => False end.
Definition admin_call (c : NodeCall) : Prop := match c with CAdminPay _ _ _ | CClose _ _ => True | _ => False end.
Definition node_call (T : Prop) (c : NodeCall) : Prop :=
  match c with
  | CSend _ _ | COnchain _ _ _ _ | CAdminPay _ _ _ | CClose _ _ => False
  | CForward _ _ _ _ | CClaim _ _ _ | CFail _ => T
  | _ => True
  end.
Definition main_call : NodeCall → Prop := node_call True.

Lemma step_by_mono `{BitcoinLib} `{LspSystem} (A A' : Z → Op → Prop) (C C' : NodeCall → Prop) w w' :
  (∀ now op, A now op → A' now op) → (∀ c, C c → C' c) → step_by A C w w' → step_by A' C' w w'.
Proof.
  intros HA HC [Ha Hd Hc]. split; [done| |].
  - destruct Hd as [|(op & Hop & E)]; [by left|right; eauto].
  - destruct Hc as [|(c & Hcc & E)]; [by left|right; eauto].
Qed.

Lemma lal_weaken {X} (G G' : relation LspWorld) (m : Lsp X) P :
  (∀ w w', G w w' → G' w w') → lal G m P → lal G' m P.
Proof. apply always_weaken. Qed.

Lemma request_op_mono `{BitcoinLib} (S S' : string → Prop) n now op :
  (∀ id, S id → S' id) → request_op S n now op → request_op S' n now op.
Proof. intros HS [Hwf Hop]. split; [done|]. destruct op; naive_solver. Qed.

(** Side conditions of the walk. *)
Ltac op_side :=
  intros; split; simpl; repeat match goal with |- _ ∧ _ => split end; first [done|lia|eassumption|by auto|idtac].
#[export] Hint Extern 1 (∀ _ : Z, request_op _ _ _ _) => solve [op_side] : lsp.
#[export] Hint Extern 1 (∀ _ : Z, node_op _ _ _) => solve [op_side] : lsp.
#[export] Hint Extern 1 (∀ _, request_call _) => solve [intros; done] : lsp.
#[export] Hint Extern 1 (∀ _, admin_call _) => solve [intros; done] : lsp.
#[export] Hint Extern 1 (∀ _, node_call _ _) => solve [intros; done] : lsp.

Lemma as_u64_nonneg v n : as_u64 v = Some n → 0 ≤ n ≤ u64_max.
Proof. destruct v; simpl; try done. intros [-> ?]%try_from_Some. done. Qed.

Lemma keep_Some {X} (p : X → bool) (o : option X) a : keep p o = Some a → o = Some a ∧ p a = true.
Proof. unfold keep. intros (b & -> & E)%bind_Some. destruct (p b) eqn:Ep; by simplify_eq. Qed.

Lemma positive_amount_Some p a : positive_amount p = Some a → 0 < a ≤ u64_max.
Proof. intros [Ha%as_u64_nonneg Hp]%keep_Some. zbool. lia. Qed.

Lemma pay_amount_Some ia asked a :
  pay_amount ia (as_u64 asked) = inr a → ia = Some a ∨ ia = None ∧ as_u64 asked = Some a ∧ 0 < a.
Proof. unfold pay_amount. intros. repeat (case_match; simplify_eq); zbool; subst; auto. Qed.

(** ** Requests *)
Section requests.
Context `{BitcoinLib} `{LspSystem} `{LspLib} `{AccountNode} `{LdkNode} (sv : AccountService).

(** Amounts of invoices are unsigned. *)
Hypothesis invoice_unsigned : ∀ inv a h, invoice_details inv = inr (Some a, h) → 0 ≤ a.

(** Requests that neither pay nor withdraw close no hold and ask nothing. *)
Lemma lsp_quiet S n p now :
  let req m := lal (step_by (request_op S n) (λ _, False)) m (λ _, True) in
  req (balance sv n) ∧ req (invoice sv n p now) ∧ req (history n p) ∧ req (fee_invoice n p) ∧ req (offer sv n) ∧
  req (channel_invoice n p) ∧ req (push_register n p now).
Proof.
  cbv zeta. unfold balance, invoice, history, fee_invoice, offer, channel_invoice, push_register.
  split_and!; lsp_walk.
Qed.

Lemma lsp_verify S n body sig now :
  (∀ req, check_request body sig now = Ok req → ar_node_id req = n) →
  lal (step_by (request_op S n) (λ _, False)) (verify body sig now) (λ r, ∀ req, r = Ok req → ar_node_id req = n).
Proof.
  intros Hn. unfold verify. destruct (check_request body sig now) as [req|e|] eqn:E; [|by apply lal_ret|apply lal_panic].
  specialize (Hn _ eq_refl). apply lal_then.
  - apply lal_try, lal_then; [apply lsp_prune_nonces; by intros t|intros _]. apply lsp_insert_nonce.
    intros t. split; [done|]. by rewrite Hn.
  - intros r. apply lal_ret. intros req' Er. repeat case_match; by simplify_eq.
Qed.

Abbreviation lreq n m := (lal (step_by (request_op (λ id, api_hold id = true) n) request_call) m (λ _, True)).

Lemma lsp_pay n p : lreq n (pay n p).
Proof.
  unfold pay. destruct (as_string _) as [inv|]; [|by apply lal_ret].
  destruct (invoice_details inv) as [e|[ia h]] eqn:Hd; [by apply lal_ret|].
  destruct (pay_amount ia _) as [e|a] eqn:Ea; [by apply lal_ret|].
  assert (Ha : 0 ≤ a) by (apply pay_amount_Some in Ea as [->|(_ & _ & ?)]; [by eapply invoice_unsigned|lia]).
  assert (0 ≤ wrapping_add u64_max a (fee_cap_msat a)) by by apply wrapping_add_range.
  lsp_walk.
Qed.

Lemma lsp_withdraw n p nonce : lreq n (withdraw n p nonce).
Proof.
  unfold withdraw. destruct (keep _ (as_u64 (vindex "amount_msat" p))) as [a|] eqn:Ea; [|by apply lal_ret].
  apply keep_Some in Ea as [[Ha _]%as_u64_nonneg _]. lsp_walk.
Qed.

Lemma lreq_quiet {X} n (m : Lsp X) (P : X → Prop) :
  lal (step_by (request_op (λ _, False) n) (λ _, False)) m P →
  lal (step_by (request_op (λ id, api_hold id = true) n) request_call) m P.
Proof. apply lal_weaken. intros w w'. apply step_by_mono; [|done]. intros now op. by apply request_op_mono. Qed.

Lemma lsp_dispatch req now : lreq (ar_node_id req) (dispatch sv req now).
Proof.
  unfold dispatch. cbv zeta.
  destruct (lsp_quiet (λ _, False) (ar_node_id req) (ar_params req) now) as (?&?&?&?&?&?&?).
  repeat (case_match; [first [apply lsp_pay|apply lsp_withdraw|by apply lreq_quiet]|]). by apply lal_ret.
Qed.

(** All a request does is an operation of the node that signed it. *)
Lemma lsp_handle n body sig now :
  (∀ req, parse body = Ok req → ar_node_id req = n) → lreq n (handle sv body sig now).
Proof.
  intros Hn. unfold handle. case_match; [by apply lal_ret|]. destruct sig as [sig|]; [|by apply lal_ret].
  eapply lal_bind.
  { apply lreq_quiet, lsp_verify. intros req (req' & Hp & E)%bind_Ok. specialize (Hn _ Hp).
    apply bail_if_bind_Ok in E as [_ E]. apply bail_if_bind_Ok in E as [_ E]. apply bail_if_bind_Ok in E as [_ [= <-]].
    done. }
  intros [req|e|] Hreq; [|by apply lal_ret|apply lal_panic]. rewrite <-(Hreq req eq_refl).
  apply lal_then; [apply lal_try, lsp_dispatch|]. intros r. lsp_walk.
Qed.

Abbreviation ladm m := (lal (step_by (λ _ _, False) admin_call) m (λ _, True)).

Lemma lsp_close_all pk l : ladm (close_all pk l).
Proof. induction l as [|c l IH]; cbn [close_all]; lsp_walk. Qed.
Hint Resolve lsp_close_all : lsp.

Lemma lsp_admin auth token body : ladm (admin_pay auth token body) ∧ ladm (admin_close auth token body).
Proof. unfold admin_pay, pay_bolt11, admin_close, close_peer. split; lsp_walk. Qed.
End requests.

(** ** The main thread *)
Section main.
Context `{BitcoinLib} `{LspSystem} `{LspLib} `{AccountNode} `{LdkNode} (sv : AccountService) (T : Prop).

Abbreviation lmain m := (lal (step_by (node_op T) (node_call T)) m (λ _, True)).

Lemma lsp_settle_send id fee h : api_hold id = true → 0 ≤ fee → lmain (settle_send_tx id fee h).
Proof.
  intros Hid Hf. apply (lal_bind _ _ _ (λ base, 0 ≤ base)).
  - apply lsp_read. intros db a (r & _ & [= <-])%bind_Ok. lia.
  - intros base Hb. apply lsp_settle_hold. intros. split; [|done]. simpl. unfold saturating_add, u64_max. lia.
Qed.

Lemma lsp_start_conversion node id : main_hold id = true → lmain (start_conversion_tx node id).
Proof.
  intros Hid. apply lal_then; [apply lsp_reads|]. intros a. cbv zeta. apply lal_then; [|by intros; apply lal_ret].
  apply (lsp_do _ _ _ (λ _, OpHoldKind node id (free_msat a) (free_msat a) "conversion")); [|done].
  intros. split; [|done]. simpl. unfold free_msat, saturating_sub. lia.
Qed.

Lemma lsp_send_to fcm node title body data : lmain (send_to fcm node title body data).
Proof. unfold send_to. lsp_walk. Qed.

Hint Resolve lsp_settle_send lsp_start_conversion lsp_send_to : lsp.

Lemma lsp_notify node a : lmain (notify_received sv node a).
Proof. unfold notify_received. apply lal_then; [by apply lsp_memory|intros _]. unfold received. lsp_walk. Qed.
Hint Resolve lsp_notify : lsp.

Lemma lsp_received h a : 0 ≤ a → lmain (on_payment_received sv h a).
Proof. intros. unfold on_payment_received. lsp_walk. Qed.
Lemma lsp_offer_received id h a : 0 ≤ a → lmain (on_offer_payment_received sv id h a).
Proof. intros. unfold on_offer_payment_received. lsp_walk. Qed.
Lemma lsp_resolved h fee : (∀ f, fee = Some f → 0 ≤ f) → lmain (on_payment_resolved h fee).
Proof. intros. unfold on_payment_resolved. lsp_walk. Qed.

Definition held_wf (h : Held) : Prop := ∀ a, hl_claimable_msat h = Some a → 0 ≤ a.

Lemma held_row_wf hash r h : held_row parse_node hash r = Ok h → held_wf h.
Proof.
  intros (n & _ & [= <-])%bind_Ok a Ha. simpl in Ha. apply fmap_Some in Ha as (v & _ & ->). lia.
Qed.

Lemma lsp_held_update h st c f : T → lmain (held_update h st c f).
Proof. intros. unfold held_update. lsp_walk. Qed.
Hint Resolve lsp_held_update : lsp.

Lemma lsp_settle_into h a : T → 0 ≤ a → lmain (settle_into_account sv h a).
Proof. intros. unfold settle_into_account. lsp_walk. Qed.
Hint Resolve lsp_settle_into : lsp.

Lemma lsp_deliver h : T → held_wf h → lmain (deliver sv h).
Proof.
  intros HT Hh. unfold deliver. destruct (hl_claimable_msat h) as [a|] eqn:Ea; [|by apply lal_ret].
  specialize (Hh a Ea). unfold wake. lsp_walk. by apply lsp_memory.
Qed.

Lemma lsp_held_get hash :
  lal (step_by (node_op T) (node_call T)) (db_read (held_get parse_node hash)) (λ o, ∀ h, o = Some h → held_wf h).
Proof.
  apply lsp_read. intros db o E h ->. unfold held_get in E. destruct (held db !! hash) as [r|]; [|done].
  destruct (held_row parse_node hash r) eqn:Er; simplify_eq/=. by eapply held_row_wf.
Qed.

Lemma lsp_on_claimable hash a d : T → lmain (on_claimable sv hash a d).
Proof.
  intros HT. unfold on_claimable. eapply lal_bind; [apply lsp_held_get|]. intros [h|] Hh; [|by apply lal_ret].
  apply lal_then; [|by intros; apply lal_ret]. destruct (String.eqb _ _); [|by apply lal_ret].
  apply lal_then; [auto with lsp|]. intros _. eapply lal_bind; [apply lsp_held_get|].
  intros [h'|] Hh'; [by apply lsp_deliver, Hh'|by apply lal_ret].
Qed.

Lemma lsp_for_each {X} (f : X → Lsp unit) l : Forall (λ a, lmain (f a)) l → lmain (for_each f l).
Proof. induction 1; cbn [for_each]; lsp_walk. Qed.

Lemma lsp_tick : T → lmain (tick sv).
Proof.
  intros HT. unfold tick. eapply lal_bind.
  { apply lal_attempt. apply (lsp_read _ _ _ (λ l, Forall held_wf l)). intros db l E.
    eapply collect_Forall; [exact E|]. intros [hash r] h _ Hr. by eapply held_row_wf. }
  intros [l|e|] Hl; simpl in Hl; try by apply lal_ret. apply lsp_for_each.
  eapply Forall_impl; [exact Hl|]. intros h. by apply lsp_deliver.
Qed.

Lemma lsp_forward_result id ok : T → lmain (on_forward_result id ok).
Proof. intros. unfold on_forward_result. lsp_walk. Qed.
Lemma lsp_delivery_result id ok : lmain (on_delivery_result id ok).
Proof. unfold on_delivery_result. lsp_walk. Qed.

Lemma lsp_deliver_balances : lmain deliver_balances.
Proof.
  unfold deliver_balances. lsp_walk. apply lsp_for_each, Forall_true. intros [pk acct].
  unfold deliver_balance. lsp_walk.
Qed.

Lemma lsp_run_conversions fees min : lmain (run_conversions sv fees min).
Proof.
  unfold run_conversions. lsp_walk. apply lsp_for_each, Forall_true. intros [pk acct].
  unfold convert. lsp_walk.
Qed.

Lemma lsp_conversion_result hold : main_hold hold = true → lmain (conversion_done hold) ∧ lmain (conversion_failed hold).
Proof. intros. unfold conversion_done, conversion_failed. split; lsp_walk. Qed.

Lemma lsp_if_some {X} (o : option X) f : (∀ a, lmain (f a)) → lmain (if_some o f).
Proof. intros. destruct o; simpl; [done|by apply lal_ret]. Qed.

(** The amounts an event carries are unsigned. *)
Definition event_wf (e : Event) : Prop :=
  match e with
  | PaymentReceived _ _ a => 0 ≤ a
  | PaymentSuccessful _ _ fee => ∀ f, fee = Some f → 0 ≤ f
  | _ => True
  end.

Hint Resolve lsp_received lsp_offer_received lsp_resolved lsp_on_claimable lsp_forward_result lsp_delivery_result
  lsp_if_some : lsp.
Hint Extern 1 (lal _ (conversion_done _) _) => (apply lsp_conversion_result; done) : lsp.
Hint Extern 1 (lal _ (conversion_failed _) _) => (apply lsp_conversion_result; done) : lsp.

(** Events about payments to or of phones. *)
Definition touches_held (e : Event) : Prop :=
  match e with
  | PaymentClaimable _ _ _ | PaymentSuccessful (Some _) _ _ | PaymentFailed (Some _) _ => True
  | _ => False
  end.

Lemma lsp_account_event e : (touches_held e → T) → event_wf e → lmain (account_event sv e).
Proof.
  intros HT He. destruct e as [| | |[]| [] | | | |]; simpl in HT, He; try specialize (HT I); unfold account_event; cbn [if_some]; lsp_walk.
  all: try (apply lsp_if_some; intros; lsp_walk).
  all: apply lsp_resolved; try done; intros f [= <-]; destruct fee_paid_msat; simpl; first [by apply He|lia].
Qed.

Lemma lsp_enforce fees l : lmain (enforce_from fees l).
Proof. induction l as [|c l IH]; cbn [enforce_from]; lsp_walk. Qed.
Hint Resolve lsp_account_event lsp_enforce : lsp.

Lemma lsp_fees fees : lmain (enforce_forwarding_fees fees).
Proof. unfold enforce_forwarding_fees. lsp_walk. Qed.
Hint Resolve lsp_fees : lsp.

Lemma lsp_handle_one fees e : (touches_held e → T) → event_wf e → lmain (handle_one sv fees e).
Proof. intros. unfold handle_one. lsp_walk. Qed.

Lemma lsp_outbound fees targets : lmain (open_missing_outbound fees targets).
Proof.
  unfold open_missing_outbound. lsp_walk; [by apply lsp_memory|]. apply lsp_for_each, Forall_true. intros t.
  unfold open_one. apply lal_then; [auto with lsp|]. intros r. by apply lsp_memory.
Qed.

Lemma lsp_unknown l : lmain (unknown_payments l).
Proof. induction l as [|[[[h|] [a|]] t] l IH]; cbn [unknown_payments]; lsp_walk. Qed.
Hint Resolve lsp_unknown : lsp.

Lemma lsp_import : lmain import_earlier_revenue.
Proof. unfold import_earlier_revenue. lsp_walk. Qed.
End main.

(** ** The two threads *)
Section service.
Context `{BitcoinLib} `{LspSystem} `{LspLib} `{AccountNode} `{LdkNode}.
Context (sv : AccountService) (fees : Z * Z) (channel_min : Z) (targets : list Outbound) (token : option string).

Definition discard {X} (m : Lsp X) : Lsp unit := _ ← m; mret tt.

(** [POST /account], [POST /admin/*] and [GET /metrics] on the metrics thread. *)
Inductive metrics_job : Lsp unit → Prop :=
| job_account body sig : metrics_job (discard (now ← ask now_secs; handle sv body sig now))
| job_admin_pay auth t body : token = Some t → metrics_job (discard (admin_pay auth t body))
| job_admin_close auth t body : token = Some t → metrics_job (discard (admin_close auth t body))
| job_metrics : metrics_job (discard custody_sat).

(** What the main thread does, one after the other. *)
Inductive routine_job : Lsp unit → Prop :=
| job_import : routine_job import_earlier_revenue
| job_fees : routine_job (discard (enforce_forwarding_fees fees))
| job_outbound : routine_job (open_missing_outbound fees targets)
| job_tick : routine_job (tick sv)
| job_balances : routine_job deliver_balances
| job_conversions : routine_job (run_conversions sv fees channel_min).
Inductive main_job : Lsp unit → Prop :=
| job_routine q : routine_job q → main_job q
| job_event e : event_wf e → main_job (discard (handle_one sv fees e)).

(** A restart keeps the ledger's file and what was already asked of the node. *)
Definition restart (w : LspWorld) : LspWorld := {|
  lw_db := lw_db w; lw_asked := S (lw_asked w); lw_calls := lw_calls w; lw_woken := ∅; lw_notices := 0;
  lw_outbound := outbound_default |}.

Definition lsp_reach (w0 : LspWorld) : Lsp unit → Lsp unit → LspWorld → Prop :=
  duo_reach metrics_job main_job restart (Ok tt) (Ok tt) w0.

(** A step of the metrics thread: an operation of some node, with the clock of
    the step, or none. *)
Definition metrics_op (now : Z) (op : Op) : Prop :=
  ∃ n s, parse_node s = Some n ∧ request_op (λ id, api_hold id = true) n now op.
Definition metrics_call (c : NodeCall) : Prop := request_call c ∨ admin_call c.

Hypothesis invoice_unsigned : ∀ inv a h, invoice_details inv = inr (Some a, h) → 0 ≤ a.

Lemma parse_node_of body req : parse body = Ok req → ∃ s, parse_node s = Some (ar_node_id req).
Proof.
  intros (v & _ & E)%bind_Ok. apply bind_Ok in E as (n & Hn%ok_or_Ok & E). apply bind_Some in Hn as (s & _ & Hs).
  do 3 (apply bind_Ok in E as (? & _ & E)). injection E as <-. eauto.
Qed.

Lemma metrics_moves p : metrics_job p → always (step_by metrics_op metrics_call) p (λ _, True).
Proof.
  intros Hp. cut (lal (step_by metrics_op metrics_call) p (λ _, True)); [by apply always_mono|].
  assert (Hadm : ∀ X (m : Lsp X), lal (step_by (λ _ _, False) admin_call) m (λ _, True) →
    lal (step_by metrics_op metrics_call) m (λ _, True)).
  { intros X m. apply lal_weaken. intros w w'. apply step_by_mono; [done|by right]. }
  destruct Hp; (apply lal_then; [|by intros; apply lal_ret]); [|by apply Hadm, lsp_admin|by apply Hadm, lsp_admin|].
  - apply lal_then; [apply lsp_asks|]. intros now. destruct (parse body) as [req|e|] eqn:Eb.
    + destruct (parse_node_of _ _ Eb) as [s Hs].
      eapply lal_weaken, (lsp_handle sv invoice_unsigned (ar_node_id req)); [|intros req'; rewrite Eb; congruence].
      intros w w'. apply step_by_mono; [|by left]. intros t op Hop. by exists (ar_node_id req), s.
    + unfold handle, verify, check_request. rewrite Eb. by repeat case_match.
    + unfold handle, verify, check_request. rewrite Eb. by repeat case_match.
  - unfold custody_sat. lsp_walk.
Qed.

Lemma main_moves q : main_job q → always (step_by main_op main_call) q (λ _, True).
Proof.
  intros Hq. cut (lal (step_by main_op main_call) q (λ _, True)); [by apply always_mono|].
  destruct Hq as [q Hq|e He].
  - destruct Hq; [apply lsp_import| |apply lsp_outbound|by apply lsp_tick|apply lsp_deliver_balances|
      apply lsp_run_conversions].
    apply lal_then; [|by intros; apply lal_ret]. apply lsp_fees.
  - apply lal_then; [|by intros; apply lal_ret]. by apply lsp_handle_one.
Qed.

(** A step of either thread. *)
Definition lsp_op (now : Z) (op : Op) : Prop := metrics_op now op ∨ main_op now op.
Definition lsp_step : relation LspWorld := step_by lsp_op (λ _, True).

Lemma lsp_op_wf now op : lsp_op now op → op_wf op.
Proof. by intros [(n & s & _ & ? & _)|[? _]]. Qed.

Lemma service_invariant (J : LspWorld → Prop) w0 p q w :
  (∀ w w', J w → lsp_step w w' → J w') → (∀ w, J w → J (restart w)) → J w0 → lsp_reach w0 p q w → J w.
Proof.
  intros HJ Hc Hs. apply (duo_invariant _ _ _ J lsp_step); [| |done..].
  - intros m Hm. eapply always_weaken, metrics_moves; [|done]. intros ? ?. apply step_by_mono; [by left|done].
  - intros m Hm. eapply always_weaken, main_moves; [|done]. intros ? ?. apply step_by_mono; [by right|done].
Qed.

Lemma service_reachable p q w : lsp_reach (lsp_start empty_db) p q w → reachable (lw_db w).
Proof.
  intros Hr. eapply (service_invariant (λ w, reachable (lw_db w)) (lsp_start empty_db)); [|done|apply reach_open|exact Hr].
  intros w1 w2 Hw [_ [->|(op & Hop%lsp_op_wf & ->)] _]; [done|by constructor].
Qed.

(** C22. Whatever requests arrive and whatever the Lightning node reports, in
    whatever order the two threads take their steps, with any refusals of the
    disk and any restarts, the ledger has only been changed by its own
    operations on unsigned amounts.  So it stays sound: no balance is negative,
    the holds of an account never exceed its balance, every balance is the sum
    of the account's entries, no payment is credited twice, no revenue is
    counted twice. *)
Theorem service_keeps_ledger p q w :
  lsp_reach (lsp_start empty_db) p q w → reachable (lw_db w) ∧ ledger_ok (lw_db w).
Proof. intros Hr%service_reachable. split; [done|by apply reachable_ok]. Qed.
End service.
