(* ===== verification/LspSafety.v ===== *)
(** What a signed request can and cannot do: it is carried out once, touches
    nobody's money but its signer's, and pays only what it holds. *)

From S2P Require Import Prelude Json Threads Bitcoin Script Ledger LspRules Lsp LspApi LspNode LspRuns.

(** ** Programs, step by step *)
Section lrg.
Context (R G : relation LspWorld).

Lemma lrg_bind {A B} (m : Lsp A) (f : A → Lsp B) w (Q : LResult B → LspWorld → Prop) :
  rg R G m w (λ r w', match r with Ok a => rg R G (f a) w' Q | Err e => Q (Err e) w' | Panic => Q Panic w' end) →
  rg R G (m ≫= f) w Q.
Proof. intros Hm. apply rg_bind. eapply rg_mono; [|exact Hm]. by intros []. Qed.

Lemma lrg_attempt {A} (m : Lsp A) w (Q : LResult (LResult A) → LspWorld → Prop) :
  rg R G m w (λ r w', match r with Panic => Q Panic w' | r => Q (Ok r) w' end) → rg R G (attempt m) w Q.
Proof. intros Hm. apply rg_bind. eapply rg_mono; [|exact Hm]. by intros []. Qed.

Lemma lrg_lal {A} (m : Lsp A) w (P : A → Prop) : lal G m P → rg R G m w (λ r _, okq P r).
Proof. apply always_rg. Qed.

(** After a part whose effect does not matter. *)
Lemma lrg_then {A B} (m : Lsp A) (f : A → Lsp B) w (P : A → Prop) (Q : LResult B → LspWorld → Prop) :
  lal G m P → (∀ a w', P a → rg R G (f a) w' Q) → (∀ r w', (∀ b, r ≠ Ok b) → Q r w') → rg R G (m ≫= f) w Q.
Proof.
  intros Hm Hf Hq. apply lrg_bind. eapply rg_mono; [|by apply lrg_lal]. intros [a|e|] w' Ha; simpl in Ha; auto.
Qed.
End lrg.

(** ** Holds and operations *)
Definition op_holds (op : Op) : list string :=
  match op with
  | OpHoldSend _ id _ _ | OpHoldWithdrawal _ id _ | OpHoldKind _ id _ _ _ | OpSettleSend _ id _ _
  | OpSettleHold _ id _ _ _ | OpSettleWithdrawal _ id _ _ | OpStartConversion _ id | OpFinishConversion _ id _ _
  | OpAbandonConversion id => [id]
  | OpRenameHold old new => [old; new]
  | _ => []
  end.

Section holds.
Context `{BitcoinLib}.

Lemma hold_kind_row node id a b kd db db' :
  hold_kind node id a b kd db = Ok db' → holds db !! id = None ∧
  db' = with_holds db (<[id := {| h_node := node; h_amount := as_i64 a; h_base := as_i64 b; h_kind := kd |}]> (holds db)).
Proof.
  intros (acc & _ & E)%bind_Ok. apply bail_if_bind_Ok in E as [_ E].
  destruct (holds db !! id) eqn:Hid; [done|]. by injection E as <-.
Qed.

Lemma hold_kind_holds node id a b kd db db' i :
  hold_kind node id a b kd db = Ok db' → i ≠ id → holds db' !! i = holds db !! i.
Proof. intros [_ ->]%hold_kind_row Hi. simpl. by rewrite lookup_insert_ne. Qed.

Lemma add_balance_holds db k d db' : add_balance db k d = Ok db' → holds db' = holds db.
Proof. unfold add_balance. intros. by repeat (case_match; simplify_eq). Qed.

Lemma settle_hold_holds now id s f h db db' :
  settle_hold now id s f h db = Ok db' → holds db' = delete id (holds db).
Proof.
  intros ([[k x] d] & (r & _ & [= <- <- <-])%bind_Ok & E)%bind_Ok. cbv zeta in E.
  destruct (0 <? _); [|by injection E as <-]. apply bind_Ok in E as (d' & Ha%add_balance_holds & [= <-]). done.
Qed.

Lemma settle_withdrawal_holds now id f tx db db' :
  settle_withdrawal now id f tx db = Ok db' → holds db' = delete id (holds db).
Proof.
  intros ([[k x] d] & (r & _ & [= <- <- <-])%bind_Ok & E)%bind_Ok. apply bind_Ok in E as (d' & Ha%add_balance_holds & E).
  injection E as <-. case_match; rewrite ?revenue_holds; done.
Qed.

Lemma finish_holds now id f h db db' :
  finish_conversion_by now id f h db = Ok db' → holds db' = delete id (holds db).
Proof.
  intros ([[k x] d] & (r & _ & [= <- <- <-])%bind_Ok & E)%bind_Ok. apply bind_Ok in E as (d' & Ha%add_balance_holds & E).
  injection E as <-. case_match; rewrite ?revenue_holds; done.
Qed.

Lemma abandon_holds id db db' : abandon_conversion id db = Ok db' → holds db' = delete id (holds db).
Proof. intros ([[k x] d] & (r & _ & [= <- <- <-])%bind_Ok & [= <-])%bind_Ok. done. Qed.

Lemma revenue_row_holds db r : holds (snd (insert_revenue_row db r)) = holds db.
Proof. unfold insert_revenue_row. by case_decide. Qed.

Lemma revenue_rows_holds rows db : holds (snd (insert_revenue_rows rows db)) = holds db.
Proof.
  unfold insert_revenue_rows. generalize 0%nat as n. revert db.
  induction rows as [|r rows IH]; intros db n; [done|]. simpl.
  pose proof (revenue_row_holds db r) as Hr. destruct (insert_revenue_row db r) as [new d]. by rewrite IH.
Qed.

(** An operation changes only the holds it names. *)
Lemma exec_op_holds op db id : id ∉ op_holds op → holds (exec_op op db) !! id = holds db !! id.
Proof.
  assert (Hu : ∀ r : LResult Db, (∀ d, r = Ok d → holds d !! id = holds db !! id) →
    holds (committed_unit db r) !! id = holds db !! id) by (intros [d| |]; simpl; auto).
  assert (Hc : ∀ A (r : LResult (A * Db)), (∀ a d, r = Ok (a, d) → holds d !! id = holds db !! id) →
    holds (committed db r) !! id = holds db !! id) by (intros A [[a d]| |]; simpl; eauto).
  destruct op; simpl; rewrite ?not_elem_of_cons; intros Hid; try done;
    try (apply Hc; intros x d E); try (apply Hu; intros d E).
  - revert E. unfold credit, insert_credit. case_decide; [by intros [= _ <-]|].
    intros (d' & Hd%add_balance_holds & [= _ <-])%bind_Ok. by rewrite Hd.
  - by eapply hold_kind_holds; [exact E|naive_solver].
  - apply bind_Ok in E as (h & _ & E%settle_hold_holds). rewrite E, lookup_delete_ne; naive_solver.
  - apply settle_hold_holds in E as ->. rewrite lookup_delete_ne; naive_solver.
  - by eapply hold_kind_holds; [exact E|naive_solver].
  - by eapply hold_kind_holds; [exact E|naive_solver].
  - apply settle_withdrawal_holds in E as ->. rewrite lookup_delete_ne; naive_solver.
  - revert E. unfold transfer, insert_credit. case_decide; [by intros [= _ <-]|].
    intros (a & _ & E)%bind_Ok. apply bail_if_bind_Ok in E as [_ E].
    apply bind_Ok in E as (d1 & H1%add_balance_holds & E). apply bind_Ok in E as (d2 & H2%add_balance_holds & [= _ <-]).
    simpl. by rewrite H2, H1.
  - apply bind_Ok in E as (a & _ & E). apply bind_Ok in E as (d' & E & [= _ <-]).
    by eapply hold_kind_holds; [exact E|naive_solver].
  - apply finish_holds in E as ->. rewrite lookup_delete_ne; naive_solver.
  - apply abandon_holds in E as ->. rewrite lookup_delete_ne; naive_solver.
  - unfold rename_hold in E. destruct (holds db !! old); [|done]. case_decide; [done|]. injection E as <-. simpl.
    rewrite lookup_insert_ne, lookup_delete_ne; naive_solver.
  - unfold insert_nonce. by case_match.
  - unfold add_fee_invoice. by case_match.
  - unfold fee_invoice_paid. case_match; [|done]. simpl. by rewrite revenue_holds.
  - unfold record_revenue. case_match; [done|]. by rewrite revenue_row_holds.
  - unfold import_earlier. case_decide; [done|].
    match goal with |- context [insert_revenue_rows ?l db] =>
      pose proof (revenue_rows_holds l db) as Hr; destruct (insert_revenue_rows l db) end.
    cbn [snd] in *. by rewrite revenue_row_holds, Hr.
  - unfold import_entry_fees. case_decide; [done|].
    match goal with |- context [insert_revenue_rows ?l db] =>
      pose proof (revenue_rows_holds l db) as Hr; destruct (insert_revenue_rows l db) end.
    cbn [snd] in *. by rewrite revenue_row_holds, Hr.
  - unfold drop_push_token. by repeat case_match.
  - unfold held_insert in E. case_match; [done|]. by injection E as <-.
Qed.
End holds.

Lemma starts_head a p s : starts_with (String a p) s = true → ∃ s', s = String a s'.
Proof. destruct s as [|b s]; [done|]. simpl. intros [->%Ascii.eqb_eq _]%andb_true_iff. by exists s. Qed.

Lemma holds_apart id : api_hold id = true → main_hold id = true → False.
Proof.
  intros [Ha|Ha]%orb_true_iff [Hm|Hm]%orb_true_iff; apply starts_head in Ha as [s ->], Hm as [s' Hs]; by simplify_eq.
Qed.

(** ** Steps of the other thread *)
Section other.
Context `{BitcoinLib} `{LspSystem}.

Lemma step_ok (A : Z → Op → Prop) C w w' :
  (∀ now op, A now op → op_wf op) → step_by A C w w' → ledger_ok (lw_db w) → ledger_ok (lw_db w').
Proof. intros HA [_ [->|(op & Hop & ->)] _] Hok; [done|]. apply exec_op_ok; [by eapply HA|done]. Qed.

(** The moves of the main thread between two steps of a request. *)
Definition main_steps : relation LspWorld := rtc (step_by main_op main_call).

Lemma main_steps_ok w w' : main_steps w w' → ledger_ok (lw_db w) → ledger_ok (lw_db w').
Proof.
  induction 1 as [|w w1 w' Hs _ IH]; [done|]. intros Hok. apply IH.
  eapply step_ok; [|exact Hs|done]. by intros now op [? _].
Qed.

(** It closes holds of requests and never makes one. *)
Lemma main_op_api now op id :
  main_op now op → api_hold id = true → id ∈ op_holds op → ∃ t s f h, op = OpSettleHold t id s f h.
Proof.
  intros [_ Hop] Hid Hin. pose proof (holds_apart id Hid) as Hno.
  destruct op; simpl in *; try done; repeat (apply elem_of_cons in Hin as [->|Hin]); try by apply elem_of_nil in Hin.
  all: destruct Hop || idtac; try done; eauto.
Qed.

Lemma main_step_hold w w' id h :
  step_by main_op main_call w w' → api_hold id = true → holds (lw_db w') !! id = Some h → holds (lw_db w) !! id = Some h.
Proof.
  intros [_ [->|(op & Hop & ->)] _] Hid; [done|].
  destruct (decide (id ∈ op_holds op)) as [Hin|]; [|by rewrite exec_op_holds].
  eapply main_op_api in Hin as (t & s & f & x & ->); [|done..].
  simpl. destruct (settle_hold _ _ _ _ _ _) as [d| |] eqn:E; simpl; [|done..].
  apply settle_hold_holds in E as ->. by rewrite lookup_delete_eq.
Qed.

(** Whose a hold is, if it is there. *)
Definition owns (n id : string) (w : LspWorld) : Prop := ∀ h, holds (lw_db w) !! id = Some h → h_node h = n.

Lemma owns_main n id w w' : main_steps w w' → api_hold id = true → owns n id w → owns n id w'.
Proof.
  induction 1 as [|w w1 w' Hs _ IH]; [done|]. intros Hid Ho. apply IH; [done|].
  intros h Hh. by eapply Ho, main_step_hold.
Qed.

(** ** Isolation *)

(** Every account but [n]'s keeps what it has, and what it holds. *)
Definition others_kept (n : string) (db db' : Db) : Prop :=
  ∀ k, k ≠ n → bal db k ≤ bal db' k ∧ held_of db' k = held_of db k ∧ push_tokens db' !! k = push_tokens db !! k.

Lemma others_refl n db : others_kept n db db.
Proof. done. Qed.

Lemma others_same n db db' : same_money db db' → push_tokens db' = push_tokens db → others_kept n db db'.
Proof. intros (Ha & Hh & _) Hp k _. unfold bal, held_of. rewrite Ha, Hh, Hp. done. Qed.

Lemma others_hold n id a b kd db db' :
  ledger_ok db → 0 ≤ a → 0 ≤ b → hold_kind n id a b kd db = Ok db' → others_kept n db db'.
Proof.
  intros Hok Ha Hb (Hnew & _ & -> & _)%hold_kind_Ok; [|done..]. intros k Hk. split_and!; [done| |done].
  unfold held_of. simpl. rewrite msum_insert by done. simpl. rewrite decide_False by done. lia.
Qed.

Lemma others_release n id h db :
  holds db !! id = Some h → h_node h = n → others_kept n db (with_holds db (delete id (holds db))).
Proof.
  intros Hid Hn k Hk. split_and!; [done| |done]. rewrite (held_release db id h) by done.
  rewrite decide_False by congruence. lia.
Qed.

Lemma others_post n db d e : others_kept n db (post db n d e).
Proof. intros k Hk. split_and!; [|done|done]. rewrite bal_post, decide_False by done. lia. Qed.

Lemma others_trans n db1 db2 db3 : others_kept n db1 db2 → others_kept n db2 db3 → others_kept n db1 db3.
Proof. intros H1 H2 k Hk. destruct (H1 k Hk) as (?&?&?), (H2 k Hk) as (?&?&?). split_and!; [lia|congruence..]. Qed.

(** An operation of [n]'s request that closes only its own holds. *)
Lemma request_isolated_op n S now op db :
  ledger_ok db → (∀ id h, S id → holds db !! id = Some h → h_node h = n) →
  request_op S n now op → others_kept n db (exec_op op db).
Proof.
  intros Hok HS [Hwf Hop]. destruct op; simpl in Hwf, Hop; try done; simpl.
  - destruct Hop as [-> _]. destruct (hold_send _ _ _ _ _) as [d| |] eqn:E; simpl; [|done..].
    eapply others_hold; [done|..|exact E]; lia.
  - destruct Hop as [Hid ->]. pose proof (settle_hold_Ok now0 id 0 fee hash db Hok) as Hs.
    destruct (holds db !! id) as [h|] eqn:Hh; [|by rewrite Hs].
    destruct Hs as (d & -> & _ & ->); [lia|]. cbn [committed_unit].
    destruct (lo_holds _ Hok _ _ Hh). rewrite (proj2 (Z.ltb_ge _ _)) by lia. by eapply others_release; [|eapply HS].
  - destruct Hop as [-> _]. destruct (hold_withdrawal _ _ _ _) as [d| |] eqn:E; simpl; [|done..].
    eapply others_hold; [done|..|exact E]; lia.
  - pose proof (settle_withdrawal_Ok now0 id fee tx db Hok) as Hs.
    destruct (holds db !! id) as [h|] eqn:Hh; [|by rewrite Hs]. destruct Hs as (d & -> & _ & Hd).
    pose proof (HS _ _ Hop Hh) as Hn. simpl.
    assert (Ho : others_kept n db (debited db id h (h_amount h) {| e_seq := next_seq db; e_node := h_node h;
      e_at := u64_as_i64 now0; e_kind := "withdrawn"; e_amount := - h_amount h; e_fee := as_i64 fee; e_hash := Some tx |})).
    { eapply others_trans; [by eapply others_release|]. unfold debited. rewrite Hn. apply others_post. }
    cbv zeta in Hd. rewrite Hd. case_match; [|exact Ho]. eapply others_trans; [exact Ho|].
    intros k _. unfold held_of. rewrite revenue_holds, revenue_bal. unfold insert_revenue, insert_revenue_row.
    by case_decide.
  - subst from. destruct (transfer_Ok now0 n to hash amount db Hok Hwf) as [Hy Hn].
    destruct (decide (credited db to hash)) as [Hc|Hc]; [by rewrite Hy|]. specialize (Hn Hc).
    destruct (account_of db n); [|by rewrite Hn|done]. destruct (_ <? _); [by rewrite Hn|].
    destruct Hn as (e1 & e2 & d & -> & _ & _ & _ & _ & _ & _ & ->). simpl.
    destruct (as_i64_range amount Hwf) as [? _]. intros k Hk. split_and!; [|done|done].
    rewrite !bal_post, (decide_False (P := k = n)) by done. case_decide; lia.
  - apply others_same; unfold insert_nonce; by case_match.
  - apply others_same; unfold add_fee_invoice; by case_match.
  - subst node. intros k Hk. split_and!; [done|done|]. simpl. by rewrite lookup_insert_ne.
  - apply others_same; unfold held_insert; by case_match.
Qed.
End other.

(** ** A request and its hold

    What a request needs of the other thread and promises to it, whatever is
    to be shown: [Held id a], which making a hold of [a] under [id] starts,
    asking the node for at most [a] keeps, and closing the hold ends. *)
Section protocol.
Context `{BitcoinLib} `{LspSystem} `{LspLib} `{AccountNode} `{LdkNode} (sv : AccountService).

(** What a call takes out of the provider's hands, in msat. *)
Definition pays_msat (c : NodeCall) : Z :=
  match c with
  | CSend _ (Some a) => a
  | CSend inv None => match invoice_details inv with inr (Some a, _) => a | _ => 0 end
  | COnchain _ sat _ _ => 1000 * sat
  | CKeysend a _ _ | CForward _ a _ _ => a
  | CChannel _ _ _ push _ => push
  | _ => 0
  end.

(** The most a call can cost, in msat.  The node is told no limit for routing
    fees, so LDK's own applies: 1 % of the amount and 50 sat.  A withdrawal
    costs what arrives and the network's fee, at the 200 vbytes the service
    reckons a withdrawal to have. *)
Definition with_routing (a : Z) : Z := a + a / 100 + 50_000.
Definition takes_msat (c : NodeCall) : Z :=
  match c with
  | CSend _ _ => with_routing (pays_msat c)
  | COnchain _ sat feerate _ => 1000 * (sat + 200 * feerate)
  | _ => pays_msat c
  end.

(** A hold of [a] is enough for a call. *)
Definition enough (a : Z) (c : NodeCall) : Prop :=
  0 ≤ pays_msat c ≤ a ∧ (takes_msat c ≤ i64_max → takes_msat c ≤ a).

Class HoldProtocol (n : string) (R G : relation LspWorld) (Held : string → Z → LspWorld → Prop) : Prop := {
  hp_quiet {A} (m : Lsp A) P : lal (step_by (request_op (λ _, False) n) (λ _, False)) m P → lal G m P;
  hp_hold id a b kd w :
    api_hold id = true → 0 ≤ a → 0 ≤ b →
    rg R G (db_do (λ _, hold_kind n id a b kd)) w (λ r w', ∀ u, r = Ok u → Held id a w');
  hp_call {E A} (f : nat → E + A) log id a w :
    api_hold id = true → Held id a w → (∀ x, enough a (log x)) →
    rg R G (call f log) w (λ _ w', Held id a w');
  hp_close {A} (f : LspWorld → LResult A * LspWorld) id a w :
    api_hold id = true → Held id a w → lal (step_by (request_op (λ i, i = id) n) (λ _, False)) (atomically f) (λ _, True) →
    rg R G (atomically f) w (λ _ _, True);
}.

Hypothesis invoice_unsigned : ∀ inv a h, invoice_details inv = inr (Some a, h) → 0 ≤ a.

Context (n : string) (R G : relation LspWorld) (Held : string → Z → LspWorld → Prop).
Context `{!HoldProtocol n R G Held}.

(** What [pay] holds is enough: an amount whose reserve does not fit is out of
    reach of the ledger's integers. *)
Lemma enough_send a inv x :
  0 ≤ a → pays_msat (CSend inv x) = a → enough (Z.max (wrapping_add u64_max a (fee_cap_msat a)) a) (CSend inv x).
Proof.
  intros Ha Hp. split; [lia|]. unfold takes_msat, with_routing. rewrite Hp. intros Hfit.
  assert (0 ≤ a / 100) by (apply Z.div_pos; lia). unfold fee_cap_msat.
  rewrite (wrapping_add_small u64_max (a / 100) 50_000) by (unfold i64_max, u64_max in *; lia).
  rewrite wrapping_add_small by (unfold i64_max, u64_max in *; lia). lia.
Qed.

(** What [withdraw] holds is what arrives, the network's fee and the
    operator's share. *)
Lemma enough_withdrawal a f wd address txid :
  0 ≤ a ≤ u64_max → a mod 1000 = 0 → 1 ≤ f ≤ MAX_FEERATE_SAT_VB → withdrawal (a / 1000) f = Some wd →
  enough a (COnchain address (payout_sat wd) f txid).
Proof.
  intros Ha Hm Hf Hw. assert (Hu : u64 (a / 1000)).
  { unfold u64, in_range, u64_max in *. Z.to_euclidean_division_equations. lia. }
  pose proof (withdrawal_exact (a / 1000) f Hu Hf) as He. rewrite Hw in He. cbv zeta in He.
  destruct He as (Hsum & Hdust & Hnet & _). unfold enough, pays_msat, takes_msat, WITHDRAW_TX_VBYTES, DUST_SAT in *.
  pose proof (Z.div_mod a 1000 ltac:(lia)). lia.
Qed.

Lemma pay_protocol p w : rg R G (pay n p) w (λ _ _, True).
Proof.
  unfold pay. destruct (as_string _) as [inv|]; [|done].
  destruct (invoice_details inv) as [e|[ia h]] eqn:Hd; [done|]. destruct (pay_amount ia _) as [e|a] eqn:Ea; [done|].
  apply pay_amount_Some in Ea as Hia.
  assert (Ha : 0 ≤ a) by (destruct Hia as [->|(_ & _ & ?)]; [by eapply invoice_unsigned|lia]).
  eapply lrg_then; [apply hp_quiet, lsp_gets|clear w|done]. intros [to|] w _.
  - case_match; [done|]. eapply lrg_then; [|clear w|done].
    { apply hp_quiet, lal_try, lsp_transfer. op_side. }
    intros r w _. by repeat case_match.
  - apply lrg_bind, lrg_attempt. eapply rg_mono; [|apply hp_hold; [done|lia..]].
    intros [[]|e|] w' Ho; [|by destruct e|done]. specialize (Ho tt eq_refl).
    apply lrg_bind. eapply rg_mono; [|eapply (hp_call _ _ (send_hold_id h)); [done|exact Ho|]].
    + intros [[e|u]|e|] w2 Ho2; [|done..]. apply lrg_bind. eapply rg_mono; [|eapply hp_close; [|exact Ho2|]].
      * by intros [].
      * done.
      * apply lsp_settle_hold. op_side.
    + intros []. apply enough_send; [done|]. unfold pays_msat. by destruct Hia as [->|(-> & _)]; [rewrite Hd|].
Qed.

Lemma withdraw_protocol p nonce w : rg R G (withdraw n p nonce) w (λ _ _, True).
Proof.
  unfold withdraw. destruct (keep _ (as_u64 (vindex "amount_msat" p))) as [a|] eqn:Ea; [|done].
  apply keep_Some in Ea as [Ha%as_u64_nonneg [_ Hm%Z.eqb_eq]%andb_true_iff]. destruct (as_string _) as [address|]; [|done].
  destruct (keep _ (as_u64 (vindex "feerate_sat_vb" p))) as [f|] eqn:Ef; [|done].
  apply keep_Some in Ef as [_ [Hf1%Z.leb_le Hf2%Z.leb_le]%andb_true_iff].
  destruct (withdrawal (a / 1000) f) as [wd|] eqn:Hwd; [|done].
  apply lrg_bind, lrg_attempt. eapply rg_mono; [|apply hp_hold; [done|lia..]].
  intros [[]|e|] w' Ho; [|by destruct e|done]. specialize (Ho tt eq_refl).
  apply lrg_bind. eapply rg_mono; [|eapply (hp_call _ _ (withdraw_hold_id n nonce)); [done|exact Ho|]].
  - intros [[e|u]|e|] w2 Ho2; [| |done..].
    + apply lrg_bind. eapply rg_mono; [|eapply hp_close; [|exact Ho2|]]; [by intros []|done|].
      apply lsp_settle_hold. op_side.
    + apply lrg_bind. eapply rg_mono; [|eapply hp_close; [|exact Ho2|]]; [by intros []|done|].
      apply lsp_settle_withdrawal. op_side.
  - intros txid. by apply enough_withdrawal.
Qed.

Lemma dispatch_protocol req now w : ar_node_id req = n → rg R G (dispatch sv req now) w (λ _ _, True).
Proof.
  intros Hn. unfold dispatch. rewrite Hn. cbv zeta.
  assert (Hq : ∀ m : Lsp ApiReply, lal (step_by (request_op (λ _, False) n) (λ _, False)) m (λ _, True) →
    rg R G m w (λ _ _, True)).
  { intros m Hm. eapply rg_mono; [|by apply lrg_lal, hp_quiet]. done. }
  destruct (lsp_quiet sv (λ _, False) n (ar_params req) now) as (?&?&?&?&?&?&?).
  repeat (case_match; [first [apply pay_protocol|apply withdraw_protocol|by apply Hq]|]). done.
Qed.

Lemma check_request_Ok body sig now req :
  check_request body sig now = Ok req →
  parse body = Ok req ∧ verify_message (String.list_byte_of_string SIG_PREFIX ++ body) sig (ar_node_id req) = true ∧
  now ≤ ar_expires_at req ≤ wrapping_add u64_max now MAX_AHEAD_SECS.
Proof.
  intros (r & Hp & E)%bind_Ok. apply bail_if_bind_Ok in E as [Hv E]. apply bail_if_bind_Ok in E as [Ht E].
  apply bail_if_bind_Ok in E as [Ha [= ->]]. zbool. apply negb_false_iff in Hv. split_and!; [done|done|lia|lia].
Qed.

Lemma handle_protocol body sig now w :
  (∀ req, parse body = Ok req → ar_node_id req = n) → rg R G (handle sv body sig now) w (λ _ _, True).
Proof.
  intros Hn. unfold handle. case_match; [done|]. destruct sig as [s|]; [|done]. eapply lrg_then; [|clear w|done].
  { apply hp_quiet, lsp_verify. intros req (Hp & _)%check_request_Ok. by apply Hn. }
  intros [req|e|] w Hreq; [|done..]. apply lrg_bind, lrg_attempt.
  eapply rg_mono; [|apply dispatch_protocol; by apply Hreq]. by intros [].
Qed.
End protocol.

(** ** Isolation: what is under the name of the hold is the signer's *)
Section isolation.
Context `{BitcoinLib} `{LspSystem} `{AccountNode} (n : string).

(** A step that leaves the others alone, from a sound ledger. *)
Definition isolated (w w' : LspWorld) : Prop := ledger_ok (lw_db w) → others_kept n (lw_db w) (lw_db w').

Lemma step_isolated S C w w' :
  (∀ id, S id → owns n id w) → step_by (request_op S n) C w w' → isolated w w'.
Proof.
  intros HS [_ Hd _] Hok. destruct Hd as [->|(op & Hop & ->)]; [apply others_refl|].
  eapply request_isolated_op; [done| |exact Hop]. intros id h Hid. by apply HS.
Qed.

#[export] Instance isolation_protocol : HoldProtocol n main_steps isolated (λ id _, owns n id).
Proof.
  split.
  - intros A m P. apply lal_weaken. intros w w'. by apply step_isolated.
  - intros id a b kd w Hid Ha Hb. apply rg_atomically. intros w1 Hw. destruct (disk (lw_asked w1)); [done|].
    destruct (hold_kind n id a b kd (lw_db w1)) as [d|e|] eqn:E; simpl; [|done..]. split.
    + intros Hok. eapply others_hold; [done|exact Ha|exact Hb|exact E].
    + intros u _ h. apply hold_kind_row in E as (_ & ->). simpl. rewrite lookup_insert_eq. by intros [= <-].
  - intros E A f log id a w Hid Ho _. apply rg_atomically. intros w1 Hw.
    apply (owns_main n id w w1) in Ho; [|done..]. simpl. by destruct (f (lw_asked w1)).
  - intros A f id a w Hid Ho Hf. apply rg_atomically. intros w1 Hw. split; [|done].
    eapply step_isolated; [|apply (Hf w1)]. intros i ->. by eapply owns_main.
Qed.
End isolation.

(** ** Coverage: the hold is there, and large enough *)
Section coverage.
Context `{BitcoinLib} `{LspSystem} `{AccountNode} (n : string).

(** Steps of the main thread that resolve no payment of a request. *)
Definition quiet_op (now : Z) (op : Op) : Prop :=
  main_op now op ∧ match op with OpSettleHold _ _ _ _ _ => False | _ => True end.
Definition quiet_steps : relation LspWorld := rtc (step_by quiet_op main_call).

Lemma quiet_holds w w' id : quiet_steps w w' → api_hold id = true → holds (lw_db w') !! id = holds (lw_db w) !! id.
Proof.
  induction 1 as [|w w1 w' [_ Hd _] _ IH]; [done|]. intros Hid. rewrite IH by done.
  destruct Hd as [->|(op & [Hop Hq] & ->)]; [done|]. apply exec_op_holds. intros Hin.
  by eapply main_op_api in Hin as (? & ? & ? & ? & ->).
Qed.

Definition has_hold (id : string) (a : Z) (w : LspWorld) : Prop :=
  ∃ h, holds (lw_db w) !! id = Some h ∧ h_node h = n ∧ as_i64 a ≤ h_amount h.

(** A step that asks the node for nothing, or for a payment that a hold on
    [n]'s balance covers, and all it can cost with it. *)
Definition covered (w w' : LspWorld) : Prop :=
  ∀ c, lw_calls w' = c :: lw_calls w → ∃ id h,
    holds (lw_db w) !! id = Some h ∧ h_node h = n ∧ as_i64 (pays_msat c) ≤ h_amount h ∧
    (takes_msat c ≤ i64_max → takes_msat c ≤ h_amount h).

Lemma covered_same w w' : lw_calls w' = lw_calls w → covered w w'.
Proof. intros Hc c E. rewrite Hc in E. apply (f_equal length) in E. simpl in E. lia. Qed.

Lemma as_i64_mono a b : 0 ≤ a ≤ b → as_i64 a ≤ as_i64 b.
Proof. intros. unfold as_i64, try_from. repeat case_match; simpl; zbool; unfold i64_max in *; lia. Qed.

Lemma as_i64_least x a : x ≤ i64_max → x ≤ a → x ≤ as_i64 a.
Proof. intros. unfold as_i64, try_from. repeat case_match; simpl; zbool; lia. Qed.

#[export] Instance coverage_protocol : HoldProtocol n quiet_steps covered has_hold.
Proof.
  split.
  - intros A m P. apply lal_weaken. intros w w' [_ _ [Hc|(c & [] & _)]]. by apply covered_same.
  - intros id a b kd w Hid Ha Hb. apply rg_atomically. intros w1 Hw.
    destruct (disk (lw_asked w1)); [split; [by apply covered_same|done]|].
    destruct (hold_kind n id a b kd (lw_db w1)) as [d|e|] eqn:E; simpl; (split; [by apply covered_same|]); [|done..].
    intros u _. apply hold_kind_row in E as (_ & ->). eexists. simpl. by rewrite lookup_insert_eq.
  - intros E A f log id a w Hid (h & Hh & Hn & Hle) Hpay. apply rg_atomically. intros w1 Hw.
    rewrite <-(quiet_holds w w1) in Hh by done. simpl. destruct (f (lw_asked w1)) as [e|x]; simpl.
    + split; [by apply covered_same|]. by exists h.
    + split; [|by exists h]. intros c [= <-]. destruct (Hpay x) as [Hp Ht]. exists id, h. split_and!; [done..| |].
      * pose proof (as_i64_mono _ _ Hp). lia.
      * intros Hfit. specialize (Ht Hfit). pose proof (as_i64_least _ _ Hfit Ht). lia.
  - intros A f id a w Hid Ho Hf. apply rg_atomically. intros w1 Hw. split; [|done].
    destruct (Hf w1) as [[_ _ [Hc|(c & [] & _)]] _]. by apply covered_same.
Qed.
End coverage.

Section requests.
Context `{BitcoinLib} `{LspSystem} `{LspLib} `{AccountNode} `{LdkNode} (sv : AccountService).

Lemma parse_never_panics body : parse body ≠ Panic.
Proof. unfold parse, ok_or. by repeat (case_match; simpl). Qed.

Lemma bail_if_no_panic {E X} c (e : E) (f : unit → result E X) : f tt ≠ Panic → bail_if c e ≫= f ≠ Panic.
Proof. by destruct c. Qed.

Lemma check_request_no_panic body sig now : check_request body sig now ≠ Panic.
Proof.
  unfold check_request. pose proof (parse_never_panics body). destruct (parse body); [|done|done].
  by do 3 apply bail_if_no_panic.
Qed.

(** What the service asks of a request: the signature of the node it names over
    all of its bytes, and an expiry that is neither past nor far ahead. *)
Definition authentic (body : bytes) (sig : option string) (now : Z) : Prop := ∃ s req,
  sig = Some s ∧ parse body = Ok req ∧
  verify_message (String.list_byte_of_string SIG_PREFIX ++ body) s (ar_node_id req) = true ∧
  now ≤ ar_expires_at req ≤ now + MAX_AHEAD_SECS.

Lemma check_request_authentic body s now req :
  0 ≤ now ≤ i64_max → check_request body s now = Ok req → authentic body (Some s) now.
Proof.
  intros Hnow (Hp & Hs & He)%check_request_Ok. exists s, req.
  rewrite wrapping_add_small in He by (unfold MAX_AHEAD_SECS, i64_max, u64_max in *; lia). done.
Qed.

(** C23. A request that carries no valid signature of the node it names, or
    is late or dated too far ahead, is refused before anything is looked up: it
    takes no step at all.  Whatever a request does, and whatever the main
    thread does meanwhile, none of its steps takes money from an account other
    than its signer's, puts a hold on one or lets one go there, or redirects
    its notices. *)
Theorem request_isolated (n : string) body sig now w :
  (∀ inv a h, invoice_details inv = inr (Some a, h) → 0 ≤ a) →
  (∀ req, parse body = Ok req → ar_node_id req = n) →
  (0 ≤ now ≤ i64_max → ¬ authentic body sig now →
     ∃ reply, handle sv body sig now = Done (Ok reply) ∧ 400 ≤ fst reply) ∧
  rg main_steps (isolated n) (handle sv body sig now) w (λ _ _, True).
Proof.
  intros Hu Hn. split.
  - intros Hnow Hs. unfold handle, verify. case_match; [by eexists|]. destruct sig as [s|]; [|by eexists].
    pose proof (check_request_no_panic body s now). destruct (check_request body s now) as [req|e|] eqn:E; [|clear Hs|done].
    { by destruct Hs; eapply check_request_authentic. } eexists. split; [done|].
    simpl. by case_decide.
  - by apply (handle_protocol sv) with (n := n) (Held := λ id _, owns n id); [|apply isolation_protocol|].
Qed.

(** C25. What a request can cost, it has on hold: at the moment the node agrees to
    pay an invoice or to send coins on chain for a request of [n], there is a
    hold on [n]'s balance that covers the amount and its fees - for an invoice the
    amount, 1 % of it and 50 sat, which is the most LDK spends on routing when
    it is told no limit; for coins what arrives and the network's fee at the
    rate asked for, for the 200 vbytes the service reckons with - as long as the
    main thread has not resolved a payment of that name in between.  (Sums
    beyond 64-bit signed msat, 92 million bitcoin, are out of the ledger's
    reach: of those only the amount itself is said to be held, as far as the
    ledger can count.) *)
Theorem request_payments_covered (n : string) body sig now w :
  (∀ inv a h, invoice_details inv = inr (Some a, h) → 0 ≤ a) →
  (∀ req, parse body = Ok req → ar_node_id req = n) →
  rg quiet_steps (covered n) (handle sv body sig now) w (λ _ _, True).
Proof. intros. by apply (handle_protocol sv) with (n := n) (Held := has_hold n); [|apply coverage_protocol|]. Qed.
End requests.

(** ** A request is carried out once *)
Section once.
Context `{BitcoinLib} `{LspSystem} `{LspLib} `{AccountNode} `{LdkNode} (sv : AccountService).

(** Anything the process does: steps of either thread, restarts. *)
Definition service_steps : relation LspWorld := rtc (λ w w', lsp_step w w' ∨ w' = restart w).

(** Once the system clock is past [e] it stays past it.  [SystemTime] does not
    promise that: it can be set back. *)
Definition stays_past (e : Z) : Prop := ∀ m n, (m ≤ n)%nat → e < now_secs m → e < now_secs n.

Hypothesis invoice_unsigned : ∀ inv a h, invoice_details inv = inr (Some a, h) → 0 ≤ a.

Section nonce.
Context (node nonce : string) (e : Z).
Hypothesis e_range : e ≤ i64_max.
Hypothesis e_past : stays_past e.

(** The nonce is still known, or its time is over. *)
Definition spent (w : LspWorld) : Prop :=
  nonces (lw_db w) !! (node, nonce) = Some e ∨ e < now_secs (lw_asked w).

Lemma spent_later w w' : lw_asked w' = S (lw_asked w) → e < now_secs (lw_asked w) → spent w'.
Proof. intros Ha He. right. eapply e_past, He. lia. Qed.

Lemma spent_prune w : spent w → spent (with_db (stepped w) (prune_nonces (now_secs (lw_asked w)) (lw_db w))).
Proof.
  intros [Hn|He]; [|by eapply (spent_later w)]. destruct (Z.le_gt_cases (now_secs (lw_asked w)) e) as [Hle|Hgt].
  - left. by apply nonce_live.
  - eapply (spent_later w); [done|lia].
Qed.

Lemma spent_step w w' : lsp_step w w' → spent w → spent w'.
Proof.
  intros [Ha Hd _] [Hn|He]; [|by eapply spent_later].
  destruct (Z.le_gt_cases (now_secs (lw_asked w)) e) as [Hle|Hgt]; [|eapply spent_later; [done|lia]].
  left. destruct Hd as [->|(op & Hop & ->)]; [done|].
  pose proof (exec_op_grows op (lw_db w)) as [_ Hg]. destruct op; try (by rewrite <-Hg).
  - destruct Hop as [(n & s & _ & _ & ->)|[_ []]]. by apply nonce_live.
  - by apply nonce_kept.
Qed.

Lemma spent_moves w w' : service_steps w w' → spent w → spent w'.
Proof.
  induction 1 as [|w w1 w' [Hs| ->] _ IH]; [done|..]; intros Hw; apply IH; [by eapply spent_step|].
  destruct Hw as [?|?]; [by left|]. by eapply spent_later.
Qed.
End nonce.

Lemma asked_grows w w' : service_steps w w' → (lw_asked w ≤ lw_asked w')%nat.
Proof.
  induction 1 as [|w w1 w' [[Ha _ _]| ->] _ IH]; [done|..]; [|simpl in IH]; lia.
Qed.

(** Accepting a request spends its nonce. *)
Lemma verify_spends body sig now req w :
  0 ≤ now ≤ i64_max - MAX_AHEAD_SECS →
  rg service_steps (λ _ _, True) (verify body sig now) w (λ r w', r = Ok (Ok req) →
    parse body = Ok req ∧ ar_expires_at req ≤ i64_max ∧ spent (ar_node_id req) (ar_nonce req) (ar_expires_at req) w').
Proof.
  intros Hnow. unfold verify. destruct (check_request body sig now) as [req'|e|] eqn:Ec; [|done..].
  apply check_request_Ok in Ec as (Hp & _ & He). rewrite wrapping_add_small in He by (unfold MAX_AHEAD_SECS, i64_max, u64_max in *; lia).
  assert (Hm : ar_expires_at req' ≤ i64_max) by (unfold i64_max in *; lia).
  apply lrg_bind, lrg_attempt. unfold use_nonce. apply lrg_bind, rg_atomically. intros w0 _. destruct (disk (lw_asked w0)); [done|].
  split; [done|]. cbn [fst snd]. apply rg_atomically. intros w1 _. destruct (disk (lw_asked w1)); [done|].
  destruct (insert_nonce _ _ _ _) as [[] d] eqn:Eu; simpl; [|done]. split; [done|]. intros [= <-]. split_and!; [done..|].
  left. simpl. unfold insert_nonce in Eu. case_match; [done|]. injection Eu as <-. simpl. rewrite lookup_insert_eq.
  unfold u64_as_i64. by rewrite (proj2 (Z.leb_le _ _) Hm).
Qed.

(** What a refused request is told. *)
Definition refused (reply : ApiReply) : Prop :=
  reply = err 413 "too_large" ∨ ∃ status reason, reply = auth_err status reason.

Lemma handle_refuses body sig req now w :
  stays_past (ar_expires_at req) → parse body = Ok req → ar_expires_at req ≤ i64_max → spent (ar_node_id req) (ar_nonce req) (ar_expires_at req) w →
  rg service_steps (λ _ _, True) (handle sv body sig now) w (λ r w', ∀ reply, r = Ok reply →
    refused reply ∨ now ≤ ar_expires_at req < now_secs (lw_asked w')).
Proof.
  intros Hpast Hp Hm Hs. unfold handle. case_match; [intros ? [= <-]; left; by left|].
  destruct sig as [s|]; [|intros ? [= <-]; left; right; by do 2 eexists]. unfold verify.
  destruct (check_request body s now) as [req'|e|] eqn:Ec; [|intros ? [= <-]; left; right; by do 2 eexists|done].
  apply check_request_Ok in Ec as (Hp' & _ & He). rewrite Hp' in Hp. injection Hp as ->.
  apply lrg_bind, lrg_bind, lrg_attempt. unfold use_nonce. apply lrg_bind, rg_atomically. intros w0 Hw. eapply spent_moves in Hs; [|done|done|exact Hw].
  assert (Hs' : spent (ar_node_id req) (ar_nonce req) (ar_expires_at req)
    (with_db (stepped w0) (prune_nonces (now_secs (lw_asked w0)) (lw_db w0)))).
  { by eapply spent_prune. }
  destruct (disk (lw_asked w0)); [split; [done|]; intros ? [= <-]; left; right; by do 2 eexists|]. split; [done|]. cbn [fst snd].
  apply rg_atomically. intros w1 Hw1. eapply spent_moves in Hs'; [|done|done|exact Hw1].
  destruct (disk (lw_asked w1)); [split; [done|]; intros ? [= <-]; left; right; by do 2 eexists|].
  destruct (insert_nonce _ _ _ _) as [b d] eqn:Eu. split; [done|]. simpl.
  destruct b; [|intros ? [= <-]; left; right; by do 2 eexists].
  assert (Hlate : ar_expires_at req < now_secs (lw_asked w1)).
  { destruct Hs' as [Hn|?]; [|done]. unfold insert_nonce in Eu. by rewrite Hn in Eu. }
  apply lrg_bind, lrg_attempt. eapply rg_mono, rg_weaken.
  3: eapply (always_keeps service_steps _ _ _ (λ w, ar_expires_at req < now_secs (lw_asked w))).
  5: apply (lsp_dispatch sv invoice_unsigned).
  - intros [a|x|] w2 [_ Hw2]; [|destruct x|done]; simpl; intros ? _; right; lia.
  - done.
  - intros w2 w3 Hg%asked_grows. by apply Hpast.
  - intros w2 w3 [Ha _ _]. apply Hpast. lia.
  - simpl. eapply Hpast, Hlate. lia.
Qed.

(** C24. A signed request is carried out at most once: after it was accepted,
    and whatever both threads do and however often the process restarts, the
    same body is refused, under any signature, for as long as the system clock
    is not set back from past the request's expiry to before it (the service
    forgets a nonce whose time is over, and [SystemTime] is not monotonic: a
    clock set back that far lets a replay in).  The one other exception is
    a replay the clock overtakes: the handler read the time before the expiry,
    the ledger after it. *)
Theorem request_once body sig now req w w1 sig' now' reply w2 :
  0 ≤ now ≤ i64_max - MAX_AHEAD_SECS →
  (∀ m n, (m ≤ n)%nat → ar_expires_at req < now_secs m → ar_expires_at req < now_secs n) →
  exec service_steps (verify body sig now) w (Ok (Ok req)) w1 →
  exec service_steps (handle sv body sig' now') w1 (Ok reply) w2 →
  ar_expires_at req < now' ∨ now_secs (lw_asked w2) ≤ ar_expires_at req → refused reply.
Proof.
  intros Hnow Hpast Hfirst Hsecond Hclock.
  eapply exec_rg in Hfirst as Hs; [|clear Hfirst|by apply verify_spends].
  - destruct (Hs eq_refl) as (Hp & Hm & Hsp).
    eapply exec_rg in Hsecond as Hr; [| |by eapply handle_refuses].
    + destruct (Hr reply eq_refl) as [?|?]; [done|lia].
    + intros r w3 w4 Hg%asked_grows Hx rep Er. destruct (Hx rep Er) as [?|[? ?]]; [by left|right].
      split; [done|]. by eapply Hpast.
  - intros r w3 w4 Hg Hx Er. destruct (Hx Er) as (?&?&?). split_and!; [done..|]. by eapply spent_moves.
Qed.
End once.
