(* ===== verification/LspHeld.v ===== *)
(** The main thread and money that is not its own: balances moved into
    channels, and payments held for phones that are away. *)

From S2P Require Import Prelude Json Threads Bitcoin Script Ledger LspRules Lsp LspApi LspNode LspRuns LspSafety.

(** ** Steps of the metrics thread *)
Section metrics.
Context `{BitcoinLib} `{LspSystem} `{LspLib}.

Definition metrics_steps : relation LspWorld := rtc (step_by metrics_op metrics_call).

Lemma metrics_op_main now op id : metrics_op now op → main_hold id = true → id ∉ op_holds op.
Proof.
  intros (n & s & _ & _ & Hop) Hid Hin.
  assert (Hno : api_hold id ≠ true) by (intros Ha; by eapply holds_apart).
  destruct op; simpl in *; try done; repeat (apply elem_of_cons in Hin as [->|Hin]); try by apply elem_of_nil in Hin.
  all: destruct Hop || idtac; done.
Qed.

Lemma metrics_holds w w' id :
  metrics_steps w w' → main_hold id = true → holds (lw_db w') !! id = holds (lw_db w) !! id.
Proof.
  induction 1 as [|w w1 w' [_ Hd _] _ IH]; [done|]. intros Hid. rewrite IH by done.
  destruct Hd as [->|(op & Hop & ->)]; [done|]. by eapply exec_op_holds, metrics_op_main.
Qed.

(** One after the other, from any world. *)
Lemma rg_for_each {A} (R G : relation LspWorld) (f : A → Lsp unit) l w :
  (∀ a w, a ∈ l → rg R G (f a) w (λ _ _, True)) → rg R G (for_each f l) w (λ _ _, True).
Proof.
  revert w. induction l as [|a l IH]; intros w Hf; [done|]. cbn [for_each]. apply lrg_bind, lrg_attempt.
  eapply rg_mono; [|apply Hf, elem_of_cons; by left]. intros [x|e|] w' _; [..|done].
  all: apply IH; intros b w2 Hb; apply Hf, elem_of_cons; by right.
Qed.
End metrics.

(** ** Moving balances into channels *)
Section deliveries.
Context `{BitcoinLib} `{LspSystem} `{LspLib} `{AccountNode} `{LdkNode}.

(** A step that asks the node for nothing, or for a spontaneous payment of
    exactly what is on hold for it. *)
Definition backed (w w' : LspWorld) : Prop :=
  ∀ c, lw_calls w' = c :: lw_calls w → ∃ amount pk id,
    c = CKeysend amount pk id ∧
    holds (lw_db w) !! ("deliver:pending:" +:+ pk) =
      Some {| h_node := pk; h_amount := as_i64 amount; h_base := as_i64 amount; h_kind := "conversion" |}.

Lemma backed_same w w' : lw_calls w' = lw_calls w → backed w w'.
Proof. intros Hc c E. rewrite Hc in E. apply (f_equal length) in E. simpl in E. lia. Qed.

Lemma backed_quiet {A} (m : Lsp A) (T : Z → Op → Prop) P : lal (step_by T (λ _, False)) m P → lal backed m P.
Proof. apply lal_weaken. intros w w' [_ _ [Hc|(c & [] & _)]]. by apply backed_same. Qed.

Lemma backed_rest {A} (m : Lsp A) (T : Z → Op → Prop) w :
  lal (step_by T (λ _, False)) m (λ _, True) → rg metrics_steps backed m w (λ _ _, True).
Proof. intros Hm. eapply rg_mono; [|by eapply lrg_lal, backed_quiet]. done. Qed.

Lemma start_conversion_holds pk id w :
  main_hold id = true →
  rg metrics_steps backed (start_conversion_tx pk id) w (λ r w', ∀ a, r = Ok a →
    holds (lw_db w') !! id = Some {| h_node := pk; h_amount := as_i64 a; h_base := as_i64 a; h_kind := "conversion" |}).
Proof.
  intros Hid. unfold start_conversion_tx. eapply lrg_then; [apply (backed_quiet _ (λ _ _, False)), lsp_reads|clear w|].
  - intros acc w _. cbv zeta. apply lrg_bind, rg_atomically. intros w1 Hw.
    destruct (disk (lw_asked w1)); [split; [by apply backed_same|done]|].
    destruct (hold_kind _ _ _ _ _ _) as [d|e|] eqn:E; simpl; (split; [by apply backed_same|]); [|done..].
    apply hold_kind_row in E as [_ ->]. intros a [= <-]. simpl. apply lookup_insert_eq.
  - intros r w' Hr a ->. by edestruct Hr.
Qed.

Lemma deliver_balance_backed busy peers channels x w :
  rg metrics_steps backed (deliver_balance busy peers channels x) w (λ _ _, True).
Proof.
  destruct x as [pk acct]. unfold deliver_balance. do 3 (case_match; [done|]).
  assert (Hid : main_hold ("deliver:pending:" +:+ pk) = true) by done.
  apply lrg_bind, lrg_attempt. eapply rg_mono; [|by apply start_conversion_holds].
  intros [a|e|] w1 Hh; [|done..]. specialize (Hh a eq_refl). apply lrg_bind, rg_atomically. intros w2 Hw.
  rewrite <-(metrics_holds w1 w2) in Hh by done. cbv beta zeta. cbn [fst snd].
  destruct (spontaneous_send _ _ _) as [e|id]; split.
  - by apply backed_same.
  - apply (backed_rest _ main_op), lal_then; [|by intros; apply lal_ret].
    apply lal_try, lsp_abandon. intros. by split.
  - intros c [= <-]. by exists a, pk, id.
  - apply (backed_rest _ main_op), lal_then; [|by intros; apply lal_ret].
    apply lal_try, lsp_rename. intros. split; [done|]. by split.
Qed.

(** C36. A delivery round sends exactly what it holds.  In
    [deliver_balances], with which the main thread moves the balances of
    connected owners into their channels, and whatever requests the metrics
    thread serves meanwhile: at the moment the node agrees to the payment, the
    hold on the owner's balance is there and is of that amount.  (The
    conversion round, [run_conversions], does not keep this; see
    [conversion_overdraws].) *)
Theorem deliveries_backed w : rg metrics_steps backed deliver_balances w (λ _ _, True).
Proof.
  unfold deliver_balances.
  eapply lrg_then; [apply (backed_quiet _ (λ _ _, False)), lal_try, lsp_reads|clear w|done]. intros [[|x l]|e|] w _; [done| |done..].
  eapply lrg_then; [apply (backed_quiet _ (λ _ _, False)), lal_try, lsp_gets|clear w|done]. intros c w _. cbv zeta.
  eapply lrg_then; [apply (backed_quiet _ (λ _ _, False)), lsp_asks|clear w|done]. intros peers w _.
  eapply lrg_then; [apply (backed_quiet _ (λ _ _, False)), lsp_asks|clear w|done]. intros channels w _.
  apply rg_for_each. intros y w' _. apply deliver_balance_backed.
Qed.
End deliveries.
