(* ===== verification/LspOnce.v ===== *)
(** A held payment reaches its owner once: the life of the rows of [held],
    against what the node was asked to do for them. *)

From S2P Require Import Prelude Json Threads Bitcoin Script Ledger LspRules Lsp LspApi LspNode LspRuns LspSafety LspHeld.

(** ** The table of held payments *)
Section table.
Context `{BitcoinLib}.

Lemma add_balance_held db k d db' : add_balance db k d = Ok db' → held db' = held db.
Proof. unfold add_balance. intros. by repeat (case_match; simplify_eq). Qed.

Lemma revenue_row_held db r : held (snd (insert_revenue_row db r)) = held db.
Proof. unfold insert_revenue_row. by case_decide. Qed.

Lemma revenue_rows_held rows db : held (snd (insert_revenue_rows rows db)) = held db.
Proof.
  unfold insert_revenue_rows. generalize 0%nat as n. revert db.
  induction rows as [|r rows IH]; intros db n; [done|]. simpl.
  pose proof (revenue_row_held db r) as Hr. destruct (insert_revenue_row db r) as [new d]. by rewrite IH.
Qed.

Lemma hold_kind_held node id a b kd db db' : hold_kind node id a b kd db = Ok db' → held db' = held db.
Proof. by intros [_ ->]%hold_kind_row. Qed.

Lemma settle_hold_held now id s f h db db' : settle_hold now id s f h db = Ok db' → held db' = held db.
Proof.
  intros ([[k x] d] & (r & _ & [= <- <- <-])%bind_Ok & E)%bind_Ok. cbv zeta in E.
  destruct (0 <? _); [|by injection E as <-]. by apply bind_Ok in E as (d' & Ha%add_balance_held & [= <-]).
Qed.

(** Closing with a debit, and perhaps a booking of revenue. *)
Lemma debit_held db id (f : Z → Z) (g : string → Z → Db → Db) db' :
  (∀ k a d, held (g k a d) = held d) →
  ('(k, a, d) ← take_hold db id; d ← add_balance d k (f a); mret (g k a d)) = Ok db' → held db' = held db.
Proof.
  intros Hg ([[k x] d] & (r & _ & [= <- <- <-])%bind_Ok & E)%bind_Ok.
  apply bind_Ok in E as (d' & Ha%add_balance_held & [= <-]). by rewrite Hg, Ha.
Qed.

(** Only two operations change it. *)
Lemma exec_op_held op db :
  match op with OpHeldInsert _ _ _ _ _ | OpHeldSet _ _ _ _ => True | _ => held (exec_op op db) = held db end.
Proof.
  assert (Hu : ∀ r : LResult Db, (∀ d, r = Ok d → held d = held db) → held (committed_unit db r) = held db)
    by (intros [d| |]; simpl; auto).
  assert (Hc : ∀ A (r : LResult (A * Db)), (∀ a d, r = Ok (a, d) → held d = held db) → held (committed db r) = held db)
    by (intros A [[a d]| |]; simpl; eauto).
  destruct op; simpl; try done; try (apply Hc; intros x d E); try (apply Hu; intros d E).
  - revert E. unfold credit, insert_credit. case_decide; [by intros [= _ <-]|].
    by intros (d' & Hd%add_balance_held & [= _ <-])%bind_Ok.
  - by eapply hold_kind_held.
  - apply bind_Ok in E as (h & _ & E). by eapply settle_hold_held.
  - by eapply settle_hold_held.
  - by eapply hold_kind_held.
  - by eapply hold_kind_held.
  - eapply (debit_held db id (λ a, - as_i64 a)); [|exact E]. intros. case_match; [etrans; [apply revenue_row_held|done]|done].
  - revert E. unfold transfer, insert_credit. case_decide; [by intros [= _ <-]|].
    intros (a & _ & E)%bind_Ok. apply bail_if_bind_Ok in E as [_ E].
    apply bind_Ok in E as (d1 & H1%add_balance_held & E). apply bind_Ok in E as (d2 & H2%add_balance_held & [= _ <-]).
    simpl. by rewrite H2, H1.
  - apply bind_Ok in E as (a & _ & E). apply bind_Ok in E as (d' & E & [= _ <-]). by eapply hold_kind_held.
  - eapply (debit_held db id (λ a, - as_i64 a)); [|exact E]. intros. case_match; [etrans; [apply revenue_row_held|done]|done].
  - by apply bind_Ok in E as ([[k y] d'] & (r & _ & [= <- <- <-])%bind_Ok & [= <-]).
  - unfold rename_hold in E. destruct (holds db !! old); [|done]. case_decide; [done|]. by injection E as <-.
  - unfold insert_nonce. by case_match.
  - unfold add_fee_invoice. by case_match.
  - unfold fee_invoice_paid. case_match; [|done]. apply revenue_row_held.
  - unfold record_revenue. case_match; [done|]. apply revenue_row_held.
  - unfold import_earlier. case_decide; [done|].
    match goal with |- context [insert_revenue_rows ?l db] =>
      pose proof (revenue_rows_held l db) as Hrr; destruct (insert_revenue_rows l db) end.
    cbn [snd] in *. by rewrite revenue_row_held, Hrr.
  - unfold import_entry_fees. case_decide; [done|].
    match goal with |- context [insert_revenue_rows ?l db] =>
      pose proof (revenue_rows_held l db) as Hrr; destruct (insert_revenue_rows l db) end.
    cbn [snd] in *. by rewrite revenue_row_held, Hrr.
  - unfold drop_push_token. by repeat case_match.
Qed.
End table.

(** Writing a row. *)
Definition rewritten (st : option string) (claimable : option (Z * option Z)) (fwd : option (option bytes)) (r : HeldRow) : HeldRow := {|
  hd_node := hd_node r; hd_preimage := hd_preimage r; hd_amount := hd_amount r;
  hd_claimable := match claimable with Some (a, _) => Some (as_i64 a) | None => hd_claimable r end;
  hd_deadline := match claimable with Some (_, d) => d | None => hd_deadline r end;
  hd_forward_id := match fwd with Some f => f | None => hd_forward_id r end;
  hd_state := default (hd_state r) st; hd_created_at := hd_created_at r |}.
Abbreviation updated st := (rewritten (Some st)).

(** ** What was asked for one held payment *)
Definition held_call (c : NodeCall) : option bytes :=
  match c with CForward h _ _ _ | CClaim h _ _ | CFail h => Some h | _ => None end.

Definition calls_of (hash : bytes) (w : LspWorld) : list NodeCall :=
  filter (λ c, held_call c = Some hash) (lw_calls w).

Lemma elem_of_calls hash w c : c ∈ calls_of hash w ↔ held_call c = Some hash ∧ c ∈ lw_calls w.
Proof. unfold calls_of. by rewrite list_elem_of_filter. Qed.

Lemma calls_of_cons hash w w' c :
  lw_calls w' = c :: lw_calls w →
  calls_of hash w' = if decide (held_call c = Some hash) then c :: calls_of hash w else calls_of hash w.
Proof. unfold calls_of. by intros ->. Qed.

Section invariant.
Context `{BitcoinLib} `{LspSystem} `{LspLib} `{AccountNode} `{LdkNode}.

(** The results of payments the node has reported so far. *)
Abbreviation Results := (list (bytes * bool)).

(** The amount that waits, and whom it is for. *)
Definition waiting_msat (r : HeldRow) : option Z := (λ v, Z.max v 0) <$> hd_claimable r.

Definition call_fits (r : HeldRow) (c : NodeCall) : Prop :=
  match c with
  | CForward _ a n _ => n = hd_node r ∧ waiting_msat r = Some a
  | CClaim _ a p => p = b32 (hd_preimage r) ∧ waiting_msat r = Some a
  | _ => True
  end.

(** A row and the calls made for it.  Without a payment under way, all that
    were started have failed, and a claim was for a credit; with one, it is the
    only one that did not fail, and a claim follows its success. *)
Definition row_ok (res : Results) (db : Db) (hash : bytes) (row : option HeldRow) (cs : list NodeCall) : Prop :=
  match row with
  | None => cs = []
  | Some r =>
      length hash = 32%nat ∧ parse_node (hd_node r) = Some (hd_node r) ∧ Forall (call_fits r) cs ∧
      match hd_forward_id r with
      | None =>
          hd_state r ∈ ["open"; "claimable"; "credited"; "failed"] ∧ (hd_state r = "open" → cs = []) ∧
          (∀ a n i, CForward hash a n i ∈ cs → (i, false) ∈ res) ∧
          (∀ a p, CClaim hash a p ∈ cs → hd_state r = "credited" ∧ credited db (hd_node r) hash) ∧
          (CFail hash ∈ cs → hd_state r = "failed")
      | Some i =>
          (hd_state r = "forwarding" ∨ hd_state r = "done" ∧ (i, true) ∈ res) ∧ (i, false) ∉ res ∧
          (∃ a n, CForward hash a n i ∈ cs) ∧
          (∀ a n j, CForward hash a n j ∈ cs → j = i ∨ (j, false) ∈ res) ∧
          (∀ a p, CClaim hash a p ∈ cs → (i, true) ∈ res) ∧ CFail hash ∉ cs
      end
  end.

Definition hash_ok (res : Results) (w : LspWorld) (hash : bytes) : Prop :=
  row_ok res (lw_db w) hash (held (lw_db w) !! hash) (calls_of hash w).

(** Ids of payments: each was handed out by an earlier step, none twice, and
    only those of payments already started are reported on. *)
Record ids_ok (res : Results) (w : LspWorld) : Prop := {
  io_earlier h a n i : CForward h a n i ∈ lw_calls w → ∃ k b m, (k < lw_asked w)%nat ∧ spontaneous_send k b m = inr i;
  io_once h a n h' a' n' i : CForward h a n i ∈ lw_calls w → CForward h' a' n' i ∈ lw_calls w → h = h';
  io_reported i ok k b m : (i, ok) ∈ res → (lw_asked w ≤ k)%nat → spontaneous_send k b m ≠ inr i;
}.

Record held_inv (res : Results) (w : LspWorld) : Prop := {
  hi_ledger : ledger_ok (lw_db w);
  hi_ids : ids_ok res w;
  hi_hash hash : hash_ok res w hash;
}.

(** ** Steps that leave held payments alone *)
Definition plain_op (now : Z) (op : Op) : Prop :=
  op_wf op ∧
  match op with
  | OpHeldSet _ _ _ _ => False
  | OpHeldInsert _ hash n preimage _ => hash = hash_of preimage ∧ parse_node n = Some n
  | _ => True
  end.
Definition plain_step : relation LspWorld := step_by plain_op (λ c, held_call c = None).
Definition plain_steps : relation LspWorld := rtc plain_step.

Context `{!SerLaws}.

Lemma metrics_plain w w' : (∀ s n, parse_node s = Some n → parse_node n = Some n) →
  step_by metrics_op metrics_call w w' → plain_step w w'.
Proof.
  intros parse_canon. apply step_by_mono.
  - intros now op (n & s & Hs & Hwf & Hop). split; [done|]. destruct op; try done.
    destruct Hop as [-> ->]. by apply parse_canon in Hs.
  - intros c [Hc|Hc]; by destruct c.
Qed.

Lemma node_plain w w' : step_by (node_op False) (node_call False) w w' → plain_step w w'.
Proof.
  apply step_by_mono.
  - intros now op [Hwf Hop]. split; [done|]. by destruct op.
  - intros c Hc. by destruct c.
Qed.

(** Such a step keeps the rows there are, and may add a new one. *)
Lemma plain_rows w w' hash :
  plain_step w w' →
  held (lw_db w') !! hash = held (lw_db w) !! hash ∨
  held (lw_db w) !! hash = None ∧ ∃ r, held (lw_db w') !! hash = Some r ∧
    length hash = 32%nat ∧ parse_node (hd_node r) = Some (hd_node r) ∧ hd_state r = "open" ∧ hd_forward_id r = None.
Proof.
  intros [_ [->|(op & [_ Hop] & ->)] _]; [by left|]. pose proof (exec_op_held op (lw_db w)) as Hh.
  destruct op; try (left; by rewrite Hh); [|done]. destruct Hop as [-> Hn]. simpl. unfold held_insert.
  destruct (held (lw_db w) !! hash_of preimage) eqn:E; simpl; [by left|].
  destruct (decide (hash = hash_of preimage)) as [->|Hne]; [right|left; by rewrite lookup_insert_ne].
  split; [done|]. rewrite lookup_insert_eq. eexists. split_and!; [done| |done..]. apply sha256_length.
Qed.

Lemma plain_calls w w' hash : plain_step w w' → calls_of hash w' = calls_of hash w.
Proof.
  intros [_ _ [Hc|(c & Hn & Hc)]]; [unfold calls_of; by rewrite Hc|].
  rewrite (calls_of_cons _ _ _ _ Hc). by rewrite decide_False by congruence.
Qed.

Lemma step_entries (A : Z → Op → Prop) C w w' : step_by A C w w' → entries (lw_db w) `prefix_of` entries (lw_db w').
Proof. intros [_ [->|(op & _ & ->)] _]; [done|apply exec_op_grows]. Qed.

Lemma row_ok_entries res db db' hash row cs :
  entries db `prefix_of` entries db' → row_ok res db hash row cs → row_ok res db' hash row cs.
Proof.
  intros He. unfold row_ok. destruct row as [r|]; [|done]. intros (? & ? & ? & Hr). split_and!; [done..|].
  destruct (hd_forward_id r); [done|]. destruct Hr as (? & ? & ? & Hc & ?). split_and!; [done..| |done].
  intros a p Hin. destruct (Hc a p Hin). split; [done|]. by eapply credited_grows.
Qed.

Lemma plain_hash res w w' hash : plain_step w w' → hash_ok res w hash → hash_ok res w' hash.
Proof.
  intros Hs Hh. unfold hash_ok in *. rewrite (plain_calls w w' hash Hs).
  destruct (plain_rows w w' hash Hs) as [->|(Hno & r & -> & Hl & Hp & Hst & Hf)].
  - eapply row_ok_entries; [by eapply step_entries|done].
  - rewrite Hno in Hh. simpl in Hh. rewrite Hh. simpl. rewrite Hf, Hst. split_and!; [done|done|constructor| |done|..].
    + set_solver.
    + intros a n i []%elem_of_nil.
    + intros a p []%elem_of_nil.
    + intros []%elem_of_nil.
Qed.

Lemma plain_ids res w w' : plain_step w w' → ids_ok res w → ids_ok res w'.
Proof.
  intros [Ha _ Hc] [Hi1 Hi2 Hi3].
  assert (Hcall : ∀ h a n i, CForward h a n i ∈ lw_calls w' → CForward h a n i ∈ lw_calls w).
  { intros h a n i. destruct Hc as [->|(c & Hn & ->)]; [done|]. rewrite elem_of_cons. intros [<-|?]; [by simpl in Hn|done]. }
  split.
  - intros h a n i Hi%Hcall. destruct (Hi1 _ _ _ _ Hi) as (k & b & m & ? & ?). exists k, b, m. split; [lia|done].
  - intros h a n h' a' n' i Hi%Hcall Hj%Hcall. by eapply Hi2.
  - intros i ok k b m Hi Hk. eapply Hi3; [done|lia].
Qed.

Lemma plain_ledger w w' : plain_step w w' → ledger_ok (lw_db w) → ledger_ok (lw_db w').
Proof. apply step_ok. by intros now op [? _]. Qed.

Lemma plain_inv res w w' : plain_steps w w' → held_inv res w → held_inv res w'.
Proof.
  induction 1 as [|w w1 w' Hs _ IH]; [done|]. intros [? ? ?]. apply IH. split; [by eapply plain_ledger|by eapply plain_ids|].
  intros hash. by eapply plain_hash.
Qed.
End invariant.

(** ** One held payment in focus *)
Section focus.
Context `{BitcoinLib} `{LspSystem} `{LspLib} `{AccountNode} `{LdkNode} `{!SerLaws} (sv : AccountService).
Hypothesis disk_ok : ∀ k, disk k = None.
Hypothesis ids_fresh : ∀ k k' a a' n n' i, spontaneous_send k a n = inr i → spontaneous_send k' a' n' = inr i → k = k'.

Context (res : list (bytes * bool)) (hash : bytes).

(** The row of [hash] and the calls for it are known, the rows [K] of the
    others are untouched and in order, the entries are at least [es]. *)
Record focus (K : bytes → HeldRow → Prop) (row : HeldRow) (cs : list NodeCall) (es : list EntryRow) (w : LspWorld) : Prop := {
  fc_ledger : ledger_ok (lw_db w);
  fc_ids : ids_ok res w;
  fc_others h : h ≠ hash → hash_ok res w h;
  fc_row : held (lw_db w) !! hash = Some row;
  fc_calls : calls_of hash w = cs;
  fc_kept h r : K h r → h ≠ hash → held (lw_db w) !! h = Some r;
  fc_entries : es `prefix_of` entries (lw_db w);
}.

Lemma focus_open w row :
  held_inv res w → held (lw_db w) !! hash = Some row →
  focus (λ h r, held (lw_db w) !! h = Some r) row (calls_of hash w) (entries (lw_db w)) w ∧ row_ok res (lw_db w) hash (Some row) (calls_of hash w).
Proof.
  intros [Hl Hi Hh] Hr. split; [by split; auto|]. specialize (Hh hash). unfold hash_ok in Hh. by rewrite Hr in Hh.
Qed.

Lemma focus_close K row cs es w :
  focus K row cs es w → row_ok res (lw_db w) hash (Some row) cs → held_inv res w.
Proof.
  intros [Hl Hi Ho Hr Hc _ _] Hk. split; [done..|]. intros h. destruct (decide (h = hash)) as [->|]; [|auto].
  unfold hash_ok. by rewrite Hr, Hc.
Qed.

Lemma focus_plain_step K row cs es w w' : plain_step w w' → focus K row cs es w → focus K row cs es w'.
Proof.
  intros Hs [Hl Hi Ho Hr Hc Hk He]. split.
  - by eapply plain_ledger.
  - by eapply plain_ids.
  - intros h Hne. by eapply plain_hash, Ho.
  - destruct (plain_rows w w' hash Hs) as [->|[Hno _]]; [done|congruence].
  - by rewrite (plain_calls w w' hash Hs).
  - intros h r HK Hne. destruct (plain_rows w w' h Hs) as [->|[Hno _]]; [by apply Hk|].
    rewrite (Hk h r HK Hne) in Hno. done.
  - etrans; [exact He|by eapply step_entries].
Qed.

Lemma focus_plain K row cs es w w' : plain_steps w w' → focus K row cs es w → focus K row cs es w'.
Proof. induction 1; [done|]. intros. by eauto using focus_plain_step. Qed.

Abbreviation hrg m w Q := (rg plain_steps (λ _ _, True) m w Q).

(** Steps that are none of a held payment's. *)
Lemma focus_quiet {A} (m : Lsp A) P K row cs es w :
  lal plain_step m P → focus K row cs es w → hrg m w (λ r w', okq P r ∧ focus K row cs es w').
Proof.
  intros Hm Hf. eapply rg_weaken; [|eapply always_keeps; [| |exact Hm|exact Hf]]; [done|..].
  - intros. by eapply focus_plain.
  - intros. by eapply focus_plain_step.
Qed.

(** Asking the node for it. *)
Lemma focus_call {E A} (f : nat → E + A) log K row cs es w :
  (∀ x, held_call (log x) = Some hash) →
  (∀ k x h a n i, f k = inr x → log x = CForward h a n i → ∃ b m, spontaneous_send k b m = inr i) →
  focus K row cs es w →
  hrg (call f log) w (λ r w', match r with
    | Ok (inl _) => focus K row cs es w'
    | Ok (inr x) => focus K row (log x :: cs) es w' ∧ ∀ h a n i ok, log x = CForward h a n i → (i, ok) ∉ res
    | _ => False
    end).
Proof.
  intros Hlog Hnew Hf. apply rg_atomically. intros w1 Hw. split; [done|]. apply (focus_plain _ _ _ _ w w1) in Hf; [|done].
  cbv beta zeta. cbn [fst snd].
  assert (Hstep : focus K row cs es (stepped w1)) by by apply (focus_plain_step _ _ _ _ w1); [apply step_same|].
  destruct (f (lw_asked w1)) as [e|x] eqn:Ef; [done|]. split.
  - destruct Hstep as [Hl [Hi1 Hi2 Hi3] Ho Hr Hc Hk He]. split; try done.
    + pose proof (fc_ids _ _ _ _ _ Hf) as [Hj1 _ Hj3].
      assert (Hfresh : ∀ h a n i h' a' n', log x = CForward h a n i → CForward h' a' n' i ∉ lw_calls w1).
      { intros h a n i h' a' n' E1 Hin. destruct (Hnew _ _ _ _ _ _ Ef E1) as (b & m & Hs).
        destruct (Hj1 _ _ _ _ Hin) as (k & b' & m' & Hk' & Hs'). pose proof (ids_fresh _ _ _ _ _ _ _ Hs Hs'). lia. }
      split; simpl.
      * intros h a n i [E1|Hin]%elem_of_cons; [|by apply Hi1 in Hin]. destruct (Hnew _ _ _ _ _ _ Ef (eq_sym E1)) as (b & m & Hs).
        exists (lw_asked w1), b, m. split; [lia|done].
      * intros h a n h' a' n' i [E1|Hin]%elem_of_cons [E2|Hin']%elem_of_cons; [congruence|..|by eapply Hi2].
        -- by destruct (Hfresh _ _ _ _ h' a' n' (eq_sym E1)).
        -- by destruct (Hfresh _ _ _ _ h a n (eq_sym E2)).
      * intros i ok k b m Hin Hle. by eapply Hi3.
    + intros h Hne. specialize (Ho h Hne). unfold hash_ok in *. erewrite (calls_of_cons h (stepped w1)); [|done].
      rewrite decide_False; [done|]. rewrite Hlog. congruence.
    + erewrite (calls_of_cons hash (stepped w1)); [|done]. rewrite decide_True by apply Hlog. by rewrite Hc.
  - intros h a n i ok E1 Hin. destruct (Hnew _ _ _ _ _ _ Ef E1) as (b & m & Hs).
    by eapply (io_reported _ _ (fc_ids _ _ _ _ _ Hf)).
Qed.

Lemma focus_set st c fwd K row cs es w :
  focus K row cs es w →
  hrg (db_set (λ _, held_set hash st c fwd)) w (λ r w', r = Ok tt ∧ focus K (rewritten st c fwd row) cs es w').
Proof.
  intros Hf. apply rg_atomically. intros w1 Hw. split; [done|]. apply (focus_plain _ _ _ _ w w1) in Hf; [|done].
  rewrite disk_ok. cbn [fst snd]. split; [done|].
  assert (Hstep : focus K row cs es (stepped w1)) by by apply (focus_plain_step _ _ _ _ w1); [apply step_same|].
  destruct Hstep as [Hl [Hi1 Hi2 Hi3] Ho Hr Hc Hk He]. split; try done.
  - eapply ledger_ok_same; [|exact Hl]. done.
  - intros h Hne. specialize (Ho h Hne). unfold hash_ok in *. simpl in *. by rewrite lookup_alter_ne.
  - simpl. rewrite lookup_alter_eq. simpl in Hr. by rewrite Hr.
  - intros h r HK Hne. simpl. rewrite lookup_alter_ne by done. by apply Hk.
Qed.

Lemma focus_update st c fwd K row cs es w :
  focus K row cs es w →
  hrg (held_update hash st c fwd) w (λ r w', r = Ok tt ∧ focus K (updated st c fwd row) cs es w').
Proof.
  intros Hf. unfold held_update. apply lrg_bind. eapply rg_mono; [|by eapply focus_set].
  intros r w1 [-> Hf1]. apply lrg_bind.
  eapply (rg_mono _ _ _ _ (λ r w', r = Ok tt ∧ focus K (updated st c None row) cs es w')).
  2:{ destruct c; [|done]. eapply rg_mono; [|by eapply focus_set]. by intros r w2 [-> Hf2]. }
  intros r w2 [-> Hf2]. destruct fwd; [|done]. eapply rg_mono; [|by eapply focus_set]. by intros r w3 [-> Hf3].
Qed.

(** Crediting it. *)
Lemma focus_credit n a K row cs es w :
  0 ≤ a → focus K row cs es w →
  hrg (db_tx (λ now, credit now n hash a)) w (λ r w', ∃ b es', r = Ok b ∧ focus K row cs es' w' ∧
    ∀ db, es' `prefix_of` entries db → credited db n hash).
Proof.
  intros Ha Hf. apply rg_atomically. intros w1 Hw. split; [done|]. apply (focus_plain _ _ _ _ w w1) in Hf; [|done].
  rewrite disk_ok. set (t := now_secs (lw_asked w1)).
  destruct (credit_Ok t n hash a (lw_db w1) (fc_ledger _ _ _ _ _ Hf) Ha) as [Hy Hn].
  destruct (decide (credited (lw_db w1) n hash)) as [Hc|Hc].
  - rewrite (Hy Hc). cbn [fst snd]. exists false, (entries (lw_db w1)). split_and!; [done| |].
    + destruct Hf as [? ? ? ? ? ? ?]. eapply (focus_plain_step _ _ _ _ w1); [by apply step_same|]. by split.
    + intros db He. by eapply credited_grows.
  - destruct (Hn Hc) as (d & Hd & Hok & Heq). rewrite Hd. cbn [fst snd]. exists true, (entries d). split_and!; [done| |].
    + assert (Hs : plain_step w1 (with_db (stepped w1) d)).
      { split; [done| |by left]. right. exists (OpCredit t n hash a). split; [by split|]. simpl. by rewrite Hd. }
      apply (focus_plain_step _ _ _ _ _ _ Hs) in Hf. destruct Hf as [? ? ? ? ? ? ?]. by split.
    + intros db He. eapply credited_grows; [exact He|]. rewrite Heq. apply credited_key. simpl. rewrite omap_app. set_solver.
Qed.

(** ** What the main thread does with it *)

(** A snapshot of a row. *)
Lemma held_row_eq row h cs db :
  row_ok res db hash (Some row) cs → held_row parse_node hash row = Ok h →
  hl_payment_hash h = hash ∧ hl_node h = hd_node row ∧ hl_preimage h = b32 (hd_preimage row) ∧
  hl_claimable_msat h = waiting_msat row ∧ hl_state h = hd_state row.
Proof.
  intros (Hl & Hp & _) (n & Hn%ok_or_Ok & [= <-])%bind_Ok. rewrite Hp in Hn. injection Hn as <-. simpl.
  split_and!; [|done..]. unfold b32, hash32. by rewrite Hl.
Qed.

Definition kept (w w' : LspWorld) : Prop :=
  ∀ h r, h ≠ hash → held (lw_db w) !! h = Some r → held (lw_db w') !! h = Some r.

Lemma focus_end w0 row cs es w :
  focus (λ h r, held (lw_db w0) !! h = Some r) row cs es w → row_ok res (lw_db w) hash (Some row) cs →
  held_inv res w ∧ kept w0 w.
Proof. intros Hf Hr. split; [by eapply focus_close|]. intros h r Hne Hh. by apply (fc_kept _ _ _ _ _ Hf). Qed.

(** The calls for a payment that waits: all of them were started and failed. *)
Definition waits (db : Db) (row : HeldRow) (cs : list NodeCall) : Prop :=
  row_ok res db hash (Some row) cs ∧ hd_state row = "claimable" ∧ hd_forward_id row = None.

Lemma waits_calls db row cs :
  waits db row cs → (∀ a n i, CForward hash a n i ∈ cs → (i, false) ∈ res) ∧ (∀ a p, CClaim hash a p ∉ cs) ∧ CFail hash ∉ cs.
Proof.
  intros ((_ & _ & _ & Hr) & Hs & Hf). rewrite Hf in Hr. destruct Hr as (_ & _ & Hfw & Hcl & Hfa). split_and!; [done|..].
  - intros a p Hin. destruct (Hcl a p Hin). congruence.
  - intros Hin. specialize (Hfa Hin). congruence.
Qed.

(** Its row after each outcome. *)
Lemma row_credited db db' row cs a :
  waits db row cs → waiting_msat row = Some a → credited db' (hd_node row) hash →
  row_ok res db' hash (Some (updated "credited" None None row)) (CClaim hash a (b32 (hd_preimage row)) :: cs).
Proof.
  intros Hw Ha Hc. pose proof (waits_calls _ _ _ Hw) as (Hfw & _ & Hfa). destruct Hw as ((Hl & Hp & Hfit & _) & _ & Hf).
  simpl. rewrite Hf. split_and!; [done|done|by constructor|set_solver|done|..].
  - intros b n i [E1|Hin]%elem_of_cons; [done|by eapply Hfw].
  - intros b p _. done.
  - intros [E1|Hin]%elem_of_cons; done.
Qed.

Lemma row_failed db db' row cs cs' :
  waits db row cs → cs' = cs ∨ cs' = CFail hash :: cs → row_ok res db' hash (Some (updated "failed" None None row)) cs'.
Proof.
  intros Hw Hcs. pose proof (waits_calls _ _ _ Hw) as (Hfw & Hcl & _). destruct Hw as ((Hl & Hp & Hfit & _) & _ & Hf).
  assert (Hin : ∀ c, c ∈ cs' → c = CFail hash ∨ c ∈ cs).
  { intros c Hc. destruct Hcs as [-> | ->]; [by right|]. by apply elem_of_cons in Hc as [->|]; [left|right]. }
  simpl. rewrite Hf. split_and!; [done|done|by destruct Hcs as [-> | ->]; [|constructor]|set_solver|done|..].
  - intros b n i [?|?]%Hin; [done|by eapply Hfw].
  - intros b p [?|Hx]%Hin; [done|by apply Hcl in Hx].
  - done.
Qed.

Lemma row_forwarding db db' row cs a i :
  waits db row cs → waiting_msat row = Some a → (i, false) ∉ res →
  row_ok res db' hash (Some (updated "forwarding" None (Some (Some i)) row)) (CForward hash a (hd_node row) i :: cs).
Proof.
  intros Hw Ha Hi. pose proof (waits_calls _ _ _ Hw) as (Hfw & Hcl & Hfa). destruct Hw as ((Hl & Hp & Hfit & _) & _ & Hf).
  simpl. split_and!; [done|done|by constructor|by left|done|..].
  - exists a, (hd_node row). by apply elem_of_cons; left.
  - intros b n j [[= -> -> ->]|Hin]%elem_of_cons; [by left|right; by eapply Hfw].
  - intros b p [?|Hin]%elem_of_cons; [done|by apply Hcl in Hin].
  - intros [?|Hin]%elem_of_cons; done.
Qed.

(** What waits for one owes nothing to the ledger. *)
Lemma waits_db db db' row cs : waits db row cs → waits db' row cs.
Proof.
  intros Hw. pose proof (waits_calls _ _ _ Hw) as (_ & Hcl & _). destruct Hw as ((Hl & Hp & Hfit & Hr) & Hs & Hf).
  split; [|done]. simpl. rewrite Hf in Hr |- *. destruct Hr as (? & ? & ? & _ & ?). split_and!; try done.
  intros a p Hin. by apply Hcl in Hin.
Qed.

(** A payment that waits, and its time is nearly up. *)
Lemma settle_into_ok h row cs es a w0 w :
  waits (lw_db w) row cs → held_row parse_node hash row = Ok h → waiting_msat row = Some a →
  focus (λ h r, held (lw_db w0) !! h = Some r) row cs es w →
  hrg (settle_into_account sv h a) w (λ _ w', held_inv res w' ∧ kept w0 w').
Proof.
  intros Hw Hh Ha Hf. destruct (held_row_eq _ _ _ _ (proj1 Hw) Hh) as (Eh & En & Ep & _ & _).
  assert (Ha0 : 0 ≤ a) by (apply fmap_Some in Ha as (v & _ & ->); lia).
  assert (Hsame : ∀ w', focus (λ h r, held (lw_db w0) !! h = Some r) row cs es w' → held_inv res w' ∧ kept w0 w').
  { intros w' Hf'. eapply focus_end; [exact Hf'|]. by apply (waits_db _ (lw_db w')) in Hw as [? _]. }
  unfold settle_into_account. rewrite Eh, En, Ep. apply lrg_bind.
  eapply rg_mono; [|eapply focus_quiet; [apply lsp_reads|exact Hf]]. intros [total|e|] w1 [_ Hf1]; [|by apply Hsame..].
  cbv zeta. destruct (_ && _).
  - apply lrg_bind. eapply rg_mono; [|by eapply focus_call; [..|exact Hf1]]. intros [[e|u]|e|] w2 Hf2; [by apply Hsame| |done..].
    destruct Hf2 as [Hf2 _]. apply lrg_bind. eapply rg_mono; [|by eapply focus_credit; [|exact Hf2]].
    intros r w3 (b & es' & -> & Hf3 & Hc). eapply rg_mono; [|eapply focus_update, Hf3]. intros r' w4 [_ Hf4].
    eapply focus_end; [exact Hf4|]. eapply row_credited; [exact Hw|done|]. apply Hc, Hf4.
  - apply lrg_bind. eapply rg_mono; [|by eapply focus_call; [..|exact Hf1]]. intros [x|e|] w2 Hf2; [|done..].
    assert (∃ cs', (cs' = cs ∨ cs' = CFail hash :: cs) ∧ focus (λ h r, held (lw_db w0) !! h = Some r) row cs' es w2)
      as (cs' & Hcs & Hf2') by (destruct x; [by exists cs; auto|destruct Hf2; by eexists; split; [right|]]).
    eapply rg_mono; [|eapply focus_update, Hf2']. intros r' w4 [_ Hf4]. eapply focus_end; [exact Hf4|]. by eapply row_failed.
Qed.

(** Looking at a held payment. *)
Lemma deliver_ok h row w :
  held_inv res w → held (lw_db w) !! hash = Some row → held_row parse_node hash row = Ok h →
  hrg (deliver sv h) w (λ _ w', held_inv res w' ∧ kept w w').
Proof.
  intros Hi Hrow Hh. destruct (focus_open _ _ Hi Hrow) as [Hf Hr].
  destruct (held_row_eq _ _ _ _ Hr Hh) as (Eh & En & Ep & Ec & Es).
  assert (Hsame : ∀ w', focus (λ h r, held (lw_db w) !! h = Some r) row (calls_of hash w) (entries (lw_db w)) w' →
    held_inv res w' ∧ kept w w').
  { intros w' Hf'. eapply focus_end; [exact Hf'|]. eapply row_ok_entries; [apply Hf'|exact Hr]. }
  unfold deliver. rewrite Ec, Es, En, Eh. destruct (waiting_msat row) as [a|] eqn:Ea; [|by apply Hsame].
  apply lrg_bind. eapply rg_mono; [|eapply focus_quiet; [apply lsp_asks|exact Hf]].
  intros [height|e|] w1 [_ Hf1]; [|by apply Hsame..]. cbv zeta.
  destruct (String.eqb_spec (hd_state row) "claimable") as [Hst|Hst]; [|by apply Hsame].
  assert (Hw : waits (lw_db w) row (calls_of hash w)).
  { split; [done|]. split; [done|]. destruct Hr as (_ & _ & _ & Hr). destruct (hd_forward_id row); [|done].
    rewrite Hst in Hr. by destruct Hr as ([?|[? _]] & _). }
  cbn [andb negb]. destruct (_ <=? _).
  { by eapply settle_into_ok; [eapply waits_db, Hw|..]. }
  apply lrg_bind. eapply rg_mono; [|eapply focus_quiet; [apply lsp_asks|exact Hf1]].
  intros [peers|e|] w2 [_ Hf2]; [|by apply Hsame..].
  apply lrg_bind. eapply rg_mono; [|eapply focus_quiet; [apply lsp_asks|exact Hf2]].
  intros [channels|e|] w3 [_ Hf3]; [|by apply Hsame..].
  destruct (_ && _ && _).
  - apply lrg_bind. eapply rg_mono; [|eapply focus_call; [done| |exact Hf3]].
    + intros [[e|i]|e|] w4 Hf4; [by apply Hsame| |done..]. destruct Hf4 as [Hf4 Hnew].
      eapply rg_mono; [|eapply focus_update, Hf4]. intros r w5 [_ Hf5]. eapply focus_end; [exact Hf5|].
      eapply row_forwarding; [exact Hw|done|by eapply Hnew].
    + intros k x h' a' n' i' Ef [= _ _ _ <-]. by do 2 eexists.
  - destruct (negb _); [|by apply Hsame].
    eapply rg_mono; [|eapply (focus_quiet _ (λ _, True)); [|exact Hf3]]; [by intros r w4 [_ ?]; apply Hsame|].
    apply lal_then; [by apply lsp_memory|]. intros first. destruct first; [|by apply lal_ret].
    eapply lal_weaken; [apply node_plain|apply lsp_send_to].
Qed.
End focus.

(** ** Jobs of the main thread *)
Section jobs.
Context `{BitcoinLib} `{LspSystem} `{LspLib} `{AccountNode} `{LdkNode} `{!SerLaws} (sv : AccountService).
Hypothesis disk_ok : ∀ k, disk k = None.
Hypothesis ids_fresh : ∀ k k' a a' n n' i, spontaneous_send k a n = inr i → spontaneous_send k' a' n' = inr i → k = k'.

Abbreviation Results := (list (bytes * bool)).
Abbreviation hrg m w Q := (rg plain_steps (λ _ _, True) m w Q).

Lemma stepped_plain w : plain_step w (stepped w).
Proof. by apply step_same. Qed.

Lemma hrg_read {A} (f : Db → LResult A) w Q :
  (∀ w1, plain_steps w w1 → Q (f (lw_db w1)) (stepped w1)) → hrg (db_read f) w Q.
Proof.
  intros HQ. apply rg_atomically. intros w1 Hw. split; [done|]. specialize (HQ w1 Hw). rewrite disk_ok.
  by destruct (f (lw_db w1)).
Qed.

(** A job that leaves held payments alone. *)
Lemma hrg_quiet {A} (m : Lsp A) P res w :
  lal plain_step m P → held_inv res w → hrg m w (λ r w', okq P r ∧ held_inv res w').
Proof.
  intros Hm Hi. eapply rg_weaken; [|eapply always_keeps; [| |exact Hm|exact Hi]]; [done|..].
  - intros. by eapply plain_inv.
  - intros w1 w2 Hs. apply plain_inv. by apply rtc_once.
Qed.

Lemma inv_stepped res w w1 : plain_steps w w1 → held_inv res w → held_inv res (stepped w1).
Proof. intros Hs. apply plain_inv. eapply rtc_r; [exact Hs|apply stepped_plain]. Qed.

(** Rows always read back. *)
Lemma row_reads res w hash row :
  held_inv res w → held (lw_db w) !! hash = Some row → ∃ h, held_row parse_node hash row = Ok h ∧ hl_state h = hd_state row.
Proof.
  intros [_ _ Hh] Hr. specialize (Hh hash). unfold hash_ok in Hh. rewrite Hr in Hh. destruct Hh as (_ & Hp & _).
  unfold held_row. rewrite Hp. by eexists.
Qed.

Lemma row_claimable res db hash row cs a d :
  row_ok res db hash (Some row) cs → hd_state row = "open" →
  row_ok res db hash (Some (updated "claimable" (Some (a, d)) None row)) cs.
Proof.
  intros (Hl & Hp & _ & Hr) Hs. simpl. destruct (hd_forward_id row); [rewrite Hs in Hr; by destruct Hr as ([?|[? _]] & _)|].
  destruct Hr as (_ & Ho & _). rewrite (Ho Hs). split_and!; [done|done|constructor|set_solver|done|..].
  - intros ? ? ? []%elem_of_nil.
  - intros ? ? []%elem_of_nil.
  - intros []%elem_of_nil.
Qed.

Lemma on_claimable_ok res hash a d w :
  held_inv res w → hrg (on_claimable sv hash a d) w (λ _ w', held_inv res w').
Proof.
  intros Hi. unfold on_claimable. apply lrg_bind, hrg_read. intros w1 Hw1. pose proof (inv_stepped _ _ _ Hw1 Hi) as Hi1.
  unfold held_get. destruct (held (lw_db w1) !! hash) as [row|] eqn:Hrow; [|done].
  destruct (row_reads _ _ _ _ Hi1 Hrow) as (h & Hh & Es). rewrite Hh. cbn [fmap result_fmap]. rewrite Es.
  apply lrg_bind. destruct (String.eqb_spec (hd_state row) "open") as [Hst|]; [|done].
  destruct (focus_open _ _ _ _ Hi1 Hrow) as [Hf Hr]. apply lrg_bind.
  eapply rg_mono; [|eapply focus_update, Hf; done]. intros r w2 [-> Hf2].
  assert (Hi2 : held_inv res w2).
  { eapply focus_close; [exact Hf2|]. apply row_claimable; [|done]. eapply row_ok_entries; [apply Hf2|exact Hr]. }
  apply lrg_bind, hrg_read. intros w3 Hw3. apply (focus_plain _ _ _ _ _ _ _ w3) in Hf2; [|done..].
  pose proof (inv_stepped _ _ _ Hw3 Hi2) as Hi3. unfold held_get. rewrite (fc_row _ _ _ _ _ _ _ Hf2).
  destruct (row_reads _ _ _ _ Hi3 (fc_row _ _ _ _ _ _ _ Hf2)) as (h' & Hh' & _). rewrite Hh'.
  eapply rg_mono; [|eapply deliver_ok; [done..|exact Hi3|apply Hf2|exact Hh']]. intros [|?|] w' [? _]; done.
Qed.

(** Every one of them, one after the other. *)
Lemma for_each_ok res l rows w :
  held_inv res w → NoDup (map fst rows) → (∀ hash row, (hash, row) ∈ rows → held (lw_db w) !! hash = Some row) →
  Forall2 (λ x h, held_row parse_node (fst x) (snd x) = Ok h) rows l →
  hrg (for_each (deliver sv) l) w (λ _ w', held_inv res w').
Proof.
  intros Hi Hnd Hin Hall. revert w Hi Hnd Hin. induction Hall as [|[hash row] h rows l Hh _ IH]; intros w Hi Hnd Hin; [done|].
  cbn [for_each]. apply NoDup_cons in Hnd as [Hno Hnd]. apply lrg_bind, lrg_attempt.
  eapply rg_mono; [|eapply (deliver_ok sv disk_ok ids_fresh res hash); [exact Hi|apply Hin, elem_of_cons; by left|exact Hh]].
  intros r w' [Hi' Hk]. assert (Hrest : hrg (for_each (deliver sv) l) w' (λ _ w', held_inv res w')).
  { apply IH; [done|done|]. intros hash' row' Hx. apply Hk; [|apply Hin, elem_of_cons; by right].
    intros ->. apply Hno. apply list_elem_of_fmap. by exists (hash, row'). }
  by destruct r.
Qed.

Lemma held_tick_ok res w : held_inv res w → hrg (tick sv) w (λ _ w', held_inv res w').
Proof.
  intros Hi. unfold tick. apply lrg_bind, lrg_attempt, hrg_read. intros w1 Hw1.
  pose proof (inv_stepped _ _ _ Hw1 Hi) as Hi1. destruct (held_claimable _ _) as [l|e|] eqn:El; [|done..].
  unfold held_claimable in El. apply collect_Ok in El.
  set (rows := filter _ (map_to_list (held (lw_db w1)))) in El. apply (for_each_ok _ _ rows); [done|..].
  - eapply sublist_NoDup; [apply (NoDup_fst_map_to_list (held (lw_db w1)))|]. apply fmap_sublist, sublist_filter.
  - intros hash row [_ Hin]%list_elem_of_filter. by apply elem_of_map_to_list in Hin.
  - eapply Forall2_impl; [exact El|]. by intros [hash row] h.
Qed.

(** What a report about payment [i] changes for a row that does not hang on it. *)
Lemma row_ok_report res db hash row cs i ok :
  row_ok res db hash row cs → (∀ r, row = Some r → hd_forward_id r = Some i → ok = true) →
  row_ok ((i, ok) :: res) db hash row cs.
Proof.
  unfold row_ok. destruct row as [r|]; [|done]. intros (Hl & Hp & Hfit & Hr) Hi. split_and!; [done..|].
  specialize (Hi r eq_refl). destruct (hd_forward_id r) as [j|] eqn:Ej.
  - destruct Hr as (Hs & Hn & He & Ho & Hc & Hf). split_and!; [|..|done].
    + destruct Hs as [?|[? ?]]; [by left|right; split; [done|by right]].
    + intros [[= -> <-]|?]%elem_of_cons; [|done]. by specialize (Hi eq_refl).
    + done.
    + intros a n x Hx. destruct (Ho a n x Hx); [by left|right; by right].
    + intros a p Hx. right. by eapply Hc.
  - destruct Hr as (Hs & Ho & Hfw & Hc & Hf). split_and!; try done. intros a n x Hx. right. by eapply Hfw.
Qed.

Definition reportable (i : bytes) (w : LspWorld) : Prop := ∀ k b m, (lw_asked w ≤ k)%nat → spontaneous_send k b m ≠ inr i.

Lemma ids_report res w i ok : reportable i w → ids_ok res w → ids_ok ((i, ok) :: res) w.
Proof.
  intros Hi [? ? Hr]. split; [done..|]. intros j b k x m [[= -> _]|Hin]%elem_of_cons Hk; [by apply Hi|by eapply Hr].
Qed.

(** The row a report is about, if there is one. *)
Lemma report_inv res w i ok :
  held_inv res w → reportable i w → (∀ h r, held (lw_db w) !! h = Some r → hd_forward_id r = Some i → ok = true) →
  held_inv ((i, ok) :: res) w.
Proof.
  intros [Hl Hi Hh] Hrep Hno. split; [done|by apply ids_report|]. intros hash. apply row_ok_report; [apply Hh|].
  intros r Hr. by apply (Hno hash).
Qed.

Lemma report_focus res w i ok hash row :
  held_inv res w → reportable i w → held (lw_db w) !! hash = Some row → hd_forward_id row = Some i →
  focus ((i, ok) :: res) hash (λ h r, held (lw_db w) !! h = Some r) row (calls_of hash w) (entries (lw_db w)) w ∧
  row_ok res (lw_db w) hash (Some row) (calls_of hash w).
Proof.
  intros Hinv Hrep Hrow Hf. destruct (focus_open _ _ _ _ Hinv Hrow) as [[Hl Hi Ho Hr Hc Hk He] Hrow_ok]. split; [|done].
  split; try done; [by apply ids_report|]. intros h Hne. apply row_ok_report; [by apply Ho|].
  intros r Hr' Hfr. exfalso. apply Hne. destruct Hrow_ok as (_ & _ & _ & Hx). rewrite Hf in Hx.
  destruct Hx as (_ & _ & (a & n & Hin%elem_of_calls) & _).
  specialize (Ho h Hne). unfold hash_ok in Ho. rewrite Hr' in Ho. destruct Ho as (_ & _ & _ & Hy). rewrite Hfr in Hy.
  destruct Hy as (_ & _ & (a' & n' & Hin'%elem_of_calls) & _). eapply (io_once _ _ Hi); [apply Hin'|apply Hin].
Qed.

(** After the result of the payment under way. *)
Lemma row_retry res db hash row cs i :
  row_ok res db hash (Some row) cs → hd_forward_id row = Some i → (i, true) ∉ res →
  row_ok ((i, false) :: res) db hash (Some (updated "claimable" None (Some None) row)) cs.
Proof.
  intros (Hl & Hp & Hfit & Hr) Hf Hno. rewrite Hf in Hr. destruct Hr as (_ & _ & (x & y & Hin) & Ho & Hc & Hfa). simpl.
  split_and!; [done..|set_solver| | | |].
  - done.
  - intros a n j Hx. destruct (Ho a n j Hx) as [->|?]; [by left|by right].
  - intros a p Hx. by apply Hc in Hx.
  - done.
Qed.

Lemma row_done res db hash row cs i :
  row_ok res db hash (Some row) cs → hd_forward_id row = Some i →
  row_ok ((i, true) :: res) db hash (Some (updated "done" None None row)) cs ∧
  ∃ a, waiting_msat row = Some a ∧
    row_ok ((i, true) :: res) db hash (Some (updated "done" None None row)) (CClaim hash a (b32 (hd_preimage row)) :: cs).
Proof.
  intros Hr Hf. apply (row_ok_report _ _ _ _ _ i true) in Hr as (Hl & Hp & Hfit & Hr); [|done]. rewrite Hf in Hr.
  destruct Hr as (Hs & Hn & (x & y & Hin) & Ho & Hc & Hfa).
  assert (Hw : waiting_msat row = Some x) by apply (proj1 (Forall_forall _ _) Hfit _ Hin).
  simpl. rewrite Hf. split; [split_and!; try done; [right; split; [done|by left]|by do 2 eexists]|].
  exists x. split; [done|]. split_and!; [done|done|by constructor|right; split; [done|by left]|done|..].
  - exists x, y. by right.
  - intros a n j [?|Hx]%elem_of_cons; [done|by eapply Ho].
  - intros a p _. by left.
  - intros [?|?]%elem_of_cons; done.
Qed.

Lemma reportable_later i w w' : plain_steps w w' → reportable i w → reportable i (stepped w').
Proof.
  intros Hs Hr k b m Hk. apply Hr. simpl in Hk. clear Hr.
  induction Hs as [|w w1 w' [Ha _ _] _ IH]; [lia|]. specialize (IH Hk). lia.
Qed.

Lemma by_forward_spec i db :
  match list_find (λ x, hd_forward_id (snd x) = Some i) (map_to_list (held db)) with
  | Some (_, (hash, row)) => held db !! hash = Some row ∧ hd_forward_id row = Some i
  | None => ∀ h r, held db !! h = Some r → hd_forward_id r ≠ Some i
  end.
Proof.
  destruct (list_find _ _) as [[k [hash row]]|] eqn:E.
  - apply list_find_Some in E as (Hk & Hf & _). split; [|done]. apply elem_of_map_to_list. by eapply list_elem_of_lookup_2.
  - apply list_find_None in E. intros h r Hr. rewrite Forall_forall in E. apply (E (h, r)). by apply elem_of_map_to_list.
Qed.

Lemma on_forward_result_ok res i ok w :
  held_inv res w → reportable i w → (i, negb ok) ∉ res →
  hrg (on_forward_result i ok) w (λ _ w', held_inv ((i, ok) :: res) w').
Proof.
  intros Hi Hrep Hno. unfold on_forward_result. apply lrg_bind, hrg_read. intros w1 Hw1.
  pose proof (inv_stepped _ _ _ Hw1 Hi) as Hi1. pose proof (reportable_later _ _ _ Hw1 Hrep) as Hrep1.
  unfold held_by_forward. pose proof (by_forward_spec i (lw_db w1)) as Hb.
  destruct (list_find _ _) as [[k [hash row]]|]; [destruct Hb as [Hrow Hf]|].
  2:{ simpl. apply report_inv; [done|done|]. intros h r Hr Hfr. by apply Hb in Hr. }
  destruct (row_reads _ _ _ _ Hi1 Hrow) as (h & Hh & _). rewrite Hh. cbn [fmap result_fmap].
  destruct (report_focus res _ i ok hash row Hi1 Hrep1 Hrow Hf) as [Hfoc Hr].
  destruct (held_row_eq _ _ _ _ _ _ Hr Hh) as (Eh & _ & Ep & Ec & _). rewrite Eh, Ep, Ec. destruct ok; cbn [negb].
  - destruct (row_done _ _ _ _ _ _ Hr Hf) as (_ & a & Ha & _). rewrite Ha. cbn [default from_option].
    apply lrg_bind. eapply rg_mono; [|by eapply focus_call; [..|exact Hfoc]]. intros [[e|u]|e|] w2 Hf2; [| |done..].
    + eapply focus_close; [exact Hf2|]. apply row_ok_report; [|done]. eapply row_ok_entries; [apply Hf2|exact Hr].
    + destruct Hf2 as [Hf2 _]. eapply rg_mono; [|by eapply focus_update; [|exact Hf2]]. intros r w3 [_ Hf3].
      eapply focus_close; [exact Hf3|]. eapply row_ok_entries in Hr; [|apply Hf3].
      destruct (row_done _ _ _ _ _ _ Hr Hf) as (_ & a' & Ha' & Hok). by simplify_eq.
  - eapply rg_mono; [|by eapply focus_update; [|exact Hfoc]]. intros r w3 [_ Hf3]. eapply focus_close; [exact Hf3|].
    apply row_retry; [|done|done]. eapply row_ok_entries; [apply Hf3|exact Hr].
Qed.

(** The result an event reports. *)
Definition result_of (e : Event) : option (bytes * bool) :=
  match e with
  | PaymentSuccessful (Some i) _ _ => Some (i, true)
  | PaymentFailed (Some i) _ => Some (i, false)
  | _ => None
  end.

Definition after (e : Event) (res : Results) : Results := match result_of e with Some x => x :: res | None => res end.

(** The node reports on payments already started, and not both ways. *)
Definition credible (res : Results) (w : LspWorld) (e : Event) : Prop :=
  match result_of e with Some (i, ok) => reportable i w ∧ (i, negb ok) ∉ res | None => True end.

(** Parts of an event that have nothing to do with held payments. *)
Lemma node_quiet {A} (m : Lsp A) res w :
  lal (step_by (node_op False) (node_call False)) m (λ _, True) → held_inv res w → hrg m w (λ _ w', held_inv res w').
Proof.
  intros Hm Hi. eapply rg_mono; [|eapply hrg_quiet; [|exact Hi]]; [by intros r w' [_ ?]|].
  eapply lal_weaken; [apply node_plain|exact Hm].
Qed.

Lemma hrg_then {A B} (m : Lsp A) (f : A → Lsp B) res w :
  hrg m w (λ _ w', held_inv res w') → (∀ a w, held_inv res w → hrg (f a) w (λ _ w', held_inv res w')) →
  hrg (m ≫= f) w (λ _ w', held_inv res w').
Proof. intros Hm Hf. apply lrg_bind. eapply rg_mono; [|exact Hm]. intros [a|e|] w' Hi; [by apply Hf|done..]. Qed.

Lemma account_event_ok res e w :
  event_wf e → credible res w e → held_inv res w → hrg (account_event sv e) w (λ _ w', held_inv (after e res) w').
Proof.
  intros Hwf Hc Hi.
  assert (Hq : ¬ touches_held e → after e res = res → hrg (account_event sv e) w (λ _ w', held_inv (after e res) w')).
  { intros Ht ->. apply node_quiet; [|done]. by apply lsp_account_event. }
  destruct e as [| |hash a d|[i|] hash fee|[i|] hash| | | |]; try (by apply Hq; auto); unfold account_event; cbn [if_some].
  - apply hrg_then; [by apply on_claimable_ok|done].
  - destruct Hc as [Hr Hno]. apply hrg_then; [apply hrg_then|].
    + by apply on_forward_result_ok.
    + intros _ w' Hi'. apply node_quiet; [apply lsp_delivery_result|done].
    + intros _ w1 Hi1. apply hrg_then.
      * apply node_quiet; [|done]. apply lsp_resolved. intros f [= <-]. destruct fee; simpl; [by apply Hwf|lia].
      * intros _ w2 Hi2. apply node_quiet; [|done]. by apply lsp_conversion_result.
  - destruct Hc as [Hr Hno]. apply hrg_then; [apply hrg_then|].
    + by apply on_forward_result_ok.
    + intros _ w' Hi'. apply node_quiet; [apply lsp_delivery_result|done].
    + intros _ w1 Hi1. apply hrg_then.
      * apply node_quiet; [|done]. apply lsp_if_some. intros h. by apply lsp_resolved.
      * intros _ w2 Hi2. apply node_quiet; [|done]. by apply lsp_conversion_result.
Qed.

Lemma handle_one_ok fees res e w :
  event_wf e → credible res w e → held_inv res w → hrg (handle_one sv fees e) w (λ _ w', held_inv (after e res) w').
Proof.
  intros Hwf Hc Hi. unfold handle_one. apply lrg_bind, lrg_attempt. eapply rg_mono; [|by apply account_event_ok].
  assert (Hf : ∀ w', held_inv (after e res) w' →
    hrg (_ ← enforce_forwarding_fees fees; mret true) w' (λ _ w', held_inv (after e res) w')).
  { intros w' Hi'. apply hrg_then; [|done]. apply node_quiet; [apply lsp_fees|done]. }
  intros [x|x|] w' Hi'; [|done..]. destruct e; first [by apply Hf|done].
Qed.

Lemma routine_ok fees min targets q res w :
  routine_job sv fees min targets q → held_inv res w → hrg q w (λ _ w', held_inv res w').
Proof.
  intros Hq Hi. destruct Hq; [| | |by apply held_tick_ok|..]; (apply node_quiet; [|done]).
  - apply lsp_import.
  - apply lal_then; [apply lsp_fees|]. intros. by apply lal_ret.
  - apply lsp_outbound.
  - apply lsp_deliver_balances.
  - apply lsp_run_conversions.
Qed.
End jobs.

(** ** Runs *)
Section paid.
Context `{BitcoinLib} `{LspSystem} `{LspLib} `{AccountNode} `{LdkNode} `{!SerLaws} (sv : AccountService).
Context (fees : Z * Z) (channel_min : Z) (targets : list Outbound).

(** The main thread's jobs one after the other, requests served at any time;
    the results reported so far. *)
Inductive held_run : list (bytes * bool) → LspWorld → Prop :=
| run_start : held_run [] (lsp_start empty_db)
| run_wait res w w' : held_run res w → metrics_steps w w' → held_run res w'
| run_routine res w q r w' :
    held_run res w → routine_job sv fees channel_min targets q → exec metrics_steps q w r w' → held_run res w'
| run_event res w e r w' :
    held_run res w → event_wf e → credible res w e → exec metrics_steps (handle_one sv fees e) w r w' →
    held_run (after e res) w'.

Hypothesis parse_canon : ∀ s n, parse_node s = Some n → parse_node n = Some n.
Hypothesis disk_ok : ∀ k, disk k = None.
Hypothesis ids_fresh : ∀ k k' a a' n n' i, spontaneous_send k a n = inr i → spontaneous_send k' a' n' = inr i → k = k'.

Lemma metrics_are_plain w w' : metrics_steps w w' → plain_steps w w'.
Proof. apply rtc_subrel. intros. by apply metrics_plain. Qed.

Lemma exec_inv {A} (m : Lsp A) res r w w' :
  rg plain_steps (λ _ _, True) m w (λ _ w', held_inv res w') → exec metrics_steps m w r w' → held_inv res w'.
Proof.
  intros Hm. apply (exec_rg metrics_steps (λ _ _, True) m w (λ _ w', held_inv res w')).
  - intros _ w1 w2 Hs. apply plain_inv. by apply metrics_are_plain.
  - eapply rg_rely; [apply metrics_are_plain|exact Hm].
Qed.

Lemma held_run_inv res w : held_run res w → held_inv res w.
Proof.
  induction 1 as [|res w w' _ IH Hs|res w q r w' _ IH Hq Hx|res w e r w' _ IH Hwf Hc Hx].
  - split; [apply ledger_ok_empty| |done]. split; simpl; [intros ? ? ? ? []%elem_of_nil|intros ? ? ? ? ? ? ? []%elem_of_nil|].
    intros ? ? ? ? ? []%elem_of_nil.
  - eapply plain_inv; [by apply metrics_are_plain|done].
  - eapply exec_inv; [|exact Hx]. by eapply routine_ok.
  - eapply exec_inv; [|exact Hx]. by apply handle_one_ok.
Qed.

(** C26. A payment held for a phone is paid out once.  As long as no write of
    the ledger fails and the process is not stopped in the middle, of the
    deliveries started for it all but one have been reported failed.  The
    payer's payment is claimed only for the amount that waited, and only when
    the owner's account was credited with every delivery failed, or when a
    delivery of that amount to the owner was reported successful.  If it was
    returned to the payer, it was neither claimed nor is a delivery under way. *)
Theorem held_paid_once res w hash :
  held_run res w →
  (∀ a n i a' n' j, CForward hash a n i ∈ lw_calls w → CForward hash a' n' j ∈ lw_calls w →
     (i, false) ∉ res → (j, false) ∉ res → i = j) ∧
  (∀ a p, CClaim hash a p ∈ lw_calls w → ∃ row, held (lw_db w) !! hash = Some row ∧ waiting_msat row = Some a ∧
     (credited (lw_db w) (hd_node row) hash ∧ (∀ b n i, CForward hash b n i ∈ lw_calls w → (i, false) ∈ res) ∨
      ∃ i, CForward hash a (hd_node row) i ∈ lw_calls w ∧ (i, true) ∈ res)) ∧
  (CFail hash ∈ lw_calls w → (∀ a p, CClaim hash a p ∉ lw_calls w) ∧
     ∀ b n i, CForward hash b n i ∈ lw_calls w → (i, false) ∈ res).
Proof.
  intros Hrun%held_run_inv. pose proof (hi_hash _ _ Hrun hash) as Hh. unfold hash_ok in Hh.
  assert (Hfw : ∀ a n i, CForward hash a n i ∈ lw_calls w → CForward hash a n i ∈ calls_of hash w)
    by (intros; by apply elem_of_calls).
  assert (Hcl : ∀ a p, CClaim hash a p ∈ lw_calls w → CClaim hash a p ∈ calls_of hash w)
    by (intros; by apply elem_of_calls).
  assert (Hfa : CFail hash ∈ lw_calls w → CFail hash ∈ calls_of hash w) by (intros; by apply elem_of_calls).
  destruct (held (lw_db w) !! hash) as [row|].
  2:{ simpl in Hh. rewrite Hh in Hfw, Hcl, Hfa. split_and!.
      - by intros a n i a' n' j []%Hfw%elem_of_nil.
      - by intros a p []%Hcl%elem_of_nil.
      - by intros []%Hfa%elem_of_nil. }
  destruct Hh as (_ & _ & Hfit & Hr). rewrite Forall_forall in Hfit. destruct (hd_forward_id row) as [x|].
  - destruct Hr as (_ & Hx & (b & m & Hin) & Ho & Hc & Hno). split_and!.
    + intros a n i a' n' j Hi%Hfw Hj%Hfw Hni Hnj.
      destruct (Ho _ _ _ Hi) as [->|?]; [|done]. by destruct (Ho _ _ _ Hj) as [->|?].
    + intros a p Ha%Hcl. exists row. destruct (Hfit _ Ha) as [_ Hw]. split_and!; [done|done|right]. exists x.
      destruct (Hfit _ Hin) as [-> Hw']. rewrite Hw in Hw'. injection Hw' as ->.
      apply elem_of_calls in Hin as [_ Hin]. split; [done|by eapply Hc].
    + by intros ?%Hfa.
  - destruct Hr as (_ & _ & Hf & Hc & Hfail). split_and!.
    + intros a n i a' n' j Hi%Hfw _ Hni. by destruct Hni; eapply Hf.
    + intros a p Ha%Hcl. exists row. destruct (Hfit _ Ha) as [_ Hw]. split_and!; [done|done|left].
      split; [by eapply Hc|]. intros b n i Hi%Hfw. by eapply Hf.
    + intros Hx%Hfa%Hfail. split; [|intros b n i Hi%Hfw; by eapply Hf].
      intros a p Ha%Hcl. destruct (Hc _ _ Ha). congruence.
Qed.
End paid.
