(* ===== verification/LspCredit.v ===== *)
(** Payments into accounts: what a reported payment adds to the balance of the
    invoice's owner, and what another account's payment to the same hash does
    to it. *)

From S2P Require Import Prelude Json Threads Bitcoin Script Ledger LspRules Lsp LspApi LspNode LspRuns LspSafety.

Section credit.
Context `{BitcoinLib} `{LspSystem} `{LspLib} `{AccountNode} `{LdkNode} (sv : AccountService).
Hypothesis disk_ok : ∀ k, disk k = None.

(** Running alone, one transaction after the other. *)
Lemma run_lbind {A B} (m : Lsp A) (f : A → Lsp B) w :
  run_prog (m ≫= f) w =
  match run_prog m w with (Ok a, w') => run_prog (f a) w' | (Err e, w') => (Err e, w') | (Panic, w') => (Panic, w') end.
Proof. unfold mbind, Lsp_bind. rewrite run_bind. by destruct (run_prog m w) as [[] ]. Qed.

Lemma run_attempt {A} (m : Lsp A) w :
  run_prog (attempt m) w =
  match run_prog m w with (Panic, w') => (Panic, w') | (r, w') => (Ok r, w') end.
Proof. unfold attempt. rewrite run_bind. by destruct (run_prog m w) as [[] ]. Qed.

Lemma run_tx {A} (f : Z → Db → LResult (A * Db)) w :
  run_prog (db_tx f) w = match f (now_secs (lw_asked w)) (lw_db w) with
    | Ok (a, db) => (Ok a, with_db (stepped w) db)
    | Err e => (Err e, stepped w)
    | Panic => (Panic, stepped w)
    end.
Proof. unfold db_tx. rewrite run_atomically, disk_ok. done. Qed.

Lemma run_get {A} (f : Db → A) w : run_prog (db_get f) w = (Ok (f (lw_db w)), stepped w).
Proof.
  unfold db_get. rewrite run_tx. by destruct w.
Qed.

(** The notice changes no balance. *)
Lemma notify_balances node a w :
  ∀ k, bal (lw_db (snd (run_prog (notify_received sv node a) w))) k = bal (lw_db w) k.
Proof.
  intros k. pose (same := λ w w' : LspWorld, accounts (lw_db w') = accounts (lw_db w)).
  assert (Hs : lal same (notify_received sv node a) (λ _, True)).
  { unfold notify_received, received, send_to. apply lal_then; [by intros w1|]. intros _.
    apply lal_then; [by intros w1|]. intros []; [by apply lal_ret|]. case_match; [|by apply lal_ret].
    apply lal_then; [|intros r]; [apply lal_try; intros w1; by destruct (disk (lw_asked w1))|].
    destruct r as [[t|]| |]; try by apply lal_ret. apply lal_then.
    - intros w1. simpl. split; [|done]. by destruct (fcm_send _ _ _ _ _).
    - intros [[]|]; try by apply lal_ret. apply lal_then; [|by intros; apply lal_ret]. apply lal_try. intros w1.
      destruct (disk (lw_asked w1)); (split; [|done]); [done|]. unfold same. simpl. unfold drop_push_token.
      by repeat case_match. }
  pose proof (always_run same _ w _ Hs) as Hr. revert Hr. generalize (snd (run_prog (notify_received sv node a) w)).
  intros w' Hr. unfold bal. enough (accounts (lw_db w') = accounts (lw_db w)) as -> by done.
  clear Hs. induction Hr as [|x y z Hxy _ IH]; [done|]. by rewrite IH, Hxy.
Qed.

Lemma notify_ok node a w : fst (run_prog (notify_received sv node a) w) = Ok tt.
Proof.
  unfold notify_received, received, send_to. rewrite run_lbind, run_atomically. cbv iota beta.
  unfold ask. rewrite run_lbind, run_atomically. cbv iota beta. destruct (is_connected _ _); [done|].
  destruct (sv_fcm sv); [|done]. rewrite run_lbind, run_attempt, run_get. cbv iota beta.
  destruct (push_token _ _); [|done]. unfold call. rewrite run_lbind, run_atomically. cbv iota beta zeta.
  destruct (fcm_send _ _ _ _ _) as [[]|]; [|done..]. rewrite run_lbind, run_attempt. unfold db_set. by rewrite run_tx.
Qed.

(** A payment to an account's invoice: the first report of it adds its amount
    to the balance of the invoice's owner, and to no other; any later one adds
    nothing. *)
Theorem payment_credited hash amount node w :
  ledger_ok (lw_db w) → 0 ≤ amount → invoice_owner parse_node hash (lw_db w) = Some node →
  let r := run_prog (on_payment_received sv hash amount) w in
  fst r = Ok true ∧
  ∀ k, bal (lw_db (snd r)) k =
    bal (lw_db w) k + if decide (k = node ∧ ¬ credited (lw_db w) node hash) then as_i64 amount else 0.
Proof.
  intros Hok Ha Hown. unfold on_payment_received. rewrite run_lbind, run_get, Hown, run_lbind, run_tx. cbn [lw_db stepped].
  destruct (credit_Ok (now_secs (lw_asked (stepped w))) node hash amount (lw_db w) Hok Ha) as [Hy Hn].
  destruct (decide (credited (lw_db w) node hash)) as [Hc|Hc].
  - rewrite (Hy Hc). split; [done|]. intros k. rewrite decide_False by tauto. simpl. lia.
  - destruct (Hn Hc) as (d & Hd & _ & Heq). rewrite Hd. cbn [fst snd]. rewrite run_lbind.
    set (w1 := with_db (stepped (stepped w)) d). pose proof (notify_balances node amount w1) as Hb.
    pose proof (notify_ok node amount w1) as Hr.
    destruct (run_prog (notify_received sv node amount) w1) as [r w2]. cbn [fst snd] in *. subst r. split; [done|].
    intros k. cbn [fst snd]. simpl in Hb. change (run_prog (mret true) w2) with (Ok (E := LedgerError) true, w2). cbn [snd].
    rewrite Hb, Heq, bal_post. destruct (decide (k = node)); [rewrite decide_True by done|rewrite decide_False by tauto]; lia.
Qed.

(** C38. A payment to an account's invoice can be spoilt by anyone with an
    account who knows its hash.  An invoice text of the caller's own making with
    that hash and an amount [a], as small as it likes, is settled inside the
    ledger: [pay] moves [a] to the invoice's owner and answers 200.  When the
    real payment then arrives, of any amount, nothing is added to the owner's
    balance. *)
Theorem credit_used_up from to hash inv a amount p w :
  ledger_ok (lw_db w) → invoice_owner parse_node hash (lw_db w) = Some to → ¬ credited (lw_db w) to hash →
  as_string (vindex "invoice" p) = Some inv → as_u64 (vindex "amount_msat" p) = None →
  invoice_details inv = inr (Some a, hash) → from ≠ to → 0 ≤ a ≤ i64_max → 0 ≤ amount →
  held_of (lw_db w) from ≤ i64_max → a ≤ bal (lw_db w) from - held_of (lw_db w) from →
  let r1 := run_prog (pay from p) w in
  let r2 := run_prog (on_payment_received sv hash amount) (snd r1) in
  (∃ v, fst r1 = Ok (200, v)) ∧ fst r2 = Ok true ∧ bal (lw_db (snd r2)) to = bal (lw_db w) to + a.
Proof.
  intros Hok Hown Hnc Hinv Hamt Hdet Hne Ha Hamount Hheld Hfree.
  assert (Hpay : ∃ v w1, run_prog (pay from p) w = (Ok (200, v), w1) ∧ ledger_ok (lw_db w1) ∧ credited (lw_db w1) to hash ∧
    invoices (lw_db w1) = invoices (lw_db w) ∧ bal (lw_db w1) to = bal (lw_db w) to + a).
  { unfold pay. rewrite Hinv, Hdet, Hamt. cbn [pay_amount]. rewrite run_lbind, run_get, Hown.
    destruct (String.eqb_spec to from); [congruence|]. rewrite run_lbind, run_attempt, run_tx. cbn [lw_db stepped].
    destruct (transfer_Ok (now_secs (lw_asked (stepped w))) from to hash a (lw_db w) Hok ltac:(lia)) as [_ Hn].
    specialize (Hn Hnc). destruct (account_of (lw_db w) from) as [acc|e|] eqn:Hacc; [|exfalso|done].
    2:{ unfold account_of, sql_sum in Hacc. by rewrite (proj2 (Z.leb_le _ _) Hheld) in Hacc. }
    apply account_of_Ok in Hacc as [Hb Hh]; [|done]. destruct (Z.ltb_spec (free_msat acc) a) as [Hlt|_].
    { unfold free_msat, saturating_sub in Hlt. rewrite Hb, Hh in Hlt. lia. }
    destruct Hn as (e1 & e2 & d & Hd & Hok' & _ & _ & Hk & _ & _ & Heq). rewrite Hd. do 2 eexists.
    split; [reflexivity|]. simpl. split_and!; [done| |by rewrite Heq|].
    - rewrite Heq. apply credited_key. simpl. rewrite !omap_app. simpl. rewrite Hk. set_solver.
    - rewrite Heq, !bal_post, as_i64_small by done. rewrite (decide_True (P := to = to)), (decide_False (P := to = from)) by congruence. lia. }
  destruct Hpay as (v & w1 & E & Hok1 & Hc1 & Hi1 & Hb1). cbv zeta. rewrite E. cbn [fst snd].
  assert (Hown1 : invoice_owner parse_node hash (lw_db w1) = Some to) by (unfold invoice_owner in *; by rewrite Hi1).
  split; [by eexists|]. unfold on_payment_received. rewrite run_lbind, run_get, Hown1, run_lbind, run_tx. cbn [lw_db stepped].
  rewrite (proj1 (credit_Ok _ to hash amount (lw_db w1) Hok1 Hamount) Hc1). done.
Qed.
End credit.
