(* ===== verification/LspToy.v ===== *)
(** A concrete environment for the Lightning service provider and runs in it:
    they show that the assumptions of the theorems can hold together, and what
    happens where the code leaves a gap.  It stands for no real code. *)

From S2P Require Import Prelude Json Threads Bitcoin Script Toy Ledger LspRules Lsp LspApi LspNode LspRuns LspSafety LspHeld LspOnce LspCredit.

(** ** The environment: the clock moves a second with every step *)
Definition T1 : Z := 1_000.
Definition pid (k : nat) : bytes := String.list_byte_of_string (pretty k).

Definition lsp_system (d : nat → option string) : LspSystem := {|
  now_secs := λ n, T1 + Z.of_nat n;
  now_nanos := λ n, Z.of_nat n;
  instant_now := λ n, Z.of_nat n;
  disk := d;
  urandom32 := λ n, pad 32 (pid n);
|}.

(** Nonces, one for each body. *)
Definition nonce (x : string) : string := "nnnnnnnnnnnnnnn" +:+ x.

Definition signed (node x op : string) (params : list (string * Value)) (expires : Z) : Value :=
  VObj [("node_id", VStr node); ("op", VStr op); ("params", VObj params); ("nonce", VStr (nonce x)); ("expires_at", VNum expires)].

(** The bodies of the runs, by name. *)
Definition bodies : list (string * Value) := [
  ("ann-invoice", signed "ann" "0" "invoice" [("amount_msat", VNum 100_000_000); ("description", VStr "a")] 1_100);
  ("bob-invoice", signed "bob" "1" "invoice" [("amount_msat", VNum 60_000_000); ("description", VStr "b")] 1_100);
  ("ann-pays-bob", signed "ann" "2" "pay" [("invoice", VStr "to-bob")] 1_200);
  ("ann-pays-out", signed "ann" "3" "pay" [("invoice", VStr "out")] 1_200);
  ("ann-withdraws", signed "ann" "4" "withdraw"
     [("amount_msat", VNum 50_000_000); ("address", VStr "addr"); ("feerate_sat_vb", VNum 3)] 1_025);
  ("bob-channel", signed "bob" "5" "channel_invoice" [("amount_msat", VNum 7_000)] 1_100)].

#[local] Instance lsp_lib : LspLib := {|
  parse_node := λ s, Some s;
  verify_message := λ _ sig node, String.eqb sig node;
  json_from_slice := λ b, assoc (String.string_of_list_byte b) bodies;
|}.

Definition HASH_A : bytes := pad 32 [x02].
Definition HASH_B : bytes := pad 32 [x03].

#[local] Instance lsp_account_node : AccountNode := {|
  is_connected := λ _ _, false;
  receive_invoice := λ _ _ d _, inr ("inv", if String.eqb d "a" then HASH_A else HASH_B);
  invoice_details := λ s,
    if String.eqb s "to-bob" then inr (Some 60_000_000, HASH_B)
    else if String.eqb s "spoiled" then inr (Some 1, HASH_A)
    else if String.eqb s "out" then inr (Some 5_000, pad 32 [x07]) else inl "not an invoice";
  send_bolt11 := λ _ _ _, inr tt;
  backing_sat := λ _, 10^9;
  send_onchain := λ _ _ _ _, inr (pad 32 [x09]);
  receive_for_hash := λ _ _ _ _ _, inr "held";
  create_offer := λ _ _, inl "none";
  paid_offer := λ _ _, None;
|}.

Definition peer (n : string) : PeerDetails := {| pd_node_id := n; pd_address := "here"; pd_is_connected := true |}.
Definition channel (n : string) : ChannelDetails := {|
  cd_counterparty_node_id := n; cd_user_channel_id := 1; cd_is_usable := true;
  cd_next_outbound_htlc_limit_msat := 10^12; cd_forwarding_fee := (0, 0) |}.

#[local] Instance lsp_ldk : LdkNode := {|
  best_height := λ _, 100;
  list_peers := λ _, [peer "ann"; peer "bob"];
  list_channels := λ _, [channel "ann"; channel "bob"];
  wallet_synced_at := λ _, Some 1;
  spendable_onchain_sat := λ _, 10^9;
  per_channel_reserve_sats := 25_000;
  spontaneous_send := λ k _ _, inr (pid k);
  claim_for_hash := λ _ _ _ _, inr tt;
  fail_for_hash := λ _ _, inr tt;
  open_channel := λ _ _ _ _ _ _, inr 5;
  open_announced_channel := λ _ _ _ _ _, inr 6;
  update_channel_config := λ _ _ _ _, inr tt;
  close_channel := λ _ _ _, inr tt;
  inbound_payments := λ _, [];
  parse_invoice := λ _, inr (Some 1);
  pay_invoice := λ k _ _, inr (pid k);
  fcm_send := λ _ _ _ _ _, inr tt;
|}.

(** Accounts of at most 10,000 sat, 10,000,000 sat in all. *)
Definition service : AccountService := new_service 10_000 10_000_000 50_000 true.
Definition FEES : Z * Z := (0, 0).

(** ** What the theorems assume of it *)
Lemma pid_inj j k : pid j = pid k → j = k.
Proof.
  unfold pid. intros E. apply (f_equal String.string_of_list_byte) in E.
  rewrite !String.string_of_list_byte_of_string in E. by apply (inj pretty) in E.
Qed.

Lemma toy_unsigned inv a h : invoice_details inv = inr (Some a, h) → 0 ≤ a.
Proof. cbn. repeat case_match; intros; by simplify_eq. Qed.
Lemma toy_canon s n : parse_node s = Some n → parse_node n = Some n.
Proof. done. Qed.
Lemma toy_ids k k' a a' n n' i : spontaneous_send k a n = inr i → spontaneous_send k' a' n' = inr i → k = k'.
Proof. cbn. intros [= Hi] [= Hj]. apply pid_inj. congruence. Qed.

(** A request as it arrives. *)
Definition request `{LspSystem} (body node : string) : Lsp unit :=
  discard (now ← ask now_secs; handle service (String.list_byte_of_string body) (Some node) now).

Module GoodDisk.
#[local] Instance sys : LspSystem := lsp_system (λ _, None).

Lemma toy_past e m n : (m ≤ n)%nat → e < now_secs m → e < now_secs n.
Proof. cbn. unfold T1. lia. Qed.

Lemma toy_disk k : disk k = None.
Proof. done. Qed.

Definition then_run {A} (m : Lsp A) (w : LspWorld) : LspWorld := snd (run_prog m w).

(** Ann asks for an invoice, it is paid, Bob asks for one. *)
Definition w1 : LspWorld := then_run (request "ann-invoice" "ann") (lsp_start empty_db).
Definition w2 : LspWorld := then_run (discard (handle_one service FEES (PaymentReceived None HASH_A 100_000_000))) w1.
Definition w3 : LspWorld := then_run (request "bob-invoice" "bob") w2.
Definition w4 : LspWorld := then_run (request "ann-withdraws" "ann") w3.

Definition toy_reach (w : LspWorld) : Prop := ∃ r r', lsp_reach service FEES 0 [] None (lsp_start empty_db) (Done r) (Done r') w.

Lemma reach_request w body node : toy_reach w → toy_reach (then_run (request body node) w).
Proof. intros (r & r' & Hr). do 2 eexists. eapply duo_run1; [exact Hr|apply job_account]. Qed.
Lemma reach_event w e : event_wf e → toy_reach w → toy_reach (then_run (discard (handle_one service FEES e)) w).
Proof. intros He (r & r' & Hr). do 2 eexists. eapply duo_run2; [exact Hr|by apply job_event]. Qed.

Lemma w4_reached : toy_reach w4.
Proof. do 2 apply reach_request. apply reach_event; [done|]. apply reach_request. do 2 eexists. apply duo_start. Qed.

(** Ann's withdrawal has left 50,000,000 of her 100,000,000 msat. *)
Lemma service_keeps_ledger_witness : ledger_ok (lw_db w4) ∧ bal (lw_db w4) "ann" = 50_000_000.
Proof.
  split; [|by vm_compute]. destruct w4_reached as (r & r' & Hr).
  exact (proj2 (service_keeps_ledger service FEES 0 [] None toy_unsigned _ _ _ Hr)).
Defined.

Lemma request_isolated_witness :
  rg main_steps (isolated "ann") (handle service (String.list_byte_of_string "ann-withdraws") (Some "ann") 1_017) w3 (λ _ _, True).
Proof.
  refine (proj2 (request_isolated service "ann" _ (Some "ann") 1_017 w3 toy_unsigned _)).
  intros req Hp. vm_compute in Hp. by injection Hp as <-.
Defined.

Lemma request_payments_covered_witness :
  rg quiet_steps (covered "ann") (handle service (String.list_byte_of_string "ann-withdraws") (Some "ann") 1_017) w3 (λ _ _, True).
Proof.
  refine (request_payments_covered service "ann" _ (Some "ann") 1_017 w3 toy_unsigned _).
  intros req Hp. vm_compute in Hp. by injection Hp as <-.
Defined.

(** Ann pays an invoice; the same request again is refused. *)
Definition pays_out : bytes := String.list_byte_of_string "ann-pays-out".
Definition first_use := run_prog (verify pays_out "ann" 1_017) w3.
Definition second_use := run_prog (handle service pays_out (Some "ann") 1_018) (snd first_use).

Lemma request_once_witness : (∃ req, fst first_use = Ok (Ok req)) ∧ ∃ reply, fst second_use = Ok reply ∧ refused reply.
Proof.
  pose (req := {| ar_node_id := "ann"; ar_op := "pay"; ar_params := VObj [("invoice", VStr "out")];
                  ar_nonce := nonce "3"; ar_expires_at := 1_200 |}).
  pose (reply := auth_err 401 "replayed").
  assert (E1 : fst first_use = Ok (Ok req)) by (by vm_compute). assert (E2 : fst second_use = Ok reply) by (by vm_compute).
  split; [by exists req|]. exists reply. split; [done|].
  assert (H1 : exec service_steps (verify pays_out "ann" 1_017) w3 (Ok (Ok req)) (snd first_use)).
  { rewrite <- E1. exact (exec_alone service_steps (verify pays_out "ann" 1_017) w3 (λ w, rtc_refl _ w)). }
  assert (H2 : exec service_steps (handle service pays_out (Some "ann") 1_018) (snd first_use) (Ok reply) (snd second_use)).
  { rewrite <- E2. exact (exec_alone service_steps (handle service pays_out (Some "ann") 1_018) (snd first_use) (λ w, rtc_refl _ w)). }
  assert (H3 : 0 ≤ 1_017 ≤ i64_max - MAX_AHEAD_SECS) by (clear; by vm_compute).
  assert (H4 : now_secs (lw_asked (snd second_use)) ≤ ar_expires_at req) by (clear; by vm_compute).
  exact (request_once service toy_unsigned _ _ _ _ _ _ _ _ _ _ H3 (toy_past _) H1 H2 (or_intror H4)).
Defined.

Definition v1 : LspWorld := then_run (request "bob-channel" "bob") (lsp_start empty_db).
Definition HELD : bytes := pad 32 (pid 3).
Definition v2 : LspWorld := then_run (handle_one service FEES (PaymentClaimable HELD 7_000 (Some 200))) v1.
Definition v3 : LspWorld := then_run (handle_one service FEES (PaymentSuccessful (Some (pid 13)) HASH_A None)) v2.

Lemma request_steps body node w : metrics_steps w (then_run (request body node) w).
Proof. eapply always_run, (metrics_moves service None toy_unsigned), job_account. Qed.

Lemma run_event_now res w e :
  held_run service FEES 0 [] res w → event_wf e → credible res w e →
  held_run service FEES 0 [] (after e res) (then_run (handle_one service FEES e) w).
Proof.
  intros Hw He Hc. eapply run_event; [exact Hw|done|done|].
  exact (exec_alone metrics_steps (handle_one service FEES e) w (λ w, rtc_refl _ w)).
Qed.

Lemma v3_run : held_run service FEES 0 [] [(pid 13, true)] v3.
Proof.
  apply (run_event_now [] v2 (PaymentSuccessful (Some (pid 13)) HASH_A None)); [|by intros f|split; [|set_solver]].
  - apply (run_event_now [] v1 (PaymentClaimable HELD 7_000 (Some 200))); [|done..].
    eapply run_wait; [apply run_start|apply request_steps].
  - intros k b m Hk. assert (Ha : lw_asked v2 = 16%nat) by (by vm_compute). rewrite Ha in Hk. cbn. intros [= E].
    apply pid_inj in E. lia.
Qed.

(** The payment Bob's phone waited for was delivered and claimed. *)
Lemma held_paid_once_witness :
  CClaim HELD 7_000 HELD ∈ lw_calls v3 ∧ ∃ row, held (lw_db v3) !! HELD = Some row ∧ waiting_msat row = Some 7_000.
Proof.
  assert (Hin : CClaim HELD 7_000 HELD ∈ lw_calls v3) by (apply (list_elem_of_lookup_2 _ 0%nat); by vm_compute). split; [exact Hin|].
  pose proof (held_paid_once service FEES 0 [] toy_canon toy_disk toy_ids _ _ HELD v3_run) as (_ & Hc & _).
  destruct (Hc _ _ Hin) as (row & Hrow & Hw & _). exact (ex_intro _ row (conj Hrow Hw)).
Defined.

(** Bob has money, Ann an unpaid invoice: he pays one of his own making with
    its hash. *)
Definition u1 : LspWorld := then_run (discard (handle_one service FEES (PaymentReceived None HASH_B 60_000_000)))
  (then_run (request "bob-invoice" "bob") w1).

Lemma u1_reached : toy_reach u1.
Proof. apply reach_event; [done|]. do 2 apply reach_request. do 2 eexists. apply duo_start. Qed.

Lemma credit_used_up_witness :
  let r1 := run_prog (pay "bob" (VObj [("invoice", VStr "spoiled")])) u1 in
  let r2 := run_prog (on_payment_received service HASH_A 100_000_000) (snd r1) in
  (∃ v, fst r1 = Ok (200, v)) ∧ fst r2 = Ok true ∧ bal (lw_db (snd r2)) "ann" = bal (lw_db u1) "ann" + 1.
Proof.
  assert (Hok : ledger_ok (lw_db u1)).
  { destruct u1_reached as (r & r' & Hr). by eapply reachable_ok, service_reachable; [apply toy_unsigned|exact Hr]. }
  assert (Hnc : ¬ credited (lw_db u1) "ann" HASH_A) by (clear; apply (bool_decide_unpack _); by vm_compute).
  assert (Hheld : held_of (lw_db u1) "bob" ≤ i64_max) by (clear; by vm_compute).
  assert (Hfree : 1 ≤ bal (lw_db u1) "bob" - held_of (lw_db u1) "bob") by (clear; by vm_compute).
  refine (credit_used_up service toy_disk "bob" "ann" HASH_A "spoiled" 1 100_000_000
    (VObj [("invoice", VStr "spoiled")]) u1 Hok _ Hnc eq_refl eq_refl eq_refl _ _ _ Hheld Hfree);
    [by vm_compute|done|clear; by vm_compute|lia].
Defined.
(** ** Where the code leaves a gap *)

(** While the main thread converts Ann's 100,000 sat, she pays Bob. *)
Definition conversion_env (n : nat) (w : LspWorld) : LspWorld :=
  if Nat.eqb n 4 then then_run (request "ann-pays-bob" "ann") w else w.
Definition converted := run_env conversion_env 0 (run_conversions service FEES 0) w3.
Definition w6 : LspWorld := then_run (handle_one service FEES (PaymentSuccessful (Some (pid 30)) HASH_A None)) (snd converted).

(** A conversion can pay out more than it holds.  The amount comes from
    the balances read first; what is held is what is free when the hold is
    taken, and the amount [start_conversion] answers is dropped.  Here Ann's
    request pays Bob 60,000 of her 100,000 sat in between: the node sends her
    99,000 sat against a hold of 40,000, and when the payment succeeds only
    those are taken from her. *)
Theorem conversion_overdraws :
  exec metrics_steps (run_conversions service FEES 0) w3 (Ok tt) (snd converted) ∧
  bal (lw_db w3) "ann" = 100_000_000 ∧ CKeysend 99_000_000 "ann" (pid 30) ∈ lw_calls (snd converted) ∧
  h_amount <$> holds (lw_db (snd converted)) !! conv_pay_id (pid 30) = Some 40_000_000 ∧
  bal (lw_db w6) "ann" = 0 ∧ bal (lw_db w6) "bob" = 60_000_000.
Proof.
  split; [|split; [by vm_compute|split; [|by vm_compute]]].
  - assert (E : fst converted = Ok tt) by (by vm_compute). rewrite <- E.
    apply (exec_env metrics_steps conversion_env 0 (run_conversions service FEES 0) w3).
    intros n w. unfold conversion_env. case_match; [apply request_steps|apply rtc_refl].
  - apply (list_elem_of_lookup_2 _ 0%nat). by vm_compute.
Qed.

(** A replay the clock overtakes is carried out: the handler reads the time at
    the last second of the request, the ledger a second later, when the nonce of
    the first use has just been forgotten.  Ann's coins are sent twice. *)
Definition w5 : LspWorld := then_run (request "ann-withdraws" "ann") w4.
Lemma replay_overtaken :
  length (lw_calls w4) = 1%nat ∧ length (lw_calls w5) = 2%nat ∧ bal (lw_db w5) "ann" = 0.
Proof. by vm_compute. Qed.
End GoodDisk.

Module BadDisk.
Section bad_disk.
Context (fails_at : nat).
#[local] Instance sys : LspSystem := lsp_system (λ k, if Nat.eqb k fails_at then Some "disk full" else None).

Definition then_run {A} (m : Lsp A) (w : LspWorld) : LspWorld := snd (run_prog m w).
Definition v1 : LspWorld := then_run (request "bob-channel" "bob") (lsp_start empty_db).
Definition v2 : LspWorld :=
  then_run (handle_one service FEES (PaymentClaimable GoodDisk.HELD 7_000 (Some 200))) v1.
Definition v3 : LspWorld := then_run (tick service) v2.
Definition v4 : LspWorld := then_run (handle_one service FEES (PaymentSuccessful (Some (pid 13)) (pid 0) None)) v2.
Definition v5 : LspWorld := then_run (tick service) v4.
End bad_disk.

(** When the note that a held payment was sent on cannot be written, the next
    round sends it again. *)
Lemma delivered_twice :
  lw_calls (v3 14) = [CForward GoodDisk.HELD 7_000 "bob" (pid 19); CForward GoodDisk.HELD 7_000 "bob" (pid 13)].
Proof. by vm_compute. Qed.

(** When the first statement of the note is written and the second is not, the
    payment counts as sent on, but not under its id: that it arrived is not
    recognised, and the payer's payment is never claimed. *)
Lemma delivered_unclaimed :
  lw_calls (v4 15) = [CForward GoodDisk.HELD 7_000 "bob" (pid 13)] ∧
  ((λ r, (hd_state r, hd_forward_id r)) <$> held (lw_db (v4 15)) !! GoodDisk.HELD) = Some ("forwarding", None) ∧
  lw_calls (v5 15) = lw_calls (v4 15).
Proof. by vm_compute. Qed.
End BadDisk.
