(* ===== verification/LnPay.v ===== *)
(** Paying from the phone's Lightning node ([fortis-lightning/src/pay.rs]): the
    checks of a target, the send, and the record of attempts that keeps an
    invoice from being paid twice.

    Several calls of [pay] may run at once; each is a program of steps
    ([Threads.v]).  What runs under a lock, a call of ldk-node and a reading of
    the clock is one step.  The clock, the file system, ldk-node, the parsers
    of invoices and LNURL's HTTP lookups are parameters; each answers by the
    number of the step that asks. *)

From S2P Require Import Prelude Json Threads Bitcoin.

(** ** Errors ([error.rs]) *)
Inductive LnError : Type :=
| BackupUnavailable | ActiveOnAnotherDevice | LspUnreachable | InsufficientLightning | NoRoute | InvoiceExpired
| WrongNetwork | PaymentStateUnknown
| AmountOutOfRange (min_msat max_msat : Z)
| LnOther (s : string).
#[export] Instance LnError_eq_dec : EqDecision LnError.
Proof. solve_decision. Defined.

(** ldk-node's, and the file system's. *)
Inductive NodeError : Type :=
| NotRunning | PaymentSendingFailed | PersistenceFailed | DuplicatePayment | UnsupportedCurrency
| ConnectionFailed | InsufficientFunds | InvalidAddress
| OtherNodeError (s : string).
#[export] Instance NodeError_eq_dec : EqDecision NodeError.
Proof. solve_decision. Defined.

(** Programs that may end with an error. *)
Definition Ln (W A : Type) : Type := Prog W (result LnError A).
#[export] Instance Ln_ret W : MRet (Ln W) := λ A a, Done (Ok a).
#[export] Instance Ln_bind W : MBind (Ln W) := λ A B f m,
  prog_bind m (λ r, match r with Ok a => f a | Err e => Done (Err e) | Panic => Done Panic end).

(** Worlds that count the steps that ask for something from outside. *)
Class Asks (W : Type) : Type := { asked : W → nat; tick : W → W }.
Definition ask {W A} `{Asks W} (f : nat → A) : Ln W A := atomically (λ w, (Ok (f (asked w)), tick w)).

Inductive IoKind : Type := InvalidData | PermissionDenied | OtherKind (s : string).

(** ** Targets, invoices, offers *)
Inductive PaymentTarget : Type :=
| Bolt11 (invoice : string) (amount_msat : option Z) (description : string) (expiry_secs : Z)
| Bolt12Offer (offer : string) (amount_msat : option Z) (description : string)
| LnurlPay (url : string)
| LightningAddress (user domain : string)
| OnChain (address : string) (amount_sat : option Z)
| Unified (address : string) (amount_sat : option Z) (lightning : PaymentTarget).

(** What is read of a parsed invoice; [inv_id] is its payment hash in hex. *)
Record Bolt11Invoice : Type := {
  inv_network : string;
  inv_id : string;
  inv_expires_at : option Z;
  inv_payee : string;
  inv_amount_msat : option Z;
  inv_description : option string;      (* [None]: only its hash *)
}.

Inductive OfferAmount : Type := AmountBitcoin (msat : Z) | AmountCurrency.
Record Offer : Type := {
  of_networks : list string;
  of_issuer : option string;
  of_amount : option OfferAmount;
  of_description : option string;
}.

Record LnurlParams : Type := { lp_description : string }.

Inductive StartMode : Type := Normal | Exit.
#[export] Instance StartMode_eq_dec : EqDecision StartMode.
Proof. solve_decision. Defined.

Record LnChannelDetails : Type := {
  ln_is_usable : bool;
  ln_next_outbound_htlc_limit_msat : Z;
  ln_inbound_capacity_msat : Z;
}.

(** How a write of a file ends: done and durable; not done; or done as far as
    the running system shows it, but a power cut may undo it. *)
Inductive WriteOutcome : Type := Written | NotWritten (k : IoKind) | Unsynced (k : IoKind).

Class PayEnv : Type := {
  pay_now_secs : nat → Z;
  read_error : nat → option IoKind;
  write_outcome : nat → WriteOutcome;
  io_display : IoKind → string;
}.

Class LnNode : Type := {
  (* ldk-node *)
  running : nat → option StartMode;
  lsp_connected : nat → bool;
  list_ln_channels : nat → list LnChannelDetails;
  ldk_lists : nat → string → bool;                             (* [payment(id).is_some()] *)
  ldk_send : nat → Bolt11Invoice → option Z → NodeError + string;
  ldk_send_offer : nat → Offer → option Z → NodeError + string;
  node_error_display : NodeError → string;
  (* invoices and offers *)
  bolt11_from_str : string → string + Bolt11Invoice;
  offer_from_str : string → string + Offer;
  would_expire : nat → Bolt11Invoice → bool;
  offer_expired : nat → Offer → bool;
  (* [lnurl.rs] over HTTP *)
  lnurl_resolve : nat → PaymentTarget → result LnError LnurlParams;
  request_invoice : nat → LnurlParams → Z → result LnError string;
  (* the device lock, [node.rs] *)
  check_device_lock : nat → result LnError unit;
  (* the node's own *)
  own_network : string;
  own_node_id : string;
}.

(** ** The world *)
Inductive File (M : Type) : Type := FMissing | FCorrupt | FMap (m : M).
Arguments FMissing {M}.
Arguments FCorrupt {M}.
Arguments FMap {M} m.

(** A file as it shows, and what a power cut may bring back instead. *)
Record Disk (M : Type) : Type := { shown : File M; older : list (File M) }.
Arguments shown {M} d.
Arguments older {M} d.

(** A BOLT11 send handed to ldk-node and its answer. *)
Record Send : Type := { sd_id : string; sd_expires : Z; sd_at : nat; sd_result : NodeError + string }.

Record PayWorld : Type := {
  pw_attempts : Disk (gmap string Z);
  pw_notes : Disk (gmap string string);
  pw_in_flight : gmap string nat;      (* [IN_FLIGHT], with the call that holds each *)
  pw_asked : nat;
  pw_sends : list Send;                (* latest first *)
}.

Definition pay_start (attempts : File (gmap string Z)) (notes : File (gmap string string)) : PayWorld := {|
  pw_attempts := {| shown := attempts; older := [] |}; pw_notes := {| shown := notes; older := [] |};
  pw_in_flight := ∅; pw_asked := 0; pw_sends := [] |}.

Definition tick_pay (w : PayWorld) : PayWorld := {|
  pw_attempts := pw_attempts w; pw_notes := pw_notes w; pw_in_flight := pw_in_flight w;
  pw_asked := S (pw_asked w); pw_sends := pw_sends w |}.
Definition set_attempts (w : PayWorld) (d : Disk (gmap string Z)) : PayWorld := {|
  pw_attempts := d; pw_notes := pw_notes w; pw_in_flight := pw_in_flight w;
  pw_asked := pw_asked w; pw_sends := pw_sends w |}.
Definition set_notes (w : PayWorld) (d : Disk (gmap string string)) : PayWorld := {|
  pw_attempts := pw_attempts w; pw_notes := d; pw_in_flight := pw_in_flight w;
  pw_asked := pw_asked w; pw_sends := pw_sends w |}.
Definition set_in_flight (w : PayWorld) (s : gmap string nat) : PayWorld := {|
  pw_attempts := pw_attempts w; pw_notes := pw_notes w; pw_in_flight := s;
  pw_asked := pw_asked w; pw_sends := pw_sends w |}.
Definition add_send (w : PayWorld) (s : Send) : PayWorld := {|
  pw_attempts := pw_attempts w; pw_notes := pw_notes w; pw_in_flight := pw_in_flight w;
  pw_asked := pw_asked w; pw_sends := s :: pw_sends w |}.

Notation Pay := (Ln PayWorld).
Definition pay_lift {A} (r : result LnError A) : Pay A := Done r.

(** The result of a part, for the code that runs after it in any case. *)
Definition pay_attempt {A} (m : Pay A) : Pay (result LnError A) :=
  prog_bind m (λ r, match r with Panic => Done Panic | r => Done (Ok r) end).

#[export] Instance PayWorld_asks : Asks PayWorld := {| asked := pw_asked; tick := tick_pay |}.
Notation pay_ask := (ask (W := PayWorld)).

(** ** Files *)
Definition read_file {M} (e : option IoKind) (f : File M) : result IoKind (option M) :=
  match e with
  | Some k => Err k
  | None => match f with FMissing => Ok None | FCorrupt => Err InvalidData | FMap m => Ok (Some m) end
  end.

(** To a temporary file, synced, renamed; then the directory is synced. *)
Definition write_atomic {M} (o : WriteOutcome) (m : M) (d : Disk M) : result IoKind unit * Disk M :=
  match o with
  | Written => (Ok tt, {| shown := FMap m; older := [] |})
  | NotWritten k => (Err k, d)
  | Unsynced k => (Err k, {| shown := FMap m; older := shown d :: older d |})
  end.

Section files.
Context `{PayEnv}.

Definition attempts_read (e : option IoKind) (f : File (gmap string Z)) : result IoKind (gmap string Z) :=
  default ∅ <$> read_file e f.

Definition attempts_load : Pay (result IoKind (gmap string Z)) := atomically (λ w,
  (Ok (attempts_read (read_error (pw_asked w)) (shown (pw_attempts w))), tick_pay w)).

Definition attempts_update (now : Z) (f : gmap string Z → gmap string Z) : Pay (result IoKind unit) := atomically (λ w,
  match attempts_read (read_error (pw_asked w)) (shown (pw_attempts w)) with
  | Ok a =>
      let r := write_atomic (write_outcome (pw_asked w)) (filter (λ x, now < snd x) (f a)) (pw_attempts w) in
      (Ok (fst r), set_attempts (tick_pay w) (snd r))
  | Err k => (Ok (Err k), tick_pay w)
  | Panic => (Panic, tick_pay w)
  end).

Definition notes_read (e : option IoKind) (f : File (gmap string string)) : gmap string string :=
  match read_file e f with Ok (Some m) => m | _ => ∅ end.

Definition notes_load : Pay (gmap string string) := atomically (λ w,
  (Ok (notes_read (read_error (pw_asked w)) (shown (pw_notes w))), tick_pay w)).

Definition notes_update (f : gmap string string → gmap string string) : Pay unit := atomically (λ w,
  let n := notes_read (read_error (pw_asked w)) (shown (pw_notes w)) in
  (Ok tt, set_notes (tick_pay w) (snd (write_atomic (write_outcome (pw_asked w)) (f n) (pw_notes w))))).

Definition note_description (id description : string) : Pay unit :=
  if String.eqb description "" then mret tt else notes_update (<[id := description]>).
End files.

(** ** Sending an invoice *)
Definition claim (me : nat) (id : string) : Pay unit := atomically (λ w,
  match pw_in_flight w !! id with
  | Some _ => (Err PaymentStateUnknown, tick_pay w)
  | None => (Ok tt, set_in_flight (tick_pay w) (<[id := me]> (pw_in_flight w)))
  end).
Definition release (id : string) : Pay unit := atomically (λ w,
  (Ok tt, set_in_flight (tick_pay w) (delete id (pw_in_flight w)))).

Section sending.
Context `{PayEnv} `{LnNode}.

Definition unreadable : LnError := LnOther "attempt_record_unreadable".

Definition map_send_error (e : NodeError) : LnError :=
  match e with
  | NotRunning => LnOther "not_started"
  | PaymentSendingFailed => NoRoute
  | PersistenceFailed => PaymentStateUnknown
  | DuplicatePayment => LnOther "duplicate_payment"
  | UnsupportedCurrency => LnOther "unsupported_currency"
  | _ => LnOther ("pay: " +:+ node_error_display e)
  end.

Definition check_attempt (id : string) (now : Z) : Pay unit :=
  r ← attempts_load;
  match r with
  | Ok a =>
      match a !! id with
      | None => mret tt
      | Some expires_at =>
          listed ← (if now <? expires_at then pay_ask (λ n, ldk_lists n id) else mret true);
          if (now <? expires_at) && negb listed then pay_lift (Err PaymentStateUnknown)
          else _ ← attempts_update now (delete id); mret tt
      end
  | _ => pay_lift (Err unreadable)
  end.

Definition do_send (id : string) (expires_at : Z) (inv : Bolt11Invoice) (amount : option Z) : Pay (NodeError + string) :=
  atomically (λ w,
    let r := ldk_send (pw_asked w) inv amount in
    (Ok r, add_send (tick_pay w) {| sd_id := id; sd_expires := expires_at; sd_at := pw_asked w; sd_result := r |})).

Definition send_recorded (id : string) (expires_at now : Z) (inv : Bolt11Invoice) (amount : option Z) : Pay string :=
  let record := <[id := expires_at]> in
  u ← attempts_update now record;
  _ ← pay_lift match u with
               | Ok _ => Ok tt
               | Err InvalidData | Err PermissionDenied => Err unreadable
               | Err k => Err (LnOther ("attempt record: " +:+ io_display k))
               | Panic => Panic
               end;
  res ← do_send id expires_at inv amount;
  _ ← match res with
      | inl PersistenceFailed =>
          a ← attempts_load;
          if decide (to_option a ≫= (.!! id) = Some expires_at) then mret tt
          else _ ← attempts_update now record; mret tt
      | inl DuplicatePayment => mret tt
      | _ => _ ← attempts_update now (delete id); mret tt
      end;
  pay_lift match res with inr p => Ok p | inl e => Err (map_send_error e) end.

(** The guard is let go whatever comes of the rest; [me] is the call. *)
Definition guarded_bolt11 (me : nat) (id : string) (expires_at now : Z) (before_send : Pay unit)
    (inv : Bolt11Invoice) (amount : option Z) : Pay string :=
  _ ← claim me id;
  r ← pay_attempt (
    _ ← check_attempt id now;
    _ ← before_send;
    send_recorded id expires_at now inv amount);
  _ ← release id;
  pay_lift r.

(** ** The checks of a target *)
Definition fixed_or_given (fixed given : option Z) : result LnError (option Z * Z) :=
  match fixed, given with
  | Some f, None => Ok (None, f)
  | Some f, Some g => if f =? g then Ok (None, f) else Err (LnOther "amount_mismatch")
  | None, Some g => if 0 <? g then Ok (Some g, g) else Err (LnOther "amount_required")
  | None, None => Err (LnOther "amount_required")
  end.

Definition parse_invoice (s : string) : result LnError Bolt11Invoice :=
  match bolt11_from_str (to_ascii_lowercase (trim s)) with
  | inr i => Ok i
  | inl e => Err (LnOther ("invalid invoice: " +:+ e))
  end.

Inductive Prepared : Type :=
| PBolt11 (invoice : Bolt11Invoice) (amount_override : option Z) (amount_msat : Z) (description : string)
| PBolt12 (offer : Offer) (amount_override : option Z) (amount_msat : Z) (description : string).
Definition prepared_amount (p : Prepared) : Z := match p with PBolt11 _ _ a _ | PBolt12 _ _ a _ => a end.

Definition check_bolt11 (inv : Bolt11Invoice) (amount : option Z) (description : option string) : Pay Prepared :=
  _ ← pay_lift (bail_if (negb (String.eqb (inv_network inv) own_network)) WrongNetwork);
  gone ← pay_ask (λ n, would_expire n inv);
  _ ← pay_lift (bail_if gone InvoiceExpired);
  _ ← pay_lift (bail_if (String.eqb (inv_payee inv) own_node_id) (LnOther "pay_self"));
  '(amount_override, amount) ← pay_lift (fixed_or_given (inv_amount_msat inv) amount);
  mret (PBolt11 inv amount_override amount (default (default "" (inv_description inv)) description)).

Definition check_offer (s : string) (amount : option Z) : Pay Prepared :=
  offer ← pay_lift match offer_from_str (trim s) with inr o => Ok o | inl e => Err (LnOther ("invalid offer: " +:+ e)) end;
  _ ← pay_lift (bail_if (negb (bool_decide (own_network ∈ of_networks offer))) WrongNetwork);
  gone ← pay_ask (λ n, offer_expired n offer);
  _ ← pay_lift (bail_if gone InvoiceExpired);
  _ ← pay_lift (bail_if (bool_decide (of_issuer offer = Some own_node_id)) (LnOther "pay_self"));
  fixed ← pay_lift match of_amount offer with
                   | None => Ok None
                   | Some (AmountBitcoin a) => Ok (Some a)
                   | Some AmountCurrency => Err (LnOther "unsupported_currency")
                   end;
  '(amount_override, amount) ← pay_lift (fixed_or_given fixed amount);
  mret (PBolt12 offer amount_override amount (default "" (of_description offer))).

Fixpoint prepare (target : PaymentTarget) (amount : option Z) : Pay Prepared :=
  match target with
  | Bolt11 invoice _ _ _ => inv ← pay_lift (parse_invoice invoice); check_bolt11 inv amount None
  | Bolt12Offer offer _ _ => check_offer offer amount
  | LnurlPay _ | LightningAddress _ _ =>
      a ← pay_lift match amount with
                   | Some a => if 0 <? a then Ok a else Err (LnOther "amount_required")
                   | None => Err (LnOther "amount_required")
                   end;
      p ← pay_ask (λ n, lnurl_resolve n target);
      params ← pay_lift p;
      r ← pay_ask (λ n, request_invoice n params a);
      pr ← pay_lift r;
      inv ← pay_lift (parse_invoice pr);
      check_bolt11 inv (Some a) (Some (lp_description params))
  | Unified _ _ (Unified _ _ _) => pay_lift (Err (LnOther "not_lightning"))
  | Unified _ _ inner => prepare inner amount
  | OnChain _ _ => pay_lift (Err (LnOther "not_lightning"))
  end.

(** ** Paying *)
Definition ATTEMPT_MARGIN_SECS : Z := 600.

Definition sendable_msat (channels : list LnChannelDetails) : Z :=
  foldl (λ s c, wrapping_add u64_max s (ln_next_outbound_htlc_limit_msat c)) 0
    (filter (λ c, ln_is_usable c = true) channels).

Definition liquidity_and_gate (amount : Z) : Pay unit :=
  lock ← pay_ask check_device_lock;
  _ ← pay_lift lock;
  channels ← pay_ask list_ln_channels;
  pay_lift (bail_if (sendable_msat channels <? amount) InsufficientLightning).

Definition exit_gate {W} `{Asks W} (mode : StartMode) : Ln W unit :=
  connected ← (if decide (mode = Exit) then ask lsp_connected else mret true);
  Done (bail_if (bool_decide (mode = Exit) && negb connected) LspUnreachable).

(** [me]: the call; [payment(hash)] and [send] are those of the invoice. *)
Definition pay (me : nat) (target : PaymentTarget) (amount : option Z) : Pay string :=
  r ← pay_ask running;
  _ ← match r with Some mode => exit_gate mode | None => mret tt end;
  prepared ← prepare target amount;
  r ← pay_ask running;
  _ ← pay_lift (ok_or r (LnOther "not_started"));
  let amount := prepared_amount prepared in
  match prepared with
  | PBolt11 inv amount_override _ description =>
      let expires_at := saturating_add u64_max (default u64_max (inv_expires_at inv)) ATTEMPT_MARGIN_SECS in
      now ← pay_ask pay_now_secs;
      res ← pay_attempt (guarded_bolt11 me (inv_id inv) expires_at now (liquidity_and_gate amount) inv amount_override);
      _ ← match res with
          | Ok _ | Err PaymentStateUnknown => note_description (inv_id inv) description
          | _ => mret tt
          end;
      pay_lift res
  | PBolt12 offer amount_override _ description =>
      _ ← liquidity_and_gate amount;
      s ← pay_ask (λ n, ldk_send_offer n offer amount_override);
      id ← pay_lift match s with inr id => Ok id | inl e => Err (map_send_error e) end;
      _ ← note_description id description;
      mret id
  end.
End sending.
