(* ===== verification/LnPayOnce.v ===== *)
(** An invoice whose payment may be under way is not paid again: the record of
    attempts of [LnPay.v] over any number of calls at once, with failing files,
    restarts and power cuts. *)

From S2P Require Import Prelude Json Threads Bitcoin LnPay.

Section once.
Context `{PayEnv} `{LnNode}.

(** The outcome of a send is unknown: the payment may be on its way without
    ldk-node listing it. *)
Definition uncertain (s : Send) : Prop := sd_result s = inl PersistenceFailed.

(** By step [n] the phone's clock has shown [t] or later.  The clock may be set
    ahead and back. *)
Definition over (t : Z) (n : nat) : Prop := ∃ k, (k ≤ n)%nat ∧ t ≤ pay_now_secs k.

(** By step [n] the record of a send was allowed to go: the clock has shown its
    time to be over, or ldk-node was seen to list the payment. *)
Definition excused (s : Send) (n : nat) : Prop :=
  over (sd_expires s) n ∨ ∃ k, (sd_at s < k < n)%nat ∧ ldk_lists k (sd_id s) = true.

Definition not_resent (l : list Send) : Prop := ∀ l1 s2 l2 s1,
  l = l1 ++ s2 :: l2 → s1 ∈ l2 → sd_id s1 = sd_id s2 → uncertain s1 → excused s1 (sd_at s2).

Definition has (id : string) (e : Z) (f : File (gmap string Z)) : Prop :=
  match f with FMap m => m !! id = Some e | _ => False end.
Definition kept (id : string) (e : Z) (d : Disk (gmap string Z)) : Prop := has id e (shown d) ∧ Forall (has id e) (older d).

Record pay_inv (w : PayWorld) : Prop := {
  pi_known s : s ∈ pw_sends w → uncertain s →
    excused s (pw_asked w) ∨ kept (sd_id s) (sd_expires s) (pw_attempts w);
  pi_past s : s ∈ pw_sends w → (sd_at s < pw_asked w)%nat;
  pi_log : not_resent (pw_sends w);
}.

(** What the others leave alone while a call holds [id]. *)
Definition kept_for (id : string) (w w' : PayWorld) : Prop :=
  pw_in_flight w' !! id = pw_in_flight w !! id ∧ (∀ s, s ∈ pw_sends w' → sd_id s = id → s ∈ pw_sends w) ∧
  ∀ e, kept id e (pw_attempts w) → kept id e (pw_attempts w') ∨ over e (pw_asked w').

Definition moves (touches : nat → Prop) (w w' : PayWorld) : Prop :=
  (pay_inv w → pay_inv w') ∧ (pw_asked w ≤ pw_asked w')%nat ∧
  ∀ id j, touches j → pw_in_flight w !! id = Some j → kept_for id w w'.
Definition own_moves (i : nat) : relation PayWorld := moves (λ j, j ≠ i).
Definition other_moves (i : nat) : relation PayWorld := moves (λ j, j = i).

Lemma over_now n : over (pay_now_secs n) n.
Proof. by exists n. Qed.
Lemma over_later t m n : (m ≤ n)%nat → over t m → over t n.
Proof. intros Hmn (k & Hk & Ht). exists k. split; [lia|done]. Qed.
Lemma over_le t t' n : t ≤ t' → over t' n → over t n.
Proof. intros Hle (k & Hk & Ht). exists k. split; [done|lia]. Qed.

Lemma excused_later s m n : (m ≤ n)%nat → excused s m → excused s n.
Proof. intros Hmn [Ht|(k & Hk & Hl)]; [left; by eapply over_later|right; exists k; split; [lia|done]]. Qed.

Lemma kept_for_refl id w : kept_for id w w.
Proof. split_and!; auto. Qed.

Lemma moves_refl T : reflexive _ (moves T).
Proof. intros w. split_and!; [done|done|]. intros. apply kept_for_refl. Qed.

Lemma moves_trans T : transitive _ (moves T).
Proof.
  intros w1 w2 w3 (Hi & Ha & Hk) (Hi' & Ha' & Hk'). split_and!; [auto|lia|]. intros id j Hj Hf.
  destruct (Hk id j Hj Hf) as (E & Hs & He). assert (Hf' : pw_in_flight w2 !! id = Some j) by congruence.
  destruct (Hk' id j Hj Hf') as (E' & Hs' & He'). split_and!; [congruence|by auto|].
  intros e [Hx|Hx]%He; [by apply He'|]. right. by eapply over_later.
Qed.

Lemma own_is_other i j w w' : i ≠ j → own_moves i w w' → other_moves j w w'.
Proof. intros Hne (Hi & Ha & Hk). split_and!; [done|done|]. intros id ? -> Hf. by eapply Hk. Qed.

(** *** Steps *)

(** Steps that only look, or write notes. *)
Definition quiet_step (w w' : PayWorld) : Prop :=
  pw_attempts w' = pw_attempts w ∧ pw_in_flight w' = pw_in_flight w ∧ pw_sends w' = pw_sends w ∧
  (pw_asked w ≤ pw_asked w')%nat.

Lemma quiet_inv w w' : quiet_step w w' → pay_inv w → pay_inv w'.
Proof.
  intros (Ea & Ef & Es & Hn) [Hk Hp Hl]. split; rewrite ?Es, ?Ea.
  - intros s Hs Hu. destruct (Hk s Hs Hu); [left; by eapply excused_later|by right].
  - intros s Hs. specialize (Hp s Hs). lia.
  - done.
Qed.

Lemma quiet_moves T w w' : quiet_step w w' → moves T w w'.
Proof.
  intros Hq. split; [by apply quiet_inv|]. destruct Hq as (Ea & Ef & Es & Hn). split; [done|]. intros id j _ _.
  unfold kept_for. rewrite Ea, Ef, Es. auto.
Qed.

Lemma quiet_tick w : quiet_step w (tick_pay w).
Proof. split_and!; simpl; auto. Qed.

(** A change of the attempts, of no record of a call's but its own [id]. *)
Lemma attempts_moves i id d w w' :
  pw_attempts w' = d → pw_in_flight w' = pw_in_flight w → pw_sends w' = pw_sends w → pw_asked w' = S (pw_asked w) →
  pw_in_flight w !! id = Some i →
  (∀ id' e, id' ≠ id → kept id' e (pw_attempts w) → kept id' e d ∨ over e (pw_asked w)) →
  (∀ s, s ∈ pw_sends w → sd_id s = id → uncertain s → excused s (pw_asked w) ∨ kept id (sd_expires s) d) →
  own_moves i w w'.
Proof.
  intros Ea Ef Es En Hown Hother Hid. assert (Hle : (pw_asked w ≤ pw_asked w')%nat) by lia. split_and!; [|done|].
  - intros [Hk Hp Hl]. split; rewrite ?Es, ?Ea; [| |done].
    + intros s Hs Hu. destruct (decide (sd_id s = id)) as [E|E].
      * rewrite E. destruct (Hid s Hs E Hu); [left; by eapply excused_later|by right].
      * destruct (Hk s Hs Hu) as [Hx|Hx]; [left; by eapply excused_later|].
        destruct (Hother _ _ E Hx) as [?|?]; [by right|left; left]. by eapply over_later.
    + intros s Hs. specialize (Hp s Hs). lia.
  - intros id' j Hj Hf. unfold kept_for. rewrite Ef, Es. split_and!; [done|auto|]. intros e Hk. rewrite Ea.
    assert (Hne : id' ≠ id) by (intros ->; congruence). destruct (Hother _ _ Hne Hk) as [?|?]; [by left|right].
    by eapply over_later.
Qed.

(** The new file has the records of the old one that [f] and their time
    leave. *)
Lemma write_keeps id e now m d r d' o :
  write_atomic o (filter (λ x : string * Z, now < snd x) m) d = (r, d') → kept id e d → m !! id = Some e →
  kept id e d' ∨ e ≤ now.
Proof.
  intros Hw [Hs Ho] Hm. destruct (decide (now < e)) as [Hlt|]; [|right; lia]. left.
  assert (Hn : filter (λ x : string * Z, now < snd x) m !! id = Some e) by (by apply map_lookup_filter_Some).
  destruct o; simpl in Hw; injection Hw as <- <-; split; simpl; auto.
Qed.

Lemma read_shown a f k : attempts_read k f = Ok a → f = FMap a ∨ (f = FMissing ∧ a = ∅).
Proof. unfold attempts_read, read_file. destruct k, f; simpl; try done; intros [= <-]; auto. Qed.

(** *** What a call knows while it holds [id] *)

(** [eo] is the expiry of a send of its own whose outcome is unknown. *)
Record mine (i : nat) (id : string) (now : Z) (eo : option Z) (w : PayWorld) : Prop := {
  mi_inv : pay_inv w;
  mi_held : pw_in_flight w !! id = Some i;
  mi_now : over now (pw_asked w);
  mi_free s : s ∈ pw_sends w → sd_id s = id → uncertain s → excused s (pw_asked w) ∨ eo = Some (sd_expires s);
}.
Definition recorded (id : string) (e : Z) (w : PayWorld) : Prop :=
  kept id e (pw_attempts w) ∨ over e (pw_asked w).

Lemma mine_stable i id now eo w w' : other_moves i w w' → mine i id now eo w → mine i id now eo w'.
Proof.
  intros (Hi & Ha & Hk) [Hinv Hh Hn Hf]. destruct (Hk id i eq_refl Hh) as (E & Hs & He).
  split; [auto|congruence|by eapply over_later|].
  intros s Hin Hid Hu. destruct (Hf s) as [Hx|Hx]; [auto..| |by right]. left. by eapply excused_later.
Qed.

Lemma recorded_stable i id now eo e w w' :
  other_moves i w w' → mine i id now eo w → recorded id e w → recorded id e w'.
Proof.
  intros (Hi & Ha & Hk) [Hinv Hh Hn Hf]. destruct (Hk id i eq_refl Hh) as (_ & _ & He).
  intros [Hx|Hx]; [by apply He|right]. by eapply over_later.
Qed.

Lemma mine_quiet i id now eo w w' : quiet_step w w' → mine i id now eo w → mine i id now eo w'.
Proof.
  intros Hq [Hinv Hh Hn Hf]. pose proof (quiet_inv _ _ Hq Hinv). destruct Hq as (Ea & Ef & Es & Hle).
  split; [done|congruence|by eapply over_later|]. rewrite Es. intros s Hin Hid Hu.
  destruct (Hf s) as [Hx|Hx]; [auto..| |by right]. left. by eapply excused_later.
Qed.

Lemma recorded_quiet id e w w' : quiet_step w w' → recorded id e w → recorded id e w'.
Proof.
  intros (Ea & Ef & Es & Hle) [Hx|Hx]; [left; by rewrite Ea|right]. by eapply over_later.
Qed.

Definition prg (i : nat) {A} (m : Pay A) (w : PayWorld) (Q : result LnError A → PayWorld → Prop) : Prop :=
  rg (other_moves i) (own_moves i) m w Q.

Lemma prg_bind {A B} i (m : Pay A) (f : A → Pay B) w (Q : result LnError B → PayWorld → Prop) :
  prg i m w (λ r w', match r with Ok a => prg i (f a) w' Q | Err e => Q (Err e) w' | Panic => Q Panic w' end) →
  prg i (m ≫= f) w Q.
Proof. intros Hm. apply rg_bind. eapply rg_mono; [|exact Hm]. by intros [a|e|] w'. Qed.

Lemma prg_attempt {A} i (m : Pay A) w (Q : result LnError (result LnError A) → PayWorld → Prop) :
  prg i m w (λ r w', match r with Panic => Q Panic w' | r => Q (Ok r) w' end) → prg i (pay_attempt m) w Q.
Proof. intros Hm. apply rg_bind. eapply rg_mono; [|exact Hm]. by intros [a|e|] w'. Qed.

(** A part that only looks keeps what the call knows. *)
Lemma prg_quiet {A} i (m : Pay A) w (I : PayWorld → Prop) :
  (∀ w w', other_moves i w w' → I w → I w') → (∀ w w', quiet_step w w' → I w → I w') →
  always quiet_step m (λ _, True) → I w → prg i m w (λ _ w', I w').
Proof.
  intros HR HG Hm Hw. eapply rg_weaken; [|eapply rg_mono; [|by eapply always_keeps]]; [apply quiet_moves|by intros a w' [_ ?]].
Qed.

Lemma update_spec i id now eo f w :
  mine i id now eo w → (∀ m id', id' ≠ id → f m !! id' = m !! id') → (∀ e m, eo = Some e → f m !! id = Some e) →
  prg i (attempts_update now f) w (λ r w', mine i id now eo w' ∧
    ∀ e, (∀ m, f m !! id = Some e) → r = Ok (Ok tt) → recorded id e w').
Proof.
  intros Hm Hf Hfe. apply rg_atomically. intros w1 Hw. apply (mine_stable _ _ _ _ _ _ Hw) in Hm. clear w Hw.
  destruct (attempts_read _ _) as [a|k|] eqn:Er; simpl.
  2:{ split; [apply quiet_moves, quiet_tick|split; [eapply mine_quiet; [apply quiet_tick|done]|done]]. }
  2:{ split; [apply quiet_moves, quiet_tick|split; [eapply mine_quiet; [apply quiet_tick|done]|done]]. }
  destruct (write_atomic _ _ _) as [r d] eqn:Ew. simpl. set (w2 := set_attempts (tick_pay w1) d).
  assert (Hshown : ∀ id' e, kept id' e (pw_attempts w1) → a !! id' = Some e).
  { intros id' e [Hs _]. apply read_shown in Er as [Er|[Er _]]; by rewrite Er in Hs. }
  assert (Hmove : own_moves i w1 w2).
  { eapply (attempts_moves i id d); try done; [apply Hm| |].
    - intros id' e Hne Hk. destruct (write_keeps id' e now (f a) _ _ _ _ Ew Hk) as [?|?]; [|by left|right].
      + rewrite Hf by done. by apply Hshown.
      + eapply over_le; [done|apply Hm].
    - intros s Hin Hid Hu. destruct (mi_free _ _ _ _ _ Hm s Hin Hid Hu) as [?|He]; [by left|].
      destruct (pi_known _ (mi_inv _ _ _ _ _ Hm) s Hin Hu) as [?|Hk]; [by left|]. rewrite Hid in Hk.
      destruct (write_keeps id (sd_expires s) now (f a) _ _ _ _ Ew Hk) as [?|?]; [by apply Hfe|by right|].
      left. left. eapply over_le; [done|apply Hm]. }
  split; [done|]. split.
  - destruct Hm as [Hi Hh Hn Hfr]. split; [by apply Hmove|done| |].
    + eapply over_later, Hn. simpl. lia.
    + simpl. intros s Hin Hid Hu. destruct (Hfr s Hin Hid Hu) as [?|?]; [left|by right]. by eapply excused_later; [|done]; lia.
  - intros e He [= ->]. unfold recorded. simpl. destruct (write_outcome _); simpl in Ew; try done. injection Ew as <-.
    destruct (decide (now < e)) as [Hlt|].
    + left. split; [|constructor]. simpl. by apply map_lookup_filter_Some.
    + right. eapply (over_later _ (pw_asked w1)); [lia|]. eapply over_le, Hm. lia.
Qed.

(** *** The send *)
Record holding (i : nat) (id : string) (now : Z) (w : PayWorld) : Prop := {
  ho_inv : pay_inv w;
  ho_held : pw_in_flight w !! id = Some i;
  ho_now : over now (pw_asked w);
}.
Lemma mine_holding i id now eo w : mine i id now eo w → holding i id now w.
Proof. intros [? ? ? _]. by split. Qed.

Lemma holding_stable i id now w w' : other_moves i w w' → holding i id now w → holding i id now w'.
Proof.
  intros (Hi & Ha & Hk) [Hinv Hh Hn]. destruct (Hk id i eq_refl Hh) as (E & _ & _).
  split; [auto|congruence|by eapply over_later].
Qed.
Lemma holding_quiet i id now w w' : quiet_step w w' → holding i id now w → holding i id now w'.
Proof.
  intros Hq [Hinv Hh Hn]. pose proof (quiet_inv _ _ Hq Hinv). destruct Hq as (Ea & Ef & Es & Hle).
  split; [done|congruence|by eapply over_later].
Qed.

(** What the record says is what the sends of [id] may need. *)
Lemma load_spec i id now w :
  holding i id now w →
  prg i attempts_load w (λ r w', holding i id now w' ∧ ∃ x, r = Ok x ∧ ∀ a, x = Ok a → mine i id now (a !! id) w').
Proof.
  intros Hm. apply rg_atomically. intros w1 Hw. apply (holding_stable _ _ _ _ _ Hw) in Hm. clear w Hw.
  split; [apply quiet_moves, quiet_tick|]. cbn [fst snd]. split; [eapply holding_quiet; [apply quiet_tick|done]|].
  eexists. split; [done|]. intros a Er. eapply mine_quiet; [apply quiet_tick|]. destruct Hm as [Hi Hh Hn]. split; [done..|].
  intros s Hin Hid Hu. destruct (pi_known _ Hi s Hin Hu) as [?|[Hk _]]; [by left|right]. rewrite Hid in Hk.
  apply read_shown in Er as [Er|[Er _]]; by rewrite Er in Hk.
Qed.

Lemma listed_spec i id now e w :
  mine i id now (Some e) w →
  prg i (pay_ask (λ n, ldk_lists n id)) w (λ r w', ∃ b, r = Ok b ∧ mine i id now (if (b : bool) then None else Some e) w').
Proof.
  intros Hm. apply rg_atomically. intros w1 Hw. apply (mine_stable _ _ _ _ _ _ Hw) in Hm. clear w Hw.
  split; [apply quiet_moves, quiet_tick|]. cbn [fst snd asked tick PayWorld_asks]. eexists. split; [done|].
  pose proof (mine_quiet _ _ _ _ _ _ (quiet_tick w1) Hm) as Hm'. destruct (ldk_lists (pw_asked w1) id) eqn:El; [|done].
  destruct Hm' as [Hi Hh Hn Hf]. split; [done..|]. simpl in *. intros s Hin Hid Hu. left. right. exists (pw_asked w1).
  pose proof (pi_past _ (mi_inv _ _ _ _ _ Hm) s Hin). rewrite Hid. split; [lia|done].
Qed.

Lemma expired_mine i id now e w : mine i id now (Some e) w → e ≤ now → mine i id now None w.
Proof.
  intros [Hi Hh Hn Hf] He. split; [done..|]. intros s Hin Hid Hu.
  destruct (Hf s Hin Hid Hu) as [?|[= ->]]; [by left|left; left; by eapply over_le].
Qed.

Lemma delete_spec i id now w :
  mine i id now None w → prg i (attempts_update now (delete id)) w (λ _ w', mine i id now None w').
Proof.
  intros Hm. eapply rg_mono; [|by apply update_spec; [|intros; by rewrite lookup_delete_ne|]]. by intros r w' [? _].
Qed.

Lemma check_attempt_spec i id now w :
  holding i id now w →
  prg i (check_attempt id now) w (λ r w', holding i id now w' ∧ (r = Ok tt → mine i id now None w')).
Proof.
  intros Hm. apply prg_bind. eapply rg_mono; [|by apply load_spec]. intros ? w1 (Hh & x & -> & Hx).
  destruct x as [a|k|]; [|by split..]. specialize (Hx a eq_refl). destruct (a !! id) as [e|]; [|by split].
  apply prg_bind. destruct (Z.ltb_spec now e) as [Hlt|Hle]; cbn [andb].
  - eapply rg_mono; [|by apply listed_spec]. intros ? w2 (b & -> & Hb). pose proof (mine_holding _ _ _ _ _ Hb).
    destruct b; cbn [negb]; [|by split]. apply prg_bind. eapply rg_mono; [|by apply delete_spec].
    intros [?|?|] w3 Hw3; pose proof (mine_holding _ _ _ _ _ Hw3); by split.
  - apply prg_bind. apply expired_mine in Hx; [|done]. eapply rg_mono; [|by apply delete_spec].
    intros [?|?|] w3 Hw3; pose proof (mine_holding _ _ _ _ _ Hw3); by split.
Qed.

Lemma do_send_spec i id now e inv amount w :
  mine i id now None w → recorded id e w →
  prg i (do_send id e inv amount) w (λ r w', ∃ x, r = Ok x ∧
    mine i id now (match x with inl PersistenceFailed => Some e | _ => None end) w').
Proof.
  intros Hm Hr. apply rg_atomically. intros w1 Hw. apply (recorded_stable _ _ _ _ _ _ _ Hw Hm) in Hr.
  apply (mine_stable _ _ _ _ _ _ Hw) in Hm. clear w Hw. cbn [fst snd]. set (r := ldk_send _ _ _).
  set (s := {| sd_id := id; sd_expires := e; sd_at := pw_asked w1; sd_result := r |}).
  destruct Hm as [Hi Hh Hn Hf].
  assert (Hinv : pay_inv (add_send (tick_pay w1) s)).
  { destruct Hi as [Hk Hp Hl]. split; simpl.
    - intros x [->|Hx]%elem_of_cons Hu; simpl.
      + destruct Hr as [?|Hr]; [by right|left; left; eapply over_later, Hr; simpl; lia].
      + destruct (Hk x Hx Hu); [left; eapply excused_later; [|done]; lia|by right].
    - intros x [->|Hx]%elem_of_cons; simpl; [lia|]. specialize (Hp x Hx). lia.
    - intros [|y l1] s2 l2 s1 E Hin Hid Hu; injection E as E1 E2; [|by eapply Hl].
      subst s2 l2. by destruct (Hf s1 Hin Hid Hu) as [?|?]. }
  split.
  - split_and!; [done|simpl; lia|]. intros id' j Hj Hfl. split_and!; [done| |by left].
    simpl. intros x [->|Hx]%elem_of_cons Hid; [|done]. simpl in Hid. congruence.
  - eexists. split; [done|]. split; [done|done|eapply over_later, Hn; simpl; lia|]. simpl. intros x [->|Hx]%elem_of_cons Hid Hu.
    + right. unfold uncertain, s in Hu. simpl in Hu. by rewrite Hu.
    + left. destruct (Hf x Hx Hid Hu) as [?|?]; [|done]. eapply excused_later; [|done]. lia.
Qed.

Lemma send_recorded_spec i id now e inv amount w :
  mine i id now None w → prg i (send_recorded id e now inv amount) w (λ _ w', holding i id now w').
Proof.
  intros Hm. apply prg_bind. eapply rg_mono; [|apply update_spec; [done|intros; by rewrite lookup_insert_ne|done]].
  intros [u|?|] w1 [Hm1 Hr]; [|by eapply mine_holding..]. specialize (Hr e (λ m, lookup_insert_eq m id e)).
  apply prg_bind. destruct u as [[]|[]|]; try (by eapply mine_holding). specialize (Hr eq_refl).
  apply prg_bind. eapply rg_mono; [|by apply do_send_spec]. intros ? w2 (x & -> & Hx).
  assert (Hd : mine i id now None w2 → prg i (_ ← attempts_update now (delete id); mret tt) w2
    (λ r w', match r with
             | Ok _ => prg i (pay_lift match x with inr p => Ok p | inl e => Err (map_send_error e) end) w' (λ _ w', holding i id now w')
             | _ => holding i id now w' end)).
  { intros Hn. apply prg_bind. eapply rg_mono; [|by apply delete_spec]. intros [?|?|] w3 Hw3; by eapply mine_holding. }
  apply prg_bind. destruct x as [[]|p]; try (by apply Hd); [|by eapply mine_holding].
  apply prg_bind. eapply rg_mono; [|eapply prg_quiet with (I := mine i id now (Some e))];
    [|intros; by eapply mine_stable|intros; by eapply mine_quiet|by intros w3; split; [apply quiet_tick|]|done].
  intros [a|?|] w3 Hw3; [|by eapply mine_holding..]. case_decide; [by eapply mine_holding|].
  apply prg_bind. eapply rg_mono; [|apply update_spec; [exact Hw3|intros; by rewrite lookup_insert_ne|]].
  - intros [?|?|] w4 [Hw4 _]; by eapply mine_holding.
  - intros e' m [= ->]. by rewrite lookup_insert_eq.
Qed.

(** *** A call of [pay] *)
Definition quiet {A} (m : Pay A) : Prop := always quiet_step m (λ _, True).

Lemma quiet_bind {A B} (m : Pay A) (f : A → Pay B) : quiet m → (∀ a, quiet (f a)) → quiet (m ≫= f).
Proof. intros Hm Hf. apply always_bind. eapply always_mono; [|exact Hm]. intros [a|e|] _; [apply Hf|done..]. Qed.
Lemma quiet_lift {A} (r : result LnError A) : quiet (pay_lift r).
Proof. done. Qed.
Lemma quiet_ret {A} (a : A) : quiet (mret a).
Proof. done. Qed.
Lemma quiet_ask {A} (f : nat → A) : quiet (pay_ask f).
Proof. intros w. split; [apply quiet_tick|done]. Qed.
Lemma quiet_notes f : quiet (notes_update f).
Proof. intros w. split; [|done]. split_and!; simpl; auto. Qed.

Create HintDb quiet.
Hint Resolve quiet_lift quiet_ret quiet_ask quiet_notes : quiet.
Ltac quiet_walk := repeat first [ solve [auto with quiet nocore] | apply quiet_bind; [|intros ?] | case_match ].

Lemma quiet_note id d : quiet (note_description id d).
Proof. unfold note_description. quiet_walk. Qed.
Lemma quiet_gate amount : quiet (liquidity_and_gate amount).
Proof. unfold liquidity_and_gate. quiet_walk. Qed.
Lemma quiet_exit mode : quiet (exit_gate mode).
Proof. unfold exit_gate. apply quiet_bind; [case_decide; [apply quiet_ask|apply quiet_ret]|done]. Qed.
Lemma quiet_check_bolt11 inv amount d : quiet (check_bolt11 inv amount d).
Proof. unfold check_bolt11. quiet_walk. Qed.
Lemma quiet_check_offer s amount : quiet (check_offer s amount).
Proof. unfold check_offer. quiet_walk. Qed.
Hint Resolve quiet_note quiet_gate quiet_exit quiet_check_bolt11 quiet_check_offer : quiet.

Lemma quiet_prepare target amount : quiet (prepare target amount).
Proof. induction target as [| | | | |? ? inner IH]; cbn [prepare]; [quiet_walk..|]. by destruct inner. Qed.

Lemma prg_quiet_inv {A} i (m : Pay A) w : quiet m → pay_inv w → prg i m w (λ _ w', pay_inv w').
Proof. intros Hm. by apply prg_quiet; [intros ? ? [? _]; auto|apply quiet_inv|]. Qed.

Lemma claim_spec i id now w :
  pay_inv w → over now (pw_asked w) →
  prg i (claim i id) w (λ r w', pay_inv w' ∧ (r = Ok tt → holding i id now w')).
Proof.
  intros Hw Hnow. apply rg_atomically. intros w1 (Hi & Ha & _). specialize (Hi Hw). unfold claim.
  pose proof (quiet_inv _ _ (quiet_tick w1) Hi) as Hi'.
  destruct (pw_in_flight w1 !! id) as [j|] eqn:Ef; cbn [fst snd]; [split; [apply quiet_moves, quiet_tick|done]|].
  assert (Hj : pay_inv (set_in_flight (tick_pay w1) (<[id := i]> (pw_in_flight w1)))) by (destruct Hi'; by split).
  split; [|split; [done|]].
  - split_and!; [done|simpl; lia|]. intros id' j Hne Hj'. split_and!; [|done|by left]. simpl.
    apply lookup_insert_ne. congruence.
  - intros _. split; [done|apply lookup_insert_eq|]. eapply over_later, Hnow. simpl. lia.
Qed.

Lemma release_spec i id now w : holding i id now w → prg i (release id) w (λ _ w', pay_inv w').
Proof.
  intros Hw. apply rg_atomically. intros w1 Hm. pose proof (holding_stable _ _ _ _ _ Hm Hw) as [Hi Hh _]. cbn [fst snd].
  pose proof (quiet_inv _ _ (quiet_tick w1) Hi) as Hi'.
  assert (Hj : pay_inv (set_in_flight (tick_pay w1) (delete id (pw_in_flight w1)))) by (destruct Hi'; by split).
  split; [|done]. split_and!; [done|simpl; lia|]. intros id' j Hne Hj'. split_and!; [|done|by left]. simpl.
  apply lookup_delete_ne. congruence.
Qed.

Lemma guarded_spec i id e now gate inv amount w :
  quiet gate → pay_inv w → over now (pw_asked w) →
  prg i (guarded_bolt11 i id e now gate inv amount) w (λ _ w', pay_inv w').
Proof.
  intros Hg Hw Hnow. apply prg_bind. eapply rg_mono; [|by apply claim_spec]. intros [[]|?|] w1 [Hw1 Hh]; [|done..].
  specialize (Hh eq_refl). apply prg_bind, prg_attempt.
  assert (Hend : ∀ r w', holding i id now w' → prg i (_ ← release id; pay_lift (A := string) r) w' (λ _ w', pay_inv w')).
  { intros r w' Hw'. apply prg_bind. eapply rg_mono; [|by eapply release_spec]. by intros [?|?|] w2 ?. }
  eapply (rg_mono _ _ _ _ (λ _ w', holding i id now w')).
  { intros [?|?|] w' Hw'; [by apply Hend..|by apply ho_inv in Hw']. }
  apply prg_bind. eapply rg_mono; [|by apply check_attempt_spec]. intros [[]|?|] w2 [Hw2 Hm]; [|done..].
  specialize (Hm eq_refl). apply prg_bind.
  eapply rg_mono; [|eapply prg_quiet with (I := mine i id now None);
    [intros; by eapply mine_stable|intros; by eapply mine_quiet|exact Hg|done]].
  intros [?|?|] w3 Hw3; [by apply send_recorded_spec|by eapply mine_holding..].
Qed.

Lemma pay_spec i target amount w : pay_inv w → prg i (pay i target amount) w (λ _ w', pay_inv w').
Proof.
  intros Hw.
  assert (Hq : ∀ A B (m : Pay A) (f : A → Pay B) w, quiet m → pay_inv w → (∀ a w', pay_inv w' → prg i (f a) w' (λ _ w', pay_inv w')) →
    prg i (m ≫= f) w (λ _ w', pay_inv w')).
  { intros A B m f w' Hm Hw' Hf. apply prg_bind. eapply rg_mono; [|by apply prg_quiet_inv].
    intros [a|?|] w2 Hw2; [by apply Hf|done..]. }
  unfold pay. apply Hq; [apply quiet_ask|done|]. intros r w1 Hw1.
  apply Hq; [case_match; [apply quiet_exit|apply quiet_ret]|done|]. intros _ w2 Hw2.
  apply Hq; [apply quiet_prepare|done|]. intros prepared w3 Hw3.
  apply Hq; [apply quiet_ask|done|]. intros r' w4 Hw4. apply Hq; [apply quiet_lift|done|]. intros _ w5 Hw5. cbv zeta.
  destruct prepared as [inv ov a d|offer ov a d].
  - apply prg_bind. apply rg_atomically. intros w6 Hw6. split; [apply quiet_moves, quiet_tick|]. cbn [fst snd].
    assert (Hi : pay_inv (tick_pay w6)) by (eapply quiet_inv; [apply quiet_tick|by apply Hw6]).
    apply prg_bind, prg_attempt.
    eapply rg_mono; [|apply guarded_spec; [apply quiet_gate|exact Hi|]]; [|eapply over_later, over_now; simpl; lia].
    assert (Hn : ∀ (r : result LnError string) w', pay_inv w' → prg i (_ ← match r with
        | Ok _ | Err PaymentStateUnknown => note_description (inv_id inv) d | _ => mret tt end; pay_lift r) w' (λ _ w', pay_inv w')).
    { intros x w' Hw'. apply Hq; [|done|done]. repeat case_match; try apply quiet_ret; apply quiet_note. }
    intros [x|x|] w7 Hw7; [by apply (Hn (Ok x))|by apply (Hn (Err x))|done].
  - apply Hq; [apply quiet_gate|done|]. intros _ w6 Hw6. apply Hq; [apply quiet_ask|done|]. intros x w7 Hw7.
    apply Hq; [apply quiet_lift|done|]. intros y w8 Hw8. apply Hq; [apply quiet_note|done|]. done.
Qed.

(** ** Runs *)
Definition pay_job (i : nat) (p : Pay string) : Prop := ∃ target amount, p = pay i target amount.

(** The process stops; or the power goes, and of each file what was not made
    durable may be there or not. *)
Definition restarts (w w' : PayWorld) : Prop :=
  pw_in_flight w' = ∅ ∧ (pw_asked w ≤ pw_asked w')%nat ∧ pw_sends w' = pw_sends w ∧
  (pw_attempts w' = pw_attempts w ∨
   ∃ f, f ∈ shown (pw_attempts w) :: older (pw_attempts w) ∧ pw_attempts w' = {| shown := f; older := [] |}).

Lemma restart_inv w w' : pay_inv w → restarts w w' → pay_inv w'.
Proof.
  intros [Hk Hp Hl] (_ & Ha & Es & Hd). split; rewrite ?Es; [| |done].
  - intros s Hs Hu. destruct (Hk s Hs Hu) as [Hx|Hx]; [left; by eapply excused_later|right].
    destruct Hd as [->|(f & Hf & ->)]; [done|]. split; simpl; [|constructor]. destruct Hx as [Hx Ho].
    apply elem_of_cons in Hf as [->|Hf]; [done|]. rewrite Forall_forall in Ho. by apply Ho.
  - intros s Hs. specialize (Hp s Hs). lia.
Qed.

(** C27. An invoice whose payment may be under way is not paid again.  With
    any number of calls at once, files that cannot be read or written, calls
    cut off anywhere, restarts and power cuts, and whatever the phone's clock
    does: when ldk-node is handed a payment hash whose earlier send ended with
    an unknown outcome, then either the clock has by then shown the recorded
    time of that send or a later one, or ldk-node was seen to list the payment
    after it.  (A clock set ahead and back again can so end a record early;
    with one that is never set back the recorded time is over.) *)
Theorem unknown_payment_not_resent attempts notes ps w l1 s2 l2 s1 :
  crew_reach pay_job restarts (pay_start attempts notes) ps w →
  pw_sends w = l1 ++ s2 :: l2 → s1 ∈ l2 → sd_id s1 = sd_id s2 → uncertain s1 → excused s1 (sd_at s2).
Proof.
  intros Hr. cut (pay_inv w); [intros Hi; apply (pi_log _ Hi)|].
  apply (crew_invariant pay_job restarts pay_inv other_moves own_moves (pay_start attempts notes) ps w); try done.
  - intros i. apply moves_refl.
  - intros i. apply moves_trans.
  - intros i j v v'. apply own_is_other.
  - intros i v v' Hv (Hi & _). auto.
  - intros i p v (target & amount & ->) Hv. eapply rg_mono; [|by apply pay_spec]. done.
  - apply restart_inv.
  - split; simpl; [by intros s ?%elem_of_nil..|]. intros k1 t2 k2 t1 Ek. by destruct k1.
Qed.
End once.
