(* ===== verification/LnLock.v ===== *)
(** One active phone per wallet: the lock record in the wallet's remote store
    ([fortis-lightning/src/device.rs]).

    The store keeps the record with a version and writes it only on top of the
    version the writer names.  A request may not arrive, or its answer may be
    lost after it took effect. *)

From S2P Require Import Prelude Json Threads Bitcoin LnPay.

(** ** Device ids and the record *)
Record LockRecord : Type := { lr_device : bytes; lr_since : Z }.
Record LockHeld : Type := { lh_version : Z; lh_since : Z }.

(** [serde_json]: printing a value and reading bytes. *)
Class JsonText : Type := {
  json_print : Value → bytes;
  json_parse : bytes → option Value;
}.

Section records.
Context `{BitcoinLib} `{JsonText}.

Definition is_lower_hex (a : Ascii.ascii) : bool := between 48 57 a || between 97 102 a.

Definition device_from_hex (s : string) : option bytes :=
  if negb (Nat.eqb (String.length s) 32) || negb (all_chars is_lower_hex s) then None
  else b ← hex_decode s; if Nat.eqb (length b) 16 then Some b else None.

Definition lock_encode (r : LockRecord) : bytes :=
  json_print (VObj [("device_id", VStr (hex_encode (lr_device r))); ("since", VNum (lr_since r))]).

Definition lock_decode (b : bytes) : option LockRecord :=
  v ← json_parse b;
  d ← vget "device_id" v; d ← as_string d; d ← device_from_hex d;
  since ← vget "since" v; since ← as_u64 since;
  Some {| lr_device := d; lr_since := since |}.

(** The id in its file, made on first use; [random] and [written] are what the
    random source and the write of the file answer. *)
Definition load_or_create_device_id (file : result IoKind (option string)) (random : string + bytes)
    (written : bytes → result IoKind unit) (io_display : IoKind → string) : result LnError bytes :=
  match file with
  | Ok (Some s) => ok_or (device_from_hex s) (LnOther "device_id_corrupt")
  | Ok None =>
      b ← match random with inr b => Ok b | inl e => Err (LnOther ("device id: " +:+ e)) end;
      match written (String.list_byte_of_string (hex_encode b)) with
      | Ok _ => Ok b
      | Err k => Err (LnOther ("device id: " +:+ io_display k))
      | Panic => Panic
      end
  | Err k => Err (LnOther ("device id: " +:+ io_display k))
  | Panic => Panic
  end.
End records.

(** ** The store *)
Inductive StoreError : Type := Conflict | Unavailable.

(** Version 0 writes only where there is nothing, and starts at 1; version [n]
    only on top of [n]. *)
Definition store_put (value : bytes) (version : Z) (s : option (bytes * Z)) : option (option (bytes * Z)) :=
  match s with
  | None => if version =? 0 then Some (Some (value, 1)) else None
  | Some (_, v) => if (0 <? version) && (version =? v) then Some (Some (value, v + 1)) else None
  end.
Definition store_delete (version : Z) (s : option (bytes * Z)) : option (option (bytes * Z)) :=
  match s with
  | Some (_, v) => if version =? v then Some None else None
  | None => None
  end.

Inductive Delivery : Type := Answered | NotDelivered | AnswerLost.
Class Link : Type := { delivery : nat → Delivery; other_keys : nat → bool }.

Record LockWorld : Type := { lk_store : option (bytes * Z); lk_asked : nat }.
Definition lock_step (w : LockWorld) (s : option (bytes * Z)) : LockWorld := {| lk_store := s; lk_asked := S (lk_asked w) |}.

Notation Lock := (Ln LockWorld).

Section locks.
Context `{BitcoinLib} `{JsonText} `{Link}.

Definition vss_get : Lock (result StoreError (option (bytes * Z))) := atomically (λ w,
  (Ok match delivery (lk_asked w) with Answered => Ok (lk_store w) | _ => Err Unavailable end, lock_step w (lk_store w))).

(** A conditional change of the record. *)
Definition vss_change (f : option (bytes * Z) → option (option (bytes * Z))) : Lock (result StoreError unit) := atomically (λ w,
  match delivery (lk_asked w), f (lk_store w) with
  | NotDelivered, _ => (Ok (Err Unavailable), lock_step w (lk_store w))
  | Answered, Some s => (Ok (Ok tt), lock_step w s)
  | Answered, None => (Ok (Err Conflict), lock_step w (lk_store w))
  | AnswerLost, Some s => (Ok (Err Unavailable), lock_step w s)
  | AnswerLost, None => (Ok (Err Unavailable), lock_step w (lk_store w))
  end).
Definition vss_put (value : bytes) (version : Z) : Lock (result StoreError unit) := vss_change (store_put value version).
Definition vss_delete (version : Z) : Lock (result StoreError unit) := vss_change (store_delete version).

(** ** The operations *)
Definition corrupt : LnError := LnOther "device_lock_corrupt".
Definition unavailable_if {A} (r : result StoreError A) : Lock A :=
  Done match r with Ok a => Ok a | Err _ => Err BackupUnavailable | Panic => Panic end.

Definition is_lost (e : LnError) : bool := bool_decide (e = ActiveOnAnotherDevice) || bool_decide (e = corrupt).

Fixpoint acquire_loop (tries : nat) (me : bytes) (now : Z) : Lock LockHeld :=
  match tries with
  | O => Done (Err ActiveOnAnotherDevice)
  | S tries =>
      g ← vss_get;
      s ← unavailable_if g;
      version ← match s with
                | None => mret 0
                | Some (b, v) =>
                    match lock_decode b with
                    | None => Done (Err corrupt)
                    | Some rec => if decide (lr_device rec = me) then mret v else Done (Err ActiveOnAnotherDevice)
                    end
                end;
      r ← vss_put (lock_encode {| lr_device := me; lr_since := now |}) version;
      match r with
      | Ok _ => mret {| lh_version := version + 1; lh_since := now |}
      | Err Conflict => acquire_loop tries me now
      | r => _ ← unavailable_if r; Done Panic
      end
  end.
Definition acquire (me : bytes) (now : Z) : Lock LockHeld := acquire_loop 2 me now.

Definition takeover (me : bytes) (now : Z) : Lock LockHeld :=
  g ← vss_get;
  s ← unavailable_if g;
  let version := from_option snd 0 s in
  r ← vss_put (lock_encode {| lr_device := me; lr_since := now |}) version;
  match r with
  | Ok _ => mret {| lh_version := version + 1; lh_since := now |}
  | Err Conflict => Done (Err ActiveOnAnotherDevice)
  | r => _ ← unavailable_if r; Done Panic
  end.

(** Answers with what is held afterwards, also when the check fails. *)
Definition refresh (me : bytes) (held : LockHeld) : Prog LockWorld (result LnError LockHeld * LockHeld) :=
  let rec := lock_encode {| lr_device := me; lr_since := lh_since held |} in
  prog_bind (vss_put rec (lh_version held)) (λ r,
  match r with
  | Ok (Ok _) => let h := {| lh_version := lh_version held + 1; lh_since := lh_since held |} in Done (Ok h, h)
  | Ok (Err Conflict) =>
      prog_bind vss_get (λ g,
      match g with
      | Ok (Ok None) => Done (Err ActiveOnAnotherDevice, held)
      | Ok (Ok (Some (b, v))) =>
          match lock_decode b with
          | None => Done (Err corrupt, held)
          | Some found =>
              if decide (lr_device found = me) then
                let held := {| lh_version := v; lh_since := lh_since held |} in
                prog_bind (vss_put rec v) (λ r,
                match r with
                | Ok (Ok _) => let h := {| lh_version := v + 1; lh_since := lh_since held |} in Done (Ok h, h)
                | Ok (Err Conflict) => Done (Err ActiveOnAnotherDevice, held)
                | Ok (Err Unavailable) => Done (Err BackupUnavailable, held)
                | _ => Done (Panic, held)
                end)
              else Done (Err ActiveOnAnotherDevice, held)
          end
      | Ok (Err _) => Done (Err BackupUnavailable, held)
      | _ => Done (Panic, held)
      end)
  | Ok (Err Unavailable) => Done (Err BackupUnavailable, held)
  | _ => Done (Panic, held)
  end).

Definition lock_release (held : LockHeld) : Lock unit :=
  r ← vss_delete (lh_version held);
  match r with
  | Ok _ | Err Conflict => mret tt
  | r => unavailable_if r
  end.

Definition state_exists : Lock bool :=
  r ← atomically (λ w, (Ok match delivery (lk_asked w) with Answered => Ok (other_keys (lk_asked w)) | _ => Err Unavailable end,
                        lock_step w (lk_store w)));
  unavailable_if r.

(** ** A holder that was replaced *)
Class LockText : Prop := {
  json_roundtrip d n : json_parse (json_print (VObj [("device_id", VStr d); ("since", VNum n)])) =
    Some (VObj [("device_id", VStr d); ("since", VNum n)]);
  hex_roundtrip b : hex_decode (hex_encode b) = Some b;
  hex_length b : String.length (hex_encode b) = (2 * length b)%nat;
  hex_lower b : all_chars is_lower_hex (hex_encode b) = true;
}.

Definition device_ok (r : LockRecord) : Prop := length (lr_device r) = 16%nat ∧ u64 (lr_since r).

Lemma lock_decode_encode `{!LockText} r : device_ok r → lock_decode (lock_encode r) = Some r.
Proof.
  intros [Hl Hs]. unfold lock_decode, lock_encode. rewrite json_roundtrip. cbn. unfold device_from_hex.
  rewrite hex_length, Hl, hex_lower, hex_roundtrip. cbn. rewrite Hl. cbn.
  rewrite (proj2 (try_from_Some u64_max (lr_since r) (lr_since r))) by done. by destruct r.
Qed.

(** What may come from elsewhere meanwhile: any write of another device, and
    late arrivals of this one's own earlier writes.  Nobody deletes. *)
Definition others_write (me : bytes) (held : LockHeld) (w w' : LockWorld) : Prop := ∃ r v,
  device_ok r ∧ (lr_device r ≠ me ∨ v ≤ lh_version held) ∧
  lk_store w' = default (lk_store w) (store_put (lock_encode r) v (lk_store w)).

Definition replaced (me : bytes) (held : LockHeld) (w : LockWorld) : Prop := ∃ r v,
  lk_store w = Some (lock_encode r, v) ∧ device_ok r ∧ lr_device r ≠ me ∧ lh_version held < v.

Lemma replaced_stable me held w w' : rtc (others_write me held) w w' → replaced me held w → replaced me held w'.
Proof.
  induction 1 as [|w w1 w' Hs _ IH]; [done|]. intros (r & v & Es & Hr & Hne & Hv). apply IH.
  destruct Hs as (r' & v' & Hr' & Hor & E). rewrite Es in E. simpl in E.
  destruct (Z.ltb_spec 0 v'), (Z.eqb_spec v' v) as [->|]; simpl in E; try (by exists r, v).
  exists r', (v + 1). split_and!; [done|done| |lia]. destruct Hor; [done|lia].
Qed.

(** C28. A phone whose lock was taken over does not go on.  Once another
    device's record with a later version is in the store, and as long as nobody
    deletes the record, the check before every payment and channel operation
    fails whatever else is written meanwhile, late arrivals of the phone's own
    earlier writes included, and whatever requests and answers are lost; and
    the check itself changes nothing in the store. *)
Theorem replaced_holder_refused `{!LockText} me held w :
  replaced me held w →
  rg (rtc (others_write me held)) (λ w w', lk_store w' = lk_store w) (refresh me held) w (λ x _, ∃ e, fst x = Err e).
Proof.
  intros Hw w1 Hm. apply (replaced_stable _ _ _ _ Hm) in Hw. clear w Hm. unfold vss_change.
  destruct Hw as (r & v & Es & Hr & Hne & Hv). rewrite Es.
  assert (Ep : ∀ rec, store_put rec (lh_version held) (Some (lock_encode r, v)) = None).
  { intros rec. simpl. destruct (Z.eqb_spec (lh_version held) v); [lia|]. by rewrite andb_false_r. }
  rewrite !Ep. destruct (delivery (lk_asked w1)); simpl; rewrite ?Es; (split; [done|]); [|by eexists..].
  intros w2 Hm. apply replaced_stable in Hm; [|by exists r, v]. destruct Hm as (r' & v' & Es' & Hr' & Hne' & Hv').
  split; [done|]. rewrite Es'. destruct (delivery (lk_asked w2)); simpl; [|by eexists..].
  rewrite lock_decode_encode by done. rewrite decide_False by done. by eexists.
Qed.

Section answered.
Hypothesis answered : ∀ k, delivery k = Answered.

Lemma run_acquire me t n : run_prog (acquire me t) {| lk_store := None; lk_asked := n |} =
  (Ok {| lh_version := 1; lh_since := t |},
   {| lk_store := Some (lock_encode {| lr_device := me; lr_since := t |}, 1); lk_asked := S (S n) |}).
Proof. unfold acquire. simpl. rewrite !answered. simpl. by rewrite !answered. Qed.

Lemma run_takeover me t x v n : 0 < v → run_prog (takeover me t) {| lk_store := Some (x, v); lk_asked := n |} =
  (Ok {| lh_version := v + 1; lh_since := t |},
   {| lk_store := Some (lock_encode {| lr_device := me; lr_since := t |}, v + 1); lk_asked := S (S n) |}).
Proof.
  intros Hv. unfold takeover. simpl. rewrite !answered. simpl. rewrite !answered.
  rewrite (proj2 (Z.ltb_lt 0 v)), Z.eqb_refl by done. done.
Qed.

Lemma run_release h x n : run_prog (lock_release h) {| lk_store := Some (x, lh_version h); lk_asked := n |} =
  (Ok tt, {| lk_store := None; lk_asked := S n |}).
Proof. unfold lock_release. simpl. rewrite !answered, Z.eqb_refl. done. Qed.

Lemma run_refresh me h x n : 0 < lh_version h →
  run_prog (refresh me h) {| lk_store := Some (x, lh_version h); lk_asked := n |} =
  (let h' := {| lh_version := lh_version h + 1; lh_since := lh_since h |} in (Ok h', h'),
   {| lk_store := Some (lock_encode {| lr_device := me; lr_since := lh_since h |}, lh_version h + 1); lk_asked := S n |}).
Proof. intros Hv. simpl. rewrite !answered, (proj2 (Z.ltb_lt 0 _)), Z.eqb_refl by done. done. Qed.
End answered.

(** Versions start again after a delete, so a phone that was replaced
    can get the lock back unnoticed.  [a] takes the lock; [b] takes it over,
    stops (which deletes the record) and starts again.  Its record has the
    version [a] still names: [a]'s next check passes and puts [a]'s record in
    place of [b]'s, while [b] has been told that it holds the lock. *)
Theorem lock_version_reused (a b : bytes) t1 t2 t3 n :
  (∀ k, delivery k = Answered) →
  let w0 := {| lk_store := None; lk_asked := n |} in
  let '(ra, w1) := run_prog (acquire a t1) w0 in
  let '(rb, w2) := run_prog (takeover b t2) w1 in
  ∃ ha hb, ra = Ok ha ∧ rb = Ok hb ∧
  let w3 := snd (run_prog (lock_release hb) w2) in
  let '(rb', w4) := run_prog (acquire b t3) w3 in
  (∃ hb', rb' = Ok hb' ∧ lk_store w4 = Some (lock_encode {| lr_device := b; lr_since := t3 |}, lh_version hb')) ∧
  let '(r, w5) := run_prog (refresh a ha) w4 in
  (∃ ha', fst r = Ok ha') ∧ fst <$> lk_store w5 = Some (lock_encode {| lr_device := a; lr_since := t1 |}).
Proof.
  intros Hd. cbv zeta. rewrite run_acquire by done. rewrite run_takeover by done. do 2 eexists. split; [done|]. split; [done|].
  rewrite (run_release Hd {| lh_version := 2; lh_since := t2 |}). cbn [snd]. rewrite run_acquire by done. split; [by eexists|].
  rewrite (run_refresh Hd a {| lh_version := 1; lh_since := t1 |}) by done. split; [by eexists|done].
Qed.
End locks.
