(* ===== verification/LnChannel.v ===== *)
(** Channels to the provider on the phone's node, its transit wallet and the
    split of its funds ([fortis-lightning/src/channel.rs]).

    The operations are programs of steps, as in [LnPay.v]: the record of closes
    is read and rewritten under its lock in one step, and each call of ldk-node
    is one, answered by its number. *)

From S2P Require Import Prelude Json Threads Bitcoin LnPay.

Definition USER_CHANNEL_MIN_SAT : Z := 5_000.
Definition DUST_LIMIT_SAT : Z := 546.

(** ** The state of the channels *)
Inductive ChannelState : Type := ChNone | ChOpening | ChReady | ChClosing.

Inductive CloseKind : Type := Coop | Force.
#[export] Instance CloseKind_eq_dec : EqDecision CloseKind.
Proof. solve_decision. Defined.

(** LDK's, as far as they are told apart. *)
Inductive ClosureReason : Type :=
| LegacyCooperativeClosure | CounterpartyInitiatedCooperativeClosure | LocallyInitiatedCooperativeClosure
| CounterpartyCoopClosedUnfundedChannel | LocallyCoopClosedUnfundedChannel
| OtherClosure (s : string).

Definition kind_as_str (k : CloseKind) : string := match k with Coop => "coop" | Force => "force" end.
Definition kind_parse (s : string) : option CloseKind :=
  if String.eqb s "coop" then Some Coop else if String.eqb s "force" then Some Force else None.
Definition of_reason (reason : option ClosureReason) : CloseKind :=
  match reason with
  | Some (LegacyCooperativeClosure | CounterpartyInitiatedCooperativeClosure | LocallyInitiatedCooperativeClosure
         | CounterpartyCoopClosedUnfundedChannel | LocallyCoopClosedUnfundedChannel) => Coop
  | _ => Force
  end.

Record ChannelFact : Type := { cf_ready : bool; cf_close_recorded : bool }.
Record ChannelFacts : Type := { cf_channels : list ChannelFact; cf_closed_funds_pending : bool }.

Definition derive_state (f : ChannelFacts) : ChannelState :=
  if existsb cf_ready (cf_channels f) then ChReady
  else if existsb (λ c, negb (cf_close_recorded c)) (cf_channels f) then ChOpening
  else match cf_channels f, cf_closed_funds_pending f with
       | [], false => ChNone
       | _, _ => ChClosing
       end.

(** ** Balances *)
Inductive BalanceKind : Type := OnClose | CoopConfirmed | Resolving.
#[export] Instance BalanceKind_eq_dec : EqDecision BalanceKind.
Proof. solve_decision. Defined.

Record MonitorBalance : Type := {
  mb_channel_open : bool;
  mb_claimable_sat : Z;
  mb_kind : BalanceKind;
  mb_close : option CloseKind;
  mb_funding_void : bool;
}.

Inductive SweepState : Type := PendingBroadcast | Broadcast (in_wallet : bool) | SweepConfirmed.
#[export] Instance SweepState_eq_dec : EqDecision SweepState.
Proof. solve_decision. Defined.
Record SweepBalance : Type := { sb_amount_sat : Z; sb_state : SweepState }.

Record WalletBalance : Type := { wb_total_sat : Z; wb_spendable_sat : Z; wb_reserve_sat : Z }.

Record BalanceInputs : Type := {
  bi_total_lightning_sat : Z;
  bi_monitors : list MonitorBalance;
  bi_sweeps : list SweepBalance;
  bi_wallet : WalletBalance;
}.

(** [Balances] of [node.rs]. *)
Record Balances : Type := {
  lightning_sat : Z;
  onchain_transit_sat : Z;
  pending_close_sat : Z;
  reserved_sat : Z;
  pending_transit_sat : Z;
  inbound_sat : Z;
}.

Definition closing_unresolved (i : BalanceInputs) : bool :=
  existsb (λ m, negb (mb_channel_open m) && negb (mb_funding_void m) &&
    match mb_kind m with
    | CoopConfirmed => false
    | OnClose => negb (bool_decide (mb_close m = Some Coop))
    | Resolving => true
    end) (bi_monitors i) ||
  existsb (λ s, negb (bool_decide (sb_state s = SweepConfirmed))) (bi_sweeps i).

(** [iter().sum::<u64>()] of a release build. *)
Definition u64_sum (l : list Z) : Z := foldl (wrapping_add u64_max) 0 l.

Definition sweep_pending (s : SweepBalance) : bool :=
  match sb_state s with PendingBroadcast | Broadcast false => true | _ => false end.

Definition breakdown (i : BalanceInputs) : Balances :=
  let closed := filter (λ m, mb_channel_open m = false) (bi_monitors i) in
  let closed_sat := u64_sum (map mb_claimable_sat closed) in
  let closed_pending := u64_sum (map mb_claimable_sat
    (filter (λ m, mb_kind m ≠ CoopConfirmed ∧ mb_funding_void m = false) closed)) in
  let coop_in_mempool := u64_sum (map mb_claimable_sat
    (filter (λ m, mb_kind m = OnClose ∧ mb_close m = Some Coop ∧ mb_funding_void m = false) closed)) in
  let sweeps_pending := u64_sum (map sb_amount_sat (filter (λ s, sweep_pending s = true) (bi_sweeps i))) in
  let w := bi_wallet i in
  let not_spendable := saturating_sub (wb_total_sat w) (wb_spendable_sat w) in
  let reserved := Z.min (wb_reserve_sat w) not_spendable in
  let unconfirmed := not_spendable - reserved in
  {| lightning_sat := saturating_sub (bi_total_lightning_sat i) closed_sat;
     onchain_transit_sat := wb_spendable_sat w;
     pending_close_sat := wrapping_add u64_max closed_pending sweeps_pending;
     reserved_sat := reserved;
     pending_transit_sat := unconfirmed - Z.min unconfirmed coop_in_mempool;
     inbound_sat := 0 |}.

(** ** A funding transaction that never confirmed *)
Inductive FundingSeen : Type := FundingMissing | FundingUnconfirmed | FundingConfirmed.
#[export] Instance FundingSeen_eq_dec : EqDecision FundingSeen.
Proof. solve_decision. Defined.

Inductive ChainKind : Type := Bitcoind | Esplora.
Definition SYNC_SLACK_SECS : Z := 20 + 30.

Record FundingVoidInputs : Type := {
  fv_chain : ChainKind;
  fv_seen : FundingSeen;
  fv_closed_seen_at : option Z;
  fv_onchain_sync_at_close_seen : option Z;
  fv_onchain_sync_secs : option Z;
  fv_lightning_sync_secs : option Z;
}.

Definition funding_void (i : FundingVoidInputs) : bool :=
  if decide (fv_seen i = FundingConfirmed) then false
  else match fv_chain i with
       | Esplora =>
           match fv_closed_seen_at i, fv_onchain_sync_at_close_seen i, fv_onchain_sync_secs i with
           | Some closed, Some before, Some now =>
               negb (closed =? 0) && (saturating_add u64_max closed SYNC_SLACK_SECS <=? now) && (before <? now)
           | _, _, _ => false
           end
       | Bitcoind =>
           match fv_seen i with
           | FundingUnconfirmed => true
           | _ => match fv_onchain_sync_secs i, fv_lightning_sync_secs i with
                  | Some onchain, Some lightning => lightning <=? onchain
                  | _, _ => false
                  end
           end
       end.

(** ** Close records *)
Record CloseRecord : Type := {
  cr_kind : option CloseKind;
  cr_unconfirmed_funding : option string;
  cr_closed_seen_at : option Z;
  cr_onchain_sync_at_close_seen : option Z;
}.
#[export] Instance CloseRecord_eq_dec : EqDecision CloseRecord.
Proof. solve_decision. Defined.
Definition no_record : CloseRecord := {|
  cr_kind := None; cr_unconfirmed_funding := None; cr_closed_seen_at := None; cr_onchain_sync_at_close_seen := None |}.
Definition set_kind (k : option CloseKind) (r : CloseRecord) : CloseRecord := {|
  cr_kind := k; cr_unconfirmed_funding := cr_unconfirmed_funding r; cr_closed_seen_at := cr_closed_seen_at r;
  cr_onchain_sync_at_close_seen := cr_onchain_sync_at_close_seen r |}.
Definition set_funding (t : option string) (r : CloseRecord) : CloseRecord := {|
  cr_kind := cr_kind r; cr_unconfirmed_funding := t; cr_closed_seen_at := cr_closed_seen_at r;
  cr_onchain_sync_at_close_seen := cr_onchain_sync_at_close_seen r |}.

Definition funding_blocks (funding_unconfirmed : bool) (record : option CloseRecord) : bool :=
  funding_unconfirmed && match record with None => true | Some r => bool_decide (cr_kind r = None) end.

Definition from_json (v : Value) : CloseRecord :=
  match v with
  | VStr k => {| cr_kind := kind_parse k; cr_unconfirmed_funding := None; cr_closed_seen_at := None;
                 cr_onchain_sync_at_close_seen := None |}
  | v => {| cr_kind := as_string (vindex "kind" v) ≫= kind_parse;
            cr_unconfirmed_funding := as_string (vindex "unconfirmed_funding" v);
            cr_closed_seen_at := as_u64 (vindex "closed_seen_at" v);
            cr_onchain_sync_at_close_seen := as_u64 (vindex "onchain_sync_at_close_seen" v) |}
  end.

Definition to_json (r : CloseRecord) : Value := VObj [
  ("kind", vopt (λ k, VStr (kind_as_str k)) (cr_kind r));
  ("unconfirmed_funding", vopt VStr (cr_unconfirmed_funding r));
  ("closed_seen_at", vopt VNum (cr_closed_seen_at r));
  ("onchain_sync_at_close_seen", vopt VNum (cr_onchain_sync_at_close_seen r))].

Definition is_empty (r : CloseRecord) : bool :=
  bool_decide (cr_kind r = None) && bool_decide (cr_unconfirmed_funding r = None).

Abbreviation Closes := (gmap string CloseRecord).
Definition without_empty (m : Closes) : Closes := filter (λ x, is_empty (snd x) = false) m.

Definition closes_of (f : File (gmap string Value)) : Closes :=
  match f with FMap m => without_empty (from_json <$> m) | _ => ∅ end.
Definition read_closes (e : option IoKind) (f : File (gmap string Value)) : Closes :=
  match e with Some _ => ∅ | None => closes_of f end.

(** Stamping the records of channels that are no longer listed. *)
Definition needs_stamp (listed : list string) (onchain_sync : option Z) (id : string) (r : CloseRecord) : bool :=
  negb (bool_decide (id ∈ listed)) &&
  (match cr_closed_seen_at r with None => true | Some c => c =? 0 end ||
   (bool_decide (cr_onchain_sync_at_close_seen r = None) && negb (bool_decide (onchain_sync = None)))).
Definition stamp (now : Z) (onchain_sync : option Z) (r : CloseRecord) : CloseRecord := {|
  cr_kind := cr_kind r; cr_unconfirmed_funding := cr_unconfirmed_funding r;
  cr_closed_seen_at := Some now; cr_onchain_sync_at_close_seen := onchain_sync |}.
Definition mark_closed_seen (m : Closes) (listed : list string) (now : Z) (onchain_sync : option Z) : Closes * bool :=
  (map_imap (λ id r, Some (if needs_stamp listed onchain_sync id r then stamp now onchain_sync r else r)) m,
   bool_decide (map_Exists (λ id r, needs_stamp listed onchain_sync id r = true) m)).

(** ** What ldk-node shows *)
Record ChanDetails : Type := {
  ch_channel_id : string;
  ch_user_channel_id : Z;
  ch_counterparty : string;
  ch_is_outbound : bool;
  ch_funding_txid : option string;
  ch_confirmations : option Z;
  ch_is_channel_ready : bool;
  ch_is_usable : bool;
  ch_value_sats : Z;
  ch_inbound_capacity_msat : Z;
  ch_outbound_capacity_msat : Z;
}.

Definition unconfirmed_depth (c : ChanDetails) : bool := default 0 (ch_confirmations c) =? 0.
Definition funding_unconfirmed (c : ChanDetails) : bool :=
  ch_is_outbound c && (bool_decide (ch_funding_txid c = None) || unconfirmed_depth c).
Definition funding_in_flight (c : ChanDetails) (closes : Closes) : bool :=
  funding_blocks (funding_unconfirmed c) (closes !! ch_channel_id c).
Definition pending_funding_txid (c : ChanDetails) : option string :=
  match ch_funding_txid c with
  | Some t => if ch_is_outbound c && unconfirmed_depth c then Some t else None
  | None => None
  end.

Inductive BalanceSource : Type := SourceCoopClose | OtherSource.
Inductive LightningBalance : Type :=
| ClaimableOnChannelClose (channel_id : string) (amount_satoshis : Z)
| ClaimableAwaitingConfirmations (channel_id : string) (amount_satoshis : Z) (source : BalanceSource)
| ContentiousClaimable (channel_id : string) (amount_satoshis : Z)
| MaybeTimeoutClaimableHTLC (channel_id : string) (amount_satoshis : Z) (outbound_payment : bool)
| MaybePreimageClaimableHTLC (channel_id : string) (amount_satoshis : Z)
| CounterpartyRevokedOutputClaimable (channel_id : string) (amount_satoshis : Z).
Inductive PendingSweepBalance : Type :=
| SweepPendingBroadcast (channel_id : option string) (amount_satoshis : Z)
| BroadcastAwaitingConfirmation (channel_id : option string) (amount_satoshis : Z) (latest_spending_txid : string)
| AwaitingThresholdConfirmations (channel_id : option string) (amount_satoshis : Z).

Record BalanceDetails : Type := {
  bd_total_lightning_balance_sats : Z;
  bd_lightning_balances : list LightningBalance;
  bd_pending_balances_from_channel_closures : list PendingSweepBalance;
  bd_total_onchain_balance_sats : Z;
  bd_spendable_onchain_balance_sats : Z;
  bd_total_anchor_channels_reserve_sats : Z;
}.

Definition balance_channel (lb : LightningBalance) : string :=
  match lb with
  | ClaimableOnChannelClose c _ | ClaimableAwaitingConfirmations c _ _ | ContentiousClaimable c _
  | MaybeTimeoutClaimableHTLC c _ _ | MaybePreimageClaimableHTLC c _ | CounterpartyRevokedOutputClaimable c _ => c
  end.
Definition sweep_channel (s : PendingSweepBalance) : option string :=
  match s with
  | SweepPendingBroadcast c _ | BroadcastAwaitingConfirmation c _ _ | AwaitingThresholdConfirmations c _ => c
  end.

Definition claimable (lb : LightningBalance) : Z * BalanceKind :=
  match lb with
  | ClaimableOnChannelClose _ a => (a, OnClose)
  | ClaimableAwaitingConfirmations _ a SourceCoopClose => (a, CoopConfirmed)
  | ClaimableAwaitingConfirmations _ a OtherSource => (a, Resolving)
  | ContentiousClaimable _ a | CounterpartyRevokedOutputClaimable _ a => (a, Resolving)
  | MaybeTimeoutClaimableHTLC _ a outbound => (if outbound then 0 else a, Resolving)
  | MaybePreimageClaimableHTLC _ _ => (0, Resolving)
  end.
Definition monitor_balance (lb : LightningBalance) (open : list string) (closes : Closes) (void : list string) : MonitorBalance :=
  let id := balance_channel lb in
  {| mb_channel_open := bool_decide (id ∈ open);
     mb_claimable_sat := fst (claimable lb);
     mb_kind := snd (claimable lb);
     mb_close := closes !! id ≫= cr_kind;
     mb_funding_void := bool_decide (id ∈ void) |}.

Inductive PaymentStatus : Type := OnchainConfirmed | OnchainUnconfirmed | NotOnchain.

Class ChanNode : Type := {
  list_chan : nat → list ChanDetails;
  list_balances : nat → BalanceDetails;
  sync_status : nat → option Z * option Z;                (* the on-chain wallet's, LDK's *)
  txid_ok : string → bool;
  payment_status : nat → string → option PaymentStatus;   (* [payment(PaymentId(txid))] *)
  peer_connected : nat → string → bool;
  sync_wallets : nat → NodeError + unit;
  connect_lsp : nat → NodeError + unit;
  new_address : nat → NodeError + string;
  ldk_open_channel : nat → Z → NodeError + unit;
  ldk_splice_in : nat → Z → Z → NodeError + unit;
  ldk_splice_out : nat → Z → string → Z → NodeError + unit;
  ldk_close_channel : nat → Z → string → NodeError + unit;
  ldk_force_close_channel : nat → Z → string → NodeError + unit;
  send_all_to_address : nat → string → bool → NodeError + string;
  address_network_ok : string → option bool;              (* [None]: not an address *)
  lsp_id : string;
  channel_max_sat : Z;
  chain_kind : ChainKind;
}.

(** ** Programs on the records *)

(** What ldk-node was asked for, latest first, with the step. *)
Inductive LdkCall : Type :=
| AskedClose (kind : CloseKind) (id : string) (at_step : nat) (answer : NodeError + unit)
| AskedSweep (at_step : nat) (retain : bool).

Record ChanWorld : Type := {
  cw_closes : Disk (gmap string Value);
  cw_asked : nat;
  cw_calls : list LdkCall;
}.
Definition chan_start (f : File (gmap string Value)) : ChanWorld := {|
  cw_closes := {| shown := f; older := [] |}; cw_asked := 0; cw_calls := [] |}.
Definition tick_chan (w : ChanWorld) : ChanWorld := {|
  cw_closes := cw_closes w; cw_asked := S (cw_asked w); cw_calls := cw_calls w |}.
Definition set_closes (w : ChanWorld) (d : Disk (gmap string Value)) : ChanWorld := {|
  cw_closes := d; cw_asked := cw_asked w; cw_calls := cw_calls w |}.
Definition add_call (w : ChanWorld) (c : LdkCall) : ChanWorld := {|
  cw_closes := cw_closes w; cw_asked := cw_asked w; cw_calls := c :: cw_calls w |}.
#[export] Instance ChanWorld_asks : Asks ChanWorld := {| asked := cw_asked; tick := tick_chan |}.
Notation Chan := (Ln ChanWorld).
Definition chan_lift {A} (r : result LnError A) : Chan A := Done r.

Fixpoint each {A B} (f : A → Chan B) (l : list A) : Chan (list B) :=
  match l with
  | [] => mret []
  | a :: l => b ← f a; bs ← each f l; mret (b :: bs)
  end.

Section channels.
Context `{PayEnv} `{LnNode} `{ChanNode}.

Definition load_closes : Chan Closes := atomically (λ w,
  (Ok (read_closes (read_error (cw_asked w)) (shown (cw_closes w))), tick_chan w)).

Definition update_closes (f : Closes → Closes) : Chan (result IoKind unit) := atomically (λ w,
  let before := read_closes (read_error (cw_asked w)) (shown (cw_closes w)) in
  let m := without_empty (f before) in
  if decide (m = before) then (Ok (Ok tt), tick_chan w)
  else let r := write_atomic (write_outcome (cw_asked w)) (to_json <$> m) (cw_closes w) in
       (Ok (fst r), set_closes (tick_chan w) (snd r))).

Definition record_close (id : string) (kind : CloseKind) : Chan (result IoKind unit) :=
  update_closes (λ m, <[id := set_kind (Some kind) (default no_record (m !! id))]> m).
Definition record_closed_event (id : string) (reason : option ClosureReason) : Chan unit :=
  _ ← record_close id (of_reason reason); mret tt.

Definition track_all (channels : list ChanDetails) (m : Closes) : Closes :=
  foldl (λ m c, <[ch_channel_id c := set_funding (pending_funding_txid c) (default no_record (m !! ch_channel_id c))]> m)
    m channels.

Definition track_funding (channels : list ChanDetails) (onchain_sync : option Z) : Chan Closes :=
  closes ← load_closes;
  let listed := map ch_channel_id channels in
  let stale := existsb (λ c, negb (bool_decide (
    (closes !! ch_channel_id c ≫= cr_unconfirmed_funding) = pending_funding_txid c))) channels in
  now ← ask pay_now_secs;
  let '(closes, unstamped) := mark_closed_seen closes listed now onchain_sync in
  if negb stale && negb unstamped then mret closes
  else
    _ ← update_closes (λ m, fst (mark_closed_seen (track_all channels m) listed now onchain_sync));
    load_closes.

Definition wallet_seen (txid : string) : Chan FundingSeen :=
  if txid_ok txid
  then s ← ask (λ n, payment_status n txid);
       mret match s with
            | Some OnchainConfirmed => FundingConfirmed
            | Some OnchainUnconfirmed => FundingUnconfirmed
            | _ => FundingMissing
            end
  else mret FundingMissing.

(** ** A look at the node *)
Record Snapshot : Type := {
  sn_channels : list ChanDetails;
  sn_closes : Closes;
  sn_inputs : BalanceInputs;
  sn_balance_channels : list string;
}.

(** Is the record of an unlisted channel one of a funding that is void? *)
Definition record_void (open : list string) (status : option Z * option Z) (x : string * CloseRecord) : Chan (list string) :=
  let '(id, r) := x in
  match cr_unconfirmed_funding r with
  | Some t =>
      if bool_decide (id ∈ open) then mret []
      else seen ← wallet_seen t;
           mret (if funding_void {| fv_chain := chain_kind; fv_seen := seen; fv_closed_seen_at := cr_closed_seen_at r;
                                    fv_onchain_sync_at_close_seen := cr_onchain_sync_at_close_seen r;
                                    fv_onchain_sync_secs := fst status; fv_lightning_sync_secs := snd status |}
                 then [id] else [])
  | None => mret []
  end.

Definition sweep_balance (s : PendingSweepBalance) : Chan SweepBalance :=
  match s with
  | SweepPendingBroadcast _ a => mret {| sb_amount_sat := a; sb_state := PendingBroadcast |}
  | BroadcastAwaitingConfirmation _ a txid =>
      p ← ask (λ n, payment_status n txid);
      mret {| sb_amount_sat := a; sb_state := Broadcast (match p with Some _ => true | None => false end) |}
  | AwaitingThresholdConfirmations _ a => mret {| sb_amount_sat := a; sb_state := SweepConfirmed |}
  end.

(** The records are looked through in the order of their ids; here the order
    is that of the map. *)
Definition take_snapshot : Chan Snapshot :=
  channels ← ask list_chan;
  b ← ask list_balances;
  status ← ask sync_status;
  closes ← track_funding channels (fst status);
  let open := map ch_channel_id channels in
  void ← each (record_void open status) (map_to_list closes);
  sweeps ← each sweep_balance (bd_pending_balances_from_channel_closures b);
  mret {|
    sn_channels := channels; sn_closes := closes;
    sn_inputs := {|
      bi_total_lightning_sat := bd_total_lightning_balance_sats b;
      bi_monitors := map (λ lb, monitor_balance lb open closes (concat void)) (bd_lightning_balances b);
      bi_sweeps := sweeps;
      bi_wallet := {| wb_total_sat := bd_total_onchain_balance_sats b; wb_spendable_sat := bd_spendable_onchain_balance_sats b;
                      wb_reserve_sat := bd_total_anchor_channels_reserve_sats b |} |};
    sn_balance_channels := map balance_channel (bd_lightning_balances b) ++
      omap sweep_channel (bd_pending_balances_from_channel_closures b) |}.

Definition snapshot_state (s : Snapshot) : ChannelState :=
  derive_state {|
    cf_channels := map (λ c, {| cf_ready := ch_is_channel_ready c;
      cf_close_recorded := negb (bool_decide ((sn_closes s !! ch_channel_id c ≫= cr_kind) = None)) |}) (sn_channels s);
    cf_closed_funds_pending := (0 <? pending_close_sat (breakdown (sn_inputs s))) || closing_unresolved (sn_inputs s) |}.

Definition prune (s : Snapshot) : Chan unit :=
  let live := sn_balance_channels s ++ map ch_channel_id (sn_channels s) in
  if bool_decide (map_Forall (λ k _, k ∈ live) (sn_closes s)) then mret tt
  else _ ← update_closes (filter (λ x, fst x ∈ live)); mret tt.

Definition channel_state : Chan ChannelState :=
  r ← ask running;
  match r with
  | None => mret ChNone
  | Some _ => snap ← take_snapshot; _ ← prune snap; mret (snapshot_state snap)
  end.

Definition balances_of : Chan Balances :=
  snap ← take_snapshot;
  let inbound_msat := u64_sum (map ch_inbound_capacity_msat (filter (λ c, ch_is_channel_ready c = true) (sn_channels snap))) in
  let b := breakdown (sn_inputs snap) in
  mret {| lightning_sat := lightning_sat b; onchain_transit_sat := onchain_transit_sat b;
          pending_close_sat := pending_close_sat b; reserved_sat := reserved_sat b;
          pending_transit_sat := pending_transit_sat b; inbound_sat := inbound_msat / 1_000 |}.

(** ** The operations *)
Definition not_started : LnError := LnOther "not_started".
Definition need_running : Chan StartMode := r ← ask running; chan_lift (ok_or r not_started).
Definition pre_send_checks : Chan unit := l ← ask check_device_lock; chan_lift l.

Definition node_result {A} (f : NodeError → result LnError A) (r : NodeError + A) : Chan A :=
  chan_lift match r with inr a => Ok a | inl e => f e end.

Definition sync_before_spend : Chan unit :=
  r ← ask sync_wallets;
  node_result (λ e, Err match e with
    | NotRunning => not_started
    | PersistenceFailed => BackupUnavailable
    | e => LnOther ("chain_sync_failed: " +:+ node_error_display e)
    end) r.

Definition transit_address : Chan string :=
  _ ← need_running;
  _ ← pre_send_checks;
  r ← ask new_address;
  node_result (λ e, Err match e with
    | NotRunning => not_started
    | PersistenceFailed => BackupUnavailable
    | e => LnOther ("transit_address: " +:+ node_error_display e)
    end) r.

Definition anchor_reserve_sat : Z := 0.

Definition disabled_in_exit (mode : StartMode) : Chan unit :=
  chan_lift (bail_if (bool_decide (mode = Exit)) (LnOther "lightning_disabled")).

Definition open_channel (amount_sat : Z) : Chan unit :=
  _ ← chan_lift (bail_if ((amount_sat <? USER_CHANNEL_MIN_SAT) || (channel_max_sat <? amount_sat))
        (AmountOutOfRange (saturating_mul u64_max USER_CHANNEL_MIN_SAT 1_000) (saturating_mul u64_max channel_max_sat 1_000)));
  mode ← need_running;
  _ ← exit_gate mode;
  _ ← disabled_in_exit mode;
  _ ← sync_before_spend;
  closes ← load_closes;
  channels ← ask list_chan;
  _ ← chan_lift (bail_if (existsb (λ c, funding_in_flight c closes) channels) (LnOther "channel_opening"));
  b ← ask list_balances;
  _ ← chan_lift (bail_if (bd_spendable_onchain_balance_sats b <? saturating_add u64_max amount_sat anchor_reserve_sat)
        (LnOther "insufficient_transit"));
  _ ← pre_send_checks;
  r ← ask (λ n, ldk_open_channel n amount_sat);
  node_result (λ e, Err match e with
    | NotRunning => not_started
    | ConnectionFailed => LspUnreachable
    | InsufficientFunds => LnOther "insufficient_transit"
    | PersistenceFailed => BackupUnavailable
    | e => LnOther ("open_channel: " +:+ node_error_display e)
    end) r.

Definition splice_error (e : NodeError) : result LnError unit :=
  Err match e with
      | NotRunning => not_started
      | ConnectionFailed => LspUnreachable
      | InsufficientFunds => LnOther "insufficient_transit"
      | PersistenceFailed => BackupUnavailable
      | _ => LnOther "splice_failed"
      end.

(** [max_by_key] answers with the last of the greatest. *)
Definition max_by_value (l : list ChanDetails) : option ChanDetails :=
  foldl (λ best c, match best with
                   | Some b => if ch_value_sats b <=? ch_value_sats c then Some c else Some b
                   | None => Some c
                   end) None l.

Definition reach_lsp : Chan unit :=
  up ← ask (λ n, peer_connected n lsp_id);
  if (up : bool) then mret tt
  else r ← ask connect_lsp;
       chan_lift match r with inr _ => Ok tt | inl _ => Err LspUnreachable end.

Definition splice_target : Chan Z :=
  closes ← load_closes;
  channels ← ask list_chan;
  _ ← chan_lift (bail_if (existsb (λ c, funding_in_flight c closes) channels) (LnOther "channel_opening"));
  c ← chan_lift (ok_or (max_by_value (filter (λ c,
        ch_counterparty c = lsp_id ∧ ch_is_channel_ready c = true ∧ ch_is_usable c = true) channels)) (LnOther "no_channel"));
  _ ← reach_lsp;
  mret (ch_user_channel_id c).

Definition splice_in (amount_sat : Z) : Chan unit :=
  mode ← need_running;
  _ ← exit_gate mode;
  _ ← disabled_in_exit mode;
  _ ← sync_before_spend;
  channel ← splice_target;
  b ← ask list_balances;
  _ ← chan_lift (bail_if (bd_spendable_onchain_balance_sats b <? amount_sat) (LnOther "insufficient_transit"));
  _ ← pre_send_checks;
  r ← ask (λ n, ldk_splice_in n channel amount_sat);
  node_result splice_error r.

Definition check_address (to_address : string) : Chan unit :=
  chan_lift match address_network_ok to_address with
            | None => Err (LnOther "bad_address")
            | Some false => Err WrongNetwork
            | Some true => Ok tt
            end.

Definition splice_out (amount_sat : Z) (to_address : string) : Chan unit :=
  _ ← check_address to_address;
  mode ← need_running;
  _ ← exit_gate mode;
  _ ← sync_before_spend;
  channel ← splice_target;
  channels ← ask list_chan;
  let spare_sat := from_option (λ x, ch_outbound_capacity_msat (snd x) / 1_000) 0
    (list_find (λ c, ch_user_channel_id c = channel) channels) in
  _ ← chan_lift (bail_if (spare_sat <? amount_sat) (LnOther "insufficient_channel"));
  _ ← pre_send_checks;
  r ← ask (λ n, ldk_splice_out n channel to_address amount_sat);
  node_result splice_error r.

(** [result.and(Err(e))]: the first error stays. *)
Definition and_err (r : result LnError unit) (e : LnError) : result LnError unit :=
  match r with Ok _ => Err e | r => r end.

Definition keep_lsp_peer : Chan unit :=
  up ← ask (λ n, peer_connected n lsp_id);
  if (up : bool) then _ ← ask connect_lsp; mret tt else mret tt.

Definition ask_close (kind : CloseKind) (c : ChanDetails) : Chan (NodeError + unit) := atomically (λ w,
  let r := match kind with
           | Coop => ldk_close_channel (cw_asked w) (ch_user_channel_id c) (ch_counterparty c)
           | Force => ldk_force_close_channel (cw_asked w) (ch_user_channel_id c) (ch_counterparty c)
           end in
  (Ok r, add_call (tick_chan w) (AskedClose kind (ch_channel_id c) (cw_asked w) r))).

Definition recorded_kind (closes : Closes) (c : ChanDetails) : option CloseKind := closes !! ch_channel_id c ≫= cr_kind.

(** Puts back what was recorded before. *)
Definition restore_kind (id : string) (k : option CloseKind) : Chan unit :=
  _ ← update_closes (alter (set_kind k) id); mret tt.

Definition close_one (closes : Closes) (result : result LnError unit) (c : ChanDetails) : Chan (Prelude.result LnError unit) :=
  let had_record := negb (bool_decide (recorded_kind closes c = None)) in
  rec ← (if had_record then mret (Ok tt) else record_close (ch_channel_id c) Coop);
  match rec with
  | Err _ => mret (and_err result BackupUnavailable)
  | _ =>
      r ← ask_close Coop c;
      match r with
      | inr _ => mret result
      | inl e =>
          _ ← (if had_record then mret tt else restore_kind (ch_channel_id c) None);
          up ← ask (λ n, peer_connected n (ch_counterparty c));
          mret (and_err result
            (if negb up then LspUnreachable
             else if decide (e = PersistenceFailed) then BackupUnavailable
             else if had_record then LnOther "close_in_progress" else LnOther "close_failed"))
      end
  end.

Fixpoint close_each (one : result LnError unit → ChanDetails → Chan (result LnError unit))
    (r : result LnError unit) (l : list ChanDetails) : Chan (result LnError unit) :=
  match l with
  | [] => mret r
  | c :: l => r ← one r c; close_each one r l
  end.

Definition close_channel : Chan unit :=
  mode ← need_running;
  _ ← exit_gate mode;
  channels ← ask list_chan;
  _ ← chan_lift (bail_if (bool_decide (channels = [])) (LnOther "no_channel"));
  _ ← (_ ← reach_lsp; pre_send_checks);
  closes ← load_closes;
  status ← ask sync_status;
  _ ← track_funding channels (fst status);
  result ← close_each (close_one closes) (Ok tt) channels;
  _ ← keep_lsp_peer;
  chan_lift result.

Definition force_close_one (closes : Closes) (result : result LnError unit) (c : ChanDetails) : Chan (Prelude.result LnError unit) :=
  let prev_kind := recorded_kind closes c in
  rec ← record_close (ch_channel_id c) Force;
  match rec with
  | Err _ => mret (and_err result BackupUnavailable)
  | _ =>
      r ← ask_close Force c;
      match r with
      | inr _ => mret result
      | inl e =>
          _ ← restore_kind (ch_channel_id c) prev_kind;
          mret (and_err result (if decide (e = PersistenceFailed) then BackupUnavailable else LnOther "force_close_failed"))
      end
  end.

Definition force_close_channel : Chan unit :=
  _ ← need_running;
  channels ← ask list_chan;
  _ ← chan_lift (bail_if (bool_decide (channels = [])) (LnOther "no_channel"));
  _ ← pre_send_checks;
  closes ← load_closes;
  status ← ask sync_status;
  _ ← track_funding channels (fst status);
  result ← close_each (force_close_one closes) (Ok tt) channels;
  _ ← keep_lsp_peer;
  chan_lift result.

Definition send_all (to_address : string) (retain_reserves : bool) : Chan (NodeError + string) := atomically (λ w,
  (Ok (send_all_to_address (cw_asked w) to_address retain_reserves),
   add_call (tick_chan w) (AskedSweep (cw_asked w) retain_reserves))).

Definition sweep_transit (to_address : string) : Chan (option string) :=
  _ ← check_address to_address;
  _ ← need_running;
  _ ← sync_before_spend;
  snap ← take_snapshot;
  _ ← chan_lift (bail_if (existsb (λ c, funding_in_flight c (sn_closes snap)) (sn_channels snap)) (LnOther "channel_opening"));
  _ ← chan_lift (bail_if (closing_unresolved (sn_inputs snap)) (LnOther "closing"));
  if wb_spendable_sat (bi_wallet (sn_inputs snap)) <=? DUST_LIMIT_SAT then mret None
  else
    _ ← pre_send_checks;
    r ← send_all to_address (negb (bool_decide (sn_channels snap = [])));
    chan_lift match r with
              | inr txid => Ok (Some txid)
              | inl InsufficientFunds => Ok None
              | inl NotRunning => Err not_started
              | inl InvalidAddress => Err WrongNetwork
              | inl PersistenceFailed => Err BackupUnavailable
              | inl e => Err (LnOther ("sweep: " +:+ node_error_display e))
              end.
End channels.
