(* ===== verification/LnFunds.v ===== *)
(** What the split of the node's funds adds up to, and that close records
    survive their file ([LnChannel.v]). *)

From S2P Require Import Prelude Json Threads Bitcoin LnPay LnChannel.

(** ** Every sat once *)

(** What a monitor's balance adds to the funds in the on-chain wallet: nothing
    once the wallet counts it (a cooperative close, in the mempool or
    confirmed), and nothing when its funding never confirmed. *)
Definition outside_wallet (m : MonitorBalance) : Z :=
  if mb_channel_open m then mb_claimable_sat m
  else if mb_funding_void m then 0
  else match mb_kind m with
       | CoopConfirmed => 0
       | OnClose => if decide (mb_close m = Some Coop) then 0 else mb_claimable_sat m
       | Resolving => mb_claimable_sat m
       end.
Definition sweep_outside (s : SweepBalance) : Z := if sweep_pending s then sb_amount_sat s else 0.

(** Cooperative closes still in the mempool, at the monitor's amount. *)
Definition coop_in_mempool (m : MonitorBalance) : Z :=
  if decide (mb_channel_open m = false ∧ mb_kind m = OnClose ∧ mb_close m = Some Coop ∧ mb_funding_void m = false)
  then mb_claimable_sat m else 0.
Definition open_part (m : MonitorBalance) : Z := if mb_channel_open m then mb_claimable_sat m else 0.

(** The wallet's unconfirmed money: what is neither spendable nor reserve. *)
Definition unconfirmed (w : WalletBalance) : Z :=
  wb_total_sat w - wb_spendable_sat w - Z.min (wb_reserve_sat w) (wb_total_sat w - wb_spendable_sat w).

(** ldk-node's: the total is that of the monitors; what is spendable is part
    of the wallet's total; and the sums fit their width. *)
Record balances_ok (i : BalanceInputs) : Prop := {
  bo_claimable : Forall (λ m, 0 ≤ mb_claimable_sat m) (bi_monitors i);
  bo_amounts : Forall (λ s, 0 ≤ sb_amount_sat s) (bi_sweeps i);
  bo_total : bi_total_lightning_sat i = sumZ mb_claimable_sat (bi_monitors i);
  bo_fits : sumZ mb_claimable_sat (bi_monitors i) + sumZ sb_amount_sat (bi_sweeps i) ≤ u64_max;
  bo_reserve : 0 ≤ wb_reserve_sat (bi_wallet i);
  bo_wallet : 0 ≤ wb_spendable_sat (bi_wallet i) ≤ wb_total_sat (bi_wallet i);
  bo_wallet_fits : wb_total_sat (bi_wallet i) ≤ u64_max;
}.

(** What the wallet shows as unconfirmed of each balance's cooperative close:
    0 while it does not see the closing transaction, and at most the monitor's
    amount, of which the closing fee is taken. *)
Definition outputs_seen (i : BalanceInputs) (paid : list Z) : Prop :=
  Forall2 (λ m o, 0 ≤ o ≤ coop_in_mempool m) (bi_monitors i) paid ∧ sumZ id paid ≤ unconfirmed (bi_wallet i).

Lemma outputs_seen_sum l paid : Forall2 (λ m o, 0 ≤ o ≤ coop_in_mempool m) l paid → 0 ≤ sumZ id paid ≤ sumZ coop_in_mempool l.
Proof. unfold sumZ, id. induction 1; simpl in *; lia. Qed.

Lemma open_closed l : sumZ open_part l + sumZ (λ m, if decide (mb_channel_open m = false) then mb_claimable_sat m else 0) l =
  sumZ mb_claimable_sat l.
Proof.
  unfold sumZ. induction l as [|m l IH]; simpl; [done|]. rewrite <-IH. unfold open_part.
  destruct (mb_channel_open m) eqn:E; case_decide; try done; lia.
Qed.

Lemma u64_sum_exact l acc : Forall (λ z, 0 ≤ z) l → 0 ≤ acc → acc + sumZ id l ≤ u64_max →
  foldl (wrapping_add u64_max) acc l = acc + sumZ id l.
Proof.
  intros Hl. revert acc. induction Hl as [|z l Hz Hl IH]; intros acc Ha Hs; simpl in *; [unfold sumZ; simpl; lia|].
  pose proof (sumZ_nonneg id l Hl). unfold sumZ, id in *. simpl in *.
  rewrite wrapping_add_small by lia. rewrite IH by lia. lia.
Qed.

(** A part of the items, by a test. *)
Lemma sum_part {A} (f : A → Z) (P : A → Prop) `{∀ x, Decision (P x)} l :
  sumZ id (map f (filter P l)) = sumZ (λ a, if decide (P a) then f a else 0) l.
Proof.
  rewrite sumZ_map. induction l as [|a l IH]; [done|]. rewrite filter_cons, sumZ_cons, <-IH.
  destruct (decide (P a)); [rewrite sumZ_cons|]; done.
Qed.

Lemma sumZ_ext {A} (f g : A → Z) l : Forall (λ a, f a = g a) l → sumZ f l = sumZ g l.
Proof. unfold sumZ. induction 1 as [|a l E _ IH]; simpl; [done|]. by rewrite E, IH. Qed.
Lemma sumZ_add {A} (f g : A → Z) l : sumZ (λ a, f a + g a) l = sumZ f l + sumZ g l.
Proof. unfold sumZ. induction l; simpl; lia. Qed.
Lemma sumZ_Forall_le {A} (f g : A → Z) l : Forall (λ a, f a ≤ g a) l → sumZ f l ≤ sumZ g l.
Proof. unfold sumZ. induction 1; simpl; lia. Qed.

Lemma part_exact {A} (f : A → Z) (P : A → Prop) `{∀ x, Decision (P x)} l :
  Forall (λ a, 0 ≤ f a) l → sumZ f l ≤ u64_max →
  u64_sum (map f (filter P l)) = sumZ (λ a, if decide (P a) then f a else 0) l ∧
  0 ≤ sumZ (λ a, if decide (P a) then f a else 0) l ≤ sumZ f l.
Proof.
  intros Hl Hs.
  assert (Hr : 0 ≤ sumZ (λ a, if decide (P a) then f a else 0) l ≤ sumZ f l).
  { split; [apply sumZ_nonneg|apply sumZ_Forall_le]; eapply Forall_impl; [exact Hl| |exact Hl|]; intros a Ha; simpl in *; case_decide; lia. }
  split; [|done]. unfold u64_sum. rewrite u64_sum_exact, sum_part; rewrite ?sum_part; [lia| |lia|lia].
  apply Forall_map, Forall_forall. intros a [_ Ha]%list_elem_of_filter. rewrite Forall_forall in Hl. by apply Hl.
Qed.

(** The parts [breakdown] adds up, and how they fit together. *)
Definition closed_part (m : MonitorBalance) : Z := if decide (mb_channel_open m = false) then mb_claimable_sat m else 0.
Definition pending_part (m : MonitorBalance) : Z :=
  if decide ((mb_kind m ≠ CoopConfirmed ∧ mb_funding_void m = false) ∧ mb_channel_open m = false) then mb_claimable_sat m else 0.

Lemma parts_fit l : sumZ mb_claimable_sat l + sumZ pending_part l =
  sumZ closed_part l + sumZ coop_in_mempool l + sumZ outside_wallet l.
Proof.
  rewrite <-!sumZ_add. apply sumZ_ext, Forall_forall. intros m _.
  unfold closed_part, pending_part, coop_in_mempool, outside_wallet.
  destruct m as [[] c [] k []]; cbn [mb_channel_open mb_claimable_sat mb_kind mb_close mb_funding_void];
    repeat case_decide; try lia; naive_solver.
Qed.

Lemma coop_part l : sumZ (λ m, if decide ((mb_kind m = OnClose ∧ mb_close m = Some Coop ∧ mb_funding_void m = false) ∧
  mb_channel_open m = false) then mb_claimable_sat m else 0) l = sumZ coop_in_mempool l.
Proof. apply sumZ_ext, Forall_forall. intros m _. unfold coop_in_mempool. repeat case_decide; naive_solver. Qed.

Lemma sweep_part l : sumZ (λ s, if decide (sweep_pending s = true) then sb_amount_sat s else 0) l = sumZ sweep_outside l.
Proof. apply sumZ_ext, Forall_forall. intros s _. unfold sweep_outside. by destruct (sweep_pending s). Qed.

(** C31. What the parts of the node's funds add up to.  Where ldk-node's
    figures fit together and fit their width: the Lightning part is what the
    open channels hold, no part is negative or wrapped, and the parts add up to
    the wallet's total, plus what the wallet does not have, plus the cooperative
    closes in the mempool at the monitors' amounts, less as much of these as the
    wallet has unconfirmed.  So, whatever the wallet shows of the closing
    outputs as unconfirmed (nothing yet, or the monitor's amount less the fee):
    everything else in the wallet counts once, each close counts once, at the
    monitor's amount, and what the wallet does not have counts once; only other
    unconfirmed money is left out, as far as it fills the gap between the
    monitors' amounts and the outputs shown. *)
Theorem breakdown_counts_once i paid :
  balances_ok i → outputs_seen i paid →
  let b := breakdown i in
  let total := wb_total_sat (bi_wallet i) in
  let coop := sumZ coop_in_mempool (bi_monitors i) in
  let outside := sumZ outside_wallet (bi_monitors i) + sumZ sweep_outside (bi_sweeps i) in
  let sum := lightning_sat b + onchain_transit_sat b + pending_close_sat b + reserved_sat b + pending_transit_sat b in
  let other := unconfirmed (bi_wallet i) - sumZ id paid in
  lightning_sat b = sumZ open_part (bi_monitors i) ∧
  sum = total + outside + (coop - Z.min (unconfirmed (bi_wallet i)) coop) ∧
  sum = (total - sumZ id paid) + coop + outside - Z.min other (coop - sumZ id paid) ∧
  Forall (in_range u64_max)
    [lightning_sat b; onchain_transit_sat b; pending_close_sat b; reserved_sat b; pending_transit_sat b].
Proof.
  intros [Hc Ha Ht Hf Hr Hw Hm] [Hp0 Hp1]. apply outputs_seen_sum in Hp0.
  pose proof (sumZ_nonneg _ _ Hc) as Hc0. pose proof (sumZ_nonneg _ _ Ha) as Ha0.
  pose proof (open_closed (bi_monitors i)) as Ho.
  unfold breakdown. cbv zeta. cbn [lightning_sat onchain_transit_sat pending_close_sat reserved_sat pending_transit_sat].
  rewrite !list_filter_filter, Ht.
  destruct (part_exact mb_claimable_sat (λ m, mb_channel_open m = false) (bi_monitors i) Hc ltac:(lia)) as [-> H1].
  destruct (part_exact mb_claimable_sat (λ m, (mb_kind m ≠ CoopConfirmed ∧ mb_funding_void m = false) ∧
    mb_channel_open m = false) (bi_monitors i) Hc ltac:(lia)) as [-> H2].
  destruct (part_exact mb_claimable_sat (λ m, (mb_kind m = OnClose ∧ mb_close m = Some Coop ∧ mb_funding_void m = false) ∧
    mb_channel_open m = false) (bi_monitors i) Hc ltac:(lia)) as [-> H3].
  destruct (part_exact sb_amount_sat (λ s, sweep_pending s = true) (bi_sweeps i) Ha ltac:(lia)) as [-> H4].
  rewrite coop_part in *. rewrite sweep_part in *. pose proof (parts_fit (bi_monitors i)) as Hp.
  change (sumZ (λ a, if decide (mb_channel_open a = false) then mb_claimable_sat a else 0) (bi_monitors i))
    with (sumZ closed_part (bi_monitors i)) in *.
  change (sumZ (λ m, if decide ((mb_kind m ≠ CoopConfirmed ∧ mb_funding_void m = false) ∧ mb_channel_open m = false)
    then mb_claimable_sat m else 0) (bi_monitors i)) with (sumZ pending_part (bi_monitors i)) in *.
  rewrite wrapping_add_small by lia. unfold saturating_sub, unconfirmed in *. rewrite !Forall_cons. unfold in_range.
  split_and!; lia || done.
Qed.

(** ** Close records in their file *)
Definition record_ok (r : CloseRecord) : Prop :=
  from_option (in_range u64_max) True (cr_closed_seen_at r) ∧ from_option (in_range u64_max) True (cr_onchain_sync_at_close_seen r).

Lemma as_u64_vopt o : from_option (in_range u64_max) True o → as_u64 (vopt VNum o) = o.
Proof. destruct o; [|done]. simpl. intros Hz. by apply try_from_Some. Qed.

Lemma from_to_json r : record_ok r → from_json (to_json r) = r.
Proof.
  intros [Hc Hs]. destruct r as [k f c s]. unfold from_json, to_json, vindex. cbn -[as_u64 vopt].
  f_equal; [by destruct k as [[]|]|by destruct f|by apply as_u64_vopt..].
Qed.

Lemma without_empty_idem m : without_empty (without_empty m) = without_empty m.
Proof. unfold without_empty. rewrite map_filter_filter. apply map_filter_ext. naive_solver. Qed.

Lemma closes_of_written m : map_Forall (λ _ r, record_ok r) m → closes_of (FMap (to_json <$> without_empty m)) = without_empty m.
Proof.
  intros Hm. unfold closes_of. rewrite <-map_fmap_compose. rewrite (map_fmap_ext _ id), map_fmap_id, without_empty_idem; [done|].
  intros id r Hr. simpl. apply from_to_json. apply map_lookup_filter_Some in Hr as [Hr _]. by eapply Hm.
Qed.

(** Close records survive their file.  When an update of the records
    succeeds, the next reading has exactly the updated records, less those that
    say nothing: kind, funding transaction and both times. *)
Theorem closes_survive `{PayEnv} (f : Closes → Closes) w w' :
  run_prog (update_closes f) w = (Ok (Ok tt), w') →
  read_error (cw_asked w) = None → read_error (cw_asked w') = None →
  let m := f (closes_of (shown (cw_closes w))) in
  map_Forall (λ _ r, record_ok r) m → fst (run_prog load_closes w') = Ok (without_empty m).
Proof.
  intros Hrun He He' m Hm. unfold update_closes in Hrun. rewrite run_atomically in Hrun. simpl. unfold read_closes. rewrite He'.
  unfold read_closes in Hrun. rewrite He in Hrun. fold m in Hrun. case_decide as Hd.
  - injection Hrun as <-. by rewrite Hd.
  - destruct (write_outcome (cw_asked w)); simpl in Hrun; try done. injection Hrun as <-. simpl.
    f_equal. by apply closes_of_written.
Qed.
