(* ===== verification/LnVoid.v ===== *)
(** The transit wallet is not drained while a closed channel may need it: the
    close records of [LnChannel.v] over any run of the node's operations, one
    at a time, with calls cut off anywhere, failing files and power cuts. *)

From S2P Require Import Prelude Json Threads Bitcoin LnPay LnChannel LnFunds.

(** What is true of the channels and of the chain: the step from which
    ldk-node lists a channel, that from which it no longer does, and whether a
    transaction has confirmed by a step. *)
Class Outside : Type := {
  opens_at : string → nat;
  closes_at : string → option nat;
  confirmed_by : nat → string → bool;
}.

Section void.
Context `{PayEnv} `{LnNode} `{ChanNode} `{Outside}.

Definition listed_at (n : nat) : list string := map ch_channel_id (list_chan n).

Record outside_ok : Prop := {
  oo_listed id n : id ∈ listed_at n → (opens_at id ≤ n)%nat;
  oo_unlisted id n : id ∉ listed_at n → (opens_at id ≤ n)%nat → ∃ k, closes_at id = Some k ∧ (k ≤ n)%nat;
  oo_order id k : closes_at id = Some k → (opens_at id ≤ k)%nat;
  oo_width n : 0 ≤ pay_now_secs n ≤ u64_max - SYNC_SLACK_SECS;
  oo_sync_width n s : fst (sync_status n) = Some s → in_range u64_max s;
  oo_txid n c t : c ∈ list_chan n → ch_funding_txid c = Some t → txid_ok t = true;
  (* a sync of the wallet asks for the chain at most 20 seconds, by the
     phone's clock, before the time it is stamped with *)
  oo_sync n m s t : fst (sync_status n) = Some s → (n ≤ m)%nat → payment_status m t ≠ Some OnchainConfirmed →
    ∃ j, (j ≤ m)%nat ∧ s - 20 ≤ pay_now_secs j ∧ confirmed_by j t = false;
}.
Hypothesis outside : outside_ok.

(** [t] was seen as the funding of [id]. *)
Definition funding_of (id t : string) : Prop :=
  ∃ n c, c ∈ list_chan n ∧ ch_channel_id c = id ∧ ch_funding_txid c = Some t.

(** The funding of the channel was looked for, in a look at the node that began
    at step [n], and had not confirmed.  With an Esplora server: when the
    phone's clock showed at least half a minute more than it did at a moment at
    which the channel had closed already.  With a bitcoind (in tests only): the
    wallet did not show it as confirmed. *)
Definition never_funded (n : nat) (id : string) : Prop := ∃ t, funding_of id t ∧
  match chain_kind with
  | Esplora => ∃ k m j, closes_at id = Some k ∧ (k ≤ m)%nat ∧ pay_now_secs m + 30 ≤ pay_now_secs j ∧ confirmed_by j t = false
  | Bitcoind => ∃ m, (n ≤ m)%nat ∧ payment_status m t ≠ Some OnchainConfirmed
  end.

Lemma never_funded_mono n n' id : (n ≤ n')%nat → never_funded n' id → never_funded n id.
Proof.
  intros Hn (t & Ht & Hx). exists t. split; [done|]. destruct chain_kind; [|done].
  destruct Hx as (m & Hm & ?). exists m. split; [lia|done].
Qed.

(** ** Records *)
Record rec_ok (b : nat) (id : string) (r : CloseRecord) : Prop := {
  ro_width : record_ok r;
  ro_open : (opens_at id ≤ b)%nat;
  ro_funding t : cr_unconfirmed_funding r = Some t → funding_of id t;
  ro_closed c : cr_closed_seen_at r = Some c → ∃ k m, closes_at id = Some k ∧ (k ≤ m)%nat ∧ c = pay_now_secs m;
}.
Abbreviation recs_ok b := (map_Forall (M := Closes) (rec_ok b)).

Record chan_inv (b : nat) (w : ChanWorld) : Prop := {
  ci_asked : (b ≤ cw_asked w)%nat;
  ci_shown : recs_ok b (closes_of (shown (cw_closes w)));
  ci_older : Forall (λ f, recs_ok b (closes_of f)) (older (cw_closes w));
}.

Lemma rec_ok_mono b b' id r : (b ≤ b')%nat → rec_ok b id r → rec_ok b' id r.
Proof. intros Hb []. split; [done|lia|done..]. Qed.
Lemma recs_ok_mono b b' m : (b ≤ b')%nat → recs_ok b m → recs_ok b' m.
Proof. intros Hb Hm id r Hr. eapply rec_ok_mono; [done|by apply Hm]. Qed.

Lemma chan_inv_mono b b' w : (b ≤ b' ≤ cw_asked w)%nat → chan_inv b w → chan_inv b' w.
Proof.
  intros Hb [Ha Hs Ho]. split; [lia|eapply recs_ok_mono; [|done]; lia|].
  eapply Forall_impl; [exact Ho|]. intros f Hf. simpl in *. eapply recs_ok_mono; [|done]; lia.
Qed.

Lemma recs_ok_without b m : recs_ok b m → recs_ok b (without_empty m).
Proof. intros Hm id r [Hr _]%map_lookup_filter_Some. by apply Hm. Qed.

Lemma recs_ok_width b m : recs_ok b m → map_Forall (λ _, record_ok) m.
Proof. intros Hm id r Hr. eapply ro_width, Hm, Hr. Qed.

Lemma read_recs_ok b w e : chan_inv b w → recs_ok b (read_closes e (shown (cw_closes w))).
Proof. intros [_ Hs _]. unfold read_closes. destruct e; [apply map_Forall_empty|done]. Qed.

(** *** What the changes of the records keep *)
Lemma rec_ok_fresh b id : (opens_at id ≤ b)%nat → rec_ok b id no_record.
Proof. intros Hid. split; done. Qed.

Lemma rec_ok_set_kind b id k r : rec_ok b id r → rec_ok b id (set_kind k r).
Proof. intros []. by split. Qed.

Lemma recs_ok_default b m id : recs_ok b m → (opens_at id ≤ b)%nat → rec_ok b id (default no_record (m !! id)).
Proof. intros Hm Hid. destruct (m !! id) eqn:E; [by apply Hm|by apply rec_ok_fresh]. Qed.

Lemma recs_ok_record b m id k :
  (opens_at id ≤ b)%nat → recs_ok b m → recs_ok b (<[id := set_kind k (default no_record (m !! id))]> m).
Proof. intros Hid Hm. apply map_Forall_insert_2; [|done]. by apply rec_ok_set_kind, recs_ok_default. Qed.

Lemma recs_ok_alter b m id k : recs_ok b m → recs_ok b (alter (set_kind k) id m).
Proof.
  intros Hm i r. rewrite lookup_alter_Some. intros [(<- & x & Hx & ->)|[_ Hr]]; [|by apply Hm].
  by apply rec_ok_set_kind, Hm.
Qed.

Lemma recs_ok_track b n cs m :
  (b ≤ n)%nat → Forall (λ c, c ∈ list_chan n) cs → recs_ok b m → recs_ok n (track_all cs m).
Proof.
  intros Hb Hcs Hm. apply (recs_ok_mono b n) in Hm; [|done]. clear b Hb. unfold track_all. revert m Hm.
  induction Hcs as [|c cs Hc _ IH]; intros m Hm; [done|]. cbn [foldl]. apply IH. apply map_Forall_insert_2; [|done].
  assert (Hid : (opens_at (ch_channel_id c) ≤ n)%nat) by (by apply (oo_listed outside), list_elem_of_fmap_2).
  destruct (recs_ok_default _ _ _ Hm Hid) as [Hw Ho _ Hcl]. split; [done|done| |done].
  intros t Ht. unfold pending_funding_txid in Ht. simpl in Ht. destruct (ch_funding_txid c) eqn:Ef; [|done].
  case_match; [|done]. injection Ht as <-. by exists n, c.
Qed.

Lemma recs_ok_mark n k m sync :
  (n ≤ k)%nat → from_option (in_range u64_max) True sync → recs_ok n m →
  recs_ok n (fst (mark_closed_seen m (listed_at n) (pay_now_secs k) sync)).
Proof.
  intros Hk Hs Hm id r'. simpl. rewrite map_lookup_imap, bind_Some. intros (r & Hr & [= <-]).
  pose proof (Hm _ _ Hr) as [Hw Ho Hf Hc]. destruct (needs_stamp _ _ _ _) eqn:E; [|done].
  apply andb_true_iff in E as [E _]. apply negb_true_iff, bool_decide_eq_false in E.
  destruct (oo_unlisted outside id n E Ho) as (x & Ex & Hx). split; [|done|done|].
  - split; [|done]. simpl. pose proof (oo_width outside k) as Hn. unfold in_range, SYNC_SLACK_SECS in *. lia.
  - simpl. intros c [= <-]. exists x, k. split; [done|]. split; [lia|done].
Qed.

Lemma recs_ok_filter b m P `{∀ x, Decision (P x)} : recs_ok b m → recs_ok b (filter P m).
Proof. intros Hm id r [Hr _]%map_lookup_filter_Some. by apply Hm. Qed.

(** ** Programs

    The invariant holds after every step; nobody else runs. *)
Definition crg {A} (m : Chan A) (w : ChanWorld) (Q : result LnError A → ChanWorld → Prop) : Prop :=
  rg eq (λ _ w', chan_inv (cw_asked w') w') m w Q.

Lemma crg_bind {A B} (m : Chan A) (f : A → Chan B) w (Q : result LnError B → ChanWorld → Prop) :
  crg m w (λ r w', match r with Ok a => crg (f a) w' Q | Err e => Q (Err e) w' | Panic => Q Panic w' end) →
  crg (m ≫= f) w Q.
Proof. intros Hm. apply rg_bind. eapply rg_mono; [|exact Hm]. by intros [a|e|] w'. Qed.

Lemma crg_mono {A} (m : Chan A) w (Q Q' : result LnError A → ChanWorld → Prop) :
  crg m w Q → (∀ r w', Q r w' → Q' r w') → crg m w Q'.
Proof. intros Hm HQ. by eapply rg_mono. Qed.

Lemma crg_step {A} (f : ChanWorld → result LnError A * ChanWorld) w Q :
  chan_inv (cw_asked (snd (f w))) (snd (f w)) → Q (fst (f w)) (snd (f w)) → crg (atomically f) w Q.
Proof. intros HG HQ. apply rg_atomically. intros ? <-. done. Qed.

Lemma inv_step b w w' :
  chan_inv b w → cw_closes w' = cw_closes w → cw_asked w' = S (cw_asked w) →
  chan_inv b w' ∧ chan_inv (cw_asked w') w'.
Proof.
  intros Hi Ec Ea. assert (Hb : chan_inv b w') by (destruct Hi; split; rewrite ?Ec, ?Ea; [lia|done..]).
  split; [done|]. eapply chan_inv_mono; [|done]. split; [apply Hb|done].
Qed.

Lemma inv_now b w : chan_inv b w → chan_inv (cw_asked w) w.
Proof. intros Hi. eapply chan_inv_mono; [|done]. split; [apply Hi|done]. Qed.

Lemma crg_ask {A} (f : nat → A) b w : chan_inv b w →
  crg (ask f) w (λ r w', r = Ok (f (cw_asked w)) ∧ cw_asked w' = S (cw_asked w) ∧ chan_inv b w').
Proof. intros Hi. destruct (inv_step b w (tick_chan w) Hi eq_refl eq_refl). by apply crg_step. Qed.

Lemma read_subset e f : read_closes e f ⊆ closes_of f.
Proof. destruct e; [apply map_empty_subseteq|done]. Qed.

Lemma mark_nothing m listed now sync : snd (mark_closed_seen m listed now sync) = false → fst (mark_closed_seen m listed now sync) = m.
Proof.
  simpl. intros Hn%bool_decide_eq_false. apply map_eq. intros id. rewrite map_lookup_imap.
  destruct (m !! id) as [r|] eqn:E; [|done]. simpl. f_equal. destruct (needs_stamp _ _ _ _) eqn:En; [|done].
  destruct Hn. exists id, r. done.
Qed.

Lemma crg_load b w : chan_inv b w →
  crg load_closes w (λ r w', ∃ m, r = Ok m ∧ recs_ok b m ∧ m ⊆ closes_of (shown (cw_closes w')) ∧
    cw_asked w' = S (cw_asked w) ∧ chan_inv b w').
Proof.
  intros Hi. destruct (inv_step b w (tick_chan w) Hi eq_refl eq_refl). apply crg_step; [done|]. simpl.
  eexists. split; [done|]. split; [by apply read_recs_ok|]. split; [apply read_subset|done].
Qed.

Lemma crg_update b f w : chan_inv b w → (∀ m, recs_ok b m → recs_ok b (f m)) →
  crg (update_closes f) w (λ r w', (∃ x, r = Ok x) ∧ cw_asked w' = S (cw_asked w) ∧ chan_inv b w').
Proof.
  intros Hi Hf. set (m := without_empty (f (read_closes (read_error (cw_asked w)) (shown (cw_closes w))))).
  assert (Hm : recs_ok b m) by (by apply recs_ok_without, Hf, read_recs_ok).
  assert (Hx : ∀ d, (d = cw_closes w ∨ ∃ l, d = {| shown := FMap (to_json <$> m); older := l |} ∧
      Forall (λ f, recs_ok b (closes_of f)) l) → chan_inv b (set_closes (tick_chan w) d)).
  { destruct Hi as [Ha Hs Ho]. intros d [->|(l & -> & Hl)]; (split; [simpl; lia| |]); simpl; try done.
    pose proof (closes_of_written m) as Hw. unfold m in Hw. rewrite without_empty_idem in Hw. fold m in Hw.
    simpl in Hw. rewrite Hw; [done|by eapply recs_ok_width]. }
  assert (Hy : ∀ d, chan_inv b (set_closes (tick_chan w) d) → chan_inv (S (cw_asked w)) (set_closes (tick_chan w) d)).
  { intros d. apply chan_inv_mono. simpl. pose proof (ci_asked _ _ Hi). lia. }
  unfold update_closes. apply crg_step; cbv beta zeta; fold m; case_decide; cbn [fst snd cw_asked set_closes tick_chan].
  - by apply Hy with (d := cw_closes w), Hx; left.
  - apply Hy, Hx. destruct (write_outcome _); simpl; [right; by exists []|by left|right].
    eexists. split; [done|]. by constructor; [apply Hi|apply Hi].
  - split; [by eexists|]. split; [done|]. by apply (Hx (cw_closes w)); left.
  - split; [by eexists|]. split; [done|]. apply Hx. destruct (write_outcome _); simpl; [right; by exists []|by left|right].
    eexists. split; [done|]. by constructor; [apply Hi|apply Hi].
Qed.

(** [preserves b m]: from records that were right for the channels known at
    step [b]. *)
Definition preserves {A} (b : nat) (m : Chan A) : Prop := ∀ w, chan_inv b w → crg m w (λ _ w', chan_inv b w').

Lemma preserves_bind {A B} b (m : Chan A) (f : A → Chan B) :
  preserves b m → (∀ a, preserves b (f a)) → preserves b (m ≫= f).
Proof.
  intros Hm Hf w Hw. apply crg_bind. eapply crg_mono; [by apply Hm|]. intros [a|e|] w' Hw'; [by apply Hf|done..].
Qed.
Lemma preserves_ret {A} b (r : result LnError A) : preserves b (Done r).
Proof. by intros w. Qed.
Lemma preserves_lift {A} b (r : result LnError A) : preserves b (chan_lift r).
Proof. by intros w. Qed.
Lemma preserves_node {A} b (f : NodeError → result LnError A) r : preserves b (node_result f r).
Proof. by intros w. Qed.
Lemma preserves_ask {A} b (f : nat → A) : preserves b (ask f).
Proof. intros w Hw. eapply crg_mono; [by eapply crg_ask|]. by intros r w' (_ & _ & ?). Qed.
Lemma preserves_load b : preserves b load_closes.
Proof. intros w Hw. eapply crg_mono; [by eapply crg_load|]. by intros r w' (m & _ & _ & _ & _ & ?). Qed.
Lemma preserves_update b f : (∀ m, recs_ok b m → recs_ok b (f m)) → preserves b (update_closes f).
Proof. intros Hf w Hw. eapply crg_mono; [by eapply crg_update|]. by intros r w' (_ & _ & ?). Qed.
Lemma preserves_call {A} b (f : ChanWorld → A) (c : ChanWorld → LdkCall) :
  preserves b (atomically (λ w, (Ok (f w), add_call (tick_chan w) (c w)))).
Proof.
  intros w Hw. destruct (inv_step b w (add_call (tick_chan w) (c w)) Hw eq_refl eq_refl). by apply crg_step.
Qed.

Create HintDb chan.
Hint Resolve preserves_ret preserves_lift preserves_node preserves_ask preserves_load preserves_call : chan.
Hint Extern 1 (preserves _ (mret _)) => apply preserves_ret : chan.
Ltac chan_walk := repeat first
  [ solve [auto with chan nocore] | apply preserves_bind; [|intros ?] | case_match | case_decide ].

Lemma preserves_running b : preserves b need_running.
Proof. unfold need_running. chan_walk. Qed.
Lemma preserves_checks b : preserves b pre_send_checks.
Proof. unfold pre_send_checks. chan_walk. Qed.
Lemma preserves_exit b mode : preserves b (exit_gate mode).
Proof. unfold exit_gate. chan_walk. Qed.
Lemma preserves_sync b : preserves b sync_before_spend.
Proof. unfold sync_before_spend. chan_walk. Qed.
Lemma preserves_reach b : preserves b reach_lsp.
Proof. unfold reach_lsp. chan_walk. Qed.
Lemma preserves_peer b : preserves b keep_lsp_peer.
Proof. unfold keep_lsp_peer. chan_walk. Qed.
Hint Resolve preserves_running preserves_checks preserves_exit preserves_sync preserves_reach preserves_peer : chan.
Lemma preserves_target b : preserves b splice_target.
Proof. unfold splice_target. chan_walk. Qed.
Hint Resolve preserves_target : chan.

Lemma preserves_record b id k : (opens_at id ≤ b)%nat → preserves b (record_close id k).
Proof. intros Hid. apply preserves_update. intros m. by apply recs_ok_record. Qed.
Lemma preserves_restore b id k : preserves b (restore_kind id k).
Proof. unfold restore_kind. apply preserves_bind; [|chan_walk]. apply preserves_update. intros m. apply recs_ok_alter. Qed.
Hint Resolve preserves_record preserves_restore : chan.

(** ** A look at the node *)

(** The channels are those of step [n], and the records have been right since
    some step [b]; afterwards they are right for step [n]. *)
Lemma crg_track b n sync w :
  chan_inv b w → (b ≤ n ≤ cw_asked w)%nat → from_option (in_range u64_max) True sync →
  crg (track_funding (list_chan n) sync) w (λ r w', (cw_asked w ≤ cw_asked w')%nat ∧ chan_inv n w' ∧
    ∀ m, r = Ok m → recs_ok n m ∧ m ⊆ closes_of (shown (cw_closes w'))).
Proof.
  intros Hi Hn Hs. apply (chan_inv_mono b n) in Hi; [|lia]. clear b Hn. unfold track_funding.
  apply crg_bind. eapply crg_mono; [by eapply crg_load|]. intros ? w1 (m & -> & Hm & Hsub & E1 & Hi1).
  apply crg_bind. apply crg_step; [by eapply inv_step|]. cbn [fst snd asked tick ChanWorld_asks]. fold (listed_at n).
  destruct (inv_step n w1 (tick_chan w1) Hi1 eq_refl eq_refl) as [Hi2 _]. pose proof (ci_asked _ _ Hi) as Hle.
  pose proof (recs_ok_mark n (cw_asked w1) m sync ltac:(lia) Hs Hm) as Hmark.
  pose proof (mark_nothing m (listed_at n) (pay_now_secs (cw_asked w1)) sync) as Hno.
  destruct (mark_closed_seen m _ _ _) as [m' u]. cbn [fst snd] in Hmark, Hno. case_match eqn:Eu.
  { split; [simpl; lia|]. split; [done|]. intros ? [= <-]. split; [done|].
    apply andb_true_iff in Eu as [_ Eu%negb_true_iff]. by rewrite (Hno Eu). }
  apply crg_bind. eapply crg_mono; [eapply crg_update; [exact Hi2|]|].
  { intros m1 Hm1. apply recs_ok_mark; [lia|done|]. apply (recs_ok_track n); [done|by apply Forall_forall|done]. }
  intros ? w3 ((x & ->) & E3 & Hi3). eapply crg_mono; [by eapply crg_load|]. simpl in E3.
  intros ? w4 (m4 & -> & Hm4 & Hsub4 & E4 & Hi4). split; [lia|]. split; [done|]. by intros ? [= <-].
Qed.

Lemma crg_each {A B} b (f : A → Chan B) (P : B → Prop) l w :
  (∀ a w, a ∈ l → chan_inv b w → crg (f a) w (λ r w', chan_inv b w' ∧ ∀ x, r = Ok x → P x)) →
  chan_inv b w → crg (each f l) w (λ r w', chan_inv b w' ∧ ∀ x, r = Ok x → Forall P x).
Proof.
  revert w. induction l as [|a l IH]; intros w Hf Hi; cbn [each].
  { split; [done|]. by intros ? [= <-]. }
  apply crg_bind. eapply crg_mono; [apply Hf; [by left|done]|]. intros [x|e|] w1 (Hi1 & Hx); [|done..].
  apply crg_bind. eapply crg_mono; [apply IH; [|done]|].
  { intros a' w' Ha'. apply Hf. by right. }
  intros [xs|e|] w2 (Hi2 & Hxs); [|done..]. split; [done|]. intros ? [= <-]. constructor; [by apply Hx|by apply Hxs].
Qed.

Lemma crg_seen b t w : chan_inv b w → txid_ok t = true →
  crg (wallet_seen t) w (λ r w', chan_inv b w' ∧
    ∀ x, r = Ok x → x ≠ FundingConfirmed → ∃ m, (b ≤ m)%nat ∧ payment_status m t ≠ Some OnchainConfirmed).
Proof.
  intros Hi Ht. unfold wallet_seen. rewrite Ht. apply crg_bind. eapply crg_mono; [by eapply crg_ask|].
  intros ? w1 (-> & _ & Hi1). split; [done|]. intros x [= <-] Hx. exists (cw_asked w). split; [apply Hi|].
  by destruct (payment_status _ _) as [[]|].
Qed.

(** A record taken for void is one of a channel that never was funded. *)
Lemma void_sound n b r id t seen sync lsync :
  rec_ok b id r → cr_unconfirmed_funding r = Some t →
  (seen ≠ FundingConfirmed → ∃ m, (n ≤ m)%nat ∧ payment_status m t ≠ Some OnchainConfirmed) →
  sync = fst (sync_status n) →
  funding_void {| fv_chain := chain_kind; fv_seen := seen; fv_closed_seen_at := cr_closed_seen_at r;
    fv_onchain_sync_at_close_seen := cr_onchain_sync_at_close_seen r; fv_onchain_sync_secs := sync;
    fv_lightning_sync_secs := lsync |} = true → never_funded n id.
Proof.
  intros [_ _ Hf Hc] Ht Hx -> Hv. unfold funding_void in Hv. cbn in Hv. case_decide as Hseen; [done|].
  destruct (Hx Hseen) as (m & Hm & Hp). exists t. split; [by apply Hf|].
  destruct chain_kind; [by exists m|].
  destruct (cr_closed_seen_at r) as [c|]; [|done]. destruct (cr_onchain_sync_at_close_seen r) as [s0|]; [|done].
  destruct (fst (sync_status n)) as [s|] eqn:Es; [|done]. apply andb_true_iff in Hv as [[_ Hle]%andb_true_iff _].
  apply Z.leb_le in Hle. destruct (Hc c eq_refl) as (k & i & Ek & Hk & ->).
  destruct (oo_sync outside n m s t Es Hm Hp) as (j & _ & Hj & Hcj).
  exists k, i, j. split; [done|]. split; [done|]. split; [|done].
  pose proof (oo_width outside i). unfold saturating_add, SYNC_SLACK_SECS in *. lia.
Qed.

Lemma funding_txid_ok id t : funding_of id t → txid_ok t = true.
Proof. intros (n & c & Hc & _ & Ht). by eapply oo_txid. Qed.

Lemma crg_void open n b x w :
  chan_inv b w → (n ≤ b)%nat → rec_ok b (fst x) (snd x) →
  crg (record_void open (sync_status n) x) w (λ r w', chan_inv b w' ∧ ∀ l, r = Ok l → Forall (never_funded n) l).
Proof.
  intros Hi Hn Hr. destruct x as [id r]. unfold record_void.
  assert (Hnil : crg (mret []) w (λ r w', chan_inv b w' ∧ ∀ l, r = Ok l → Forall (never_funded n) l)).
  { split; [done|]. by intros ? [= <-]. }
  destruct (cr_unconfirmed_funding r) as [t|] eqn:Et; [|done]. case_bool_decide; [done|].
  apply crg_bind. eapply crg_mono; [apply crg_seen; [done|]|].
  { eapply funding_txid_ok. by eapply ro_funding. }
  intros [seen|e|] w1 (Hi1 & Hs); [|done..]. split; [done|]. intros ? [= <-]. case_match eqn:Ev; constructor; [|done].
  eapply (void_sound n); [exact Hr|exact Et| |done|exact Ev]. intros Hseen.
  destruct (Hs seen eq_refl Hseen) as (m & Hm & Hp). exists m. split; [lia|exact Hp].
Qed.

(** *** Steps that only ask *)
Definition still (w w' : ChanWorld) : Prop := cw_closes w' = cw_closes w ∧ cw_calls w' = cw_calls w.
Definition quiet {A} (m : Chan A) : Prop := always still m (λ _, True).

Lemma crg_still {A} (m : Chan A) w Q : quiet m → crg m w Q → crg m w (λ r w', Q r w' ∧ still w w').
Proof.
  revert w. induction m as [r|f k IH]; intros w Hq Hm; [done|]. intros ? <-. destruct (Hq w) as [[E1 E2] Hk].
  destruct (Hm w eq_refl) as [HG Hr]. split; [done|]. eapply rg_mono; [|by apply IH].
  intros r w' [HQ [E3 E4]]. split; [done|]. split; congruence.
Qed.

Lemma chan_quiet_bind {A B} (m : Chan A) (f : A → Chan B) : quiet m → (∀ a, quiet (f a)) → quiet (m ≫= f).
Proof. intros Hm Hf. apply always_bind. eapply always_mono; [|exact Hm]. intros [a|e|] _; [apply Hf|done..]. Qed.
Lemma chan_quiet_ret {A} (a : A) : quiet (mret a).
Proof. done. Qed.
Lemma chan_quiet_lift {A} (r : result LnError A) : quiet (chan_lift r).
Proof. done. Qed.
Lemma chan_quiet_ask {A} (f : nat → A) : quiet (ask f).
Proof. by intros w. Qed.
Hint Resolve chan_quiet_ret chan_quiet_lift chan_quiet_ask : chan.
Ltac quiet_walk := repeat first [ solve [auto with chan nocore] | apply chan_quiet_bind; [|intros ?] | case_match ].

Lemma quiet_each {A B} (f : A → Chan B) l : (∀ a, quiet (f a)) → quiet (each f l).
Proof. intros Hf. induction l as [|a l IH]; cbn [each]; quiet_walk. Qed.
Lemma quiet_seen t : quiet (wallet_seen t).
Proof. unfold wallet_seen. quiet_walk. Qed.
Hint Resolve quiet_each quiet_seen : chan.
Lemma quiet_void open status x : quiet (record_void open status x).
Proof. unfold record_void. quiet_walk. Qed.
Lemma quiet_sweep p : quiet (sweep_balance p).
Proof. unfold sweep_balance. quiet_walk. Qed.

(** What a look at the node shows, from the step it lists the channels. *)
Record snap_ok (n : nat) (s : Snapshot) : Prop := {
  so_channels : sn_channels s = list_chan n;
  so_monitors : ∃ void, Forall (never_funded n) void ∧
    bi_monitors (sn_inputs s) = map (λ lb, monitor_balance lb (listed_at n) (sn_closes s) void)
      (bd_lightning_balances (list_balances (S n)));
  so_sweeps : Forall2 (λ p x, sb_state x = SweepConfirmed → ∃ c a, p = AwaitingThresholdConfirmations c a)
    (bd_pending_balances_from_channel_closures (list_balances (S n))) (bi_sweeps (sn_inputs s));
}.

Lemma crg_sweeps b l w : chan_inv b w →
  crg (each sweep_balance l) w (λ r w', chan_inv b w' ∧ ∀ xs, r = Ok xs →
    Forall2 (λ p x, sb_state x = SweepConfirmed → ∃ c a, p = AwaitingThresholdConfirmations c a) l xs).
Proof.
  revert w. induction l as [|p l IH]; intros w Hi; cbn [each]; [split; [done|]; by intros ? [= <-]|].
  apply crg_bind. eapply (crg_mono _ _ (λ r w', chan_inv b w' ∧ ∀ x, r = Ok x → sb_state x = SweepConfirmed →
    ∃ c a, p = AwaitingThresholdConfirmations c a)).
  { destruct p; cbn [sweep_balance]; [split; [done|]; by intros ? [= <-]| |split; [done|]; intros; by eauto].
    apply crg_bind. eapply crg_mono; [by eapply crg_ask|]. intros ? w1 (-> & _ & Hi1). split; [done|]. by intros ? [= <-]. }
  intros [x|e|] w1 (Hi1 & Hx); [|done..]. apply crg_bind. eapply crg_mono; [by apply IH|].
  intros [xs|e|] w2 (Hi2 & Hxs); [|done..]. split; [done|]. intros ? [= <-]. constructor; [by apply Hx|by apply Hxs].
Qed.

Lemma crg_snapshot b w : chan_inv b w →
  crg take_snapshot w (λ r w', chan_inv (cw_asked w') w' ∧
    ∀ s, r = Ok s → (cw_asked w < cw_asked w')%nat ∧ snap_ok (cw_asked w) s ∧ sn_closes s ⊆ closes_of (shown (cw_closes w'))).
Proof.
  intros Hi. unfold take_snapshot. set (Q := λ (r : result LnError Snapshot) (w' : ChanWorld), chan_inv (cw_asked w') w' ∧ _).
  assert (Hend : ∀ b (r : result LnError Snapshot) w', chan_inv b w' → r = Panic ∨ (∃ e, r = Err e) → Q r w').
  { intros b' r w' Hw' Hr. split; [by eapply inv_now|]. by destruct Hr as [->|[? ->]]. }
  apply crg_bind. eapply crg_mono; [by eapply crg_ask|]. intros ? w1 (-> & E1 & Hi1).
  apply crg_bind. eapply crg_mono; [by eapply crg_ask|]. intros ? w2 (-> & E2 & Hi2).
  apply crg_bind. eapply crg_mono; [by eapply crg_ask|]. intros ? w3 (-> & E3 & Hi3).
  pose proof (ci_asked _ _ Hi) as Hle.
  apply crg_bind. eapply crg_mono; [apply (crg_track b (cw_asked w)); [done|lia|]|].
  { destruct (fst _) eqn:Es; [|done]. by eapply oo_sync_width. }
  fold (listed_at (cw_asked w)). intros [closes|e|] w4 (H4 & Hi4 & Hm); [|by eapply Hend; eauto..].
  destruct (Hm _ eq_refl) as [Hm' Hsub]. clear Hm. assert (Hn : (cw_asked w < cw_asked w4)%nat) by lia.
  apply inv_now in Hi4. apply (recs_ok_mono _ (cw_asked w4)) in Hm'; [|lia].
  apply crg_bind. eapply crg_mono; [apply crg_still; [apply quiet_each, quiet_void|];
    apply (crg_each (cw_asked w4) _ (Forall (never_funded (cw_asked w2)))); [|done]|].
  { intros [id r] w' Hin%elem_of_map_to_list Hw'. apply crg_void; [done|lia|]. by apply Hm'. }
  intros [void|e|] w5 ((Hi5 & Hv) & E5 & _); [|by eapply Hend; eauto..]. specialize (Hv _ eq_refl).
  apply crg_bind. eapply crg_mono; [apply crg_still; [apply quiet_each, quiet_sweep|]; by apply crg_sweeps|].
  intros [sweeps|e|] w6 ((Hi6 & Hsw) & E6 & _); [|by eapply Hend; eauto..]. specialize (Hsw _ eq_refl).
  split; [by eapply inv_now|]. intros ? [= <-]. rewrite E1 in *. pose proof (ci_asked _ _ Hi6).
  split; [lia|]. split; [|rewrite E6, E5; exact Hsub]. split; [done| |exact Hsw]. exists (concat void).
  split; [|done]. apply Forall_concat. eapply Forall_impl; [exact Hv|]. intros l Hl. simpl in Hl.
  eapply Forall_impl; [exact Hl|]. intros id. apply never_funded_mono. lia.
Qed.

(** ** The operations *)

(** [ends_well m]: from records that are right now. *)
Definition ends_well {A} (m : Chan A) : Prop :=
  ∀ w, chan_inv (cw_asked w) w → crg m w (λ _ w', chan_inv (cw_asked w') w').

Lemma ends_well_bind {A B} (m : Chan A) (f : A → Chan B) : ends_well m → (∀ a, ends_well (f a)) → ends_well (m ≫= f).
Proof. intros Hm Hf w Hw. apply crg_bind. eapply crg_mono; [by apply Hm|]. intros [a|e|] w' Hw'; [by apply Hf|done..]. Qed.

Lemma preserves_ends {A} (m : Chan A) : (∀ b, preserves b m) → ends_well m.
Proof. intros Hm w Hw. eapply crg_mono; [by eapply Hm|]. intros r w'. apply inv_now. Qed.

Lemma snapshot_ends : ends_well take_snapshot.
Proof. intros w Hw. eapply crg_mono; [by eapply crg_snapshot|]. by intros r w' [? _]. Qed.

Lemma prune_preserves b s : preserves b (prune s).
Proof. unfold prune. case_bool_decide; [chan_walk|]. apply preserves_bind; [|chan_walk]. apply preserves_update. intros m. by apply recs_ok_filter. Qed.

Lemma preserves_kind b c k : c ∈ ch_channel_id <$> list_chan b → preserves b (record_close c k).
Proof. intros Hc. by apply preserves_record, (oo_listed outside). Qed.

Lemma close_each_preserves n one l r :
  (∀ r c, c ∈ list_chan n → preserves n (one r c)) → (∀ c, c ∈ l → c ∈ list_chan n) → preserves n (close_each one r l).
Proof.
  intros Ho. revert r. induction l as [|c l IH]; intros r Hl; cbn [close_each]; [chan_walk|].
  apply preserves_bind; [apply Ho, Hl; by left|]. intros r'. apply IH. intros c' Hc'. apply Hl. by right.
Qed.

Lemma close_one_preserves n closes r c : c ∈ list_chan n → preserves n (close_one closes r c).
Proof.
  intros Hc. pose proof (preserves_kind n (ch_channel_id c) Coop (list_elem_of_fmap_2 _ _ _ Hc)).
  unfold close_one, ask_close. chan_walk.
Qed.
Lemma force_close_one_preserves n closes r c : c ∈ list_chan n → preserves n (force_close_one closes r c).
Proof.
  intros Hc. pose proof (preserves_kind n (ch_channel_id c) Force (list_elem_of_fmap_2 _ _ _ Hc)).
  unfold force_close_one, ask_close. chan_walk.
Qed.

(** Closing, from the step that lists the channels. *)
Lemma closing_ends (between : Chan unit) (one : Closes → result LnError unit → ChanDetails → Chan (result LnError unit)) :
  (∀ b, preserves b between) → (∀ n closes r c, c ∈ list_chan n → preserves n (one closes r c)) →
  ends_well (channels ← ask list_chan;
    _ ← chan_lift (bail_if (bool_decide (channels = [])) (LnOther "no_channel"));
    _ ← between;
    closes ← load_closes;
    status ← ask sync_status;
    _ ← track_funding channels (fst status);
    result ← close_each (one closes) (Ok tt) channels;
    _ ← keep_lsp_peer;
    chan_lift result).
Proof.
  intros Hbt Hone w Hw. apply crg_bind. eapply crg_mono; [by eapply crg_ask|]. intros ? w1 (-> & _ & Hi1).
  set (n := cw_asked w) in *. clearbody n. clear w Hw.
  eapply (crg_mono _ _ (λ _ w', chan_inv n w')); [|intros r w'; apply inv_now]. revert w1 Hi1.
  change (preserves n (_ ← chan_lift (bail_if (bool_decide (list_chan n = [])) (LnOther "no_channel"));
    _ ← between; closes ← load_closes; status ← ask sync_status; _ ← track_funding (list_chan n) (fst status);
    result ← close_each (one closes) (Ok tt) (list_chan n); _ ← keep_lsp_peer; chan_lift result)).
  apply preserves_bind; [chan_walk|intros _]. apply preserves_bind; [apply Hbt|intros _].
  apply preserves_bind; [chan_walk|intros closes]. intros w Hw.
  apply crg_bind. eapply crg_mono; [by eapply crg_ask|]. intros ? w1 (-> & _ & Hi1).
  apply crg_bind. eapply crg_mono; [apply (crg_track n n); [done|split; [done|apply Hi1]|]|].
  { destruct (fst _) eqn:Es; [|done]. by eapply oo_sync_width. }
  intros [m|e|] w2 (_ & Hi2 & _); [|done..]. revert w2 Hi2.
  change (preserves n (result ← close_each (one closes) (Ok tt) (list_chan n); _ ← keep_lsp_peer; chan_lift result)).
  apply preserves_bind; [apply close_each_preserves; [by intros; apply Hone|done]|intros r]. chan_walk.
Qed.

Lemma close_channel_ends : ends_well close_channel.
Proof.
  unfold close_channel. apply ends_well_bind; [apply preserves_ends; intros; chan_walk|intros mode].
  apply ends_well_bind; [apply preserves_ends; intros; chan_walk|intros _].
  apply (closing_ends (_ ← reach_lsp; pre_send_checks) close_one); [intros b; chan_walk|apply close_one_preserves].
Qed.
Lemma force_close_channel_ends : ends_well force_close_channel.
Proof.
  unfold force_close_channel. apply ends_well_bind; [apply preserves_ends; intros; chan_walk|intros _].
  apply (closing_ends pre_send_checks force_close_one); [intros b; chan_walk|apply force_close_one_preserves].
Qed.

Lemma channel_state_ends : ends_well channel_state.
Proof.
  unfold channel_state. apply ends_well_bind; [apply preserves_ends; intros; chan_walk|intros [mode|]].
  - apply ends_well_bind; [apply snapshot_ends|intros s]. apply preserves_ends. intros b.
    apply preserves_bind; [apply prune_preserves|intros; chan_walk].
  - apply preserves_ends. intros; chan_walk.
Qed.
Lemma balances_of_ends : ends_well balances_of.
Proof.
  unfold balances_of. apply ends_well_bind; [apply snapshot_ends|intros s]. apply preserves_ends. intros; chan_walk.
Qed.
Lemma open_channel_ends a : ends_well (open_channel a).
Proof. apply preserves_ends. intros b. unfold open_channel, disabled_in_exit. chan_walk. Qed.
Lemma splice_in_ends a : ends_well (splice_in a).
Proof. apply preserves_ends. intros b. unfold splice_in, disabled_in_exit. chan_walk. Qed.
Lemma splice_out_ends a t : ends_well (splice_out a t).
Proof. apply preserves_ends. intros b. unfold splice_out, check_address. chan_walk. Qed.
Lemma transit_address_ends : ends_well transit_address.
Proof. apply preserves_ends. intros b. unfold transit_address. chan_walk. Qed.
Lemma closed_event_ends id reason w k :
  closes_at id = Some k → (k ≤ cw_asked w)%nat → chan_inv (cw_asked w) w →
  crg (record_closed_event id reason) w (λ _ w', chan_inv (cw_asked w') w').
Proof.
  intros Ek Hk Hw.
  assert (Hp : preserves (cw_asked w) (record_closed_event id reason)).
  { unfold record_closed_event. apply preserves_bind; [|intros; chan_walk]. apply preserves_record.
    pose proof (oo_order outside _ _ Ek). lia. }
  eapply crg_mono; [by apply Hp|]. intros r w'. apply inv_now.
Qed.

(** ** Sweeping *)

(** Nothing in the transit wallet is still needed, going by the channels of
    step [n], the balances that follow and the records [m]: no opening is under
    way; every sweep of ldk-node's has confirmed; and a balance that the
    monitors still show is of a listed channel, of a cooperative close, or of a
    channel that never was funded. *)
Record sweep_safe (n : nat) (m : Closes) : Prop := {
  ss_opening c : c ∈ list_chan n → funding_in_flight c m = false;
  ss_sweeps p : p ∈ bd_pending_balances_from_channel_closures (list_balances (S n)) → ∃ c a, p = AwaitingThresholdConfirmations c a;
  ss_monitors lb : lb ∈ bd_lightning_balances (list_balances (S n)) → let id := balance_channel lb in
    id ∈ listed_at n ∨ never_funded n id ∨ snd (claimable lb) = CoopConfirmed ∨
    (snd (claimable lb) = OnClose ∧ (m !! id ≫= cr_kind) = Some Coop);
}.

Lemma existsb_false {A} (f : A → bool) l a : existsb f l = false → a ∈ l → f a = false.
Proof.
  induction l as [|x l IH]; [by intros _ ?%elem_of_nil|]. intros [Hx Hl]%orb_false_iff [->|Hin]%elem_of_cons; auto.
Qed.

Lemma sweep_safe_checked n s m :
  snap_ok n s → sn_closes s ⊆ m → existsb (λ c, funding_in_flight c (sn_closes s)) (sn_channels s) = false →
  closing_unresolved (sn_inputs s) = false → sweep_safe n m.
Proof.
  intros [Ec (void & Hv & Em) Hs] Hsub Hf [Hmon Hsw]%orb_false_iff. rewrite Ec in Hf. split.
  - intros c Hc. pose proof (existsb_false _ _ _ Hf Hc) as Hx. unfold funding_in_flight, funding_blocks in *.
    destruct (funding_unconfirmed c); [|done]. simpl in *. destruct (sn_closes s !! ch_channel_id c) as [r|] eqn:E; [|done].
    eapply lookup_weaken in E; [|exact Hsub]. by rewrite E.
  - intros p Hp. apply list_elem_of_lookup in Hp as [i Hi]. destruct (Forall2_lookup_l _ _ _ _ _ Hs Hi) as (x & Hx & Hpx).
    apply Hpx. apply list_elem_of_lookup_2 in Hx. pose proof (existsb_false _ _ _ Hsw Hx) as Hb.
    by apply negb_false_iff, bool_decide_eq_true in Hb.
  - intros lb Hlb id. set (mb := monitor_balance lb (listed_at n) (sn_closes s) void).
    assert (Hin : mb ∈ bi_monitors (sn_inputs s)) by (rewrite Em; exact (list_elem_of_fmap_2 (λ lb, monitor_balance lb (listed_at n) (sn_closes s) void) _ _ Hlb)).
    pose proof (existsb_false _ _ _ Hmon Hin) as Hb. simpl in Hb. fold id in Hb.
    case_bool_decide; [by left|]. right. case_bool_decide as Hvd; [left; rewrite Forall_forall in Hv; by apply Hv|]. right.
    simpl in Hb. destruct (snd (claimable lb)); [right|by left|done]. split; [done|].
    apply negb_false_iff, bool_decide_eq_true in Hb. apply bind_Some in Hb as (r & Hr & Hk).
    eapply lookup_weaken in Hr; [|exact Hsub]. by rewrite Hr.
Qed.

(** *** Steps that ask for no close and no sweep *)
Definition mute {A} (m : Chan A) : Prop := always (λ w w', cw_calls w' = cw_calls w) m (λ _, True).
Lemma quiet_mute {A} (m : Chan A) : quiet m → mute m.
Proof. apply always_weaken. by intros w w' [_ ?]. Qed.
Lemma mute_bind {A B} (m : Chan A) (f : A → Chan B) : mute m → (∀ a, mute (f a)) → mute (m ≫= f).
Proof. intros Hm Hf. apply always_bind. eapply always_mono; [|exact Hm]. intros [a|e|] _; [apply Hf|done..]. Qed.
Lemma mute_ask {A} (f : nat → A) : mute (ask f).
Proof. by intros w. Qed.
Lemma mute_done {A} (r : result LnError A) : mute (Done r).
Proof. done. Qed.
Lemma mute_load : mute load_closes.
Proof. by intros w. Qed.
Lemma mute_update f : mute (update_closes f).
Proof. intros w. split; [|done]. simpl. by case_decide. Qed.
Hint Resolve mute_ask mute_done mute_load mute_update : chan.
Hint Extern 1 (mute (chan_lift _)) => apply mute_done : chan.
Hint Extern 1 (mute (mret _)) => apply mute_done : chan.
Ltac mute_walk := repeat first [ solve [auto with chan nocore] | apply mute_bind; [|intros ?] | case_match ].

Lemma mute_snapshot : mute take_snapshot.
Proof.
  assert (Ht : ∀ l s, mute (track_funding l s)) by (intros; unfold track_funding; mute_walk).
  unfold take_snapshot. mute_walk; try apply Ht; apply quiet_mute, quiet_each; [apply quiet_void|apply quiet_sweep].
Qed.

(** A program that asks for nothing, seen from a world with the calls [l]. *)
Lemma crg_mute {A} (X : ChanWorld → Prop) l (m : Chan A) w Q :
  mute m → crg m w Q → cw_calls w = l →
  rg eq (λ _ w', chan_inv (cw_asked w') w' ∧ (cw_calls w' = l ∨ X w')) m w (λ r w', Q r w' ∧ cw_calls w' = l).
Proof.
  revert w. induction m as [r|f k IH]; intros w Hq Hm Hl; [done|]. intros ? <-. destruct (Hq w) as [E Hk].
  destruct (Hm w eq_refl) as [HG Hr]. rewrite Hl in E. split; [by auto|]. by apply IH.
Qed.

Definition swept (w w' : ChanWorld) : Prop := ∃ n, (cw_asked w ≤ n < cw_asked w')%nat ∧ sweep_safe n (closes_of (shown (cw_closes w'))).

Lemma sweep_spec w to : chan_inv (cw_asked w) w →
  rg eq (λ _ w', chan_inv (cw_asked w') w' ∧ (cw_calls w' = cw_calls w ∨ swept w w')) (sweep_transit to) w (λ _ _, True).
Proof.
  intros Hw. set (l := cw_calls w).
  assert (Hpre : ∀ A B (m : Chan A) (f : A → Chan B) v, mute m → (∀ b, preserves b m) →
    chan_inv (cw_asked w) v → cw_calls v = l →
    (∀ a v', chan_inv (cw_asked w) v' → cw_calls v' = l →
      rg eq (λ _ w', chan_inv (cw_asked w') w' ∧ (cw_calls w' = l ∨ swept w w')) (f a) v' (λ _ _, True)) →
    rg eq (λ _ w', chan_inv (cw_asked w') w' ∧ (cw_calls w' = l ∨ swept w w')) (m ≫= f) v (λ _ _, True)).
  { intros A B m f v Hm Hp Hi Hv Hf. apply rg_bind. eapply rg_mono; [|apply crg_mute; [exact Hm|by eapply Hp|done]].
    intros [a|e|] v' [Hi' Hv']; [by apply Hf|done..]. }
  unfold sweep_transit. apply Hpre; [apply mute_done|intros; apply preserves_lift|done|done|intros _ w1 Hi1 E1].
  apply Hpre; [unfold need_running; mute_walk|intros; apply preserves_running|done|done|intros _ w2 Hi2 E2].
  apply Hpre; [unfold sync_before_spend, node_result; mute_walk|intros; apply preserves_sync|done|done|intros _ w3 Hi3 E3].
  pose proof (ci_asked _ _ Hi3) as Ha3.
  apply rg_bind. eapply rg_mono; [|apply crg_mute; [apply mute_snapshot|by eapply crg_snapshot|done]].
  intros [s|e|] w4 [[Hi4 Hs] E4]; [|done..]. destruct (Hs _ eq_refl) as (Hlt & Hok & Hsub). clear Hs.
  destruct (existsb _ _) eqn:Ef; [done|]. destruct (closing_unresolved _) eqn:Ec; [done|]. cbn [bail_if].
  pose proof (sweep_safe_checked _ _ _ Hok Hsub Ef Ec) as Hsafe. cbn [chan_lift mbind Ln_bind prog_bind]. case_match; [done|].
  apply rg_bind. eapply rg_mono; [|apply crg_mute; [unfold pre_send_checks; mute_walk|apply crg_still;
    [unfold pre_send_checks; quiet_walk|by apply (preserves_checks (cw_asked w4))]|done]].
  intros [u|e|] w5 [[Hi5 [Ed5 _]] E5]; [|done..].
  apply rg_bind. eapply (rg_mono _ _ _ _ (λ _ _, True)); [by intros [?|?|] ? _|]. apply rg_atomically. intros ? <-. split; [|done].
  simpl. pose proof (ci_asked _ _ Hi5). split.
  - destruct (inv_step _ _ (add_call (tick_chan w5) (AskedSweep (cw_asked w5) (negb (bool_decide (sn_channels s = [])))))
      Hi5 eq_refl eq_refl) as [_ ?]. done.
  - right. exists (cw_asked w3). simpl. split; [lia|]. by rewrite Ed5.
Qed.

(** ** Runs *)

(** The process stops; or the power goes, and the file may be an older one. *)
Definition chan_restarts (w w' : ChanWorld) : Prop :=
  (cw_asked w ≤ cw_asked w')%nat ∧ cw_calls w' = cw_calls w ∧
  (cw_closes w' = cw_closes w ∨
   ∃ f, f ∈ shown (cw_closes w) :: older (cw_closes w) ∧ cw_closes w' = {| shown := f; older := [] |}).

(** The operations that may start at step [n]. *)
Inductive chan_job (n : nat) : ∀ A, Chan A → Prop :=
| job_state : chan_job n _ channel_state
| job_balances : chan_job n _ balances_of
| job_address : chan_job n _ transit_address
| job_open a : chan_job n _ (open_channel a)
| job_splice_in a : chan_job n _ (splice_in a)
| job_splice_out a t : chan_job n _ (splice_out a t)
| job_close : chan_job n _ close_channel
| job_force_close : chan_job n _ force_close_channel
| job_sweep t : chan_job n _ (sweep_transit t)
| job_closed id reason k : closes_at id = Some k → (k ≤ n)%nat → chan_job n _ (record_closed_event id reason).

Inductive chan_reach : ChanWorld → Prop :=
| chan_starts : chan_reach (chan_start FMissing)
| chan_runs A (p : Chan A) w w' : chan_reach w → chan_job (cw_asked w) A p → upto p w w' → chan_reach w'
| chan_stops w w' : chan_reach w → chan_restarts w w' → chan_reach w'.

Lemma job_ends n A (p : Chan A) w : chan_job n A p → n = cw_asked w → chan_inv n w →
  rg eq (λ _ w', chan_inv (cw_asked w') w') p w (λ _ _, True).
Proof.
  intros Hj -> Hw. assert (He : ∀ B (q : Chan B), ends_well q → rg eq (λ _ w', chan_inv (cw_asked w') w') q w (λ _ _, True)).
  { intros B q Hq. eapply crg_mono; [by apply Hq|done]. }
  destruct Hj; [apply He|apply He|apply He|apply He|apply He|apply He|apply He|apply He| |].
  - apply channel_state_ends.
  - apply balances_of_ends.
  - apply transit_address_ends.
  - apply open_channel_ends.
  - apply splice_in_ends.
  - apply splice_out_ends.
  - apply close_channel_ends.
  - apply force_close_channel_ends.
  - eapply rg_weaken; [|by apply sweep_spec]. by intros ? ? [? _].
  - eapply crg_mono; [by eapply closed_event_ends|done].
Qed.

Lemma reach_inv w : chan_reach w → chan_inv (cw_asked w) w.
Proof.
  induction 1 as [|A p w w' _ Hw Hj Hu|w w' _ [Ha Hs Ho] (Hle & _ & Hd)].
  - split; [done|apply map_Forall_empty|constructor].
  - exact (upto_keeps (λ w, chan_inv (cw_asked w) w) _ _ _ _ (job_ends _ _ _ _ Hj eq_refl Hw) Hw Hu).
  - cut (chan_inv (cw_asked w) w').
    { intros Hi. by eapply inv_now. }
    destruct Hd as [E|(f & Hf & E)]; (split; [done|rewrite E; try done|rewrite E; try done]); simpl.
    apply elem_of_cons in Hf as [->|Hf]; [done|]. rewrite Forall_forall in Ho. by apply Ho.
Qed.

(** C32. The transit wallet is swept only when nothing in it is still needed
    to get a closed channel's money.  Over any run of the operations one at a
    time, cut off anywhere, with failing files, power cuts and whatever the
    phone's clock does between steps: when ldk-node is asked to send the wallet
    away, the sweep's own look at the node shows no opening under way, no
    unconfirmed sweep, and no balance of a closed channel other than
    cooperative closes and channels that never were funded.  That is, with an
    Esplora server, channels whose funding had not confirmed when the phone's
    clock showed half a minute more than at a moment they had already closed;
    with a bitcoind (tests), channels whose funding the wallet did not show as
    confirmed.  What ldk-node does is assumed as [outside_ok] has it: a channel
    is listed from its opening to its closing and funded by a transaction whose
    id reads as one, times fit 64 bits, and a wallet sync asks for the chain at
    most 20 seconds, by the phone's clock, before the time it is stamped
    with. *)
Theorem sweep_guarded w w' to :
  chan_reach w → upto (sweep_transit to) w w' → cw_calls w' ≠ cw_calls w →
  ∃ n, (cw_asked w ≤ n < cw_asked w')%nat ∧ sweep_safe n (closes_of (shown (cw_closes w'))).
Proof.
  intros Hr Hu Hc. apply reach_inv in Hr.
  destruct (upto_keeps (λ v, chan_inv (cw_asked v) v ∧ (cw_calls v = cw_calls w ∨ swept w v)) _ _ _ _
    (sweep_spec w to Hr) (conj Hr (or_introl eq_refl)) Hu) as [_ [?|?]]; done.
Qed.
End void.
