(* ===== verification/LnRecover.v ===== *)
(** Recovering force-closed channel balances from the seed alone
    ([fortis-lightning/src/recover.rs]): the scan of the static scripts, the
    sweep of what it finds, its check before it is broadcast, and the Esplora
    source.

    Key derivation and signing are parameters, as is HTTP. *)

From S2P Require Import Prelude Json Bitcoin IndexKeys Index IndexRead IndexMempool LnPay.

Definition STATIC_PAYMENT_KEY_COUNT : Z := 1000.
Definition STATIC_SCRIPT_COUNT : Z := 2 * STATIC_PAYMENT_KEY_COUNT.
Definition SWEEP_DUST_LIMIT_SAT : Z := 546.
Definition MAX_FEERATE_SAT_PER_VB : Z := 1_000.
Definition MAX_FEE_SHARE_DIVISOR : Z := 2.
Definition MAX_MONEY_SAT : Z := 21_000_000 * 100_000_000.
Definition MAX_STANDARD_WEIGHT : Z := 400_000.

Record StaticUtxo : Type := { su_outpoint : OutPoint; su_value_sat : Z; su_script_index : Z; su_confirmations : Z }.
#[export] Instance StaticUtxo_eq_dec : EqDecision StaticUtxo.
Proof. solve_decision. Defined.
Record UtxoRef : Type := { ur_outpoint : OutPoint; ur_value_sat : Z; ur_confirmations : Z }.

Definition outpoint_leb (a b : OutPoint) : bool :=
  bytes_ltb (txid a) (txid b) || (bool_decide (txid a = txid b) && (vout a <=? vout b)).

(** ** Scripts and keys *)
Class RecoverLib : Type := {
  static_public_key : bytes → Z → option bytes;                 (* key [k] of a seed; [None]: derivation failed *)
  p2wpkh_of : bytes → bytes;                                    (* of a public key *)
  anchor_script : bytes → bytes;
  is_p2wsh_spk : bytes → bool;
  is_p2wpkh_spk : bytes → bool;
  p2wpkh_signature_hash : Transaction → nat → bytes → Z → string + bytes;
  sign_low_r : bytes → Z → bytes → bytes;                       (* seed, key and digest to a signature with its type *)
  parse_signature : bytes → option (bytes * bool);              (* DER, and whether the type is ALL *)
  tx_weight_wu : Transaction → Z;
}.

Inductive Template : Type := P2wpkh | Anchor (ws : bytes).

Section scripts.
Context `{BitcoinLib, RecoverLib}.

Definition template (i : Z) (pk : bytes) : bytes * Template :=
  if Z.even i then (p2wpkh_of pk, P2wpkh) else let ws := anchor_script pk in (new_p2wsh ws, Anchor ws).

Definition derivation_failed : LnError := LnOther "key derivation failed".

Definition static_key (seed : bytes) (k : Z) : result LnError bytes :=
  if STATIC_PAYMENT_KEY_COUNT <=? k then Err derivation_failed else ok_or (static_public_key seed k) derivation_failed.

Definition try_static_scripts (seed : bytes) : result LnError (list (Z * bytes)) :=
  ls ← collect (λ k, pk ← static_key seed k; mret (map (λ i, (i, fst (template i pk))) [2 * k; 2 * k + 1]))
         (seqZ 0 STATIC_PAYMENT_KEY_COUNT);
  mret (concat ls).
Definition static_scripts (seed : bytes) : list (Z * bytes) := default [] (to_option (try_static_scripts seed)).
End scripts.

(** ** Scanning *)
Definition scan_failed (m : string) : LnError := LnOther ("scan_failed: " +:+ m).

Definition add_found (done len : nat) (found : gmap OutPoint StaticUtxo) (x : nat * UtxoRef) :
    result LnError (gmap OutPoint StaticUtxo) :=
  let '(i, u) := x in
  _ ← bail_if (Nat.leb len i) (scan_failed "source returned an out-of-range script index");
  _ ← bail_if (MAX_MONEY_SAT <? ur_value_sat u) (scan_failed "source returned an out-of-range value");
  if ur_value_sat u =? 0 then Ok found
  else
    let utxo := {| su_outpoint := ur_outpoint u; su_value_sat := ur_value_sat u;
                   su_script_index := Z.of_nat (done + i) mod 2^32; su_confirmations := ur_confirmations u |} in
    match found !! ur_outpoint u with
    | None => Ok (<[ur_outpoint u := utxo]> found)
    | Some prev =>
        if (su_script_index prev =? su_script_index utxo) && (su_value_sat prev =? su_value_sat utxo)
        then Ok (<[ur_outpoint u := {| su_outpoint := su_outpoint prev; su_value_sat := su_value_sat prev;
                    su_script_index := su_script_index prev;
                    su_confirmations := Z.max (su_confirmations prev) (su_confirmations utxo) |}]> found)
        else Err (scan_failed "source returned conflicting data for one outpoint")
    end.

Fixpoint add_all (done len : nat) (found : gmap OutPoint StaticUtxo) (l : list (nat * UtxoRef)) :
    result LnError (gmap OutPoint StaticUtxo) :=
  match l with
  | [] => Ok found
  | x :: l => found ← add_found done len found x; add_all done len found l
  end.

(** The batches, the [k]th answered by [source k]; what [progress] was told is
    kept, the latest first. *)
Fixpoint scan_chunks (source : nat → list bytes → result LnError (list (nat * UtxoRef))) (k done : nat) (total : Z)
    (cs : list (list bytes)) (found : gmap OutPoint StaticUtxo) (told : list (Z * Z)) :
    list (Z * Z) * result LnError (gmap OutPoint StaticUtxo) :=
  match cs with
  | [] => (told, Ok found)
  | c :: cs =>
      match us ← source k c; add_all done (length c) found us with
      | Ok found => scan_chunks source (S k) (done + length c) total cs found ((Z.of_nat (done + length c), total) :: told)
      | r => (told, r)
      end
  end.

Definition static_leb (a b : StaticUtxo) : bool := outpoint_leb (su_outpoint a) (su_outpoint b).

Section scan.
Context `{BitcoinLib, RecoverLib}.

Definition scan_static_outputs (seed : bytes) (batch_size : nat) (source : nat → list bytes → result LnError (list (nat * UtxoRef))) :
    list (Z * Z) * result LnError (list StaticUtxo) :=
  match try_static_scripts seed with
  | Ok l =>
      let scripts := map snd l in
      let total := Z.of_nat (length scripts) in
      let batch := Nat.min (Nat.max batch_size 1) (Nat.max (length scripts) 1) in
      let '(told, r) := scan_chunks source 0 0 total (chunks (length scripts) batch scripts) ∅ [(0, total)] in
      (told, found ← r; mret (sort_by static_leb (map snd (map_to_list found))))
  | Err e => ([], Err e)
  | Panic => ([], Panic)
  end.

(** ** The check of a sweep *)
Definition input_error (i : nat) (m : string) : string := "input " +:+ pretty (Z.of_nat i) +:+ ": " +:+ m.

(** An nSequence that is a relative lock by height, of one block at least. *)
Definition csv_ok (tx : Transaction) (sequence : Z) : bool :=
  (2 <=? version tx) && negb (Z.testbit sequence 31) && negb (Z.testbit sequence 22) && (1 <=? Z.land sequence 0xffff).

Definition byte_is (b : bytes) (i : nat) (x : byte) : bool := bool_decide (b !! i = Some x).

Definition verify_input (tx : Transaction) (i : nat) (inp : TxIn) (prev : TxOut) : result string unit :=
  match script_sig inp, witness inp with
  | [], [sig_bytes; second] =>
      '(sig, all) ← ok_or (parse_signature sig_bytes) (input_error i "signature encoding");
      _ ← bail_if (negb all) (input_error i "sighash type");
      '(pk, digest) ←
        (if is_p2wsh_spk (script_pubkey prev) then
           _ ← bail_if (negb (bool_decide (new_p2wsh second = script_pubkey prev))) (input_error i "witness script hash");
           _ ← bail_if (negb (Nat.eqb (length second) 37) || negb (byte_is second 0 x21) ||
                        negb (bool_decide (drop 34 second = [xad; x51; xb2]))) (input_error i "not the anchor to_remote script");
           _ ← bail_if (negb (csv_ok tx (sequence inp))) (input_error i "CSV not satisfied");
           pk ← ok_or (pubkey_from_slice (slice 1 34 second)) (input_error i "key");
           match p2wsh_signature_hash tx i second (value prev) with
           | inr h => Ok (pk, h)
           | inl _ => Err (input_error i "sighash")
           end
         else if is_p2wpkh_spk (script_pubkey prev) then
           pk ← ok_or (pubkey_from_slice second) (input_error i "key");
           _ ← bail_if (negb (bool_decide (p2wpkh_of pk = script_pubkey prev))) (input_error i "key hash");
           match p2wpkh_signature_hash tx i (script_pubkey prev) (value prev) with
           | inr h => Ok (pk, h)
           | inl _ => Err (input_error i "sighash")
           end
         else Err (input_error i "unsupported prevout"));
      bail_if (negb (verify_ecdsa digest sig pk)) (input_error i "bad signature")
  | _, _ => Err (input_error i "witness shape")
  end.

Fixpoint verify_inputs (tx : Transaction) (i : nat) (l : list (TxIn * TxOut)) : result string unit :=
  match l with
  | [] => Ok tt
  | (inp, prev) :: l => _ ← verify_input tx i inp prev; verify_inputs tx (S i) l
  end.

Definition u64_total (l : list Z) : Z := foldl (wrapping_add u64_max) 0 l.

Definition verify_spend (tx : Transaction) (prevouts : list TxOut) : result string unit :=
  _ ← bail_if (negb (Nat.eqb (length (input tx)) (length prevouts))) "input count";
  _ ← verify_inputs tx 0 (zip (input tx) prevouts);
  bail_if (u64_total (map value prevouts) <? u64_total (map value (output tx))) "outputs exceed inputs".

(** ** Sweeping *)
Definition sweep_invalid (m : string) : LnError := LnOther ("sweep: " +:+ m).

(** A key's number, its public key and the template it signs for. *)
Record Signer : Type := { sg_key : Z; sg_public : bytes; sg_template : Template }.

Definition sign_input (seed : bytes) (tx : Transaction) (i : nat) (s : Signer) (prev : TxOut) : result LnError (list bytes) :=
  match sg_template s with
  | Anchor ws =>
      match p2wsh_signature_hash tx i ws (value prev) with
      | inr h => Ok [sign_low_r seed (sg_key s) h; ws]
      | inl _ => Err (sweep_invalid "signing failed")
      end
  | P2wpkh =>
      match p2wpkh_signature_hash tx i (script_pubkey prev) (value prev) with
      | inr h => Ok [sign_low_r seed (sg_key s) h; sg_public s]
      | inl _ => Err (sweep_invalid "signing failed")
      end
  end.

Fixpoint sign_inputs (seed : bytes) (tx : Transaction) (i : nat) (l : list (Signer * TxOut)) : result LnError (list (list bytes)) :=
  match l with
  | [] => Ok []
  | (s, prev) :: l => w ← sign_input seed tx i s prev; ws ← sign_inputs seed tx (S i) l; mret (w :: ws)
  end.

Definition with_witness (i : TxIn) (w : list bytes) : TxIn := {|
  previous_output := previous_output i; script_sig := script_sig i; sequence := sequence i; witness := w |}.
Definition with_inputs (tx : Transaction) (l : list TxIn) : Transaction := {|
  version := version tx; lock_time := lock_time tx; input := l; output := output tx |}.
Definition with_value (tx : Transaction) (spk : bytes) (v : Z) : Transaction := {|
  version := version tx; lock_time := lock_time tx; input := input tx; output := [{| value := v; script_pubkey := spk |}] |}.

(** Signing sets the witnesses, of which there is one for each input. *)
Definition sign (seed : bytes) (tx : Transaction) (prevouts : list TxOut) (signers : list Signer) : result LnError Transaction :=
  ws ← sign_inputs seed tx 0 (zip signers prevouts);
  mret (with_inputs tx (zip_with with_witness (input tx) ws ++ drop (length ws) (input tx))).

Definition vbytes (tx : Transaction) : Z := (tx_weight_wu tx + 3) / 4.

(** The loop to a fee that fits; [None] within [Ok]: nothing worth sweeping. *)
Fixpoint settle_fee (n : nat) (seed : bytes) (total feerate : Z) (spk : bytes) (prevouts : list TxOut) (signers : list Signer)
    (tx : Transaction) (fee : Z) : result LnError (option (Transaction * Z)) :=
  match n with
  | O => Err (sweep_invalid "fee did not settle")
  | S n =>
      match checked_sub total fee with
      | Some net =>
          if net <? SWEEP_DUST_LIMIT_SAT then Ok None
          else
            tx ← sign seed (with_value tx spk net) prevouts signers;
            required ← (let r := vbytes tx * feerate in if r <=? u64_max then Ok r else Err (sweep_invalid "fee overflow"));
            _ ← bail_if ((total / MAX_FEE_SHARE_DIVISOR <? required) && (2 * SWEEP_DUST_LIMIT_SAT <=? total))
                  (sweep_invalid "fee_too_high");
            if required =? fee then Ok (Some (tx, fee))
            else if (required <? fee) && (fee - required <=? 4 * feerate) then Ok (Some (tx, fee))
            else settle_fee n seed total feerate spk prevouts signers tx required
      | None => Ok None
      end
  end.

Fixpoint check_utxos (seen : gset OutPoint) (l : list StaticUtxo) : result LnError unit :=
  match l with
  | [] => Ok tt
  | u :: l =>
      _ ← bail_if (STATIC_SCRIPT_COUNT <=? su_script_index u) (sweep_invalid "invalid script index");
      _ ← bail_if ((su_value_sat u =? 0) || (MAX_MONEY_SAT <? su_value_sat u)) (sweep_invalid "invalid value");
      _ ← bail_if (bool_decide (su_outpoint u ∈ seen)) (sweep_invalid "duplicate outpoint");
      check_utxos ({[su_outpoint u]} ∪ seen) l
  end.

Fixpoint checked_total (acc : Z) (l : list StaticUtxo) : option Z :=
  match l with
  | [] => Some acc
  | u :: l => a ← checked_add u64_max acc (su_value_sat u); checked_total a l
  end.

(** The prevout and the signer of a coin. *)
Definition coin_signer (seed : bytes) (u : StaticUtxo) : result LnError (TxOut * Signer) :=
  pk ← static_key seed (su_script_index u / 2);
  let '(spk, tpl) := template (su_script_index u) pk in
  mret ({| value := su_value_sat u; script_pubkey := spk |},
        {| sg_key := su_script_index u / 2; sg_public := pk; sg_template := tpl |}).

Definition unsigned_sweep (spend : list StaticUtxo) (spk : bytes) : Transaction := {|
  version := 2; lock_time := 0;
  input := map (λ u, {| previous_output := su_outpoint u; script_sig := []; sequence := 1; witness := [] |}) spend;
  output := [{| value := 0; script_pubkey := spk |}] |}.

(** The transaction that is handed to the broadcaster, if any; [to_address]:
    its script, and whether it is one of the network's. *)
Definition sweep_tx (seed : bytes) (utxos : list StaticUtxo) (to_address : bytes * bool) (feerate : Z) :
    result LnError (option Transaction) :=
  _ ← bail_if ((feerate =? 0) || (MAX_FEERATE_SAT_PER_VB <? feerate)) (LnOther "invalid_feerate");
  _ ← bail_if (negb (snd to_address)) WrongNetwork;
  _ ← check_utxos ∅ utxos;
  let spend := sort_by static_leb (filter (λ u, 1 <= su_confirmations u) utxos) in
  if Nat.eqb (length spend) 0 then Ok None
  else
    total ← ok_or (t ← checked_total 0 spend; if t <=? MAX_MONEY_SAT then Some t else None) (sweep_invalid "invalid value");
    coins ← collect (coin_signer seed) spend;
    let prevouts := map fst coins in
    let signers := map snd coins in
    s ← settle_fee 8 seed total feerate (fst to_address) prevouts signers (unsigned_sweep spend (fst to_address)) 0;
    match s with
    | None => Ok None
    | Some (tx, fee) =>
        if match checked_sub total fee with Some n => n <? SWEEP_DUST_LIMIT_SAT | None => true end then Ok None
        else
          _ ← bail_if (total / MAX_FEE_SHARE_DIVISOR <? fee) (sweep_invalid "fee_too_high");
          _ ← bail_if (MAX_STANDARD_WEIGHT <? tx_weight_wu tx) (sweep_invalid "too many inputs for one transaction");
          match verify_spend tx prevouts with
          | Ok _ => Ok (Some tx)
          | _ => Err (sweep_invalid "signing failed")
          end
    end.

(** [ln_display]: an error's text. *)
Definition sweep_static_outputs (seed : bytes) (utxos : list StaticUtxo) (to_address : bytes * bool) (feerate : Z)
    (broadcast : Transaction → result LnError bytes) (ln_display : LnError → string) : result LnError (option bytes) :=
  t ← sweep_tx seed utxos to_address feerate;
  match t with
  | None => Ok None
  | Some tx =>
      sent ← match broadcast tx with
             | Err (LnOther m) => Err (LnOther (if String.prefix "broadcast_failed:" m then m else "broadcast_failed: " +:+ m))
             | Err e => Err (LnOther ("broadcast_failed: " +:+ ln_display e))
             | r => r
             end;
      if decide (sent = compute_txid tx) then Ok (Some (compute_txid tx)) else Err (LnOther "broadcast_failed: txid mismatch")
  end.
End scan.

(** ** Esplora *)
Record HttpResponse : Type := { hr_status : Z; hr_body : bytes }.

Section esplora.
Context `{BitcoinLib}.

(** At least 1: a source's tip may lag behind its outputs. *)
Definition confirmations (tip height : Z) : Z :=
  default u32_max (try_from u32_max (saturating_add u64_max (saturating_sub tip height) 1)).

Definition esplora_scripthash (script : bytes) : string := hex_encode (rev (sha256 script)).

(** The attempts of one request; [http k] answers the [k]th, [None] is a body
    that was not found. *)
Fixpoint get_retry (http : nat → result string HttpResponse) (retries attempt : nat) : result LnError (option bytes) :=
  let again why :=
    match retries with
    | O => Err (scan_failed (why +:+ " after " +:+ pretty (Z.of_nat attempt + 1) +:+ " attempts"))
    | S retries => get_retry http retries (S attempt)
    end in
  match http attempt with
  | Ok r =>
      if (200 <=? hr_status r) && (hr_status r <? 300) then Ok (Some (hr_body r))
      else if hr_status r =? 404 then Ok None
      else if (hr_status r =? 429) || (500 <=? hr_status r) then again ("http " +:+ pretty (hr_status r))
      else Err (scan_failed ("http " +:+ pretty (hr_status r)))
  | Err e => again e
  | Panic => Panic
  end.

Definition malformed : LnError := scan_failed "malformed response".

Definition parse_esplora_utxo (txid_parse : string → option bytes) (tip : Z) (u : Value) : result LnError UtxoRef :=
  t ← ok_or (t ← vget "txid" u; s ← as_string t; txid_parse s) malformed;
  v ← ok_or (v ← vget "vout" u; n ← as_u64 v; try_from u32_max n) malformed;
  a ← ok_or (a ← vget "value" u; as_u64 a) malformed;
  status ← ok_or (vget "status" u) malformed;
  confirmed ← ok_or (c ← vget "confirmed" status; as_bool c) malformed;
  confs ← (if (confirmed : bool) then h ← ok_or (h ← vget "block_height" status; as_u64 h) malformed; mret (confirmations tip h)
           else mret 0);
  mret {| ur_outpoint := {| txid := t; vout := v |}; ur_value_sat := a; ur_confirmations := confs |}.

Definition parse_esplora_utxos (txid_parse : string → option bytes) (body : option Value) (tip : Z) : result LnError (list UtxoRef) :=
  v ← ok_or body malformed;
  arr ← ok_or (as_array v) malformed;
  collect (parse_esplora_utxo txid_parse tip) arr.

(** A broadcaster's answer must be the transaction's own id. *)
Definition returned_txid (txid_parse : string → option bytes) (s : string) (tx : Transaction) : result LnError bytes :=
  got ← ok_or (txid_parse s) (LnOther "broadcast_failed: malformed txid in response");
  if decide (got = compute_txid tx) then Ok got else Err (LnOther "broadcast_failed: txid mismatch").
End esplora.
