(* ===== verification/LnRescue.v ===== *)
(** A scan of the static scripts finds every coin they hold, and a sweep spends
    exactly what was found ([LnRecover.v]). *)

From S2P Require Import Prelude Json Bitcoin IndexKeys Index IndexRead IndexMempool IndexPending LnPay LnFunds LnRecover.

(** ** Scanning *)
Section scan.
Context `{BitcoinLib, RecoverLib}.

(** What the scripts hold on chain: script, value and confirmations. *)
Context (scripts : list bytes) (chain : gmap OutPoint (bytes * Z * Z)).

Definition coin_at (op : OutPoint) (u : StaticUtxo) : Prop := su_outpoint u = op ∧ ∃ i spk,
  scripts !! i = Some spk ∧ su_script_index u = Z.of_nat i ∧ chain !! op = Some (spk, su_value_sat u, su_confirmations u) ∧
  su_value_sat u ≠ 0.

(** A source that answers a batch with all that its scripts hold, and nothing
    else. *)
Definition source_honest (source : nat → list bytes → result LnError (list (nat * UtxoRef))) : Prop :=
  ∀ k c l, source k c = Ok l → ∀ i u, (i, u) ∈ l ↔
    ∃ spk, c !! i = Some spk ∧ chain !! ur_outpoint u = Some (spk, ur_value_sat u, ur_confirmations u).

Record chain_ok : Prop := {
  co_scripts : NoDup scripts;
  co_count : Z.of_nat (length scripts) ≤ 2^32;
  co_values op spk v c : chain !! op = Some (spk, v, c) → v ≤ MAX_MONEY_SAT;
}.
Hypothesis Hok : chain_ok.

Lemma coin_at_unique op u u' : coin_at op u → coin_at op u' → u = u'.
Proof.
  intros (E & i & spk & Hi & Ei & Hc & _) (E' & i' & spk' & Hi' & Ei' & Hc' & _).
  rewrite Hc in Hc'. injection Hc' as <- Ev Ec. assert (i = i') as <- by (by eapply NoDup_lookup; [apply Hok|..]).
  destruct u, u'. simpl in *. congruence.
Qed.

Definition all_coins (m : gmap OutPoint StaticUtxo) : Prop := ∀ op u, m !! op = Some u → coin_at op u.

Lemma add_found_spec done len m i u spk :
  all_coins m → (i < len)%nat → scripts !! (done + i)%nat = Some spk →
  chain !! ur_outpoint u = Some (spk, ur_value_sat u, ur_confirmations u) →
  ∃ m', add_found done len m (i, u) = Ok m' ∧ m ⊆ m' ∧ all_coins m' ∧ (ur_value_sat u ≠ 0 → is_Some (m' !! ur_outpoint u)).
Proof.
  intros Hm Hi Hs Hc. unfold add_found. rewrite (proj2 (Nat.leb_gt len i)) by lia.
  pose proof (co_values Hok _ _ _ _ Hc) as Hv. rewrite (proj2 (Z.ltb_ge _ _)) by lia. cbn [bail_if mbind result_bind].
  destruct (Z.eqb_spec (ur_value_sat u) 0) as [E|E]; [by exists m|].
  assert (Hlen : (done + i < length scripts)%nat) by (by eapply lookup_lt_Some).
  pose proof (co_count Hok) as Hcount. rewrite Z.mod_small by lia.
  set (new := {| su_outpoint := _; su_value_sat := _; su_script_index := _; su_confirmations := _ |}).
  assert (Hnew : coin_at (ur_outpoint u) new) by (split; [done|]; by exists (done + i)%nat, spk).
  assert (Hins : all_coins (<[ur_outpoint u := new]> m)).
  { intros op v. destruct (decide (op = ur_outpoint u)) as [->|]; [rewrite lookup_insert_eq; by intros [= <-]|].
    rewrite lookup_insert_ne by done. apply Hm. }
  destruct (m !! ur_outpoint u) as [prev|] eqn:Ep.
  - pose proof (coin_at_unique _ _ _ (Hm _ _ Ep) Hnew) as ->. rewrite !Z.eqb_refl. cbn [andb].
    exists m. split; [|by split_and!]. f_equal. rewrite Z.max_id. by apply insert_id.
  - exists (<[ur_outpoint u := new]> m). split; [done|]. split; [by apply insert_subseteq|]. split; [done|].
    intros _. rewrite lookup_insert_eq. by eexists.
Qed.

Lemma add_all_spec done len m l :
  all_coins m →
  (∀ i u, (i, u) ∈ l → (i < len)%nat ∧ ∃ spk, scripts !! (done + i)%nat = Some spk ∧
    chain !! ur_outpoint u = Some (spk, ur_value_sat u, ur_confirmations u)) →
  ∃ m', add_all done len m l = Ok m' ∧ m ⊆ m' ∧ all_coins m' ∧
    ∀ i u, (i, u) ∈ l → ur_value_sat u ≠ 0 → is_Some (m' !! ur_outpoint u).
Proof.
  revert m. induction l as [|[i u] l IH]; intros m Hm Hl; cbn [add_all].
  { exists m. split_and!; try done. by intros i u ?%elem_of_nil. }
  destruct (Hl i u) as (Hi & spk & Hs & Hc); [by left|].
  destruct (add_found_spec done len m i u spk Hm Hi Hs Hc) as (m1 & -> & Hsub & Hm1 & Hin). cbn [mbind result_bind].
  destruct (IH m1 Hm1) as (m' & E & Hsub' & Hm' & Hin'); [intros; apply Hl; by right|].
  exists m'. split; [done|]. split; [by etrans|]. split; [done|]. intros j v [[= -> ->]|Hj]%elem_of_cons Hv; [|by eapply Hin'].
  destruct (Hin Hv) as [x Hx]. exists x. by eapply lookup_weaken.
Qed.

Lemma scan_chunks_spec source k done total cs m told told' r :
  source_honest source → (∀ k c, c ∈ cs → ∃ l, source k c = Ok l) → all_coins m →
  (∀ i, concat cs !! i = scripts !! (done + i)%nat) →
  scan_chunks source k done total cs m told = (told', r) →
  ∃ m', r = Ok m' ∧ m ⊆ m' ∧ all_coins m' ∧ ∀ i spk op v c, (done ≤ i)%nat → scripts !! i = Some spk →
    chain !! op = Some (spk, v, c) → v ≠ 0 → is_Some (m' !! op).
Proof.
  intros Hh. revert k done m told. induction cs as [|c cs IH]; intros k done m told Hans Hm Hcs Hscan; cbn [scan_chunks] in Hscan.
  { injection Hscan as <- <-. exists m. split_and!; try done. intros i spk op v c Hi Hs _ _. exfalso.
    specialize (Hcs (i - done)%nat). rewrite Nat.add_sub_assoc, (Nat.add_comm done), Nat.add_sub in Hcs by lia.
    by rewrite Hs in Hcs. }
  destruct (Hans k c) as [l El]; [by left|]. rewrite El in Hscan. cbn [mbind result_bind] in Hscan.
  assert (Hc : ∀ i, (i < length c)%nat → c !! i = scripts !! (done + i)%nat).
  { intros i Hi. rewrite <-Hcs. cbn [concat]. by rewrite lookup_app_l. }
  destruct (add_all_spec done (length c) m l Hm) as (m1 & E1 & Hsub1 & Hm1 & Hin1).
  { intros i u (spk & Hs & Hch)%(Hh _ _ _ El). pose proof (lookup_lt_Some _ _ _ Hs) as Hi. split; [done|].
    exists spk. by rewrite <-Hc. }
  rewrite E1 in Hscan. eapply IH in Hscan as (m' & -> & Hsub & Hm' & Hin); [|intros; apply Hans; by right|done|].
  - exists m'. split; [done|]. split; [by etrans|]. split; [done|]. intros i spk op v cf Hi Hs Hch Hv.
    destruct (decide (done + length c ≤ i)%nat) as [Hge|Hlt]; [by eapply Hin|].
    destruct (Hin1 (i - done)%nat {| ur_outpoint := op; ur_value_sat := v; ur_confirmations := cf |}) as [x Hx]; [|done|].
    + apply (Hh _ _ _ El). exists spk. split; [|done]. rewrite Hc by lia. by replace (done + (i - done))%nat with i by lia.
    + exists x. by eapply lookup_weaken.
  - intros i. rewrite <-Nat.add_assoc, <-Hcs. cbn [concat]. rewrite lookup_app_r by lia. f_equal. lia.
Qed.

(** What is in a list sorted out of a map of coins. *)
Lemma out_of_map m u : all_coins m → u ∈ sort_by static_leb (map snd (map_to_list m)) ↔ m !! su_outpoint u = Some u.
Proof.
  intros Hm. rewrite sort_by_Permutation, list_elem_of_fmap. split.
  - intros ([op x] & -> & Hin%elem_of_map_to_list). simpl. by destruct (Hm _ _ Hin) as [-> _].
  - intros Hu. exists (su_outpoint u, u). split; [done|]. by apply elem_of_map_to_list.
Qed.

Lemma out_outpoints m : all_coins m → NoDup (map su_outpoint (sort_by static_leb (map snd (map_to_list m)))).
Proof.
  intros Hm. rewrite sort_by_Permutation, <-list_fmap_compose.
  assert (E : su_outpoint ∘ snd <$> map_to_list m = (map_to_list m).*1).
  { apply list_fmap_ext. intros i [op x] Hin. simpl. apply list_elem_of_lookup_2, elem_of_map_to_list in Hin. by destruct (Hm _ _ Hin). }
  rewrite E. apply NoDup_fst_map_to_list.
Qed.
End scan.

(** What a scan returns passes the checks of a sweep. *)
Lemma check_utxos_ok seen l :
  NoDup (map su_outpoint l) → (∀ u, u ∈ l → su_outpoint u ∉ seen ∧ su_script_index u < STATIC_SCRIPT_COUNT ∧
    su_value_sat u ≠ 0 ∧ su_value_sat u ≤ MAX_MONEY_SAT) → check_utxos seen l = Ok tt.
Proof.
  revert seen. induction l as [|u l IH]; intros seen Hnd Hl; [done|]. apply NoDup_cons in Hnd as [Hu Hnd].
  destruct (Hl u) as (Hs & Hi & Hv & Hm); [by left|]. cbn [check_utxos].
  rewrite (proj2 (Z.leb_gt _ _) Hi), (proj2 (Z.eqb_neq _ _) Hv), (proj2 (Z.ltb_ge _ _) Hm), bool_decide_eq_false_2 by done.
  cbn [bail_if orb mbind result_bind]. apply IH; [done|]. intros x Hx. destruct (Hl x) as (Hs' & Hx'); [by right|].
  split; [|done]. intros [E%elem_of_singleton|?]%elem_of_union; [|done]. apply Hu. rewrite <-E. by apply list_elem_of_fmap_2.
Qed.

Lemma length_static_scripts `{BitcoinLib, RecoverLib} seed scripts :
  try_static_scripts seed = Ok scripts → length scripts = Z.to_nat STATIC_SCRIPT_COUNT.
Proof.
  unfold try_static_scripts. intros (ls & Hls%collect_Ok & [= <-])%bind_Ok.
  assert (Hl : length (concat ls) = (2 * length (seqZ 0 STATIC_PAYMENT_KEY_COUNT))%nat); [|by rewrite Hl, length_seqZ].
  induction Hls as [|k l ks ls Hk _ IH]; [done|]. cbn [concat]. rewrite length_app, IH.
  apply bind_Ok in Hk as (pk & _ & [= <-]). simpl. lia.
Qed.

(** C33. A scan finds every coin of the static scripts, and a sweep accepts
    what it finds.  Whatever the size of the batches: with a source that answers
    every batch with what its scripts hold, the scan succeeds; it returns each
    coin of any of the two thousand scripts that has a value once, with the
    right script and value, and nothing else (outputs of 0 sat are left out); and none of it is refused by the checks a sweep
    makes of its coins. *)
Theorem scan_exact `{BitcoinLib, RecoverLib} seed batch source chain scripts :
  try_static_scripts seed = Ok scripts → chain_ok (map snd scripts) chain → source_honest chain source → (∀ k c, ∃ l, source k c = Ok l) →
  ∃ told out, scan_static_outputs seed batch source = (told, Ok out) ∧
    NoDup (map su_outpoint out) ∧ (∀ u, u ∈ out ↔ coin_at (map snd scripts) chain (su_outpoint u) u) ∧
    check_utxos ∅ out = Ok tt.
Proof.
  intros Hs Hok Hh Hans. pose proof (length_static_scripts _ _ Hs) as Hlen. unfold scan_static_outputs. rewrite Hs. cbv zeta.
  destruct (scan_chunks _ _ _ _ _ _ _) as [told r] eqn:Escan.
  eapply (scan_chunks_spec (map snd scripts) chain Hok) in Escan as (m & -> & _ & Hm & Hin); [|done|done| |].
  2:{ by intros op u. }
  2:{ intros i. rewrite concat_chunks; [done|lia|done]. }
  exists told. eexists. split; [done|].
  assert (Hcoin : ∀ u, u ∈ sort_by static_leb (map snd (map_to_list m)) ↔ coin_at (map snd scripts) chain (su_outpoint u) u).
  { intros u. rewrite out_of_map by done. split; [by intros ?%Hm|]. intros Hc.
    pose proof Hc as (_ & i & spk & Hi & _ & Hch & Hv). destruct (Hin i spk (su_outpoint u) _ _ (Nat.le_0_l _) Hi Hch Hv) as [x Hx].
    rewrite Hx. f_equal. by eapply coin_at_unique; [| |exact Hc]; [exact Hok|apply Hm]. }
  split; [by eapply out_outpoints|]. split; [done|].
  apply check_utxos_ok; [by eapply out_outpoints|]. intros u Hu%Hcoin. split; [apply not_elem_of_empty|].
  destruct Hu as (_ & i & spk & Hi & -> & Hch & Hv). apply lookup_lt_Some in Hi. rewrite length_map, Hlen in Hi.
  split; [unfold STATIC_SCRIPT_COUNT, STATIC_PAYMENT_KEY_COUNT in *; lia|]. split; [done|]. by eapply co_values.
Qed.

(** ** Sweeping *)
Section sweep.
Context `{BitcoinLib, RecoverLib}.

Lemma zip_with_witness (l : list TxIn) ws (f : TxIn → OutPoint * Z) :
  (∀ i w, f (with_witness i w) = f i) → map f (zip_with with_witness l ws ++ drop (length ws) l) = map f l.
Proof.
  intros Hf. revert ws. induction l as [|i l IH]; intros [|w ws]; simpl; try done. by rewrite Hf, IH.
Qed.

Definition spends (i : TxIn) : OutPoint * Z := (previous_output i, sequence i).

Lemma sign_keeps seed tx prevouts signers tx' : sign seed tx prevouts signers = Ok tx' →
  map spends (input tx') = map spends (input tx) ∧ output tx' = output tx ∧ version tx' = version tx.
Proof. intros (ws & _ & [= <-])%bind_Ok. split; [|done]. by apply zip_with_witness. Qed.

(** What the loop to a fee ends with. *)
Lemma settle_fee_spec n seed total feerate spk prevouts signers tx fee tx' fee' :
  0 ≤ feerate → settle_fee n seed total feerate spk prevouts signers tx fee = Ok (Some (tx', fee')) →
  map spends (input tx') = map spends (input tx) ∧ output tx' = [{| value := total - fee'; script_pubkey := spk |}] ∧
  vbytes tx' * feerate ≤ fee' ≤ vbytes tx' * feerate + 4 * feerate.
Proof.
  intros Hrate. revert tx fee. induction n as [|n IH]; intros tx fee Hx; cbn [settle_fee] in Hx; [done|].
  destruct (checked_sub total fee) as [net|] eqn:En; [|done]. apply checked_sub_Some in En as [-> Hfee].
  destruct (Z.ltb_spec (total - fee) SWEEP_DUST_LIMIT_SAT); [done|].
  apply bind_Ok in Hx as (tx1 & Hsign & Hx). apply sign_keeps in Hsign as (Ei & Eo & _).
  apply bind_Ok in Hx as (required & Hreq & Hx). destruct (Z.leb_spec (vbytes tx1 * feerate) u64_max); [|done]. injection Hreq as <-.
  apply bail_if_bind_Ok in Hx as [_ Hx]. destruct (Z.eqb_spec (vbytes tx1 * feerate) fee) as [E|E].
  { injection Hx as <- <-. split_and!; [done|done|lia|lia]. }
  destruct (_ && _) eqn:Es.
  - injection Hx as <- <-. apply andb_true_iff in Es as [Hlt%Z.ltb_lt Hle%Z.leb_le]. split_and!; [done|done|lia|lia].
  - apply IH in Hx as (E1 & E2). split; [by rewrite E1|done].
Qed.

Lemma checked_total_sum acc l t : checked_total acc l = Some t → t = acc + sumZ su_value_sat l.
Proof.
  revert acc. induction l as [|u l IH]; intros acc Ht; cbn [checked_total] in Ht.
  { injection Ht as <-. rewrite sumZ_nil. lia. }
  apply bind_Some in Ht as (a & Ha & Ht). apply checked_add_Some in Ha as [-> _]. apply IH in Ht. rewrite sumZ_cons. lia.
Qed.

Lemma check_utxos_nodup seen l : check_utxos seen l = Ok tt → NoDup (map su_outpoint l).
Proof.
  assert (Hx : check_utxos seen l = Ok tt → NoDup (map su_outpoint l) ∧ ∀ u, u ∈ l → su_outpoint u ∉ seen); [|tauto].
  revert seen. induction l as [|u l IH]; intros seen Hl; [split; [constructor|by intros u ?%elem_of_nil]|]. cbn [check_utxos] in Hl.
  apply bail_if_bind_Ok in Hl as [_ Hl]. apply bail_if_bind_Ok in Hl as [_ Hl]. apply bail_if_bind_Ok in Hl as [Hs Hl].
  apply bool_decide_eq_false in Hs. destruct (IH _ Hl) as [Hnd Hout]. split.
  - constructor; [|done]. intros (v & E & Hv)%list_elem_of_fmap. apply (Hout v Hv). rewrite <-E. set_solver.
  - intros v [->|Hv]%elem_of_cons; [done|]. specialize (Hout v Hv). set_solver.
Qed.

(** The prevouts the signers are made from. *)
Definition prevout_of (seed : bytes) (u : StaticUtxo) (p : TxOut) : Prop :=
  value p = su_value_sat u ∧ ∃ pk, static_key seed (su_script_index u / 2) = Ok pk ∧ script_pubkey p = fst (template (su_script_index u) pk).

Lemma coin_signer_prevout seed l cs : collect (coin_signer seed) l = Ok cs → Forall2 (prevout_of seed) l (map fst cs).
Proof.
  intros Hc%collect_Ok. induction Hc as [|u [p s] l cs Hu _ IH]; [constructor|]. cbn [map fst]. constructor; [|done].
  apply bind_Ok in Hu as (pk & Hk & Hu). destruct (template _ pk) as [spk tpl] eqn:Et. injection Hu as <- <-.
  split; [done|]. exists pk. by rewrite Et.
Qed.

(** C34. A sweep spends exactly the confirmed coins it is given, to the
    address it is given, and pays what it should.  Whatever is handed to the
    broadcaster spends each of them once and nothing else; its one output is
    their sum less a fee that covers the signed size at the asked rate, exceeds
    that by four virtual bytes at most and is no more than half of the sum; the
    output is not dust, the transaction is not too heavy, and its own check of
    every witness has passed. *)
Theorem sweep_exact seed utxos to_address feerate tx :
  0 ≤ feerate → sweep_tx seed utxos to_address feerate = Ok (Some tx) →
  let confirmed := filter (λ u, 1 ≤ su_confirmations u) utxos in
  let total := sumZ su_value_sat confirmed in
  ∃ spend fee prevouts, spend ≡ₚ confirmed ∧ NoDup (map su_outpoint spend) ∧
  map spends (input tx) = map (λ u, (su_outpoint u, 1)) spend ∧
  output tx = [{| value := total - fee; script_pubkey := fst to_address |}] ∧
  546 ≤ total - fee ∧ 2 * fee ≤ total ∧ vbytes tx * feerate ≤ fee ≤ vbytes tx * feerate + 4 * feerate ∧
  tx_weight_wu tx ≤ MAX_STANDARD_WEIGHT ∧
  Forall2 (prevout_of seed) spend prevouts ∧ verify_spend tx prevouts = Ok tt.
Proof.
  intros Hrate Hx confirmed total. destruct to_address as [spk ok]. unfold sweep_tx in Hx.
  apply bail_if_bind_Ok in Hx as [_ Hx]. apply bail_if_bind_Ok in Hx as [_ Hx].
  apply bind_Ok in Hx as ([] & Hchk & Hx). apply check_utxos_nodup in Hchk. cbv zeta in Hx.
  set (spend := sort_by static_leb (filter _ utxos)) in Hx.
  assert (Hp : spend ≡ₚ confirmed) by apply sort_by_Permutation.
  destruct (Nat.eqb _ 0); [done|]. apply bind_Ok in Hx as (t & Ht%ok_or_Ok & Hx). apply bind_Some in Ht as (t' & Ht%checked_total_sum & Hm).
  destruct (t' <=? MAX_MONEY_SAT); [|done]. injection Hm as ->. rewrite Z.add_0_l, Hp in Ht. fold total in Ht. subst t.
  apply bind_Ok in Hx as (coins & Hcoins & Hx). apply bind_Ok in Hx as (s & Hs & Hx). destruct s as [[tx1 fee]|]; [|done].
  apply settle_fee_spec in Hs as (Ei & Eo & Hfee); [|done].
  destruct (checked_sub total fee) as [net|] eqn:En; [|done]. apply checked_sub_Some in En as [-> _].
  destruct (Z.ltb_spec (total - fee) SWEEP_DUST_LIMIT_SAT) as [|Hdust]; [done|].
  apply bail_if_bind_Ok in Hx as [Hhalf%Z.ltb_ge Hx]. apply bail_if_bind_Ok in Hx as [Hw%Z.ltb_ge Hx].
  destruct (verify_spend tx1 (map fst coins)) as [[]| |] eqn:Ev; [|done..]. injection Hx as <-.
  exists spend, fee, (map fst coins). split; [done|]. split.
  { rewrite Hp. eapply sublist_NoDup; [exact Hchk|]. apply fmap_sublist, sublist_filter. }
  split; [rewrite Ei; unfold unsigned_sweep; simpl; by rewrite map_map|]. split; [done|]. split; [done|].
  split; [unfold MAX_FEE_SHARE_DIVISOR in Hhalf; pose proof (Z.mul_div_le total 2); lia|].
  split; [done|]. split; [done|]. split; [by apply coin_signer_prevout|done].
Qed.
End sweep.
