(* ===== verification/LnStart.v ===== *)
(** Starting and stopping the phone's Lightning node, and its check of the
    device lock ([fortis-lightning/src/node.rs]).

    A process has any number of [Node] objects, each by a number; calls on them,
    start workers, background checks and the threads that stop a node whose lock
    was lost are programs of steps.  What runs under a mutex is one step: the
    sections under the lock slot wait for the remote store inside, but all they
    read of the rest they read at their start, and nobody else sees the slot
    before their end.  What the store answers to the operations of [device.rs]
    ([LnLock.v]) is a parameter, as are ldk-node, the network and thread
    creation; each answers by the number of the step that asks.

    Each claim taken is given a fresh number, which names the run.  An [Arc] is
    the multiset of its holders.  Generations are counted without a bound. *)

From stdpp Require Import gmultiset.
From S2P Require Import Prelude Json Threads Bitcoin LnPay LnLock.

(** ** Data *)
Inductive ClaimState : Type := CStarting | CRunning | CStopping.
#[export] Instance ClaimState_eq_dec : EqDecision ClaimState.
Proof. solve_decision. Defined.

Inductive LockMode : Type := LmAcquire | LmTakeover.
#[export] Instance LockMode_eq_dec : EqDecision LockMode.
Proof. solve_decision. Defined.

Inductive Stage : Type := StClaim | StLsp | StVss | StBuild | StStart | StConnect | StExitConnect.

Inductive BuildError : Type := KVStoreSetupFailed | ReadFailed | WriteFailed | NetworkMismatch | OtherBuildError (s : string).

(** Why the client of the remote store could not be made. *)
Inductive ClientError : Type := RuntimeFailed (s : string) | HttpClientFailed (s : string).

Record HeldLock : Type := { hl_me : bytes; hl_held : LockHeld; hl_run : nat }.
#[export] Instance LockHeld_eq_dec : EqDecision LockHeld.
Proof. solve_decision. Defined.
Record Running : Type := { rn_run : nat; rn_mode : StartMode; rn_generation : nat }.

(** One of a node's mutexed slots each. *)
Record NodeShared : Type := {
  ns_inner : option Running;
  ns_generation : nat;
  ns_lock : option HeldLock;
  ns_lock_lost : bool;
  ns_checker : option (nat * nat);      (* whose background check may go on: run and generation *)
}.
Definition ns_new : NodeShared := {|
  ns_inner := None; ns_generation := 0; ns_lock := None; ns_lock_lost := false; ns_checker := None |}.

(** Who has a hold of a [Running]: the node's slot, a thread that has it for a
    while, a thread that stops it and will release the device lock, a thread
    that is only just created to stop it. *)
Inductive Holder : Type := HInner | HThread (i : nat) | HStop (i : nat) | HOrphan.
#[export] Instance Holder_eq_dec : EqDecision Holder.
Proof. solve_decision. Defined.
#[export] Instance Holder_countable : Countable Holder.
Proof.
  refine (inj_countable' (λ h, match h with HInner => inl (inl tt) | HThread i => inl (inr i) | HStop i => inr (inl i) | HOrphan => inr (inr tt) end)
    (λ x, match x with inl (inl _) => HInner | inl (inr i) => HThread i | inr (inl i) => HStop i | inr (inr _) => HOrphan end) _).
  by intros [].
Defined.

(** Where a claim (with the node under it, once there is one) is: a local of a
    thread, or in an [Arc]. *)
Inductive Home : Type := InThread (i : nat) | InArc (hs : gmultiset Holder).

Inductive LockEvent : Type := Passed (n g : nat) | Lost (n g : nat).

Record ProcWorld : Type := {
  pr_nodes : gmap nat NodeShared;
  pr_claims : gmap string (ClaimState * nat);
  pr_home : gmap nat (nat * Home);      (* of each run: its [Node], and where it is *)
  pr_live : gmap nat nat;               (* the ldk-nodes built and not dropped, by run *)
  pr_next : nat;
  pr_stages : gmap nat Stage;
  pr_asked : nat;
  pr_log : list LockEvent;              (* latest first *)
}.
(** A process that has just started. *)
Definition proc_start (asked : nat) : ProcWorld := {|
  pr_nodes := ∅; pr_claims := ∅; pr_home := ∅; pr_live := ∅; pr_next := 0; pr_stages := ∅; pr_asked := asked; pr_log := [] |}.

Definition node (w : ProcWorld) (n : nat) : NodeShared := default ns_new (pr_nodes w !! n).

Definition set_node (n : nat) (s : NodeShared) (w : ProcWorld) : ProcWorld := {|
  pr_nodes := <[n := s]> (pr_nodes w); pr_claims := pr_claims w; pr_home := pr_home w; pr_live := pr_live w;
  pr_next := pr_next w; pr_stages := pr_stages w; pr_asked := pr_asked w; pr_log := pr_log w |}.
Definition set_claims (c : gmap string (ClaimState * nat)) (w : ProcWorld) : ProcWorld := {|
  pr_nodes := pr_nodes w; pr_claims := c; pr_home := pr_home w; pr_live := pr_live w;
  pr_next := pr_next w; pr_stages := pr_stages w; pr_asked := pr_asked w; pr_log := pr_log w |}.
Definition set_home (h : gmap nat (nat * Home)) (w : ProcWorld) : ProcWorld := {|
  pr_nodes := pr_nodes w; pr_claims := pr_claims w; pr_home := h; pr_live := pr_live w;
  pr_next := pr_next w; pr_stages := pr_stages w; pr_asked := pr_asked w; pr_log := pr_log w |}.
Definition set_live (l : gmap nat nat) (w : ProcWorld) : ProcWorld := {|
  pr_nodes := pr_nodes w; pr_claims := pr_claims w; pr_home := pr_home w; pr_live := l;
  pr_next := pr_next w; pr_stages := pr_stages w; pr_asked := pr_asked w; pr_log := pr_log w |}.
Definition set_next (x : nat) (w : ProcWorld) : ProcWorld := {|
  pr_nodes := pr_nodes w; pr_claims := pr_claims w; pr_home := pr_home w; pr_live := pr_live w;
  pr_next := x; pr_stages := pr_stages w; pr_asked := pr_asked w; pr_log := pr_log w |}.
Definition set_stages (s : gmap nat Stage) (w : ProcWorld) : ProcWorld := {|
  pr_nodes := pr_nodes w; pr_claims := pr_claims w; pr_home := pr_home w; pr_live := pr_live w;
  pr_next := pr_next w; pr_stages := s; pr_asked := pr_asked w; pr_log := pr_log w |}.
Definition tick_proc (w : ProcWorld) : ProcWorld := {|
  pr_nodes := pr_nodes w; pr_claims := pr_claims w; pr_home := pr_home w; pr_live := pr_live w;
  pr_next := pr_next w; pr_stages := pr_stages w; pr_asked := S (pr_asked w); pr_log := pr_log w |}.
Definition add_event (e : LockEvent) (w : ProcWorld) : ProcWorld := {|
  pr_nodes := pr_nodes w; pr_claims := pr_claims w; pr_home := pr_home w; pr_live := pr_live w;
  pr_next := pr_next w; pr_stages := pr_stages w; pr_asked := pr_asked w; pr_log := e :: pr_log w |}.
#[export] Instance ProcWorld_asks : Asks ProcWorld := {| asked := pr_asked; tick := tick_proc |}.
Notation Proc := (Ln ProcWorld).
Definition proc_lift {A} (r : result LnError A) : Proc A := Done r.
Notation proc_ask := (ask (W := ProcWorld)).

(** The result of a part, for the code that runs after it in any case. *)
Definition proc_attempt {A} (m : Proc A) : Proc (result LnError A) :=
  prog_bind m (λ r, match r with Panic => Done Panic | r => Done (Ok r) end).

Definition with_inner (x : option Running) (s : NodeShared) : NodeShared := {|
  ns_inner := x; ns_generation := ns_generation s; ns_lock := ns_lock s; ns_lock_lost := ns_lock_lost s; ns_checker := ns_checker s |}.
Definition with_lock (x : option HeldLock) (s : NodeShared) : NodeShared := {|
  ns_inner := ns_inner s; ns_generation := ns_generation s; ns_lock := x; ns_lock_lost := ns_lock_lost s; ns_checker := ns_checker s |}.
Definition with_lost (x : bool) (s : NodeShared) : NodeShared := {|
  ns_inner := ns_inner s; ns_generation := ns_generation s; ns_lock := ns_lock s; ns_lock_lost := x; ns_checker := ns_checker s |}.
Definition with_checker (x : option (nat * nat)) (s : NodeShared) : NodeShared := {|
  ns_inner := ns_inner s; ns_generation := ns_generation s; ns_lock := ns_lock s; ns_lock_lost := ns_lock_lost s; ns_checker := x |}.
(** Uninstalls the run and moves the generation on, so that its background
    check ends. *)
Definition uninstalled (s : NodeShared) : NodeShared := {|
  ns_inner := None; ns_generation := S (ns_generation s); ns_lock := ns_lock s; ns_lock_lost := ns_lock_lost s; ns_checker := None |}.

Class NodeEnv : Type := {
  store_id : nat → string;                                          (* of a [Node] *)
  abs_dir : nat → string;
  own_id : nat → string;
  new_client : nat → ClientError + unit;                            (* or the one made before *)
  device_id : nat → result LnError bytes;                           (* [load_or_create_device_id] *)
  lock_acquire : nat → bytes → result LnError LockHeld;
  lock_takeover : nat → bytes → result LnError LockHeld;
  lock_refresh : nat → bytes → LockHeld → result LnError LockHeld * LockHeld;
  lsp_answers : nat → bool;                                         (* a TCP probe *)
  build_node : nat → BuildError + string;                           (* the node's id *)
  ldk_start : nat → NodeError + unit;
  ldk_connect : nat → NodeError + unit;
  thread_starts : nat → bool;
  build_error_display : BuildError → string;
  start_error_display : NodeError → string;
  spawn_error_display : string;
}.

Section start.
Context `{NodeEnv}.

Definition claim_keys (n : nat) : list string := ["store:" +:+ store_id n; "dir:" +:+ abs_dir n].

Definition stage_timeout (s : Stage) : LnError :=
  match s with
  | StClaim => LnOther "start_in_progress"
  | StLsp | StConnect => LspUnreachable
  | StVss | StBuild => BackupUnavailable
  | StStart => LnOther "chain_source_timeout"
  | StExitConnect => LnOther "start_timeout"
  end.

Definition map_build_error (e : BuildError) : LnError :=
  match e with
  | KVStoreSetupFailed | ReadFailed | WriteFailed => BackupUnavailable
  | NetworkMismatch => WrongNetwork
  | e => LnOther ("build: " +:+ build_error_display e)
  end.
Definition map_node_error (e : NodeError) : LnError :=
  match e with
  | ConnectionFailed => LspUnreachable
  | PersistenceFailed => BackupUnavailable
  | e => LnOther ("start: " +:+ start_error_display e)
  end.

Definition client_error (e : ClientError) : LnError :=
  match e with RuntimeFailed s => LnOther ("runtime: " +:+ s) | HttpClientFailed s => LnOther ("http client: " +:+ s) end.

(** [Shared::vss_client] *)
Definition vss_client (asked : nat) : result LnError unit :=
  match new_client asked with inr _ => Ok tt | inl e => Err (client_error e) end.

Definition cancelled : LnError := LnOther "cancelled".
Definition lock_not_started : LnError := LnOther "not_started".

(** ** Claims *)
Definition claims_put (st : ClaimState) (r : nat) (ks : list string) (c : gmap string (ClaimState * nat)) :
    gmap string (ClaimState * nat) := foldr (λ k, <[k := (st, r)]>) c ks.
Definition claims_drop (ks : list string) (c : gmap string (ClaimState * nat)) : gmap string (ClaimState * nat) :=
  foldr delete c ks.

(** Every key, or the strongest of the states it is held in. *)
Definition held_states (ks : list string) (c : gmap string (ClaimState * nat)) : list ClaimState :=
  omap (λ k, fst <$> c !! k) ks.
Definition strongest (l : list ClaimState) : option ClaimState :=
  if bool_decide (CRunning ∈ l) then Some CRunning
  else if bool_decide (CStopping ∈ l) then Some CStopping
  else if bool_decide (l = []) then None else Some CStarting.

Definition try_acquire (i n : nat) : Proc (ClaimState + nat) := atomically (λ w,
  match strongest (held_states (claim_keys n) (pr_claims w)) with
  | Some st => (Ok (inl st), w)
  | None =>
      let r := pr_next w in
      (Ok (inr r), set_claims (claims_put CStarting r (claim_keys n) (pr_claims w))
        (set_home (<[r := (n, InThread i)]> (pr_home w)) (set_next (S r) w)))
  end).

(** The drop of a claim that a thread has. *)
Definition drop_claim (i r : nat) : Proc unit := atomically (λ w,
  match pr_home w !! r with
  | Some (n, InThread j) =>
      if decide (i = j) then (Ok tt, set_claims (claims_drop (claim_keys n) (pr_claims w)) (set_home (delete r (pr_home w)) w))
      else (Ok tt, w)
  | _ => (Ok tt, w)
  end).

(** ** Holds of a running node *)

(** Clones the [Arc] in the node's slot. *)
Definition clone_running (i n : nat) : Proc (option Running) := atomically (λ w,
  match ns_inner (node w n) with
  | Some R =>
      match pr_home w !! rn_run R with
      | Some (m, InArc hs) => (Ok (Some R), set_home (<[rn_run R := (m, InArc (hs ⊎ {[+ HThread i +]}))]> (pr_home w)) w)
      | _ => (Ok (Some R), w)
      end
  | None => (Ok None, w)
  end).

(** Dropping a node stops it. *)
Definition drop_node (i r : nat) : Proc unit := atomically (λ w, (Ok tt, tick_proc (set_live (delete r (pr_live w)) w))).

(** The last hold that goes takes the node with it, then the claim. *)
Definition let_go (h : Holder) (i r : nat) : Proc bool := atomically (λ w,
  match pr_home w !! r with
  | Some (n, InArc hs) =>
      let hs := hs ∖ {[+ h +]} in
      if decide (hs = ∅) then (Ok true, set_home (<[r := (n, InThread i)]> (pr_home w)) w)
      else (Ok false, set_home (<[r := (n, InArc hs)]> (pr_home w)) w)
  | _ => (Ok false, w)
  end).
Definition drop_arc (h : Holder) (i r : nat) : Proc unit :=
  last ← let_go h i r;
  if (last : bool) then _ ← drop_node i r; drop_claim i r else mret tt.

(** [running().is_some()], and the mode. *)
Definition start_mode (i n : nat) : Proc (option StartMode) :=
  R ← clone_running i n;
  match R with
  | Some R => _ ← drop_arc (HThread i) i (rn_run R); mret (Some (rn_mode R))
  | None => mret None
  end.

(** ** The device lock *)
Definition set_slot (n : nat) (x : option HeldLock) (w : ProcWorld) : ProcWorld := set_node n (with_lock x (node w n)) w.

Definition refresh_lock (n g : nat) : Proc unit := atomically (λ w,
  let s := node w n in
  if negb (Nat.eqb (ns_generation s) g) then (Err lock_not_started, w)
  else match ns_lock s with
       | None => (Err lock_not_started, w)
       | Some h =>
           match vss_client (pr_asked w) with
           | Ok _ =>
               let keep held := set_slot n (Some {| hl_me := hl_me h; hl_held := held; hl_run := hl_run h |}) (tick_proc w) in
               match lock_refresh (pr_asked w) (hl_me h) (hl_held h) with
               | (Ok _, held) => (Ok tt, add_event (Passed n g) (keep held))
               | (Err e, held) =>
                   if is_lost e then (Err e, add_event (Lost n g) (set_slot n None (tick_proc w)))
                   else (Err e, keep held)
               | (Panic, _) => (Panic, tick_proc w)
               end
           | Err e => (Err e, tick_proc w)
           | Panic => (Panic, tick_proc w)
           end
       end).

Definition move_holder (r : nat) (a b : Holder) (h : gmap nat (nat * Home)) : gmap nat (nat * Home) :=
  match h !! r with
  | Some (m, InArc hs) => <[r := (m, InArc (hs ∖ {[+ a +]} ⊎ {[+ b +]}))]> h
  | _ => h
  end.

(** The run is taken out of the slot; [b] has it from now on. *)
Definition uninstall (n : nat) (b : Holder) (lost : bool) (w : ProcWorld) : ProcWorld :=
  let s := node w n in
  let w' := set_node n (with_lost (lost || ns_lock_lost s) (uninstalled s)) w in
  match ns_inner s with
  | Some R => set_home (move_holder (rn_run R) HInner b (pr_home w')) (set_claims (claims_put CStopping (rn_run R) (claim_keys n) (pr_claims w')) w')
  | None => w'
  end.

Definition lose_lock (b : Holder) (n g : nat) : Proc (option nat) := atomically (λ w,
  let s := node w n in
  match ns_inner s with
  | Some R => if Nat.eqb (ns_generation s) g then (Ok (Some (rn_run R)), uninstall n b true w) else (Ok None, w)
  | None => (Ok None, w)
  end).

(** The run is handed to a thread of its own to be stopped, if one starts.
    Whether one starts is asked first, so that taking the run out and handing
    it over is one step; nobody can tell. *)
Definition check_lock_at (i n g : nat) : Proc unit :=
  r ← proc_attempt (refresh_lock n g);
  match r with
  | Err e =>
      if is_lost e then
        started ← proc_ask thread_starts;
        lost ← lose_lock (if (started : bool) then HOrphan else HThread i) n g;
        _ ← match lost with
            | Some r => if (started : bool) then mret tt else drop_arc (HThread i) i r
            | None => mret tt
            end;
        proc_lift (Err e)
      else proc_lift (Err e)
  | r => proc_lift r
  end.

Definition check_device_lock (i n : nat) : Proc unit :=
  R ← clone_running i n;
  match R with
  | Some R => _ ← drop_arc (HThread i) i (rn_run R); check_lock_at i n (rn_generation R)
  | None => proc_lift (Err lock_not_started)
  end.

(** [only]: what the caller's own guard holds. *)
Definition release_lock_if (n : nat) (only : option LockHeld) : Proc unit := atomically (λ w,
  match ns_lock (node w n) with
  | Some h =>
      if match only with Some o => bool_decide (o = hl_held h) | None => true end
      then (Ok tt, set_slot n None (tick_proc w)) else (Ok tt, w)
  | None => (Ok tt, w)
  end).

(** The background check of a run, woken up [rounds] times at most; it is
    cancelled when its place in the node's slot is taken away. *)
Fixpoint check_rounds (i n g rounds : nat) (mine : ProcWorld → bool) : Proc unit :=
  match rounds with
  | O => mret tt
  | S rounds =>
      go ← atomically (λ w, (Ok (mine w), w));
      if negb go then mret tt
      else
        r ← proc_attempt (refresh_lock n g);
        match r with
        | Ok _ | Err BackupUnavailable => check_rounds i n g rounds mine
        | Err e =>
            if is_lost e then
              lost ← lose_lock (HThread i) n g;
              match lost with Some r => _ ← proc_ask id; drop_arc (HThread i) i r | None => mret tt end
            else mret tt
        | Panic => proc_lift Panic
        end
  end.

(** The thread of [spawn_lock_checker], once the run [r] has its place. *)
Definition lock_checker (i n r rounds : nat) : Proc unit :=
  c ← atomically (λ w, (Ok (ns_checker (node w n)), w));
  match c with
  | Some (r', g) =>
      if Nat.eqb r' r then check_rounds i n g rounds (λ w, bool_decide (ns_checker (node w n) = Some (r, g))) else mret tt
  | None => mret tt
  end.

Definition spawn_lock_checker (n r g : nat) : Proc unit :=
  placed ← atomically (λ w,
    let s := node w n in
    if negb (Nat.eqb (ns_generation s) g) || bool_decide (ns_inner s = None) then (Ok false, w)
    else (Ok true, set_node n (with_checker (Some (r, g)) s) w));
  if negb placed then mret tt
  else
    started ← proc_ask thread_starts;
    if (started : bool) then mret tt
    else atomically (λ w, (Ok tt, set_node n (with_checker None (node w n)) w)).

(** The thread that stops a run whose lock was lost. *)
Definition lost_stopper (i r : nat) : Proc unit :=
  mine ← atomically (λ w,
    match pr_home w !! r with
    | Some (n, InArc hs) =>
        if decide (HOrphan ∈ hs) then (Ok true, set_home (move_holder r HOrphan (HThread i) (pr_home w)) w) else (Ok false, w)
    | _ => (Ok false, w)
    end);
  if (mine : bool) then _ ← proc_ask id; drop_arc (HThread i) i r else mret tt.

(** ** Starting *)
Definition set_stage (i : nat) (s : Stage) : Proc unit := atomically (λ w, (Ok tt, set_stages (<[i := s]> (pr_stages w)) w)).
Definition generation (n : nat) : Proc nat := atomically (λ w, (Ok (ns_generation (node w n)), w)).
Definition installed (n : nat) : Proc bool := atomically (λ w, (Ok (negb (bool_decide (ns_inner (node w n) = None))), w)).

(** [Some]: the worker must stop, with this outcome. *)
Definition checkpoint (n g : nat) : Proc (option (result LnError unit)) :=
  g' ← generation n;
  if negb (Nat.eqb g' g) then mret (Some (Err cancelled))
  else b ← installed n; mret (if (b : bool) then Some (Ok tt) else None).

(** [rounds]: how often it is tried again before the deadline. *)
Fixpoint claim_run (i n g : nat) (lm : LockMode) (rounds : nat) : Proc (result LnError unit + nat) :=
  halt ← checkpoint n g;
  match halt with
  | Some h => mret (inl h)
  | None =>
      c ← try_acquire i n;
      match c with
      | inr r => mret (inr r)
      | inl CRunning =>
          b ← (if decide (lm = LmAcquire) then installed n else mret false);
          mret (inl (if (b : bool) then Ok tt else Err (LnOther "already_running")))
      | inl _ =>
          match rounds with
          | O => mret (inl (Err (LnOther "start_in_progress")))
          | S rounds => claim_run i n g lm rounds
          end
      end
  end.

Definition take_lock (n r : nat) (lm : LockMode) : Proc LockHeld :=
  m ← proc_ask device_id;
  me ← proc_lift m;
  c ← proc_ask vss_client;
  _ ← proc_lift c;
  atomically (λ w,
    match (match lm with LmAcquire => lock_acquire | LmTakeover => lock_takeover end) (pr_asked w) me with
    | Ok held => (Ok held, set_slot n (Some {| hl_me := me; hl_held := held; hl_run := r |}) (tick_proc w))
    | Err e => (Err e, tick_proc w)
    | Panic => (Panic, tick_proc w)
    end).

Definition build (n r : nat) : Proc string := atomically (λ w,
  match build_node (pr_asked w) with
  | inr id => (Ok id, tick_proc (set_live (<[r := n]> (pr_live w)) w))
  | inl e => (Err (map_build_error e), tick_proc w)
  end).

(** The outcome when nothing was installed. *)
Definition install (n r g : nat) (mode : StartMode) : Proc (option (result LnError unit)) := atomically (λ w,
  let s := node w n in
  if negb (Nat.eqb (ns_generation s) g) then (Ok (Some (Err cancelled)), w)
  else match ns_inner s with
       | Some _ => (Ok (Some (Ok tt)), w)
       | None =>
           (Ok None,
            set_claims (claims_put CRunning r (claim_keys n) (pr_claims w))
              (set_home (<[r := (n, InArc {[+ HInner +]})]> (pr_home w))
                (set_node n (with_inner (Some {| rn_run := r; rn_mode := mode; rn_generation := g |}) s) w)))
       end).

Definition probe_lsp : Proc unit := b ← proc_ask lsp_answers; proc_lift (bail_if (negb b) LspUnreachable).

(** What stops a worker early is its outcome. *)
Definition go_on (n g : nat) (rest : Proc (option (result LnError unit))) : Proc (option (result LnError unit)) :=
  halt ← checkpoint n g;
  match halt with Some h => mret (Some h) | None => rest end.

(** From the built node on; [None]: it is installed. *)
Definition start_built (i n r g : nat) (mode : StartMode) (id : string) : Proc (option (result LnError unit)) :=
  _ ← proc_lift (bail_if (negb (String.eqb id (own_id n))) (LnOther "node id mismatch"));
  go_on n g (
    _ ← set_stage i StStart;
    s ← proc_ask ldk_start;
    _ ← proc_lift match s with inr _ => Ok tt | inl e => Err (map_node_error e) end;
    go_on n g (
      _ ← (if decide (mode = Normal) then
             _ ← set_stage i StConnect;
             c ← proc_ask ldk_connect;
             proc_lift match c with
                       | inr _ => Ok tt
                       | inl PersistenceFailed => Err BackupUnavailable
                       | inl _ => Err LspUnreachable
                       end
           else mret tt);
      install n r g mode)).

(** The node is dropped unless it was installed. *)
Definition start_locked (i n r g : nat) (mode : StartMode) : Proc (option (result LnError unit)) :=
  go_on n g (
    _ ← set_stage i StBuild;
    id ← build n r;
    out ← proc_attempt (start_built i n r g mode id);
    match out with
    | Ok None => mret None
    | _ => _ ← drop_node i r; proc_lift out
    end).

(** Under a claim: the guard of the lock lets go of it unless the node was
    installed. *)
Definition start_claimed (i n r g : nat) (mode : StartMode) (lm : LockMode) : Proc (option (result LnError unit)) :=
  _ ← (if decide (mode = Normal) then _ ← set_stage i StLsp; probe_lsp else mret tt);
  go_on n g (
    _ ← set_stage i StVss;
    held ← take_lock n r lm;
    out ← proc_attempt (start_locked i n r g mode);
    match out with
    | Ok None => mret None
    | _ => _ ← release_lock_if n (Some held); proc_lift out
    end).

(** The node is held only for the call. *)
Definition exit_connect (i n r g : nat) : Proc unit :=
  _ ← set_stage i StExitConnect;
  up ← proc_ask lsp_answers;
  g' ← generation n;
  if negb up || negb (Nat.eqb g' g) then mret tt
  else
    got ← atomically (λ w,
      match pr_home w !! r with
      | Some (m, InArc hs) => (Ok true, set_home (<[r := (m, InArc (hs ⊎ {[+ HThread i +]}))]> (pr_home w)) w)
      | _ => (Ok false, w)
      end);
    if (got : bool) then _ ← proc_ask ldk_connect; drop_arc (HThread i) i r else mret tt.

(** The worker of a start. *)
Definition start_job (i n g : nat) (mode : StartMode) (lm : LockMode) (rounds : nat) : Proc unit :=
  _ ← set_stage i StClaim;
  c ← claim_run i n g lm rounds;
  match c with
  | inl h => proc_lift h
  | inr r =>
      out ← proc_attempt (start_claimed i n r g mode lm);
      match out with
      | Ok None =>
          _ ← spawn_lock_checker n r g;
          if decide (mode = Exit) then exit_connect i n r g else mret tt
      | Ok (Some h) => _ ← drop_claim i r; proc_lift h
      | Err e => _ ← drop_claim i r; proc_lift (Err e)
      | Panic => proc_lift Panic
      end
  end.

(** The call and its worker are one thread; the call that runs out of time is
    [start_timeout]. *)
Definition start_impl (i n : nat) (mode : StartMode) (lm : LockMode) (rounds : nat) : Proc unit :=
  g ← generation n;
  started ← proc_ask thread_starts;
  if (started : bool) then start_job i n g mode lm rounds else proc_lift (Err (LnOther ("spawn: " +:+ spawn_error_display))).

Definition start_timeout (n i : nat) : Proc unit := atomically (λ w,
  let s := node w n in
  match ns_inner s with
  | Some _ => (Ok tt, w)
  | None => (Err (stage_timeout (default StClaim (pr_stages w !! i))), set_node n {|
      ns_inner := None; ns_generation := S (ns_generation s); ns_lock := ns_lock s; ns_lock_lost := ns_lock_lost s;
      ns_checker := ns_checker s |} w)
  end).

Definition start_with (i n : nat) (mode : StartMode) (rounds : nat) : Proc unit :=
  m ← start_mode i n;
  match m with Some _ => mret tt | None => start_impl i n mode LmAcquire rounds end.

Definition takeover_start (i n : nat) (mode : StartMode) (rounds : nat) : Proc unit :=
  m ← start_mode i n;
  match m with Some _ => proc_lift (Err (LnOther "already_running")) | None => start_impl i n mode LmTakeover rounds end.

(** ** Stopping *)

(** Without the wait for helper threads at its end, which touches nothing. *)
Definition stop (i n : nat) : Proc unit :=
  R ← atomically (λ w, (Ok (ns_inner (node w n)), uninstall n (HStop i) false w));
  match R with
  | Some R =>
      _ ← proc_ask id;
      _ ← release_lock_if n None;
      drop_arc (HStop i) i (rn_run R)
  | None => mret tt
  end.

(** The part of [next_event] that reports a lost lock. *)
Definition lock_lost_event (n : nat) : Proc bool := atomically (λ w,
  (Ok (ns_lock_lost (node w n)), set_node n (with_lost false (node w n)) w)).

(** A call that holds the running node while it uses it. *)
Definition with_running {A} (i n : nat) (use : Running → Proc A) (none : A) : Proc A :=
  R ← clone_running i n;
  match R with
  | Some R =>
      r ← proc_attempt (use R);
      _ ← drop_arc (HThread i) i (rn_run R);
      proc_lift r
  | None => mret none
  end.
End start.
#[global] Arguments claim_keys {_} _ : simpl never.
#[global] Arguments claims_put : simpl never.
#[global] Arguments claims_drop : simpl never.
