(* ===== verification/LnOneNode.v ===== *)
(** At most one ldk-node runs on a wallet, and none without the device lock:
    what every interleaving of the programs of [LnStart.v] keeps. *)

From stdpp Require Import gmultiset functions.
From S2P Require Import Prelude Json Threads Bitcoin LnPay LnLock LnStart.

Section one.
Context `{NodeEnv}.
Definition slot_of (w : ProcWorld) (n r : nat) : option LockHeld :=
  h ← ns_lock (node w n); if decide (hl_run h = r) then Some (hl_held h) else None.

(** The run of generation [g] was put into the slot of [n]. *)
Definition was_installed (n g : nat) (w : ProcWorld) : Prop :=
  (g < ns_generation (node w n))%nat ∨ (g = ns_generation (node w n) ∧ ns_inner (node w n) ≠ None).

(** The holders of an installed run, and of one taken out. *)
Record holders_ok (hs : gmultiset Holder) : Prop := {
  hs_some : hs ≠ ∅;
  hs_inner : (multiplicity HInner hs ≤ 1)%nat;
  hs_out i : HStop i ∈ hs → HInner ∉ hs;
  hs_stop i j : HStop i ∈ hs → HStop j ∈ hs → i = j;
}.
Definition holds_lock (hs : gmultiset Holder) : Prop := HInner ∈ hs ∨ ∃ i, HStop i ∈ hs.

Record proc_inv (w : ProcWorld) : Prop := {
  pv_claims k st r : pr_claims w !! k = Some (st, r) → ∃ n h, pr_home w !! r = Some (n, h) ∧ k ∈ claim_keys n;
  pv_home r n h k : pr_home w !! r = Some (n, h) → k ∈ claim_keys n → ∃ st, pr_claims w !! k = Some (st, r);
  pv_fresh r x : pr_home w !! r = Some x → (r < pr_next w)%nat;
  pv_live r n : pr_live w !! r = Some n → ∃ h, pr_home w !! r = Some (n, h);
  pv_arc r n hs : pr_home w !! r = Some (n, InArc hs) → holders_ok hs ∧ pr_live w !! r = Some n;
  pv_inner n R : ns_inner (node w n) = Some R → ns_generation (node w n) = rn_generation R ∧
    ∃ hs, pr_home w !! rn_run R = Some (n, InArc hs) ∧ HInner ∈ hs;
  pv_slot n h : ns_lock (node w n) = Some h → ∃ hm, pr_home w !! hl_run h = Some (n, hm) ∧ ∀ hs, hm = InArc hs → holds_lock hs;
  pv_run n R : ns_inner (node w n) = Some R →
    is_Some (slot_of w n (rn_run R)) ∨ (ns_lock (node w n) = None ∧ Lost n (ns_generation (node w n)) ∈ pr_log w);
  pv_lost n g : Lost n g ∈ pr_log w → (g < ns_generation (node w n))%nat ∨
    (g = ns_generation (node w n) ∧ ns_inner (node w n) ≠ None ∧ ns_lock (node w n) = None);
  pv_final n g l1 l2 : pr_log w = l1 ++ Passed n g :: l2 → Lost n g ∉ l2;
  pv_checker n r g : ns_checker (node w n) = Some (r, g) → was_installed n g w;
}.

(** What a thread has of a run: its claim, the node under it and the lock it
    took; or holds of its [Arc], and the lock if it is to release it. *)
Inductive View : Type :=
| VNone
| VOwn (n : nat) (live : option nat) (slot : option LockHeld)
| VArc (n a s : nat) (slot : option LockHeld).
Definition arc_view (n a s : nat) (slot : option LockHeld) : View :=
  if decide (a + s = 0)%nat then VNone else VArc n a s (if decide (s = 0)%nat then None else slot).

Definition own_view (j : nat) (w : ProcWorld) (r : nat) : View :=
  match pr_home w !! r with
  | Some (n, InThread i) => if decide (i = j) then VOwn n (pr_live w !! r) (slot_of w n r) else VNone
  | Some (n, InArc hs) => arc_view n (multiplicity (HThread j) hs) (multiplicity (HStop j) hs) (slot_of w n r)
  | None => VNone
  end.

Definition proc_moves (T : nat → Prop) (w w' : ProcWorld) : Prop := proc_inv w → proc_inv w' ∧
  (∀ n g, was_installed n g w → was_installed n g w') ∧ (∀ e, e ∈ pr_log w → e ∈ pr_log w') ∧
  ∀ j r, T j → own_view j w' r = own_view j w r.
Definition own_proc (i : nat) : relation ProcWorld := proc_moves (λ j, j ≠ i).
Definition other_proc (i : nat) : relation ProcWorld := proc_moves (λ j, j = i).

Lemma proc_refl T : reflexive _ (proc_moves T).
Proof. intros w Hw. split_and!; auto. Qed.
Lemma proc_trans T : transitive _ (proc_moves T).
Proof.
  intros w1 w2 w3 H12 H23 Hw1. destruct (H12 Hw1) as (Hw2 & Hi & Hl & Hv). destruct (H23 Hw2) as (Hw3 & Hi' & Hl' & Hv').
  split_and!; auto. intros j r Hj. by rewrite Hv', Hv.
Qed.
Lemma proc_other i j w w' : i ≠ j → own_proc i w w' → other_proc j w w'.
Proof. intros Hne Hm Hw. destruct (Hm Hw) as (? & ? & ? & Hv). split_and!; [done..|]. intros ? r ->. by apply Hv. Qed.

(** ** One run for a node, and for a key *)
Lemma same_run w r1 r2 n1 n2 h1 h2 k : proc_inv w → pr_home w !! r1 = Some (n1, h1) → pr_home w !! r2 = Some (n2, h2) →
  k ∈ claim_keys n1 → k ∈ claim_keys n2 → r1 = r2.
Proof.
  intros Hw H1 H2 Hk1 Hk2. destruct (pv_home _ Hw _ _ _ _ H1 Hk1) as [st1 E1]. destruct (pv_home _ Hw _ _ _ _ H2 Hk2) as [st2 E2]. congruence.
Qed.
Lemma same_node w r1 r2 n h1 h2 : proc_inv w → pr_home w !! r1 = Some (n, h1) → pr_home w !! r2 = Some (n, h2) → r1 = r2.
Proof.
  intros Hw H1 H2. by apply (same_run w r1 r2 n n h1 h2 ("store:" +:+ store_id n)); [..|left|left].
Qed.

(** The claim of a thread leaves no run installed. *)
Lemma claimed_empty w r n i : proc_inv w → pr_home w !! r = Some (n, InThread i) → ns_inner (node w n) = None.
Proof.
  intros Hw Hr. destruct (ns_inner (node w n)) as [R|] eqn:E; [|done]. exfalso.
  destruct (pv_inner _ Hw _ _ E) as (_ & hs & Hh & _). assert (r = rn_run R) as -> by (by eapply same_node). congruence.
Qed.
Lemma slot_run w n h r hm : proc_inv w → ns_lock (node w n) = Some h → pr_home w !! r = Some (n, hm) → hl_run h = r.
Proof. intros Hw Hl Hr. destruct (pv_slot _ Hw _ _ Hl) as (hm' & Hh & _). by eapply same_node. Qed.
Lemma slot_none w n r hm : proc_inv w → pr_home w !! r = Some (n, hm) → slot_of w n r = None → ns_lock (node w n) = None.
Proof.
  intros Hw Hr Hs. destruct (ns_lock (node w n)) as [h|] eqn:E; [|done]. pose proof (slot_run _ _ _ _ _ Hw E Hr) as <-.
  unfold slot_of in Hs. rewrite E in Hs. simpl in Hs. by rewrite decide_True in Hs.
Qed.

Lemma node_set n s w m : node (set_node n s w) m = if decide (m = n) then s else node w m.
Proof. unfold node, set_node. simpl. case_decide as E; [subst; by rewrite lookup_insert_eq|by rewrite lookup_insert_ne]. Qed.

Lemma view_same j w w' r : pr_home w' !! r = pr_home w !! r → pr_live w' !! r = pr_live w !! r →
  (∀ n h, pr_home w !! r = Some (n, h) → slot_of w' n r = slot_of w n r) → own_view j w' r = own_view j w r.
Proof.
  intros Eh El Es. unfold own_view. rewrite Eh, El. destruct (pr_home w !! r) as [[n [i|hs]]|] eqn:E; [|by rewrite (Es n _ eq_refl)|done].
  by rewrite (Es n _ eq_refl).
Qed.
(** ** Steps *)

(** Steps that look, and steps on what no claim rests on. *)
Record quiet_proc (w w' : ProcWorld) : Prop := {
  qp_claims : pr_claims w' = pr_claims w; qp_home : pr_home w' = pr_home w; qp_live : pr_live w' = pr_live w;
  qp_next : pr_next w' = pr_next w; qp_log : pr_log w' = pr_log w;
  qp_inner n : ns_inner (node w' n) = ns_inner (node w n);
  qp_generation n : ns_generation (node w' n) = ns_generation (node w n);
  qp_lock n : ns_lock (node w' n) = ns_lock (node w n);
  qp_checker n r g : ns_checker (node w' n) = Some (r, g) → ns_checker (node w n) = Some (r, g) ∨ was_installed n g w;
}.

Lemma quiet_slot w w' n r : quiet_proc w w' → slot_of w' n r = slot_of w n r.
Proof. intros Hq. unfold slot_of. by rewrite (qp_lock _ _ Hq). Qed.

Lemma quiet_installed w w' n g : quiet_proc w w' → was_installed n g w → was_installed n g w'.
Proof. intros Hq. unfold was_installed. by rewrite (qp_generation _ _ Hq), (qp_inner _ _ Hq). Qed.

Lemma quiet_proc_inv w w' : quiet_proc w w' → proc_inv w → proc_inv w'.
Proof.
  intros Hq [Hcl Hho Hfr Hli Har Hin Hsl Hru Hlo Hfi Hch]. pose proof (quiet_slot w w') as Hs. destruct Hq as [E1 E2 E3 E4 E5 E6 E7 E8 E9] eqn:Eq.
  split; rewrite ?E1, ?E2, ?E3, ?E4, ?E5; try done; intros n *; rewrite ?E6, ?E7, ?E8; [apply Hin|apply Hsl| |apply Hlo|].
  - rewrite Hs by done. apply Hru.
  - intros Hx. apply (quiet_installed w); [done|]. destruct (E9 _ _ _ Hx); [by eapply Hch|done].
Qed.

Lemma quiet_proc_moves T w w' : quiet_proc w w' → proc_moves T w w'.
Proof.
  intros Hq Hw. split_and!; [by eapply quiet_proc_inv|intros; by eapply quiet_installed|by rewrite (qp_log _ _ Hq)|].
  intros j r _. apply view_same; [by rewrite (qp_home _ _ Hq)|by rewrite (qp_live _ _ Hq)|]. intros. by apply quiet_slot.
Qed.

Lemma quiet_proc_refl w : quiet_proc w w.
Proof. split; auto. Qed.
Lemma quiet_proc_tick w : quiet_proc w (tick_proc w).
Proof. split; auto. Qed.

(** Other holders of an installed run, or of one taken out. *)
Definition rehomed (r n : nat) (hs : gmultiset Holder) (w : ProcWorld) : ProcWorld :=
  set_home (<[r := (n, InArc hs)]> (pr_home w)) w.

Lemma rehomed_inv r n hs hs' w : proc_inv w → pr_home w !! r = Some (n, InArc hs) → holders_ok hs' →
  (HInner ∈ hs → HInner ∈ hs') → (is_Some (slot_of w n r) → holds_lock hs') → proc_inv (rehomed r n hs' w).
Proof.
  intros Hw Hr Hok Hinn Hslot. pose proof Hw as [Hcl Hho Hfr Hli Har Hin Hsl Hru Hlo Hfi Hch]. unfold rehomed.
  split; simpl; try done.
  - intros k st x (m & h & Hx & Hk)%Hcl. destruct (decide (x = r)) as [->|]; [|exists m, h; by rewrite lookup_insert_ne].
    rewrite Hr in Hx. injection Hx as <- <-. exists n, (InArc hs'). by rewrite lookup_insert_eq.
  - intros x m h k Hx. destruct (decide (x = r)) as [->|]; [|rewrite lookup_insert_ne in Hx by done; by eapply Hho].
    rewrite lookup_insert_eq in Hx. injection Hx as <- <-. by eapply Hho.
  - intros x y Hx. destruct (decide (x = r)) as [->|]; [by eapply Hfr|]. rewrite lookup_insert_ne in Hx by done. by eapply Hfr.
  - intros x m Hx. destruct (decide (x = r)) as [->|]; [|rewrite lookup_insert_ne by done; by apply Hli].
    apply Hli in Hx as [h Hx]. rewrite Hr in Hx. injection Hx as <- _. eexists. by rewrite lookup_insert_eq.
  - intros x m h Hx. destruct (decide (x = r)) as [->|]; [|rewrite lookup_insert_ne in Hx by done; by apply Har].
    rewrite lookup_insert_eq in Hx. injection Hx as <- <-. split; [done|]. by apply Har in Hr as [_ ?].
  - intros m R HR. destruct (Hin m R HR) as (Hg & h & Hh & Hi). split; [done|]. destruct (decide (rn_run R = r)) as [E|].
    + rewrite E, Hr in Hh. injection Hh as <- <-. exists hs'. rewrite E, lookup_insert_eq. auto.
    + exists h. by rewrite lookup_insert_ne.
  - intros m l Hl. change (ns_lock (node w m) = Some l) in Hl. destruct (Hsl m l Hl) as (hm & Hh & Hm). destruct (decide (hl_run l = r)) as [E|].
    + rewrite E, Hr in Hh. injection Hh as <- <-. exists (InArc hs'). rewrite E, lookup_insert_eq. split; [done|]. intros ? [= <-].
      apply Hslot. unfold slot_of. rewrite Hl. simpl. rewrite decide_True by done. by eexists.
    + exists hm. by rewrite lookup_insert_ne.
Qed.

Lemma rehomed_view r n hs hs' w j x : pr_home w !! r = Some (n, InArc hs) →
  own_view j (rehomed r n hs' w) x = if decide (x = r)
    then arc_view n (multiplicity (HThread j) hs') (multiplicity (HStop j) hs') (slot_of w n r) else own_view j w x.
Proof.
  intros Hr. case_decide as E; [subst; unfold own_view, rehomed; simpl; by rewrite lookup_insert_eq|].
  apply view_same; [|done..]. unfold rehomed. simpl. by rewrite lookup_insert_ne.
Qed.

Lemma rehomed_moves i r n hs hs' w : pr_home w !! r = Some (n, InArc hs) → holders_ok hs' →
  (HInner ∈ hs → HInner ∈ hs') → (is_Some (slot_of w n r) → holds_lock hs') →
  (∀ j, j ≠ i → multiplicity (HThread j) hs' = multiplicity (HThread j) hs ∧ multiplicity (HStop j) hs' = multiplicity (HStop j) hs) →
  own_proc i w (rehomed r n hs' w).
Proof.
  intros Hr Hok Hinn Hslot Hm Hw. split_and!; [by eapply rehomed_inv|done|done|]. intros j x Hj. rewrite (rehomed_view _ _ _ _ _ _ _ Hr).
  case_decide as E; [subst|done]. destruct (Hm j Hj) as [-> ->]. unfold own_view. by rewrite Hr.
Qed.
(** The home of a run whose other holders are gone, or that was just claimed:
    a thread. *)
Definition homed (r n i : nat) (w : ProcWorld) : ProcWorld := set_home (<[r := (n, InThread i)]> (pr_home w)) w.

Lemma homed_inv r n i hs w : proc_inv w → pr_home w !! r = Some (n, InArc hs) → HInner ∉ hs → proc_inv (homed r n i w).
Proof.
  intros Hw Hr Hn. destruct Hw as [Hcl Hho Hfr Hli Har Hin Hsl Hru Hlo Hfi Hch]. unfold homed. split; simpl; try done.
  - intros k st x (m & h & Hx & Hk)%Hcl. destruct (decide (x = r)) as [->|]; [|exists m, h; by rewrite lookup_insert_ne].
    rewrite Hr in Hx. injection Hx as <- <-. exists n, (InThread i). by rewrite lookup_insert_eq.
  - intros x m h k Hx. destruct (decide (x = r)) as [->|]; [|rewrite lookup_insert_ne in Hx by done; by eapply Hho].
    rewrite lookup_insert_eq in Hx. injection Hx as <- <-. by eapply Hho.
  - intros x y Hx. destruct (decide (x = r)) as [->|]; [by eapply Hfr|]. rewrite lookup_insert_ne in Hx by done. by eapply Hfr.
  - intros x m Hx. destruct (decide (x = r)) as [->|]; [|rewrite lookup_insert_ne by done; by apply Hli].
    apply Hli in Hx as [h Hx]. rewrite Hr in Hx. injection Hx as <- _. eexists. by rewrite lookup_insert_eq.
  - intros x m h Hx. destruct (decide (x = r)) as [->|]; [by rewrite lookup_insert_eq in Hx|]. rewrite lookup_insert_ne in Hx by done. by apply Har.
  - intros m R HR. destruct (Hin m R HR) as (Hg & h & Hh & Hi). split; [done|]. exists h. rewrite lookup_insert_ne; [done|].
    intros E. rewrite E, Hh in Hr. by injection Hr as _ ->.
  - intros m l Hl. destruct (Hsl m l Hl) as (hm & Hh & Hm). destruct (decide (hl_run l = r)) as [E|].
    + rewrite E, Hr in Hh. injection Hh as <- <-. exists (InThread i). by rewrite E, lookup_insert_eq.
    + exists hm. by rewrite lookup_insert_ne.
Qed.

Lemma homed_view r n i w j x : own_view j (homed r n i w) x = if decide (x = r)
  then (if decide (i = j) then VOwn n (pr_live w !! r) (slot_of w n r) else VNone) else own_view j w x.
Proof.
  case_decide as E; [subst; unfold own_view, homed; simpl; by rewrite lookup_insert_eq|].
  apply view_same; [|done..]. unfold homed. simpl. by rewrite lookup_insert_ne.
Qed.

(** ** What a thread knows *)
Definition knows (i : nat) (V : nat → View) (w : ProcWorld) : Prop := proc_inv w ∧ ∀ r, own_view i w r = V r.

Lemma knows_stable i V w w' : other_proc i w w' → knows i V w → knows i V w'.
Proof. intros Hm [Hw HV]. destruct (Hm Hw) as (Hw' & _ & _ & Hv). split; [done|]. intros r. by rewrite Hv. Qed.
Lemma knows_ext i V V' w : (∀ r, V r = V' r) → knows i V w → knows i V' w.
Proof. intros E [Hw HV]. split; [done|]. intros r. by rewrite HV. Qed.
Lemma knows_set i V r v w w' : proc_inv w' → (∀ x, own_view i w x = V x) → (∀ x, own_view i w' x = if decide (x = r) then v else own_view i w x) →
  knows i (<[r := v]> V) w'.
Proof.
  intros Hw' HV Hx. split; [done|]. intros x. rewrite Hx. case_decide as E; [subst; by rewrite fn_lookup_insert|]. by rewrite fn_lookup_insert_ne.
Qed.

Definition nrg (i : nat) {A} (m : Proc A) (w : ProcWorld) (Q : result LnError A → ProcWorld → Prop) : Prop :=
  rg (other_proc i) (own_proc i) m w Q.

Lemma nrg_bind {A B} i (m : Proc A) (f : A → Proc B) w (Q : result LnError B → ProcWorld → Prop) :
  nrg i m w (λ r w', match r with Ok a => nrg i (f a) w' Q | Err e => Q (Err e) w' | Panic => Q Panic w' end) → nrg i (m ≫= f) w Q.
Proof. intros Hm. apply rg_bind. eapply rg_mono; [|exact Hm]. by intros [a|e|] w'. Qed.

Lemma nrg_lift {A B} i (r : result LnError A) (f : A → Proc B) w (Q : result LnError B → ProcWorld → Prop) :
  match r with Ok a => nrg i (f a) w Q | Err e => Q (Err e) w | Panic => Q Panic w end → nrg i (proc_lift r ≫= f) w Q.
Proof. intros Hf. apply nrg_bind. by destruct r. Qed.

Lemma nrg_attempt {A} i (m : Proc A) w (Q : result LnError (result LnError A) → ProcWorld → Prop) :
  nrg i m w (λ r w', match r with Panic => Q Panic w' | r => Q (Ok r) w' end) → nrg i (proc_attempt m) w Q.
Proof. intros Hm. apply rg_bind. eapply rg_mono; [|exact Hm]. by intros [a|e|] w'. Qed.

(** One step, from what the thread still knows when it comes. *)
Lemma nrg_step {A} i (f : ProcWorld → result LnError A * ProcWorld) w V (Q : result LnError A → ProcWorld → Prop) :
  knows i V w → (∀ w1, other_proc i w w1 → knows i V w1 → own_proc i w1 (snd (f w1)) ∧ Q (fst (f w1)) (snd (f w1))) →
  nrg i (atomically f) w Q.
Proof. intros Hk Hf. apply rg_atomically. intros w1 Hm. apply Hf; [done|]. by eapply knows_stable. Qed.

Lemma knows_quiet i V w w' : quiet_proc w w' → knows i V w → knows i V w'.
Proof.
  intros Hq [Hw HV]. destruct (quiet_proc_moves (λ _, True) _ _ Hq Hw) as (Hw' & _ & _ & Hv). split; [done|]. intros r. by rewrite Hv.
Qed.
Lemma nrg_quiet {A} i (f : ProcWorld → result LnError A * ProcWorld) w V :
  knows i V w → (∀ w1, other_proc i w w1 → quiet_proc w1 (snd (f w1))) → nrg i (atomically f) w (λ _ w', knows i V w').
Proof.
  intros Hk Hf. eapply nrg_step; [done|]. intros w1 Hm Hk1. pose proof (Hf w1 Hm) as Hq. split; [by apply quiet_proc_moves|by eapply knows_quiet].
Qed.
Lemma nrg_ask {A} i (f : nat → A) w V : knows i V w → nrg i (proc_ask f) w (λ r w', (∃ a, r = Ok a) ∧ knows i V w').
Proof.
  intros Hk. eapply nrg_step; [done|]. intros w1 _ Hk1. split; [apply quiet_proc_moves, quiet_proc_tick|].
  split; [by eexists|by eapply knows_quiet; [apply quiet_proc_tick|]].
Qed.
(** ** Holds of a run *)
Lemma view_arc i w r n hs : pr_home w !! r = Some (n, InArc hs) →
  own_view i w r = arc_view n (multiplicity (HThread i) hs) (multiplicity (HStop i) hs) (slot_of w n r).
Proof. intros Hr. unfold own_view. by rewrite Hr. Qed.

Lemma arc_view_Some w i r n a s sl : own_view i w r = arc_view n a s sl → (0 < a + s)%nat →
  ∃ hs, pr_home w !! r = Some (n, InArc hs) ∧ multiplicity (HThread i) hs = a ∧ multiplicity (HStop i) hs = s ∧
    (0 < s → sl = slot_of w n r)%nat.
Proof.
  intros Hv Hp. unfold own_view, arc_view in *. rewrite (decide_False (P := (a + s = 0)%nat)) in Hv by lia.
  destruct (pr_home w !! r) as [[m [j|hs]]|] eqn:E; [by case_decide| |done]. destruct (decide _); [done|].
  injection Hv as -> Ea Es El. exists hs. split_and!; [done..|]. intros Hs. subst. rewrite !decide_False in El by lia. done.
Qed.

(** A run with one holder more. *)
Lemma held_more hs h : holders_ok hs → (∀ j, h ≠ HStop j) → h ≠ HInner → holders_ok (hs ⊎ {[+ h +]}).
Proof.
  intros [Hs Hi Ho Ht] Hn Hh. split.
  - multiset_solver.
  - rewrite multiplicity_disj_union, multiplicity_singleton_ne by done. lia.
  - intros i. rewrite !gmultiset_elem_of_disj_union, !gmultiset_elem_of_singleton. intros [Hx|Hx]; [|by destruct (Hn i)].
    intros [?|?]; [by eapply Ho|done].
  - intros i j. rewrite !gmultiset_elem_of_disj_union, !gmultiset_elem_of_singleton.
    intros [Hx|Hx]; [|by destruct (Hn i)]. intros [?|Hy]; [by apply Ht|by destruct (Hn j)].
Qed.
Lemma held_less hs h : holders_ok hs → hs ∖ {[+ h +]} ≠ ∅ → holders_ok (hs ∖ {[+ h +]}).
Proof.
  intros [Hs Hi Ho Ht] Hn. assert (Hsub : ∀ x, x ∈ hs ∖ {[+ h +]} → x ∈ hs) by multiset_solver. split; [done| | |].
  - rewrite multiplicity_difference. lia.
  - intros i Hx%Hsub Hy%Hsub. by eapply Ho.
  - intros i j Hx%Hsub Hy%Hsub. by apply Ht.
Qed.

(** A hold more for the thread, of a run that is held already. *)
Lemma gain_spec i V w r n hs : knows i V w → pr_home w !! r = Some (n, InArc hs) →
  own_proc i w (rehomed r n (hs ⊎ {[+ HThread i +]}) w) ∧
  ∃ a s sl, V r = arc_view n a s sl ∧ knows i (<[r := arc_view n (S a) s sl]> V) (rehomed r n (hs ⊎ {[+ HThread i +]}) w).
Proof.
  intros [Hw HV] Hr. destruct (pv_arc _ Hw _ _ _ Hr) as [Hok _].
  assert (Hok' : holders_ok (hs ⊎ {[+ HThread i +]})) by (by apply held_more).
  assert (Hin : HInner ∈ hs → HInner ∈ hs ⊎ {[+ HThread i +]}) by multiset_solver.
  assert (Hlk : is_Some (slot_of w n r) → holds_lock (hs ⊎ {[+ HThread i +]})).
  { intros [x Hx]. unfold slot_of in Hx. destruct (ns_lock (node w n)) as [l|] eqn:El; [|done]. simpl in Hx. case_decide as E; [|done].
    destruct (pv_slot _ Hw _ _ El) as (hm & Hh & Hm). rewrite E, Hr in Hh. injection Hh as <-.
    destruct (Hm _ eq_refl) as [?|[j ?]]; [left|right; exists j]; multiset_solver. }
  split.
  - eapply rehomed_moves; try done. intros j Hj. rewrite !multiplicity_disj_union, !multiplicity_singleton_ne by congruence. lia.
  - eexists _, _, _. split; [by rewrite <-HV, (view_arc _ _ _ _ _ Hr)|]. eapply knows_set; [by eapply rehomed_inv|done|].
    intros x. rewrite (rehomed_view _ _ _ _ _ _ _ Hr). case_decide; [|done].
    rewrite !multiplicity_disj_union, multiplicity_singleton, multiplicity_singleton_ne by done.
    by rewrite decide_True, Nat.add_1_r, Nat.add_0_r by done.
Qed.

Lemma clone_spec i n V w : knows i V w → nrg i (clone_running i n) w (λ x w', match x with
  | Ok (Some R) => was_installed n (rn_generation R) w' ∧
      ∃ a s sl, V (rn_run R) = arc_view n a s sl ∧ knows i (<[rn_run R := arc_view n (S a) s sl]> V) w'
  | Ok None => knows i V w'
  | _ => False
  end).
Proof.
  intros Hk0. eapply nrg_step; [done|]. clear Hk0. intros w1 _ Hk. destruct (ns_inner (node w1 n)) as [R|] eqn:ER; [|split; [apply proc_refl|done]].
  destruct (pv_inner _ (proj1 Hk) _ _ ER) as (Eg & hs & Hh & Hi). rewrite Hh. cbn [fst snd].
  destruct (gain_spec _ _ _ _ _ _ Hk Hh) as [Hm Hk']. split; [exact Hm|]. split; [|exact Hk']. right. rewrite <-Eg.
  split; [done|]. change (ns_inner (node w1 n) ≠ None). by rewrite ER.
Qed.

(** Letting go of a hold: the last takes the run with it. *)
Lemma let_go_step i V w r n a s sl h hs : knows i V w → pr_home w !! r = Some (n, InArc hs) → h ∈ hs →
  (h = HThread i ∨ h = HStop i ∧ slot_of w n r = None) →
  V r = arc_view n (multiplicity (HThread i) hs) (multiplicity (HStop i) hs) sl →
  a = multiplicity (HThread i) (hs ∖ {[+ h +]}) → s = multiplicity (HStop i) (hs ∖ {[+ h +]}) →
  (0 < multiplicity (HStop i) hs → sl = slot_of w n r)%nat →
  if decide (hs ∖ {[+ h +]} = ∅)
  then own_proc i w (homed r n i w) ∧ a = 0%nat ∧ s = 0%nat ∧ knows i (<[r := VOwn n (Some n) None]> V) (homed r n i w)
  else own_proc i w (rehomed r n (hs ∖ {[+ h +]}) w) ∧ knows i (<[r := arc_view n a s sl]> V) (rehomed r n (hs ∖ {[+ h +]}) w).
Proof.
  intros [Hw HV] Hr Hh Hcase HVr -> -> Hsl. destruct (pv_arc _ Hw _ _ _ Hr) as [Hok Hlive].
  assert (Hother : ∀ x, x ≠ h → x ∈ hs → x ∈ hs ∖ {[+ h +]}) by multiset_solver.
  assert (Hinn : h ≠ HInner) by (by destruct Hcase as [->|[-> _]]).
  assert (Hheld : is_Some (slot_of w n r) → holds_lock (hs ∖ {[+ h +]})).
  { intros [x Hx]. destruct Hcase as [->|[-> E]]; [|congruence]. unfold slot_of in Hx. destruct (ns_lock (node w n)) as [l|] eqn:El; [|done].
    simpl in Hx. case_decide as E; [|done]. destruct (pv_slot _ Hw _ _ El) as (hm & Hhm & Hm). rewrite E, Hr in Hhm. injection Hhm as <-.
    destruct (Hm _ eq_refl) as [?|[j ?]]; [left|right; exists j]; by apply Hother. }
  assert (Hcount : ∀ j, j ≠ i → multiplicity (HThread j) (hs ∖ {[+ h +]}) = multiplicity (HThread j) hs ∧
    multiplicity (HStop j) (hs ∖ {[+ h +]}) = multiplicity (HStop j) hs).
  { intros j Hj. rewrite !multiplicity_difference, !multiplicity_singleton_ne by (destruct Hcase as [->|[-> _]]; congruence). lia. }
  case_decide as Hlast.
  - assert (Hni : HInner ∉ hs) by (intros Hx; apply Hother in Hx; [rewrite Hlast in Hx; multiset_solver|done]).
    assert (Hns : slot_of w n r = None).
    { destruct (slot_of w n r); [|done]. rewrite Hlast in Hheld. destruct (Hheld ltac:(by eexists)) as [Hx|[j Hx]]; by apply gmultiset_not_elem_of_empty in Hx. }
    split; [|split; [by rewrite Hlast|split; [by rewrite Hlast|]]].
    + intros _. split_and!; [by eapply homed_inv|done|done|]. intros j x Hj. rewrite homed_view. case_decide as E; [subst|done].
      rewrite decide_False by done. rewrite (view_arc _ _ _ _ _ Hr). destruct (Hcount j Hj) as [<- <-]. by rewrite Hlast.
    + eapply knows_set; [by eapply homed_inv|done|]. intros x. rewrite homed_view.
      case_decide; [|done]. by rewrite decide_True, Hlive, Hns by done.
  - assert (Hok' : holders_ok (hs ∖ {[+ h +]})) by (by apply held_less).
    split; [eapply rehomed_moves; try done; by apply Hother|]. eapply knows_set; [eapply rehomed_inv; try done; by apply Hother|done|].
    intros x. rewrite (rehomed_view _ _ _ _ _ _ _ Hr). case_decide; [|done]. unfold arc_view. case_decide; [done|]. f_equal. case_decide; [done|].
    rewrite Hsl; [done|]. rewrite multiplicity_difference in *. lia.
Qed.
Lemma let_go_spec i V w r n a s sl h : knows i V w →
  (h = HThread i ∧ V r = arc_view n (S a) s sl ∨ h = HStop i ∧ sl = None ∧ V r = arc_view n a (S s) None) →
  nrg i (let_go h i r) w (λ x w', match x with
  | Ok true => a = 0%nat ∧ s = 0%nat ∧ knows i (<[r := VOwn n (Some n) None]> V) w'
  | Ok false => knows i (<[r := arc_view n a s sl]> V) w'
  | _ => False
  end).
Proof.
  intros Hk Hcase. eapply nrg_step; [done|]. clear Hk. intros w1 _ Hk. unfold let_go.
  assert (Hx : ∃ hs, pr_home w1 !! r = Some (n, InArc hs) ∧ h ∈ hs ∧ (h = HThread i ∨ h = HStop i ∧ slot_of w1 n r = None) ∧
    V r = arc_view n (multiplicity (HThread i) hs) (multiplicity (HStop i) hs) sl ∧
    a = multiplicity (HThread i) (hs ∖ {[+ h +]}) ∧ s = multiplicity (HStop i) (hs ∖ {[+ h +]}) ∧
    (0 < multiplicity (HStop i) hs → sl = slot_of w1 n r)%nat).
  { destruct Hcase as [[-> HV]|(-> & -> & HV)]; pose proof (proj2 Hk r) as Hv; rewrite HV in Hv;
      apply arc_view_Some in Hv as (hs & Hr & Ea & Es & Hs); [|lia| |lia]; exists hs; split_and!; try done.
    - apply elem_of_multiplicity. lia.
    - by left.
    - by rewrite Ea, Es.
    - rewrite multiplicity_difference, multiplicity_singleton, decide_True by done. lia.
    - rewrite multiplicity_difference, multiplicity_singleton_ne by done. lia.
    - intros Hp. apply Hs. lia.
    - apply elem_of_multiplicity. lia.
    - right. split; [done|]. symmetry. apply Hs. lia.
    - by rewrite Ea, Es.
    - rewrite multiplicity_difference, multiplicity_singleton_ne by done. lia.
    - rewrite multiplicity_difference, multiplicity_singleton, decide_True by done. lia.
    - intros _. apply Hs. lia. }
  destruct Hx as (hs & Hr & Hh & Hc & HVr & Ea & Es & Hsl). rewrite Hr.
  pose proof (let_go_step i V w1 r n a s sl h hs Hk Hr Hh Hc HVr Ea Es Hsl) as Hstep. cbv zeta. destruct (decide _); cbn [fst snd]; tauto.
Qed.

Lemma own_home i w r n l sl : own_view i w r = VOwn n l sl → pr_home w !! r = Some (n, InThread i) ∧ pr_live w !! r = l ∧ slot_of w n r = sl.
Proof.
  unfold own_view, arc_view. destruct (pr_home w !! r) as [[m [j|hs]]|]; [|by case_decide|done]. case_decide as E; [|done].
  subst. by intros [= -> -> ->].
Qed.

Lemma drop_node_spec i V w r n l sl : knows i V w → V r = VOwn n l sl →
  nrg i (drop_node i r) w (λ x w', x = Ok tt ∧ knows i (<[r := VOwn n None sl]> V) w').
Proof.
  intros Hk HV. eapply nrg_step; [done|]. clear Hk. intros w1 _ [Hw Hv]. cbn [fst snd].
  destruct (own_home i w1 r n l sl) as (Hr & _ & Hs); [by rewrite Hv|].
  assert (Hw' : proc_inv (tick_proc (set_live (delete r (pr_live w1)) w1))).
  { destruct Hw as [Hcl Hho Hfr Hli Har Hin Hsl Hru Hlo Hfi Hch]. split; simpl; try done.
    - intros x m [_ Hx]%lookup_delete_Some. by apply Hli.
    - intros x m hs Hx. destruct (Har _ _ _ Hx). rewrite lookup_delete_ne; [done|]. intros <-. congruence. }
  split; [|split; [done|]].
  - intros _. split_and!; [done..|]. intros j x Hj. destruct (decide (x = r)) as [->|].
    + unfold own_view. simpl. by rewrite Hr, !decide_False by done.
    + apply view_same; simpl; [done|by rewrite lookup_delete_ne|done].
  - eapply knows_set; [done|done|]. intros x. case_decide as E; [subst|apply view_same; simpl; [done|by rewrite lookup_delete_ne|done]].
    unfold own_view. simpl. rewrite Hr, decide_True, lookup_delete_eq by done. by f_equal.
Qed.

Lemma lookup_claims_drop ks c k : claims_drop ks c !! k = if decide (k ∈ ks) then None else c !! k.
Proof.
  unfold claims_drop. induction ks as [|x ks IH]; cbn [foldr]; [by rewrite decide_False by (apply not_elem_of_nil)|].
  destruct (decide (k = x)) as [->|]; [by rewrite lookup_delete_eq, decide_True by left|]. rewrite lookup_delete_ne, IH by done.
  by apply decide_ext; rewrite elem_of_cons; naive_solver.
Qed.
Lemma lookup_claims_put st r ks c k : claims_put st r ks c !! k = if decide (k ∈ ks) then Some (st, r) else c !! k.
Proof.
  unfold claims_put. induction ks as [|x ks IH]; cbn [foldr]; [by rewrite decide_False by (apply not_elem_of_nil)|].
  destruct (decide (k = x)) as [->|]; [by rewrite lookup_insert_eq, decide_True by left|]. rewrite lookup_insert_ne, IH by done.
  by apply decide_ext; rewrite elem_of_cons; naive_solver.
Qed.

Lemma drop_claim_spec i V w r n : knows i V w → V r = VOwn n None None →
  nrg i (drop_claim i r) w (λ x w', x = Ok tt ∧ knows i (<[r := VNone]> V) w').
Proof.
  intros Hk HV. eapply nrg_step; [done|]. clear Hk. intros w1 _ [Hw Hv]. unfold drop_claim.
  destruct (own_home i w1 r n None None) as (Hr & Hl & Hs); [by rewrite Hv|]. rewrite Hr, decide_True by done. cbn [fst snd].
  set (w' := set_claims _ _).
  assert (Hw' : proc_inv w').
  { pose proof (same_run w1) as Hone. pose proof (slot_run w1) as Hslr. pose proof Hw as [Hcl Hho Hfr Hli Har Hin Hsl Hru Hlo Hfi Hch].
    split; unfold w'; simpl; try done.
    - intros k st x. rewrite lookup_claims_drop. case_decide as Ek; [done|]. intros (m & h & Hx & Hkm)%Hcl. exists m, h. split; [|done].
      rewrite lookup_delete_ne; [done|]. intros <-. congruence.
    - intros x m h k [Hne Hx]%lookup_delete_Some Hkm. rewrite lookup_claims_drop, decide_False; [by eapply Hho|].
      intros Hkn. apply Hne. by eapply Hone.
    - intros x y [_ Hx]%lookup_delete_Some. by eapply Hfr.
    - intros x m Hx. destruct (Hli _ _ Hx) as [h Hh]. exists h. rewrite lookup_delete_ne; [done|]. intros <-. congruence.
    - intros x m hs [_ Hx]%lookup_delete_Some. by apply Har.
    - intros m R HR. destruct (Hin m R HR) as (Hg & hs & Hh & Hi). split; [done|]. exists hs. rewrite lookup_delete_ne; [done|]. intros E. rewrite <-E in Hh. congruence.
    - intros m x Hx. change (ns_lock (node w1 m) = Some x) in Hx. destruct (Hsl m x Hx) as (hm & Hh & Hm). exists hm. rewrite lookup_delete_ne; [done|].
      intros E. rewrite <-E, Hr in Hh. injection Hh as <- <-. unfold slot_of in Hs. rewrite Hx in Hs. simpl in Hs. by rewrite decide_True in Hs. }
  assert (Hview : ∀ j x, own_view j w' x = if decide (x = r) then VNone else own_view j w1 x).
  { intros j x. case_decide as E; [subst; unfold own_view, w'; simpl; by rewrite lookup_delete_eq|].
    apply view_same; unfold w'; simpl; [by rewrite lookup_delete_ne|done|done]. }
  split; [|split; [done|]].
  - intros _. split_and!; [done..|]. intros j x Hj. rewrite Hview. case_decide as E; [subst|done]. unfold own_view. by rewrite Hr, decide_False by done.
  - by eapply knows_set.
Qed.

(** A hold that is let go: what the thread had of the run without it. *)
Lemma drop_arc_spec i V w r n a s sl h : knows i V w →
  (h = HThread i ∧ V r = arc_view n (S a) s sl ∨ h = HStop i ∧ sl = None ∧ V r = arc_view n a (S s) None) →
  nrg i (drop_arc h i r) w (λ x w', x = Ok tt ∧ knows i (<[r := arc_view n a s sl]> V) w').
Proof.
  intros Hk Hc. apply nrg_bind. eapply rg_mono; [|by eapply let_go_spec]. intros [[]|?|] w1 Hx; [|by split|done..].
  destruct Hx as (-> & -> & Hk1). apply nrg_bind. eapply rg_mono; [|eapply drop_node_spec; [exact Hk1|by rewrite fn_lookup_insert]].
  intros ? w2 [-> Hk2]. eapply rg_mono; [|eapply drop_claim_spec; [exact Hk2|by rewrite fn_lookup_insert]]. intros ? w3 [-> Hk3].
  split; [done|]. eapply knows_ext; [|exact Hk3]. intros x. destruct (decide (x = r)) as [->|].
  - by rewrite !fn_lookup_insert.
  - by rewrite !fn_lookup_insert_ne by done.
Qed.
(** ** Claims *)
Lemma strongest_none l : strongest l = None → l = [].
Proof.
  unfold strongest. destruct (bool_decide (CRunning ∈ l)); [done|]. destruct (bool_decide (CStopping ∈ l)); [done|].
  by case_bool_decide.
Qed.
Lemma unheld ks c : strongest (held_states ks c) = None → ∀ k, k ∈ ks → c !! k = None.
Proof.
  intros E%strongest_none k Hk. destruct (c !! k) as [[st r]|] eqn:Ec; [|done]. exfalso.
  assert (Hx : st ∈ held_states ks c) by (apply list_elem_of_omap; exists k; by rewrite Ec). rewrite E in Hx. by apply elem_of_nil in Hx.
Qed.

Lemma try_acquire_spec i V w n : knows i V w →
  nrg i (try_acquire i n) w (λ x w', match x with
  | Ok (inr r) => V r = VNone ∧ knows i (<[r := VOwn n None None]> V) w'
  | Ok (inl _) => knows i V w'
  | _ => False
  end).
Proof.
  intros Hk. eapply nrg_step; [done|]. clear Hk. intros w1 _ [Hw Hv]. destruct (strongest _) as [st|] eqn:Est; cbn [fst snd]; [split; [apply proc_refl|done]|].
  pose proof (unheld _ _ Est) as Hfree. set (r := pr_next w1). set (w' := set_claims _ _).
  assert (Hno : pr_home w1 !! r = None).
  { destruct (pr_home w1 !! r) as [x|] eqn:E; [|done]. pose proof (pv_fresh _ Hw _ _ E). unfold r in *. lia. }
  assert (Hw' : proc_inv w').
  { pose proof Hw as [Hcl Hho Hfr Hli Har Hin Hsl Hru Hlo Hfi Hch]. split; unfold w'; simpl; try done.
    - intros k st x. rewrite lookup_claims_put. case_decide as Ek.
      + intros [= <- <-]. exists n, (InThread i). by rewrite lookup_insert_eq.
      + intros (m & h & Hx & Hkm)%Hcl. exists m, h. rewrite lookup_insert_ne; [done|]. intros <-. fold r in Hx. congruence.
    - intros x m h k Hx Hkm. rewrite lookup_claims_put. destruct (decide (x = r)) as [->|].
      + rewrite lookup_insert_eq in Hx. injection Hx as <- <-. rewrite decide_True by done. by eexists.
      + rewrite lookup_insert_ne in Hx by done. destruct (Hho _ _ _ _ Hx Hkm) as [st E]. rewrite decide_False; [by exists st|].
        intros Hkn. rewrite Hfree in E; done.
    - intros x y Hx. destruct (decide (x = r)) as [->|]; [unfold r; lia|]. rewrite lookup_insert_ne in Hx by done. apply Hfr in Hx. lia.
    - intros x m Hx. destruct (Hli _ _ Hx) as [h Hh]. exists h. rewrite lookup_insert_ne; [done|]. intros <-. fold r in Hh. congruence.
    - intros x m hs Hx. destruct (decide (x = r)) as [->|]; [by rewrite lookup_insert_eq in Hx|]. rewrite lookup_insert_ne in Hx by done. by apply Har.
    - intros m R HR. destruct (Hin m R HR) as (Hg & hs & Hh & Hi). split; [done|]. exists hs. rewrite lookup_insert_ne; [done|].
      intros E. rewrite <-E in Hh. fold r in Hh. congruence.
    - intros m x Hx. destruct (Hsl m x Hx) as (hm & Hh & Hm). exists hm. rewrite lookup_insert_ne; [done|].
      intros E. rewrite <-E in Hh. fold r in Hh. congruence. }
  assert (Hview : ∀ j x, x ≠ r → own_view j w' x = own_view j w1 x).
  { intros j x Hx. apply view_same; unfold w'; simpl; [by rewrite lookup_insert_ne|done|done]. }
  split; [|split].
  - intros _. split_and!; [done..|]. intros j x Hj. destruct (decide (x = r)) as [->|]; [|by apply Hview].
    unfold own_view, w'. simpl. by rewrite lookup_insert_eq, Hno, decide_False by done.
  - rewrite <-Hv. unfold own_view. by rewrite Hno.
  - eapply knows_set; [done|done|]. intros x. case_decide as E; [subst|by apply Hview]. unfold own_view, w'. simpl.
    rewrite lookup_insert_eq, decide_True by done. f_equal.
    + destruct (pr_live w1 !! r) as [m|] eqn:El; [|done]. destruct (pv_live _ Hw _ _ El). congruence.
    + change (slot_of w1 n r = None). unfold slot_of. destruct (ns_lock (node w1 n)) as [h|] eqn:El; [|done]. simpl. rewrite decide_False; [done|].
      intros E. destruct (pv_slot _ Hw _ _ El) as (hm & Hh & _). congruence.
Qed.

(** ** The device lock *)
Definition slotted (n : nat) (x : option HeldLock) (ev : list LockEvent) (w : ProcWorld) : ProcWorld := {|
  pr_nodes := pr_nodes (set_slot n x w); pr_claims := pr_claims w; pr_home := pr_home w; pr_live := pr_live w;
  pr_next := pr_next w; pr_stages := pr_stages w; pr_asked := pr_asked w; pr_log := ev ++ pr_log w |}.

Lemma slotted_node n x ev w m : node (slotted n x ev w) m = if decide (m = n) then with_lock x (node w n) else node w m.
Proof. change (node (slotted n x ev w) m) with (node (set_node n (with_lock x (node w n)) w) m). apply node_set. Qed.
Lemma slotted_inner n x ev w m : ns_inner (node (slotted n x ev w) m) = ns_inner (node w m).
Proof. rewrite slotted_node. by case_decide as E; [subst|]. Qed.
Lemma slotted_generation n x ev w m : ns_generation (node (slotted n x ev w) m) = ns_generation (node w m).
Proof. rewrite slotted_node. by case_decide as E; [subst|]. Qed.
Lemma slotted_checker n x ev w m : ns_checker (node (slotted n x ev w) m) = ns_checker (node w m).
Proof. rewrite slotted_node. by case_decide as E; [subst|]. Qed.
Lemma slotted_lock n x ev w m : ns_lock (node (slotted n x ev w) m) = if decide (m = n) then x else ns_lock (node w m).
Proof. rewrite slotted_node. by case_decide. Qed.
Lemma slotted_slot n x ev w m r : m ≠ n → slot_of (slotted n x ev w) m r = slot_of w m r.
Proof. intros Hm. unfold slot_of. by rewrite slotted_lock, decide_False by done. Qed.

Definition event_ok (n : nat) (x : option HeldLock) (ev : list LockEvent) (w : ProcWorld) : Prop :=
  ev = [] ∨ (∃ g, ev = [Passed n g] ∧ Lost n g ∉ pr_log w) ∨
  (ev = [Lost n (ns_generation (node w n))] ∧ ns_inner (node w n) ≠ None ∧ x = None).

Lemma slotted_inv n x ev w : proc_inv w →
  (∀ h, x = Some h → ∃ hm, pr_home w !! hl_run h = Some (n, hm) ∧ ∀ hs, hm = InArc hs → holds_lock hs) →
  (∀ R, ns_inner (node w n) = Some R → (∃ h, x = Some h ∧ hl_run h = rn_run R) ∨
    x = None ∧ Lost n (ns_generation (node w n)) ∈ ev ++ pr_log w) →
  (x = None ∨ ∀ g, Lost n g ∈ pr_log w → (g < ns_generation (node w n))%nat) →
  event_ok n x ev w → proc_inv (slotted n x ev w).
Proof.
  intros [Hcl Hho Hfr Hli Har Hin Hsl Hru Hlo Hfi Hch] Hx Hrun Hlost Hev. split; try done.
  - intros m R. rewrite slotted_inner, slotted_generation. apply Hin.
  - intros m h. rewrite slotted_lock. case_decide as E; [subst; apply Hx|apply Hsl].
  - intros m R. rewrite slotted_inner, slotted_generation, slotted_lock. intros HR. destruct (decide (m = n)) as [->|Hm].
    + destruct (Hrun R HR) as [(h & -> & E)|[-> Hl]]; [left|by right]. unfold slot_of. rewrite slotted_lock, decide_True by done.
      simpl. rewrite decide_True by done. by eexists.
    + rewrite slotted_slot by done. destruct (Hru m R HR) as [?|[? ?]]; [by left|right]. split; [done|]. apply elem_of_app. by right.
  - intros m g. rewrite slotted_generation, slotted_inner, slotted_lock. simpl. intros [He|He]%elem_of_app.
    + destruct Hev as [->|[(g' & -> & _)|(-> & Hi & ->)]]; [by apply elem_of_nil in He|apply list_elem_of_singleton in He; done|].
      apply list_elem_of_singleton in He. injection He as -> ->. right. by rewrite decide_True.
    + destruct (Hlo _ _ He) as [?|(E & Hi & Hl)]; [by left|]. case_decide as Em; [subst m|by right].
      destruct Hlost as [->|Hx']; [by right|left; by apply Hx'].
  - intros m g l1 l2 E. simpl in E. destruct Hev as [->|[(g' & -> & Hn)|(-> & _)]]; [by eapply Hfi|..];
      destruct l1 as [|y l1]; injection E as E1 E2; [by subst|by eapply Hfi|done|by eapply Hfi].
  - intros m r g. unfold was_installed. rewrite slotted_checker, slotted_generation, slotted_inner. apply Hch.
Qed.

Lemma slotted_view n x ev w r hm j y : proc_inv w → pr_home w !! r = Some (n, hm) → own_view j (slotted n x ev w) y =
  if decide (y = r) then match hm with
    | InThread i => if decide (i = j) then VOwn n (pr_live w !! r) (slot_of (slotted n x ev w) n r) else VNone
    | InArc hs => arc_view n (multiplicity (HThread j) hs) (multiplicity (HStop j) hs) (slot_of (slotted n x ev w) n r)
    end else own_view j w y.
Proof.
  intros Hw Hr. case_decide as E; [subst; unfold own_view; simpl; by rewrite Hr|]. apply view_same; [done..|].
  intros m h Hy. destruct (decide (m = n)) as [->|]; [|by apply slotted_slot]. exfalso. apply E. by eapply same_node.
Qed.

Lemma slotted_moves T n x ev w r hm : pr_home w !! r = Some (n, hm) → proc_inv (slotted n x ev w) →
  (∀ j, T j → match hm with InThread i => i ≠ j | InArc hs => HStop j ∉ hs end) → proc_moves T w (slotted n x ev w).
Proof.
  intros Hr Hw' Hj Hw. split_and!; [done| | |].
  - intros m g. unfold was_installed. by rewrite slotted_generation, slotted_inner.
  - intros e He. simpl. apply elem_of_app. by right.
  - intros j y Hne. rewrite (slotted_view _ _ _ _ _ _ _ _ Hw Hr). case_decide as E; [subst|done]. specialize (Hj j Hne). unfold own_view. rewrite Hr.
    destruct hm as [i'|hs]; [by rewrite !decide_False by done|]. unfold arc_view.
    assert (E : multiplicity (HStop j) hs = 0%nat) by (rewrite elem_of_multiplicity in Hj; lia). rewrite E. by rewrite !(decide_True (P := (0 = 0)%nat)).
Qed.

(** The lock of an installed run changes: no thread sees it. *)
Lemma slotted_installed n x ev w R : proc_inv w → ns_inner (node w n) = Some R →
  (∃ h, x = Some h ∧ hl_run h = rn_run R) ∨ x = None ∧ Lost n (ns_generation (node w n)) ∈ ev ++ pr_log w →
  x = None ∨ Lost n (ns_generation (node w n)) ∉ pr_log w → event_ok n x ev w → ∀ T, proc_moves T w (slotted n x ev w).
Proof.
  intros Hw HR Hx Hno Hev T. destruct (pv_inner _ Hw _ _ HR) as (Eg & hs & Hh & Hi).
  eapply slotted_moves; [exact Hh| |].
  - apply slotted_inv; [done| | | |done].
    + intros h ->. destruct Hx as [(? & [= <-] & ->)|[? _]]; [|done]. exists (InArc hs). split; [done|]. intros ? [= <-]. by left.
    + intros R' HR'. rewrite HR in HR'. by injection HR' as <-.
    + destruct Hno as [?|Hn]; [by left|right]. intros g Hg. destruct (pv_lost _ Hw _ _ Hg) as [?|(-> & _)]; done.
  - intros j _ Hj. destruct (pv_arc _ Hw _ _ _ Hh) as [Hok _]. by destruct (hs_out _ Hok _ Hj).
Qed.
Lemma knows_moves i V w w' : (∀ T, proc_moves T w w') → knows i V w → knows i V w'.
Proof. intros Hm. apply knows_stable, Hm. Qed.
End one.
