(* ===== verification/LnOneLock.v ===== *)
(** The steps of [LnStart.v] that touch the device lock or the node's slot:
    what each keeps, and what it gives its thread or takes from it. *)

From stdpp Require Import gmultiset functions.
From S2P Require Import Prelude Json Threads Bitcoin LnPay LnLock LnStart LnOneNode.

Section lock.
Context `{NodeEnv}.

(** What a step of the others leaves true. *)
Lemma installed_stable i w w' n g : proc_inv w → other_proc i w w' → was_installed n g w → was_installed n g w'.
Proof. intros Hw Hm. by apply (Hm Hw). Qed.
Lemma event_stable i w w' e : proc_inv w → other_proc i w w' → e ∈ pr_log w → e ∈ pr_log w'.
Proof. intros Hw Hm. by apply (Hm Hw). Qed.

(** ** The check of the lock *)
Lemma client_error_kept e : is_lost (client_error e) = false.
Proof. by destruct e. Qed.

Lemma checked_run w n g h : proc_inv w → was_installed n g w → ns_generation (node w n) = g → ns_lock (node w n) = Some h →
  ∃ R, ns_inner (node w n) = Some R ∧ hl_run h = rn_run R ∧ Lost n g ∉ pr_log w.
Proof.
  intros Hw [Hg|[_ Hi]] <- Hl; [lia|]. destruct (ns_inner (node w n)) as [R|] eqn:HR; [|done].
  destruct (pv_inner _ Hw _ _ HR) as (_ & hs & Hh & _). exists R. split_and!; [done|by eapply slot_run|].
  intros Hx. destruct (pv_lost _ Hw _ _ Hx) as [?|(_ & _ & E)]; [lia|congruence].
Qed.

Lemma refresh_lock_spec i V w n g : knows i V w → was_installed n g w →
  nrg i (refresh_lock n g) w (λ x w', knows i V w' ∧ match x with
  | Err e => is_lost e = true → Lost n g ∈ pr_log w'
  | Ok _ | Panic => True
  end).
Proof.
  intros Hk Hg. eapply nrg_step; [done|]. intros w1 Hm Hk1. pose proof (installed_stable _ _ _ _ _ (proj1 Hk) Hm Hg) as Hg1.
  clear Hk Hg Hm w. rename w1 into w, Hk1 into Hk, Hg1 into Hg. unfold refresh_lock. cbv zeta.
  assert (Hsame : ∀ w', quiet_proc w w' → own_proc i w w' ∧ knows i V w').
  { intros w' Hq. split; [by apply quiet_proc_moves|by eapply knows_quiet]. }
  pose proof (Hsame w (quiet_proc_refl w)) as Hstay. pose proof (Hsame _ (quiet_proc_tick w)) as Htick.
  destruct (Nat.eqb_spec (ns_generation (node w n)) g) as [Eg|_]; simpl negb; cbv iota; [|cbn [fst snd]; by destruct Hstay].
  destruct (ns_lock (node w n)) as [h|] eqn:El; [|cbn [fst snd]; by destruct Hstay].
  destruct (checked_run w n g h) as (R & HR & Eh & Hn); [apply Hk|done..|].
  unfold vss_client. destruct (new_client (pr_asked w)) as [e|u].
  { cbn [fst snd]. destruct Htick. split; [done|split; [done|by rewrite client_error_kept]]. }
  assert (Hput : ∀ x ev, (∃ h, x = Some h ∧ hl_run h = rn_run R) ∨ x = None ∧ Lost n (ns_generation (node w n)) ∈ ev ++ pr_log w →
    event_ok n x ev (tick_proc w) → own_proc i w (slotted n x ev (tick_proc w)) ∧ knows i V (slotted n x ev (tick_proc w))).
  { intros x ev Hx Hev. destruct Htick as [Ht Hkt]. assert (Hs : ∀ T, proc_moves T (tick_proc w) (slotted n x ev (tick_proc w))).
    { eapply slotted_installed; [apply Hkt|exact HR|exact Hx|right; by rewrite <-Eg in Hn|done]. }
    split; [eapply proc_trans; [exact Ht|apply Hs]|by eapply knows_moves]. }
  destruct (lock_refresh (pr_asked w) (hl_me h) (hl_held h)) as [[?|e|] held].
  - destruct (Hput (Some {| hl_me := hl_me h; hl_held := held; hl_run := hl_run h |}) [Passed n g]) as [Ho Hx]; [left; by eexists|right; left; by exists g|].
    split; [exact Ho|split; [exact Hx|done]].
  - destruct (is_lost e) eqn:Ee.
    + destruct (Hput None [Lost n g]) as [Ho Hx]; [right; split; [done|]; rewrite Eg; by left|right; right; split_and!; [by rewrite <-Eg|by change (ns_inner (node w n) ≠ None); rewrite HR|done]|].
      split; [exact Ho|split; [exact Hx|]]. intros _. by left.
    + destruct (Hput (Some {| hl_me := hl_me h; hl_held := held; hl_run := hl_run h |}) []) as [Ho Hx]; [left; by eexists|by left|].
      split; [exact Ho|split; [exact Hx|]]. cbn [fst]. by rewrite Ee.
  - by destruct Htick.
Qed.

(** ** The lock of a thread *)
Lemma slot_lock w n r held : slot_of w n r = Some held → ∃ h, ns_lock (node w n) = Some h ∧ hl_run h = r ∧ hl_held h = held.
Proof. unfold slot_of. destruct (ns_lock (node w n)) as [h|]; simpl; [|done]. case_decide; [|done]. intros [= <-]. by exists h. Qed.

(** A run's lock is taken or let go of, for a run that is not installed. *)
Lemma slotted_own i V w n r hm x v : knows i V w → pr_home w !! r = Some (n, hm) → ns_inner (node w n) = None →
  (∀ h, x = Some h → hl_run h = r ∧ ∀ hs, hm = InArc hs → holds_lock hs) →
  (∀ j, j ≠ i → match hm with InThread i' => i' = i | InArc hs => HStop j ∉ hs end) →
  v = match hm with
      | InThread j => if decide (j = i) then VOwn n (pr_live w !! r) (hl_held <$> x) else VNone
      | InArc hs => arc_view n (multiplicity (HThread i) hs) (multiplicity (HStop i) hs) (hl_held <$> x)
      end →
  own_proc i w (slotted n x [] (tick_proc w)) ∧ knows i (<[r := v]> V) (slotted n x [] (tick_proc w)).
Proof.
  intros Hk Hr Hi Hx Hj Hv. assert (Hkt : knows i V (tick_proc w)) by (by eapply knows_quiet; [apply quiet_proc_tick|]).
  destruct Hkt as [Hw HV]. assert (Hno : ∀ g, Lost n g ∈ pr_log w → (g < ns_generation (node w n))%nat).
  { intros g Hg. by destruct (pv_lost _ Hw _ _ Hg) as [?|(_ & ? & _)]. }
  assert (Hw' : proc_inv (slotted n x [] (tick_proc w))).
  { apply slotted_inv; [done| | |by right|by left].
    - intros h Eh. destruct (Hx h Eh) as [-> Hh]. by exists hm.
    - intros R HR. change (ns_inner (node w n) = Some R) in HR. congruence. }
  split.
  - eapply proc_trans; [apply quiet_proc_moves, quiet_proc_tick|]. eapply slotted_moves; [exact Hr|done|]. intros j Hne. specialize (Hj j Hne).
    destruct hm; [congruence|done].
  - eapply knows_set; [done|done|]. intros y. rewrite (slotted_view n x [] (tick_proc w) r hm i y Hw Hr). case_decide; [|done].
    assert (Es : slot_of (slotted n x [] (tick_proc w)) n r = hl_held <$> x).
    { unfold slot_of. rewrite slotted_lock, decide_True by done. destruct x as [h|]; [|done]. simpl. destruct (Hx h eq_refl) as [-> _]. by rewrite decide_True. }
    rewrite Es, Hv. by destruct hm.
Qed.

Lemma take_lock_spec i V w n r lm : knows i V w → V r = VOwn n None None →
  nrg i (take_lock n r lm) w (λ x w', match x with
  | Ok held => knows i (<[r := VOwn n None (Some held)]> V) w'
  | Err _ => knows i V w'
  | Panic => True
  end).
Proof.
  intros Hk HV. apply nrg_bind. eapply rg_mono; [|by eapply nrg_ask]. intros ? w1 [[m ->] Hk1].
  apply nrg_lift. destruct m as [me|e|]; [|done..]. apply nrg_bind. eapply rg_mono; [|by eapply nrg_ask]. intros ? w2 [[c ->] Hk2].
  apply nrg_lift. destruct c as [?|e|]; [|done..]. eapply nrg_step; [done|]. intros w3 _ Hk3. clear Hk Hk1 Hk2 w w1 w2. rename w3 into w, Hk3 into Hk.
  set (ans := match lm with LmAcquire => lock_acquire | LmTakeover => lock_takeover end).
  destruct (ans (pr_asked w) me) as [held|e|]; cbn [fst snd].
  - destruct (own_home i w r n None None) as (Hr & Hl & _); [by rewrite <-HV; apply Hk|].
    eapply (slotted_own i V w n r (InThread i) (Some {| hl_me := me; hl_held := held; hl_run := r |})); [done|done|eapply claimed_empty; [apply Hk|done]|by intros ? [= <-]|done|].
    by rewrite decide_True, Hl by done.
  - split; [apply quiet_proc_moves, quiet_proc_tick|by eapply knows_quiet; [apply quiet_proc_tick|]].
  - split; [apply quiet_proc_moves, quiet_proc_tick|done].
Qed.

(** The guard of a worker that gives up. *)
Lemma guard_spec i V w n r l held : knows i V w → V r = VOwn n l (Some held) →
  nrg i (release_lock_if n (Some held)) w (λ x w', x = Ok tt ∧ knows i (<[r := VOwn n l None]> V) w').
Proof.
  intros Hk HV. eapply nrg_step; [done|]. intros w1 _ Hk1. clear Hk w. rename w1 into w, Hk1 into Hk.
  destruct (own_home i w r n l (Some held)) as (Hr & Hl & Hs); [by rewrite <-HV; apply Hk|].
  destruct (slot_lock _ _ _ _ Hs) as (h & El & Eh & Ed). rewrite El, Ed, bool_decide_eq_true_2 by done. cbn [fst snd].
  destruct (slotted_own i V w n r (InThread i) None (VOwn n l None)) as [Ho Hx]; [done|done|eapply claimed_empty; [apply Hk|done]|done|done| |].
  - by rewrite decide_True, Hl by done.
  - split; [exact Ho|split; [done|exact Hx]].
Qed.

(** The release of a [stop], which has the run. *)
Lemma stop_release_spec i V w n r a s sl : knows i V w → V r = arc_view n a (S s) sl →
  nrg i (release_lock_if n None) w (λ x w', x = Ok tt ∧ knows i (<[r := arc_view n a (S s) None]> V) w').
Proof.
  intros Hk HV. eapply nrg_step; [done|]. intros w1 _ Hk1. clear Hk w. rename w1 into w, Hk1 into Hk.
  destruct (arc_view_Some w i r n a (S s) sl) as (hs & Hr & Ea & Es & Hs); [by rewrite <-HV; apply Hk|lia|].
  destruct (pv_arc _ (proj1 Hk) _ _ _ Hr) as [Hok _].
  assert (Hst : HStop i ∈ hs) by (apply elem_of_multiplicity; lia).
  destruct (ns_lock (node w n)) as [h|] eqn:El; cbn [fst snd].
  - destruct (slotted_own i V w n r (InArc hs) None (arc_view n a (S s) None)) as [Ho Hx]; [done|done| |done| |by rewrite Ea, Es|split; [exact Ho|split; [done|exact Hx]]].
    + destruct (ns_inner (node w n)) as [R|] eqn:ER; [|done]. exfalso. destruct (pv_inner _ (proj1 Hk) _ _ ER) as (_ & hs' & Hh & Hi).
      assert (rn_run R = r) as E by (eapply same_node; [apply Hk|done..]). rewrite E, Hr in Hh. injection Hh as <-. by destruct (hs_out _ Hok _ Hst).
    + intros j Hne Hj. apply Hne. by eapply hs_stop.
  - split; [apply proc_refl|]. split; [done|]. eapply knows_ext; [|exact Hk]. intros y. destruct (decide (y = r)) as [->|]; [|by rewrite fn_lookup_insert_ne].
    rewrite fn_lookup_insert, HV. f_equal. rewrite Hs by lia. unfold slot_of. by rewrite El.
Qed.
End lock.
