(* ===== verification/LnOneSlot.v ===== *)
(** The steps of [LnStart.v] that build a node, put it into the slot of its
    [Node], and take it out again. *)

From stdpp Require Import gmultiset functions.
From S2P Require Import Prelude Json Threads Bitcoin LnPay LnLock LnStart LnOneNode.

Section slot.
Context `{NodeEnv}.

(** ** Building *)
Lemma build_spec i V w n r s : knows i V w → V r = VOwn n None s →
  nrg i (build n r) w (λ x w', match x with
  | Ok _ => knows i (<[r := VOwn n (Some n) s]> V) w'
  | Err _ => knows i V w'
  | Panic => False
  end).
Proof.
  intros Hk HV. eapply nrg_step; [done|]. intros w1 _ Hk1. clear Hk w. rename w1 into w, Hk1 into Hk. unfold build.
  destruct (build_node (pr_asked w)) as [e|id]; cbn [fst snd].
  { split; [apply quiet_proc_moves, quiet_proc_tick|by eapply knows_quiet; [apply quiet_proc_tick|]]. }
  destruct Hk as [Hw Hv]. destruct (own_home i w r n None s) as (Hr & _ & Hs); [by rewrite Hv|].
  set (w' := tick_proc (set_live (<[r := n]> (pr_live w)) w)).
  assert (Hw' : proc_inv w').
  { destruct Hw as [Hcl Hho Hfr Hli Har Hin Hsl Hru Hlo Hfi Hch]. split; unfold w'; simpl; try done.
    - intros x m. destruct (decide (x = r)) as [->|]; [rewrite lookup_insert_eq; intros [= <-]; by eexists|]. rewrite lookup_insert_ne by done. apply Hli.
    - intros x m hs Hx. destruct (Har _ _ _ Hx). rewrite lookup_insert_ne; [done|]. intros <-. congruence. }
  split.
  - intros _. split_and!; [done..|]. intros j x Hj. destruct (decide (x = r)) as [->|].
    + unfold own_view, w'. simpl. by rewrite Hr, !decide_False by done.
    + apply view_same; simpl; [done|by rewrite lookup_insert_ne|done].
  - eapply knows_set; [done|done|]. intros x. case_decide as E; [subst|apply view_same; simpl; [done|by rewrite lookup_insert_ne|done]].
    unfold own_view, w'. simpl. rewrite Hr, decide_True, lookup_insert_eq by done. by f_equal.
Qed.

(** ** Generations *)

(** The generation moves on while nothing is installed. *)
Lemma bumped_moves n s w : proc_inv w → ns_inner (node w n) = None → ns_inner s = None →
  ns_generation s = S (ns_generation (node w n)) → ns_lock s = ns_lock (node w n) →
  ns_checker s = ns_checker (node w n) ∨ ns_checker s = None → ∀ T, proc_moves T w (set_node n s w).
Proof.
  intros Hw Hi Ei Eg El Ec T _.
  assert (Hmono : ∀ m g, was_installed m g w → was_installed m g (set_node n s w)).
  { intros m g. unfold was_installed. rewrite !node_set. case_decide as E; [subst; rewrite Eg, Hi; intros [?|[_ ?]]; [left; lia|done]|done]. }
  assert (Hslot : ∀ m r, slot_of (set_node n s w) m r = slot_of w m r).
  { intros m r. unfold slot_of. rewrite node_set. case_decide as E; [by subst; rewrite El|done]. }
  split_and!; [|exact Hmono|done|intros j r _; by apply view_same].
  destruct Hw as [Hcl Hho Hfr Hli Har Hin Hsl Hru Hlo Hfi Hch]. split; try done; intros m *; rewrite ?Hslot, !node_set.
  - case_decide as E; [by rewrite Ei|apply Hin].
  - case_decide as E; [subst; rewrite El; apply Hsl|apply Hsl].
  - case_decide as E; [by rewrite Ei|apply Hru].
  - intros Hl%Hlo. case_decide as E; [subst; rewrite Eg; destruct Hl as [?|(_ & ? & _)]; [left; lia|done]|done].
  - case_decide as E; [subst; destruct Ec as [->| ->]; [|done]|]; intros Hx%Hch; by apply Hmono.
Qed.

Lemma start_timeout_spec i V w n k : knows i V w → nrg i (start_timeout n k) w (λ _ w', knows i V w').
Proof.
  intros Hk. eapply nrg_step; [done|]. intros w1 _ Hk1. unfold start_timeout. cbv zeta.
  destruct (ns_inner (node w1 n)) as [R|] eqn:E; cbn [fst snd]; [split; [apply proc_refl|done]|].
  assert (Hb : ∀ T, proc_moves T w1 (set_node n {| ns_inner := None; ns_generation := S (ns_generation (node w1 n)); ns_lock := ns_lock (node w1 n);
    ns_lock_lost := ns_lock_lost (node w1 n); ns_checker := ns_checker (node w1 n) |} w1)) by (apply bumped_moves; simpl; auto; apply Hk1).
  split; [apply Hb|by eapply knows_moves].
Qed.

(** ** Installing *)
Definition put_in (n r g : nat) (mode : StartMode) (w : ProcWorld) : ProcWorld :=
  set_claims (claims_put CRunning r (claim_keys n) (pr_claims w))
    (set_home (<[r := (n, InArc {[+ HInner +]})]> (pr_home w))
      (set_node n (with_inner (Some {| rn_run := r; rn_mode := mode; rn_generation := g |}) (node w n)) w)).

Lemma put_in_node n r g mode w m : node (put_in n r g mode w) m =
  if decide (m = n) then with_inner (Some {| rn_run := r; rn_mode := mode; rn_generation := g |}) (node w n) else node w m.
Proof. unfold put_in. apply (node_set n _ w m). Qed.

Lemma put_in_slot n r g mode w m x : slot_of (put_in n r g mode w) m x = slot_of w m x.
Proof. unfold slot_of. rewrite put_in_node. by case_decide as E; [subst|]. Qed.

Lemma put_in_installed n r g mode w m g' : ns_inner (node w n) = None → was_installed m g' w → was_installed m g' (put_in n r g mode w).
Proof.
  intros Hi. unfold was_installed. rewrite put_in_node. case_decide as E; [subst; simpl|done]. rewrite Hi. intros [?|[_ ?]]; [by left|done].
Qed.

Lemma inner_holders : holders_ok {[+ HInner +]}.
Proof.
  split; [multiset_solver|by rewrite multiplicity_singleton|..]; intros i; [|intros j]; rewrite !gmultiset_elem_of_singleton; done.
Qed.

(** The claims of a run are put anew; its home becomes another. *)
Lemma reclaimed_home st r n h h' w k s x : proc_inv w → pr_home w !! r = Some (n, h) →
  claims_put st r (claim_keys n) (pr_claims w) !! k = Some (s, x) →
  ∃ m y, <[r := (n, h')]> (pr_home w) !! x = Some (m, y) ∧ k ∈ claim_keys m.
Proof.
  intros Hw Hr. rewrite lookup_claims_put. case_decide as Ek; [intros [= <- <-]; exists n, h'; by rewrite lookup_insert_eq|].
  intros (m & y & Hx & Hm)%(pv_claims _ Hw). exists m. destruct (decide (x = r)) as [->|]; [|exists y; by rewrite lookup_insert_ne].
  exists h'. rewrite lookup_insert_eq. split; [congruence|done].
Qed.
Lemma rehomed_claims st r n h h' w x m y k : proc_inv w → pr_home w !! r = Some (n, h) →
  <[r := (n, h')]> (pr_home w) !! x = Some (m, y) → k ∈ claim_keys m →
  ∃ s, claims_put st r (claim_keys n) (pr_claims w) !! k = Some (s, x).
Proof.
  intros Hw Hr Hx Hk. rewrite lookup_claims_put. destruct (decide (x = r)) as [->|].
  - rewrite lookup_insert_eq in Hx. injection Hx as <- <-. rewrite decide_True by done. by eexists.
  - rewrite lookup_insert_ne in Hx by done. case_decide as Ek; [|by eapply pv_home]. exfalso. by assert (x = r) by (by eapply same_run).
Qed.

Lemma put_in_inv n r g mode w i held : proc_inv w → pr_home w !! r = Some (n, InThread i) → pr_live w !! r = Some n →
  slot_of w n r = Some held → g = ns_generation (node w n) → proc_inv (put_in n r g mode w).
Proof.
  intros Hw Hr Hl Hs ->. pose proof (claimed_empty _ _ _ _ Hw Hr) as Hi. pose proof (reclaimed_home CRunning r n (InThread i) (InArc {[+ HInner +]}) w) as Hrc.
  pose proof (rehomed_claims CRunning r n (InThread i) (InArc {[+ HInner +]}) w) as Hrh. pose proof (same_node w) as Hone. pose proof (slot_run w) as Hrun.
  pose proof Hw as [Hcl Hho Hfr Hli Har Hin Hsl Hru Hlo Hfi Hch].
  split; try done.
  - intros k st x Hx. by eapply Hrc.
  - intros x m h k Hx Hk. by eapply Hrh.
  - intros x y Hx. simpl in Hx. destruct (decide (x = r)) as [->|]; [by eapply Hfr|]. rewrite lookup_insert_ne in Hx by done. by eapply Hfr.
  - intros x m Hx. simpl in *. destruct (decide (x = r)) as [->|]; [|rewrite lookup_insert_ne by done; by apply Hli].
    rewrite lookup_insert_eq. replace m with n by congruence. by eexists.
  - intros x m hs Hx. simpl in *. destruct (decide (x = r)) as [->|]; [|rewrite lookup_insert_ne in Hx by done; by apply Har].
    rewrite lookup_insert_eq in Hx. injection Hx as <- <-. split; [apply inner_holders|done].
  - intros m R. rewrite put_in_node. simpl pr_home. case_decide as E.
    + subst. simpl. intros [= <-]. split; [done|]. simpl. eexists. rewrite lookup_insert_eq. split; [done|multiset_solver].
    + intros HR. destruct (Hin m R HR) as (Hg & hs & Hh & Hx). split; [done|]. exists hs. rewrite lookup_insert_ne; [done|].
      intros E'. rewrite <-E', Hr in Hh. done.
  - intros m h. rewrite put_in_node. simpl pr_home. intros Hx. assert (Hlk : ns_lock (node w m) = Some h) by (case_decide; [by subst|done]).
    destruct (Hsl m h Hlk) as (hm & Hh & Hm). destruct (decide (hl_run h = r)) as [E|].
    + rewrite E, Hr in Hh. injection Hh as <- <-. rewrite E, lookup_insert_eq. eexists. split; [done|]. intros ? [= <-]. left. multiset_solver.
    + exists hm. by rewrite lookup_insert_ne.
  - intros m R. rewrite put_in_slot, put_in_node. case_decide as E; [|apply Hru]. subst. simpl. intros [= <-]. left. simpl. by rewrite Hs.
  - intros m g Hg. rewrite put_in_node. case_decide as E; [|by apply Hlo]. subst. simpl. left. by destruct (Hlo n g Hg) as [?|(_ & ? & _)].
  - intros m x g Hx. apply put_in_installed; [done|]. apply (Hch m x g). rewrite put_in_node in Hx. by case_decide; [subst|].
Qed.

Lemma put_in_view n r g mode w i j x : pr_home w !! r = Some (n, InThread i) →
  own_view j (put_in n r g mode w) x = if decide (x = r) then VNone else own_view j w x.
Proof.
  intros Hr. case_decide as E.
  - subst. unfold own_view. simpl. rewrite lookup_insert_eq, !multiplicity_singleton_ne by done. done.
  - apply view_same; [simpl; by rewrite lookup_insert_ne|done|]. intros. apply put_in_slot.
Qed.

Lemma install_spec i V w n r g mode held : knows i V w → V r = VOwn n (Some n) (Some held) →
  nrg i (install n r g mode) w (λ x w', match x with
  | Ok None => knows i (<[r := VNone]> V) w' ∧ was_installed n g w'
  | Ok (Some _) => knows i V w'
  | _ => False
  end).
Proof.
  intros Hk HV. eapply nrg_step; [done|]. intros w1 _ Hk1. clear Hk w. rename w1 into w, Hk1 into Hk. unfold install. cbv zeta.
  destruct (Nat.eqb_spec (ns_generation (node w n)) g) as [<-|_]; simpl negb; cbv iota; [|split; [apply proc_refl|done]].
  destruct (ns_inner (node w n)) as [R|] eqn:Hi; [split; [apply proc_refl|done]|]. cbn [fst snd].
  destruct Hk as [Hw Hv]. destruct (own_home i w r n (Some n) (Some held)) as (Hr & Hl & Hs); [by rewrite Hv|].
  change (set_claims _ _) with (put_in n r (ns_generation (node w n)) mode w).
  assert (Hw' : proc_inv (put_in n r (ns_generation (node w n)) mode w)) by (by eapply put_in_inv).
  split; [|split].
  - intros _. split_and!; [done|intros; by apply put_in_installed|done|]. intros j x Hj. rewrite (put_in_view _ _ _ _ _ _ _ _ Hr).
    case_decide as E; [subst|done]. unfold own_view. by rewrite Hr, decide_False by done.
  - eapply knows_set; [done|done|]. intros x. by apply (put_in_view _ _ _ _ _ i).
  - right. by rewrite put_in_node, decide_True.
Qed.

(** ** Taking out *)
Definition handed (b : Holder) (hs : gmultiset Holder) : gmultiset Holder := hs ∖ {[+ HInner +]} ⊎ {[+ b +]}.

Lemma handed_ok b hs : holders_ok hs → HInner ∈ hs → b ≠ HInner → holders_ok (handed b hs) ∧ HInner ∉ handed b hs.
Proof.
  intros [Hs Hi Ho Ht] Hin Hb.
  assert (Hn : HInner ∉ handed b hs).
  { unfold handed. rewrite gmultiset_elem_of_disj_union, gmultiset_elem_of_singleton. intros [Hx|?]; [|done].
    rewrite elem_of_multiplicity, multiplicity_difference, multiplicity_singleton, decide_True in Hx by done. lia. }
  assert (Hst : ∀ i, HStop i ∈ handed b hs → b = HStop i).
  { intros i. unfold handed. rewrite gmultiset_elem_of_disj_union, gmultiset_elem_of_singleton. intros [Hx| ->]; [|done].
    destruct (Ho i); [multiset_solver|done]. }
  split; [|done]. split; [unfold handed; multiset_solver| |done|].
  - rewrite elem_of_multiplicity in Hn. lia.
  - intros i j Hx%Hst Hy%Hst. congruence.
Qed.

Definition taken_out (n : nat) (R : Running) (hs : gmultiset Holder) (b : Holder) (lost : bool) (w : ProcWorld) : ProcWorld :=
  set_home (<[rn_run R := (n, InArc (handed b hs))]> (pr_home w))
    (set_claims (claims_put CStopping (rn_run R) (claim_keys n) (pr_claims w))
      (set_node n (with_lost (lost || ns_lock_lost (node w n)) (uninstalled (node w n))) w)).

Lemma uninstall_out n R hs b lost w : ns_inner (node w n) = Some R → pr_home w !! rn_run R = Some (n, InArc hs) →
  uninstall n b lost w = taken_out n R hs b lost w.
Proof. intros Hi Hh. unfold uninstall, move_holder. rewrite Hi. simpl. by rewrite Hh. Qed.

Lemma taken_out_node n R hs b lost w m : node (taken_out n R hs b lost w) m =
  if decide (m = n) then with_lost (lost || ns_lock_lost (node w n)) (uninstalled (node w n)) else node w m.
Proof. unfold taken_out. apply (node_set n _ w m). Qed.

Lemma taken_out_slot n R hs b lost w m x : slot_of (taken_out n R hs b lost w) m x = slot_of w m x.
Proof. unfold slot_of. rewrite taken_out_node. by case_decide as E; [subst|]. Qed.

Lemma taken_out_installed n R hs b lost w m g : was_installed m g w → was_installed m g (taken_out n R hs b lost w).
Proof.
  unfold was_installed. rewrite taken_out_node. case_decide as E; [subst; simpl|done]. intros [?|[-> _]]; left; lia.
Qed.

Lemma taken_out_inv n R hs b lost w : proc_inv w → ns_inner (node w n) = Some R → pr_home w !! rn_run R = Some (n, InArc hs) →
  b ≠ HInner → (∃ i, b = HStop i) ∨ ns_lock (node w n) = None → proc_inv (taken_out n R hs b lost w).
Proof.
  intros Hw Hi Hr Hb Hlk. pose proof (reclaimed_home CStopping (rn_run R) n (InArc hs) (InArc (handed b hs)) w) as Hrc.
  pose proof (rehomed_claims CStopping (rn_run R) n (InArc hs) (InArc (handed b hs)) w) as Hrh. pose proof (same_node w) as Hone.
  pose proof Hw as [Hcl Hho Hfr Hli Har Hin Hsl Hru Hlo Hfi Hch].
  destruct (Hin n R Hi) as (_ & hs0 & Hh0 & Hinn). assert (hs0 = hs) as -> by congruence. clear Hh0.
  destruct (Har _ _ _ Hr) as [Hok Hlive]. destruct (handed_ok b hs Hok Hinn Hb) as [Hok' Hno].
  split; try done.
  - intros k st x Hx. by eapply Hrc.
  - intros x m h k Hx Hk. by eapply Hrh.
  - intros x y Hx. simpl in Hx. destruct (decide (x = rn_run R)) as [->|]; [by eapply Hfr|]. rewrite lookup_insert_ne in Hx by done. by eapply Hfr.
  - intros x m Hx. simpl in *. destruct (decide (x = rn_run R)) as [->|]; [|rewrite lookup_insert_ne by done; by apply Hli].
    rewrite lookup_insert_eq. replace m with n by congruence. by eexists.
  - intros x m hs1 Hx. simpl in *. destruct (decide (x = rn_run R)) as [->|]; [|rewrite lookup_insert_ne in Hx by done; by apply Har].
    rewrite lookup_insert_eq in Hx. by injection Hx as <- <-.
  - intros m R'. rewrite taken_out_node. simpl pr_home. case_decide as E; [done|].
    intros HR. destruct (Hin m R' HR) as (Hg & hs1 & Hh & Hx). split; [done|]. exists hs1. rewrite lookup_insert_ne; [done|].
    intros E'. rewrite <-E', Hr in Hh. congruence.
  - intros m h. rewrite taken_out_node. simpl pr_home. intros Hx. assert (Hl : ns_lock (node w m) = Some h) by (case_decide; [by subst|done]).
    destruct (Hsl m h Hl) as (hm & Hh & Hm). destruct (decide (hl_run h = rn_run R)) as [E|].
    + rewrite E, Hr in Hh. injection Hh as <- <-. rewrite E, lookup_insert_eq. eexists. split; [done|]. intros ? [= <-].
      destruct Hlk as [[i ->]|?]; [|congruence]. right. exists i. unfold handed. multiset_solver.
    + exists hm. by rewrite lookup_insert_ne.
  - intros m R'. rewrite taken_out_slot, taken_out_node. case_decide as E; [done|apply Hru].
  - intros m g Hg. rewrite taken_out_node. case_decide as E; [|by apply Hlo]. subst. simpl. left. destruct (Hlo n g Hg) as [?|(-> & _)]; lia.
  - intros m x g. rewrite taken_out_node. case_decide as E; [done|]. intros Hx. by apply taken_out_installed, (Hch m x g).
Qed.

(** What the run's holders see: only the one that has it instead of the slot
    sees a change. *)
Lemma taken_out_view n R hs b lost w j x : pr_home w !! rn_run R = Some (n, InArc hs) → own_view j (taken_out n R hs b lost w) x =
  if decide (x = rn_run R) then arc_view n (multiplicity (HThread j) (handed b hs)) (multiplicity (HStop j) (handed b hs)) (slot_of w n (rn_run R))
  else own_view j w x.
Proof.
  intros Hr. case_decide as E.
  - subst. unfold own_view. simpl pr_home. by rewrite lookup_insert_eq, taken_out_slot.
  - apply view_same; [simpl; by rewrite lookup_insert_ne|done|]. intros. apply taken_out_slot.
Qed.

Lemma taken_out_spec i V w n R b lost : knows i V w → ns_inner (node w n) = Some R → b ≠ HInner →
  (∀ j, j ≠ i → b ≠ HThread j ∧ b ≠ HStop j) → (∃ k, b = HStop k) ∨ ns_lock (node w n) = None →
  own_proc i w (uninstall n b lost w) ∧ ∃ a sl, V (rn_run R) = arc_view n a 0 sl ∧
    knows i (<[rn_run R := arc_view n (a + multiplicity (HThread i) {[+ b +]})%nat (multiplicity (HStop i) {[+ b +]}) sl]> V) (uninstall n b lost w).
Proof.
  intros [Hw Hv] Hi Hb Hj Hlk. destruct (pv_inner _ Hw _ _ Hi) as (_ & hs & Hr & Hin). destruct (pv_arc _ Hw _ _ _ Hr) as [Hok _].
  rewrite (uninstall_out n R hs) by done. assert (Hw' : proc_inv (taken_out n R hs b lost w)) by (by apply taken_out_inv).
  assert (Hmul : ∀ h, h ≠ HInner → multiplicity h (handed b hs) = (multiplicity h hs + multiplicity h {[+ b +]})%nat).
  { intros h Hh. unfold handed. rewrite multiplicity_disj_union, multiplicity_difference, (multiplicity_singleton_ne h HInner) by done. lia. }
  assert (Hz : multiplicity (HStop i) hs = 0%nat).
  { destruct (multiplicity (HStop i) hs) eqn:E; [done|]. destruct (hs_out _ Hok i); [|done]. apply elem_of_multiplicity. lia. }
  split.
  - intros _. split_and!; [done|intros; by apply taken_out_installed|done|]. intros j x Hne. rewrite (taken_out_view _ _ _ _ _ _ _ _ Hr).
    case_decide as E; [subst|done]. destruct (Hj j Hne) as [H1 H2]. rewrite (view_arc _ _ _ _ _ Hr), !Hmul, !multiplicity_singleton_ne by done.
    by rewrite !Nat.add_0_r.
  - eexists _, _. split; [rewrite <-Hv, (view_arc _ _ _ _ _ Hr), Hz; done|]. eapply knows_set; [done|done|]. intros x.
    rewrite (taken_out_view _ _ _ _ _ _ _ _ Hr). case_decide; [|done]. by rewrite !Hmul, Hz by done.
Qed.

(** Nothing is installed: the generation moves on. *)
Lemma uninstall_none n b lost w : ns_inner (node w n) = None → proc_inv w → ∀ T, proc_moves T w (uninstall n b lost w).
Proof. intros Hi Hw. unfold uninstall. rewrite Hi. apply bumped_moves; auto. Qed.
End slot.
