(* ===== verification/LnOneRun.v ===== *)
(** The calls and threads of [LnStart.v], each on what its thread knows: none
    leaves more of a run behind than it took. *)

From stdpp Require Import gmultiset functions.
From S2P Require Import Prelude Json Threads Bitcoin LnPay LnLock LnStart LnOneNode LnOneLock LnOneSlot.

Section run.
Context `{NodeEnv}.

Lemma arc_view_zero n a sl : arc_view n a 0 sl = arc_view n a 0 None.
Proof. unfold arc_view. by rewrite !(decide_True (P := (0 = 0)%nat)). Qed.

Lemma knows_back i V r v w : V r = v → knows i (<[r := v]> V) w → knows i V w.
Proof.
  intros HV. apply knows_ext. intros x. destruct (decide (x = r)) as [->|]; [by rewrite fn_lookup_insert|by rewrite fn_lookup_insert_ne].
Qed.
Lemma knows_again i V r v v' w : knows i (<[r := v']> (<[r := v]> V)) w → knows i (<[r := v']> V) w.
Proof.
  apply knows_ext. intros x. destruct (decide (x = r)) as [->|]; [by rewrite !fn_lookup_insert|by rewrite !fn_lookup_insert_ne].
Qed.

(** The end of a part that gives back what it took. *)
Definition ends (i : nat) (V : nat → View) {A} (x : result LnError A) (w : ProcWorld) : Prop := x ≠ Panic → knows i V w.

Lemma nrg_ends {A B} i V (m : Proc A) (f : A → Proc B) w :
  nrg i m w (ends i V) → (∀ a w, knows i V w → nrg i (f a) w (ends i V)) → nrg i (m ≫= f) w (ends i V).
Proof.
  intros Hm Hf. apply nrg_bind. eapply rg_mono; [|exact Hm]. intros [a|e|] w' Hx; [|by intros _; apply Hx|done].
  by apply Hf, Hx.
Qed.

(** Parts that only look, and steps on what no claim rests on. *)
Definition quiet_part {A} (m : Proc A) : Prop := always quiet_proc m (λ _, True).

Lemma quiet_ends {A} i V (m : Proc A) w : quiet_part m → knows i V w → nrg i m w (λ _ w', knows i V w').
Proof.
  intros Hm Hk. eapply rg_mono with (Q := λ _ w', True ∧ knows i V w'); [by intros ??[_ ?]|]. eapply rg_weaken; [intros w1 w2; apply quiet_proc_moves|].
  eapply (always_keeps (other_proc i) quiet_proc m w (knows i V)); [|by intros; eapply knows_quiet|exact Hm|done].
  intros w1 w2. apply knows_stable.
Qed.
Lemma nrg_then {A B} i V (m : Proc A) (f : A → Proc B) w Q : quiet_part m → knows i V w →
  (∀ x w, knows i V w → match x with Ok _ => True | _ => Q x w end) → (∀ a w, knows i V w → nrg i (f a) w Q) → nrg i (m ≫= f) w Q.
Proof.
  intros Hm Hk Hx Hf. apply nrg_bind. eapply rg_mono; [|by eapply quiet_ends]. intros [a|e|] w' Hk'; [by apply Hf| |].
  - by apply (Hx (Err e)).
  - by apply (Hx Panic).
Qed.
Lemma nrg_then_ends {A B} i V (m : Proc A) (f : A → Proc B) w : quiet_part m → knows i V w →
  (∀ a w, knows i V w → nrg i (f a) w (ends i V)) → nrg i (m ≫= f) w (ends i V).
Proof. intros Hm Hk Hf. eapply nrg_then; [done|done| |done]. intros [|?|] w' Hk'; [done|by intros _|by intros ?]. Qed.
Lemma still_bind {A B} (m : Proc A) (f : A → Proc B) : quiet_part m → (∀ a, quiet_part (f a)) → quiet_part (m ≫= f).
Proof. intros Hm Hf. apply always_bind. eapply always_mono; [|exact Hm]. intros [a|e|] _; [apply Hf|done..]. Qed.
Lemma still_ask {A} (f : nat → A) : quiet_part (proc_ask f).
Proof. apply always_atomically. intros w. split; [apply quiet_proc_tick|done]. Qed.
Lemma still_look {A} (f : ProcWorld → result LnError A) : quiet_part (atomically (λ w, (f w, w))).
Proof. apply always_atomically. intros w. split; [apply quiet_proc_refl|done]. Qed.
Lemma still_lift {A} (r : result LnError A) : quiet_part (proc_lift r).
Proof. done. Qed.
Lemma still_ret {A} (a : A) : quiet_part (mret a).
Proof. done. Qed.
Lemma still_stage i s : quiet_part (set_stage i s).
Proof. apply always_atomically. intros w. split; [by split; auto|done]. Qed.
Lemma still_checkpoint n g : quiet_part (checkpoint n g).
Proof.
  apply still_bind; [apply still_look|]. intros g'. destruct (negb _); [apply still_ret|].
  apply still_bind; [apply still_look|]. intros b. apply still_ret.
Qed.
Lemma still_probe : quiet_part probe_lsp.
Proof. apply still_bind; [apply still_ask|]. intros b. apply still_lift. Qed.

Lemma quiet_node n s w : ns_inner s = ns_inner (node w n) → ns_generation s = ns_generation (node w n) → ns_lock s = ns_lock (node w n) →
  (∀ r g, ns_checker s = Some (r, g) → ns_checker (node w n) = Some (r, g) ∨ was_installed n g w) → quiet_proc w (set_node n s w).
Proof.
  intros Ei Eg El Ec. split; try done; intros m *; rewrite node_set; case_decide as E; subst; auto.
Qed.

Lemma still_spawn n r g : quiet_part (spawn_lock_checker n r g).
Proof.
  apply still_bind.
  - apply always_atomically. intros w. split; [|done]. cbv zeta.
    destruct (Nat.eqb_spec (ns_generation (node w n)) g) as [E|]; simpl; [|apply quiet_proc_refl]. case_bool_decide; [apply quiet_proc_refl|].
    apply quiet_node; [done..|]. intros r' g' [= <- <-]. right. by right.
  - intros placed. destruct (negb placed); [apply still_ret|]. apply still_bind; [apply still_ask|]. intros []; [apply still_ret|].
    apply always_atomically. intros w. split; [|done]. by apply quiet_node.
Qed.

(** ** Losing the lock *)
Lemma lose_lock_spec i V w b n g : knows i V w → Lost n g ∈ pr_log w → b = HOrphan ∨ b = HThread i →
  nrg i (lose_lock b n g) w (λ x w', match x with
  | Ok (Some r) => ∃ a sl, V r = arc_view n a 0 sl ∧ knows i (<[r := arc_view n (a + multiplicity (HThread i) {[+ b +]})%nat 0 sl]> V) w'
  | Ok None => knows i V w'
  | _ => False
  end).
Proof.
  intros Hk Hl Hb. eapply nrg_step; [done|]. intros w1 Hm Hk1. pose proof (event_stable _ _ _ _ (proj1 Hk) Hm Hl) as Hl1.
  clear Hk Hl Hm w. unfold lose_lock. cbv zeta. destruct (ns_inner (node w1 n)) as [R|] eqn:HR; [|split; [apply proc_refl|done]].
  destruct (Nat.eqb_spec (ns_generation (node w1 n)) g) as [E|]; [|split; [apply proc_refl|done]]. cbn [fst snd].
  destruct (taken_out_spec i V w1 n R b true) as (Ho & a & sl & HV & Hx); [done|done|by destruct Hb; subst|destruct Hb; subst; intros j Hj; split; congruence| |].
  - right. destruct (pv_lost _ (proj1 Hk1) _ _ Hl1) as [?|(_ & _ & ?)]; [lia|done].
  - split; [exact Ho|]. exists a, sl. split; [done|]. by rewrite (multiplicity_singleton_ne (HStop i) b) in Hx by (by destruct Hb; subst).
Qed.

Lemma dropped_ends i V w r n a s sl h : knows i (<[r := arc_view n (if decide (h = HThread i) then S a else a) (if decide (h = HThread i) then s else S s) sl]> V) w →
  V r = arc_view n a s sl → h = HThread i ∨ h = HStop i ∧ sl = None → nrg i (drop_arc h i r) w (ends i V).
Proof.
  intros Hk HV Hh. eapply rg_mono; [|eapply (drop_arc_spec i _ w r n a s sl h); [exact Hk|]].
  - intros x w' [_ Hx] _. apply knows_again in Hx. by eapply knows_back.
  - rewrite fn_lookup_insert. destruct Hh as [->|[-> ->]]; [left|right]; by case_decide.
Qed.

(** A hold of the thread that is let go again. *)
Lemma held_ends i V w r n a s sl : knows i (<[r := arc_view n (S a) s sl]> V) w → V r = arc_view n a s sl → nrg i (drop_arc (HThread i) i r) w (ends i V).
Proof. intros Hk HV. eapply (dropped_ends i V w r n a s sl); [by rewrite !(decide_True (P := HThread i = HThread i))|done|by left]. Qed.

(** The run that a thread is to stop itself. *)
Lemma lost_ends i V w r n a sl : knows i (<[r := arc_view n (a + multiplicity (HThread i) {[+ HThread i +]})%nat 0 sl]> V) w →
  V r = arc_view n a 0 sl → nrg i (drop_arc (HThread i) i r) w (ends i V).
Proof. rewrite multiplicity_singleton, decide_True, Nat.add_1_r by done. apply held_ends. Qed.

Lemma check_lock_at_ends i V w n g : knows i V w → was_installed n g w → nrg i (check_lock_at i n g) w (ends i V).
Proof.
  intros Hk Hg. apply nrg_bind, nrg_attempt. eapply rg_mono; [|by eapply refresh_lock_spec]. intros x w1 [Hk1 Hx].
  simpl in Hx. destruct x as [?|e|]; [by intros _| |by intros ?]. destruct (is_lost e) eqn:Ee; [|by intros _]. specialize (Hx eq_refl).
  apply nrg_bind. eapply rg_mono; [|eapply (nrg_step i (λ w, (Ok (thread_starts (asked w)), tick w)) w1 V
    (λ x w', (∃ b, x = Ok b) ∧ knows i V w' ∧ Lost n g ∈ pr_log w')); [done|]].
  2:{ intros w2 Hm Hk2. split; [apply quiet_proc_moves, quiet_proc_tick|]. split; [by eexists|].
      split; [by eapply knows_quiet; [apply quiet_proc_tick|]|]. by eapply (event_stable i w1 w2); [apply Hk1|..]. }
  intros ? w2 ([b ->] & Hk2 & Hl). apply nrg_bind. eapply rg_mono; [|eapply lose_lock_spec; [done|done|by destruct b; [left|right]]].
  intros [[r|]|?|] w3 Hr; [|by intros _|done..]. destruct Hr as (a & sl & HV & Hk3). apply nrg_ends; [|by intros ??? _].
  destruct b.
  - intros _. rewrite multiplicity_singleton_ne, Nat.add_0_r in Hk3 by done. by eapply knows_back.
  - by eapply lost_ends.
Qed.

Lemma nrg_installed {A} i (m : Proc A) w n g (Q : result LnError A → ProcWorld → Prop) : proc_inv w → was_installed n g w →
  nrg i m w Q → nrg i m w (λ x w', Q x w' ∧ was_installed n g w').
Proof.
  intros Hw Hg Hm. eapply rg_mono; [|eapply (rg_alongside _ _ m w (λ w, proc_inv w ∧ was_installed n g w)); [..|exact Hm|done]].
  - by intros x w' (? & _ & ?).
  - intros w1 w2 Hs [H1 Hi]. by destruct (Hs H1) as (? & Hi' & _); auto.
  - intros w1 w2 Hs [H1 Hi]. by destruct (Hs H1) as (? & Hi' & _); auto.
Qed.

Lemma check_device_lock_ends i V w n : knows i V w → nrg i (check_device_lock i n) w (ends i V).
Proof.
  intros Hk. apply nrg_bind. eapply rg_mono; [|by eapply clone_spec]. intros [[R|]|?|] w1 Hx; [|by intros _|done..].
  destruct Hx as (Hg & a & s & sl & HV & Hk1). apply nrg_bind.
  eapply rg_mono; [|eapply nrg_installed; [apply Hk1|exact Hg|by eapply held_ends]].
  intros [?|?|] w2 [Hx Hg2]; [|by intros _; apply Hx|by intros ?]. by apply check_lock_at_ends; [apply Hx|].
Qed.

(** ** The background check *)
Lemma check_rounds_ends i n g mine : ∀ rounds V w, knows i V w → was_installed n g w → nrg i (check_rounds i n g rounds mine) w (ends i V).
Proof.
  induction rounds as [|rounds IH]; intros V w Hk Hg; [by intros _|]. cbn [check_rounds]. apply nrg_bind.
  eapply rg_mono; [|eapply nrg_installed; [apply Hk|exact Hg|eapply quiet_ends; [apply (still_look (λ w, Ok (mine w)))|done]]].
  intros [go|?|] w1 [Hk1 Hg1]; [|by intros _|by intros ?]. destruct go; simpl negb; cbv iota; [|by intros _].
  apply nrg_bind, nrg_attempt. eapply rg_mono; [|eapply nrg_installed; [apply Hk1|exact Hg1|by eapply refresh_lock_spec]].
  intros x w2 [[Hk2 Hx] Hg2].
  assert (Hagain : nrg i (check_rounds i n g rounds mine) w2 (ends i V)) by (by apply IH).
  assert (Hstop : ∀ e, (is_lost e = true → Lost n g ∈ pr_log w2) → nrg i (if is_lost e then
      lost ← lose_lock (HThread i) n g;
      match lost with Some r => _ ← proc_ask id; drop_arc (HThread i) i r | None => mret tt end
    else mret tt) w2 (ends i V)).
  { intros e He. destruct (is_lost e); [|by intros _]. specialize (He eq_refl). apply nrg_bind.
    eapply rg_mono; [|eapply lose_lock_spec; [done|done|by right]]. intros [[r|]|?|] w3 Hr; [|by intros _|done..].
    destruct Hr as (a & sl & HV & Hk3). apply nrg_bind. eapply rg_mono; [|by eapply nrg_ask]. intros ? w4 [[? ->] Hk4]. by eapply lost_ends. }
  destruct x as [?|e|]; [exact Hagain| |by intros ?]. destruct e; try exact Hagain; by apply Hstop.
Qed.

Lemma lock_checker_ends i V w n r rounds : knows i V w → nrg i (lock_checker i n r rounds) w (ends i V).
Proof.
  intros Hk. apply nrg_bind. eapply rg_mono; [|eapply (nrg_step i (λ w, (Ok (ns_checker (node w n)), w)) w V
    (λ x w', knows i V w' ∧ ∀ r g, x = Ok (Some (r, g)) → was_installed n g w')); [done|]].
  2:{ intros w1 _ Hk1. split; [apply proc_refl|split; [done|]]. intros r' g [= E]. by eapply (pv_checker w1); [apply Hk1|]. }
  intros [[[r' g]|]|?|] w1 [Hk1 Hg]; [|by intros _|by intros _|by intros ?]. destruct (Nat.eqb r' r); [|by intros _].
  apply check_rounds_ends; [done|by eapply Hg].
Qed.

(** ** The thread that stops a lost run *)
Lemma adopted_ok hs i : holders_ok hs → holders_ok (hs ∖ {[+ HOrphan +]} ⊎ {[+ HThread i +]}).
Proof.
  intros [Hs Hi Ho Ht].
  assert (Hold : ∀ h, (∀ j, h ≠ HThread j) → h ∈ hs ∖ {[+ HOrphan +]} ⊎ {[+ HThread i +]} → h ∈ hs).
  { intros h Hh. rewrite gmultiset_elem_of_disj_union, gmultiset_elem_of_singleton. intros [Hx|Hx]; [multiset_solver|by destruct (Hh i)]. }
  split.
  - intros E. assert (Hx : HThread i ∈ (∅ : gmultiset Holder)) by (rewrite <-E, gmultiset_elem_of_disj_union, gmultiset_elem_of_singleton; by right).
    by apply gmultiset_not_elem_of_empty in Hx.
  - rewrite multiplicity_disj_union, multiplicity_difference, !multiplicity_singleton_ne by done. lia.
  - intros j Hx Hy. apply Hold in Hx, Hy; [|done..]. by eapply Ho.
  - intros j k Hx Hy. apply Hold in Hx, Hy; [|done..]. by apply Ht.
Qed.

Lemma adopt_spec i V w r n hs : knows i V w → pr_home w !! r = Some (n, InArc hs) → HOrphan ∈ hs →
  own_proc i w (rehomed r n (hs ∖ {[+ HOrphan +]} ⊎ {[+ HThread i +]}) w) ∧
  ∃ a s sl, V r = arc_view n a s sl ∧ knows i (<[r := arc_view n (S a) s sl]> V) (rehomed r n (hs ∖ {[+ HOrphan +]} ⊎ {[+ HThread i +]}) w).
Proof.
  intros [Hw HV] Hr Hor. destruct (pv_arc _ Hw _ _ _ Hr) as [Hok _]. pose proof (adopted_ok hs i Hok) as Hok'.
  assert (Hkeep : ∀ h, h ≠ HOrphan → h ∈ hs → h ∈ hs ∖ {[+ HOrphan +]} ⊎ {[+ HThread i +]}) by (clear; multiset_solver).
  assert (Hlk : is_Some (slot_of w n r) → holds_lock (hs ∖ {[+ HOrphan +]} ⊎ {[+ HThread i +]})).
  { intros [x Hx]. destruct (slot_lock _ _ _ _ Hx) as (l & El & Eh & _). destruct (pv_slot _ Hw _ _ El) as (hm & Hh & Hm).
    rewrite Eh, Hr in Hh. injection Hh as <-. destruct (Hm _ eq_refl) as [?|[j ?]]; [left|right; exists j]; by apply Hkeep. }
  assert (Hmul : ∀ h, h ≠ HOrphan → multiplicity h (hs ∖ {[+ HOrphan +]} ⊎ {[+ HThread i +]}) = (multiplicity h hs + multiplicity h {[+ HThread i +]})%nat).
  { intros h Hh. rewrite multiplicity_disj_union, multiplicity_difference, (multiplicity_singleton_ne h HOrphan) by done. lia. }
  split.
  - eapply rehomed_moves; [done..|by apply Hkeep|done|]. intros j Hj. rewrite !Hmul, !multiplicity_singleton_ne by congruence. lia.
  - eexists _, _, _. split; [by rewrite <-HV, (view_arc _ _ _ _ _ Hr)|]. eapply knows_set; [eapply rehomed_inv; [done..|by apply Hkeep|done]|done|].
    intros x. rewrite (rehomed_view _ _ _ _ _ _ _ Hr). case_decide; [|done].
    rewrite !Hmul, multiplicity_singleton, decide_True, multiplicity_singleton_ne by done. by rewrite Nat.add_1_r, Nat.add_0_r.
Qed.

(** What was got hold of is used and let go. *)
Definition got (i : nat) (V : nat → View) (r : nat) (x : result LnError bool) (w : ProcWorld) : Prop :=
  match x with
  | Ok true => ∃ n a s sl, V r = arc_view n a s sl ∧ knows i (<[r := arc_view n (S a) s sl]> V) w
  | Ok false => knows i V w
  | _ => False
  end.
Lemma got_ends {A} i V (m : Proc bool) r w (f : nat → A) : nrg i m w (got i V r) →
  nrg i (b ← m; if (b : bool) then _ ← proc_ask f; drop_arc (HThread i) i r else mret tt) w (ends i V).
Proof.
  intros Hm. apply nrg_bind. eapply rg_mono; [|exact Hm]. intros [[]|?|] w1 Hx; [|by intros _|done..].
  destruct Hx as (n & a & s & sl & HV & Hk). apply nrg_bind. eapply rg_mono; [|by eapply nrg_ask].
  intros ? w2 [[? ->] Hk2]. by eapply held_ends.
Qed.

Lemma lost_stopper_ends i V w r : knows i V w → nrg i (lost_stopper i r) w (ends i V).
Proof.
  intros Hk. apply got_ends. eapply nrg_step; [done|]. intros w1 _ Hk1. unfold got.
  destruct (pr_home w1 !! r) as [[n [j|hs]]|] eqn:E; cbn [fst snd]; try (split; [apply proc_refl|done]).
  destruct (decide (HOrphan ∈ hs)) as [Ho|]; cbn [fst snd]; [|split; [apply proc_refl|done]]. unfold move_holder. rewrite E.
  destruct (adopt_spec i V w1 r n hs Hk1 E Ho) as (Hm & a & s & sl & HV & Hk'). split; [exact Hm|]. by exists n, a, s, sl.
Qed.

(** ** Starting *)
Lemma exit_connect_ends i V w n r g : knows i V w → nrg i (exit_connect i n r g) w (ends i V).
Proof.
  intros Hk. apply nrg_then_ends; [apply still_stage|done|]. intros _ w1 Hk1.
  apply nrg_then_ends; [apply still_ask|done|]. intros up w2 Hk2.
  apply nrg_then_ends; [apply (still_look (λ w, Ok (ns_generation (node w n))))|done|]. intros g' w3 Hk3. destruct (negb up || _); [by intros _|].
  apply got_ends. eapply nrg_step; [done|]. intros w4 _ Hk4. unfold got.
  destruct (pr_home w4 !! r) as [[m [j|hs]]|] eqn:E; cbn [fst snd]; try (split; [apply proc_refl|done]).
  destruct (gain_spec i V w4 r m hs Hk4 E) as (Hm & a & s & sl & HV & Hk'). split; [exact Hm|]. by exists m, a, s, sl.
Qed.

(** Of a part of a start, for the run [r]: it is installed, and the thread has
    nothing of it any more; or the thread has what it had. *)
Definition outcome (i : nat) (V : nat → View) (r n g : nat) (x : result LnError (option (result LnError unit))) (w : ProcWorld) : Prop :=
  match x with
  | Ok None => knows i (<[r := VNone]> V) w ∧ was_installed n g w
  | Ok (Some _) | Err _ => knows i V w
  | Panic => True
  end.

Lemma nrg_then_outcome {A} i V (m : Proc A) f w r n g : quiet_part m → knows i V w →
  (∀ a w, knows i V w → nrg i (f a) w (outcome i V r n g)) → nrg i (m ≫= f) w (outcome i V r n g).
Proof. intros Hm Hk Hf. eapply nrg_then; [done|done| |done]. by intros [|?|] w' Hk'. Qed.

Lemma go_on_spec i V n g r rest w : knows i V w → (∀ w, knows i V w → nrg i rest w (outcome i V r n g)) →
  nrg i (go_on n g rest) w (outcome i V r n g).
Proof.
  intros Hk Hr. apply nrg_then_outcome; [apply still_checkpoint|done|]. intros [h|] w1 Hk1; [done|by apply Hr].
Qed.

Lemma start_built_spec i V w n r g mode id held : knows i V w → V r = VOwn n (Some n) (Some held) →
  nrg i (start_built i n r g mode id) w (outcome i V r n g).
Proof.
  intros Hk HV. apply nrg_then_outcome; [apply still_lift|done|]. intros _ w1 Hk1.
  apply go_on_spec; [done|]. intros w2 Hk2. apply nrg_then_outcome; [apply still_stage|done|]. intros _ w3 Hk3.
  apply nrg_then_outcome; [apply still_ask|done|]. intros s w4 Hk4. apply nrg_then_outcome; [apply still_lift|done|]. intros _ w5 Hk5.
  apply go_on_spec; [done|]. intros w6 Hk6. apply nrg_then_outcome; [|done|].
  - case_decide; [|apply still_ret]. apply still_bind; [apply still_stage|]. intros _. apply still_bind; [apply still_ask|]. intros c. apply still_lift.
  - intros _ w7 Hk7. eapply rg_mono; [|by eapply install_spec]. by intros [[?|]|?|] w' Hx.
Qed.

Lemma start_locked_spec i V w n r g mode held : knows i V w → V r = VOwn n None (Some held) →
  nrg i (start_locked i n r g mode) w (outcome i V r n g).
Proof.
  intros Hk HV. apply go_on_spec; [done|]. intros w1 Hk1. apply nrg_then_outcome; [apply still_stage|done|]. intros _ w2 Hk2.
  apply nrg_bind. eapply rg_mono; [|by eapply build_spec]. intros [id|e|] w3 Hk3; [|done..].
  apply nrg_bind, nrg_attempt. eapply rg_mono; [|eapply start_built_spec; [exact Hk3|by rewrite fn_lookup_insert]].
  assert (Hback : ∀ out w, knows i (<[r := VOwn n (Some n) (Some held)]> V) w → out ≠ Ok None →
    nrg i (_ ← drop_node i r; proc_lift out) w (outcome i V r n g)).
  { intros out w4 Hk4 Hout. apply nrg_bind. eapply rg_mono; [|eapply drop_node_spec; [exact Hk4|by rewrite fn_lookup_insert]].
    intros ? w5 [-> Hk5]. apply knows_again, knows_back in Hk5; [|done]. by destruct out as [[?|]|?|]. }
  intros [[h|]|e|] w4 Hx; [by apply Hback| |by apply Hback|done]. destruct Hx as [Hx Hg]. split; [by eapply knows_again|done].
Qed.

Lemma start_claimed_spec i V w n r g mode lm : knows i V w → V r = VOwn n None None →
  nrg i (start_claimed i n r g mode lm) w (outcome i V r n g).
Proof.
  intros Hk HV. apply nrg_then_outcome; [|done|].
  { case_decide; [|apply still_ret]. apply still_bind; [apply still_stage|]. intros _. apply still_probe. }
  intros _ w1 Hk1. apply go_on_spec; [done|]. intros w2 Hk2. apply nrg_then_outcome; [apply still_stage|done|]. intros _ w3 Hk3.
  apply nrg_bind. eapply rg_mono; [|by eapply take_lock_spec]. intros [held|e|] w4 Hk4; [|done..].
  apply nrg_bind, nrg_attempt. eapply rg_mono; [|eapply start_locked_spec; [exact Hk4|by rewrite fn_lookup_insert]].
  assert (Hback : ∀ out w, knows i (<[r := VOwn n None (Some held)]> V) w → out ≠ Ok None →
    nrg i (_ ← release_lock_if n (Some held); proc_lift out) w (outcome i V r n g)).
  { intros out w5 Hk5 Hout. apply nrg_bind. eapply rg_mono; [|eapply guard_spec; [exact Hk5|by rewrite fn_lookup_insert]].
    intros ? w6 [-> Hk6]. apply knows_again, knows_back in Hk6; [|done]. by destruct out as [[?|]|?|]. }
  intros [[h|]|e|] w5 Hx; [by apply Hback| |by apply Hback|done]. destruct Hx as [Hx Hg]. split; [by eapply knows_again|done].
Qed.

Lemma claim_run_spec i n g lm : ∀ rounds V w, knows i V w → nrg i (claim_run i n g lm rounds) w (λ x w', match x with
  | Ok (inr r) => V r = VNone ∧ knows i (<[r := VOwn n None None]> V) w'
  | Ok (inl _) | Err _ => knows i V w'
  | Panic => True
  end).
Proof.
  induction rounds as [|rounds IH]; intros V w Hk; cbn [claim_run];
    (eapply nrg_then; [apply still_checkpoint|exact Hk|by intros [|?|] w'|]; intros [h|] w1 Hk1; [done|];
     apply nrg_bind; eapply rg_mono; [|by eapply try_acquire_spec]; intros [[st|r]|?|] w2 Hx; [|done..]).
  all: assert (Hrun : nrg i (b ← (if decide (lm = LmAcquire) then installed n else mret false);
    mret (inl (if (b : bool) then Ok tt else Err (LnOther "already_running")) : result LnError unit + nat)) w2 (λ x w', match x with
    | Ok (inr r) => V r = VNone ∧ knows i (<[r := VOwn n None None]> V) w' | Ok (inl _) | Err _ => knows i V w' | Panic => True end))
    by (eapply nrg_then; [case_decide; [apply still_look|apply still_ret]|exact Hx|by intros [|?|] w'|by intros b w3 Hk3]).
  - by destruct st.
  - destruct st; [by apply IH|exact Hrun|by apply IH].
Qed.

Lemma start_job_ends i V w n g mode lm rounds : knows i V w → nrg i (start_job i n g mode lm rounds) w (ends i V).
Proof.
  intros Hk. apply nrg_then_ends; [apply still_stage|done|]. intros _ w1 Hk1.
  apply nrg_bind. eapply rg_mono; [|by eapply claim_run_spec]. intros [[h|r]|?|] w2 Hx; [by intros _| |by intros _|by intros ?].
  destruct Hx as [HV Hk2]. apply nrg_bind, nrg_attempt. eapply rg_mono; [|eapply start_claimed_spec; [exact Hk2|by rewrite fn_lookup_insert]].
  assert (Hback : ∀ (h : result LnError unit) w, knows i (<[r := VOwn n None None]> V) w → nrg i (_ ← drop_claim i r; proc_lift h) w (ends i V)).
  { intros h w3 Hk3. apply nrg_bind. eapply rg_mono; [|eapply drop_claim_spec; [exact Hk3|by rewrite fn_lookup_insert]].
    intros ? w4 [-> Hk4] _. apply knows_again in Hk4. by eapply knows_back. }
  intros [[h|]|e|] w3 Hx; [by apply Hback| |by apply Hback|by intros ?]. destruct Hx as [Hx _]. apply knows_again, knows_back in Hx; [|done].
  apply nrg_then_ends; [apply still_spawn|done|]. intros _ w4 Hk4. case_decide; [by apply exit_connect_ends|by intros _].
Qed.

Lemma start_impl_ends i V w n mode lm rounds : knows i V w → nrg i (start_impl i n mode lm rounds) w (ends i V).
Proof.
  intros Hk. apply nrg_then_ends; [apply (still_look (λ w, Ok (ns_generation (node w n))))|done|]. intros g w1 Hk1.
  apply nrg_then_ends; [apply still_ask|done|]. intros [] w2 Hk2; [by apply start_job_ends|by intros _].
Qed.

Lemma start_mode_ends i V w n : knows i V w → nrg i (start_mode i n) w (ends i V).
Proof.
  intros Hk. apply nrg_bind. eapply rg_mono; [|by eapply clone_spec]. intros [[R|]|?|] w1 Hx; [|by intros _|done..].
  destruct Hx as (_ & a & s & sl & HV & Hk1). apply nrg_ends; [by eapply held_ends|by intros ??? _].
Qed.

Lemma start_with_ends i V w n mode rounds : knows i V w → nrg i (start_with i n mode rounds) w (ends i V).
Proof. intros Hk. apply nrg_ends; [by apply start_mode_ends|]. intros [m|] w1 Hk1; [by intros _|by apply start_impl_ends]. Qed.
Lemma takeover_start_ends i V w n mode rounds : knows i V w → nrg i (takeover_start i n mode rounds) w (ends i V).
Proof. intros Hk. apply nrg_ends; [by apply start_mode_ends|]. intros [m|] w1 Hk1; [by intros _|by apply start_impl_ends]. Qed.

(** ** Stopping *)
Lemma stop_ends i V w n : knows i V w → nrg i (stop i n) w (ends i V).
Proof.
  intros Hk. apply nrg_bind. eapply rg_mono; [|eapply (nrg_step i (λ w, (Ok (ns_inner (node w n)), uninstall n (HStop i) false w)) w V (λ x w', match x with
    | Ok (Some R) => ∃ a sl, V (rn_run R) = arc_view n a 0 sl ∧ knows i (<[rn_run R := arc_view n a 1 sl]> V) w'
    | Ok None => knows i V w'
    | _ => False
    end)); [done|]].
  - intros [[R|]|?|] w1 Hx; [|by intros _|done..]. destruct Hx as (a & sl & HV & Hk1). rewrite arc_view_zero in HV.
    apply nrg_bind. eapply rg_mono; [|by eapply nrg_ask]. intros ? w2 [[? ->] Hk2].
    apply nrg_bind. eapply rg_mono; [|eapply stop_release_spec; [exact Hk2|by rewrite fn_lookup_insert]]. intros ? w3 [-> Hk3]. apply knows_again in Hk3.
    eapply (dropped_ends i V w3 (rn_run R) n a 0 None); [|done|by right]. by rewrite !(decide_False (P := HStop i = HThread i)).
  - intros w1 _ Hk1. cbn [fst snd]. destruct (ns_inner (node w1 n)) as [R|] eqn:HR.
    + destruct (taken_out_spec i V w1 n R (HStop i) false) as (Ho & a & sl & HV & Hx); [done|done|done|intros j Hj; split; congruence|left; by eexists|].
      split; [exact Ho|]. exists a, sl. split; [done|]. rewrite (multiplicity_singleton_ne (HThread i)), Nat.add_0_r, multiplicity_singleton, decide_True in Hx by done. exact Hx.
    + pose proof (uninstall_none n (HStop i) false w1 HR (proj1 Hk1)) as Hm. split; [apply Hm|by eapply knows_moves].
Qed.

(** ** Calls on a running node *)
Lemma with_running_ends {A} i V w n (use : Running → Proc A) none : knows i V w →
  (∀ V R w, knows i V w → nrg i (use R) w (ends i V)) → nrg i (with_running i n use none) w (ends i V).
Proof.
  intros Hk Hu. apply nrg_bind. eapply rg_mono; [|by eapply clone_spec]. intros [[R|]|?|] w1 Hx; [|by intros _|done..].
  destruct Hx as (_ & a & s & sl & HV & Hk1). apply nrg_bind, nrg_attempt. eapply rg_mono; [|by eapply Hu].
  assert (Hend : ∀ (x : result LnError A) w, knows i (<[rn_run R := arc_view n (S a) s sl]> V) w →
    nrg i (_ ← drop_arc (HThread i) i (rn_run R); proc_lift x) w (ends i V)).
  { intros x w2 Hk2. apply nrg_ends; [by eapply held_ends|]. by intros ? w3 Hk3 _. }
  intros [x|e|] w2 Hx; [by apply Hend, Hx|by apply Hend, Hx|by intros ?].
Qed.
End run.
