(* ===== verification/LnOneWallet.v ===== *)
(** Any number of threads on any number of [Node]s in one process: one ldk-node
    for a wallet, and none that goes on after its device lock was lost. *)

From stdpp Require Import gmultiset functions.
From S2P Require Import Prelude Json Threads Bitcoin LnPay LnLock LnStart LnOneNode LnOneLock LnOneSlot LnOneRun.

Section wallet.
Context `{NodeEnv}.

(** What a call may do with a node it holds, of what is modelled here: use it,
    and check the device lock. *)
Inductive held_use (i n : nat) : Proc unit → Prop :=
| use_end r : held_use i n (proc_lift r)
| use_ask {B} (f : nat → B) (k : B → Proc unit) : (∀ b, held_use i n (k b)) → held_use i n (b ← proc_ask f; k b)
| use_check (k : result LnError unit → Proc unit) :
    (∀ x, held_use i n (k x)) → held_use i n (x ← proc_attempt (check_device_lock i n); k x).

(** The programs of a process. *)
Inductive proc_job (i : nat) : Proc unit → Prop :=
| job_start n mode rounds : proc_job i (start_with i n mode rounds)
| job_takeover n mode rounds : proc_job i (takeover_start i n mode rounds)
| job_timeout n k : proc_job i (start_timeout n k)
| job_stop n : proc_job i (stop i n)
| job_mode n : proc_job i (_ ← start_mode i n; mret tt)
| job_check n : proc_job i (check_device_lock i n)
| job_checker n r rounds : proc_job i (lock_checker i n r rounds)
| job_stopper r : proc_job i (lost_stopper i r)
| job_event n : proc_job i (_ ← lock_lost_event n; mret tt)
| job_call n use : (∀ R, held_use i n (use R)) → proc_job i (with_running i n use tt).

Definition proc_restarts (w w' : ProcWorld) : Prop := ∃ asked, w' = proc_start asked.

Lemma start_inv asked : proc_inv (proc_start asked).
Proof. split; intros *; simpl; rewrite ?lookup_empty; try done; [by intros ?%elem_of_nil|by destruct l1]. Qed.

Lemma held_use_ends i n m : held_use i n m → ∀ V w, knows i V w → nrg i m w (ends i V).
Proof.
  induction 1 as [r|B f k _ IH|k _ IH]; intros V w Hk; [by intros _| |].
  - apply nrg_then_ends; [apply still_ask|done|]. intros b w1 Hk1. by apply IH.
  - apply nrg_bind, nrg_attempt. eapply rg_mono; [|by eapply check_device_lock_ends]. intros [x|e|] w1 Hx; [| |by intros ?]; by apply IH, Hx.
Qed.

Lemma proc_job_safe i p w : proc_job i p → proc_inv w → rg (other_proc i) (own_proc i) p w (λ _ _, True).
Proof.
  intros Hp Hw. assert (Hk : knows i (own_view i w) w) by done. set (V := own_view i w) in Hk. clearbody V. clear Hw.
  cut (nrg i p w (ends i V)); [by apply rg_mono|].
  destruct Hp as [n mode rounds|n mode rounds|n k|n|n|n|n r rounds|r|n|n use Hu].
  - by apply start_with_ends.
  - by apply takeover_start_ends.
  - eapply rg_mono; [|by eapply start_timeout_spec]. by intros ??? _.
  - by apply stop_ends.
  - apply nrg_ends; [by apply start_mode_ends|]. by intros ??? _.
  - by apply check_device_lock_ends.
  - by apply lock_checker_ends.
  - by apply lost_stopper_ends.
  - apply nrg_then_ends; [|done|by intros ??? _]. apply always_atomically. intros w1. split; [|done]. apply quiet_node; auto.
  - apply with_running_ends; [done|]. intros V' R w' Hk'. by eapply held_use_ends.
Qed.

Lemma proc_reach_inv asked ps w : crew_reach proc_job proc_restarts (proc_start asked) ps w → proc_inv w.
Proof.
  intros Hr. apply (crew_invariant proc_job proc_restarts proc_inv other_proc own_proc (proc_start asked) ps w); try done.
  - intros i. exact (proc_trans _).
  - intros i j w1 w2 Hne. by apply proc_other.
  - intros i w1 w2 Hw Hm. by apply Hm.
  - intros i p w1. apply proc_job_safe.
  - intros w1 w2 _ [a ->]. apply start_inv.
  - apply start_inv.
Qed.

(** C29. One ldk-node runs on a wallet.  With any number of threads on any
    number of [Node]s in one process, starts, takeovers, stops, timeouts and
    lost locks in any order: two ldk-nodes that are built and not yet dropped,
    of [Node]s that share a store or a data directory, are the same; and the
    claim on each of a live node's keys is that of its run. *)
Theorem one_node_per_wallet asked ps w r1 r2 n1 n2 k :
  crew_reach proc_job proc_restarts (proc_start asked) ps w →
  pr_live w !! r1 = Some n1 → pr_live w !! r2 = Some n2 → k ∈ claim_keys n1 → k ∈ claim_keys n2 →
  r1 = r2 ∧ ∃ st, pr_claims w !! k = Some (st, r1).
Proof.
  intros Hw%proc_reach_inv H1 H2 Hk1 Hk2. destruct (pv_live _ Hw _ _ H1) as [h1 Hh1]. destruct (pv_live _ Hw _ _ H2) as [h2 Hh2].
  split; [by eapply same_run|by eapply pv_home].
Qed.

(** C30. A lost device lock ends the run that had it.  In every such run of the
    process, no check of the device lock passes for a run of a node after one
    found the lock lost: nothing that checks first is done any more.  An
    installed node either holds the lock that its own start took, or the
    loss of its lock is on record and no lock is left in its slot. *)
Theorem lost_lock_is_final asked ps w :
  crew_reach proc_job proc_restarts (proc_start asked) ps w →
  (∀ n g l1 l2, pr_log w = l1 ++ Passed n g :: l2 → Lost n g ∉ l2) ∧
  (∀ n R, ns_inner (node w n) = Some R → (∃ h, ns_lock (node w n) = Some h ∧ hl_run h = rn_run R) ∨
    (ns_lock (node w n) = None ∧ Lost n (rn_generation R) ∈ pr_log w)) ∧
  (∀ n R, ns_inner (node w n) = Some R → ns_generation (node w n) = rn_generation R ∧ pr_live w !! rn_run R = Some n).
Proof.
  intros Hw%proc_reach_inv. split; [by apply pv_final|]. split; intros n R HR; destruct (pv_inner _ Hw _ _ HR) as (Eg & hs & Hh & _).
  - destruct (pv_run _ Hw _ _ HR) as [[x Hx]|Hl]; [left|right; by rewrite <-Eg]. destruct (slot_lock _ _ _ _ Hx) as (h & ? & ? & _). by exists h.
  - split; [done|]. by apply (pv_arc _ Hw _ _ _ Hh).
Qed.
End wallet.
