(* ===== verification/LnOneToy.v ===== *)
(** Two [Node]s over one store, run in a process: starts, checks of the device
    lock, and its loss. *)

From stdpp Require Import gmultiset functions.
From S2P Require Import Prelude Json Threads Bitcoin LnPay LnLock LnStart LnOneNode LnOneLock LnOneSlot LnOneRun LnOneWallet.

(** Everything answers; from the twelfth question on, another device has the lock. *)
#[local] Instance toy_env : NodeEnv := {|
  store_id _ := "s"; abs_dir n := if Nat.eqb n 0 then "/a" else "/b"; own_id _ := "id"; new_client _ := inr tt;
  device_id _ := Ok []; lock_acquire _ _ := Ok {| lh_version := 1; lh_since := 0 |}; lock_takeover _ _ := Ok {| lh_version := 2; lh_since := 0 |};
  lock_refresh k _ h := if Nat.ltb k 11 then (Ok h, h) else (Err ActiveOnAnotherDevice, h);
  lsp_answers _ := true; build_node _ := inr "id"; ldk_start _ := inr tt; ldk_connect _ := inr tt; thread_starts _ := true;
  build_error_display _ := ""; start_error_display _ := ""; spawn_error_display := "" |}.

(** A start, a start of the other [Node], and two checks. *)
Definition w1 : ProcWorld := Eval vm_compute in snd (run_prog (start_with 0 0 Normal 2) (proc_start 0)).
Definition w2 : ProcWorld := Eval vm_compute in snd (run_prog (start_with 1 1 Normal 2) w1).
Definition w3 : ProcWorld := Eval vm_compute in snd (run_prog (check_device_lock 2 0) w2).
Definition w4 : ProcWorld := Eval vm_compute in snd (run_prog (check_device_lock 3 0) w3).
(** The thread that stops the node. *)
Definition w5 : ProcWorld := Eval vm_compute in snd (run_prog (lost_stopper 4 0) w4).

Lemma second_node_refused : "store:s" ∈ claim_keys 1 ∧ fst (run_prog (start_with 1 1 Normal 2) w1) = Err (LnOther "already_running").
Proof. split; [by left|by vm_compute]. Qed.

Lemma lost_node_stopped : fst (run_prog (check_device_lock 2 0) w2) = Ok tt ∧ fst (run_prog (check_device_lock 3 0) w3) = Err ActiveOnAnotherDevice ∧
  pr_live w4 = {[0%nat := 0%nat]} ∧ pr_live w5 = ∅ ∧ pr_claims w5 = ∅.
Proof. by vm_compute. Qed.

Lemma checked_twice : ∃ ps, length ps = 3%nat ∧ crew_reach proc_job proc_restarts (proc_start 0) ps w3.
Proof.
  pose proof (crew_run proc_job proc_restarts _ _ _ _ (crew_start _ _ (proc_start 0)) (job_start 0 0 Normal 2)) as H1. change (snd _) with w1 in H1.
  pose proof (crew_run proc_job proc_restarts _ _ _ _ H1 (job_start 1 1 Normal 2)) as H2. change (snd _) with w2 in H2.
  pose proof (crew_run proc_job proc_restarts _ _ _ _ H2 (job_check 2 0)) as H3. change (snd _) with w3 in H3. eexists. by split; [|exact H3].
Qed.
Lemma lost_run : ∃ ps, crew_reach proc_job proc_restarts (proc_start 0) ps w4.
Proof.
  destruct checked_twice as (ps & Hl & H3). pose proof (job_check 3 0) as Hj. rewrite <-Hl in Hj.
  pose proof (crew_run proc_job proc_restarts _ _ _ _ H3 Hj) as H4. rewrite Hl in H4. change (snd _) with w4 in H4. eauto.
Qed.

Lemma one_node_per_wallet_witness : ∃ ps, crew_reach proc_job proc_restarts (proc_start 0) ps w3 ∧
  pr_live w3 !! 0%nat = Some 0%nat ∧ 0%nat = 0%nat ∧ ∃ st, pr_claims w3 !! "store:s" = Some (st, 0%nat).
Proof.
  destruct checked_twice as (ps & _ & Hr). exists ps. split; [done|]. split; [by vm_compute|].
  apply (one_node_per_wallet 0 ps w3 0 0 0 0 "store:s" Hr); [by vm_compute|by vm_compute|by left|by left].
Defined.

Lemma lost_lock_is_final_witness : ∃ ps, crew_reach proc_job proc_restarts (proc_start 0) ps w4 ∧
  pr_log w4 = [Lost 0 0; Passed 0 0] ∧ (∀ n g l1 l2, pr_log w4 = l1 ++ Passed n g :: l2 → Lost n g ∉ l2).
Proof. destruct lost_run as (ps & Hr). exists ps. split; [done|]. split; [by vm_compute|]. apply (lost_lock_is_final 0 ps w4 Hr). Defined.
