(* ===== verification/LnToy.v ===== *)
(** Concrete environments for the phone's Lightning node: they show that the
    assumptions of its theorems can hold together.  They stand for no real
    code. *)

From Stdlib Require Import Ascii.
From S2P Require Import Prelude Json Threads Bitcoin Script Toy IndexKeys Index IndexMempool LnPay LnPayOnce LnLock LnChannel LnFunds LnVoid LnRecover LnRescue.

(** ** Hexadecimal *)
Definition hex_digit (n : N) : ascii := ascii_of_N (if (n <? 10)%N then 48 + n else 87 + n).
Definition digit_hex (a : ascii) : N := let n := N_of_ascii a in if (n <? 58)%N then n - 48 else n - 87.

Fixpoint hex_of (b : bytes) : string :=
  match b with
  | [] => ""
  | x :: b => let n := Byte.to_N x in String (hex_digit (n / 16)) (String (hex_digit (n mod 16)) (hex_of b))
  end.
Fixpoint of_hex (s : string) : option bytes :=
  match s with
  | "" => Some []
  | String a (String b s) => x ← Byte.of_N (16 * digit_hex a + digit_hex b); l ← of_hex s; Some (x :: l)
  | _ => None
  end.

Lemma of_hex_of b : of_hex (hex_of b) = Some b.
Proof.
  induction b as [|x b IH]; [done|]. cbn [hex_of of_hex]. rewrite IH.
  by replace (Byte.of_N _) with (Some x) by (by destruct x).
Qed.
Lemma length_hex_of b : String.length (hex_of b) = (2 * length b)%nat.
Proof. induction b as [|x b IH]; simpl in *; lia. Qed.
Lemma hex_of_lower b : all_chars is_lower_hex (hex_of b) = true.
Proof.
  induction b as [|x b IH]; [done|]. unfold all_chars in *. cbn [hex_of String.list_ascii_of_string forallb]. rewrite IH.
  by destruct x.
Qed.

(** ** The lock record *)
Module LockToy.
#[local] Instance lock_lib : BitcoinLib := toy_lib_of (λ _, inl "unreadable") hex_of of_hex.

#[local] Instance lock_json : JsonText := {|
  json_print := λ v, match v with
    | VObj [(_, VStr d); (_, VNum n)] => String.list_byte_of_string (positive_string (encode (d, n)))
    | _ => []
    end;
  json_parse := λ b,
    '(d, n) ← decode (string_positive (String.string_of_list_byte b));
    Some (VObj [("device_id", VStr d); ("since", VNum n)]);
|}.

#[local] Instance lock_link : Link := {| delivery := λ _, Answered; other_keys := λ _, false |}.

#[local] Instance lock_text : LockText.
Proof.
  split; [|exact of_hex_of|exact length_hex_of|exact hex_of_lower].
  intros d n. cbn [json_parse json_print lock_json].
  by rewrite String.string_of_list_byte_of_string, string_positive_string, decode_encode.
Qed.

Definition A : bytes := pad 16 [x0a].
Definition B : bytes := pad 16 [x0b].

Lemma replaced_holder_refused_witness :
  let held := {| lh_version := 3; lh_since := 10 |} in
  let w := {| lk_store := Some (lock_encode {| lr_device := B; lr_since := 20 |}, 4); lk_asked := 0 |} in
  rg (rtc (others_write A held)) (λ w w', lk_store w' = lk_store w) (refresh A held) w (λ x _, ∃ e, fst x = Err e).
Proof.
  cbv zeta. apply replaced_holder_refused. eexists _, 4.
  split_and!; [done|split; [done|by vm_compute]|by vm_compute|done].
Defined.

Lemma lock_version_reused_witness :
  let '(ra, w1) := run_prog (acquire A 1) {| lk_store := None; lk_asked := 0 |} in
  let '(rb, w2) := run_prog (takeover B 2) w1 in
  ∃ ha hb, ra = Ok ha ∧ rb = Ok hb ∧
  let '(rb', w4) := run_prog (acquire B 3) (snd (run_prog (lock_release hb) w2)) in
  (∃ hb', rb' = Ok hb' ∧ lk_store w4 = Some (lock_encode {| lr_device := B; lr_since := 3 |}, lh_version hb')) ∧
  let '(r, w5) := run_prog (refresh A ha) w4 in
  (∃ ha', fst r = Ok ha') ∧ fst <$> lk_store w5 = Some (lock_encode {| lr_device := A; lr_since := 1 |}).
Proof. exact (lock_version_reused A B 1 2 3 0 (λ _, eq_refl)). Defined.
End LockToy.

(** ** Paying: every send ends with its outcome unknown *)
Module PayToy.
#[local] Instance pay_env : PayEnv := {|
  pay_now_secs := λ n, 1_000 + Z.of_nat n;
  read_error := λ _, None;
  write_outcome := λ _, Written;
  io_display := λ _, "io";
|}.

Definition bill : Bolt11Invoice := {|
  inv_network := "bitcoin"; inv_id := "h"; inv_expires_at := Some 1_100; inv_payee := "shop";
  inv_amount_msat := Some 5_000; inv_description := Some "coffee" |}.

#[local] Instance pay_node : LnNode := {|
  running := λ _, Some Normal;
  lsp_connected := λ _, true;
  list_ln_channels := λ _, [{| ln_is_usable := true; ln_next_outbound_htlc_limit_msat := 10^9; ln_inbound_capacity_msat := 0 |}];
  ldk_lists := λ _ _, false;
  ldk_send := λ _ _ _, inl PersistenceFailed;
  ldk_send_offer := λ _ _ _, inl PersistenceFailed;
  node_error_display := λ _, "error";
  bolt11_from_str := λ _, inr bill;
  offer_from_str := λ _, inl "no offer";
  would_expire := λ _ _, false;
  offer_expired := λ _ _, true;
  lnurl_resolve := λ _ _, Err NoRoute;
  request_invoice := λ _ _ _, Err NoRoute;
  check_device_lock := λ _, Ok tt;
  own_network := "bitcoin";
  own_node_id := "me";
|}.

Definition call (i : nat) : Pay string := pay i (Bolt11 "lnbc" None "" 3_600) None.

(** The first call ends unknown and the second is refused; the phone is off
    until the invoice has been over for ten minutes; the third call sends. *)
Definition w1 : PayWorld := Eval vm_compute in snd (run_prog (call 0) (pay_start FMissing FMissing)).
Definition w2 : PayWorld := Eval vm_compute in snd (run_prog (call 1) w1).
Definition w3 : PayWorld := {|
  pw_attempts := pw_attempts w2; pw_notes := pw_notes w2; pw_in_flight := ∅; pw_asked := 800; pw_sends := pw_sends w2 |}.
Definition w4 : PayWorld := Eval vm_compute in snd (run_prog (call 0) w3).

Lemma second_refused : fst (run_prog (call 1) w1) = Err PaymentStateUnknown ∧ length (pw_sends w2) = 1%nat.
Proof. by vm_compute. Qed.

Lemma call_job i : pay_job i (call i).
Proof. by eexists _, _. Qed.

Lemma w4_run : ∃ ps, crew_reach pay_job restarts (pay_start FMissing FMissing) ps w4.
Proof.
  pose proof (crew_run pay_job restarts _ _ _ _ (crew_start _ _ (pay_start FMissing FMissing)) (call_job 0)) as H1.
  change (snd _) with w1 in H1. pose proof (crew_run pay_job restarts _ _ _ _ H1 (call_job 1)) as H2. change (snd _) with w2 in H2.
  assert (Hx : restarts w2 w3) by (split_and!; [done|apply Nat.leb_le; by vm_compute|done|by left]).
  pose proof (crew_run pay_job restarts _ _ _ _ (crew_crash _ _ _ _ _ _ H2 Hx) (call_job 0)) as H3.
  change (snd _) with w4 in H3. eauto.
Qed.

Lemma unknown_payment_not_resent_witness : ∃ ps s2 s1,
  crew_reach pay_job restarts (pay_start FMissing FMissing) ps w4 ∧ pw_sends w4 = [s2; s1] ∧
  sd_id s1 = sd_id s2 ∧ uncertain s1 ∧ excused s1 (sd_at s2).
Proof.
  destruct w4_run as [ps Hr]. exists ps. do 2 eexists. split; [done|]. split; [done|]. split; [done|]. split; [done|].
  refine (unknown_payment_not_resent FMissing FMissing ps w4 [] _ _ _ Hr eq_refl _ _ _); [by left|done|done].
Defined.
End PayToy.

(** ** Channels *)
Module ChanToy.
#[local] Instance chan_pay_env (clock : nat → Z) : PayEnv := {|
  pay_now_secs := clock; read_error := λ _, None; write_outcome := λ _, Written; io_display := λ _, "io" |}.

Definition chan_c : ChanDetails := {|
  ch_channel_id := "c"; ch_user_channel_id := 1; ch_counterparty := "lsp"; ch_is_outbound := true;
  ch_funding_txid := Some "t"; ch_confirmations := None; ch_is_channel_ready := false; ch_is_usable := false;
  ch_value_sats := 50_000; ch_inbound_capacity_msat := 0; ch_outbound_capacity_msat := 0 |}.

(** A node that lists channel [c] between two steps and always shows a balance
    of it; its wallet last synced when [sync] says, and has not seen the
    funding confirm. *)
Definition chan_node (from till : nat) (sync : nat → Z) : ChanNode := {|
  list_chan := λ n, if (Nat.leb from n && Nat.ltb n till)%bool then [chan_c] else [];
  list_balances := λ _, {|
    bd_total_lightning_balance_sats := 40_000;
    bd_lightning_balances := [ContentiousClaimable "c" 40_000];
    bd_pending_balances_from_channel_closures := [];
    bd_total_onchain_balance_sats := 10_000; bd_spendable_onchain_balance_sats := 10_000;
    bd_total_anchor_channels_reserve_sats := 0 |};
  sync_status := λ n, (Some (sync n), Some (sync n));
  txid_ok := λ _, true; payment_status := λ _ _, Some OnchainUnconfirmed; peer_connected := λ _ _, true;
  sync_wallets := λ _, inr tt; connect_lsp := λ _, inr tt; new_address := λ _, inr "addr";
  ldk_open_channel := λ _ _, inr tt; ldk_splice_in := λ _ _ _, inr tt; ldk_splice_out := λ _ _ _ _, inr tt;
  ldk_close_channel := λ _ _ _, inr tt; ldk_force_close_channel := λ _ _ _, inr tt;
  send_all_to_address := λ _ _ _, inr "swept"; address_network_ok := λ _, Some true;
  lsp_id := "lsp"; channel_max_sat := 10^8; chain_kind := Esplora |}.
#[local] Existing Instance PayToy.pay_node.

Definition moved (n : nat) (w : ChanWorld) : ChanWorld := {| cw_closes := cw_closes w; cw_asked := n; cw_calls := cw_calls w |}.

Lemma listed_c from till sync n id :
  id ∈ @listed_at (chan_node from till sync) n ↔ id = "c" ∧ (from ≤ n < till)%nat.
Proof.
  unfold listed_at. simpl. destruct (Nat.leb_spec from n), (Nat.ltb_spec n till); simpl; rewrite ?elem_of_cons, elem_of_nil;
    naive_solver lia.
Qed.

(** The channel closes and its funding never confirms. *)
Module Never.
Definition clock (n : nat) : Z := Z.min (1_000 + Z.of_nat n) (10^10).
#[local] Instance env : PayEnv := chan_pay_env clock.
#[local] Instance node : ChanNode := chan_node 0 10 clock.
#[local] Instance out : Outside := {|
  opens_at := λ _, 0%nat; closes_at := λ id, Some (if String.eqb id "c" then 10 else 0)%nat; confirmed_by := λ _ _, false |}.

Lemma out_ok : outside_ok.
Proof.
  split.
  - intros id n _. simpl. lia.
  - intros id n Hn _. simpl. eexists. split; [done|].
    destruct (String.eqb_spec id "c"); [|lia]. destruct (decide (n < 10)%nat); [|lia].
    destruct Hn. apply (listed_c 0 10 clock). split; [done|lia].
  - intros id k _. simpl. lia.
  - intros n. simpl. unfold clock, u64_max, SYNC_SLACK_SECS. lia.
  - intros n s [= <-]. unfold clock, in_range, u64_max. lia.
  - done.
  - intros n m s t [= <-] Hn _. exists n. split; [done|]. split; [simpl; lia|done].
Qed.

(** Seen open, seen closed, and swept once a sync is late enough. *)
Definition w1 : ChanWorld := Eval vm_compute in moved 20 (snd (run_prog channel_state (chan_start FMissing))).
Definition w2 : ChanWorld := Eval vm_compute in moved 100 (snd (run_prog channel_state w1)).
Definition w3 : ChanWorld := Eval vm_compute in snd (run_prog (sweep_transit "addr") w2).

Lemma w2_reached : chan_reach w2.
Proof.
  assert (Hm : ∀ n w, chan_reach w → (cw_asked w ≤ n)%nat → chan_reach (moved n w)).
  { intros n w Hw Hn. apply (chan_stops w); [done|]. split; [done|]. split; [done|by left]. }
  assert (Hs : ∀ w, chan_reach w → chan_reach (snd (run_prog channel_state w))).
  { intros w Hw. eapply chan_runs; [done|apply job_state|apply upto_run]. }
  pose proof (Hm 20%nat _ (Hs _ chan_starts) ltac:(apply Nat.leb_le; by vm_compute)) as H1.
  exact (Hm 100%nat _ (Hs _ H1) ltac:(apply Nat.leb_le; by vm_compute)).
Qed.

Lemma sweep_guarded_witness :
  cw_calls w3 ≠ cw_calls w2 ∧ ∃ n, (cw_asked w2 ≤ n < cw_asked w3)%nat ∧ sweep_safe n (closes_of (shown (cw_closes w3))).
Proof.
  assert (Hc : cw_calls w3 ≠ cw_calls w2) by done. split; [exact Hc|].
  exact (sweep_guarded out_ok w2 w3 "addr" w2_reached (upto_run (sweep_transit "addr") w2) Hc).
Defined.
End Never.

(** A list of channels that is older than the records.  A look at the node that
    listed no channel is overtaken by one that records the new channel, and
    stamps its record as if the channel had closed.  Much later the funding
    confirms and the channel is closed by force; before the wallet has seen the
    confirmation the old stamp makes the funding count as void, and the
    transit wallet is swept. *)
Module Race.
Definition clock (n : nat) : Z := Z.min ((if Nat.ltb n 41 then 1_000 else 1_060) + Z.of_nat n) (10^10).
#[local] Instance env : PayEnv := chan_pay_env clock.
#[local] Instance node : ChanNode := chan_node 1 41 (λ n, if Nat.ltb n 41 then 990 else 1_090).
#[local] Instance out : Outside := {|
  opens_at := λ id, if String.eqb id "c" then 1%nat else 0%nat; closes_at := λ id, Some (if String.eqb id "c" then 41 else 0)%nat;
  confirmed_by := λ n _, Nat.ltb 41 n |}.

Lemma race_ok : outside_ok.
Proof.
  split.
  - intros id n [-> Hn]%listed_c. simpl. lia.
  - intros id n Hn Ho. simpl in *. eexists. split; [done|].
    destruct (String.eqb_spec id "c"); [|lia]. destruct (decide (n < 41)%nat); [|lia].
    destruct Hn. apply (listed_c 1 41). split; [done|lia].
  - intros id k [= <-]. simpl. destruct (String.eqb id "c"); lia.
  - intros n. simpl. unfold clock, u64_max, SYNC_SLACK_SECS. destruct (Nat.ltb n 41); lia.
  - intros n s [= <-]. unfold in_range, u64_max. destruct (Nat.ltb n 41); lia.
  - done.
  - intros n m s t [= <-] Hn _. exists (Nat.min n 41). split; [lia|]. split.
    + simpl. unfold clock. destruct (Nat.ltb_spec n 41), (Nat.ltb_spec (Nat.min n 41) 41); lia.
    + simpl. apply Nat.ltb_ge. lia.
Qed.

(** The second look runs between the first two steps of the first. *)
Definition overtaking (n : nat) (w : ChanWorld) : ChanWorld :=
  if Nat.eqb n 1 then snd (run_prog channel_state w) else w.
Definition r1 : ChanWorld := Eval vm_compute in moved 41 (snd (run_env overtaking 0 balances_of (chan_start FMissing))).
Definition r2 : ChanWorld := Eval vm_compute in snd (run_prog (sweep_transit "addr") r1).

Lemma overtaken_look_sweeps :
  outside_ok ∧ cw_calls r1 = [] ∧ cw_calls r2 ≠ [] ∧
  ∀ n, (cw_asked r1 ≤ n < cw_asked r2)%nat → ¬ sweep_safe n (closes_of (shown (cw_closes r2))).
Proof.
  split; [apply race_ok|]. split; [done|]. split; [done|]. intros n Hn [_ _ Hm].
  assert (Hr : (41 ≤ n)%nat) by (revert Hn; clear; vm_compute; lia). clear Hn.
  destruct (Hm (ContentiousClaimable "c" 40_000) ltac:(by left)) as [Hl|[(t & _ & k & m & j & Hk & Hkm & Hx & Hc)|[?|[? _]]]]; [|clear Hm|done..].
  - apply listed_c in Hl. lia.
  - simpl in *. injection Hk as <-. apply Nat.ltb_ge in Hc. unfold clock in Hx.
    destruct (Nat.ltb_spec m 41), (Nat.ltb_spec j 41); lia.
Qed.
End Race.

(** A cooperative close of 149,056 sat in the mempool, of which the wallet
    sees the output of 148,830 sat; a timelocked output, a sweep and an open
    channel besides. *)
Definition funds : BalanceInputs :=
  let mb o c k cl := {| mb_channel_open := o; mb_claimable_sat := c; mb_kind := k; mb_close := cl; mb_funding_void := false |} in
  {| bi_total_lightning_sat := 150_067; bi_monitors := [mb true 1_000 OnClose None; mb false 149_056 OnClose (Some Coop);
       mb false 10 CoopConfirmed (Some Coop); mb false 1 Resolving None];
     bi_sweeps := [{| sb_amount_sat := 7; sb_state := Broadcast false |}];
     bi_wallet := {| wb_total_sat := 149_844 + 148_830; wb_spendable_sat := 149_844; wb_reserve_sat := 0 |} |}.

Lemma breakdown_counts_once_witness :
  let b := breakdown funds in
  pending_close_sat b = 149_064 ∧ pending_transit_sat b = 0 ∧
  lightning_sat b + onchain_transit_sat b + pending_close_sat b + reserved_sat b + pending_transit_sat b =
    149_844 + 149_056 + 1_000 + 1 + 7.
Proof.
  cbv zeta. split; [done|]. split; [done|].
  assert (Hok : balances_ok funds) by (split; [repeat constructor; simpl; lia..|done|by vm_compute|done|by vm_compute|by vm_compute]).
  assert (Hseen : outputs_seen funds [0; 148_830; 0; 0]) by (split; [repeat constructor; by vm_compute|by vm_compute]).
  destruct (breakdown_counts_once funds [0; 148_830; 0; 0] Hok Hseen) as (_ & _ & E & _). exact E.
Defined.

Lemma closes_survive_witness :
  let w := chan_start FMissing in
  let m := <["c" := {| cr_kind := Some Coop; cr_unconfirmed_funding := Some "t"; cr_closed_seen_at := Some 5;
                       cr_onchain_sync_at_close_seen := None |}]> (∅ : Closes) in
  let w' := snd (run_prog (update_closes (H := chan_pay_env (λ _, 0)) (λ _, m)) w) in
  fst (run_prog (load_closes (H := chan_pay_env (λ _, 0))) w') = Ok (without_empty m).
Proof.
  cbv zeta. eapply (closes_survive (H := chan_pay_env (λ _, 0)) (λ _, _) (chan_start FMissing)); [|done|done|].
  - apply injective_projections; [by vm_compute|done].
  - apply map_Forall_insert_2; [split; [by vm_compute|done]|apply map_Forall_empty].
Defined.
End ChanToy.

(** ** Recovery from the seed *)
Module RecoverToy.
Definition toy_key (k : Z) : bytes := pad 33 (x02 :: le_bytes 4 k).

(** A signature is the key followed by the digest. *)
#[local] Instance recover_lib : RecoverLib := {|
  static_public_key := λ _ k, Some (toy_key k);
  p2wpkh_of := λ pk, x00 :: x14 :: pk;
  anchor_script := λ pk, x21 :: pk ++ [xad; x51; xb2];
  is_p2wsh_spk := λ b, bool_decide (take 2 b = [x00; x20]);
  is_p2wpkh_spk := λ b, bool_decide (take 2 b = [x00; x14]);
  p2wpkh_signature_hash := λ _ _ spk v, inr (pad 32 (le_bytes 8 v ++ spk));
  sign_low_r := λ _ k h, toy_key k ++ h;
  parse_signature := λ b, Some (b, true);
  tx_weight_wu := λ tx, 170 + 290 * Z.of_nat (length (input tx));
|}.

Definition seed : bytes := [x07].
Definition scripts : list (Z * bytes) := static_scripts seed.

Definition le_number (b : bytes) : Z := foldr (λ x n, Z.of_N (Byte.to_N x) + 256 * n) 0 b.

(** The number of a script, read off it. *)
Definition script_number (b : bytes) : Z :=
  match b with
  | _ :: x14 :: _ :: k => 2 * le_number (take 4 k)
  | _ :: _ :: _ :: _ :: k => 2 * le_number (take 4 k) + 1
  | _ => -1
  end.

Lemma toy_scripts : try_static_scripts seed = Ok scripts.
Proof. by vm_compute. Qed.
Lemma toy_numbers : map script_number (map snd scripts) = seqZ 0 2000.
Proof. by vm_compute. Qed.

Definition coin (n : byte) : OutPoint := {| txid := pad 32 [n]; vout := 0 |}.
Definition script (i : nat) : bytes := default [] (map snd scripts !! i).

(** A plain coin of 30 000, a shared one of 50 000 and one not yet in a block. *)
Definition chain_of (a b d : bytes) : gmap OutPoint (bytes * Z * Z) :=
  {[ coin x01 := (a, 30_000, 12); coin x02 := (b, 50_000, 3); coin x03 := (d, 9_000, 0) ]}.
Definition chain : gmap OutPoint (bytes * Z * Z) := chain_of (script 6) (script 1999) (script 1).

Lemma chain_values a b d op spk v c : chain_of a b d !! op = Some (spk, v, c) → v ≤ MAX_MONEY_SAT.
Proof.
  unfold chain_of, MAX_MONEY_SAT. rewrite !lookup_insert_Some, lookup_singleton_Some.
  intros [[_ E]|[_ [[_ E]|[_ [_ E]]]]]; injection E; lia.
Qed.

Lemma numbered_apart (l : list bytes) : map script_number l = seqZ 0 2000 → NoDup l ∧ Z.of_nat (length l) = 2000.
Proof.
  intros E. split.
  - apply (NoDup_fmap_1 script_number). change (script_number <$> l) with (map script_number l). rewrite E. apply NoDup_seqZ.
  - rewrite <-(length_map script_number), E, length_seqZ. lia.
Qed.

Lemma toy_chain : chain_ok (map snd scripts) chain.
Proof.
  destruct (numbered_apart _ toy_numbers) as [Hn Hl]. split; [exact Hn| |intros op spk v c; apply chain_values].
  rewrite Hl. by apply Z.leb_le.
Qed.

Definition held_by (i : nat) (spk : bytes) (x : OutPoint * (bytes * Z * Z)) : option (nat * UtxoRef) :=
  let '(op, (s, v, c)) := x in
  if decide (s = spk) then Some (i, {| ur_outpoint := op; ur_value_sat := v; ur_confirmations := c |}) else None.
Definition source (k : nat) (c : list bytes) : result LnError (list (nat * UtxoRef)) :=
  Ok (concat (imap (λ i spk, omap (held_by i spk) (map_to_list chain)) c)).

Lemma toy_source : source_honest chain source.
Proof.
  intros k c l [= <-] i u. rewrite list_elem_of_In, in_concat. setoid_rewrite <-list_elem_of_In. split.
  - intros (l & (j & spk & -> & Hj)%elem_of_lookup_imap & ([op [[s v] cf]] & Hx%elem_of_map_to_list & Hu)%list_elem_of_omap).
    simpl in Hu. case_decide; [|done]. injection Hu as <- <-. exists spk. by subst.
  - intros (spk & Hi & Hc). eexists. split; [apply elem_of_lookup_imap; by eexists i, spk|].
    apply list_elem_of_omap. eexists (_, (_, _, _)). split; [by apply elem_of_map_to_list|]. simpl. rewrite decide_True by done. by destruct u.
Qed.

Lemma scan_exact_witness : ∃ told out, scan_static_outputs seed 7 source = (told, Ok out) ∧
  NoDup (map su_outpoint out) ∧ (∀ u, u ∈ out ↔ coin_at (map snd scripts) chain (su_outpoint u) u) ∧ check_utxos ∅ out = Ok tt.
Proof. apply (scan_exact seed 7 source chain scripts toy_scripts toy_chain toy_source). intros k c. by eexists. Defined.

(** The coins of the scan swept at 2 sat a virtual byte. *)
Definition found (n : byte) (i v c : Z) : StaticUtxo :=
  {| su_outpoint := coin n; su_value_sat := v; su_script_index := i; su_confirmations := c |}.
Definition utxos : list StaticUtxo := [found x02 1999 50_000 3; found x03 1 9_000 0; found x01 6 30_000 12].
Definition address : bytes := [x51; x20].
Definition swept : Transaction := match sweep_tx seed utxos (address, true) 2 with Ok (Some tx) => tx | _ => unsigned_sweep [] [] end.

Lemma toy_swept : sweep_tx seed utxos (address, true) 2 = Ok (Some swept).
Proof. by vm_compute. Qed.

Lemma sweep_exact_witness : ∃ spend fee prevouts,
  spend ≡ₚ [found x02 1999 50_000 3; found x01 6 30_000 12] ∧ 546 ≤ 80_000 - fee ∧
  output swept = [{| value := 80_000 - fee; script_pubkey := address |}] ∧
  Forall2 (prevout_of seed) spend prevouts ∧ verify_spend swept prevouts = Ok tt.
Proof.
  assert (H0 : 0 ≤ 2) by lia.
  destruct (sweep_exact seed utxos (address, true) 2 swept H0 toy_swept) as (spend & fee & ps & Hp & _ & _ & Ho & Hd & _ & _ & _ & Hps & Hv).
  exists spend, fee, ps. split_and!; [exact Hp|exact Hd|exact Ho|exact Hps|exact Hv].
Defined.
End RecoverToy.
